(* ===== verification/_CoqProject ===== *)
-Q . S2P
Prelude.v
Interleave.v
GoFloat.v
FloatFacts.v
GoText.v
FormatFloat.v
Json.v
Quote.v
Time.v
Types.v
GoList.v
Policy.v
LRU.v
LFU.v
Clock.v
Registry.v
Events.v
Histogram.v
HistogramConc.v
Memory.v
Collector.v
Snapshot.v
CollectorConc.v
SnapshotConc.v
CSV.v
StatsJSON.v
Store.v
Core.v
CoreSpec.v
Cache.v
CoreConc.v
CoreRecords.v
LRUCache.v
Config.v
ByteSize.v
Main.v
EmptyKey.v
FrameJSON.v
Duration.v
Flags.v
Program.v
Messages.v
