(* ===== verification/Prelude.v ===== *)
(** * adaptive-caching: a verification development

    The program is a cache library in Go and a demo command.  A cache
    ([cache.Core]) holds objects in a byte-bounded store ([cache.Store]) and
    asks an interchangeable eviction policy ([policy.EvictionPolicy]: LRU, LFU
    or Clock, found by name in a registry) which object goes when a new one
    does not fit.  It counts into a metrics collector and publishes events on a
    bounded, droppable bus.  The development models that code as executable
    definitions and proves what each part promises and what the whole does.

    ** Files

    - [Prelude]: outcomes of Go code (return, panic, divergence), machine
      integers, what the language leaves open, shared lemmas, tactics.
    - [GoFloat]: float64 as IEEE binary64 ([SpecFloat]) with Go's operators and
      conversions; [FloatFacts]: when their results are finite or exact.
    - [GoText]: the parts of strings, strconv and fmt that the program uses;
      [FormatFloat]: the shortest decimal form of a float, which reads back;
      [Json]: the text of encoding/json and a reader for it; [Quote]: quoted
      strings, which read back; [Time]: a time as RFC 3339; [Duration]: integers
      in base 0 and durations as text.
    - [Types]: types/: requests, entries, enumerations; the tunable parameters
      with [ParamSet.Clone] on an explicit heap.
    - [GoList]: the part of container/list that the policies use.
    - [Policy]: cache/policy/policy.go: [EvictionPolicy] as a class, and
      [LawfulPolicy], the contract the cache relies on: the policy stands for a
      map from the resident keys to the entry pointers it was given.
    - [LRU], [LFU], [Clock]: cache/policy/lru.go, lfu.go, clock.go: every
      method; the invariant of the data structure; the instance of the
      contract; the behaviour that makes each the policy of its name.
    - [Registry]: cache/policy/registry.go, and [AnyPolicy], the interface
      value: one of the three policies with its state.
    - [Events]: events/types.go and bus.go: the bus over a heap of subscribers
      and a heap of channels, and the step relation of publishers, consumers
      and writers running together.
    - [Histogram], [Memory], [Collector]: metrics/latency.go, memory.go and
      collector.go; [Snapshot]: the range of every number of a snapshot; [CSV],
      [StatsJSON]: WriteCSV and WriteJSON.
    - [Interleave]: threads that take atomic steps on a shared state in any
      order, and why their loops end; [HistogramConc], [CollectorConc]:
      concurrent recordings by their atomic steps; [SnapshotConc]: a snapshot
      read load by load among them.
    - [Store]: cache/store.go over a heap of entries.
    - [Core]: cache/core.go, generic in the policy and the bus, used through
      their interfaces; its invariant ties the store, the policy and the bus.
    - [CoreSpec]: the contracts of the cache's operations, termination,
      histories, sampling.
    - [Cache]: cache/cache.go: the interface [Cache] as a class with its laws,
      the core as an instance, and a client that fills its misses.
    - [CoreConc]: concurrent calls of the cache, by their atomic steps;
      [CoreRecords]: the same with every recording they make by its own.
    - [EmptyKey]: what the empty key does to a cache with the Clock policy.
    - [LRUCache]: the cache with LRU against a textbook LRU cache.
    - [Config]: config/: defaults, validation, frame interval; [ByteSize]: byte
      sizes as text.
    - [Main]: cmd/adaptive-cache/main.go: policy resolution, the options of the
      cache, the frame; [FrameJSON]: its line on standard output; [Flags]: the
      command line; [Program]: [main] and a whole run, from the arguments to the
      end; [Messages]: the texts of the errors.

    ** How state and operations correspond

    A Go struct is a [Record] with the fields of the source; a method is a
    function from its arguments and the state to the new state and the results,
    in [outcome] when it can panic or loop.  A [*types.Entry] is an address in
    the heap of the store, so the pointers a policy holds can be compared with
    those of the store; a [*list.Element] is an address the policy allocates;
    subscribers and channels are addresses in the heaps of the bus.  A Go map
    is a [gmap]; a range statement over one visits it in an order that is a
    parameter ([GoRuntime]), taken anew for every execution of the statement,
    so a theorem holds for every order.  Integers are [Z] with the wrap-around
    of their width written where the source computes ([i64], [u64], [u32]);
    int is 64 bits.  The clock and its zone, the process statistics of the Go
    run time, the YAML decoder and the file system are arguments.  A section
    under a mutex is one function.  Step relations interleave what runs
    together: the calls of the cache (what a call does before, under and after
    the mutex), the publishers of the bus, which share a read lock, and the
    recordings and snapshots of the collector and its histogram, which have no
    lock.  In [Core] and [CoreConc] the cache calls the collector's methods as
    functions; [CoreRecords] shows that their atomic steps, taken while the
    cache goes on, leave the same counters.  A section under a mutex is one
    step, so no state of the model waits for a lock; and [Program] builds a
    frame in one step, though its reads could have steps of the generator
    between them.

    ** What the theorems show

    - The policies: LRU is the recency list of its history; LFU counts accesses
      exactly with ageing off, each bucket in the order in which its keys
      reached their count and the victim the first to reach the least; with
      ageing its victim is a key of least frequency still, and an
      access changes frequencies only as the ageing pass says; Clock's victim
      is the second-chance choice; all three keep their structure sound and
      never panic over any history (for Clock: of keys that are not empty).
    - The store is a byte-bounded map with exact accounting for every capacity
      up to 2^62-1, errors included; above that the accounting can overflow.
    - The cache: a put evicts exactly the policy's victims that are needed and
      no more, with the documented errors; it ends whatever the policy answers;
      a policy switch keeps every object; every history keeps the invariant;
      with LRU installed the cache is the textbook LRU cache; a client that
      fills its misses reads through any lawful cache what it would without.
    - Concurrent calls: the cache is linearizable in the order of the mutex, its
      counters end as the sequential run leaves them, also when the recordings
      take their atomic steps, and every call returns; but two policy switches
      can leave the wrong policy name in the collector.
    - The bus: under every interleaving nothing panics, a publish never waits,
      buffers are bounded, and what a consumer misses is exactly counted.
    - The metrics: counters are exact modulo their width; quantiles are those
      of the recorded durations up to the documented bucket error; concurrent
      recordings end, lose nothing and are linearizable; a snapshot taken among
      them never has more hits and misses than requests.
    - The registry, configuration and command: names and validation decide what
      they say; byte sizes are parsed to what the documentation says and their
      YAML form is lossless; the command line sets the flags it names, to the
      nanosecond; wrong flags, a configuration that does not load and an unknown
      policy end the program with their status and error; any other command line
      starts it, and every run is safe under every interleaving.  Loading
      reports exactly the problems of a configuration, and what [main] writes
      on standard error reads back as what went wrong.
    - The frame is exactly what the cache, its counters and the clock give, and
      building one changes no counter.
    - Output: the CSV and the JSON file decode to exactly the snapshot, floats
      bit for bit, and a frame is one line that decodes to the frame with its
      wall clock to the nanosecond; every float is finite, so encoding never
      fails on one.
    - What the code does against its comments: the candidates of LFU and of
      Clock repeat keys; LFU's ageing pass depends on the order of a map and
      reverses ties; one empty key leaves a cache with the Clock policy in a
      state where a later insertion never returns; sampling skips requests; a [Reset] among recordings leaves more hits than requests; frame
      rates without an interval pass validation; a byte size is
      printed rounded; the subscriber of the demo never receives an event.

    ** Fuel

    [Core.put_loop] has one unit more than there are resident keys: every turn
    of the loop ends it or removes one ([CoreSpec.Put_terminates]).
    [LFU.candidates_loop] has one unit more than the count asked, each turn
    adding a candidate or ending.  [Clock.victim_loop] and
    [Clock.candidates_loop] have the bound of the source, twice the ring.
    [Clock.find_free] is the one loop that may not end: [Clock.OnInsert] gives
    it one turn of the ring, which the invariant shows to be enough when no key
    is empty, and [Clock.find_free_diverges] shows that no fuel is enough on the
    ring an empty key leaves.  [Clock.double_until] has one unit for each
    entry.  [LRUCache.make_room] has one unit for each key.
    [FormatFloat.shortest] tries up to twenty digits where seventeen are
    enough, and falls back on the exact decimal, which also reads back.
    [Json.read_value] has one unit more than the length of its text, and
    [Duration.duration_loop] the length of its own, each turn consuming a unit
    ([Duration.duration_loop_fuel]: more changes nothing).

    ** Not modelled

    The YAML decoding (yaml.v3, which is not in the repository), the usage and
    error texts of the flags, the table of printable runes, the workings of
    signals, tickers and the random generator, and [Entry.PolicyMeta], which no code reads or writes.  The directories that
    hold no code yet are listed in the manifest. *)
From stdpp Require Export base gmap sets list strings sorting.
From Stdlib Require Export ZArith.
From Stdlib Require Export Lia.
From Stdlib Require Floats.SpecFloat.

#[global] Open Scope Z_scope.

(** ** Outcomes of Go code

    A Go function either returns, stops with a run-time panic (a nil or
    missing map entry dereferenced, an index out of range, a send on a closed
    channel, a division by zero), or loops forever.  [Diverge] is what a
    definition with fuel returns when its fuel runs out; every such definition
    comes with a lemma that its fuel is enough. *)
Inductive outcome (A : Type) : Type :=
| Ret (a : A)
| Panic
| Diverge.
Arguments Ret {A} a.
Arguments Panic {A}.
Arguments Diverge {A}.

#[global] Instance outcome_ret : MRet outcome := @Ret.
#[global] Instance outcome_bind : MBind outcome := λ A B f m,
  match m with
  | Ret a => f a
  | Panic => Panic
  | Diverge => Diverge
  end.

#[global] Instance outcome_eq_dec `{EqDecision A} : EqDecision (outcome A).
Proof. solve_decision. Defined.

(** A map lookup or slice index whose failure is a Go panic. *)
Definition or_panic {A} (o : option A) : outcome A :=
  match o with Some a => Ret a | None => Panic end.

(** A Go [for _, x := range xs] statement whose body can panic. *)
Fixpoint for_each {A S} (body : A → S → outcome S) (xs : list A) (s : S) : outcome S :=
  match xs with
  | [] => Ret s
  | x :: xs => s' ← body x s; for_each body xs s'
  end.

Lemma bind_Ret {A B} (a : A) (f : A → outcome B) : (Ret a ≫= f) = f a.
Proof. done. Qed.

Lemma bind_Ret_inv {A B} (m : outcome A) (f : A → outcome B) b :
  (m ≫= f) = Ret b → ∃ a, m = Ret a ∧ f a = Ret b.
Proof. destruct m; naive_solver. Qed.

Lemma for_each_app {A S} (body : A → S → outcome S) xs ys s :
  for_each body (xs ++ ys) s = (s' ← for_each body xs s; for_each body ys s').
Proof.
  revert s. induction xs as [|x xs IH]; intros s; [done|]. simpl.
  destruct (body x s) as [s'| |]; simpl; auto.
Qed.

(** The rule for a loop whose invariant is indexed by what is left to do. *)
Lemma for_each_ind {A S} (body : A → S → outcome S) (I : list A → S → Prop) xs s :
  I xs s →
  (∀ x xs' s', I (x :: xs') s' → ∃ s'', body x s' = Ret s'' ∧ I xs' s'') →
  ∃ s', for_each body xs s = Ret s' ∧ I [] s'.
Proof.
  intros HI Hstep. revert s HI. induction xs as [|x xs IH]; intros s HI; simpl; [eauto|].
  destruct (Hstep _ _ _ HI) as (s' & -> & HI'). apply IH, HI'.
Qed.

(** ** Machine integers

    Values are [Z]; [wrapU w] and [wrapS w] are Go's modular arithmetic on
    unsigned and signed integers of [w] bits. *)
Definition wrapU (w z : Z) : Z := z mod 2 ^ w.
Definition wrapS (w z : Z) : Z := (z + 2 ^ (w - 1)) mod 2 ^ w - 2 ^ (w - 1).

Abbreviation u8 := (wrapU 8).
Abbreviation u32 := (wrapU 32).
Abbreviation u64 := (wrapU 64).
Abbreviation i64 := (wrapS 64).

Definition maxInt64 : Z := 2 ^ 63 - 1.
Definition minInt64 : Z := - 2 ^ 63.

Definition is_u8 (z : Z) : Prop := 0 ≤ z < 2 ^ 8.
Definition is_u32 (z : Z) : Prop := 0 ≤ z < 2 ^ 32.
Definition is_u64 (z : Z) : Prop := 0 ≤ z < 2 ^ 64.
Definition is_i64 (z : Z) : Prop := - 2 ^ 63 ≤ z < 2 ^ 63.

Lemma i64_small z : is_i64 z → i64 z = z.
Proof. unfold is_i64, wrapS. intros. rewrite Z.mod_small; lia. Qed.

Lemma u64_small z : is_u64 z → u64 z = z.
Proof. unfold is_u64, wrapU. intros. rewrite Z.mod_small; lia. Qed.

Lemma u32_small z : is_u32 z → u32 z = z.
Proof. unfold is_u32, wrapU. intros. rewrite Z.mod_small; lia. Qed.

Lemma i64_range z : is_i64 (i64 z).
Proof.
  unfold is_i64, wrapS. pose proof (Z.mod_pos_bound (z + 2 ^ (64 - 1)) (2 ^ 64)). lia.
Qed.

Lemma u64_range z : is_u64 (u64 z).
Proof. unfold is_u64, wrapU. apply Z.mod_pos_bound. lia. Qed.

Lemma u32_range z : is_u32 (u32 z).
Proof. unfold is_u32, wrapU. apply Z.mod_pos_bound. lia. Qed.

Lemma i64_add_l a b : i64 (i64 a + b) = i64 (a + b).
Proof.
  unfold wrapS. f_equal.
  replace ((a + 2 ^ (64 - 1)) mod 2 ^ 64 - 2 ^ (64 - 1) + b + 2 ^ (64 - 1))
    with ((a + 2 ^ (64 - 1)) mod 2 ^ 64 + b) by lia.
  rewrite Z.add_mod_idemp_l by lia. f_equal. lia.
Qed.

Lemma i64_add_r a b : i64 (a + i64 b) = i64 (a + b).
Proof. rewrite Z.add_comm, i64_add_l. f_equal. lia. Qed.

Lemma i64_sub_l a b : i64 (i64 a - b) = i64 (a - b).
Proof. rewrite <-!Z.add_opp_r. apply i64_add_l. Qed.

Lemma i64_idemp a : i64 (i64 a) = i64 a.
Proof. apply i64_small, i64_range. Qed.

Lemma u64_add_l a b : u64 (u64 a + b) = u64 (a + b).
Proof. unfold wrapU. by rewrite Z.add_mod_idemp_l by lia. Qed.

Lemma u64_add_r a b : u64 (a + u64 b) = u64 (a + b).
Proof. unfold wrapU. by rewrite Z.add_mod_idemp_r by lia. Qed.

(** ** The Go run time

    What the language leaves open is a parameter: the order in which a [range]
    over a map visits the keys (a fresh one for every execution of the
    statement, so it also takes the number of the execution), and the result
    of converting a floating-point value that the integer type cannot
    represent, which may depend on the value.  A theorem that mentions [GoRuntime] holds for every choice. *)
Class GoRuntime := {
  range_order : ∀ {A : Type}, nat → list A → list A;
  range_order_perm : ∀ {A : Type} n (l : list A), range_order n l ≡ₚ l;
  u64_unrepresentable : SpecFloat.spec_float → Z;
  u64_unrepresentable_range f : is_u64 (u64_unrepresentable f);
  i64_unrepresentable : SpecFloat.spec_float → Z;
  i64_unrepresentable_range f : is_i64 (i64_unrepresentable f);
}.

(** The keys of a map in the order a [range] statement visits them. *)
Definition range_keys `{GoRuntime} {K V} `{Countable K} (tick : nat) (m : gmap K V) : list K :=
  range_order tick ((map_to_list m).*1).

Lemma elem_of_range_keys `{GoRuntime} {K V} `{Countable K} tick (m : gmap K V) k :
  k ∈ range_keys tick m ↔ is_Some (m !! k).
Proof.
  unfold range_keys. rewrite range_order_perm, list_elem_of_fmap. split.
  - intros ([k' v] & -> & Hin%elem_of_map_to_list). eauto.
  - intros [v Hv]. exists (k, v). by rewrite elem_of_map_to_list.
Qed.

Lemma NoDup_range_keys `{GoRuntime} {K V} `{Countable K} tick (m : gmap K V) :
  NoDup (range_keys tick m).
Proof. unfold range_keys. rewrite range_order_perm. apply NoDup_fst_map_to_list. Qed.

(** ** Lists *)

Lemma NoDup_filter_fst {A B} (P : A * B → Prop) `{!∀ x, Decision (P x)} (l : list (A * B)) :
  NoDup l.*1 → NoDup (filter P l).*1.
Proof.
  intros Hnd. eapply sublist_NoDup; [exact Hnd|].
  apply fmap_sublist, sublist_filter.
Qed.

Lemma NoDup_fst_eq {A B} (l : list (A * B)) a b1 b2 :
  NoDup l.*1 → (a, b1) ∈ l → (a, b2) ∈ l → b1 = b2.
Proof.
  intros Hnd H1 H2. apply list_elem_of_lookup in H1 as [i Hi].
  apply list_elem_of_lookup in H2 as [j Hj].
  assert (i = j) as ->; [|congruence].
  eapply NoDup_lookup; [exact Hnd| |]; rewrite list_lookup_fmap;
    [by rewrite Hi|by rewrite Hj].
Qed.

Lemma last_rev_head {A} (l : list A) : last l = head (reverse l).
Proof. by rewrite head_reverse. Qed.

Lemma fmap_filter {A B} (f : A → B) (P : A → Prop) (Q : B → Prop)
    `{!∀ x, Decision (P x), !∀ y, Decision (Q y)} (l : list A) :
  (∀ x, x ∈ l → P x ↔ Q (f x)) → f <$> filter P l = filter Q (f <$> l).
Proof.
  induction l as [|x l IH]; intros HPQ; [done|].
  rewrite fmap_cons, !filter_cons.
  assert (P x ↔ Q (f x)) by (apply HPQ; left).
  rewrite <-IH by (intros; apply HPQ; by right).
  by destruct (decide (P x)), (decide (Q (f x))); try tauto.
Qed.

Lemma filter_all {A} (P : A → Prop) `{!∀ x, Decision (P x)} (l : list A) :
  (∀ x, x ∈ l → P x) → filter P l = l.
Proof.
  induction l as [|x l IH]; intros HP; [done|]. rewrite filter_cons_True by (apply HP; left).
  f_equal. apply IH. intros. apply HP. by right.
Qed.

(** The first element with a decidable property. *)
Lemma first_split {A} (P : A → Prop) `{!∀ x, Decision (P x)} (l : list A) :
  (∀ x, x ∈ l → ¬ P x) ∨
  ∃ l1 x l2, l = l1 ++ x :: l2 ∧ P x ∧ ∀ y, y ∈ l1 → ¬ P y.
Proof.
  induction l as [|x l IH]; [left; set_solver|].
  destruct (decide (P x)) as [Hx|Hx].
  - right. exists [], x, l. split_and!; [done|done|set_solver].
  - destruct IH as [IH|(l1 & y & l2 & -> & Hy & Hl1)]; [left; set_solver|].
    right. exists (x :: l1), y, l2. split_and!; [done|done|set_solver].
Qed.

(** How many elements have a property, after an update. *)
Definition count {A} (P : A → Prop) `{!∀ x, Decision (P x)} (l : list A) : nat := length (filter P l).

Lemma count_insert {A} (P : A → Prop) `{!∀ x, Decision (P x)} (l : list A) i x y :
  l !! i = Some y →
  (count P (<[i := x]> l) + (if decide (P y) then 1 else 0) =
   count P l + (if decide (P x) then 1 else 0))%nat.
Proof.
  unfold count. revert i. induction l as [|z l IH]; intros [|i] Hi; simplify_eq/=.
  - rewrite !filter_cons. repeat case_decide; simpl; lia.
  - rewrite !filter_cons. specialize (IH i Hi). repeat case_decide; simpl; lia.
Qed.

Lemma count_full {A} (P : A → Prop) `{!∀ x, Decision (P x)} (l : list A) :
  (length l ≤ count P l)%nat ↔ ∀ x, x ∈ l → P x.
Proof.
  unfold count. induction l as [|x l IH]; simpl; [split; [set_solver|lia]|].
  pose proof (length_filter P l). rewrite filter_cons. case_decide; simpl.
  - rewrite <-Nat.succ_le_mono, IH. set_solver.
  - split; [lia|]. set_solver.
Qed.

Lemma count_le {A} (P : A → Prop) `{!∀ x, Decision (P x)} (l : list A) : (count P l ≤ length l)%nat.
Proof. apply length_filter. Qed.

Lemma count_replicate {A} (P : A → Prop) `{!∀ x, Decision (P x)} n x :
  ¬ P x → count P (replicate n x) = 0%nat.
Proof.
  unfold count. intros Hx. induction n as [|n IH]; simpl; [done|]. by rewrite filter_cons_False.
Qed.

Lemma count_none {A} (P : A → Prop) `{!∀ x, Decision (P x)} (l : list A) :
  (∀ x, x ∈ l → ¬ P x) → count P l = 0%nat.
Proof.
  unfold count. induction l as [|x l IH]; intros HP; [done|].
  rewrite filter_cons_False by (apply HP; left). apply IH. intros. apply HP. by right.
Qed.

Lemma sum_list_with_insert {A} (f : A → nat) l i x y :
  l !! i = Some x → (sum_list_with f (<[i := y]> l) + f x = sum_list_with f l + f y)%nat.
Proof.
  revert i. induction l as [|z l IH]; intros [|i] Hi; simplify_eq/=; [lia|]. specialize (IH i Hi). lia.
Qed.

(** The two binds have all but the changed element in common. *)
Lemma bind_insert_perm {A B} (f : A → list B) l i x y :
  l !! i = Some x → ∃ R, l ≫= f ≡ₚ f x ++ R ∧ <[i := y]> l ≫= f ≡ₚ f y ++ R.
Proof.
  revert i. induction l as [|z l IH]; intros [|i] Hi; simplify_eq/=; [by eexists|].
  destruct (IH i Hi) as (R & H1 & H2). exists (f z ++ R).
  rewrite H1, H2, !(assoc_L (++)), (comm (++) (f z) (f x)), (comm (++) (f z) (f y)). done.
Qed.

(** The facts a [Forall] over a list of given elements holds. *)
Ltac split_forall :=
  repeat match goal with
  | Hs : Forall _ [] |- _ => clear Hs
  | Hs : Forall _ (_ :: _) |- _ =>
      let Hx := fresh "Hx" in apply Forall_cons_1 in Hs as [Hx Hs]; cbn beta in Hx
  end.

Lemma sum_list_with_bound {A} (f : A → nat) b l :
  (∀ x, f x ≤ b)%nat → (sum_list_with f l ≤ b * length l)%nat.
Proof. intros Hf. induction l as [|x l IH]; simpl; [lia|]. specialize (Hf x). lia. Qed.

Lemma count_cons {A} (P : A → Prop) `{!∀ x, Decision (P x)} x (l : list A) :
  count P (x :: l) = ((if decide (P x) then 1 else 0) + count P l)%nat.
Proof. unfold count. rewrite filter_cons. by case_decide. Qed.

Lemma NoDup_fmap_filter {A B} (P : A → Prop) `{!∀ x, Decision (P x)} (f : A → B) (l : list A) :
  (∀ i j x y, l !! i = Some x → l !! j = Some y → P x → f x = f y → i = j) →
  NoDup (f <$> filter P l).
Proof.
  induction l as [|x l IH]; intros Hinj; [constructor|].
  assert (NoDup (f <$> filter P l)).
  { apply IH. intros i j y z Hi Hj Hy Heq. specialize (Hinj (S i) (S j) y z Hi Hj Hy Heq). lia. }
  rewrite filter_cons. case_decide as Hx; [|done]. simpl. constructor; [|done].
  rewrite list_elem_of_fmap. intros (y & Heq & [Hy Hin]%list_elem_of_filter).
  apply list_elem_of_lookup in Hin as [j Hj]. by specialize (Hinj 0%nat (S j) x y eq_refl Hj Hx Heq).
Qed.

(** A ring: the list seen from position [n]. *)
Lemma rotate_succ {A} (l : list A) n x r :
  (n < length l)%nat → rotate n l = x :: r →
  rotate (S n mod length l) l = r ++ [x].
Proof.
  unfold rotate. intros Hn. rewrite (Nat.mod_small n) by done.
  destruct (lookup_lt_is_Some_2 l n Hn) as [y Hy]. rewrite (drop_S l y n Hy). intros [= -> <-].
  destruct (decide (S n = length l)) as [Heq|Hne].
  - rewrite Heq, Nat.Div0.mod_same, Nat.Div0.mod_0_l, drop_all. simpl.
    rewrite take_0, app_nil_r, drop_0. rewrite <-(take_drop n l) at 1. f_equal.
    rewrite (drop_S l x n Hy). f_equal. apply drop_ge. lia.
  - rewrite !(Nat.mod_small (S n)) by lia. rewrite (take_S_r l n x Hy). by rewrite app_assoc.
Qed.

Lemma rotate_insert_head {A} (l : list A) n x y r :
  (n < length l)%nat → rotate n l = x :: r → rotate n (<[n := y]> l) = y :: r.
Proof.
  unfold rotate. intros Hn. rewrite length_insert, (Nat.mod_small n) by done.
  destruct (lookup_lt_is_Some_2 l n Hn) as [z Hz]. rewrite (drop_S l z n Hz). intros [= -> <-].
  rewrite (drop_S _ y n) by (by apply list_lookup_insert_eq).
  rewrite drop_insert_lt, take_insert_ge by lia. done.
Qed.

Lemma rotate_head {A} (l : list A) n : (n < length l)%nat → head (rotate n l) = l !! n.
Proof.
  unfold rotate. intros Hn. rewrite (Nat.mod_small n) by done.
  destruct (lookup_lt_is_Some_2 l n Hn) as [y Hy]. by rewrite (drop_S l y n Hy), Hy.
Qed.

(** ** Sums over maps *)

Definition map_sum {A} (f : string → A → Z) (m : gmap string A) : Z :=
  map_fold (λ k x n, f k x + n) 0 m.

Lemma map_sum_empty {A} (f : string → A → Z) : map_sum f ∅ = 0.
Proof. apply map_fold_empty. Qed.

Lemma map_sum_insert {A} (f : string → A → Z) m k x :
  m !! k = None → map_sum f (<[k := x]> m) = f k x + map_sum f m.
Proof. intros Hk. unfold map_sum. rewrite map_fold_insert_L; [done|intros; lia|done]. Qed.

Lemma map_sum_delete {A} (f : string → A → Z) m k x :
  m !! k = Some x → map_sum f m = f k x + map_sum f (delete k m).
Proof.
  intros Hk. rewrite <-(insert_delete_id m k x Hk) at 1. apply map_sum_insert, lookup_delete_eq.
Qed.

Lemma map_sum_update {A} (f : string → A → Z) m k x y :
  m !! k = Some x → map_sum f (<[k := y]> m) = map_sum f m - f k x + f k y.
Proof.
  intros Hk. rewrite <-insert_delete_eq, map_sum_insert by apply lookup_delete_eq.
  rewrite (map_sum_delete f m k x Hk). lia.
Qed.

Lemma map_sum_nonneg {A} (f : string → A → Z) m :
  (∀ k x, m !! k = Some x → 0 ≤ f k x) → 0 ≤ map_sum f m.
Proof.
  induction m as [|k x m Hk IH] using map_ind; intros Hf; [by rewrite map_sum_empty|].
  rewrite map_sum_insert by done. assert (0 ≤ f k x) by (apply Hf, lookup_insert_eq).
  assert (0 ≤ map_sum f m); [|lia]. apply IH. intros j y Hj. apply Hf.
  rewrite lookup_insert_ne; [done|congruence].
Qed.

(** ** Tactics *)

(** Case analysis on every [match] scrutinee of the goal, keeping equations. *)
Ltac case_all :=
  repeat (simpl; match goal with
  | |- context [match ?x with _ => _ end] => destruct x eqn:?
  end).

(** Substitute the result of a call known to return. *)
Ltac ret_simpl :=
  repeat match goal with
  | H : ?m = Ret _ |- context [?m ≫= _] => rewrite H; simpl
  | H : Ret _ = Ret _ |- _ => injection H as H; subst
  | H : Ret _ = Panic |- _ => discriminate H
  | H : Ret _ = Diverge |- _ => discriminate H
  end.

Create HintDb go discriminated.
#[export] Hint Resolve i64_range u64_range u32_range : go.
#[export] Hint Rewrite @bind_Ret : go.
#[export] Hint Rewrite i64_add_l i64_add_r i64_sub_l i64_idemp u64_add_l u64_add_r : go.
