(* ===== verification/Interleave.v ===== *)
(** * Interleaved steps of threads over a shared state

    Threads that take atomic steps on one state, one thread at a time in any
    order, and why loops of loads and compare-and-swaps end: a step that does
    not bring its thread forward leaves the state alone and makes the thread
    less stale, so between two steps that do only so many can fail. *)
From S2P Require Import Prelude.

Section interleave.
Context {T S : Type} (thread_step : T → S → option (S * T)).

Inductive interleaved : S * list T → S * list T → Prop :=
| interleaved_step s ts i t s' t' :
    ts !! i = Some t → thread_step t s = Some (s', t') → interleaved (s, ts) (s', <[i := t']> ts).

(** The steps a thread has before it, and how often its next ones can fail. *)
Context (left : T → nat) (stale : S → T → nat).
Context (stale_le : ∀ s t, (stale s t ≤ 2)%nat).
Context (step_progress : ∀ t s s' t',
  thread_step t s = Some (s', t') →
  (left t' < left t)%nat ∨ left t' = left t ∧ s' = s ∧ stale s t = Datatypes.S (stale s t')).

Definition all_left (x : S * list T) : nat := sum_list_with left (snd x).
Definition work_left (x : S * list T) : nat :=
  all_left x * (2 * length (snd x) + 1) + sum_list_with (stale (fst x)) (snd x).

Lemma stale_total s ts : (sum_list_with (stale s) ts ≤ 2 * length ts)%nat.
Proof. apply sum_list_with_bound, stale_le. Qed.

Lemma interleaved_work x x' :
  interleaved x x' → (work_left x' < work_left x)%nat ∧ length (snd x') = length (snd x).
Proof.
  destruct 1 as [s ts i t s' t' Hi Hst]. unfold work_left, all_left. cbn [fst snd]. rewrite length_insert.
  split; [|done]. pose proof (sum_list_with_insert left _ i t t' Hi) as Hl.
  pose proof (stale_total s' (<[i := t']> ts)) as Hb. rewrite length_insert in Hb.
  pose proof (sum_list_with_insert (stale s) _ i t t' Hi) as Hs. set (N := (2 * length ts)%nat) in *.
  destruct (step_progress _ _ _ _ Hst) as [Hlt|(Heq & -> & Hst')]; [nia|]. rewrite Heq in Hl. nia.
Qed.

(** A run whose steps are interleaved steps is no longer than its work. *)
Lemma interleaved_bound {X} (R : X → X → Prop) (view : X → S * list T) k x x' :
  (∀ x x', R x x' → interleaved (view x) (view x')) → nsteps R k x x' →
  let N := length (snd (view x)) in (k ≤ all_left (view x) * (2 * N + 1) + 2 * N)%nat.
Proof.
  intros Hview Hk. assert (Hw : (k + work_left (view x') ≤ work_left (view x))%nat).
  { induction Hk as [|k x x1 x' HR _ IH]; [lia|]. apply Hview, interleaved_work in HR as [? _]. lia. }
  pose proof (stale_total (fst (view x)) (snd (view x))). unfold work_left in Hw. cbv zeta. lia.
Qed.
End interleave.
