(* ===== verification/GoFloat.v ===== *)
(** * float64: Go's floating-point values

    IEEE-754 binary64 from [SpecFloat] (53 bits of precision, exponent bound
    1024), the comparison and arithmetic operators of Go on it, the constants
    of the source and the conversions to and from integers.  A conversion to
    an integer type truncates towards zero; a value the type cannot represent
    gives the platform's result (see [GoRuntime]). *)
From S2P Require Import Prelude.
From Stdlib Require Export Floats.SpecFloat.

Abbreviation float64 := spec_float.

Definition f64_add : float64 → float64 → float64 := SFadd 53 1024.
Definition f64_mul : float64 → float64 → float64 := SFmul 53 1024.
Definition f64_div : float64 → float64 → float64 := SFdiv 53 1024.

(** The ordered comparisons: all false when an operand is NaN. *)
Definition f64_lt (x y : float64) : bool := SFltb x y.
Definition f64_le (x y : float64) : bool := SFleb x y.
Definition f64_gt (x y : float64) : bool := f64_lt y x.

(** [float64(z)] for an integer [z], rounded to nearest even. *)
Definition f64_of_Z (z : Z) : float64 := binary_normalize 53 1024 z 0 false.

(** The float64 nearest to the rational [n / d]: an untyped constant of the
    source, such as [0.05]. *)
Definition f64_of_ratio (n d : positive) : float64 :=
  let '(mz, ez, lz) := SFdiv_core_binary 53 1024 (Zpos n) 0 (Zpos d) 0 in
  binary_round_aux 53 1024 false mz ez lz.

Definition f64_zero : float64 := S754_zero false.
Definition f64_one : float64 := f64_of_Z 1.

(** The integer part of a finite value. *)
Definition f64_trunc (f : float64) : option Z :=
  match f with
  | S754_zero _ => Some 0
  | S754_finite s m e =>
      Some (cond_Zopp s (if 0 <=? e then Zpos m * 2 ^ e else Zpos m / 2 ^ (- e)))
  | _ => None
  end.

(** Two run times to instantiate theorems with: maps visited in the order of
    the representation, or backwards, and two hardware conventions for an
    unrepresentable conversion: amd64's "integer indefinite", where a negative
    value converted to an unsigned integer wraps, and saturation, where NaN
    gives 0. *)
Definition amd64_u64 (f : float64) : Z :=
  match f64_trunc f with Some z => if decide (- 2 ^ 63 ≤ z < 0) then u64 z else 2 ^ 63 | None => 2 ^ 63 end.

Lemma amd64_u64_range f : is_u64 (amd64_u64 f).
Proof. unfold amd64_u64. destruct (f64_trunc f); [case_decide; [apply u64_range|]|]; unfold is_u64; lia. Qed.

#[global, refine] Instance amd64_runtime : GoRuntime | 10 := {
  range_order A _ l := l;
  u64_unrepresentable := amd64_u64;
  i64_unrepresentable _ := - 2 ^ 63;
}.
Proof. done. apply amd64_u64_range. intros _. unfold is_i64. lia. Defined.

Definition saturated (lo hi : Z) (f : float64) : Z :=
  match f with
  | S754_nan | S754_zero _ => 0
  | S754_infinity neg | S754_finite neg _ _ => if neg then lo else hi
  end.

Lemma saturated_range lo hi f : lo ≤ 0 ≤ hi → lo ≤ saturated lo hi f ≤ hi.
Proof. intros. destruct f as [|[]| |[]]; cbn; lia. Qed.

Definition backward_runtime : GoRuntime.
Proof.
  refine {| range_order A _ l := reverse l;
            u64_unrepresentable := saturated 0 (2 ^ 64 - 1);
            i64_unrepresentable := saturated (- 2 ^ 63) (2 ^ 63 - 1) |}.
  - intros. apply reverse_Permutation.
  - intros f. pose proof (saturated_range 0 (2 ^ 64 - 1) f). unfold is_u64. lia.
  - intros f. pose proof (saturated_range (- 2 ^ 63) (2 ^ 63 - 1) f). unfold is_i64. lia.
Defined.

Section conversions.
Context `{GoRuntime}.

(** [uint64(f)] *)
Definition f64_to_u64 (f : float64) : Z :=
  match f64_trunc f with
  | Some z => if decide (0 ≤ z < 2 ^ 64) then z else u64_unrepresentable f
  | None => u64_unrepresentable f
  end.

(** [int64(f)] *)
Definition f64_to_i64 (f : float64) : Z :=
  match f64_trunc f with
  | Some z => if decide (- 2 ^ 63 ≤ z < 2 ^ 63) then z else i64_unrepresentable f
  | None => i64_unrepresentable f
  end.

Lemma f64_to_u64_range f : is_u64 (f64_to_u64 f).
Proof.
  pose proof (u64_unrepresentable_range f). unfold f64_to_u64.
  destruct (f64_trunc f); [case_decide|]; done.
Qed.

Lemma f64_to_i64_range f : is_i64 (f64_to_i64 f).
Proof.
  pose proof (i64_unrepresentable_range f). unfold f64_to_i64.
  destruct (f64_trunc f); [case_decide|]; done.
Qed.
End conversions.

#[global] Instance float64_eq_dec : EqDecision float64.
Proof. solve_decision. Defined.

Lemma f64_nan_lt_r x : f64_lt x S754_nan = false.
Proof. by destruct x. Qed.

Lemma f64_nan_lt_l x : f64_lt S754_nan x = false.
Proof. by destruct x. Qed.

(** ** Exact integers

    An integer below 2^53 is a float64, and a product that stays below 2^53 is
    exact. *)

Lemma digits2_pos_log2 p : Zpos (digits2_pos p) = Z.log2 (Zpos p) + 1.
Proof.
  induction p as [p IH|p IH|]; cbn [digits2_pos]; [| |done]; rewrite Pos2Z.inj_succ, IH.
  - rewrite (Pos2Z.inj_xI p), Z.log2_succ_double by lia. lia.
  - rewrite (Pos2Z.inj_xO p), Z.log2_double by lia. lia.
Qed.

Lemma Zdigits2_log2 z : 0 < z → Zdigits2 z = Z.log2 z + 1.
Proof. destruct z as [|p|p]; [lia| |lia]. intros _. apply digits2_pos_log2. Qed.

(** Shifting out zero bits loses nothing. *)
Lemma iter_shr_exact p z :
  0 < z →
  iter_pos shr_1 p {| shr_m := z * 2 ^ Zpos p; shr_r := false; shr_s := false |} =
    {| shr_m := z; shr_r := false; shr_s := false |}.
Proof.
  assert (H1 : ∀ z, 0 < z → shr_1 {| shr_m := 2 * z; shr_r := false; shr_s := false |} =
    {| shr_m := z; shr_r := false; shr_s := false |}) by (intros []; done).
  revert z. induction p as [p IH|p IH|]; intros z Hz; cbn [iter_pos].
  - replace (z * 2 ^ Z.pos p~1) with (2 * (z * 2 ^ Z.pos p * 2 ^ Z.pos p))
      by (rewrite (Pos2Z.inj_xI p), Z.pow_add_r, (Z.mul_comm 2 (Z.pos p)), Z.pow_mul_r by lia; lia).
    pose proof (Z.pow_pos_nonneg 2 (Z.pos p)). rewrite H1 by nia. rewrite IH by nia. by apply IH.
  - replace (z * 2 ^ Z.pos p~0) with (z * 2 ^ Z.pos p * 2 ^ Z.pos p)
      by (rewrite (Pos2Z.inj_xO p), (Z.mul_comm 2 (Z.pos p)), Z.pow_mul_r by lia; lia).
    pose proof (Z.pow_pos_nonneg 2 (Z.pos p)). rewrite IH by nia. by apply IH.
  - rewrite Z.pow_1_r, Z.mul_comm. by apply H1.
Qed.

Lemma log2_mul_pow2' w k : 0 < w → 0 ≤ k → Z.log2 (w * 2 ^ k) = Z.log2 w + k.
Proof. intros. rewrite Z.log2_mul_pow2 by lia. lia. Qed.

(** Rounding an integer below 2^53, given with [k] zero bits more. *)
Lemma round_aux_exact s w k :
  0 < w < 2 ^ 53 → 0 ≤ k → 52 ≤ Z.log2 w + k →
  binary_round_aux 53 1024 s (w * 2 ^ k) (- k) loc_Exact =
    S754_finite s (Z.to_pos (w * 2 ^ (52 - Z.log2 w))) (Z.log2 w - 52).
Proof.
  intros [Hw Hw53] Hk Hk52. assert (Hlog : 0 ≤ Z.log2 w < 53).
  { split; [apply Z.log2_nonneg|]. by apply Z.log2_lt_pow2. }
  set (l := Z.log2 w) in *. set (m := w * 2 ^ (52 - l)).
  assert (Hm : 0 < m) by (pose proof (Z.pow_pos_nonneg 2 (52 - l)); unfold m; nia).
  assert (Hml : Z.log2 m = 52) by (unfold m; rewrite log2_mul_pow2' by lia; fold l; lia).
  assert (Hfexp : ∀ e, -1022 ≤ e → fexp 53 1024 (53 + e) = e) by (intros; unfold fexp, emin; lia).
  assert (Hshr : shr_fexp 53 1024 (w * 2 ^ k) (- k) loc_Exact =
    ({| shr_m := m; shr_r := false; shr_s := false |}, l - 52)).
  { unfold shr_fexp. rewrite Zdigits2_log2 by (pose proof (Z.pow_pos_nonneg 2 k); nia).
    rewrite log2_mul_pow2' by lia. fold l.
    replace (l + k + 1 + - k) with (53 + (l - 52)) by lia. rewrite Hfexp by lia.
    replace (l - 52 - - k) with (k - (52 - l)) by lia. cbn [shr_record_of_loc].
    assert (Hn : 0 ≤ k - (52 - l)) by lia.
    replace (w * 2 ^ k) with (m * 2 ^ (k - (52 - l))).
    2:{ unfold m. rewrite <-Z.mul_assoc, <-Z.pow_add_r by lia. do 2 f_equal. lia. }
    destruct (k - (52 - l)) as [|p|p] eqn:E; [|..]; unfold shr; [| |lia].
    - rewrite Z.pow_0_r, Z.mul_1_r. f_equal. lia.
    - rewrite iter_shr_exact by done. f_equal. lia. }
  unfold binary_round_aux. rewrite Hshr. cbn [shr_m loc_of_shr_record round_nearest_even].
  assert (Hshr2 : shr_fexp 53 1024 m (l - 52) loc_Exact =
    ({| shr_m := m; shr_r := false; shr_s := false |}, l - 52)).
  { unfold shr_fexp. rewrite Zdigits2_log2, Hml by done.
    replace (52 + 1 + (l - 52)) with (53 + (l - 52)) by lia. rewrite Hfexp by lia.
    rewrite Z.sub_diag. done. }
  rewrite Hshr2. cbn [shr_m]. destruct m as [|p|p]; [lia| |lia].
  destruct (Z.leb_spec (l - 52) (1024 - 53)); [done|lia].
Qed.

Definition exact_f64 (s : bool) (w : Z) : float64 :=
  S754_finite s (Z.to_pos (w * 2 ^ (52 - Z.log2 w))) (Z.log2 w - 52).

Lemma f64_of_Z_exact p :
  Zpos p < 2 ^ 53 →
  f64_of_Z (Zpos p) = exact_f64 false (Zpos p) ∧ f64_of_Z (Zneg p) = exact_f64 true (Zpos p).
Proof.
  intros Hp. assert (Hlog : 0 ≤ Z.log2 (Z.pos p) < 53).
  { split; [apply Z.log2_nonneg|]. by apply Z.log2_lt_pow2. }
  assert (Hr : ∀ s, binary_round 53 1024 s p 0 = exact_f64 s (Z.pos p)).
  { intros s. unfold binary_round. rewrite digits2_pos_log2. set (l := Z.log2 (Z.pos p)) in *.
    unfold fexp, emin. replace (Z.max _ _) with (l - 52) by lia. unfold shl_align. rewrite Z.sub_0_r.
    assert (Hx : ∀ n, Z.pos (Pos.iter xO p n) = Z.pos p * 2 ^ Z.pos n).
    { intros n. induction n as [|n IH] using Pos.peano_ind; [simpl; lia|].
      rewrite Pos.iter_succ, Pos2Z.inj_xO, IH, Pos2Z.inj_succ, Z.pow_succ_r by lia. lia. }
    destruct (l - 52) as [|q|q] eqn:E; [| lia|].
    - change (Z.pos p) with (Z.pos p) at 1. rewrite <-(Z.mul_1_r (Z.pos p)) at 1.
      change 1 with (2 ^ 0). change 0 with (- 0) at 2. unfold l in *. rewrite round_aux_exact by lia. done.
    - rewrite Hx. change (Z.neg q) with (- Z.pos q). unfold l in *. rewrite round_aux_exact by lia. done. }
  split; apply Hr.
Qed.

Lemma f64_mul_exact s t v w :
  0 < v → 0 < w → v * w < 2 ^ 53 →
  f64_mul (exact_f64 s v) (exact_f64 t w) = exact_f64 (xorb s t) (v * w).
Proof.
  intros Hv Hw Hvw. assert (Hlv : Z.log2 v < 53) by (apply Z.log2_lt_pow2; nia).
  assert (Hlw : Z.log2 w < 53) by (apply Z.log2_lt_pow2; nia).
  pose proof (Z.log2_mul_below v w Hv Hw) as Hlog.
  pose proof (Z.pow_pos_nonneg 2 (52 - Z.log2 v)). pose proof (Z.pow_pos_nonneg 2 (52 - Z.log2 w)).
  unfold f64_mul, exact_f64, SFmul. rewrite Pos2Z.inj_mul, !Z2Pos.id by nia.
  replace (v * 2 ^ (52 - Z.log2 v) * (w * 2 ^ (52 - Z.log2 w)))
    with (v * w * 2 ^ (104 - Z.log2 v - Z.log2 w)).
  2:{ replace (104 - Z.log2 v - Z.log2 w) with ((52 - Z.log2 v) + (52 - Z.log2 w)) by lia.
      rewrite Z.pow_add_r by lia. lia. }
  replace (Z.log2 v - 52 + (Z.log2 w - 52)) with (- (104 - Z.log2 v - Z.log2 w)) by lia.
  apply round_aux_exact; nia.
Qed.

Lemma f64_trunc_exact s w : 0 < w < 2 ^ 53 → f64_trunc (exact_f64 s w) = Some (cond_Zopp s w).
Proof.
  intros [Hw Hw53]. assert (Hl : 0 ≤ Z.log2 w < 53).
  { split; [apply Z.log2_nonneg|]. by apply Z.log2_lt_pow2. }
  pose proof (Z.pow_pos_nonneg 2 (52 - Z.log2 w)).
  unfold f64_trunc, exact_f64. rewrite Z2Pos.id by nia. do 2 f_equal.
  destruct (Z.leb_spec 0 (Z.log2 w - 52)).
  - replace (Z.log2 w) with 52 by lia. simpl. lia.
  - replace (- (Z.log2 w - 52)) with (52 - Z.log2 w) by lia. apply Z.div_mul. lia.
Qed.

(** The product of two integers, of which the second is positive, through
    float64. *)
Lemma f64_mul_int `{GoRuntime} v w :
  0 < w → w < 2 ^ 53 → Z.abs (v * w) < 2 ^ 53 → f64_to_i64 (f64_mul (f64_of_Z v) (f64_of_Z w)) = v * w.
Proof.
  intros Hw Hw53 Hvw. destruct w as [|w|w]; [lia| |lia]. destruct (f64_of_Z_exact w Hw53) as [-> _].
  unfold f64_to_i64. destruct v as [|v|v].
  - change (f64_of_Z 0) with (S754_zero false). cbn. done.
  - destruct (f64_of_Z_exact v) as [-> _]; [nia|]. rewrite f64_mul_exact, f64_trunc_exact by lia. cbn [xorb cond_Zopp].
    rewrite decide_True by lia. done.
  - destruct (f64_of_Z_exact v) as [_ ->]; [nia|]. rewrite f64_mul_exact, f64_trunc_exact by lia. cbn [xorb cond_Zopp].
    rewrite decide_True by lia. lia.
Qed.

#[export] Hint Resolve f64_to_u64_range f64_to_i64_range : go.
#[export] Hint Rewrite f64_nan_lt_l f64_nan_lt_r : go.
