(* ===== verification/FloatFacts.v ===== *)
(** * float64: when results are finite, and when they are exact

    [binary_round_aux] on a positive mantissa: the result is a canonical
    float64 of the magnitude of its argument, and it is the argument when that
    is a canonical float64.  The quotients and the conversions of the program
    follow. *)
From S2P Require Import Prelude GoFloat.

Abbreviation emin64 := (-1074).

Lemma fexp64 e : fexp 53 1024 e = Z.max (e - 53) emin64.
Proof. done. Qed.

(** The magnitude: [2^(mag - 1) ≤ |f| < 2^mag]. *)
Definition digits_of (z : Z) : Z := Zdigits2 z.

Lemma digits_pos z : 0 < z → digits_of z = Z.log2 z + 1.
Proof. apply Zdigits2_log2. Qed.

Lemma digits_bounds z : 0 < z → 1 ≤ digits_of z ∧ 2 ^ (digits_of z - 1) ≤ z < 2 ^ digits_of z.
Proof.
  intros Hz. rewrite digits_pos by done. pose proof (Z.log2_spec z Hz) as [Hl Hu]. pose proof (Z.log2_nonneg z).
  replace (Z.log2 z + 1 - 1) with (Z.log2 z) by lia. replace (Z.log2 z + 1) with (Z.succ (Z.log2 z)) by lia. lia.
Qed.

Lemma digits_unique z d : 0 < d → 2 ^ (d - 1) ≤ z < 2 ^ d → digits_of z = d.
Proof.
  intros Hd [Hl Hu]. pose proof (Z.pow_pos_nonneg 2 (d - 1)). rewrite digits_pos by lia.
  rewrite (Z.log2_unique z (d - 1)); [lia|lia|]. replace (Z.succ (d - 1)) with d by lia. lia.
Qed.

Lemma digits_mul_pow2 z k : 0 < z → 0 ≤ k → digits_of (z * 2 ^ k) = digits_of z + k.
Proof.
  intros Hz Hk. pose proof (Z.pow_pos_nonneg 2 k). rewrite !digits_pos by nia. rewrite log2_mul_pow2'; lia.
Qed.

(** ** Shifting right *)

Lemma shr_1_div2 r : 0 ≤ shr_m r → shr_m (shr_1 r) = shr_m r / 2.
Proof. destruct r as [[|[p|p|]|p] r s]; cbn -[Z.div]; intros; try lia; by rewrite <-Z.div2_div. Qed.

Lemma iter_shr_div p r : 0 ≤ shr_m r → shr_m (iter_pos shr_1 p r) = shr_m r / 2 ^ Zpos p.
Proof.
  revert r. induction p as [p IH|p IH|]; intros r Hr; cbn [iter_pos]; [| |by apply shr_1_div2].
  - assert (H1 : 0 ≤ shr_m (shr_1 r)) by (rewrite shr_1_div2 by done; apply Z.div_pos; lia).
    assert (H2 : 0 ≤ shr_m (iter_pos shr_1 p (shr_1 r))) by (rewrite IH by done; apply Z.div_pos; lia).
    rewrite IH, IH, shr_1_div2, !Z.div_div by (done || lia). f_equal.
    rewrite (Pos2Z.inj_xI p). replace (2 * Z.pos p + 1) with (1 + (Z.pos p + Z.pos p)) by lia.
    rewrite !Z.pow_add_r by lia. lia.
  - assert (H2 : 0 ≤ shr_m (iter_pos shr_1 p r)) by (rewrite IH by done; apply Z.div_pos; lia).
    rewrite IH, IH, Z.div_div by (done || lia). f_equal.
    rewrite (Pos2Z.inj_xO p), <-Z.add_diag, Z.pow_add_r by lia. done.
Qed.

Lemma shr_record_m m l : shr_m (shr_record_of_loc m l) = m.
Proof. by destruct l as [|[]]. Qed.

Lemma shr_fexp_spec M E l :
  0 ≤ M →
  let n := Z.max 0 (fexp 53 1024 (digits_of M + E) - E) in
  shr_m (shr_fexp 53 1024 M E l).1 = M / 2 ^ n ∧ (shr_fexp 53 1024 M E l).2 = E + n.
Proof.
  intros HM n. unfold shr_fexp. fold (digits_of M). set (k := fexp 53 1024 (digits_of M + E) - E) in *.
  destruct k as [|p|p] eqn:Hk; subst n; cbn [shr fst snd].
  - rewrite shr_record_m. split; [by rewrite Z.div_1_r|lia].
  - rewrite Z.max_r by lia. rewrite iter_shr_div by (by rewrite shr_record_m). by rewrite shr_record_m.
  - rewrite shr_record_m. rewrite Z.max_l by lia. split; [by rewrite Z.div_1_r|lia].
Qed.

(** ** What rounding gives *)

(** A float64 of magnitude between [lo] and [hi]. *)
Definition finite_between (lo hi : Z) (f : float64) : Prop :=
  match f with
  | S754_finite _ m e => bounded 53 1024 m e = true ∧ lo ≤ Zpos (digits2_pos m) + e ≤ hi
  | _ => False
  end.

Lemma bounded_spec m e :
  bounded 53 1024 m e = true ↔ Z.max (Zpos (digits2_pos m) + e - 53) emin64 = e ∧ e ≤ 971.
Proof. unfold bounded, canonical_mantissa. rewrite andb_true_iff, Z.eqb_eq, Z.leb_le. done. Qed.

Lemma div_pow2_digits M n :
  0 < M → 0 ≤ n < digits_of M → 0 < M / 2 ^ n ∧ digits_of (M / 2 ^ n) = digits_of M - n.
Proof.
  intros HM Hn. destruct (digits_bounds M HM) as [_ [Hl Hu]]. pose proof (Z.pow_pos_nonneg 2 n).
  assert (Hlow : 2 ^ (digits_of M - n - 1) ≤ M / 2 ^ n).
  { apply Z.div_le_lower_bound; [lia|]. rewrite <-Z.pow_add_r by lia. by replace (n + _) with (digits_of M - 1) by lia. }
  assert (Hup : M / 2 ^ n < 2 ^ (digits_of M - n)).
  { apply Z.div_lt_upper_bound; [lia|]. rewrite <-Z.pow_add_r by lia. by replace (n + _) with (digits_of M) by lia. }
  pose proof (Z.pow_pos_nonneg 2 (digits_of M - n - 1)). split; [lia|]. apply digits_unique; lia.
Qed.

Lemma round_half_even_bounds m l : 0 ≤ m → m ≤ round_nearest_even m l ≤ m + 1.
Proof. destruct l as [|[]]; cbn; try lia. case_match; lia. Qed.

(** The second normalisation of [binary_round_aux]: of a mantissa of at most 53
    bits, or 2^53. *)
Lemma round_finish s m2 e1 :
  0 < m2 ≤ 2 ^ 53 → emin64 ≤ e1 ≤ 970 → e1 = emin64 ∨ 2 ^ 52 ≤ m2 →
  let '(mrs, e2) := shr_fexp 53 1024 m2 e1 loc_Exact in
  finite_between (digits_of m2 + e1) (digits_of m2 + e1)
    (match shr_m mrs with
     | Z0 => S754_zero s
     | Zpos m => if e2 <=? 1024 - 53 then S754_finite s m e2 else S754_infinity s
     | _ => S754_nan
     end).
Proof.
  intros Hm He Hn. pose proof (shr_fexp_spec m2 e1 loc_Exact ltac:(lia)) as Hs. cbv zeta in Hs.
  destruct (shr_fexp 53 1024 m2 e1 loc_Exact) as [mrs e2]. cbn [fst snd] in Hs. rewrite fexp64 in Hs.
  assert (Hres : ∃ n, 0 ≤ n ∧ shr_m mrs = m2 / 2 ^ n ∧ e2 = e1 + n ∧ 0 < m2 / 2 ^ n ∧ n ≤ 1 ∧
    digits_of (m2 / 2 ^ n) = digits_of m2 - n ∧ Z.max (digits_of m2 + e1 - 53) emin64 = e1 + n).
  { set (n := Z.max 0 (Z.max (digits_of m2 + e1 - 53) emin64 - e1)) in Hs. exists n. destruct Hs as [-> ->].
    destruct (decide (m2 = 2 ^ 53)) as [->|Hne].
    - assert (Hn1 : n = 1) by (unfold n; change (digits_of (2 ^ 53)) with 54; lia). rewrite Hn1.
      change (digits_of (2 ^ 53)) with 54. split_and!; done || lia.
    - assert (Hd : digits_of m2 ≤ 53).
      { destruct (digits_bounds m2) as (Hd1 & Hd2 & _); [lia|]. destruct (Z.leb_spec (digits_of m2) 53); [done|].
        assert (2 ^ 53 ≤ 2 ^ (digits_of m2 - 1)) by (apply Z.pow_le_mono_r; lia). lia. }
      assert (Hd' : e1 = emin64 ∨ digits_of m2 = 53).
      { destruct Hn as [|Hn]; [by left|right]. apply digits_unique; [lia|]. change (53 - 1) with 52. lia. }
      destruct (digits_bounds m2) as (Hd1 & _); [lia|]. assert (Hn0 : n = 0) by (unfold n; lia). rewrite Hn0.
      rewrite Z.div_1_r. split_and!; lia || done. }
  clear Hs. destruct Hres as (n & Hn0 & Hmrs & -> & Hpos & Hn1 & Hdig & Hcan). rewrite Hmrs.
  destruct (m2 / 2 ^ n) as [|p|p] eqn:Hp; [lia| |lia]. destruct (Z.leb_spec (e1 + n) (1024 - 53)); [|lia].
  change (digits_of (Z.pos p)) with (Z.pos (digits2_pos p)) in Hdig. cbn [finite_between].
  rewrite bounded_spec. lia.
Qed.

Lemma round_aux_between s M E l :
  0 < M → E ≤ fexp 53 1024 (digits_of M + E) → emin64 < digits_of M + E ≤ 1023 →
  finite_between (digits_of M + E) (digits_of M + E + 1) (binary_round_aux 53 1024 s M E l).
Proof.
  intros HM HE Hmag. rewrite fexp64 in HE. pose proof (shr_fexp_spec M E l ltac:(lia)) as Hs. cbv zeta in Hs.
  unfold binary_round_aux. destruct (shr_fexp 53 1024 M E l) as [mrs e1]. cbn [fst snd] in Hs. rewrite fexp64 in Hs.
  set (n := Z.max 0 (Z.max (digits_of M + E - 53) emin64 - E)) in Hs. destruct Hs as [Hm1 He1].
  destruct (digits_bounds M HM) as (Hd1 & _). destruct (div_pow2_digits M n HM) as [Hp Hd]; [lia|]. rewrite <-Hm1 in Hp, Hd.
  destruct (digits_bounds (shr_m mrs) Hp) as (Hd1' & Hlow & Hup).
  set (m2 := round_nearest_even (shr_m mrs) (loc_of_shr_record mrs)).
  pose proof (round_half_even_bounds (shr_m mrs) (loc_of_shr_record mrs) ltac:(lia)) as Hm2. fold m2 in Hm2.
  assert (H53 : 2 ^ digits_of (shr_m mrs) ≤ 2 ^ 53) by (apply Z.pow_le_mono_r; lia).
  pose proof (round_finish s m2 e1) as Hf. destruct (shr_fexp 53 1024 m2 e1 loc_Exact) as [mrs2 e2].
  assert (Hfin : finite_between (digits_of m2 + e1) (digits_of m2 + e1)
    (match shr_m mrs2 with
     | Z0 => S754_zero s
     | Zpos m => if e2 <=? 1024 - 53 then S754_finite s m e2 else S754_infinity s
     | _ => S754_nan
     end)).
  { apply Hf; [lia|lia|]. destruct (decide (e1 = emin64)); [by left|right].
    assert (2 ^ 52 ≤ 2 ^ (digits_of (shr_m mrs) - 1)) by (apply Z.pow_le_mono_r; lia). lia. }
  assert (Hdm2 : digits_of (shr_m mrs) ≤ digits_of m2 ≤ digits_of (shr_m mrs) + 1).
  { rewrite !digits_pos in * by lia. pose proof (Z.log2_le_mono (shr_m mrs) m2).
    pose proof (Z.log2_le_mono m2 (shr_m mrs + 1)). pose proof (Z.log2_succ_le (shr_m mrs)).
    unfold Z.succ in *. lia. }
  clear Hf. destruct (shr_m mrs2) as [|p|p]; [done| |done]. destruct (e2 <=? 1024 - 53); [|done].
  cbn [finite_between] in *. destruct Hfin as [Hb Hr]. split; [done|lia].
Qed.

(** A canonical value, given with zero bits more, comes out as it is. *)
Lemma round_aux_canonical s m e E :
  bounded 53 1024 m e = true → E ≤ e →
  binary_round_aux 53 1024 s (Zpos m * 2 ^ (e - E)) E loc_Exact = S754_finite s m e.
Proof.
  intros Hb HE. apply bounded_spec in Hb as [Hcan He].
  change (Z.pos (digits2_pos m)) with (digits_of (Z.pos m)) in Hcan.
  assert (Hshr : shr_fexp 53 1024 (Zpos m * 2 ^ (e - E)) E loc_Exact =
    ({| shr_m := Zpos m; shr_r := false; shr_s := false |}, e)).
  { unfold shr_fexp. fold (digits_of (Zpos m * 2 ^ (e - E))). rewrite digits_mul_pow2 by lia.
    rewrite fexp64. replace (digits_of (Z.pos m) + (e - E) + E) with (digits_of (Z.pos m) + e) by lia. rewrite Hcan.
    cbn [shr_record_of_loc]. destruct (e - E) as [|p|p] eqn:Hk; [|..|lia]; unfold shr.
    - rewrite Z.mul_1_r. f_equal. lia.
    - rewrite iter_shr_exact by lia. f_equal. lia. }
  assert (Hshr2 : shr_fexp 53 1024 (Zpos m) e loc_Exact = ({| shr_m := Zpos m; shr_r := false; shr_s := false |}, e)).
  { unfold shr_fexp. fold (digits_of (Zpos m)). by rewrite fexp64, Hcan, Z.sub_diag. }
  unfold binary_round_aux. rewrite Hshr. cbn [shr_m loc_of_shr_record round_nearest_even]. rewrite Hshr2. cbn [shr_m].
  destruct (Z.leb_spec e (1024 - 53)); [done|lia].
Qed.

(** ** Quotients *)

Lemma div_core_eq v ev w ew :
  0 < v → 0 < w →
  let d := digits_of v + ev - (digits_of w + ew) in
  let E := Z.min (fexp 53 1024 d) (ev - ew) in
  let V := v * 2 ^ (ev - ew - E) in
  ∃ l, SFdiv_core_binary 53 1024 v ev w ew = (V / w, E, l) ∧ (V = V / w * w → l = loc_Exact).
Proof.
  intros Hv Hw d E V. unfold SFdiv_core_binary. fold (digits_of v) (digits_of w) d E.
  set (s := ev - ew - E). assert (Hs : 0 ≤ s) by (unfold s; lia).
  assert (Hm : match s with Zpos _ => Z.shiftl v s | Z0 => v | Zneg _ => Z0 end = V).
  { unfold V. fold s. rewrite <-Z.shiftl_mul_pow2 by done. destruct s as [|p|p]; [by rewrite Z.shiftl_0_r|done|lia]. }
  rewrite Hm. pose proof (Z.div_eucl_eq V w ltac:(lia)) as Heq.
  assert (Hqd : (Z.div_eucl V w).1 = V / w) by (unfold Z.div; by destruct (Z.div_eucl _ _)).
  destruct (Z.div_eucl V w) as [q r]. cbn [fst] in Hqd. subst q. exists (new_location w r). split; [done|].
  intros Hex. assert (r = 0) as -> by lia. unfold new_location. by destruct (Z.even w).
Qed.

(** The magnitude of a quotient. *)
Lemma div_magnitude V w :
  0 < V → 0 < w → 0 < digits_of V - digits_of w →
  0 < V / w ∧ digits_of V - digits_of w ≤ digits_of (V / w) ≤ digits_of V - digits_of w + 1.
Proof.
  intros HV Hw Hd. set (d := digits_of V - digits_of w) in *. set (q := V / w).
  destruct (digits_bounds V HV) as (_ & Hvl & Hvu). destruct (digits_bounds w Hw) as (Hw1 & Hwl & Hwu).
  pose proof (Z.div_mod V w ltac:(lia)) as Heq. pose proof (Z.mod_pos_bound V w Hw) as Hr. fold q in Heq.
  assert (Hlow : 2 ^ (d - 1) ≤ q).
  { assert (Heq1 : 2 ^ (d - 1) * 2 ^ digits_of w = 2 ^ (digits_of V - 1)) by (rewrite <-!Z.pow_add_r by lia; f_equal; lia).
    assert (H1 : 2 ^ (d - 1) * w ≤ 2 ^ (d - 1) * 2 ^ digits_of w) by (apply Z.mul_le_mono_nonneg_l; lia). nia. }
  assert (Hup : q < 2 ^ (d + 1)).
  { assert (Heq1 : 2 ^ (d + 1) * 2 ^ (digits_of w - 1) = 2 ^ digits_of V) by (rewrite <-!Z.pow_add_r by lia; f_equal; lia).
    assert (H1 : 2 ^ (d + 1) * 2 ^ (digits_of w - 1) ≤ 2 ^ (d + 1) * w) by (apply Z.mul_le_mono_nonneg_l; lia). nia. }
  pose proof (Z.pow_pos_nonneg 2 (d - 1)). destruct (digits_bounds q) as (Hdq & Hql & Hqu); [lia|].
  split; [lia|]. split.
  - destruct (Z.leb_spec d (digits_of q)); [done|].
    assert (2 ^ digits_of q ≤ 2 ^ (d - 1)) by (apply Z.pow_le_mono_r; lia). lia.
  - destruct (Z.leb_spec (digits_of q) (d + 1)); [done|].
    assert (2 ^ (d + 1) ≤ 2 ^ (digits_of q - 1)) by (apply Z.pow_le_mono_r; lia). lia.
Qed.

(** A quotient of magnitude [d], up to two. *)
Lemma div_core_between s v ev w ew :
  0 < v → 0 < w →
  let d := digits_of v + ev - (digits_of w + ew) in
  emin64 < d ≤ 1022 →
  finite_between d (d + 2)
    (let '(q, E, l) := SFdiv_core_binary 53 1024 v ev w ew in binary_round_aux 53 1024 s q E l).
Proof.
  intros Hv Hw d Hd. destruct (div_core_eq v ev w ew Hv Hw) as (l & -> & _). fold d.
  set (E := Z.min (fexp 53 1024 d) (ev - ew)). set (V := v * 2 ^ (ev - ew - E)).
  assert (HE : E ≤ Z.max (d - 53) emin64 ∧ E ≤ ev - ew) by (unfold E; rewrite fexp64; lia).
  pose proof (Z.pow_pos_nonneg 2 (ev - ew - E)).
  assert (HV : digits_of V = digits_of v + (ev - ew - E)) by (apply digits_mul_pow2; lia).
  destruct (div_magnitude V w) as (Hq & Hl & Hu); [unfold V; nia|done|lia|].
  assert (HE' : E ≤ fexp 53 1024 (digits_of (V / w) + E)) by (rewrite fexp64; lia).
  pose proof (round_aux_between s (V / w) E l Hq HE' ltac:(lia)) as Hb.
  destruct (binary_round_aux _ _ _ _ _ _); try done. destruct Hb as [? ?]. split; [done|lia].
Qed.

(** An exact quotient: [m * 2^e] from [v / w]. *)
Lemma div_core_exact s v w m e :
  0 < v → 0 < w → bounded 53 1024 m e = true →
  v * 2 ^ Z.max 0 (- e) = Zpos m * 2 ^ Z.max 0 e * w →
  (let '(q, E, l) := SFdiv_core_binary 53 1024 v 0 w 0 in binary_round_aux 53 1024 s q E l) = S754_finite s m e.
Proof.
  intros Hv Hw Hb Heq. pose proof Hb as [Hcan He]%bounded_spec. change (Z.pos (digits2_pos m)) with (digits_of (Z.pos m)) in Hcan.
  destruct (div_core_eq v 0 w 0 Hv Hw) as (l & -> & Hl). rewrite !Z.add_0_r, Z.sub_0_r in *.
  set (d := digits_of v - digits_of w) in *. set (E := Z.min (fexp 53 1024 d) 0) in *.
  assert (Hd : d ≤ digits_of (Zpos m) + e).
  { destruct (digits_bounds v Hv) as (Hdv & Hvl & _). destruct (digits_bounds w Hw) as (Hdw & _ & Hwu).
    destruct (digits_bounds (Zpos m)) as (Hdm & _ & Hmu); [done|].
    destruct (Z.leb_spec d (digits_of (Zpos m) + e)) as [|Hc]; [done|]. exfalso.
    assert (Hab : Z.max 0 e - Z.max 0 (- e) = e ∧ 0 ≤ Z.max 0 e ∧ 0 ≤ Z.max 0 (- e)) by lia. unfold d in Hc.
    set (a := Z.max 0 (- e)) in *. set (b := Z.max 0 e) in *.
    pose proof (Z.pow_pos_nonneg 2 a ltac:(lia) ltac:(lia)). pose proof (Z.pow_pos_nonneg 2 b ltac:(lia) ltac:(lia)).
    assert (H1 : 2 ^ (digits_of v - 1) * 2 ^ a ≤ v * 2 ^ a) by (apply Z.mul_le_mono_nonneg_r; lia).
    assert (H2 : Zpos m * 2 ^ b * w < 2 ^ digits_of (Zpos m) * 2 ^ b * 2 ^ digits_of w) by (apply Z.mul_lt_mono_nonneg; nia).
    rewrite <-Z.pow_add_r in H1 by lia. rewrite <-Z.pow_add_r in H2 by lia. rewrite <-Z.pow_add_r in H2 by lia.
    assert (2 ^ (digits_of (Z.pos m) + b + digits_of w) ≤ 2 ^ (digits_of v - 1 + a)) by (apply Z.pow_le_mono_r; lia). lia. }
  assert (HE : E ≤ e) by (unfold E; rewrite fexp64; lia).
  assert (HV : v * 2 ^ (0 - E) = Zpos m * 2 ^ (e - E) * w).
  { destruct (Z.leb_spec 0 e).
    - rewrite (Z.max_r 0 e), Z.max_l, Z.mul_1_r in Heq by lia. rewrite Heq.
      replace (e - E) with (e + (0 - E)) by lia. rewrite Z.pow_add_r by (unfold E in *; lia). lia.
    - rewrite (Z.max_l 0 e), Z.max_r in Heq by lia.
      replace (0 - E) with (- e + (e - E)) by lia. rewrite Z.pow_add_r by lia. nia. }
  rewrite HV in *. rewrite Z.div_mul in * by lia. rewrite Hl by done. by apply round_aux_canonical.
Qed.

(** ** Integers *)

(** An alignment keeps the value. *)
Lemma shl_align_spec p ex ex' :
  ∃ q E, shl_align p ex ex' = (q, E) ∧ Zpos q = Zpos p * 2 ^ (ex - E) ∧ E = Z.min ex ex'.
Proof.
  unfold shl_align. destruct (ex' - ex) as [|e|e] eqn:He;
    [by eexists _, _; split_and!; [done|rewrite Z.sub_diag; simpl; lia|lia]..|].
  eexists _, _. split_and!; [done| |lia]. replace (ex - ex') with (Zpos e) by lia. clear He.
  induction e as [|e IH] using Pos.peano_ind; [simpl; lia|].
  rewrite Pos.iter_succ, Pos2Z.inj_xO, IH, Pos2Z.inj_succ, Z.pow_succ_r by lia. lia.
Qed.

Lemma round_between s p ex :
  emin64 < digits_of (Zpos p) + ex ≤ 1023 →
  finite_between (digits_of (Zpos p) + ex) (digits_of (Zpos p) + ex + 1) (binary_round 53 1024 s p ex).
Proof.
  intros Hd. unfold binary_round. change (Z.pos (digits2_pos p)) with (digits_of (Z.pos p)). rewrite fexp64.
  destruct (shl_align_spec p ex (Z.max (digits_of (Zpos p) + ex - 53) emin64)) as (q & E & -> & Hq & HE).
  assert (Hdq : digits_of (Zpos q) + E = digits_of (Zpos p) + ex) by (rewrite Hq, digits_mul_pow2 by lia; lia).
  rewrite <-Hdq. apply round_aux_between; [lia|rewrite fexp64; lia|lia].
Qed.

Lemma of_pos_between s p :
  digits_of (Zpos p) ≤ 1023 →
  finite_between (digits_of (Zpos p)) (digits_of (Zpos p) + 1) (binary_round 53 1024 s p 0).
Proof.
  intros Hd. destruct (digits_bounds (Zpos p)) as (Hd1 & _); [lia|].
  pose proof (round_between s p 0) as Hb. rewrite Z.add_0_r in Hb. apply Hb. lia.
Qed.

Lemma of_pos_exact s p m e :
  bounded 53 1024 m e = true → Zpos p * 2 ^ Z.max 0 (- e) = Zpos m * 2 ^ Z.max 0 e →
  binary_round 53 1024 s p 0 = S754_finite s m e.
Proof.
  intros Hb Heq. pose proof Hb as [Hcan He]%bounded_spec. change (Z.pos (digits2_pos m)) with (digits_of (Z.pos m)) in Hcan.
  assert (Hd : digits_of (Zpos p) = digits_of (Zpos m) + e).
  { assert (Hd' : digits_of (Zpos p * 2 ^ Z.max 0 (- e)) = digits_of (Zpos m * 2 ^ Z.max 0 e)) by (by rewrite Heq).
    rewrite !digits_mul_pow2 in Hd' by lia. lia. }
  unfold binary_round. change (Z.pos (digits2_pos p)) with (digits_of (Z.pos p)).
  rewrite Z.add_0_r, fexp64, Hd, Hcan. destruct (shl_align_spec p 0 e) as (q & E & -> & Hq & HE).
  rewrite Hq, Z.sub_0_l. replace (Zpos p * 2 ^ (- E)) with (Zpos m * 2 ^ (e - E)); [apply round_aux_canonical; [done|lia]|].
  destruct (Z.leb_spec 0 e).
  - rewrite (Z.max_r 0 e), Z.max_l, Z.mul_1_r in Heq by lia. replace E with 0 by lia. rewrite Z.sub_0_r. simpl. lia.
  - rewrite (Z.max_l 0 e), Z.max_r, Z.pow_0_r, Z.mul_1_r in Heq by lia. replace E with e by lia.
    by rewrite Z.sub_diag, Z.pow_0_r, Z.mul_1_r.
Qed.

Lemma of_Z_between z :
  z ≠ 0 → Z.abs z < 2 ^ 64 → finite_between 1 65 (f64_of_Z z).
Proof.
  intros Hz Ha. assert (Hgen : ∀ s p, Zpos p < 2 ^ 64 → finite_between 1 65 (binary_round 53 1024 s p 0)).
  { intros s p Hp. assert (Hd : 1 ≤ digits_of (Zpos p) ≤ 64).
    { rewrite digits_pos by lia. pose proof (Z.log2_nonneg (Zpos p)).
      assert (Z.log2 (Zpos p) < 64) by (apply Z.log2_lt_pow2; lia). lia. }
    pose proof (of_pos_between s p ltac:(lia)) as Hb. destruct (binary_round _ _ _ _ _); try done.
    destruct Hb as [? ?]. split; [done|lia]. }
  destruct z as [|p|p]; [done|apply Hgen; lia|apply Hgen; lia].
Qed.

(** ** Finite results *)

(** Not an infinity or NaN, and canonical. *)
Definition finite64 (f : float64) : bool :=
  match f with
  | S754_zero _ => true
  | S754_finite _ m e => bounded 53 1024 m e
  | _ => false
  end.

(** Finite, of magnitude [hi] at most and [lo] at least unless it is zero. *)
Definition within (lo hi : Z) (f : float64) : Prop :=
  match f with S754_zero _ => True | _ => finite_between lo hi f end.

Lemma within_finite lo hi f : within lo hi f → finite64 f = true.
Proof. destruct f; cbn; tauto. Qed.

Lemma between_within lo hi f : finite_between lo hi f → within lo hi f.
Proof. by destruct f. Qed.

Lemma within_mono lo hi lo' hi' f : within lo hi f → lo' ≤ lo → hi ≤ hi' → within lo' hi' f.
Proof. destruct f; cbn; try tauto. intros [? ?] ??. split; [done|lia]. Qed.

Lemma of_Z_within z : Z.abs z < 2 ^ 64 → within 1 65 (f64_of_Z z).
Proof. intros Hz. destruct (decide (z = 0)) as [->|]; [done|]. by apply between_within, of_Z_between. Qed.

(** A quotient by a value that is not zero. *)
Lemma div_within a b c d x y :
  within a b x → finite_between c d y → emin64 < a - d → b - c ≤ 1022 → within (a - d) (b - c + 2) (f64_div x y).
Proof.
  intros Hx Hy Hlo Hhi. destruct y as [|?| |sy my ey]; try done. destruct Hy as [_ Hy].
  destruct x as [sx|?| |sx mx ex]; try done. destruct Hx as [_ Hx]. apply between_within. unfold f64_div, SFdiv.
  change (Z.pos (digits2_pos mx)) with (digits_of (Z.pos mx)) in Hx.
  change (Z.pos (digits2_pos my)) with (digits_of (Z.pos my)) in Hy.
  pose proof (div_core_between (xorb sx sy) (Zpos mx) ex (Zpos my) ey ltac:(lia) ltac:(lia)) as Hb. cbv zeta in Hb.
  destruct (SFdiv_core_binary 53 1024 (Z.pos mx) ex (Z.pos my) ey) as [[q E] l].
  specialize (Hb ltac:(lia)). destruct (binary_round_aux _ _ _ _ _ _); try done. destruct Hb as [? ?]. split; [done|lia].
Qed.

(** ** Sums of values that are not negative *)

Definition is_positive (f : float64) : Prop := match f with S754_finite false _ _ => True | _ => False end.
Definition is_nonneg (f : float64) : Prop := f = S754_zero false ∨ is_positive f.

Lemma round_aux_sign s M E l :
  match binary_round_aux 53 1024 s M E l with S754_finite s' _ _ => s' = s | _ => True end.
Proof.
  unfold binary_round_aux. destruct (shr_fexp 53 1024 M E l) as [r1 e1].
  destruct (shr_fexp 53 1024 _ e1 loc_Exact) as [r2 e2]. destruct (shr_m r2); try done. by destruct (_ <=? _).
Qed.

Lemma round_positive lo hi p ex :
  finite_between lo hi (binary_round 53 1024 false p ex) → is_positive (binary_round 53 1024 false p ex).
Proof.
  unfold binary_round. destruct (shl_align _ _ _) as [q E]. pose proof (round_aux_sign false (Zpos q) E loc_Exact).
  destruct (binary_round_aux _ _ _ _ _ _) as [|?| |[] ? ?]; done.
Qed.

Lemma of_Z_nonnegative z : 0 ≤ z < 2 ^ 64 → is_nonneg (f64_of_Z z) ∧ (0 < z → is_positive (f64_of_Z z)).
Proof.
  intros Hz. destruct z as [|p|p]; [|..|lia]; [by split; [left|lia]|].
  assert (Hp : is_positive (f64_of_Z (Zpos p))).
  { pose proof (of_Z_between (Zpos p) ltac:(lia) ltac:(lia)) as Hb. exact (round_positive _ _ p 0 Hb). }
  split; [by right|done].
Qed.

Lemma div_nonnegative a b c d x y :
  within a b x → finite_between c d y → emin64 < a - d → b - c ≤ 1022 →
  is_nonneg x → is_positive y → is_nonneg (f64_div x y) ∧ (is_positive x → is_positive (f64_div x y)).
Proof.
  intros Hx Hy Hlo Hhi [-> |Hpx] Hpy; (destruct y as [|?| |[] my ey]; try done); [by split; [left|]|].
  pose proof (div_within a b c d x _ Hx Hy Hlo Hhi) as Hw. destruct x as [|?| |[] mx ex]; try done.
  assert (Hpos : is_positive (f64_div (S754_finite false mx ex) (S754_finite false my ey))); [|by split; [right|]].
  pose proof Hx as [_ Hx']. pose proof Hy as [_ Hy'].
  change (Z.pos (digits2_pos mx)) with (digits_of (Z.pos mx)) in Hx'.
  change (Z.pos (digits2_pos my)) with (digits_of (Z.pos my)) in Hy'.
  unfold f64_div, SFdiv in *. cbn [xorb] in *.
  pose proof (div_core_between false (Zpos mx) ex (Zpos my) ey ltac:(lia) ltac:(lia)) as Hb. cbv zeta in Hb.
  destruct (SFdiv_core_binary 53 1024 (Z.pos mx) ex (Z.pos my) ey) as [[q E] l]. specialize (Hb ltac:(lia)).
  pose proof (round_aux_sign false q E l). destruct (binary_round_aux _ _ _ _ _ _) as [|?| |[] ? ?]; done.
Qed.

Lemma digits_add x y d :
  0 < x → 0 < y → digits_of x ≤ d → digits_of y ≤ d → digits_of x ≤ digits_of (x + y) ≤ d + 1.
Proof.
  intros Hx Hy Hdx Hdy. rewrite !digits_pos in * by lia. pose proof (Z.log2_le_mono x (x + y)).
  pose proof (Z.log2_nonneg (x + y)). pose proof (Z.log2_nonneg x).
  assert (Z.log2 (x + y) < d + 1); [|lia]. apply Z.log2_lt_pow2; [lia|]. rewrite Z.pow_add_r by lia.
  pose proof (Z.log2_spec x Hx) as [_ Hux]. pose proof (Z.log2_spec y Hy) as [_ Huy].
  assert (2 ^ Z.succ (Z.log2 x) ≤ 2 ^ d) by (apply Z.pow_le_mono_r; lia).
  assert (2 ^ Z.succ (Z.log2 y) ≤ 2 ^ d) by (apply Z.pow_le_mono_r; lia). lia.
Qed.

Lemma add_positive a b x y :
  within a b x → within a b y → is_nonneg x → is_nonneg y → is_positive x ∨ is_positive y →
  emin64 < a → b ≤ 1021 → finite_between a (b + 2) (f64_add x y) ∧ is_positive (f64_add x y).
Proof.
  intros Hx Hy Hnx Hny Hpos Ha Hb. unfold f64_add, SFadd.
  assert (Hmono : ∀ f, within a b f → is_positive f → finite_between a (b + 2) f).
  { intros f Hf Hp. destruct f as [|?| |[] m e]; try done. destruct Hf as [? ?]. split; [done|lia]. }
  destruct Hnx as [-> |Hpx], Hny as [-> |Hpy]; [by destruct Hpos|..].
  - destruct y as [|?| |[] my ey]; try done. split; [by apply Hmono|done].
  - destruct x as [|?| |[] mx ex]; try done. split; [by apply Hmono|done].
  - destruct x as [|?| |[] mx ex], y as [|?| |[] my ey]; try done. destruct Hx as [_ Hx], Hy as [_ Hy].
    change (Z.pos (digits2_pos mx)) with (digits_of (Z.pos mx)) in Hx.
    change (Z.pos (digits2_pos my)) with (digits_of (Z.pos my)) in Hy. cbn [cond_Zopp].
    destruct (shl_align_spec mx ex (Z.min ex ey)) as (q1 & E1 & -> & Hq1 & HE1).
    destruct (shl_align_spec my ey (Z.min ex ey)) as (q2 & E2 & -> & Hq2 & HE2). cbn [fst].
    set (ez := Z.min ex ey) in *. assert (E1 = ez) as -> by lia. assert (E2 = ez) as -> by lia.
    assert (Hd1 : digits_of (Zpos q1) = digits_of (Zpos mx) + (ex - ez)) by (rewrite Hq1; apply digits_mul_pow2; lia).
    assert (Hd2 : digits_of (Zpos q2) = digits_of (Zpos my) + (ey - ez)) by (rewrite Hq2; apply digits_mul_pow2; lia).
    pose proof (digits_add (Zpos q1) (Zpos q2) (b - ez) ltac:(lia) ltac:(lia) ltac:(lia) ltac:(lia)) as Hs.
    destruct (Zpos q1 + Zpos q2) as [|p|p] eqn:Hp; [lia| |lia]. cbn [binary_normalize].
    pose proof (round_between false p ez ltac:(lia)) as Hr. pose proof (round_positive _ _ _ _ Hr) as Hpr.
    split; [|done]. destruct (binary_round _ _ _ _ _); try done. destruct Hr as [? ?]. split; [done|lia].
Qed.
