(* ===== verification/GoText.v ===== *)
(** * Text: the parts of strings, strconv and fmt that the program uses

    A Go string is its bytes.  [strings.TrimSpace], [ToUpper] and [HasSuffix],
    [strconv.ParseInt] in base 10, [strconv.ParseFloat] (decimal and
    hexadecimal, underscores, infinities and NaN, rounding to nearest even,
    range errors) and the verb [%.2f]. *)
From stdpp Require Import pretty.
From S2P Require Import Prelude GoFloat.

Abbreviation text := (list Ascii.ascii).

Definition explode : string → text := String.list_ascii_of_string.
Definition implode : text → string := String.string_of_list_ascii.

Lemma implode_explode s : implode (explode s) = s.
Proof. apply String.string_of_list_ascii_of_string. Qed.

Lemma explode_implode s : explode (implode s) = s.
Proof. apply String.list_ascii_of_string_of_list_ascii. Qed.

(** The code of a byte. *)
Definition byte_val (c : Ascii.ascii) : Z := Z.of_N (Ascii.N_of_ascii c).
Definition byte_of (z : Z) : Ascii.ascii := Ascii.ascii_of_N (Z.to_N z).

Definition is_digit (c : Ascii.ascii) : bool := (48 <=? byte_val c) && (byte_val c <=? 57).
Definition digit (c : Ascii.ascii) : Z := byte_val c - 48.

(** strconv's [lower]: the code with bit 5 set. *)
Definition lower (c : Ascii.ascii) : Z := Z.lor (byte_val c) 32.
Definition is_hex_letter (c : Ascii.ascii) : bool := (97 <=? lower c) && (lower c <=? 102).

Fixpoint strip_prefix (p s : text) : option text :=
  match p, s with
  | [], _ => Some s
  | a :: p, b :: s => if decide (a = b) then strip_prefix p s else None
  | _ :: _, [] => None
  end.

(** [HasSuffix], with what is before the suffix. *)
Definition strip_suffix (p s : text) : option text := reverse <$> strip_prefix (reverse p) (reverse s).

(** ** strings.TrimSpace

    The UTF-8 forms of the runes for which [unicode.IsSpace] holds. *)
Definition spaces : list text :=
  map byte_of <$>
    [[9]; [10]; [11]; [12]; [13]; [32]; [194; 133]; [194; 160]; [225; 154; 128];
     [226; 128; 128]; [226; 128; 129]; [226; 128; 130]; [226; 128; 131]; [226; 128; 132];
     [226; 128; 133]; [226; 128; 134]; [226; 128; 135]; [226; 128; 136]; [226; 128; 137];
     [226; 128; 138]; [226; 128; 168]; [226; 128; 169]; [226; 128; 175]; [226; 129; 159];
     [227; 128; 128]].

(** Without the first of [ps] that [s] begins with. *)
Fixpoint strip_any (ps : list text) (s : text) : option text :=
  match ps with
  | [] => None
  | p :: ps => match strip_prefix p s with Some s' => Some s' | None => strip_any ps s end
  end.

Fixpoint trim_front (fuel : nat) (ps : list text) (s : text) : text :=
  match fuel with
  | O => s
  | S fuel => match strip_any ps s with Some s' => trim_front fuel ps s' | None => s end
  end.

Definition TrimSpace (s : text) : text :=
  let s := trim_front (length s) spaces s in
  reverse (trim_front (length s) (reverse <$> spaces) (reverse s)).

(** ** strings.ToUpper

    The two runes outside ASCII whose upper case is an ASCII letter are the
    dotless i and the long s.  The other runes outside ASCII have their upper
    case there too and are left as they are: no suffix and no number the
    program looks for has such bytes. *)
Definition upper_ascii (c : Ascii.ascii) : Ascii.ascii :=
  if (97 <=? byte_val c) && (byte_val c <=? 122) then byte_of (byte_val c - 32) else c.

Fixpoint ToUpper (s : text) : text :=
  match s with
  | [] => []
  | c :: s' =>
      match s' with
      | d :: s'' =>
          if (byte_val c =? 196) && (byte_val d =? 177) then byte_of 73 :: ToUpper s''
          else if (byte_val c =? 197) && (byte_val d =? 191) then byte_of 83 :: ToUpper s''
          else upper_ascii c :: ToUpper s'
      | [] => [upper_ascii c]
      end
  end.

(** ** strconv.ParseInt, base 10 and 64 bits *)

(** The value of a text of digits only; [None] for any other and for none. *)
Definition digits_val (s : text) : Z := foldl (λ n c, n * 10 + digit c) 0 s.

Definition parse_digits (s : text) : option Z :=
  match s with
  | [] => None
  | _ => if forallb is_digit s then Some (digits_val s) else None
  end.

(** The sign and the rest. *)
Definition take_sign (s : text) : bool * text :=
  match s with
  | c :: s' => if byte_val c =? 45 then (true, s') else if byte_val c =? 43 then (false, s') else (false, s)
  | [] => (false, [])
  end.

Definition ParseInt (s : text) : option Z :=
  let '(neg, s) := take_sign s in
  n ← parse_digits s;
  let v := if (neg : bool) then - n else n in
  if decide (- 2 ^ 63 ≤ v < 2 ^ 63) then Some v else None.

(** ** strconv.ParseFloat, 64 bits *)

Inductive num_error := ErrSyntax | ErrRange.

(** What the mantissa loop of [readFloat] has read: the value of the digits,
    how many followed the point, and what it saw. *)
Record mantissa := {
  m_val : Z;
  m_frac : Z;
  m_dot : bool;
  m_digits : bool;
  m_underscores : bool;
}.

Definition add_digit (base d : Z) (m : mantissa) : mantissa :=
  {| m_val := m_val m * base + d; m_frac := if m_dot m then m_frac m + 1 else m_frac m;
     m_dot := m_dot m; m_digits := true; m_underscores := m_underscores m |}.

Fixpoint read_mantissa (hex : bool) (m : mantissa) (s : text) : mantissa * text :=
  match s with
  | [] => (m, [])
  | c :: s' =>
      if byte_val c =? 95 then
        read_mantissa hex {| m_val := m_val m; m_frac := m_frac m; m_dot := m_dot m;
                             m_digits := m_digits m; m_underscores := true |} s'
      else if byte_val c =? 46 then
        if m_dot m then (m, s)
        else read_mantissa hex {| m_val := m_val m; m_frac := m_frac m; m_dot := true;
                                  m_digits := m_digits m; m_underscores := m_underscores m |} s'
      else if is_digit c then read_mantissa hex (add_digit (if hex then 16 else 10) (digit c) m) s'
      else if hex && is_hex_letter c then read_mantissa hex (add_digit 16 (lower c - 87) m) s'
      else (m, s)
  end.

(** The digits of the exponent, which stop counting at 10000. *)
Fixpoint read_exponent (e : Z) (und : bool) (s : text) : Z * bool * text :=
  match s with
  | [] => (e, und, [])
  | c :: s' =>
      if byte_val c =? 95 then read_exponent e true s'
      else if is_digit c then read_exponent (if e <? 10000 then e * 10 + digit c else e) und s'
      else (e, und, s)
  end.

(** The exponent, when there is one; [None] when it is malformed, or missing
    after a hexadecimal mantissa. *)
Definition optional_exponent (hex und : bool) (s : text) : option (Z * bool * text) :=
  match s with
  | c :: s' =>
      if lower c =? (if hex then 112 else 101) then
        let '(neg, s') := take_sign s' in
        match s' with
        | d :: _ =>
            if is_digit d then
              let '(e, und, s'') := read_exponent 0 und s' in
              Some (if (neg : bool) then - e else e, und, s'')
            else None
        | [] => None
        end
      else if hex then None else Some (0, und, s)
  | [] => if hex then None else Some (0, und, [])
  end.

(** The last character seen by [underscoreOK]. *)
Inductive saw := SawStart | SawDigit | SawUnderscore | SawOther.

Fixpoint underscores_sep (hex : bool) (last : saw) (s : text) : bool :=
  match s with
  | [] => match last with SawUnderscore => false | _ => true end
  | c :: s' =>
      if is_digit c || (hex && is_hex_letter c) then underscores_sep hex SawDigit s'
      else if byte_val c =? 95 then
        match last with SawDigit => underscores_sep hex SawUnderscore s' | _ => false end
      else match last with SawUnderscore => false | _ => underscores_sep hex SawOther s' end
  end.

Definition underscoreOK (s : text) : bool :=
  let '(_, s) := take_sign s in
  match s with
  | c :: d :: s' =>
      if (byte_val c =? 48) && ((lower d =? 98) || (lower d =? 111) || (lower d =? 120))
      then underscores_sep (lower d =? 120) SawDigit s'
      else underscores_sep false SawStart s
  | _ => underscores_sep false SawStart s
  end.

(** A number read: its sign, base, mantissa and exponent (of 10 or of 2). *)
Record number := { n_neg : bool; n_hex : bool; n_val : Z; n_exp : Z }.

Definition zero_mantissa : mantissa :=
  {| m_val := 0; m_frac := 0; m_dot := false; m_digits := false; m_underscores := false |}.

Definition readFloat (s : text) : option (number * text) :=
  let '(neg, s1) := take_sign s in
  let '(hex, s2) :=
    match s1 with
    | c :: d :: (_ :: _) as s2 => if (byte_val c =? 48) && (lower d =? 120) then (true, skipn 2 s1) else (false, s1)
    | _ => (false, s1)
    end in
  let '(m, s3) := read_mantissa hex zero_mantissa s2 in
  if negb (m_digits m) then None
  else
    '(e, und, s4) ← optional_exponent hex (m_underscores m) s3;
    if (und : bool) && negb (underscoreOK (firstn (length s - length s4) s)) then None
    else Some ({| n_neg := neg; n_hex := hex; n_val := m_val m;
                  n_exp := e - (if hex then 4 * m_frac m else m_frac m) |}, s4).

(** The float64 nearest to [v / d]. *)
Definition f64_of_quotient (neg : bool) (v d : Z) : float64 :=
  let '(mz, ez, lz) := SFdiv_core_binary 53 1024 v 0 d 0 in
  binary_round_aux 53 1024 neg mz ez lz.

Definition f64_of_number (n : number) : float64 :=
  if n_val n =? 0 then S754_zero (n_neg n)
  else if n_hex n then
    binary_normalize 53 1024 (if n_neg n then - n_val n else n_val n) (n_exp n) (n_neg n)
  else if 0 <=? n_exp n then
    f64_of_Z ((if n_neg n then - n_val n else n_val n) * 10 ^ n_exp n)
  else f64_of_quotient (n_neg n) (n_val n) (10 ^ (- n_exp n)).

Definition lower_text (s : text) : list Z := lower <$> s.
Definition text_codes (s : string) : list Z := byte_val <$> explode s.

(** [special]: the infinities and NaN, in any case. *)
Definition special (s : text) : option float64 :=
  let '(neg, s') := take_sign s in
  if decide (lower_text s' = text_codes "inf") then Some (S754_infinity neg)
  else if decide (lower_text s' = text_codes "infinity") then Some (S754_infinity neg)
  else if decide (lower_text s = text_codes "nan") then Some S754_nan
  else None.

Definition ParseFloat (s : text) : num_error + float64 :=
  match special s with
  | Some f => inr f
  | None =>
      match readFloat s with
      | Some (n, []) =>
          match f64_of_number n with
          | S754_infinity _ => inl ErrRange
          | f => inr f
          end
      | _ => inl ErrSyntax
      end
  end.

(** ** The verb [%.2f]

    The exact value rounded to hundredths, a tie to the even one. *)
Definition div_half_even (n d : Z) : Z :=
  let q := n / d in
  let r := n mod d in
  if 2 * r <? d then q else if d <? 2 * r then q + 1 else if Z.even q then q else q + 1.

Definition two_digits (z : Z) : string := if z <? 10 then "0" +:+ pretty z else pretty z.

Definition format_f2 (f : float64) : string :=
  let cents (s : bool) (c : Z) : string :=
    (if s then "-" else "") +:+ pretty (c / 100) +:+ "." +:+ two_digits (c mod 100) in
  match f with
  | S754_zero s => cents s 0
  | S754_infinity s => if s then "-Inf" else "+Inf"
  | S754_nan => "NaN"
  | S754_finite s m e =>
      cents s (if 0 <=? e then 100 * Zpos m * 2 ^ e else div_half_even (100 * Zpos m) (2 ^ (- e)))
  end.

(** ** Decimal integers *)

Lemma explode_app a b : explode (a +:+ b) = explode a ++ explode b.
Proof.
  unfold explode. induction a as [|c a IH]; [done|].
  change (String c a +:+ b) with (String c (a +:+ b)). cbn. by f_equal.
Qed.

Lemma pretty_N_char_digit x : (x < 10)%N → is_digit (pretty_N_char x) = true ∧ digit (pretty_N_char x) = Z.of_N x.
Proof.
  intros Hx. assert (x = 0 ∨ x = 1 ∨ x = 2 ∨ x = 3 ∨ x = 4 ∨ x = 5 ∨ x = 6 ∨ x = 7 ∨ x = 8 ∨ x = 9)%N as Hx' by lia.
  by destruct_or! Hx'; subst.
Qed.

Lemma digits_val_snoc ds c : digits_val (ds ++ [c]) = digits_val ds * 10 + digit c.
Proof. unfold digits_val. by rewrite foldl_app. Qed.

Lemma explode_pretty_N_go x s :
  ∃ ds, explode (pretty_N_go x s) = ds ++ explode s ∧ forallb is_digit ds = true ∧
    digits_val ds = Z.of_N x ∧ (x ≠ 0%N → ds ≠ []).
Proof.
  revert s. induction (N.lt_wf_0 x) as [x _ IH]; intros s.
  destruct (decide (x = 0%N)) as [->|Hx]; [by exists []|].
  rewrite pretty_N_go_step by lia.
  destruct (IH (x / 10)%N ltac:(by apply N.div_lt; lia) (String (pretty_N_char (x mod 10)) s)) as (ds & -> & Hd & Hv & _).
  destruct (pretty_N_char_digit (x mod 10)%N) as [Hc Hcv]; [by apply N.mod_lt|].
  exists (ds ++ [pretty_N_char (x mod 10)]). split_and!.
  - by rewrite <-(assoc_L (++)).
  - by rewrite forallb_app, Hd; simpl; rewrite Hc.
  - rewrite digits_val_snoc, Hv, Hcv. pose proof (N.div_mod x 10). lia.
  - by destruct ds.
Qed.

(** A non-empty text of digits. *)
Definition all_digits (ds : text) : Prop := ds ≠ [] ∧ forallb is_digit ds = true.

Lemma explode_pretty_N (n : N) :
  ∃ ds, explode (pretty n) = ds ∧ all_digits ds ∧ digits_val ds = Z.of_N n.
Proof.
  unfold pretty, pretty_N. case_decide as Hn; [subst; by eexists|].
  destruct (explode_pretty_N_go n "") as (ds & -> & Hd & Hv & Hne). rewrite app_nil_r.
  exists ds. split_and!; [done|split; auto|done].
Qed.

Definition minus : Ascii.ascii := byte_of 45.
Definition space : Ascii.ascii := byte_of 32.

Lemma explode_pretty_Z n :
  ∃ ds, explode (pretty n) = (if n <? 0 then minus :: ds else ds) ∧ all_digits ds ∧ digits_val ds = Z.abs n.
Proof.
  destruct n as [|p|p].
  - by exists (explode "0").
  - destruct (explode_pretty_N (N.pos p)) as (ds & Hds & Hall & Hv). by exists ds.
  - destruct (explode_pretty_N (N.pos p)) as (ds & Hds & Hall & Hv). exists ds. split_and!; [|done..].
    change (pretty (Z.neg p)) with ("-" +:+ pretty (N.pos p)). by rewrite explode_app, Hds.
Qed.

(** ** Characters that the functions leave alone *)

(** The visible ASCII characters. *)
Definition is_graph (c : Ascii.ascii) : bool := (33 <=? byte_val c) && (byte_val c <=? 126).

Lemma byte_val_range c : 0 ≤ byte_val c < 256.
Proof. unfold byte_val. pose proof (Ascii.N_ascii_bounded c). lia. Qed.

Lemma is_digit_spec c : is_digit c = true ↔ 48 ≤ byte_val c ≤ 57.
Proof. unfold is_digit. rewrite andb_true_iff, !Z.leb_le. done. Qed.

Lemma digit_graph c : is_digit c = true → is_graph c = true.
Proof. rewrite is_digit_spec. unfold is_graph. rewrite andb_true_iff, !Z.leb_le. lia. Qed.

Lemma forallb_digit_graph ds : forallb is_digit ds = true → forallb is_graph ds = true.
Proof.
  rewrite !forallb_forall. intros Hd c Hc. apply digit_graph. auto.
Qed.

Lemma strip_any_None ps c s :
  forallb (λ p, match p with d :: _ => negb (bool_decide (d = c)) | [] => false end) ps = true →
  strip_any ps (c :: s) = None.
Proof.
  induction ps as [|p ps IH]; [done|]. cbn [forallb strip_any]. intros [Hp Hps]%andb_prop.
  destruct p as [|d p]; [done|]. cbn [strip_prefix]. apply negb_true_iff, bool_decide_eq_false in Hp.
  rewrite decide_False by done. by apply IH.
Qed.

Lemma strip_spaces_graph c s :
  is_graph c = true → strip_any spaces (c :: s) = None ∧ strip_any (reverse <$> spaces) (c :: s) = None.
Proof.
  intros Hc. split; apply strip_any_None; revert Hc; destruct c as [[] [] [] [] [] [] [] []]; vm_compute; done.
Qed.

Lemma strip_spaces_space s :
  strip_any spaces (space :: s) = Some s ∧ strip_any (reverse <$> spaces) (space :: s) = Some s.
Proof. done. Qed.

Lemma trim_front_stop fuel ps s : strip_any ps s = None → trim_front fuel ps s = s.
Proof. intros Hs. destruct fuel; [done|]. cbn [trim_front]. by rewrite Hs. Qed.

Lemma trim_front_spaces fuel ps k s :
  (∀ s, strip_any ps (space :: s) = Some s) → strip_any ps s = None → (k ≤ fuel)%nat →
  trim_front fuel ps (replicate k space ++ s) = s.
Proof.
  intros Hsp Hs. revert fuel. induction k as [|k IH]; intros fuel Hle; [by apply trim_front_stop|].
  destruct fuel as [|fuel]; [lia|]. cbn [trim_front replicate app]. rewrite Hsp. apply IH. lia.
Qed.

(** A text whose first and last characters are visible. *)
Definition solid (s : text) : Prop :=
  (∃ c s', s = c :: s' ∧ is_graph c = true) ∧ (∃ c s', s = s' ++ [c] ∧ is_graph c = true).

Lemma solid_nonempty s : solid s → s ≠ [].
Proof. by intros [(c & s' & -> & _) _]. Qed.

Lemma solid_graph s : s ≠ [] → forallb is_graph s = true → solid s.
Proof.
  intros Hne Hg. rewrite forallb_forall in Hg. split.
  - destruct s as [|c s]; [done|]. exists c, s. split; [done|]. apply Hg. by left.
  - destruct s as [|c s _] using rev_ind; [done|]. exists c, s. split; [done|]. apply Hg. apply in_app_iff. right. by left.
Qed.

Lemma solid_app s t : solid s → solid t → ∀ u, solid (s ++ u ++ t).
Proof.
  intros [(c & s' & -> & Hc) _] [_ (d & t' & -> & Hd)] u. split; [by exists c, (s' ++ u ++ t' ++ [d])|].
  exists d, (c :: s' ++ u ++ t'). split; [|done]. cbn. by rewrite <-!(assoc_L (++)).
Qed.

(** [TrimSpace] takes the spaces around a solid text. *)
Lemma TrimSpace_spec i j s : solid s → TrimSpace (replicate i space ++ s ++ replicate j space) = s.
Proof.
  intros [(c & s1 & Hc & Hgc) (d & s2 & Hd & Hgd)]. unfold TrimSpace.
  rewrite (trim_front_spaces _ spaces i (s ++ replicate j space)).
  - rewrite reverse_app, reverse_replicate, (trim_front_spaces _ (reverse <$> spaces) j (reverse s)).
    + by apply reverse_involutive.
    + intros s'. exact (proj2 (strip_spaces_space s')).
    + rewrite Hd, reverse_snoc. exact (proj2 (strip_spaces_graph d _ Hgd)).
    + rewrite length_app, length_replicate. lia.
  - intros s'. exact (proj1 (strip_spaces_space s')).
  - rewrite Hc. exact (proj1 (strip_spaces_graph c _ Hgc)).
  - rewrite length_app, length_replicate. lia.
Qed.

Lemma TrimSpace_solid s : solid s → TrimSpace s = s.
Proof. intros Hs. pose proof (TrimSpace_spec 0 0 s Hs) as H. cbn in H. by rewrite app_nil_r in H. Qed.

Lemma ToUpper_app a b : forallb (λ c, byte_val c <? 128) a = true → ToUpper (a ++ b) = ToUpper a ++ ToUpper b.
Proof.
  induction a as [|c a IH]; [done|]. cbn [forallb]. intros [Hc Ha]%andb_prop. apply Z.ltb_lt in Hc.
  specialize (IH Ha). assert (Hone : ∀ s, ToUpper (c :: s) = upper_ascii c :: ToUpper s).
  { intros [|d s]; [done|]. cbn [ToUpper]. destruct (Z.eqb_spec (byte_val c) 196); [lia|].
    destruct (Z.eqb_spec (byte_val c) 197); [lia|]. done. }
  cbn [app]. rewrite !Hone, IH. done.
Qed.

(** A text without letters is its own upper case. *)
Lemma ToUpper_id s : forallb (λ c, byte_val c <? 97) s = true → ToUpper s = s.
Proof.
  induction s as [|c s IH]; [done|]. cbn [forallb]. intros [Hc Hs]%andb_prop. apply Z.ltb_lt in Hc.
  change (c :: s) with ([c] ++ s). rewrite ToUpper_app by (cbn; rewrite andb_true_r; apply Z.ltb_lt; lia).
  rewrite (IH Hs). cbn. unfold upper_ascii. destruct (Z.leb_spec 97 (byte_val c)); [lia|done].
Qed.

Lemma strip_prefix_app p s : strip_prefix p (p ++ s) = Some s.
Proof. induction p as [|c p IH]; [done|]. cbn. by rewrite decide_True. Qed.

Lemma strip_suffix_app p s : strip_suffix p (s ++ p) = Some s.
Proof. unfold strip_suffix. rewrite reverse_app, strip_prefix_app. cbn. by rewrite reverse_involutive. Qed.

(** A text of digits without its trailing zeros. *)
Definition zero_digit : Ascii.ascii := byte_of 48.
Definition trim_zeros (s : text) : text := reverse (trim_front (length s) [[zero_digit]] (reverse s)).

(** ** Reading back what was printed *)

(** The digits [ds] with or without a minus sign. *)
Definition signed (neg : bool) (ds : text) : text := if neg then minus :: ds else ds.

Lemma all_digits_cons ds : all_digits ds → ∃ c ds', ds = c :: ds' ∧ 48 ≤ byte_val c ≤ 57.
Proof.
  intros [Hne Hd]. destruct ds as [|c ds]; [done|]. exists c, ds. split; [done|].
  apply andb_prop in Hd as [Hc _]. by apply is_digit_spec.
Qed.

Lemma take_sign_signed neg ds : all_digits ds → take_sign (signed neg ds) = (neg, ds).
Proof.
  intros Hd. destruct (all_digits_cons ds Hd) as (c & ds' & -> & Hc). destruct neg; [done|]. cbn.
  destruct (Z.eqb_spec (byte_val c) 45); [lia|]. destruct (Z.eqb_spec (byte_val c) 43); [lia|]. done.
Qed.

Lemma digits_val_acc n s : foldl (λ n c, n * 10 + digit c) n s = n * 10 ^ Z.of_nat (length s) + digits_val s.
Proof.
  unfold digits_val. revert n. induction s as [|c s IH]; intros n; [cbn; lia|].
  cbn [foldl length]. rewrite IH, (IH (0 * 10 + digit c)). rewrite Nat2Z.inj_succ, Z.pow_succ_r by lia. lia.
Qed.

Lemma digits_val_app a b : digits_val (a ++ b) = digits_val a * 10 ^ Z.of_nat (length b) + digits_val b.
Proof. unfold digits_val at 1. rewrite foldl_app, digits_val_acc. done. Qed.

Lemma digits_val_zeros k : digits_val (replicate k zero_digit) = 0.
Proof.
  induction k as [|k IH]; [done|]. change (replicate (S k) zero_digit) with ([zero_digit] ++ replicate k zero_digit).
  rewrite digits_val_app, IH. change (digits_val [zero_digit]) with 0. lia.
Qed.

Lemma trim_front_zeros fuel s : ∃ k, s = replicate k zero_digit ++ trim_front fuel [[zero_digit]] s.
Proof.
  revert s. induction fuel as [|fuel IH]; intros s; [by exists 0%nat|]. cbn [trim_front strip_any].
  destruct s as [|c s]; [by exists 0%nat|]. cbn [strip_prefix]. case_decide as Hc; [|by exists 0%nat].
  subst c. destruct (IH s) as [k Hk]. exists (S k). cbn. by f_equal.
Qed.

Lemma trim_zeros_spec s : ∃ k, s = trim_zeros s ++ replicate k zero_digit.
Proof.
  unfold trim_zeros. destruct (trim_front_zeros (length s) (reverse s)) as [k Hk]. exists k.
  apply (f_equal reverse) in Hk. by rewrite reverse_involutive, reverse_app, reverse_replicate in Hk.
Qed.

Lemma digits_val_nonneg ds : forallb is_digit ds = true → 0 ≤ digits_val ds.
Proof.
  induction ds as [|c ds IH] using rev_ind; [done|]. rewrite forallb_app, digits_val_snoc.
  intros [Hd Hc]%andb_prop. cbn in Hc. rewrite andb_true_r in Hc. apply is_digit_spec in Hc. specialize (IH Hd).
  unfold digit. lia.
Qed.

Lemma parse_digits_all ds : all_digits ds → parse_digits ds = Some (digits_val ds).
Proof. intros [Hne Hd]. unfold parse_digits. rewrite Hd. by destruct ds. Qed.

Lemma ParseInt_pretty n : is_i64 n → ParseInt (explode (pretty n)) = Some n.
Proof.
  intros Hn. unfold is_i64 in Hn. destruct (explode_pretty_Z n) as (ds & -> & Hd & Hv). fold (signed (n <? 0) ds).
  unfold ParseInt. rewrite take_sign_signed, parse_digits_all, Hv by done. cbn [mbind option_bind].
  destruct (Z.ltb_spec n 0); rewrite decide_True; f_equal; lia.
Qed.

Lemma read_mantissa_digits ds m :
  forallb is_digit ds = true → m_dot m = false →
  read_mantissa false m ds =
    ({| m_val := foldl (λ n c, n * 10 + digit c) (m_val m) ds; m_frac := m_frac m; m_dot := false;
        m_digits := m_digits m || negb (bool_decide (ds = [])); m_underscores := m_underscores m |}, []).
Proof.
  revert m. induction ds as [|c ds IH]; intros m Hd Hdot.
  - destruct m; cbn in *. subst. by rewrite orb_false_r.
  - apply andb_prop in Hd as [Hc Hd]. pose proof (proj1 (is_digit_spec c) Hc). cbn [read_mantissa foldl].
    destruct (Z.eqb_spec (byte_val c) 95); [lia|]. destruct (Z.eqb_spec (byte_val c) 46); [lia|].
    rewrite Hc, IH by done. unfold add_digit. cbn. rewrite Hdot, orb_true_r. done.
Qed.

Lemma readFloat_signed neg ds :
  all_digits ds →
  readFloat (signed neg ds) = Some ({| n_neg := neg; n_hex := false; n_val := digits_val ds; n_exp := 0 |}, []).
Proof.
  intros Hd. unfold readFloat. rewrite take_sign_signed by done.
  assert (Hhex : match ds with
    | c :: d :: (_ :: _) => if (byte_val c =? 48) && (lower d =? 120) then (true, skipn 2 ds) else (false, ds)
    | _ => (false, ds) end = (false, ds)).
  { destruct Hd as [_ Hd]. destruct ds as [|c [|d [|e ds]]]; try done. cbn in Hd.
    apply andb_prop in Hd as [_ [Hd _]%andb_prop]. apply is_digit_spec in Hd.
    assert (lower d =? 120 = false) as ->; [|by rewrite andb_false_r].
    revert Hd. destruct d as [[] [] [] [] [] [] [] []]; vm_compute; try done; intros [? ?]; done. }
  rewrite Hhex, read_mantissa_digits by (try apply Hd; done). cbn [m_digits zero_mantissa].
  rewrite bool_decide_false by apply Hd. cbn. done.
Qed.

Lemma special_signed neg ds : all_digits ds → special (signed neg ds) = None.
Proof.
  intros Hd. unfold special. rewrite take_sign_signed by done.
  destruct (all_digits_cons ds Hd) as (c & ds' & -> & Hc).
  assert (Hl : ¬ In (lower c) [105; 110]).
  { clear -Hc. revert Hc. destruct c as [[] [] [] [] [] [] [] []]; vm_compute; try (intros [? ?]; done);
      intros _ [|[|]]; done. }
  assert (Hn : ∀ x l s, In x [105; 110] → lower_text (c :: ds') = x :: l → s = c :: ds' → False).
  { intros x l s Hx [= Hcx _] _. apply Hl. by rewrite Hcx. }
  rewrite !decide_False; [done|..].
  - destruct neg; [done|]. intros E. by eapply Hn; [right; left|exact E|].
  - intros E. by eapply Hn; [left|exact E|].
  - intros E. by eapply Hn; [left|exact E|].
Qed.

(** An integer below 2^53 is parsed exactly. *)
Lemma ParseFloat_pretty n : Z.abs n < 2 ^ 53 → ParseFloat (explode (pretty n)) = inr (f64_of_Z n).
Proof.
  intros Hn. destruct (explode_pretty_Z n) as (ds & -> & Hd & Hv). fold (signed (n <? 0) ds).
  unfold ParseFloat. rewrite special_signed, readFloat_signed by done. unfold f64_of_number. cbn [n_val n_neg n_hex n_exp].
  rewrite Hv. destruct n as [|p|p]; [done|..]; cbn -[f64_of_Z]; change (10 ^ 0) with 1; rewrite Z.mul_1_r.
  - change (Z.abs (Z.pos p)) with (Z.pos p). cbn -[f64_of_Z]. destruct (f64_of_Z_exact p) as [-> _]; [lia|done].
  - change (- Z.abs (Z.neg p)) with (Z.neg p). change (Z.abs (Z.neg p)) with (Z.pos p). cbn -[f64_of_Z].
    destruct (f64_of_Z_exact p) as [_ ->]; [lia|done].
Qed.
