(* ===== verification/FormatFloat.v ===== *)
(** * Text of float64 values: strconv.FormatFloat with the shortest precision

    [FormatFloat f 'g' (-1) 64], which writes the columns of the CSV file, and
    the form encoding/json writes: the fewest digits that [ParseFloat] reads
    back as the same value, laid out with or without an exponent. *)
From stdpp Require Import pretty.
From S2P Require Import Prelude GoFloat FloatFacts GoText.

Definition point : Ascii.ascii := byte_of 46.

(** ** Decimals

    The digits [ds] after a point that stands [dp] places to the right:
    [0.ds * 10^dp]. *)
Record decimal := { ds : text; dp : Z }.

(** The decimal of [c * 10^x]. *)
Definition decimal_of (c x : Z) : decimal :=
  let s := explode (pretty c) in {| ds := trim_zeros s; dp := Z.of_nat (length s) + x |}.

(** The finite value [m * 2^e] as an integer times a power of ten. *)
Definition exact_coefficient (m : positive) (e : Z) : Z := if 0 <=? e then Zpos m * 2 ^ e else Zpos m * 5 ^ (- e).
Definition exact_exponent (e : Z) : Z := Z.min 0 e.

(** ** Layouts *)

Definition sign_text (neg : bool) : text := if neg then [minus] else [].

(** [fmtE]: one digit, a point, the others, and an exponent of at least two
    digits. *)
Definition exponent_text (x : Z) : text :=
  [byte_of 101; if x <? 0 then minus else byte_of 43] ++
  (if Z.abs x <? 10 then [zero_digit] else []) ++ explode (pretty (Z.abs x)).

Definition fmtE (neg : bool) (d : decimal) : text :=
  sign_text neg ++
  match ds d with
  | [] => [zero_digit] ++ exponent_text 0
  | c :: [] => [c] ++ exponent_text (dp d - 1)
  | c :: rest => [c; point] ++ rest ++ exponent_text (dp d - 1)
  end.

(** [fmtF] with as many fractional digits as there are. *)
Definition fmtF (neg : bool) (d : decimal) : text :=
  let nd := Z.of_nat (length (ds d)) in
  sign_text neg ++
  (if 0 <? dp d
   then take (Z.to_nat (dp d)) (ds d) ++ replicate (Z.to_nat (dp d - nd)) zero_digit
   else [zero_digit]) ++
  (if 0 <? nd - dp d
   then point :: replicate (Z.to_nat (- dp d)) zero_digit ++ drop (Z.to_nat (dp d)) (ds d)
   else []).

(** What chooses the layout: [%g] an exponent below -4 or from 6 (the digits
    are the shortest), encoding/json the magnitude, with no leading zero in a
    small negative exponent. *)
Inductive style := StyleG | StyleJSON (sci : bool).

Definition drop_exponent_zero (s : text) : text :=
  match reverse s with
  | d :: z :: sg :: e :: rest =>
      if decide (e = byte_of 101) then
        if decide (sg = minus) then
          if decide (z = zero_digit) then reverse rest ++ [e; sg; d] else s
        else s
      else s
  | _ => s
  end.

Definition layout (st : style) (neg : bool) (d : decimal) : text :=
  match st with
  | StyleG => if (dp d - 1 <? -4) || (6 <=? dp d - 1) then fmtE neg d else fmtF neg d
  | StyleJSON sci => if sci then drop_exponent_zero (fmtE neg d) else fmtF neg d
  end.

(** ** The shortest digits *)

Definition reads_as (s : text) (f : float64) : bool :=
  match ParseFloat s with inr g => bool_decide (g = f) | inl _ => false end.

(** The coefficient [n], of [nd] digits, cut down to [k]: the two neighbours
    are tried, the nearer one first when both read back. *)
Definition cut (text_of : Z → Z → text) (f : float64) (n x nd k : Z) : option text :=
  let p := 10 ^ (nd - k) in
  let lo := n / p in
  let a := text_of lo (nd - k + x) in
  let b := text_of (lo + 1) (nd - k + x) in
  match reads_as a f, reads_as b f with
  | true, true => Some (if div_half_even n p =? lo then a else b)
  | true, false => Some a
  | false, true => Some b
  | false, false => None
  end.

(** From [k] digits on; all the digits when no cut reads back. *)
Fixpoint shortest (fuel : nat) (text_of : Z → Z → text) (f : float64) (n x nd k : Z) : text :=
  match fuel with
  | O => text_of n x
  | S fuel =>
      if k <? nd then
        match cut text_of f n x nd k with
        | Some s => s
        | None => shortest fuel text_of f n x nd (k + 1)
        end
      else text_of n x
  end.

Definition zero_decimal : decimal := {| ds := []; dp := 0 |}.

Definition format_float (st : style) (f : float64) : text :=
  match f with
  | S754_nan => explode "NaN"
  | S754_infinity neg => explode (if neg then "-Inf" else "+Inf")
  | S754_zero neg => layout st neg zero_decimal
  | S754_finite neg m e =>
      let n := exact_coefficient m e in
      let nd := Z.of_nat (length (explode (pretty n))) in
      shortest 20 (λ c x, layout st neg (decimal_of c x)) f n (exact_exponent e) nd 1
  end.

Definition FormatFloat_g (f : float64) : string := implode (format_float StyleG f).

(** encoding/json's [floatEncoder] on a finite value. *)
Definition json_sci (f : float64) : bool :=
  match f with
  | S754_zero _ => false
  | _ => f64_lt (SFabs f) (f64_of_ratio 1 1000000) || f64_le (f64_of_Z (10 ^ 21)) (SFabs f)
  end.

Definition json_float (f : float64) : text := format_float (StyleJSON (json_sci f)) f.

Example format_samples :
  FormatFloat_g <$> [f64_of_ratio 1 10; f64_of_Z 1000000; f64_of_ratio 3 4; f64_of_Z 123456; f64_of_ratio 1 3;
    S754_finite false 1 (-1074); f64_of_Z 0; S754_zero true; S754_finite true (2^53-1)%positive 971; f64_of_ratio 1 100000] =
  ["0.1"; "1e+06"; "0.75"; "123456"; "0.3333333333333333"; "5e-324"; "0"; "-0"; "-1.7976931348623157e+308"; "1e-05"]%string.
Proof. vm_compute. reflexivity. Qed.

Example json_samples :
  (implode ∘ json_float) <$> [f64_of_ratio 1 10; f64_of_Z 1000000; f64_of_Z (10 ^ 21); f64_of_ratio 1 10000000; f64_of_ratio 5 1000000] =
  ["0.1"; "1000000"; "1e+21"; "1e-7"; "0.000005"]%string.
Proof. vm_compute. reflexivity. Qed.

(** ** Digits *)

Lemma length_explode s : length (explode s) = String.length s.
Proof. unfold explode. induction s as [|c s IH]; [done|]. cbn. by f_equal. Qed.

Lemma log2_div10 x : (2 <= x)%N → (N.log2 (x / 10) + 1 <= N.log2 x)%N.
Proof.
  intros Hx. assert (H1 : (x / 10 <= N.shiftr x 1)%N).
  { rewrite N.shiftr_div_pow2. apply N.div_le_compat_l. done. }
  apply N.log2_le_mono in H1. rewrite N.log2_shiftr in H1. pose proof (N.log2_le_mono 2 x Hx) as H2.
  change (N.log2 2) with 1%N in H2. lia.
Qed.

Lemma length_pretty_go x s :
  (length (explode (pretty_N_go x s)) ≤ String.length s + (if decide (x = 0%N) then 0 else S (N.to_nat (N.log2 x))))%nat.
Proof.
  revert s. induction (N.lt_wf_0 x) as [x _ IH]; intros s. case_decide as Hx.
  - subst. change (pretty_N_go 0 s) with s. rewrite length_explode. lia.
  - rewrite pretty_N_go_step by lia. etrans; [apply IH, N.div_lt; lia|]. cbn [String.length].
    case_decide as Hd; [lia|]. pose proof (log2_div10 x) as Hl.
    destruct (N.le_gt_cases 2 x) as [H2|H2]; [specialize (Hl H2); lia|]. by rewrite N.div_small in Hd by lia.
Qed.

(** The decimal of a positive integer times a power of ten. *)
Definition decimal_ok (d : decimal) : Prop := all_digits (ds d) ∧ Z.abs (dp d) ≤ 5000.

Lemma decimal_of_spec n x :
  0 < n < 2 ^ 3300 → - 1074 ≤ x ≤ 0 →
  ∃ k, decimal_ok (decimal_of n x) ∧ n = digits_val (ds (decimal_of n x)) * 10 ^ Z.of_nat k ∧
    dp (decimal_of n x) - Z.of_nat (length (ds (decimal_of n x))) = Z.of_nat k + x.
Proof.
  intros [Hn Hn'] Hx. destruct (explode_pretty_Z n) as (s & Hs & [Hne Hd] & Hv). rewrite (proj2 (Z.ltb_ge n 0)) in Hs by lia.
  rewrite Z.abs_eq in Hv by lia. unfold decimal_of. rewrite Hs. cbn [ds dp].
  destruct (trim_zeros_spec s) as [k Hk]. exists k.
  assert (Hval : n = digits_val (trim_zeros s) * 10 ^ Z.of_nat k).
  { rewrite Hk, digits_val_app, digits_val_zeros, length_replicate in Hv. lia. }
  assert (Hlen : Z.of_nat (length s) ≤ 3301).
  { rewrite <-Hs. destruct n as [|p|p]; [lia| |lia]. change (pretty (Z.pos p)) with (pretty (N.pos p)).
    unfold pretty, pretty_N. rewrite decide_False by done. pose proof (length_pretty_go (N.pos p) "") as Hl.
    rewrite decide_False in Hl by done. cbn [String.length] in Hl.
    assert ((N.log2 (N.pos p) < 3300)%N); [|lia]. apply N.log2_lt_pow2; [lia|].
    apply N2Z.inj_lt. rewrite N2Z.inj_pow. simpl Z.of_N. lia. }
  assert (Hlk : Z.of_nat (length s) = Z.of_nat (length (trim_zeros s)) + Z.of_nat k).
  { rewrite Hk at 1. rewrite length_app, length_replicate. lia. }
  split_and!; [|done|lia]. split; cbn [ds dp]; [|lia]. split.
  - intros He. rewrite He in Hval. change (digits_val []) with 0 in Hval. lia.
  - rewrite Hk, forallb_app in Hd. by apply andb_prop in Hd as [? _].
Qed.

(** ** Reading a layout back *)

Definition add_digits (s : text) (m : mantissa) : mantissa := foldl (λ m c, add_digit 10 (digit c) m) m s.

Lemma add_digits_spec s m :
  add_digits s m =
    {| m_val := m_val m * 10 ^ Z.of_nat (length s) + digits_val s;
       m_frac := if m_dot m then m_frac m + Z.of_nat (length s) else m_frac m; m_dot := m_dot m;
       m_digits := match s with [] => m_digits m | _ => true end; m_underscores := m_underscores m |}.
Proof.
  revert m. induction s as [|c s IH] using rev_ind; intros m.
  - destruct m; cbn. f_equal; [lia|]. case_match; lia.
  - unfold add_digits in *. rewrite foldl_app, IH. cbn [foldl]. unfold add_digit. cbn.
    rewrite digits_val_snoc, length_app, Nat2Z.inj_add, Z.pow_add_r by lia. cbn [length]. f_equal.
    + change (10 ^ Z.of_nat 1) with 10. lia.
    + destruct (m_dot m); lia.
    + by destruct s.
Qed.

Lemma digit_char c : is_digit c = true → (byte_val c =? 95) = false ∧ (byte_val c =? 46) = false ∧
  (byte_val c =? 45) = false ∧ (byte_val c =? 43) = false ∧ (lower c =? 120) = false.
Proof. destruct c as [[] [] [] [] [] [] [] []]; vm_compute; done. Qed.

Lemma read_mantissa_run s rest m :
  forallb is_digit s = true → read_mantissa false m (s ++ rest) = read_mantissa false (add_digits s m) rest.
Proof.
  revert m. induction s as [|c s IH]; intros m Hs; [done|]. apply andb_prop in Hs as [Hc Hs].
  destruct (digit_char c Hc) as (H1 & H2 & _). cbn [app read_mantissa]. rewrite H1, H2, Hc. by apply IH.
Qed.

(** The end of a number: nothing, or an exponent. *)
Definition exponent_tail (t : text) (x : Z) : Prop :=
  optional_exponent false false t = Some (x, false, []) ∧ (t = [] ∨ ∃ t', t = byte_of 101 :: t').

Lemma read_mantissa_stop m t x : exponent_tail t x → read_mantissa false m t = (m, t).
Proof. by intros [_ [-> | [t' ->]]]. Qed.

Definition fraction (s : text) : text := match s with [] => [] | _ => point :: s end.

Lemma read_mantissa_number s1 s2 t x :
  forallb is_digit s1 = true → forallb is_digit s2 = true → s1 ≠ [] → exponent_tail t x →
  read_mantissa false zero_mantissa (s1 ++ fraction s2 ++ t) =
    ({| m_val := digits_val (s1 ++ s2); m_frac := Z.of_nat (length s2);
        m_dot := match s2 with [] => false | _ => true end; m_digits := true; m_underscores := false |}, t).
Proof.
  intros H1 H2 Hne Ht. rewrite read_mantissa_run, add_digits_spec by done. unfold fraction. destruct s2 as [|c s2].
  - cbn [app]. rewrite app_nil_r. erewrite read_mantissa_stop by done. cbn. by destruct s1.
  - set (s := c :: s2) in *. cbn [app read_mantissa]. change (byte_val point =? 95) with false.
    change (byte_val point =? 46) with true. cbn [m_dot zero_mantissa]. rewrite read_mantissa_run, add_digits_spec by done.
    erewrite read_mantissa_stop by done. cbn [m_val m_frac m_dot m_digits m_underscores zero_mantissa].
    rewrite digits_val_app, Z.mul_0_l, !Z.add_0_l. by destruct s1.
Qed.

(** What may follow the first character of a number. *)
Lemma number_not_hex c rest s2 t x s :
  forallb is_digit (c :: rest) = true → exponent_tail t x → s = (c :: rest) ++ fraction s2 ++ t →
  match s with
  | a :: b :: (_ :: _) => if (byte_val a =? 48) && (lower b =? 120) then (true, skipn 2 s) else (false, s)
  | _ => (false, s)
  end = (false, s).
Proof.
  intros Hd [_ Ht] E. destruct s as [|a [|b [|z u]]]; [done..|].
  assert (Hb : (lower b =? 120) = false); [|by rewrite Hb, andb_false_r].
  apply andb_prop in Hd as [_ Hd]. cbn [app] in E. injection E as _ E. destruct rest as [|d rest].
  - unfold fraction in E. destruct s2 as [|? s2].
    + cbn in E. destruct Ht as [-> | [t' ->]]; [done|]. by injection E as -> _.
    + by injection E as -> _.
  - cbn [app] in E. injection E as -> _. apply andb_prop in Hd as [Hd _]. apply (digit_char _ Hd).
Qed.

Lemma readFloat_number neg s1 s2 t x :
  forallb is_digit s1 = true → forallb is_digit s2 = true → s1 ≠ [] → exponent_tail t x →
  readFloat (sign_text neg ++ s1 ++ fraction s2 ++ t) =
    Some ({| n_neg := neg; n_hex := false; n_val := digits_val (s1 ++ s2); n_exp := x - Z.of_nat (length s2) |}, []).
Proof.
  intros H1 H2 Hne Ht. destruct s1 as [|c s1]; [done|].
  assert (Hsign : take_sign (sign_text neg ++ (c :: s1) ++ fraction s2 ++ t) = (neg, (c :: s1) ++ fraction s2 ++ t)).
  { destruct neg; [done|]. cbn. apply andb_prop in H1 as [Hc _]. destruct (digit_char c Hc) as (_ & _ & -> & -> & _). done. }
  unfold readFloat. rewrite Hsign. rewrite (number_not_hex c s1 s2 t x _ H1 Ht eq_refl).
  rewrite (read_mantissa_number (c :: s1) s2 t x) by done. cbn [m_digits negb m_underscores m_frac m_val].
  destruct Ht as [-> _]. done.
Qed.

Lemma special_number neg c s : is_digit c = true → special (sign_text neg ++ c :: s) = None.
Proof.
  intros Hc. unfold special.
  assert (Hsign : take_sign (sign_text neg ++ c :: s) = (neg, c :: s)).
  { destruct neg; [done|]. cbn. by destruct (digit_char c Hc) as (_ & _ & -> & -> & _). }
  assert (Hl : lower c ≠ 105 ∧ lower c ≠ 110) by (revert Hc; destruct c as [[] [] [] [] [] [] [] []]; vm_compute; done).
  rewrite Hsign. unfold lower_text. change (text_codes "inf") with [105; 110; 102].
  change (text_codes "infinity") with [105; 110; 102; 105; 110; 105; 116; 121]. change (text_codes "nan") with [110; 97; 110].
  cbn [fmap list_fmap]. rewrite !decide_False by naive_solver.
  rewrite decide_False; [done|]. destruct neg; cbn; intros [= ? ?]; naive_solver.
Qed.

(** The exponents in reach, checked one by one, with and without the zero. *)
Definition tail_check (t : text) (x : Z) : bool :=
  bool_decide (head t = Some (byte_of 101)) &&
  match optional_exponent false false t with
  | Some (y, false, []) => y =? x
  | _ => false
  end.

Lemma tail_check_spec t x : tail_check t x = true → exponent_tail t x.
Proof.
  unfold tail_check, exponent_tail. intros [Hh Ho]%andb_prop. apply bool_decide_eq_true in Hh. split.
  - destruct (optional_exponent false false t) as [[[y []] [|]]|]; try done. by apply Z.eqb_eq in Ho as ->.
  - destruct t as [|c t]; [by left|right]. injection Hh as ->. by eexists.
Qed.

Lemma exponent_texts x :
  Z.abs x ≤ 6000 →
  exponent_tail (exponent_text x) x ∧ exponent_tail (drop_exponent_zero (exponent_text x)) x ∧
  (4 ≤ length (exponent_text x))%nat.
Proof.
  intros Hx.
  assert (Hall : forallb (λ j, let x := Z.of_nat j - 6000 in
    tail_check (exponent_text x) x && tail_check (drop_exponent_zero (exponent_text x)) x &&
    (4 <=? length (exponent_text x))%nat) (seq 0 (Z.to_nat 12001)) = true) by (vm_compute; reflexivity).
  rewrite forallb_forall in Hall. specialize (Hall (Z.to_nat (x + 6000))). cbv zeta in Hall.
  replace (Z.of_nat (Z.to_nat (x + 6000)) - 6000) with x in Hall by lia.
  apply andb_prop in Hall as [[H1%tail_check_spec H2%tail_check_spec]%andb_prop H3%Nat.leb_le]; [done|].
  apply in_seq. lia.
Qed.

Lemma drop_exponent_zero_app b t : (4 ≤ length t)%nat → drop_exponent_zero (b ++ t) = b ++ drop_exponent_zero t.
Proof.
  intros Hl. unfold drop_exponent_zero. rewrite reverse_app. rewrite <-(length_reverse t) in Hl.
  assert (Hrt : t = reverse (reverse t)) by (by rewrite reverse_involutive).
  destruct (reverse t) as [|d [|z [|sg [|e rest]]]]; cbn [length] in Hl; try lia. cbn [app].
  repeat case_decide; try done. by rewrite reverse_app, reverse_involutive, <-(assoc_L (++)).
Qed.

(** A layout of a decimal is read as a number of the same value. *)
Definition reads_number (s : text) (neg : bool) (d : decimal) : Prop :=
  special s = None ∧
  ∃ v x, readFloat s = Some ({| n_neg := neg; n_hex := false; n_val := v; n_exp := x |}, []) ∧
    let y := dp d - Z.of_nat (length (ds d)) in
    (v = digits_val (ds d) ∧ x = y ∨ 0 ≤ y ∧ v = digits_val (ds d) * 10 ^ y ∧ x = 0).

Lemma fmtE_shape neg d :
  ds d ≠ [] → ∃ c rest, ds d = c :: rest ∧
    fmtE neg d = (sign_text neg ++ [c] ++ fraction rest) ++ exponent_text (dp d - 1).
Proof.
  intros Hne. unfold fmtE, fraction. destruct (ds d) as [|c [|c' rest]]; [done|..]; eexists _, _; (split; [done|]).
  - by rewrite app_nil_r, <-(assoc_L (++)).
  - by rewrite <-!(assoc_L (++)).
Qed.

Lemma sci_reads neg d t :
  decimal_ok d → exponent_tail t (dp d - 1) →
  (∃ c rest, ds d = c :: rest ∧ reads_number ((sign_text neg ++ [c] ++ fraction rest) ++ t) neg d) .
Proof.
  intros [[Hne Hd] _] Ht. destruct (ds d) as [|c rest] eqn:Hds; [done|]. exists c, rest. split; [done|].
  pose proof Hd as [Hc Hrest]%andb_prop. rewrite <-!(assoc_L (++)).
  split; [by apply special_number|]. do 2 eexists. split.
  - apply (readFloat_number neg [c] rest t (dp d - 1)); [by cbn; rewrite Hc|done..].
  - left. rewrite Hds. cbn [length app]. split; [done|lia].
Qed.

Lemma all_digits_zeros k : forallb is_digit (replicate k zero_digit) = true.
Proof. induction k; [done|]. cbn [replicate forallb]. by rewrite IHk. Qed.

Lemma forallb_digit_take_drop n s :
  forallb is_digit s = true → forallb is_digit (take n s) = true ∧ forallb is_digit (drop n s) = true.
Proof. intros Hs. rewrite <-(take_drop n s), forallb_app in Hs. by apply andb_prop in Hs. Qed.

Lemma no_exponent : exponent_tail [] 0.
Proof. split; [done|by left]. Qed.

Lemma plain_reads neg d : decimal_ok d → reads_number (fmtF neg d) neg d.
Proof.
  intros [[Hne Hd] _]. unfold fmtF. set (nd := Z.of_nat (length (ds d))). set (k := Z.to_nat (dp d)).
  destruct (forallb_digit_take_drop k (ds d) Hd) as [Htk Hdr].
  set (s1 := if 0 <? dp d then take k (ds d) ++ replicate (Z.to_nat (dp d - nd)) zero_digit else [zero_digit]).
  set (s2 := if 0 <? nd - dp d then replicate (Z.to_nat (- dp d)) zero_digit ++ drop k (ds d) else []).
  assert (Hs : sign_text neg ++ s1 ++ (if 0 <? nd - dp d
     then point :: replicate (Z.to_nat (- dp d)) zero_digit ++ drop k (ds d) else []) =
     sign_text neg ++ s1 ++ fraction s2 ++ []).
  { rewrite app_nil_r. do 2 f_equal. unfold s2. destruct (Z.ltb_spec 0 (nd - dp d)) as [Hlt|]; [|done].
    unfold fraction. destruct (replicate (Z.to_nat (- dp d)) zero_digit ++ drop k (ds d)) eqn:E; [|done].
    apply (f_equal length) in E. rewrite length_app, length_replicate, length_drop in E. cbn in E. unfold k, nd in *. lia. }
  rewrite Hs. clear Hs.
  assert (H1 : forallb is_digit s1 = true).
  { unfold s1. case_match; [|done]. by rewrite forallb_app, Htk, all_digits_zeros. }
  assert (H2 : forallb is_digit s2 = true).
  { unfold s2. case_match; [|done]. by rewrite forallb_app, Hdr, all_digits_zeros. }
  assert (Hne1 : s1 ≠ []).
  { unfold s1. destruct (Z.ltb_spec 0 (dp d)); [|done]. destruct (ds d) as [|c s]; [done|].
    destruct k eqn:Hk; [unfold k in Hk; lia|]. done. }
  split.
  { destruct s1 as [|c s1']; [done|]. apply andb_prop in H1 as [H1 _]. by apply special_number. }
  do 2 eexists. split; [by apply (readFloat_number neg s1 s2 [] 0); auto using no_exponent|].
  fold nd. unfold s1, s2. destruct (Z.ltb_spec 0 (dp d)) as [Hp|Hp], (Z.ltb_spec 0 (nd - dp d)) as [Hq|Hq].
  - left. replace (Z.to_nat (dp d - nd)) with 0%nat by lia. replace (Z.to_nat (- dp d)) with 0%nat by lia.
    cbn [replicate app]. rewrite app_nil_r, take_drop, length_drop. split; [done|]. unfold k, nd in *. lia.
  - right. rewrite app_nil_r, digits_val_app, digits_val_zeros, length_replicate, (take_ge (ds d)) by (unfold k, nd in *; lia).
    cbn [length]. split_and!; [lia| |lia]. rewrite Z2Nat.id by lia. lia.
  - left. replace k with 0%nat by (unfold k; lia). rewrite drop_0, !digits_val_app, digits_val_zeros, length_app, length_replicate.
    change (digits_val [zero_digit]) with 0. split; [lia|]. unfold nd in *. lia.
  - destruct (ds d); [done|]. unfold nd in *. cbn [length] in *. lia.
Qed.

(** ** The decimals of a finite value read back *)

Lemma of_Z_signed (neg : bool) p : f64_of_Z (if neg then - Zpos p else Zpos p) = binary_round 53 1024 neg p 0.
Proof. by destruct neg. Qed.

(** [a * 10^y] is [m * 2^e]. *)
Definition same_value (a y : Z) (m : positive) (e : Z) : Prop :=
  if 0 <=? y then a * 10 ^ y * 2 ^ Z.max 0 (- e) = Zpos m * 2 ^ Z.max 0 e
  else a * 2 ^ Z.max 0 (- e) = Zpos m * 2 ^ Z.max 0 e * 10 ^ (- y).

Lemma exact_same_value a k y m e :
  exact_coefficient m e = a * 10 ^ Z.of_nat k → y = Z.of_nat k + exact_exponent e → same_value a y m e.
Proof.
  unfold exact_coefficient, exact_exponent, same_value. intros Hn ->. set (K := Z.of_nat k) in *.
  assert (HK : 0 ≤ K) by (unfold K; lia). destruct (Z.leb_spec 0 e) as [He|He].
  - rewrite (Z.max_l 0), Z.max_r, Z.min_l, Z.add_0_r, Z.pow_0_r by lia. destruct (Z.leb_spec 0 K); lia.
  - rewrite (Z.max_r 0 (- e)), (Z.max_l 0 e), Z.min_r, Z.pow_0_r, Z.mul_1_r by lia.
    pose proof (Z.pow_pos_nonneg 5 (- e) ltac:(lia) ltac:(lia)). pose proof (Z.pow_pos_nonneg 10 K ltac:(lia) HK).
    assert (H10 : 10 ^ (- e) = 5 ^ (- e) * 2 ^ (- e)) by (by rewrite <-Z.pow_mul_l).
    destruct (Z.leb_spec 0 (K + e)) as [Hy|Hy].
    + assert (Hp : 10 ^ K = 10 ^ (K + e) * 10 ^ (- e)) by (rewrite <-Z.pow_add_r by lia; f_equal; lia).
      rewrite Hp, H10 in Hn. nia.
    + assert (Hp : 10 ^ (- e) = 10 ^ (- (K + e)) * 10 ^ K) by (rewrite <-Z.pow_add_r by lia; f_equal; lia).
      assert (Hm : (a * 2 ^ (- e)) * 10 ^ K = Zpos m * 10 ^ (- (K + e)) * 10 ^ K); [|nia].
      replace (a * 2 ^ (- e) * 10 ^ K) with (a * 10 ^ K * 2 ^ (- e)) by lia. rewrite <-Hn.
      rewrite <-(Z.mul_assoc _ _ (10 ^ K)), <-Hp, H10. lia.
Qed.

Lemma number_exact (neg : bool) a y m e v x :
  0 < a → bounded 53 1024 m e = true → same_value a y m e →
  (v = a ∧ x = y ∨ 0 ≤ y ∧ v = a * 10 ^ y ∧ x = 0) →
  f64_of_number {| n_neg := neg; n_hex := false; n_val := v; n_exp := x |} = S754_finite neg m e.
Proof.
  intros Ha Hb Hsv Hv. unfold f64_of_number. cbn [n_val n_neg n_hex n_exp].
  assert (Hy : 0 ≤ y → f64_of_Z (if neg then - (a * 10 ^ y) else a * 10 ^ y) = S754_finite neg m e).
  { intros Hy. unfold same_value in Hsv. destruct (Z.leb_spec 0 y); [|lia].
    pose proof (Z.pow_pos_nonneg 10 y ltac:(lia) Hy). destruct (a * 10 ^ y) as [|p|p] eqn:Hp; [nia| |nia].
    rewrite of_Z_signed. by apply of_pos_exact. }
  destruct Hv as [[-> ->]|(Hy0 & -> & ->)].
  - destruct (Z.eqb_spec a 0); [lia|]. destruct (Z.leb_spec 0 y) as [Hy0|Hy0].
    + replace ((if neg then - a else a) * 10 ^ y) with (if neg then - (a * 10 ^ y) else a * 10 ^ y) by (destruct neg; lia).
      by apply Hy.
    + unfold same_value in Hsv. destruct (Z.leb_spec 0 y); [lia|]. unfold f64_of_quotient.
      apply div_core_exact; [done| |done|done]. apply Z.pow_pos_nonneg; lia.
  - pose proof (Z.pow_pos_nonneg 10 y ltac:(lia) Hy0). destruct (Z.eqb_spec (a * 10 ^ y) 0); [nia|].
    cbn [Z.leb]. change (0 <=? 0) with true. cbv iota. rewrite Z.pow_0_r, Z.mul_1_r. by apply Hy.
Qed.

Lemma exact_coefficient_bounds m e :
  bounded 53 1024 m e = true → 0 < exact_coefficient m e < 2 ^ 3300 ∧ -1074 ≤ exact_exponent e ≤ 0.
Proof.
  intros [Hcan He]%bounded_spec. unfold exact_exponent. split; [|lia].
  assert (Hm : Zpos m < 2 ^ 53).
  { destruct (digits_bounds (Zpos m)) as (_ & _ & Hu); [done|]. change (digits_of (Z.pos m)) with (Z.pos (digits2_pos m)) in Hu.
    assert (2 ^ Z.pos (digits2_pos m) ≤ 2 ^ 53) by (apply Z.pow_le_mono_r; lia). lia. }
  unfold exact_coefficient. destruct (Z.leb_spec 0 e).
  - pose proof (Z.pow_pos_nonneg 2 e ltac:(lia) ltac:(lia)).
    assert (2 ^ e ≤ 2 ^ 971) by (apply Z.pow_le_mono_r; lia).
    assert (2 ^ 53 * 2 ^ 971 ≤ 2 ^ 3300) by (rewrite <-Z.pow_add_r by lia; apply Z.pow_le_mono_r; lia). nia.
  - pose proof (Z.pow_pos_nonneg 5 (- e) ltac:(lia) ltac:(lia)).
    assert (5 ^ (- e) ≤ 8 ^ (- e)) by (apply Z.pow_le_mono_l; lia).
    change 8 with (2 ^ 3) in *. rewrite <-Z.pow_mul_r in * by lia.
    assert (2 ^ (3 * - e) ≤ 2 ^ 3222) by (apply Z.pow_le_mono_r; lia).
    assert (2 ^ 53 * 2 ^ 3222 ≤ 2 ^ 3300) by (rewrite <-Z.pow_add_r by lia; apply Z.pow_le_mono_r; lia). nia.
Qed.

Lemma layout_reads st neg d : decimal_ok d → reads_number (layout st neg d) neg d.
Proof.
  intros Hd. assert (Hx : Z.abs (dp d - 1) ≤ 6000) by (destruct Hd; lia).
  destruct (exponent_texts _ Hx) as (Ht & Ht' & Hl). destruct (fmtE_shape neg d) as (c & rest & Hds & HE); [apply Hd|].
  assert (HsE : reads_number (fmtE neg d) neg d).
  { destruct (sci_reads neg d _ Hd Ht) as (c' & rest' & Hds' & Hr). rewrite Hds in Hds'. injection Hds' as <- <-.
    by rewrite HE. }
  destruct st as [|[]]; cbn [layout]; [case_match; [done|by apply plain_reads]| |by apply plain_reads].
  rewrite HE, drop_exponent_zero_app by done.
  destruct (sci_reads neg d _ Hd Ht') as (c' & rest' & Hds' & Hr). rewrite Hds in Hds'. by injection Hds' as <- <-.
Qed.

Lemma exact_text_reads st neg m e :
  bounded 53 1024 m e = true →
  ParseFloat (layout st neg (decimal_of (exact_coefficient m e) (exact_exponent e))) = inr (S754_finite neg m e).
Proof.
  intros Hb. destruct (exact_coefficient_bounds m e Hb) as [Hn Hx].
  destruct (decimal_of_spec _ _ Hn Hx) as (k & Hok & Hval & Hdp).
  set (d := decimal_of (exact_coefficient m e) (exact_exponent e)) in *.
  destruct (layout_reads st neg d Hok) as (Hsp & v & x & Hr & Hv). unfold ParseFloat. rewrite Hsp, Hr.
  pose proof (Z.pow_pos_nonneg 10 (Z.of_nat k) ltac:(lia) ltac:(lia)).
  erewrite (number_exact neg (digits_val (ds d)) _ m e v x); [done|nia|done| |exact Hv].
  by eapply exact_same_value.
Qed.

Lemma shortest_reads fuel text_of f n x nd k :
  ParseFloat (text_of n x) = inr f → ParseFloat (shortest fuel text_of f n x nd k) = inr f.
Proof.
  intros Hn. revert k. induction fuel as [|fuel IH]; intros k; [done|]. cbn [shortest]. case_match; [|done].
  destruct (cut text_of f n x nd k) as [s|] eqn:Hc; [|apply IH]. unfold cut in Hc. cbv zeta in Hc.
  assert (Hr : ∀ s, reads_as s f = true → ParseFloat s = inr f).
  { intros s'. unfold reads_as. destruct (ParseFloat s'); [done|]. by intros ->%bool_decide_eq_true. }
  destruct (reads_as _ f) eqn:Ha, (reads_as (text_of (n / 10 ^ (nd - k) + 1) _) f) eqn:Hb; simplify_eq; try (by apply Hr).
  case_match; simplify_eq; by apply Hr.
Qed.

(** What is written of a finite value is read back as that value. *)
Lemma format_float_reads st f : finite64 f = true → ParseFloat (format_float st f) = inr f.
Proof.
  destruct f as [neg|neg| |neg m e]; try done; intros Hf.
  - by destruct st as [|[]], neg.
  - cbn [format_float]. apply shortest_reads. by apply exact_text_reads.
Qed.
