(* ===== verification/Json.v ===== *)
(** * Text: encoding/json as the program uses it

    Objects of numbers, strings and objects; strings escaped with HTML escaping
    on, invalid UTF-8 replaced; the compact form of [Marshal] and the indented
    form of [MarshalIndent] with two spaces; and a reader of the format to
    state what was written. *)
From stdpp Require Import pretty.
From S2P Require Import Prelude GoFloat FloatFacts GoText FormatFloat.

Inductive json :=
| JNum (t : text)
| JStr (t : text)
| JObj (ms : list (text * json)).

Definition chr (z : Z) : Ascii.ascii := byte_of z.
Definition quote : Ascii.ascii := chr 34.
Definition backslash : Ascii.ascii := chr 92.
Definition comma : Ascii.ascii := chr 44.
Definition colon : Ascii.ascii := chr 58.
Definition lbrace : Ascii.ascii := chr 123.
Definition rbrace : Ascii.ascii := chr 125.
Definition newline : Ascii.ascii := chr 10.

(** ** UTF-8 *)

Definition in_range (lo hi : Z) (c : Ascii.ascii) : bool := (lo <=? byte_val c) && (byte_val c <=? hi).
Definition continuation : Ascii.ascii → bool := in_range 128 191.

(** The length of the rune that begins with [c] outside ASCII, followed by
    [s]; 0 when it is not valid. *)
Definition rune_len (c : Ascii.ascii) (s : text) : nat :=
  let b := byte_val c in
  if in_range 194 223 c then
    match s with d :: _ => if continuation d then 2 else 0 | _ => 0 end
  else if in_range 224 239 c then
    match s with
    | d :: e :: _ =>
        if in_range (if b =? 224 then 160 else 128) (if b =? 237 then 159 else 191) d && continuation e then 3 else 0
    | _ => 0
    end
  else if in_range 240 244 c then
    match s with
    | d :: e :: f :: _ =>
        if in_range (if b =? 240 then 144 else 128) (if b =? 244 then 143 else 191) d && continuation e && continuation f
        then 4 else 0
    | _ => 0
    end
  else 0.

(** The bytes of U+FFFD, which replaces what is not valid. *)
Definition replacement : text := chr <$> [239; 191; 189].

(** A string with what is not valid UTF-8 replaced, byte by byte. *)
Fixpoint to_valid (s : text) : text :=
  match s with
  | [] => []
  | c :: s1 =>
      if byte_val c <? 128 then c :: to_valid s1
      else
        match rune_len c s1, s1 with
        | 2%nat, d :: s2 => c :: d :: to_valid s2
        | 3%nat, d :: e :: s3 => c :: d :: e :: to_valid s3
        | 4%nat, d :: e :: f :: s4 => c :: d :: e :: f :: to_valid s4
        | _, _ => replacement ++ to_valid s1
        end
  end.

(** ** Strings *)

Definition hex_digit (z : Z) : Ascii.ascii := if z <? 10 then chr (48 + z) else chr (87 + z).

Definition unicode_escape (z : Z) : text :=
  [backslash; chr 117; hex_digit (z / 4096); hex_digit (z / 256 mod 16); hex_digit (z / 16 mod 16); hex_digit (z mod 16)].

(** The characters of ASCII. *)
Definition escape_ascii (c : Ascii.ascii) : text :=
  let b := byte_val c in
  if (b =? 34) || (b =? 92) then [backslash; c]
  else if b =? 8 then [backslash; chr 98]
  else if b =? 12 then [backslash; chr 102]
  else if b =? 10 then [backslash; chr 110]
  else if b =? 13 then [backslash; chr 114]
  else if b =? 9 then [backslash; chr 116]
  else if (b <? 32) || (b =? 60) || (b =? 62) || (b =? 38) then unicode_escape b
  else [c].

(** The line and paragraph separators, U+2028 and U+2029, are escaped. *)
Definition escape_rune3 (c d e : Ascii.ascii) : text :=
  if (byte_val c =? 226) && (byte_val d =? 128) && ((byte_val e =? 168) || (byte_val e =? 169))
  then unicode_escape (8192 + byte_val e - 128) else [c; d; e].

Fixpoint escape (s : text) : text :=
  match s with
  | [] => []
  | c :: s1 =>
      if byte_val c <? 128 then escape_ascii c ++ escape s1
      else
        match rune_len c s1, s1 with
        | 2%nat, d :: s2 => [c; d] ++ escape s2
        | 3%nat, d :: e :: s3 => escape_rune3 c d e ++ escape s3
        | 4%nat, d :: e :: f :: s4 => [c; d; e; f] ++ escape s4
        | _, _ => unicode_escape 65533 ++ escape s1
        end
  end.

Definition write_string (s : text) : text := quote :: escape s ++ [quote].

(** ** Values

    [nl d] is what goes before a member at depth [d], [sp] what follows a
    colon. *)
Record json_style := { nl : nat → text; sp : text }.

Definition compact : json_style := {| nl _ := []; sp := [] |}.
Definition indented : json_style := {| nl d := newline :: replicate (2 * d) space; sp := [space] |}.

Definition commas (ts : list text) : text :=
  match ts with [] => [] | t :: ts => t ++ (ts ≫= λ t, comma :: t) end.

Fixpoint write_json (st : json_style) (d : nat) (v : json) : text :=
  match v with
  | JNum t => t
  | JStr t => write_string t
  | JObj [] => [lbrace; rbrace]
  | JObj ms =>
      lbrace :: commas ((λ m, nl st (S d) ++ write_string m.1 ++ colon :: sp st ++ write_json st (S d) m.2) <$> ms)
        ++ nl st d ++ [rbrace]
  end.

(** ** A reader *)

Definition is_ws (c : Ascii.ascii) : bool :=
  let b := byte_val c in (b =? 32) || (b =? 9) || (b =? 10) || (b =? 13).

Fixpoint skip_ws (s : text) : text :=
  match s with c :: s' => if is_ws c then skip_ws s' else s | [] => [] end.

Definition hex_val (c : Ascii.ascii) : option Z :=
  if is_digit c then Some (digit c) else if is_hex_letter c then Some (lower c - 87) else None.

(** The UTF-8 form of a code point below 2^16 that is not a surrogate. *)
Definition utf8_of (z : Z) : option text :=
  if z <? 128 then Some [chr z]
  else if z <? 2048 then Some [chr (192 + z / 64); chr (128 + z mod 64)]
  else if (55296 <=? z) && (z <? 57344) then None
  else Some [chr (224 + z / 4096); chr (128 + z / 64 mod 64); chr (128 + z mod 64)].

Definition simple_escape (c : Ascii.ascii) : option Ascii.ascii :=
  let b := byte_val c in
  if (b =? 34) || (b =? 92) || (b =? 47) then Some c
  else if b =? 98 then Some (chr 8)
  else if b =? 102 then Some (chr 12)
  else if b =? 110 then Some (chr 10)
  else if b =? 114 then Some (chr 13)
  else if b =? 116 then Some (chr 9)
  else None.

(** The rest of a string, after [acc] (backwards), up to its quote. *)
Fixpoint read_string (acc s : text) : option (text * text) :=
  match s with
  | [] => None
  | c :: s1 =>
      if byte_val c =? 34 then Some (reverse acc, s1)
      else if byte_val c =? 92 then
        match s1 with
        | u :: s2 =>
            if byte_val u =? 117 then
              match s2 with
              | a :: b :: c :: d :: s6 =>
                  a ← hex_val a; b ← hex_val b; c ← hex_val c; d ← hex_val d;
                  r ← utf8_of (((a * 16 + b) * 16 + c) * 16 + d);
                  read_string (reverse r ++ acc) s6
              | _ => None
              end
            else e ← simple_escape u; read_string (e :: acc) s2
        | [] => None
        end
      else if byte_val c <? 32 then None
      else read_string (c :: acc) s1
  end.

Definition number_char (c : Ascii.ascii) : bool :=
  let b := byte_val c in is_digit c || (b =? 45) || (b =? 43) || (b =? 46) || (lower c =? 101).

Fixpoint span_number (s : text) : text * text :=
  match s with
  | c :: s' => if number_char c then let '(t, r) := span_number s' in (c :: t, r) else ([], s)
  | [] => ([], [])
  end.

(** Past the character [c]. *)
Definition expect (c : Ascii.ascii) (s : text) : option text :=
  match skip_ws s with d :: s' => if decide (d = c) then Some s' else None | [] => None end.

Fixpoint read_value (fuel : nat) (s : text) : option (json * text) :=
  match fuel with
  | O => None
  | S fuel =>
      match expect quote s with
      | Some s1 => '(t, r) ← read_string [] s1; Some (JStr t, r)
      | None =>
          match expect lbrace s with
          | Some s1 =>
              match expect rbrace s1 with
              | Some r => Some (JObj [], r)
              | None => '(ms, r) ← read_members fuel s1; Some (JObj ms, r)
              end
          | None =>
              match span_number (skip_ws s) with
              | ([], _) => None
              | (t, r) => Some (JNum t, r)
              end
          end
      end
  end
with read_members (fuel : nat) (s : text) : option (list (text * json) * text) :=
  match fuel with
  | O => None
  | S fuel =>
      s1 ← expect quote s; '(k, s2) ← read_string [] s1; s3 ← expect colon s2;
      '(v, s4) ← read_value fuel s3;
      match expect comma s4 with
      | Some s5 => '(ms, r) ← read_members fuel s5; Some ((k, v) :: ms, r)
      | None => s5 ← expect rbrace s4; Some ([(k, v)], s5)
      end
  end.

(** A whole text: one value and spaces. *)
Definition read_json (s : text) : option json :=
  '(v, r) ← read_value (S (length s)) s; if decide (skip_ws r = []) then Some v else None.

Definition awkward : text :=
  explode "a<b>&\" ++ [chr 34; chr 1; chr 10; chr 226; chr 128; chr 168; chr 195; chr 169; chr 255].

Example json_string_sample :
  read_string [] (escape awkward ++ [quote]) = Some (to_valid awkward, []) ∧
  to_valid awkward = take 14 awkward ++ replacement.
Proof. split; vm_compute; reflexivity. Qed.

(** ** What is written is read back *)

Lemma read_copy c acc s : 128 ≤ byte_val c → read_string acc (c :: s) = read_string (c :: acc) s.
Proof.
  intros Hc. cbn [read_string]. destruct (Z.eqb_spec (byte_val c) 34); [lia|].
  destruct (Z.eqb_spec (byte_val c) 92); [lia|]. destruct (Z.ltb_spec (byte_val c) 32); [lia|done].
Qed.

Lemma read_escape_ascii c acc s :
  byte_val c < 128 → read_string acc (escape_ascii c ++ s) = read_string (c :: acc) s.
Proof. destruct c as [[] [] [] [] [] [] [] []]; intros Hc; first [reflexivity | exfalso; revert Hc; vm_compute; done]. Qed.

Lemma in_range_spec lo hi c : in_range lo hi c = true ↔ lo ≤ byte_val c ≤ hi.
Proof. unfold in_range. rewrite andb_true_iff, !Z.leb_le. done. Qed.

(** The bytes of a rune outside ASCII are outside ASCII. *)
Lemma rune_len_spec c s :
  128 ≤ byte_val c →
  match rune_len c s, s with
  | 0%nat, _ => True
  | 2%nat, d :: _ => 128 ≤ byte_val d
  | 3%nat, d :: e :: _ => 128 ≤ byte_val d ∧ 128 ≤ byte_val e
  | 4%nat, d :: e :: f :: _ => 128 ≤ byte_val d ∧ 128 ≤ byte_val e ∧ 128 ≤ byte_val f
  | _, _ => False
  end.
Proof.
  intros Hc. unfold rune_len, continuation. destruct s as [|d [|e [|f s]]]; repeat case_match; try done;
    rewrite ?andb_true_iff, ?in_range_spec in *; split_and?; repeat case_match; lia.
Qed.

Lemma byte_of_val c : byte_of (byte_val c) = c.
Proof. unfold byte_of, byte_val. by rewrite N2Z.id, Ascii.ascii_N_embedding. Qed.

Lemma read_escape_rune3 c d e acc s :
  128 ≤ byte_val c → 128 ≤ byte_val d → 128 ≤ byte_val e →
  read_string acc (escape_rune3 c d e ++ s) = read_string (e :: d :: c :: acc) s.
Proof.
  intros Hc Hd He. unfold escape_rune3.
  destruct ((byte_val c =? 226) && (byte_val d =? 128) && ((byte_val e =? 168) || (byte_val e =? 169))) eqn:Hsep.
  - apply andb_prop in Hsep as [[H1 H2]%andb_prop H3]. apply Z.eqb_eq in H1, H2.
    assert (Hchr : ∀ a z, byte_val a = z → a = byte_of z) by (intros a z <-; symmetry; apply byte_of_val).
    apply Hchr in H1 as ->. apply Hchr in H2 as ->.
    apply orb_prop in H3 as [H3|H3]; apply Z.eqb_eq, Hchr in H3 as ->; reflexivity.
  - cbn [app]. by rewrite !read_copy.
Qed.

Lemma read_escape s acc rest :
  read_string acc (escape s ++ quote :: rest) = Some (reverse acc ++ to_valid s, rest).
Proof.
  remember (length s) as n eqn:Hn. revert s Hn acc. induction (lt_wf n) as [n _ IH]. intros s -> acc.
  destruct s as [|c s1]; [by rewrite app_nil_r|]. cbn [escape to_valid].
  destruct (Z.ltb_spec (byte_val c) 128) as [Hc|Hc].
  { rewrite <-(assoc_L (++)), read_escape_ascii by done. rewrite (IH (length s1)) by (cbn; lia || done).
    by rewrite reverse_cons, <-(assoc_L (++)). }
  assert (Hinv : read_string acc ((unicode_escape 65533 ++ escape s1) ++ quote :: rest) =
    Some (reverse acc ++ replacement ++ to_valid s1, rest)).
  { rewrite <-(assoc_L (++)).
    change (read_string acc (unicode_escape 65533 ++ escape s1 ++ quote :: rest))
      with (read_string (reverse replacement ++ acc) (escape s1 ++ quote :: rest)).
    rewrite (IH (length s1)) by (cbn; lia || done). by rewrite reverse_app, reverse_involutive, <-(assoc_L (++)). }
  pose proof (rune_len_spec c s1 Hc) as Hr.
  destruct (rune_len c s1) as [|[|[|[|[|n]]]]]; try done; destruct s1 as [|d [|e [|f s4]]]; try done.
  all: rewrite <-(assoc_L (++)); try (destruct Hr as [Hd He]); try (destruct He as [He Hf]);
    rewrite ?read_escape_rune3 by done; cbn [app]; rewrite ?read_copy by done.
  all: match goal with |- read_string _ (escape ?t ++ _) = _ => rewrite (IH (length t)) by (cbn; lia || done) end.
  all: by rewrite !reverse_cons, <-!(assoc_L (++)).
Qed.

(** Induction over the values in objects. *)
Lemma json_nested_ind (P : json → Prop) :
  (∀ t, P (JNum t)) → (∀ t, P (JStr t)) → (∀ ms, Forall (λ m, P m.2) ms → P (JObj ms)) → ∀ v, P v.
Proof.
  intros Hn Hs Ho. fix IH 1. intros [t|t|ms]; [apply Hn|apply Hs|apply Ho].
  induction ms as [|[k v] ms IHms]; constructor; [apply IH|exact IHms].
Qed.

(** Numbers that are texts of a number's characters. *)
Fixpoint json_ok (v : json) : Prop :=
  match v with
  | JNum t => t ≠ [] ∧ forallb number_char t = true
  | JStr _ => True
  | JObj ms => foldr and True ((λ m, json_ok m.2) <$> ms)
  end.

Fixpoint clean (v : json) : json :=
  match v with
  | JNum t => JNum t
  | JStr t => JStr (to_valid t)
  | JObj ms => JObj ((λ m, (to_valid m.1, clean m.2)) <$> ms)
  end.

Fixpoint jsize (v : json) : nat :=
  match v with
  | JObj ms => S (foldr Nat.add 0 ((λ m, S (jsize m.2)) <$> ms))%nat
  | _ => 1%nat
  end.

Definition all_ws (w : text) : Prop := forallb is_ws w = true.
Definition style_ok (st : json_style) : Prop := (∀ d, all_ws (nl st d)) ∧ all_ws (sp st).

Lemma compact_ok : style_ok compact.
Proof. by split. Qed.

Lemma all_ws_replicate k : all_ws (replicate k space).
Proof. unfold all_ws. induction k as [|k IH]; [done|]. cbn [replicate forallb]. by rewrite IH. Qed.

Lemma indented_ok : style_ok indented.
Proof. split; [|done]. intros d. apply all_ws_replicate. Qed.

Lemma skip_ws_app w s : all_ws w → skip_ws (w ++ s) = skip_ws s.
Proof. unfold all_ws. induction w as [|c w IH]; [done|]. intros [Hc Hw]%andb_prop. cbn [app skip_ws]. rewrite Hc. by apply IH. Qed.

Lemma expect_app c w s : all_ws w → expect c (w ++ s) = expect c s.
Proof. intros Hw. unfold expect. by rewrite skip_ws_app. Qed.

Lemma expect_head c d s : is_ws d = false → expect c (d :: s) = if decide (d = c) then Some s else None.
Proof. intros Hd. unfold expect. cbn [skip_ws]. by rewrite Hd. Qed.

(** What ends a number. *)
Definition stops (s : text) : Prop := match s with c :: _ => number_char c = false | [] => True end.

Lemma stops_ws w s : all_ws w → stops s → stops (w ++ s).
Proof.
  intros Hw Hs. destruct w as [|c w]; [done|]. apply andb_prop in Hw as [Hc _]. cbn.
  revert Hc. by destruct c as [[] [] [] [] [] [] [] []].
Qed.

Lemma span_number_app t s : forallb number_char t = true → stops s → span_number (t ++ s) = (t, s).
Proof.
  induction t as [|c t IH]; cbn [app forallb].
  - intros _ Hs. destruct s as [|c s]; [done|]. cbn in *. by rewrite Hs.
  - intros [Hc Ht]%andb_prop Hs. cbn [span_number]. by rewrite Hc, IH.
Qed.

Lemma number_char_other c : number_char c = true → is_ws c = false ∧ c ≠ quote ∧ c ≠ lbrace.
Proof. destruct c as [[] [] [] [] [] [] [] []]; vm_compute; try done; intros _; by split_and!. Qed.

Section read_back.
Context (st : json_style) (Hst : style_ok st).

(** What [read_value] does on a written value. *)
Definition value_reads (v : json) : Prop :=
  ∀ d w rest fuel, (jsize v ≤ fuel)%nat → all_ws w → stops rest →
    read_value fuel (w ++ write_json st d v ++ rest) = Some (clean v, rest).

Definition member_text (d : nat) (m : text * json) : text :=
  nl st d ++ write_string m.1 ++ colon :: sp st ++ write_json st d m.2.

Lemma commas_cons t ts : ts ≠ [] → commas (t :: ts) = t ++ comma :: commas ts.
Proof. by destruct ts. Qed.

(** The members, after the brace. *)
Lemma members_read ms d w fuel rest :
  ms ≠ [] → Forall (λ m, value_reads m.2) ms → all_ws w →
  (foldr Nat.add 0 ((λ m : text * json, S (jsize m.2)) <$> ms) ≤ fuel)%nat →
  read_members fuel (commas (member_text d <$> ms) ++ w ++ rbrace :: rest) =
    Some ((λ m, (to_valid m.1, clean m.2)) <$> ms, rest).
Proof.
  destruct Hst as [Hnl Hsp]. intros Hne Hms Hw. revert fuel. induction Hms as [|[k v] ms Hv Hms IH]; intros fuel Hf; [done|].
  cbn [fmap list_fmap foldr snd fst] in *. destruct fuel as [|fuel]; [lia|].
  assert (Hread : ∀ s, stops s → read_members (S fuel) (member_text d (k, v) ++ s) =
    match expect comma s with
    | Some s5 => '(ms, r) ← read_members fuel s5; Some ((to_valid k, clean v) :: ms, r)
    | None => s5 ← expect rbrace s; Some ([(to_valid k, clean v)], s5)
    end).
  { intros s Hs. unfold member_text, write_string. cbn [read_members fst snd].
    rewrite <-(assoc_L (++)), expect_app by done. cbn [app].
    rewrite expect_head, decide_True by done. cbn [mbind option_bind].
    rewrite <-!(assoc_L (++)). cbn [app]. rewrite read_escape. cbn [mbind option_bind].
    rewrite expect_head, decide_True by done. cbn [mbind option_bind].
    rewrite <-!(assoc_L (++)). rewrite Hv by (done || lia). done. }
  destruct ms as [|m ms].
  - cbn [commas fmap list_fmap mbind list_bind]. rewrite app_nil_r, Hread by (by apply stops_ws).
    rewrite !(expect_app _ w) by done. by rewrite !expect_head.
  - rewrite commas_cons by done. rewrite <-(assoc_L (++)), Hread by done. cbn [app].
    rewrite expect_head, decide_True by done. rewrite IH by (done || (cbn [fmap list_fmap foldr] in *; lia)). done.
Qed.

Lemma value_read v : json_ok v → value_reads v.
Proof.
  destruct Hst as [Hnl Hsp]. induction v as [t|t|ms IH] using json_nested_ind; intros Hok d w rest fuel Hf Hw Hr;
    (destruct fuel as [|fuel]; [cbn in Hf; lia|]); cbn [read_value].
  - destruct Hok as [Hne Ht]. destruct t as [|c t]; [done|]. pose proof Ht as [Hc _]%andb_prop.
    destruct (number_char_other c Hc) as (Hcw & Hcq & Hcb). rewrite !(expect_app _ w), skip_ws_app by done.
    cbn [write_json app]. rewrite !expect_head, !decide_False by done. cbn [skip_ws]. rewrite Hcw.
    change (c :: t ++ rest) with ((c :: t) ++ rest). by rewrite span_number_app.
  - cbn [write_json]. unfold write_string. rewrite expect_app by done. cbn [app]. rewrite expect_head, decide_True by done.
    rewrite <-(assoc_L (++)). cbn [app]. by rewrite read_escape.
  - rewrite !(expect_app _ w) by done. destruct ms as [|m ms].
    { cbn [write_json app]. rewrite !expect_head by done. by cbn. }
    change (write_json st d (JObj (m :: ms)))
      with (lbrace :: commas (member_text (S d) <$> (m :: ms)) ++ nl st d ++ [rbrace]).
    cbn [app]. rewrite !expect_head by done. rewrite decide_False, decide_True by done.
    assert (Hnb : expect rbrace ((commas (member_text (S d) <$> m :: ms) ++ nl st d ++ [rbrace]) ++ rest) = None).
    { cbn [fmap list_fmap]. unfold commas, member_text at 1, write_string. rewrite <-!(assoc_L (++)), expect_app by done.
      cbn [app]. by rewrite expect_head. }
    rewrite Hnb, <-!(assoc_L (++)). cbn [app]. rewrite members_read; [done|done| |done|cbn [jsize] in Hf; lia].
    clear Hnb Hf. cbn [json_ok] in Hok. induction IH as [|m' ms' Hm _ IHms]; [constructor|].
    cbn [fmap list_fmap foldr] in Hok. constructor; [apply Hm, Hok|apply IHms, Hok].
Qed.

Lemma jsize_le_length v d : json_ok v → (jsize v ≤ length (write_json st d v))%nat.
Proof.
  revert d. induction v as [t|t|ms IH] using json_nested_ind; intros d Hok.
  - cbn. destruct Hok as [Hne _]. destruct t; [done|cbn; lia].
  - cbn. lia.
  - destruct ms as [|m ms]; [cbn; lia|].
    change (write_json st d (JObj (m :: ms)))
      with (lbrace :: commas (member_text (S d) <$> (m :: ms)) ++ nl st d ++ [rbrace]).
    assert (Hall : (foldr Nat.add 0 ((λ m : text * json, S (jsize m.2)) <$> (m :: ms)) ≤
      length (commas (member_text (S d) <$> (m :: ms))))%nat).
    { cbn [json_ok] in Hok. generalize dependent (m :: ms). clear m ms. intros ms IH Hok.
      induction IH as [|m ms Hm _ IHms]; [cbn; lia|]. cbn [fmap list_fmap foldr] in *. destruct Hok as [Hok1 Hok2].
      specialize (IHms Hok2). specialize (Hm (S d) Hok1).
      assert (Hmt : (S (jsize m.2) ≤ length (member_text (S d) m))%nat).
      { unfold member_text. rewrite !length_app. cbn [length]. rewrite length_app. lia. }
      destruct ms as [|m' ms]; [cbn [commas fmap list_fmap foldr mbind list_bind]; rewrite app_nil_r; lia|].
      rewrite commas_cons by done. rewrite length_app. cbn [length]. cbn [fmap list_fmap foldr] in *. lia. }
    cbn [jsize length]. rewrite length_app. lia.
Qed.

(** A value written, with spaces after it, reads back as the value with its
    strings made valid UTF-8. *)
Lemma read_json_write v w :
  json_ok v → all_ws w → read_json (write_json st 0 v ++ w) = Some (clean v).
Proof.
  intros Hok Hw. unfold read_json.
  assert (Hs : stops w). { rewrite <-(app_nil_r w). by apply stops_ws. }
  pose proof (jsize_le_length v 0 Hok) as Hl.
  pose proof (value_read v Hok 0%nat [] w (S (length (write_json st 0 v ++ w)))) as Hr. cbn [app] in Hr.
  rewrite Hr by (done || (rewrite length_app; lia)). cbn [mbind option_bind].
  rewrite decide_True; [done|]. by rewrite <-(app_nil_r w), skip_ws_app.
Qed.
End read_back.

(** ** The numbers of the program *)

Definition jint (z : Z) : json := JNum (explode (pretty z)).
Definition jfloat (f : float64) : json := JNum (json_float f).
Definition jstring (s : string) : json := JStr (explode s).

Definition numeric (t : text) : Prop := forallb number_char t = true.

Lemma numeric_app s t : numeric s → numeric t → numeric (s ++ t).
Proof. unfold numeric. rewrite forallb_app. by intros -> ->. Qed.

Lemma numeric_app_inv s t : numeric (s ++ t) → numeric s ∧ numeric t.
Proof. unfold numeric. rewrite forallb_app. apply andb_prop. Qed.

Lemma numeric_cons c t : number_char c = true → numeric t → numeric (c :: t).
Proof. unfold numeric. cbn. by intros -> ->. Qed.

Lemma numeric_digits t : forallb is_digit t = true → numeric t.
Proof.
  unfold numeric. rewrite !forallb_forall. intros Ht c Hc. unfold number_char. by rewrite (Ht c Hc).
Qed.

Lemma numeric_pretty (z : Z) : numeric (explode (pretty z)).
Proof.
  destruct (explode_pretty_Z z) as (t & -> & [_ Ht] & _). case_match; [apply numeric_cons; [done|]|]; by apply numeric_digits.
Qed.

Lemma numeric_reverse t : numeric t → numeric (reverse t).
Proof.
  unfold numeric. rewrite !forallb_forall. intros Ht c Hc. apply Ht. apply list_elem_of_In, elem_of_reverse, list_elem_of_In, Hc.
Qed.

Lemma numeric_zeros k : numeric (replicate k zero_digit).
Proof. apply numeric_digits, all_digits_zeros. Qed.

#[local] Hint Resolve numeric_app numeric_cons numeric_pretty numeric_reverse numeric_zeros : core.

Lemma numeric_decimal c x : numeric (ds (decimal_of c x)).
Proof.
  destruct (trim_zeros_spec (explode (pretty c))) as [k Hk]. apply (numeric_app_inv _ (replicate k zero_digit)).
  unfold decimal_of. cbn [ds]. rewrite <-Hk. auto.
Qed.

Lemma numeric_exponent x : numeric (exponent_text x).
Proof.
  unfold exponent_text. apply numeric_app; [|apply numeric_app; [by case_match|apply numeric_pretty]].
  apply numeric_cons; [done|]. apply numeric_cons; [by case_match|done].
Qed.

Lemma numeric_sign neg : numeric (sign_text neg).
Proof. by destruct neg. Qed.

Lemma numeric_fmtE neg d : numeric (ds d) → numeric (fmtE neg d).
Proof.
  intros Hd. unfold fmtE. apply numeric_app; [apply numeric_sign|]. pose proof numeric_exponent.
  destruct (ds d) as [|c [|c' s]]; [auto..|].
  apply (numeric_app_inv [c]) in Hd as [Hc Hs]. apply numeric_app; [|auto].
  apply (numeric_app [c]); [done|done].
Qed.

Lemma numeric_fmtF neg d : numeric (ds d) → numeric (fmtF neg d).
Proof.
  intros Hd. unfold fmtF. rewrite <-(take_drop (Z.to_nat (dp d)) (ds d)) in Hd. apply numeric_app_inv in Hd as [Ht Hr].
  apply numeric_app; [apply numeric_sign|]. apply numeric_app; case_match; auto; try done.
Qed.

Lemma numeric_drop_exponent_zero t : numeric t → numeric (drop_exponent_zero t).
Proof.
  intros Ht. unfold drop_exponent_zero. apply numeric_reverse in Ht as Hr.
  destruct (reverse t) as [|d [|z [|sg [|e rest]]]]; try done. repeat case_decide; try done.
  apply (numeric_app_inv [d; z; sg; e]) in Hr as [Hh Hrest]. unfold numeric in Hh. cbn in Hh.
  rewrite !andb_true_iff in Hh. destruct_and! Hh. auto 10.
Qed.

Lemma numeric_layout st neg d : numeric (ds d) → numeric (layout st neg d).
Proof.
  intros Hd. destruct st as [|[]]; cbn [layout]; [case_match| |]; auto using numeric_fmtE, numeric_fmtF, numeric_drop_exponent_zero.
Qed.

Lemma numeric_shortest fuel text_of f n x nd k :
  (∀ c x, numeric (text_of c x)) → numeric (shortest fuel text_of f n x nd k).
Proof.
  intros Ht. revert k. induction fuel as [|fuel IH]; intros k; cbn [shortest]; [auto|]. case_match; [|auto].
  unfold cut. cbv zeta. repeat case_match; simplify_eq; auto.
Qed.

Lemma numeric_format_float st f : finite64 f = true → numeric (format_float st f).
Proof.
  intros Hf. unfold format_float. destruct f as [neg|neg| |neg m e]; try done; [by apply numeric_layout|].
  apply numeric_shortest. intros c x. apply numeric_layout, numeric_decimal.
Qed.

Lemma json_float_ok f : finite64 f = true → json_ok (jfloat f).
Proof.
  intros Hf. split.
  - pose proof (format_float_reads (StyleJSON (json_sci f)) f Hf) as Hr. unfold json_float. by intros He; rewrite He in Hr.
  - by apply numeric_format_float.
Qed.

Lemma jint_ok z : json_ok (jint z).
Proof.
  split; [|apply numeric_pretty]. destruct (explode_pretty_Z z) as (t & -> & [Hne _] & _). by case_match.
Qed.

Lemma to_valid_ascii s : forallb (λ c, byte_val c <? 128) s = true → to_valid s = s.
Proof. induction s as [|c s IH]; [done|]. cbn. intros [-> Hs]%andb_prop. by rewrite IH. Qed.

(** ** The compact form is one line *)

Definition one_line (t : text) : Prop := forallb (λ c, negb (byte_val c =? 10)) t = true.

Lemma one_line_app s t : one_line s → one_line t → one_line (s ++ t).
Proof. unfold one_line. rewrite forallb_app. by intros -> ->. Qed.

Lemma one_line_cons c t : byte_val c ≠ 10 → one_line t → one_line (c :: t).
Proof. unfold one_line. cbn. intros Hc ->. by destruct (Z.eqb_spec (byte_val c) 10). Qed.

Lemma one_line_escape s : one_line (escape s).
Proof.
  remember (length s) as n eqn:Hn. revert s Hn. induction (lt_wf n) as [n _ IH]. intros s ->.
  destruct s as [|c s1]; [done|]. cbn [escape].
  assert (IH' : ∀ t, (length t ≤ length s1)%nat → one_line (escape t)) by (intros t Ht; apply (IH (length t)); cbn; lia || done).
  destruct (Z.ltb_spec (byte_val c) 128) as [Hc|Hc].
  { apply one_line_app; [|by apply IH']. destruct c as [[] [] [] [] [] [] [] []]; vm_compute; done. }
  pose proof (rune_len_spec c s1 Hc) as Hr.
  assert (Hinv : one_line (unicode_escape 65533 ++ escape s1)) by (apply one_line_app; [done|by apply IH']).
  destruct (rune_len c s1) as [|[|[|[|[|k]]]]]; try done; destruct s1 as [|d [|e [|f s4]]]; try done;
    apply one_line_app; try (apply IH'; cbn; lia); try (repeat apply one_line_cons; done || lia).
  all: unfold escape_rune3; case_match eqn:Hsep; [|repeat apply one_line_cons; done || lia].
  all: apply andb_prop in Hsep as [_ [He|He]%orb_prop]; apply Z.eqb_eq in He; by rewrite He.
Qed.

Lemma one_line_numeric t : numeric t → one_line t.
Proof.
  unfold numeric, one_line. rewrite !forallb_forall. intros Ht c Hc. specialize (Ht c Hc). revert Ht.
  destruct c as [[] [] [] [] [] [] [] []]; vm_compute; done.
Qed.

Lemma one_line_string s : one_line (write_string s).
Proof. unfold write_string. apply one_line_cons; [done|]. apply one_line_app; [apply one_line_escape|done]. Qed.

Lemma compact_one_line v d : json_ok v → one_line (write_json compact d v).
Proof.
  revert d. induction v as [t|t|ms IH] using json_nested_ind; intros d Hok.
  - by apply one_line_numeric, Hok.
  - apply one_line_string.
  - destruct ms as [|m ms]; [done|].
    change (write_json compact d (JObj (m :: ms)))
      with (lbrace :: commas (member_text compact (S d) <$> (m :: ms)) ++ [rbrace]).
    apply one_line_cons; [done|]. apply one_line_app; [|done].
    cbn [json_ok] in Hok. generalize dependent (m :: ms). clear m ms. intros ms IH Hok.
    induction IH as [|m ms Hm _ IHms]; [done|]. cbn [fmap list_fmap foldr] in *. destruct Hok as [Hok1 Hok2].
    assert (Hmt : one_line (member_text compact (S d) m)).
    { unfold member_text. apply (one_line_app []); [done|]. apply one_line_app; [apply one_line_string|].
      apply one_line_cons; [done|]. by apply Hm. }
    destruct ms as [|m' ms]; [cbn; by rewrite app_nil_r|]. rewrite commas_cons by done.
    apply one_line_app; [done|]. apply one_line_cons; [done|]. by apply IHms.
Qed.
