(* ===== verification/Quote.v ===== *)
(** * Text: strconv.Quote, which the verb %q writes

    A string between double quotes, with what is not printable and what is not
    valid UTF-8 escaped.  Which runes above U+00FF are printable is in the
    tables of the Go library, an argument here.  The reader of the format
    states what was written: it is all bytes of the string. *)
From S2P Require Import Prelude GoFloat GoText Json.

(** ** Runes *)

Definition code2 (c d : Ascii.ascii) : Z := (byte_val c - 192) * 64 + (byte_val d - 128).
Definition code3 (c d e : Ascii.ascii) : Z :=
  (byte_val c - 224) * 4096 + (byte_val d - 128) * 64 + (byte_val e - 128).
Definition code4 (c d e f : Ascii.ascii) : Z :=
  (byte_val c - 240) * 262144 + (byte_val d - 128) * 4096 + (byte_val e - 128) * 64 + (byte_val f - 128).

(** The UTF-8 form of a code point. *)
Definition utf8_encode (z : Z) : option text :=
  if z <? 65536 then utf8_of z
  else Some [chr (240 + z / 262144); chr (128 + z / 4096 mod 64); chr (128 + z / 64 mod 64); chr (128 + z mod 64)].

Fixpoint hex_digits (n : nat) (z : Z) : text :=
  match n with O => [] | S n => hex_digit (z / 16 ^ Z.of_nat n mod 16) :: hex_digits n z end.

Section quote.
Context (is_print : Z → bool).

(** [strconv.IsPrint] *)
Definition IsPrint (r : Z) : bool :=
  if r <=? 255 then ((32 <=? r) && (r <? 127)) || ((161 <=? r) && negb (r =? 173)) else is_print r.

(** [appendEscapedRune]: [raw] is the UTF-8 form of [r]. *)
Definition escaped_rune (r : Z) (raw : text) : text :=
  if (r =? 34) || (r =? 92) then [backslash; chr r]
  else if IsPrint r then raw
  else if r =? 7 then [backslash; chr 97]
  else if r =? 8 then [backslash; chr 98]
  else if r =? 12 then [backslash; chr 102]
  else if r =? 10 then [backslash; chr 110]
  else if r =? 13 then [backslash; chr 114]
  else if r =? 9 then [backslash; chr 116]
  else if r =? 11 then [backslash; chr 118]
  else if (r <? 32) || (r =? 127) then backslash :: chr 120 :: hex_digits 2 r
  else if r <? 65536 then backslash :: chr 117 :: hex_digits 4 r
  else backslash :: chr 85 :: hex_digits 8 r.

Fixpoint quote_body (s : text) : text :=
  match s with
  | [] => []
  | c :: s1 =>
      if byte_val c <? 128 then escaped_rune (byte_val c) [c] ++ quote_body s1
      else
        match rune_len c s1, s1 with
        | 2%nat, d :: s2 => escaped_rune (code2 c d) [c; d] ++ quote_body s2
        | 3%nat, d :: e :: s3 => escaped_rune (code3 c d e) [c; d; e] ++ quote_body s3
        | 4%nat, d :: e :: f :: s4 => escaped_rune (code4 c d e f) [c; d; e; f] ++ quote_body s4
        | _, _ => backslash :: chr 120 :: hex_digits 2 (byte_val c) ++ quote_body s1
        end
  end.

Definition Quote (s : string) : text := quote :: quote_body (explode s) ++ [quote].
End quote.

(** ** The reader *)

Definition hex_step (z : option Z) (c : Ascii.ascii) : option Z := z ← z; h ← hex_val c; Some (16 * z + h).
Definition hex_vals (s : text) : option Z := foldl hex_step (Some 0) s.

Definition simple_quote (k : Ascii.ascii) : option Ascii.ascii :=
  let b := byte_val k in
  if (b =? 34) || (b =? 92) then Some k
  else if b =? 97 then Some (chr 7)
  else if b =? 98 then Some (chr 8)
  else if b =? 102 then Some (chr 12)
  else if b =? 110 then Some (chr 10)
  else if b =? 114 then Some (chr 13)
  else if b =? 116 then Some (chr 9)
  else if b =? 118 then Some (chr 11)
  else None.

(** [r] after the bytes [t]. *)
Definition after (t : option text) (r : option (text * text)) : option (text * text) :=
  t ← t; '(s, rest) ← r; Some (t ++ s, rest).

Definition byte_text (z : option Z) : option text := z ← z; Some [chr z].
Definition rune_text (z : option Z) : option text := z ← z; utf8_encode z.

(** The contents up to the closing quote, and what follows it. *)
Fixpoint read_body (s : text) : option (text * text) :=
  match s with
  | [] => None
  | c :: s1 =>
      if byte_val c =? 34 then Some ([], s1)
      else if byte_val c =? 92 then
        match s1 with
        | [] => None
        | k :: s2 =>
            match simple_quote k with
            | Some b => after (Some [b]) (read_body s2)
            | None =>
                if byte_val k =? 120 then
                  match s2 with
                  | h1 :: h2 :: s3 => after (byte_text (hex_vals [h1; h2])) (read_body s3)
                  | _ => None
                  end
                else if byte_val k =? 117 then
                  match s2 with
                  | h1 :: h2 :: h3 :: h4 :: s3 => after (rune_text (hex_vals [h1; h2; h3; h4])) (read_body s3)
                  | _ => None
                  end
                else if byte_val k =? 85 then
                  match s2 with
                  | h1 :: h2 :: h3 :: h4 :: h5 :: h6 :: h7 :: h8 :: s3 =>
                      after (rune_text (hex_vals [h1; h2; h3; h4; h5; h6; h7; h8])) (read_body s3)
                  | _ => None
                  end
                else None
            end
        end
      else after (Some [c]) (read_body s1)
  end.

Definition read_quoted (s : text) : option (string * text) :=
  s ← strip_prefix [quote] s; '(t, rest) ← read_body s; Some (implode t, rest).

(** ** What is quoted is read back *)

Lemma chr_val c z : z = byte_val c → chr z = c.
Proof. intros ->. apply byte_of_val. Qed.

Lemma hex_val_digit d : 0 ≤ d < 16 → hex_val (hex_digit d) = Some d.
Proof.
  intros Hd. assert (Hall : ∀ n : nat, (n < 16)%nat → hex_val (hex_digit (Z.of_nat n)) = Some (Z.of_nat n)).
  { intros n Hn. do 16 (destruct n as [|n]; [reflexivity|]). lia. }
  specialize (Hall (Z.to_nat d)). rewrite Z2Nat.id in Hall by lia. apply Hall. lia.
Qed.

Lemma hex_digits_read n z a :
  foldl hex_step (Some a) (hex_digits n z) = Some (a * 16 ^ Z.of_nat n + z mod 16 ^ Z.of_nat n).
Proof.
  revert a. induction n as [|n IH]; intros a; cbn [hex_digits foldl].
  - rewrite Z.mod_1_r. f_equal. cbn. lia.
  - unfold hex_step at 2. cbn [mbind option_bind]. rewrite hex_val_digit by (apply Z.mod_pos_bound; lia).
    cbn [mbind option_bind]. rewrite IH. f_equal. rewrite Nat2Z.inj_succ, Z.pow_succ_r by lia.
    rewrite (Z.mul_comm 16 (16 ^ _)), Z.rem_mul_r by lia. lia.
Qed.

Lemma hex_vals_digits n z : 0 ≤ z < 16 ^ Z.of_nat n → hex_vals (hex_digits n z) = Some z.
Proof. intros Hz. unfold hex_vals. rewrite hex_digits_read, Z.mod_small by done. f_equal. Qed.

(** The UTF-8 form of a rune of length [n] in front of a text. *)
Lemma rune_len_encode c s :
  128 ≤ byte_val c →
  match rune_len c s, s with
  | 2%nat, d :: _ => 128 ≤ code2 c d < 2048 ∧ utf8_encode (code2 c d) = Some [c; d]
  | 3%nat, d :: e :: _ => 2048 ≤ code3 c d e < 65536 ∧ utf8_encode (code3 c d e) = Some [c; d; e]
  | 4%nat, d :: e :: f :: _ => 65536 ≤ code4 c d e f < 1114112 ∧ utf8_encode (code4 c d e f) = Some [c; d; e; f]
  | _, _ => True
  end.
Proof.
  intros Hc. unfold rune_len, continuation. destruct (in_range 194 223 c) eqn:E2;
    [|destruct (in_range 224 239 c) eqn:E3; [|destruct (in_range 240 244 c) eqn:E4; [|by destruct s]]].
  - apply in_range_spec in E2. destruct s as [|d s]; [done|].
    destruct (in_range 128 191 d) eqn:Ed; [|done]. apply in_range_spec in Ed. unfold code2, utf8_encode, utf8_of.
    set (z := (byte_val c - 192) * 64 + (byte_val d - 128)). assert (128 ≤ z < 2048) by (subst z; lia). split; [done|].
    rewrite (proj2 (Z.ltb_lt z 65536)), (proj2 (Z.ltb_ge z 128)), (proj2 (Z.ltb_lt z 2048)) by lia.
    f_equal; f_equal; [|f_equal]; apply chr_val; subst z; Z.to_euclidean_division_equations; lia.
  - apply in_range_spec in E3. destruct s as [|d [|e s]]; [done..|].
    destruct (in_range _ _ d && in_range 128 191 e) eqn:Ed; [|done]. apply andb_prop in Ed as [Ed Ee].
    apply in_range_spec in Ed, Ee. unfold code3, utf8_encode, utf8_of.
    set (z := (byte_val c - 224) * 4096 + (byte_val d - 128) * 64 + (byte_val e - 128)).
    assert (Hz : 2048 ≤ z < 65536 ∧ ¬ (55296 ≤ z < 57344)).
    { subst z. destruct (Z.eqb_spec (byte_val c) 224), (Z.eqb_spec (byte_val c) 237); lia. }
    assert (Hd : 128 ≤ byte_val d ≤ 191) by (repeat case_match; lia). destruct Hz as [Hz Hs]. split; [done|].
    rewrite (proj2 (Z.ltb_lt z 65536)), (proj2 (Z.ltb_ge z 128)), (proj2 (Z.ltb_ge z 2048)) by lia.
    destruct (Z.leb_spec 55296 z), (Z.ltb_spec z 57344); cbn [andb]; try lia;
      (f_equal; f_equal; [|f_equal; [|f_equal]]; apply chr_val; subst z; Z.to_euclidean_division_equations; lia).
  - apply in_range_spec in E4. destruct s as [|d [|e [|f s]]]; [done..|].
    destruct (in_range _ _ d && in_range 128 191 e && in_range 128 191 f) eqn:Ed; [|done].
    apply andb_prop in Ed as [[Ed Ee]%andb_prop Ef]. apply in_range_spec in Ed, Ee, Ef. unfold code4, utf8_encode.
    set (z := (byte_val c - 240) * 262144 + (byte_val d - 128) * 4096 + (byte_val e - 128) * 64 + (byte_val f - 128)).
    assert (Hz : 65536 ≤ z < 1114112).
    { subst z. destruct (Z.eqb_spec (byte_val c) 240), (Z.eqb_spec (byte_val c) 244); lia. }
    assert (Hd : 128 ≤ byte_val d ≤ 191) by (repeat case_match; lia). split; [done|].
    rewrite (proj2 (Z.ltb_ge z 65536)) by lia.
    f_equal; f_equal; [|f_equal; [|f_equal; [|f_equal]]]; apply chr_val; subst z; Z.to_euclidean_division_equations; lia.
Qed.

Lemma after_after t u r : after (Some t) (after (Some u) r) = after (Some (t ++ u)) r.
Proof. destruct r as [[s rest]|]; cbn; [by rewrite (assoc_L (++))|done]. Qed.

Lemma read_body_byte c s : 128 ≤ byte_val c → read_body (c :: s) = after (Some [c]) (read_body s).
Proof.
  intros Hc. cbn [read_body]. destruct (Z.eqb_spec (byte_val c) 34); [lia|]. by destruct (Z.eqb_spec (byte_val c) 92); [lia|].
Qed.

Lemma read_body_x z s : 0 ≤ z < 256 → read_body (backslash :: chr 120 :: hex_digits 2 z ++ s) = after (Some [chr z]) (read_body s).
Proof.
  intros Hz. pose proof (hex_vals_digits 2 z Hz) as Hh. cbn [hex_digits app] in *.
  remember (hex_digit (z / 16 ^ Z.of_nat 1 mod 16)) as h1. remember (hex_digit (z / 16 ^ Z.of_nat 0 mod 16)) as h2.
  change (read_body (backslash :: chr 120 :: h1 :: h2 :: s)) with (after (byte_text (hex_vals [h1; h2])) (read_body s)).
  by rewrite Hh.
Qed.

Lemma read_body_u z s : 0 ≤ z < 65536 → read_body (backslash :: chr 117 :: hex_digits 4 z ++ s) = after (utf8_encode z) (read_body s).
Proof.
  intros Hz. pose proof (hex_vals_digits 4 z Hz) as Hh. cbn [hex_digits app] in *.
  match goal with |- read_body (backslash :: chr 117 :: ?h1 :: ?h2 :: ?h3 :: ?h4 :: s) = _ =>
    change (after (rune_text (hex_vals [h1; h2; h3; h4])) (read_body s) = after (utf8_encode z) (read_body s)) end.
  by rewrite Hh.
Qed.

Lemma read_body_U z s : 0 ≤ z < 2 ^ 32 → read_body (backslash :: chr 85 :: hex_digits 8 z ++ s) = after (utf8_encode z) (read_body s).
Proof.
  intros Hz. pose proof (hex_vals_digits 8 z Hz) as Hh. cbn [hex_digits app] in *.
  match goal with |- read_body (backslash :: chr 85 :: ?h1 :: ?h2 :: ?h3 :: ?h4 :: ?h5 :: ?h6 :: ?h7 :: ?h8 :: s) = _ =>
    change (after (rune_text (hex_vals [h1; h2; h3; h4; h5; h6; h7; h8])) (read_body s) = after (utf8_encode z) (read_body s)) end.
  by rewrite Hh.
Qed.

Section reads.
Context (is_print : Z → bool).

Lemma read_escaped_ascii c s :
  byte_val c < 128 → read_body (escaped_rune is_print (byte_val c) [c] ++ s) = after (Some [c]) (read_body s).
Proof. destruct c as [[] [] [] [] [] [] [] []]; intros Hc; first [reflexivity | exfalso; revert Hc; vm_compute; done]. Qed.

Lemma read_bytes raw s :
  Forall (λ c, 128 ≤ byte_val c) raw → read_body (raw ++ s) = after (Some raw) (read_body s).
Proof.
  induction 1 as [|c raw Hc _ IH]; cbn [app].
  - by destruct (read_body s) as [[]|].
  - by rewrite read_body_byte, IH, after_after.
Qed.

Lemma read_escaped_rune r raw s :
  128 ≤ r < 1114112 → utf8_encode r = Some raw → Forall (λ c, 128 ≤ byte_val c) raw →
  read_body (escaped_rune is_print r raw ++ s) = after (Some raw) (read_body s).
Proof.
  intros Hr Henc Hraw. unfold escaped_rune.
  assert (Heq : ∀ k, k < 128 → (r =? k) = false) by (intros k Hk; apply Z.eqb_neq; lia).
  rewrite !Heq, (proj2 (Z.ltb_ge r 32)) by lia. cbn [orb].
  destruct (IsPrint is_print r); [by apply read_bytes|]. destruct (Z.ltb_spec r 65536).
  - cbn [app]. rewrite read_body_u by lia. by rewrite Henc.
  - cbn [app]. rewrite read_body_U by lia. by rewrite Henc.
Qed.

Lemma read_quote_body s rest :
  read_body (quote_body is_print s ++ quote :: rest) = Some (s, rest).
Proof.
  remember (length s) as n eqn:Hn. revert s Hn. induction (lt_wf n) as [n _ IH]. intros s ->.
  destruct s as [|c s1]; [done|]. cbn [quote_body].
  destruct (Z.ltb_spec (byte_val c) 128) as [Hc|Hc].
  { rewrite <-(assoc_L (++)), read_escaped_ascii, (IH (length s1)) by (cbn; lia || done). done. }
  assert (Hbad : read_body ((backslash :: chr 120 :: hex_digits 2 (byte_val c) ++ quote_body is_print s1) ++ quote :: rest) =
    Some (c :: s1, rest)).
  { rewrite <-!app_comm_cons, <-(assoc_L (++)), read_body_x, (IH (length s1)) by (cbn; lia || done || apply byte_val_range).
    cbn. by rewrite (chr_val c). }
  pose proof (rune_len_spec c s1 Hc) as Hr. pose proof (rune_len_encode c s1 Hc) as He.
  destruct (rune_len c s1) as [|[|[|[|[|n]]]]]; try done; destruct s1 as [|d [|e [|f s4]]]; try done;
    destruct_and?; rewrite <-(assoc_L (++)), read_escaped_rune by (lia || done || by repeat constructor).
  all: match goal with |- after _ (read_body (quote_body _ ?t ++ _)) = _ => by rewrite (IH (length t)) by (cbn; lia || done) end.
Qed.

(** Quoting loses no byte: the string is read back, with what follows it. *)
Lemma Quote_reads_back s rest : read_quoted (Quote is_print s ++ rest) = Some (s, rest).
Proof.
  unfold read_quoted, Quote. rewrite <-app_comm_cons. cbn [strip_prefix]. rewrite decide_True by done.
  rewrite <-(assoc_L (++)). cbn [app mbind option_bind]. rewrite read_quote_body. cbn. by rewrite implode_explode.
Qed.

(** A quoted string is in one line. *)
Lemma one_line_hex n z : one_line (hex_digits n z).
Proof.
  induction n as [|n IH]; [done|]. apply one_line_cons; [|done].
  assert (Hd : 0 ≤ z / 16 ^ Z.of_nat n mod 16 < 16) by (apply Z.mod_pos_bound; lia).
  remember (z / 16 ^ Z.of_nat n mod 16) as d. intros Hb. pose proof (hex_val_digit d Hd) as Hh.
  rewrite <-(byte_of_val (hex_digit d)), Hb in Hh. done.
Qed.

Lemma one_line_bytes raw : Forall (λ c, 128 ≤ byte_val c) raw → one_line raw.
Proof. induction 1; [done|]. apply one_line_cons; [lia|done]. Qed.

Lemma one_line_escaped r raw :
  128 ≤ r → Forall (λ c, 128 ≤ byte_val c) raw → one_line (escaped_rune is_print r raw).
Proof.
  intros Hr Hraw. unfold escaped_rune.
  assert (Heq : ∀ k, k < 128 → (r =? k) = false) by (intros k Hk; apply Z.eqb_neq; lia).
  rewrite !Heq, (proj2 (Z.ltb_ge r 32)) by lia. cbn [orb].
  destruct (IsPrint is_print r); [by apply one_line_bytes|].
  case_match; apply one_line_cons, one_line_cons, one_line_hex; done.
Qed.

Lemma one_line_escaped_ascii c : byte_val c < 128 → one_line (escaped_rune is_print (byte_val c) [c]).
Proof. destruct c as [[] [] [] [] [] [] [] []]; intros Hc; first [reflexivity | exfalso; revert Hc; vm_compute; done]. Qed.

Lemma one_line_quote_body s : one_line (quote_body is_print s).
Proof.
  remember (length s) as n eqn:Hn. revert s Hn. induction (lt_wf n) as [n _ IH]. intros s ->.
  destruct s as [|c s1]; [done|]. cbn [quote_body].
  destruct (Z.ltb_spec (byte_val c) 128) as [Hc|Hc].
  { apply one_line_app; [by apply one_line_escaped_ascii|]. by apply (IH (length s1)); [cbn; lia|]. }
  assert (Hbad : one_line (backslash :: chr 120 :: hex_digits 2 (byte_val c) ++ quote_body is_print s1)).
  { apply one_line_cons, one_line_cons, one_line_app; [done..|apply one_line_hex|]. by apply (IH (length s1)); [cbn; lia|]. }
  pose proof (rune_len_spec c s1 Hc) as Hr. pose proof (rune_len_encode c s1 Hc) as He.
  destruct (rune_len c s1) as [|[|[|[|[|n]]]]]; try done; destruct s1 as [|d [|e [|f s4]]]; try done;
    destruct_and?; (apply one_line_app; [apply one_line_escaped; [lia|by repeat constructor]|]);
    match goal with |- one_line (quote_body _ ?t) => by apply (IH (length t)); [cbn; lia|] end.
Qed.

Lemma one_line_Quote s : one_line (Quote is_print s).
Proof. apply one_line_cons, one_line_app; [done|apply one_line_quote_body|done]. Qed.
End reads.
