(* ===== verification/Time.v ===== *)
(** * Text: a time as RFC 3339, the JSON form of time.Time

    A time is a number of nanoseconds since 1970, in a zone so many seconds
    east of UTC.  The date is that of the proleptic Gregorian calendar; the text
    has the nanoseconds without trailing zeros, and reads back exactly. *)
From stdpp Require Import pretty.
From S2P Require Import Prelude GoText.

(** ** The calendar

    Days are counted from the first of January of year 1, which begins a cycle
    of 400 years. *)
Definition daysPer400Years : Z := 146097.
Definition daysPer100Years : Z := 36524.
Definition daysPer4Years : Z := 1461.

(** The last year of a cycle of 100 years and of 4 years takes the days that
    are left over. *)
Definition year_in_cycle (d : Z) : Z * Z :=
  let n100 := Z.min 3 (d / daysPer100Years) in
  let d := d - n100 * daysPer100Years in
  let n4 := d / daysPer4Years in
  let d := d - n4 * daysPer4Years in
  let n1 := Z.min 3 (d / 365) in
  (100 * n100 + 4 * n4 + n1, d - n1 * 365).

(** The year and the day in it, from 0. *)
Definition year_of_days (d : Z) : Z * Z :=
  let '(y, yday) := year_in_cycle (d mod daysPer400Years) in
  (1 + 400 * (d / daysPer400Years) + y, yday).

Definition isLeap (year : Z) : bool :=
  (year mod 4 =? 0) && (negb (year mod 100 =? 0) || (year mod 400 =? 0)).

Definition month_lengths (leap : bool) : list Z :=
  [31; if leap then 29 else 28; 31; 30; 31; 30; 31; 31; 30; 31; 30; 31].

(** The month from [m] and the day of it from 1. *)
Fixpoint month_of (m yday : Z) (lengths : list Z) : Z * Z :=
  match lengths with
  | [] => (m, yday + 1)
  | n :: lengths => if yday <? n then (m, yday + 1) else month_of (m + 1) (yday - n) lengths
  end.

Definition date_of_days (d : Z) : Z * Z * Z :=
  let '(y, yday) := year_of_days d in
  let '(m, day) := month_of 1 yday (month_lengths (isLeap y)) in
  (y, m, day).

(** The days before a year, and the days of a date. *)
Definition days_before_year (y : Z) : Z := 365 * (y - 1) + (y - 1) / 4 - (y - 1) / 100 + (y - 1) / 400.

Definition days_of_date (y m d : Z) : Z :=
  days_before_year y + foldr Z.add 0 (take (Z.to_nat (m - 1)) (month_lengths (isLeap y))) + d - 1.

(** From the first of January of year 1 to that of 1970. *)
Definition unixDays : Z := 719162.

(** ** A date is the day it came from *)

Lemma year_in_cycle_spec d :
  0 ≤ d < daysPer400Years →
  ∃ a b c yday, year_in_cycle d = (100 * a + 4 * b + c, yday) ∧
    0 ≤ a ≤ 3 ∧ 0 ≤ b ≤ 24 ∧ 0 ≤ c ≤ 3 ∧ d = 36524 * a + 1461 * b + 365 * c + yday ∧
    0 ≤ yday < (if decide (c = 3 ∧ (b ≠ 24 ∨ a = 3)) then 366 else 365).
Proof.
  unfold daysPer400Years, year_in_cycle, daysPer100Years, daysPer4Years. intros Hd. cbv zeta.
  set (a := Z.min 3 (d / 36524)). set (d1 := d - a * 36524).
  set (b := d1 / 1461). set (d2 := d1 - b * 1461). set (c := Z.min 3 (d2 / 365)).
  assert (Ha : 0 ≤ a ≤ 3 ∧ 0 ≤ d1 ≤ 36524 ∧ (a < 3 → d1 < 36524)).
  { subst a d1. pose proof (Z.div_mod d 36524). pose proof (Z.mod_pos_bound d 36524). lia. }
  assert (Hb : 0 ≤ b ≤ 24 ∧ 0 ≤ d2 < 1461 ∧ (b = 24 → a < 3 → d2 < 1460)).
  { subst b d2. pose proof (Z.div_mod d1 1461). pose proof (Z.mod_pos_bound d1 1461). lia. }
  assert (Hc : 0 ≤ c ≤ 3 ∧ 0 ≤ d2 - c * 365 ≤ 365 ∧ (c < 3 → d2 - c * 365 < 365)).
  { subst c. pose proof (Z.div_mod d2 365). pose proof (Z.mod_pos_bound d2 365). lia. }
  exists a, b, c, (d2 - c * 365). split_and!; try lia; [done|]. case_decide; [lia|].
  destruct (decide (c = 3)); [|lia]. assert (b = 24 ∧ a < 3) by lia. lia.
Qed.

(** A year of a cycle, shifted by whole cycles. *)
Lemma days_before_year_cycle k a b c :
  0 ≤ a ≤ 3 → 0 ≤ b ≤ 24 → 0 ≤ c ≤ 3 →
  days_before_year (1 + 400 * k + (100 * a + 4 * b + c)) = daysPer400Years * k + 36524 * a + 1461 * b + 365 * c.
Proof.
  unfold days_before_year, daysPer400Years. intros Ha Hb Hc.
  replace (1 + 400 * k + (100 * a + 4 * b + c) - 1) with (400 * k + 100 * a + 4 * b + c) by lia.
  assert ((400 * k + 100 * a + 4 * b + c) / 4 = 100 * k + 25 * a + b) as -> by (symmetry; apply (Z.div_unique _ _ _ c); lia).
  assert ((400 * k + 100 * a + 4 * b + c) / 100 = 4 * k + a) as -> by (symmetry; apply (Z.div_unique _ _ _ (4 * b + c)); lia).
  assert ((400 * k + 100 * a + 4 * b + c) / 400 = k) as -> by (symmetry; apply (Z.div_unique _ _ _ (100 * a + 4 * b + c)); lia).
  lia.
Qed.

Lemma isLeap_cycle k a b c :
  0 ≤ a ≤ 3 → 0 ≤ b ≤ 24 → 0 ≤ c ≤ 3 →
  isLeap (1 + 400 * k + (100 * a + 4 * b + c)) = bool_decide (c = 3 ∧ (b ≠ 24 ∨ a = 3)).
Proof.
  intros Ha Hb Hc. unfold isLeap.
  assert (H4 : (1 + 400 * k + (100 * a + 4 * b + c)) mod 4 = (c + 1) mod 4).
  { replace (1 + 400 * k + (100 * a + 4 * b + c)) with (c + 1 + (100 * k + 25 * a + b) * 4) by lia. by rewrite Z.mod_add by lia. }
  assert (H100 : (1 + 400 * k + (100 * a + 4 * b + c)) mod 100 = (4 * b + c + 1) mod 100).
  { replace (1 + 400 * k + (100 * a + 4 * b + c)) with (4 * b + c + 1 + (4 * k + a) * 100) by lia. by rewrite Z.mod_add by lia. }
  assert (H400 : (1 + 400 * k + (100 * a + 4 * b + c)) mod 400 = (100 * a + 4 * b + c + 1) mod 400).
  { replace (1 + 400 * k + (100 * a + 4 * b + c)) with (100 * a + 4 * b + c + 1 + k * 400) by lia. by rewrite Z.mod_add by lia. }
  rewrite H4, H100, H400. clear H4 H100 H400. destruct (decide (c = 3)) as [->|Hne].
  - change ((3 + 1) mod 4) with 0. cbn [Z.eqb andb]. destruct (decide (b = 24)) as [->|Hb24].
    + change ((4 * 24 + 3 + 1) mod 100) with 0. cbn [Z.eqb negb orb]. destruct (decide (a = 3)) as [->|].
      * reflexivity.
      * rewrite Z.mod_small by lia. rewrite bool_decide_false by lia. by apply Z.eqb_neq; lia.
    + rewrite (Z.mod_small (4 * b + 3 + 1)) by lia. rewrite bool_decide_true by lia.
      destruct (Z.eqb_spec (4 * b + 3 + 1) 0); [lia|done].
  - rewrite Z.mod_small by lia. rewrite bool_decide_false by lia.
    destruct (Z.eqb_spec (c + 1) 0); [lia|done].
Qed.

(** The months, checked on every day of a year. *)
Definition month_ok (leap : bool) (yday : Z) : bool :=
  let '(m, day) := month_of 1 yday (month_lengths leap) in
  (foldr Z.add 0 (take (Z.to_nat (m - 1)) (month_lengths leap)) + day - 1 =? yday) &&
  (1 <=? m) && (m <=? 12) && (1 <=? day) && (day <=? 31).

Lemma month_of_ok leap yday : 0 ≤ yday < (if (leap : bool) then 366 else 365) → month_ok leap yday = true.
Proof.
  intros Hd. assert (Hall : forallb (λ i, month_ok true (Z.of_nat i)) (seq 0 366) &&
    forallb (λ i, month_ok false (Z.of_nat i)) (seq 0 365) = true) by (vm_compute; reflexivity).
  apply andb_prop in Hall as [Ht Hf]. rewrite forallb_forall in Ht, Hf.
  rewrite <-(Z2Nat.id yday) by (destruct leap; lia). destruct leap; [apply Ht|apply Hf]; apply in_seq; lia.
Qed.

(** The date of a day has a month and a day of it, and is that day. *)
Lemma date_of_days_spec d :
  let '(y, m, day) := date_of_days d in
  days_of_date y m day = d ∧ 1 ≤ m ≤ 12 ∧ 1 ≤ day ≤ 31.
Proof.
  unfold date_of_days, year_of_days.
  destruct (year_in_cycle_spec (d mod daysPer400Years)) as (a & b & c & yday & -> & Ha & Hb & Hc & Hd & Hy);
    [apply Z.mod_pos_bound; done|].
  set (k := d / daysPer400Years). pose proof (isLeap_cycle k a b c Ha Hb Hc) as Hl.
  set (y := 1 + 400 * k + (100 * a + 4 * b + c)) in *.
  assert (Hm : month_ok (isLeap y) yday = true).
  { apply month_of_ok. rewrite Hl. destruct (decide (c = 3 ∧ (b ≠ 24 ∨ a = 3))) as [Hx|Hx];
      [rewrite bool_decide_true by done|rewrite bool_decide_false by done]; done. }
  unfold month_ok in Hm. destruct (month_of 1 yday (month_lengths (isLeap y))) as [m day].
  rewrite !andb_true_iff, Z.eqb_eq, !Z.leb_le in Hm. split; [|lia]. unfold days_of_date.
  subst y. rewrite days_before_year_cycle by done. fold k in Hm |- *.
  pose proof (Z.div_mod d daysPer400Years ltac:(done)) as Hdm. fold k in Hdm. lia.
Qed.

(** ** The text *)

(** A number in [w] digits. *)
Fixpoint pad (w : nat) (n : Z) : text :=
  match w with O => [] | S w => pad w (n / 10) ++ [byte_of (48 + n mod 10)] end.

Definition char (z : Z) : text := [byte_of z].
(** The fraction of a second without its trailing zeros. *)
Definition fraction (nanos : Z) : text :=
  if nanos =? 0 then [] else byte_of 46 :: trim_zeros (pad 9 nanos).

Definition zone_text (zone : Z) : text :=
  if zone =? 0 then char 90
  else
    let m := Z.quot zone 60 in
    char (if m <? 0 then 45 else 43) ++ pad 2 (Z.abs m / 60) ++ char 58 ++ pad 2 (Z.abs m mod 60).

Definition clock_text (sec : Z) : text :=
  pad 2 (sec / 3600) ++ char 58 ++ pad 2 (sec mod 3600 / 60) ++ char 58 ++ pad 2 (sec mod 60).

Definition nanos_per_second : Z := 1000000000.

(** [Time.MarshalJSON] without its quotes: [None] for a year outside 0 to 9999
    and for a zone of 24 hours or more. *)
Definition RFC3339 (zone t : Z) : option text :=
  let local := t / nanos_per_second + zone in
  let '(y, m, d) := date_of_days (local / 86400 + unixDays) in
  if (0 <=? y) && (y <=? 9999) && (Z.abs (Z.quot zone 60) / 60 <? 24) then
    Some (pad 4 y ++ char 45 ++ pad 2 m ++ char 45 ++ pad 2 d ++ char 84 ++ clock_text (local mod 86400) ++
          fraction (t mod nanos_per_second) ++ zone_text zone)
  else None.

(** ** Reading it back *)

Definition read_fixed (w : nat) (s : text) : option (Z * text) :=
  let ds := take w s in
  if (length ds =? w)%nat && forallb is_digit ds then Some (digits_val ds, drop w s) else None.

(** Past the character [c]. *)
Definition past (c : Ascii.ascii) (s : text) : option text :=
  match s with d :: s' => if decide (d = c) then Some s' else None | [] => None end.

Fixpoint span_digits (s : text) : text * text :=
  match s with
  | c :: s' => if is_digit c then let '(ds, r) := span_digits s' in (c :: ds, r) else ([], s)
  | [] => ([], [])
  end.

Definition read_fraction (s : text) : option (Z * text) :=
  match past (byte_of 46) s with
  | None => Some (0, s)
  | Some s =>
      let '(ds, r) := span_digits s in
      if (length ds =? 0)%nat || (9 <? length ds)%nat then None
      else Some (digits_val ds * 10 ^ (9 - Z.of_nat (length ds)), r)
  end.

Definition read_zone (s : text) : option Z :=
  match s with
  | [] => None
  | c :: s =>
      if byte_val c =? 90 then match s with [] => Some 0 | _ => None end
      else if (byte_val c =? 43) || (byte_val c =? 45) then
        '(h, s) ← read_fixed 2 s; s ← past (byte_of 58) s; '(m, s) ← read_fixed 2 s;
        match s with
        | [] => Some (60 * (if byte_val c =? 45 then - (60 * h + m) else 60 * h + m))
        | _ => None
        end
      else None
  end.

Definition read_RFC3339 (s : text) : option Z :=
  '(y, s) ← read_fixed 4 s; s ← past (byte_of 45) s; '(m, s) ← read_fixed 2 s; s ← past (byte_of 45) s;
  '(d, s) ← read_fixed 2 s; s ← past (byte_of 84) s;
  '(hh, s) ← read_fixed 2 s; s ← past (byte_of 58) s; '(mm, s) ← read_fixed 2 s; s ← past (byte_of 58) s;
  '(ss, s) ← read_fixed 2 s; '(n, s) ← read_fraction s; zone ← read_zone s;
  Some (((days_of_date y m d - unixDays) * 86400 + hh * 3600 + mm * 60 + ss - zone) * nanos_per_second + n).

(** 2024-02-29 23:59:59.25 in a zone of -5:30. *)
Lemma RFC3339_example :
  RFC3339 (-19800) 1709270999250000000 = Some (explode "2024-02-29T23:59:59.25-05:30") ∧
  read_RFC3339 (explode "2024-02-29T23:59:59.25-05:30") = Some 1709270999250000000.
Proof. split; vm_compute; reflexivity. Qed.

Lemma byte_of_digit n : 0 ≤ n ≤ 9 → is_digit (byte_of (48 + n)) = true ∧ digit (byte_of (48 + n)) = n.
Proof.
  intros Hn. assert (n = 0 ∨ n = 1 ∨ n = 2 ∨ n = 3 ∨ n = 4 ∨ n = 5 ∨ n = 6 ∨ n = 7 ∨ n = 8 ∨ n = 9) as Hn' by lia.
  by destruct_or! Hn'; subst.
Qed.

Lemma pad_spec w n :
  0 ≤ n < 10 ^ Z.of_nat w →
  length (pad w n) = w ∧ forallb is_digit (pad w n) = true ∧ digits_val (pad w n) = n.
Proof.
  revert n. induction w as [|w IH]; intros n Hn; cbn [pad].
  - cbn in *. split_and!; try done. lia.
  - rewrite Nat2Z.inj_succ, Z.pow_succ_r in Hn by lia.
    destruct (IH (n / 10)) as (Hl & Hd & Hv).
    { split; [apply Z.div_pos; lia|apply Z.div_lt_upper_bound; lia]. }
    destruct (byte_of_digit (n mod 10)) as [Hc Hcv]; [pose proof (Z.mod_pos_bound n 10); lia|].
    rewrite length_app, forallb_app, digits_val_snoc, Hl, Hd, Hv, Hcv. cbn. rewrite Hc.
    split_and!; [lia|done|]. pose proof (Z.div_mod n 10). lia.
Qed.

Lemma read_fixed_pad w n s : 0 ≤ n < 10 ^ Z.of_nat w → read_fixed w (pad w n ++ s) = Some (n, s).
Proof.
  intros Hn. destruct (pad_spec w n Hn) as (Hl & Hd & Hv). unfold read_fixed.
  rewrite take_app_length', drop_app_length' by done. by rewrite Hl, Nat.eqb_refl, Hd, Hv.
Qed.

Lemma past_same c s : past c (c :: s) = Some s.
Proof. unfold past. by rewrite decide_True. Qed.

Lemma span_digits_app ds s :
  forallb is_digit ds = true → match s with c :: _ => is_digit c = false | [] => True end →
  span_digits (ds ++ s) = (ds, s).
Proof.
  intros Hd Hs. induction ds as [|c ds IH]; cbn in *.
  - destruct s as [|c s]; cbn; [done|]. by rewrite Hs.
  - apply andb_prop in Hd as [-> Hd]. by rewrite IH.
Qed.

Definition ends_fraction (s : text) : Prop :=
  match s with c :: _ => is_digit c = false ∧ c ≠ byte_of 46 | [] => True end.

Lemma read_fraction_back nanos s :
  0 ≤ nanos < nanos_per_second → ends_fraction s → read_fraction (fraction nanos ++ s) = Some (nanos, s).
Proof.
  intros Hn Hs. unfold read_fraction, fraction. destruct (Z.eqb_spec nanos 0) as [->|Hne].
  - cbn [app]. destruct s as [|c s]; [done|]. destruct Hs as [_ Hc]. unfold past. by rewrite decide_False.
  - destruct (pad_spec 9 nanos Hn) as (Hl & Hd & Hv). destruct (trim_zeros_spec (pad 9 nanos)) as [k Hp].
    set (ds := trim_zeros (pad 9 nanos)) in *. clearbody ds.
    rewrite <-app_comm_cons, past_same. rewrite Hp in Hl, Hd, Hv. rewrite forallb_app in Hd. apply andb_prop in Hd as [Hd _].
    rewrite digits_val_app, digits_val_zeros, length_replicate, Z.add_0_r in Hv. rewrite length_app, length_replicate in Hl.
    rewrite span_digits_app; [|done|destruct s; [done|apply Hs]].
    destruct ds as [|c ds'] eqn:Eds; [cbn in Hv; lia|]. rewrite <-Eds in *.
    assert (Hlen : (0 < length ds ≤ 9)%nat) by (split; [rewrite Eds; cbn; lia|lia]).
    destruct (Nat.eqb_spec (length ds) 0); [lia|]. destruct (Nat.ltb_spec 9 (length ds)); [lia|]. cbn [orb].
    rewrite <-Hv. by replace (9 - Z.of_nat (length ds)) with (Z.of_nat k) by lia.
Qed.

Lemma read_zone_back zone :
  zone mod 60 = 0 → Z.abs (Z.quot zone 60) / 60 < 24 → read_zone (zone_text zone) = Some zone.
Proof.
  intros Hz Hh. unfold zone_text. destruct (Z.eqb_spec zone 0) as [->|Hne]; [reflexivity|].
  set (m := Z.quot zone 60) in *.
  assert (Hm : zone = 60 * m).
  { unfold m. pose proof (Z.div_mod zone 60 ltac:(lia)) as Hdm. rewrite Hz, Z.add_0_r in Hdm. rewrite Hdm at 2.
    rewrite (Z.mul_comm 60 (zone / 60)), Z.quot_mul by lia. lia. }
  clearbody m. cbv zeta. pose proof (Z.div_mod (Z.abs m) 60) as Hdm. pose proof (Z.mod_pos_bound (Z.abs m) 60).
  assert (0 ≤ Z.abs m / 60) by (apply Z.div_pos; lia).
  assert (Hrest : ∀ c, byte_val c ≠ 90 → (byte_val c =? 43) || (byte_val c =? 45) = true →
    read_zone ([c] ++ pad 2 (Z.abs m / 60) ++ char 58 ++ pad 2 (Z.abs m mod 60)) =
    Some (60 * (if byte_val c =? 45 then - Z.abs m else Z.abs m))).
  { intros c Hc Hcs. cbn [app read_zone]. destruct (Z.eqb_spec (byte_val c) 90); [done|]. rewrite Hcs.
    rewrite read_fixed_pad by (cbn; lia). cbn [mbind option_bind app char]. rewrite past_same. cbn [mbind option_bind].
    rewrite <-(app_nil_r (pad 2 (Z.abs m mod 60))), read_fixed_pad by (cbn; lia). cbn [mbind option_bind].
    do 2 f_equal. destruct (byte_val c =? 45); lia. }
  unfold char at 1. rewrite Hrest by (by destruct (m <? 0)). f_equal. rewrite Hm.
  destruct (Z.ltb_spec m 0);
    [change (byte_val (byte_of 45) =? 45) with true|change (byte_val (byte_of 43) =? 45) with false]; cbv iota; lia.
Qed.

Lemma zone_text_ends zone : ends_fraction (zone_text zone).
Proof. unfold zone_text. destruct (zone =? 0); [by split|]. cbv zeta. by destruct (_ <? 0). Qed.

(** A time reads back to the nanosecond, in any zone of whole minutes. *)
Lemma RFC3339_reads_back zone t s :
  zone mod 60 = 0 → RFC3339 zone t = Some s → read_RFC3339 s = Some t.
Proof.
  intros Hz. unfold RFC3339. set (local := t / nanos_per_second + zone).
  pose proof (date_of_days_spec (local / 86400 + unixDays)) as Hdate.
  destruct (date_of_days (local / 86400 + unixDays)) as [[y m] d]. destruct Hdate as (Hdays & Hm & Hd).
  destruct (_ && _) eqn:Hok; [|done]. intros Hs. apply (inj Some) in Hs as <-. rewrite !andb_true_iff, !Z.leb_le, Z.ltb_lt in Hok.
  destruct Hok as [Hy Hzone]. unfold clock_text. rewrite <-!app_assoc.
  pose proof (Z.div_mod local 86400). pose proof (Z.mod_pos_bound local 86400). set (sec := local mod 86400) in *.
  pose proof (Z.div_mod sec 3600). pose proof (Z.mod_pos_bound sec 3600).
  pose proof (Z.div_mod (sec mod 3600) 60). pose proof (Z.mod_pos_bound (sec mod 3600) 60).
  assert (Hmod : (sec mod 3600) mod 60 = sec mod 60).
  { rewrite (Z.div_mod sec 3600) at 2 by lia. replace (3600 * (sec / 3600) + sec mod 3600) with (sec mod 3600 + 60 * (sec / 3600) * 60) by lia.
    by rewrite Z.mod_add by lia. }
  assert (0 ≤ sec / 3600 < 24) by (split; [apply Z.div_pos; lia|apply Z.div_lt_upper_bound; lia]).
  assert (0 ≤ sec mod 3600 / 60 < 60) by (split; [apply Z.div_pos; lia|apply Z.div_lt_upper_bound; lia]).
  unfold read_RFC3339.
  rewrite read_fixed_pad by (cbn; lia). cbn [mbind option_bind app char]. rewrite past_same. cbn [mbind option_bind].
  rewrite read_fixed_pad by (cbn; lia). cbn [mbind option_bind app char]. rewrite past_same. cbn [mbind option_bind].
  rewrite read_fixed_pad by (cbn; lia). cbn [mbind option_bind app char]. rewrite past_same. cbn [mbind option_bind].
  rewrite read_fixed_pad by (cbn; lia). cbn [mbind option_bind app char]. rewrite past_same. cbn [mbind option_bind].
  rewrite read_fixed_pad by (cbn; lia). cbn [mbind option_bind app char]. rewrite past_same. cbn [mbind option_bind].
  rewrite read_fixed_pad by (cbn; lia). cbn [mbind option_bind].
  assert (Hn : 0 ≤ t mod nanos_per_second < nanos_per_second) by (apply Z.mod_pos_bound; done).
  rewrite read_fraction_back by (done || apply zone_text_ends). cbn [mbind option_bind].
  rewrite read_zone_back by done. cbn [mbind option_bind]. f_equal. rewrite Hdays.
  pose proof (Z.div_mod t nanos_per_second ltac:(done)). unfold local in *. lia.
Qed.

(** The text is ASCII. *)
Definition is_ascii (c : Ascii.ascii) : bool := byte_val c <? 128.

Lemma digits_ascii s : forallb is_digit s = true → forallb is_ascii s = true.
Proof.
  rewrite !forallb_forall. intros Hs c Hc. specialize (Hs c Hc). apply is_digit_spec in Hs. unfold is_ascii. lia.
Qed.

Lemma pad_ascii w n : forallb is_ascii (pad w n) = true.
Proof.
  revert n. induction w as [|w IH]; intros n; cbn [pad]; [done|]. rewrite forallb_app, IH. cbn.
  destruct (byte_of_digit (n mod 10)) as [Hd _]; [pose proof (Z.mod_pos_bound n 10); lia|].
  apply is_digit_spec in Hd. unfold is_ascii. destruct (Z.ltb_spec (byte_val (byte_of (48 + n mod 10))) 128); [done|lia].
Qed.

Lemma trim_zeros_ascii s : forallb is_ascii s = true → forallb is_ascii (trim_zeros s) = true.
Proof. destruct (trim_zeros_spec s) as [k Hk]. rewrite Hk at 1. rewrite forallb_app. by intros [? _]%andb_prop. Qed.

Lemma RFC3339_ascii zone t s : RFC3339 zone t = Some s → forallb is_ascii s = true.
Proof.
  unfold RFC3339. destruct (date_of_days _) as [[y m] d]. destruct (_ && _); [|done]. intros Hs.
  apply (inj Some) in Hs as <-. unfold clock_text. rewrite !forallb_app, !pad_ascii. cbn [andb forallb char].
  assert (Hf : forallb is_ascii (fraction (t mod nanos_per_second)) = true).
  { unfold fraction. destruct (_ =? 0); [done|]. cbn [forallb].
    by rewrite trim_zeros_ascii by apply pad_ascii. }
  rewrite Hf. unfold zone_text. destruct (zone =? 0); [done|]. cbv zeta. rewrite !forallb_app, !pad_ascii.
  by destruct (_ <? 0).
Qed.

(** A time within the years that int64 nanoseconds reach has a text. *)
Lemma RFC3339_total zone t : is_i64 t → Z.abs zone < 86400 → is_Some (RFC3339 zone t).
Proof.
  unfold is_i64. intros Ht Hz. unfold RFC3339, date_of_days, year_of_days. cbv zeta.
  set (d := (t / nanos_per_second + zone) / 86400 + unixDays).
  assert (Hd : 584388 ≤ d < 876582).
  { unfold d, unixDays, nanos_per_second. pose proof (Z.div_mod t 1000000000). pose proof (Z.mod_pos_bound t 1000000000).
    pose proof (Z.div_mod (t / 1000000000 + zone) 86400). pose proof (Z.mod_pos_bound (t / 1000000000 + zone) 86400). lia. }
  destruct (year_in_cycle_spec (d mod daysPer400Years)) as (a & b & c & yday & -> & Ha & Hb & Hc & _);
    [apply Z.mod_pos_bound; done|].
  destruct (month_of 1 yday _) as [m day].
  assert (Hk : 4 ≤ d / daysPer400Years ≤ 5).
  { unfold daysPer400Years. pose proof (Z.div_mod d 146097). pose proof (Z.mod_pos_bound d 146097). lia. }
  assert (Hq : Z.abs (Z.quot zone 60) < 1440).
  { rewrite <-Z.quot_abs by lia. apply Z.quot_lt_upper_bound; lia. }
  pose proof (Z.div_lt_upper_bound (Z.abs (Z.quot zone 60)) 60 24 ltac:(lia) ltac:(lia)).
  destruct (_ && _) eqn:Hok; [by eexists|]. apply not_true_iff_false in Hok. destruct Hok.
  rewrite !andb_true_iff, !Z.leb_le, Z.ltb_lt. lia.
Qed.
