(* ===== verification/Types.v ===== *)
(** * types/: the shared leaf types

    [Request], [Entry] and the enumerations of types/request.go, types/entry.go
    and types/workload.go, and the tunable parameters of types/policy.go.  A
    [ParamSet] is a Go map of pointers, so [Clone] and [Set] work on an explicit
    heap of parameters. *)
From S2P Require Import Prelude GoFloat.

(** ** Enumerations: the Go types are uint8, so every byte is a value *)

Definition OpGet : Z := 0.
Definition OpPut : Z := 1.
Definition OpDelete : Z := 2.

Definition OpType_String (o : Z) : string :=
  if o =? OpGet then "get"
  else if o =? OpPut then "put"
  else if o =? OpDelete then "delete"
  else "unknown".

Definition WorkloadUnknown : Z := 0.
Definition WorkloadTemporal : Z := 1.
Definition WorkloadSpatial : Z := 2.
Definition WorkloadWorkingSet : Z := 3.
Definition WorkloadRandom : Z := 4.
Definition WorkloadBursty : Z := 5.
Definition WorkloadMixed : Z := 6.

Definition WorkloadType_String (w : Z) : string :=
  if w =? WorkloadUnknown then "unknown"
  else if w =? WorkloadTemporal then "temporal"
  else if w =? WorkloadSpatial then "spatial"
  else if w =? WorkloadWorkingSet then "working_set"
  else if w =? WorkloadRandom then "random"
  else if w =? WorkloadBursty then "bursty"
  else if w =? WorkloadMixed then "mixed"
  else "unknown".

(** The feature vector of a request window: nothing in this code reads it. *)
Record Features := {
  ReuseDistanceMean : float64;
  ReuseDistanceP50 : float64;
  ReuseDistanceP95 : float64;
  RepeatedKeyRatio : float64;
  InterArrivalMean : float64;
  KeyDistanceMean : float64;
  ContiguousRatio : float64;
  RangeDensity : float64;
  UniqueKeys : Z;
  TopKConcentration : float64;
  KeyEntropy : float64;
  ZipfAlphaEstimate : float64;
  RequestRateMean : float64;
  RequestRateStdDev : float64;
  BurstinessCV : float64;
  SpikeRatio : float64;
  WorkingSetEstimate : Z;
  ActiveSetStability : float64;
  SizeMean : float64;
  SizeMedian : float64;
  SizeP95 : float64;
  SizeVariance : float64;
  SmallRatio : float64;
  MediumRatio : float64;
  LargeRatio : float64;
  BytesRequested : Z;
}.

(** One output of a classifier. *)
Record WorkloadPrediction := {
  PredictedType : Z;
  PConfidence : float64;
  PFeatures : Features;
  WindowStart : Z;
  WindowEnd : Z;
  DetectedAt : Z;
}.

(** ** Policy names *)

Abbreviation PolicyName := string (only parsing).

Definition PolicyNone : PolicyName := "none".
Definition PolicyLRU : PolicyName := "lru".
Definition PolicyLFU : PolicyName := "lfu".
Definition PolicyARC : PolicyName := "arc".
Definition PolicyWTinyLFU : PolicyName := "wtinylfu".
Definition PolicyClock : PolicyName := "clock".
Definition PolicyAdaptive : PolicyName := "adaptive".

(** ** Requests and entries

    A [time.Time] is its number of nanoseconds; a [Value] is its bytes. *)

Definition Value : Type := list Byte.byte.

Record Request := {
  Request_Key : string;
  Request_Size : Z;
  Request_Timestamp : Z;
  Request_RequestID : Z;
  Request_Op : Z;
}.

Record Entry := {
  Key : string;
  EValue : Value;
  Size : Z;
  InsertionTime : Z;
  LastAccessTime : Z;
  AccessCount : Z;
}.

(** A [*types.Entry]: the address of an entry in the store's heap. *)
Definition eptr : Type := positive.
#[global] Instance eptr_eq_dec : EqDecision eptr := _.
#[global] Instance eptr_countable : Countable eptr := _.

(** ** Parameters *)

Record Param := {
  PName : string;
  Min : float64;
  Max : float64;
  Default : float64;
  Current : float64;
  Step : float64;
  Metric : string;
}.

Definition Clamp (p : Param) (v : float64) : float64 :=
  if f64_lt v (Min p) then Min p
  else if f64_gt v (Max p) then Max p
  else v.

(** The error [Set] returns: the name, the value and the bounds it prints. *)
Inductive param_error :=
| OutOfRange (name : string) (v lo hi : float64)
| NoSuchParameter (policy name : string).

Definition Set_ (p : Param) (v : float64) : param_error + Param :=
  if f64_lt v (Min p) || f64_gt v (Max p)
  then inl (OutOfRange (PName p) v (Min p) (Max p))
  else inr {| PName := PName p; Min := Min p; Max := Max p; Default := Default p;
              Current := v; Step := Step p; Metric := Metric p |}.

(** A [ParamSet] maps names to pointers, some of them nil. *)
Definition pptr : Type := positive.
Abbreviation param_heap := (gmap positive Param).
Abbreviation ParamSet := (gmap string (option pptr)).

Definition alloc_param (h : param_heap) (p : Param) : param_heap * pptr :=
  let l := fresh (dom h) in (<[l := p]> h, l).

Section paramset.
Context `{GoRuntime}.

(** One iteration of the loop of [Clone]. *)
Definition clone_step (ps : ParamSet) (k : string) (s : param_heap * ParamSet)
    : outcome (param_heap * ParamSet) :=
  let '(h, out) := s in
  match ps !! k with
  | None | Some None => Ret (h, out)
  | Some (Some v) =>
      cp ← or_panic (h !! v);
      let '(h', l) := alloc_param h cp in
      Ret (h', <[k := Some l]> out)
  end.

Definition Clone (tick : nat) (ps : ParamSet) (h : param_heap)
    : outcome (param_heap * ParamSet) :=
  for_each (clone_step ps) (range_keys tick ps) (h, ∅).

Definition values_step (ps : ParamSet) (h : param_heap) (k : string)
    (out : gmap string float64) : outcome (gmap string float64) :=
  match ps !! k with
  | None | Some None => Ret out
  | Some (Some v) => p ← or_panic (h !! v); Ret (<[k := Current p]> out)
  end.

Definition Values (tick : nat) (ps : ParamSet) (h : param_heap)
    : outcome (gmap string float64) :=
  for_each (values_step ps h) (range_keys tick ps) ∅.
End paramset.

(** [p.Set(v)] through a pointer of the set. *)
Definition Set_at (h : param_heap) (l : pptr) (v : float64) : outcome (param_heap * option param_error) :=
  p ← or_panic (h !! l);
  match Set_ p v with
  | inl e => Ret (h, Some e)
  | inr p' => Ret (<[l := p']> h, None)
  end.

(** ** Properties *)

(** Every pointer of the set is nil or points to a parameter. *)
Definition params_ok (h : param_heap) (ps : ParamSet) : Prop :=
  ∀ k l, ps !! k = Some (Some l) → is_Some (h !! l).

(** [ps'] is a copy of [ps] in [h']: the same names but the nil ones, with the
    same contents, at addresses that are new with respect to [h] and pairwise
    different. *)
Record is_deep_copy (h : param_heap) (ps : ParamSet) (h' : param_heap) (ps' : ParamSet) : Prop := {
  copy_old : h ⊆ h';
  copy_contents k p :
    (∃ l, ps' !! k = Some (Some l) ∧ h' !! l = Some p) ↔
    (∃ l, ps !! k = Some (Some l) ∧ h !! l = Some p);
  copy_no_nil k : ps' !! k ≠ Some None;
  copy_fresh k l : ps' !! k = Some (Some l) → h !! l = None;
  copy_distinct k1 k2 l : ps' !! k1 = Some (Some l) → ps' !! k2 = Some (Some l) → k1 = k2;
}.

Lemma alloc_param_fresh h p h' l :
  alloc_param h p = (h', l) → h !! l = None ∧ h' = <[l := p]> h.
Proof.
  intros [= <- <-]. split; [|done]. apply not_elem_of_dom, is_fresh.
Qed.

(** The invariant of the loop of [Clone], with the keys [todo] left. *)
Record clone_inv (h : param_heap) (ps : ParamSet) (todo : list string)
    (s : param_heap * ParamSet) : Prop := {
  ci_nodup : NoDup todo;
  ci_old : h ⊆ s.1;
  ci_contents k p :
    (∃ l, s.2 !! k = Some (Some l) ∧ s.1 !! l = Some p) ↔
    k ∉ todo ∧ (∃ l, ps !! k = Some (Some l) ∧ h !! l = Some p);
  ci_alloc k o : s.2 !! k = Some o →
    k ∉ todo ∧ ∃ l, o = Some l ∧ h !! l = None ∧ is_Some (s.1 !! l);
  ci_distinct k1 k2 l : s.2 !! k1 = Some (Some l) → s.2 !! k2 = Some (Some l) → k1 = k2;
}.

(** Keys with no parameter are skipped. *)
Lemma clone_inv_skip h ps todo k s :
  (∀ l, ps !! k ≠ Some (Some l)) →
  clone_inv h ps (k :: todo) s → clone_inv h ps todo s.
Proof.
  intros Hps [[_ Hnd]%NoDup_cons Hold Hcont Hal Hdist]. split; [done|done| | |done].
  - intros j p. rewrite Hcont. split; [set_solver|]. intros [Hj (l & Hl & Hp)].
    split; [|eauto]. rewrite not_elem_of_cons. split; [congruence|done].
  - intros j o Hj. apply Hal in Hj as [??]. set_solver.
Qed.

(** Any other key gets a new parameter. *)
Lemma clone_inv_alloc h ps todo k v p h1 out h2 l :
  ps !! k = Some (Some v) → h !! v = Some p →
  alloc_param h1 p = (h2, l) →
  clone_inv h ps (k :: todo) (h1, out) →
  clone_inv h ps todo (h2, <[k := Some l]> out).
Proof.
  intros Hps Hv [Hl ->]%alloc_param_fresh [[Hk Hnd]%NoDup_cons Hold Hcont Hal Hdist]; simpl in *.
  assert (Hout : out !! k = None).
  { destruct (out !! k) eqn:E; [|done]. apply Hal in E as [??]. set_solver. }
  assert (Hlh : h !! l = None) by (by eapply lookup_weaken_None).
  assert (Hne : ∀ j l', out !! j = Some (Some l') → l ≠ l').
  { intros j l' Hj ->. apply Hal in Hj as (? & ? & [= <-] & ? & []). congruence. }
  split; simpl; [done| | | |].
  - by apply insert_subseteq_r.
  - intros j q. destruct (decide (j = k)) as [->|Hj].
    + rewrite lookup_insert_eq. split.
      * intros (l' & [= <-] & Hq). rewrite lookup_insert_eq in Hq. naive_solver.
      * intros [_ (l' & ? & ?)]. exists l. rewrite lookup_insert_eq. naive_solver.
    + rewrite lookup_insert_ne by done. specialize (Hcont j q).
      rewrite not_elem_of_cons in Hcont. split.
      * intros (l' & Hl' & Hq). rewrite lookup_insert_ne in Hq by eauto. naive_solver.
      * intros [Hj' Hex]. apply proj2 in Hcont. destruct Hcont as (l' & Hl' & Hq); [done|].
        exists l'. rewrite lookup_insert_ne by eauto. done.
  - intros j o Hj. destruct (decide (j = k)) as [->|Hjk].
    + rewrite lookup_insert_eq in Hj. simplify_eq. split; [done|]. exists l.
      rewrite lookup_insert_eq. eauto.
    + rewrite lookup_insert_ne in Hj by done. destruct (Hal _ _ Hj) as (Hn & l' & -> & ? & ?).
      split; [set_solver|]. exists l'. rewrite lookup_insert_ne by eauto. done.
  - intros k1 k2 l'. rewrite !lookup_insert_Some. naive_solver.
Qed.

Section clone.
Context `{GoRuntime}.

Lemma clone_step_inv h ps todo k s :
  params_ok h ps → clone_inv h ps (k :: todo) s →
  ∃ s', clone_step ps k s = Ret s' ∧ clone_inv h ps todo s'.
Proof.
  intros Hok Hinv. destruct s as [h1 out]. unfold clone_step.
  destruct (ps !! k) as [[v|]|] eqn:Hps.
  2,3: eexists; split; [done|]; eapply clone_inv_skip, Hinv; congruence.
  destruct (Hok _ _ Hps) as [p Hp].
  rewrite (lookup_weaken _ h1 _ _ Hp (ci_old _ _ _ _ Hinv)); simpl.
  destruct (alloc_param h1 p) as [h2 l] eqn:Hal.
  eexists; split; [done|]. by eapply clone_inv_alloc.
Qed.

(** C38: [Clone] is a deep copy: for a set whose pointers are nil or valid it
    returns, the old parameters are untouched, and the copy has the same
    parameters under the same names, the nil ones left out, each at an address
    of its own that was free before, so that setting one through the copy
    changes neither the original nor another of the copy. *)
Theorem Clone_deep tick ps h :
  params_ok h ps →
  ∃ h' ps', Clone tick ps h = Ret (h', ps') ∧ is_deep_copy h ps h' ps'.
Proof.
  intros Hok. destruct (for_each_ind (clone_step ps) (clone_inv h ps)
    (range_keys tick ps) (h, ∅)) as ([h' ps'] & Hrun & Hinv).
  - split; simpl; [apply NoDup_range_keys|done| | |].
    + intros k p. split; [intros (l & Hl & _); by rewrite lookup_empty in Hl|].
      intros [Hk (l & Hl & _)]. destruct Hk. apply elem_of_range_keys. eauto.
    + intros k o Hk. by rewrite lookup_empty in Hk.
    + intros k1 k2 l Hk. by rewrite lookup_empty in Hk.
  - intros x xs s'. by apply clone_step_inv.
  - exists h', ps'. split; [done|]. destruct Hinv as [_ Hold Hcont Hal Hdist]; simpl in *.
    split; [done| | | |done].
    + intros k p. rewrite Hcont. set_solver.
    + intros k Hk. apply Hal in Hk. naive_solver.
    + intros k l Hk. apply Hal in Hk. naive_solver.
Qed.
End clone.

Definition sample_param : Param :=
  {| PName := "decay_lambda"; Min := f64_zero; Max := f64_one; Default := f64_zero; Current := f64_one;
     Step := f64_one; Metric := "hit_rate" |}.

(** One parameter and one nil pointer. *)
Lemma Clone_deep_witness :
  ∃ h' ps', Clone 0 {["a" := Some 1%positive; "b" := None]}%string {[1%positive := sample_param]} = Ret (h', ps') ∧
    is_deep_copy {[1%positive := sample_param]} {["a" := Some 1%positive; "b" := None]}%string h' ps' ∧
    dom ps' = {["a"%string]}.
Proof.
  destruct (Clone_deep 0 {["a" := Some 1%positive; "b" := None]}%string {[1%positive := sample_param]})
    as (h' & ps' & Hrun & Hcopy).
  - intros k l. rewrite lookup_insert_Some. intros [[_ [= <-]]|[_ Hl]]; [by eexists|].
    apply lookup_singleton_Some in Hl as [_ [=]].
  - exists h', ps'. split_and!; [done|done|]. vm_compute in Hrun. injection Hrun as <- <-.
    apply (bool_decide_unpack _). reflexivity.
Defined.
