(* ===== verification/GoList.v ===== *)
(** * container/list

    The part of Go's doubly-linked list the policies use.  An element is an
    address (a [nat] the owner of the lists allocates) and the value it
    carries; a list is its elements from front to back.  [Remove] and
    [MoveToFront] do nothing for an element that is not of the list, as in Go. *)
From S2P Require Import Prelude.

Abbreviation Element := nat.

Abbreviation List V := (list (Element * V)).

Section golist.
Context {V : Type}.
Implicit Types (l : List V) (id : Element) (v : V).

Fixpoint elem_value id l : option V :=
  match l with
  | [] => None
  | (i, v) :: l => if decide (i = id) then Some v else elem_value id l
  end.

Definition PushFront id v l : List V := (id, v) :: l.
Definition Remove id l : List V := filter (λ x, x.1 ≠ id) l.
Definition MoveToFront id l : List V :=
  match elem_value id l with
  | Some v => PushFront id v (Remove id l)
  | None => l
  end.
Definition Front l : option (Element * V) := head l.
Definition Back l : option (Element * V) := last l.

(** A store through [el.Value], a pointer. *)
Definition set_value id (f : V → V) l : List V :=
  (λ x, if decide (x.1 = id) then (x.1, f x.2) else x) <$> l.

(** The loop [for e := l.Back(); e != nil; e = e.Prev()]. *)
Definition backwards l : List V := reverse l.

Lemma elem_value_Some id l v :
  NoDup l.*1 → elem_value id l = Some v ↔ (id, v) ∈ l.
Proof.
  induction l as [|[i w] l IH]; simpl; intros Hnd; [set_solver|].
  apply NoDup_cons in Hnd as [Hi Hnd]. rewrite elem_of_cons. case_decide; subst.
  - split; [intros [= ->]; by left|]. intros [[= <-]|Hin]; [done|].
    destruct Hi. apply list_elem_of_fmap. by exists (id, v).
  - rewrite IH by done. naive_solver.
Qed.

Lemma elem_of_Remove id l x : x ∈ Remove id l ↔ x ∈ l ∧ x.1 ≠ id.
Proof. unfold Remove. rewrite list_elem_of_filter. tauto. Qed.

Lemma NoDup_Remove id l : NoDup l.*1 → NoDup (Remove id l).*1.
Proof. apply NoDup_filter_fst. Qed.

Lemma Remove_not_in id l : id ∉ (Remove id l).*1.
Proof. rewrite list_elem_of_fmap. intros (x & -> & [_ ?]%elem_of_Remove). done. Qed.

Lemma Remove_head id v l : NoDup ((id, v) :: l).*1 → Remove id ((id, v) :: l) = l.
Proof.
  intros [Hi _]%NoDup_cons. unfold Remove. rewrite filter_cons_False by (simpl; tauto).
  apply filter_all. intros [j v'] Hj Heq; simpl in *; subst j.
  apply Hi, list_elem_of_fmap. by exists (id, v').
Qed.

Lemma length_Remove id l :
  NoDup l.*1 → id ∈ l.*1 → S (length (Remove id l)) = length l.
Proof.
  induction l as [|[i w] l IH]; intros Hnd Hin; [set_solver|].
  pose proof Hnd as [Hi Hnd']%NoDup_cons. destruct (decide (i = id)) as [->|Hne].
  - by rewrite Remove_head by done.
  - unfold Remove. rewrite filter_cons_True by done. simpl. f_equal. apply IH; [done|].
    simpl in Hin. apply elem_of_cons in Hin as [->|]; [done|]. done.
Qed.

Lemma fst_set_value id f l : (set_value id f l).*1 = l.*1.
Proof.
  unfold set_value. rewrite <-list_fmap_compose. apply list_fmap_ext.
  intros ? [i v] _; simpl. by case_decide.
Qed.

Lemma elem_of_set_value id f l i v :
  (i, v) ∈ set_value id f l ↔
  ∃ v0, (i, v0) ∈ l ∧ v = if decide (i = id) then f v0 else v0.
Proof.
  unfold set_value. rewrite list_elem_of_fmap. split.
  - intros ([i' v0] & Heq & Hin); simpl in *. case_decide; simplify_eq; exists v0;
      by case_decide.
  - intros (v0 & Hin & ->). exists (i, v0); simpl. split; [by case_decide|done].
Qed.

Lemma elem_of_MoveToFront id l x :
  NoDup l.*1 → x ∈ MoveToFront id l ↔ x ∈ l.
Proof.
  intros Hnd. unfold MoveToFront. destruct (elem_value id l) as [v|] eqn:E; [|done].
  apply elem_value_Some in E; [|done]. unfold PushFront.
  rewrite elem_of_cons, elem_of_Remove. destruct x as [i w]; simpl. split.
  - naive_solver.
  - intros Hin. destruct (decide (i = id)) as [->|]; [|by right].
    left. f_equal. by eapply NoDup_fst_eq.
Qed.

Lemma NoDup_MoveToFront id l : NoDup l.*1 → NoDup (MoveToFront id l).*1.
Proof.
  intros Hnd. unfold MoveToFront. case_all; [|done].
  constructor; [apply Remove_not_in|by apply NoDup_Remove].
Qed.

Lemma length_MoveToFront id l : NoDup l.*1 → length (MoveToFront id l) = length l.
Proof.
  intros Hnd. unfold MoveToFront. destruct (elem_value id l) as [v|] eqn:E; [|done].
  simpl. apply length_Remove; [done|]. apply elem_value_Some in E; [|done].
  apply list_elem_of_fmap. by exists (id, v).
Qed.
End golist.

#[export] Hint Resolve NoDup_Remove NoDup_MoveToFront Remove_not_in : go.
#[export] Hint Rewrite @fst_set_value @elem_of_Remove : go.
