(* ===== verification/Policy.v ===== *)
(** * cache/policy/policy.go: the EvictionPolicy interface

    [EvictionPolicy] has the methods of the Go interface, each as a function on
    the policy's state; a method that can panic or loop returns an [outcome].
    [LawfulPolicy] is what the cache core relies on: the policy stands for a
    map from the resident keys to the entry pointers it was given, and every
    method returns and acts on that map as the hooks say. *)
From S2P Require Import Prelude GoFloat Types.

(** Passing [None] for an entry is passing nil. *)
Class EvictionPolicy (P : Type) := {
  Name : P → PolicyName;
  OnAccess : string → option eptr → P → outcome P;
  OnInsert : string → option eptr → P → outcome P;
  OnRemove : string → option eptr → P → outcome P;
  Victim : P → outcome (P * option string);
  Candidates : Z → P → outcome (P * list string);
  ShouldAdmit : string → Z → P → bool;
  Params : P → gmap string Param;
  SetParam : string → float64 → P → param_error + P;
  Rebuild : list (eptr * Entry) → P → outcome P;
  MetadataBytes : P → P * Z;
  Reset : P → P;
}.

(** What [Rebuild] adopts: the key of each entry and its address. *)
Definition entries_map (entries : list (eptr * Entry)) : gmap string (option eptr) :=
  list_to_map ((λ x, (Key x.2, Some x.1)) <$> entries).

Definition entry_keys (entries : list (eptr * Entry)) : list string :=
  (λ x, Key x.2) <$> entries.

Class LawfulPolicy (P : Type) `{EvictionPolicy P} := {
  (** the keys the policy can hold *)
  key_ok : string → Prop;
  represents : P → gmap string (option eptr) → Prop;
  law_OnAccess k e p m : represents p m →
    ∃ p', OnAccess k e p = Ret p' ∧ represents p' m;
  law_OnInsert k e p m : represents p m → key_ok k →
    ∃ p', OnInsert k e p = Ret p' ∧ represents p' (<[k := e]> m);
  law_OnRemove k e p m : represents p m →
    ∃ p', OnRemove k e p = Ret p' ∧ represents p' (delete k m);
  law_Victim p m : represents p m →
    ∃ p' r, Victim p = Ret (p', r) ∧ represents p' m ∧
      match r with Some k => is_Some (m !! k) | None => m = ∅ end;
  law_Candidates n p m : represents p m →
    ∃ p' ks, Candidates n p = Ret (p', ks) ∧ represents p' m ∧
      ∀ k, k ∈ ks → is_Some (m !! k);
  law_SetParam name v p m p' : represents p m → SetParam name v p = inr p' → represents p' m;
  law_Rebuild entries p m : represents p m → NoDup (entry_keys entries) →
    Forall key_ok (entry_keys entries) →
    ∃ p', Rebuild entries p = Ret p' ∧ represents p' (entries_map entries);
  law_MetadataBytes p m : represents p m → represents (MetadataBytes p).1 m;
  law_Reset p m : represents p m → represents (Reset p) ∅;
}.

(** The bookkeeping hooks as a history, to state what a policy does over a run. *)
Inductive hook :=
| HAccess (k : string) (e : option eptr)
| HInsert (k : string) (e : option eptr)
| HRemove (k : string) (e : option eptr).

Definition run_hook `{EvictionPolicy P} (h : hook) (p : P) : outcome P :=
  match h with
  | HAccess k e => OnAccess k e p
  | HInsert k e => OnInsert k e p
  | HRemove k e => OnRemove k e p
  end.

Definition run_hooks `{EvictionPolicy P} : list hook → P → outcome P := for_each run_hook.

(** The keys a history leaves tracked, with the pointers given last. *)
Definition hook_effect (h : hook) (m : gmap string (option eptr)) : gmap string (option eptr) :=
  match h with
  | HAccess _ _ => m
  | HInsert k e => <[k := e]> m
  | HRemove k _ => delete k m
  end.

Definition hook_key_ok `{LawfulPolicy P} (h : hook) : Prop :=
  match h with HInsert k _ => key_ok k | _ => True end.

Lemma entry_keys_cons x es : entry_keys (x :: es) = Key x.2 :: entry_keys es.
Proof. done. Qed.

Lemma entries_map_lookup es k e :
  NoDup (entry_keys es) →
  entries_map es !! k = Some e ↔ ∃ x, x ∈ es ∧ Key x.2 = k ∧ Some x.1 = e.
Proof.
  intros Hnd. unfold entries_map. rewrite <-elem_of_list_to_map.
  - rewrite list_elem_of_fmap. naive_solver.
  - rewrite <-list_fmap_compose. exact Hnd.
Qed.

Lemma entries_map_dom es k : NoDup (entry_keys es) →
  is_Some (entries_map es !! k) ↔ k ∈ entry_keys es.
Proof.
  intros Hnd. unfold is_Some. setoid_rewrite entries_map_lookup; [|done].
  unfold entry_keys. rewrite list_elem_of_fmap. naive_solver.
Qed.

Section lawful.
Context `{LawfulPolicy P}.

Lemma run_hook_represents h p m :
  represents p m → hook_key_ok h →
  ∃ p', run_hook h p = Ret p' ∧ represents p' (hook_effect h m).
Proof.
  destruct h; simpl; intros Hr Hk;
    eauto using law_OnAccess, law_OnInsert, law_OnRemove.
Qed.

Lemma run_hooks_represents hs p m :
  represents p m → Forall hook_key_ok hs →
  ∃ p', run_hooks hs p = Ret p' ∧ represents p' (foldl (flip hook_effect) m hs).
Proof.
  intros Hr Hok. unfold run_hooks. revert p m Hr.
  induction Hok as [|h hs Hh _ IH]; intros p m Hr; [eexists; done|]. cbn [for_each foldl].
  destruct (run_hook_represents h p m Hr Hh) as (p1 & -> & Hr1). apply (IH p1 _ Hr1).
Qed.
End lawful.
