(* ===== verification/LRU.v ===== *)
(** * cache/policy/lru.go: least recently used

    The recency list [ll] (front is most recent), the index [items] from keys
    to elements of it, and the two counters.  [lru_inv] says that the index
    and the list agree; the list of keys [recency] is the abstract state. *)
From S2P Require Import Prelude GoFloat Types GoList Policy.

Record lruNode := { key : string; e : option eptr }.

Record LRU := {
  ll : List lruNode;
  items : gmap string Element;
  n : Z;
  metadata : Z;
  next_el : Element;  (* the next address container/list allocates *)
}.

Definition lruPerEntryBytes : Z := 64.

Definition NewLRU : LRU :=
  {| ll := []; items := ∅; n := 0; metadata := 0; next_el := 0%nat |}.

Definition Name (p : LRU) : PolicyName := PolicyLRU.

Definition OnAccess (k : string) (_ : option eptr) (p : LRU) : LRU :=
  match items p !! k with
  | Some el => {| ll := MoveToFront el (ll p); items := items p; n := n p;
                  metadata := metadata p; next_el := next_el p |}
  | None => p
  end.

Definition OnInsert (k : string) (ent : option eptr) (p : LRU) : LRU :=
  match items p !! k with
  | Some el =>
      {| ll := set_value el (λ nd, {| key := key nd; e := ent |}) (ll p); items := items p;
         n := n p; metadata := metadata p; next_el := next_el p |}
  | None =>
      let el := next_el p in
      {| ll := PushFront el {| key := k; e := ent |} (ll p);
         items := <[k := el]> (items p);
         n := n p + 1;
         metadata := i64 (metadata p + lruPerEntryBytes);
         next_el := S (next_el p) |}
  end.

Definition OnRemove (k : string) (_ : option eptr) (p : LRU) : LRU :=
  match items p !! k with
  | Some el =>
      {| ll := Remove el (ll p); items := delete k (items p); n := n p - 1;
         metadata := i64 (metadata p - lruPerEntryBytes); next_el := next_el p |}
  | None => p
  end.

Definition Victim (p : LRU) : option string :=
  match Back (ll p) with
  | None => None
  | Some el => Some (key el.2)
  end.

Definition Candidates (cnt : Z) (p : LRU) : list string :=
  if (cnt <=? 0) || (n p =? 0) then []
  else
    let cnt := if cnt >? n p then n p else cnt in
    (λ el, key el.2) <$> take (Z.to_nat cnt) (backwards (ll p)).

Definition ShouldAdmit (_ : string) (_ : Z) (_ : LRU) : bool := true.

Definition Params (_ : LRU) : gmap string Param := ∅.

Definition SetParam (name : string) (_ : float64) (_ : LRU) : param_error + LRU :=
  inl (NoSuchParameter "lru" name).

Definition rebuild_step (x : eptr * Entry) (p : LRU) : LRU :=
  let el := next_el p in
  {| ll := PushFront el {| key := Key x.2; e := Some x.1 |} (ll p);
     items := <[Key x.2 := el]> (items p);
     n := n p + 1;
     metadata := i64 (metadata p + lruPerEntryBytes);
     next_el := S (next_el p) |}.

Definition Reset (p : LRU) : LRU :=
  {| ll := []; items := ∅; n := 0; metadata := 0; next_el := next_el p |}.

Definition Rebuild (entries : list (eptr * Entry)) (p : LRU) : LRU :=
  foldl (flip rebuild_step) (Reset p) entries.

Definition MetadataBytes (p : LRU) : LRU * Z :=
  let md := if metadata p =? 0 then i64 (n p * lruPerEntryBytes) else metadata p in
  ({| ll := ll p; items := items p; n := n p; metadata := md; next_el := next_el p |}, md).

#[global] Instance lru_policy : EvictionPolicy LRU := {
  Policy.Name := Name;
  Policy.OnAccess k e p := Ret (OnAccess k e p);
  Policy.OnInsert k e p := Ret (OnInsert k e p);
  Policy.OnRemove k e p := Ret (OnRemove k e p);
  Policy.Victim p := Ret (p, Victim p);
  Policy.Candidates cnt p := Ret (p, Candidates cnt p);
  Policy.ShouldAdmit := ShouldAdmit;
  Policy.Params := Params;
  Policy.SetParam := SetParam;
  Policy.Rebuild entries p := Ret (Rebuild entries p);
  Policy.MetadataBytes := MetadataBytes;
  Policy.Reset := Reset;
}.

(** ** The invariant *)

Record lru_inv (p : LRU) : Prop := {
  lru_nodup : NoDup (ll p).*1;
  lru_alloc : Forall (λ x, (x.1 < next_el p)%nat) (ll p);
  lru_items k el : items p !! k = Some el ↔ ∃ ent, (el, {| key := k; e := ent |}) ∈ ll p;
  lru_n : n p = Z.of_nat (length (ll p));
  lru_meta : metadata p = i64 (lruPerEntryBytes * n p);
}.

(** The abstract state: the keys from most to least recently used. *)
Definition recency (p : LRU) : list string := (λ x, key x.2) <$> ll p.

Definition lru_represents (p : LRU) (m : gmap string (option eptr)) : Prop :=
  lru_inv p ∧ ∀ k ent, m !! k = Some ent ↔ ∃ el, (el, {| key := k; e := ent |}) ∈ ll p.

Lemma lru_key_inj p x y :
  lru_inv p → x ∈ ll p → y ∈ ll p → key x.2 = key y.2 → x = y.
Proof.
  intros Hi Hx Hy Hk. destruct x as [i [k a]], y as [j [k' b]]; simpl in *; subst k'.
  assert (items p !! k = Some i) as Hi1 by (apply lru_items; eauto).
  assert (items p !! k = Some j) as Hi2 by (apply lru_items; eauto).
  assert (i = j) as <- by congruence. f_equal.
  by eapply NoDup_fst_eq; [apply Hi|..].
Qed.

Lemma NoDup_recency p : lru_inv p → NoDup (recency p).
Proof.
  intros Hi. unfold recency. apply NoDup_fmap_2_strong.
  - intros x y Hx Hy. by eapply lru_key_inj.
  - eapply NoDup_fmap_1, lru_nodup, Hi.
Qed.

Lemma lru_items_None p k : lru_inv p → items p !! k = None ↔ k ∉ recency p.
Proof.
  intros Hi. rewrite eq_None_not_Some. unfold is_Some, recency.
  setoid_rewrite lru_items; [|done]. rewrite list_elem_of_fmap. split; intros Hn Hex; apply Hn.
  - destruct Hex as ([el [k' ent]] & -> & ?); simpl. eauto.
  - destruct Hex as (el & ent & ?). by exists (el, {| key := k; e := ent |}).
Qed.

(** Membership in the list after each kind of update. *)
Lemma lru_replace_elem p k el ent i nd :
  lru_inv p → items p !! k = Some el →
  (i, nd) ∈ set_value el (λ nd, {| key := key nd; e := ent |}) (ll p) ↔
  (key nd = k ∧ i = el ∧ e nd = ent) ∨ (key nd ≠ k ∧ (i, nd) ∈ ll p).
Proof.
  intros Hi Hel. apply lru_items in Hel as [ent0 Hel]; [|done].
  rewrite elem_of_set_value. split.
  - intros (v0 & Hin & ->). case_decide; subst.
    + left. assert (v0 = {| key := k; e := ent0 |}) as ->; [|done].
      eapply NoDup_fst_eq; [apply Hi|..]; done.
    + right. split; [|done]. intros Hk. assert ((i, v0) = (el, {| key := k; e := ent0 |})); [|congruence].
      by eapply lru_key_inj.
  - destruct nd as [k' ent']; simpl. intros [(-> & -> & ->)|[Hk Hin]].
    + eexists. split; [exact Hel|]. by rewrite decide_True by done.
    + eexists. split; [exact Hin|]. rewrite decide_False; [done|]. intros ->.
      eapply Hk. assert ({| key := k'; e := ent' |} = {| key := k; e := ent0 |}); [|congruence].
      eapply NoDup_fst_eq; [apply Hi|..]; done.
Qed.

Lemma lru_remove_elem p k el i nd :
  lru_inv p → items p !! k = Some el →
  (i, nd) ∈ Remove el (ll p) ↔ key nd ≠ k ∧ (i, nd) ∈ ll p.
Proof.
  intros Hi Hel. apply lru_items in Hel as [ent0 Hel]; [|done].
  rewrite elem_of_Remove. simpl. split; intros [H1 H2]; split; try done.
  - intros <-. apply H2.
    assert ((i, nd) = (el, {| key := key nd; e := ent0 |})); [|congruence]. by eapply lru_key_inj.
  - intros ->. apply H1. assert (nd = {| key := k; e := ent0 |}) as ->; [|done].
    eapply NoDup_fst_eq; [apply Hi|..]; done.
Qed.

Lemma lru_el_in p k el : lru_inv p → items p !! k = Some el → el ∈ (ll p).*1.
Proof.
  intros Hi [ent ?]%lru_items; [|done]. apply list_elem_of_fmap. by eexists (el, _).
Qed.

(** ** Every operation preserves the representation *)

Lemma lru_represents_New : lru_represents NewLRU ∅.
Proof.
  split; [split; simpl; try done|].
  - constructor.
  - intros k el. rewrite lookup_empty. set_solver.
  - intros k ent. rewrite lookup_empty. set_solver.
Qed.

Lemma lru_represents_OnAccess k ent p m :
  lru_represents p m → lru_represents (OnAccess k ent p) m.
Proof.
  intros [Hi Hm]. unfold OnAccess. destruct (items p !! k) as [el|]; [|done].
  pose proof (lru_nodup _ Hi) as Hnd.
  assert (Hmem : ∀ x, x ∈ MoveToFront el (ll p) ↔ x ∈ ll p) by (intros; by apply elem_of_MoveToFront).
  split; [split; simpl|]; simpl.
  - by apply NoDup_MoveToFront.
  - apply Forall_forall. intros x Hx%Hmem. by eapply Forall_forall in Hx; [|apply Hi].
  - intros k' el'. rewrite (lru_items p) by done. by setoid_rewrite Hmem.
  - rewrite length_MoveToFront by done. apply Hi.
  - apply Hi.
  - intros k' ent'. rewrite Hm. by setoid_rewrite Hmem.
Qed.

Lemma lru_represents_push k ent p m :
  lru_represents p m → m !! k = None →
  lru_represents
    {| ll := PushFront (next_el p) {| key := k; e := ent |} (ll p);
       items := <[k := next_el p]> (items p); n := n p + 1;
       metadata := i64 (metadata p + lruPerEntryBytes); next_el := S (next_el p) |}
    (<[k := ent]> m).
Proof.
  intros [Hi Hm] Hk. pose proof (lru_alloc _ Hi) as Hal. rewrite Forall_forall in Hal.
  assert (Hnot : ∀ el ent', (el, {| key := k; e := ent' |}) ∉ ll p).
  { intros el ent' Hin. rewrite (proj2 (Hm k ent')) in Hk; [done|]. eauto. }
  split; [split; simpl|]; unfold PushFront; simpl.
  - constructor; [|apply Hi]. rewrite list_elem_of_fmap. intros (x & Hx & Hin%Hal). lia.
  - apply Forall_cons. simpl. split; [lia|]. apply Forall_forall. intros x Hx%Hal. lia.
  - intros k' el'. setoid_rewrite elem_of_cons. rewrite lookup_insert_Some, lru_items by done.
    destruct (decide (k = k')) as [<-|]; naive_solver.
  - rewrite Nat2Z.inj_succ, (lru_n p) by done. lia.
  - rewrite (lru_meta p) by done. rewrite i64_add_l. f_equal. unfold lruPerEntryBytes. lia.
  - intros k' ent'. setoid_rewrite elem_of_cons. rewrite lookup_insert_Some, Hm.
    destruct (decide (k = k')) as [<-|]; naive_solver.
Qed.

Lemma lru_represents_OnInsert k ent p m :
  lru_represents p m → lru_represents (OnInsert k ent p) (<[k := ent]> m).
Proof.
  intros Hr. pose proof Hr as [Hi Hm]. unfold OnInsert. destruct (items p !! k) as [el|] eqn:Hel.
  - split; [split; simpl|]; simpl.
    + rewrite fst_set_value. apply Hi.
    + apply (Forall_fmap fst (λ i, (i < next_el p)%nat)). rewrite fst_set_value. apply Forall_fmap, Hi.
    + intros k' el'. setoid_rewrite (lru_replace_elem p k el ent); [|done..]. simpl.
      destruct (decide (k' = k)) as [->|Hk'].
      * rewrite Hel. split; [intros [= <-]; naive_solver|naive_solver].
      * rewrite lru_items by done. naive_solver.
    + unfold set_value. rewrite length_fmap. apply Hi.
    + apply Hi.
    + intros k' ent'. setoid_rewrite (lru_replace_elem p k el ent); [|done..]. simpl.
      rewrite lookup_insert_Some, Hm. naive_solver.
  - apply lru_represents_push; [done|]. apply eq_None_not_Some. intros [e0 [el He]%Hm].
    assert (items p !! k = Some el) by (apply lru_items; eauto). congruence.
Qed.

Lemma lru_represents_OnRemove k ent p m :
  lru_represents p m → lru_represents (OnRemove k ent p) (delete k m).
Proof.
  intros [Hi Hm]. unfold OnRemove. destruct (items p !! k) as [el|] eqn:Hel.
  - pose proof (lru_remove_elem p k el) as Hrem. split; [split; simpl|]; simpl.
    + apply NoDup_Remove, Hi.
    + apply Forall_forall. intros x [Hx _]%elem_of_Remove.
      by eapply Forall_forall in Hx; [|apply Hi].
    + intros k' el'. setoid_rewrite Hrem; [|done..]. simpl.
      rewrite lookup_delete_Some, lru_items by done. naive_solver.
    + rewrite (lru_n p) by done. rewrite <-(length_Remove el (ll p)); [lia|apply Hi|by eapply lru_el_in].
    + rewrite (lru_meta p) by done. rewrite i64_sub_l. f_equal. unfold lruPerEntryBytes. lia.
    + intros k' ent'. setoid_rewrite Hrem; [|done..]. simpl. rewrite lookup_delete_Some, Hm. naive_solver.
  - rewrite delete_id; [done|]. apply eq_None_not_Some. intros [e0 [el He]%Hm].
    assert (items p !! k = Some el) by (apply lru_items; eauto). congruence.
Qed.

Lemma lru_represents_Reset p : lru_represents (Reset p) ∅.
Proof.
  split; [split; simpl; try done|].
  - constructor.
  - intros k el. rewrite lookup_empty. set_solver.
  - intros k ent. rewrite lookup_empty. set_solver.
Qed.

Lemma foldl_rebuild es p m :
  lru_represents p m → NoDup (entry_keys es) →
  (∀ k, k ∈ entry_keys es → m !! k = None) →
  ∃ m', lru_represents (foldl (flip rebuild_step) p es) m' ∧
    (∀ k e, m' !! k = Some e ↔ m !! k = Some e ∨ ∃ x, x ∈ es ∧ Key x.2 = k ∧ Some x.1 = e) ∧
    recency (foldl (flip rebuild_step) p es) = reverse (entry_keys es) ++ recency p.
Proof.
  revert p m. induction es as [|x es IH]; intros p m Hr Hnd Hnew.
  - exists m. split_and!; [done| |done]. set_solver.
  - rewrite entry_keys_cons, NoDup_cons in Hnd. destruct Hnd as [Hx Hnd].
    cbn [foldl flip]. destruct (IH (rebuild_step x p) (<[Key x.2 := Some x.1]> m))
      as (m' & Hr' & Hm' & Hrec); [|done| |].
    + apply lru_represents_push; [done|]. apply Hnew. rewrite entry_keys_cons. left.
    + intros k Hk. rewrite lookup_insert_ne by (intros <-; done). apply Hnew.
      rewrite entry_keys_cons. by right.
    + exists m'. split_and!; [done| |].
      * intros k e0. rewrite Hm', lookup_insert_Some. setoid_rewrite elem_of_cons.
        assert (Hn : m !! Key x.2 = None) by (apply Hnew; rewrite entry_keys_cons; left).
        destruct (decide (Key x.2 = k)) as [<-|]; naive_solver.
      * rewrite Hrec, entry_keys_cons, reverse_cons, <-app_assoc. done.
Qed.

Lemma lru_represents_Rebuild es p :
  NoDup (entry_keys es) →
  lru_represents (Rebuild es p) (entries_map es) ∧ recency (Rebuild es p) = reverse (entry_keys es).
Proof.
  intros Hnd. destruct (foldl_rebuild es (Reset p) ∅) as (m' & Hr & Hm & Hrec).
  - apply lru_represents_Reset.
  - done.
  - intros. apply lookup_empty.
  - split; [|unfold Rebuild; by rewrite Hrec, app_nil_r].
    assert (m' = entries_map es) as <-; [|done]. apply map_eq. intros k. apply option_eq. intros e0.
    rewrite Hm, entries_map_lookup by done. rewrite lookup_empty. naive_solver.
Qed.

Lemma lru_represents_MetadataBytes p m :
  lru_represents p m → lru_represents (MetadataBytes p).1 m.
Proof.
  intros [Hi Hm]. split; [|done]. destruct Hi as [? ? ? ? Hmd]. unfold MetadataBytes; split; simpl; try done.
  case_match; [|done]. f_equal. lia.
Qed.

(** Asking a sound policy for its metadata changes nothing: the count is kept,
    and computed again only when it is 0. *)
Lemma lru_metadata_same p m : lru_represents p m → (MetadataBytes p).1 = p.
Proof.
  intros [Hi _]. pose proof (lru_meta p Hi) as Hmd. destruct p. unfold MetadataBytes. cbn in *. f_equal.
  destruct (Z.eqb_spec metadata0 0); [|done]. rewrite Z.mul_comm. by symmetry.
Qed.

Lemma lru_victim_spec p : Victim p = last (recency p).
Proof.
  unfold Victim, Back, recency. rewrite fmap_last. by destruct (last (ll p)) as [[]|].
Qed.

Lemma elem_of_recency p m k : lru_represents p m → k ∈ recency p ↔ is_Some (m !! k).
Proof.
  intros [Hi Hm]. unfold recency, is_Some. setoid_rewrite Hm. rewrite list_elem_of_fmap. split.
  - intros ([el [k' ent]] & -> & Hin); simpl. eauto.
  - intros (ent & el & Hin). by exists (el, {| key := k; e := ent |}).
Qed.

Lemma elem_of_Candidates cnt p m k :
  lru_represents p m → k ∈ Candidates cnt p → is_Some (m !! k).
Proof.
  intros Hr. rewrite <-elem_of_recency by done. unfold Candidates, recency, backwards.
  case_match; [set_solver|]. rewrite !list_elem_of_fmap.
  intros (x & -> & Hx%elem_of_take). destruct Hx as (i & Hx%list_elem_of_lookup_2 & _).
  exists x. by rewrite elem_of_reverse in Hx.
Qed.

#[global, refine] Instance lru_lawful : LawfulPolicy LRU := {
  key_ok _ := True;
  represents := lru_represents;
}.
Proof.
  - intros k ent p m Hr. eexists; split; [done|]. by apply lru_represents_OnAccess.
  - intros k ent p m Hr _. eexists; split; [done|]. by apply lru_represents_OnInsert.
  - intros k ent p m Hr. eexists; split; [done|]. by apply lru_represents_OnRemove.
  - intros p m Hr. do 2 eexists; split; [done|]; split; [done|]. rewrite lru_victim_spec.
    destruct (last (recency p)) as [k|] eqn:Hl.
    + rewrite <-elem_of_recency by done. by apply last_Some_elem_of.
    + apply map_empty. intros k. apply eq_None_not_Some. rewrite <-elem_of_recency by done.
      apply last_None in Hl as ->. set_solver.
  - intros cnt p m Hr. do 2 eexists; split; [done|]; split; [done|].
    intros k. by apply elem_of_Candidates.
  - discriminate.
  - intros es p m _ Hnd _. eexists; split; [done|]. by apply lru_represents_Rebuild.
  - apply lru_represents_MetadataBytes.
  - intros. apply lru_represents_Reset.
Defined.

(** ** Recency: the policy as a list of keys

    The reference definition of least recently used: the state is the list of
    keys, most recent first; an access moves the key to the front, a new key is
    pushed at the front, a re-inserted key keeps its place. *)
Definition spec_access (k : string) (l : list string) : list string :=
  if decide (k ∈ l) then k :: filter (.≠ k) l else l.
Definition spec_insert (k : string) (l : list string) : list string :=
  if decide (k ∈ l) then l else k :: l.
Definition spec_remove (k : string) (l : list string) : list string := filter (.≠ k) l.

Definition spec_hook (h : hook) (l : list string) : list string :=
  match h with
  | HAccess k _ => spec_access k l
  | HInsert k _ => spec_insert k l
  | HRemove k _ => spec_remove k l
  end.

Lemma recency_Remove p k el :
  lru_inv p → items p !! k = Some el →
  (λ x, key x.2) <$> Remove el (ll p) = filter (.≠ k) (recency p).
Proof.
  intros Hi Hel. unfold Remove, recency. apply fmap_filter. intros [i nd] Hin; simpl.
  pose proof (lru_remove_elem p k el i nd Hi Hel) as Hrem. rewrite elem_of_Remove in Hrem.
  simpl in Hrem. tauto.
Qed.

Lemma recency_OnAccess k ent p :
  lru_inv p → recency (OnAccess k ent p) = spec_access k (recency p).
Proof.
  intros Hi. unfold OnAccess, spec_access. destruct (items p !! k) as [el|] eqn:Hel.
  - rewrite decide_True; [|destruct (decide (k ∈ recency p)) as [|Hn]; [done|]; apply lru_items_None in Hn; [congruence|done]].
    unfold recency at 1; simpl. unfold MoveToFront.
    apply lru_items in Hel as Hel'; [|done]. destruct Hel' as [ent0 Hin].
    apply elem_value_Some in Hin; [|apply Hi]. rewrite Hin. simpl. f_equal. by apply recency_Remove.
  - rewrite decide_False by (by apply lru_items_None). done.
Qed.

Lemma recency_OnInsert k ent p :
  lru_inv p → recency (OnInsert k ent p) = spec_insert k (recency p).
Proof.
  intros Hi. unfold OnInsert, spec_insert. destruct (items p !! k) as [el|] eqn:Hel.
  - rewrite decide_True; [|destruct (decide (k ∈ recency p)) as [|Hn]; [done|]; apply lru_items_None in Hn; [congruence|done]].
    unfold recency, set_value; simpl. rewrite <-list_fmap_compose. apply list_fmap_ext.
    intros i [j nd] _; simpl. by case_decide.
  - rewrite decide_False by (by apply lru_items_None). done.
Qed.

Lemma recency_OnRemove k ent p :
  lru_inv p → recency (OnRemove k ent p) = spec_remove k (recency p).
Proof.
  intros Hi. unfold OnRemove, spec_remove. destruct (items p !! k) as [el|] eqn:Hel.
  - by apply recency_Remove.
  - symmetry. apply filter_all. intros j Hj ->. by apply (lru_items_None p k Hi) in Hel.
Qed.

Lemma lru_candidates_spec cnt p :
  lru_inv p → Candidates cnt p = take (Z.to_nat cnt) (reverse (recency p)).
Proof.
  intros Hi. unfold Candidates, recency, backwards. rewrite <-fmap_reverse, <-fmap_take.
  pose proof (lru_n p Hi) as Hn. destruct (Z.leb_spec cnt 0); simpl.
  - by replace (Z.to_nat cnt) with 0%nat by lia.
  - destruct (Z.eqb_spec (n p) 0).
    + destruct (ll p); [|simpl in *; lia]. by rewrite reverse_nil, take_nil.
    + destruct (Z.gtb_spec cnt (n p)); [|done].
      rewrite !take_ge; [done|..]; rewrite length_reverse; lia.
Qed.

Lemma lru_run_hooks hs p m :
  lru_represents p m →
  ∃ p', run_hooks hs p = Ret p' ∧ lru_represents p' (foldl (flip hook_effect) m hs) ∧
    recency p' = foldl (flip spec_hook) (recency p) hs.
Proof.
  unfold run_hooks. revert p m. induction hs as [|h hs IH]; intros p m Hr; [by eexists|].
  pose proof Hr as [Hi _].
  assert (∃ p1, run_hook h p = Ret p1 ∧ lru_represents p1 (hook_effect h m) ∧
                recency p1 = spec_hook h (recency p)) as (p1 & Hrun & Hr1 & Hrec1).
  { destruct h; simpl; eexists; (split; [done|]);
      eauto using lru_represents_OnAccess, lru_represents_OnInsert, lru_represents_OnRemove,
        recency_OnAccess, recency_OnInsert, recency_OnRemove. }
  destruct (IH p1 _ Hr1) as (p' & Hrun' & Hr' & Hrec').
  exists p'. cbn [for_each foldl]. rewrite Hrun. simpl. split; [done|]. split; [done|].
  by rewrite Hrec', Hrec1.
Qed.

(** C10: LRU refines the recency list.  After any history of hooks from
    [NewLRU], the policy has not panicked, its list is the reference recency
    list of the history, [Victim] is its last key, [Candidates n] are its last
    [n] keys, least recent first, and [MetadataBytes] is 64 bytes a key. *)
Theorem lru_refines_recency_list hs cnt :
  let l := foldl (flip spec_hook) [] hs in
  ∃ p, run_hooks hs NewLRU = Ret p ∧ recency p = l ∧ NoDup l ∧
    Victim p = last l ∧
    Candidates cnt p = take (Z.to_nat cnt) (reverse l) ∧
    (MetadataBytes p).2 = i64 (64 * Z.of_nat (length l)).
Proof.
  intros l. destruct (lru_run_hooks hs NewLRU ∅ lru_represents_New) as (p & Hrun & [Hi _] & Hrec).
  change (recency NewLRU) with (@nil string) in Hrec. fold l in Hrec.
  exists p. rewrite <-Hrec. split_and!; [done|done|by apply NoDup_recency|apply lru_victim_spec|by apply lru_candidates_spec|].
  unfold MetadataBytes; simpl. unfold recency. rewrite length_fmap, <-(lru_n p Hi).
  case_match; [f_equal; unfold lruPerEntryBytes; lia|apply Hi].
Qed.
