(* ===== verification/LFU.v ===== *)
(** * cache/policy/lfu.go: least frequently used, with ageing

    Frequency buckets (a map from frequency to a list, newest at the front),
    the index [items] from keys to their element and frequency, and the ageing
    counters.  The buckets are visited by [range] statements over a map in
    [ageLocked] and [lowestFreqLocked]; [ranges] counts the ageing passes, so
    each of them may visit the buckets in another order. *)
From S2P Require Import Prelude GoFloat Types GoList Policy.

Record lfuNode := { key : string; e : option eptr }.

Record lfuItem := { el : Element; freq : Z }.

Record LFU := {
  buckets : gmap Z (List lfuNode);
  items : gmap string lfuItem;
  n : Z;
  ageCnt : Z;
  ageMax : Z;
  decay : float64;
  metadata : Z;
  next_el : Element;   (* the next address container/list allocates *)
  ranges : nat;        (* ageing passes so far *)
}.

Definition maxLFUFreq : Z := Z.shiftl 1 16.
Definition lfuPerEntryBytes : Z := 64.

Definition defaultDecayLambda : float64 := f64_of_ratio 5 100.
Definition minDecayLambda : float64 := f64_zero.
Definition maxDecayLambda : float64 := f64_one.
Definition decayStep : float64 := f64_of_ratio 1 100.

Definition with_age (p : LFU) (cnt : Z) : LFU :=
  {| buckets := buckets p; items := items p; n := n p; ageCnt := cnt; ageMax := ageMax p;
     decay := decay p; metadata := metadata p; next_el := next_el p; ranges := ranges p |}.

Section lfu.
Context `{GoRuntime}.

Definition recomputeAgeMaxLocked (p : LFU) : LFU :=
  let k :=
    if f64_le (decay p) f64_zero then 0
    else
      let k := f64_to_u64 (f64_div f64_one (decay p)) in
      if k <? 1 then 1 else k in
  {| buckets := buckets p; items := items p; n := n p; ageCnt := ageCnt p; ageMax := k;
     decay := decay p; metadata := metadata p; next_el := next_el p; ranges := ranges p |}.

(** Under the mutex. *)
Definition recomputeAgeMax (p : LFU) : LFU := recomputeAgeMaxLocked p.

Definition NewLFU : LFU :=
  recomputeAgeMax
    {| buckets := ∅; items := ∅; n := 0; ageCnt := 0; ageMax := 0;
       decay := defaultDecayLambda; metadata := 0; next_el := 0%nat; ranges := 0%nat |}.

Definition Name (p : LFU) : PolicyName := PolicyLFU.

Definition Params (p : LFU) : gmap string Param :=
  {[ "decay_lambda" :=
       {| PName := "decay_lambda"; Min := minDecayLambda; Max := maxDecayLambda;
          Default := defaultDecayLambda; Current := decay p; Step := decayStep;
          Metric := "hit_rate" |} ]}.

Definition SetParam (name : string) (v : float64) (p : LFU) : param_error + LFU :=
  if decide (name ≠ "decay_lambda") then inl (NoSuchParameter "lfu" name)
  else if f64_lt v minDecayLambda || f64_gt v maxDecayLambda
  then inl (OutOfRange "decay_lambda" v minDecayLambda maxDecayLambda)
  else inr (recomputeAgeMaxLocked
         {| buckets := buckets p; items := items p; n := n p; ageCnt := 0;
            ageMax := ageMax p; decay := v; metadata := metadata p;
            next_el := next_el p; ranges := ranges p |}).

(** The bucket of a frequency, [list.New()] when there is none. *)
Definition bucket_or_new (bs : gmap Z (List lfuNode)) (f : Z) : List lfuNode :=
  default [] (bs !! f).

(** [bucket := p.buckets[f]], created when nil, then [bucket.PushFront(nd)]. *)
Definition bucket_push (f : Z) (i : Element) (nd : lfuNode) (bs : gmap Z (List lfuNode))
    : gmap Z (List lfuNode) :=
  <[f := PushFront i nd (bucket_or_new bs f)]> bs.

(** [bucket.Remove(el)], deleting the bucket when [bucket.Len() == 0]. *)
Definition bucket_remove (f : Z) (i : Element) (bs : gmap Z (List lfuNode))
    : gmap Z (List lfuNode) :=
  match bs !! f with
  | None => bs
  | Some bucket =>
      let bucket := Remove i bucket in
      if decide (bucket = []) then delete f bs else <[f := bucket]> bs
  end.

Definition incrementLocked (k : string) (it : lfuItem) (p : LFU) : outcome LFU :=
  let oldFreq := freq it in
  let newFreq := u32 (oldFreq + 1) in
  let newFreq := if newFreq >? maxLFUFreq then maxLFUFreq else newFreq in
  if oldFreq =? newFreq then Ret p
  else
    oldBucket ← or_panic (buckets p !! oldFreq);
    v ← or_panic (elem_value (el it) oldBucket);
    let bs := bucket_remove oldFreq (el it) (buckets p) in
    let el' := next_el p in
    Ret {| buckets := bucket_push newFreq el' v bs;
           items := <[k := {| el := el'; freq := newFreq |}]> (items p);
           n := n p; ageCnt := ageCnt p; ageMax := ageMax p; decay := decay p;
           metadata := metadata p; next_el := S (next_el p); ranges := ranges p |}.

(** The loop of [ageLocked] that empties [bucket] from its front into
    [newBucket], giving every item its new element and frequency. *)
Fixpoint move_all (newF : Z) (bucket newBucket : List lfuNode)
    (its : gmap string lfuItem) (nx : Element)
    : outcome (List lfuNode * gmap string lfuItem * Element) :=
  match bucket with
  | [] => Ret (newBucket, its, nx)
  | (_, node) :: bucket =>
      _ ← or_panic (its !! key node);
      move_all newF bucket (PushFront nx node newBucket)
        (<[key node := {| el := nx; freq := newF |}]> its) (S nx)
  end.

Definition halve (f : Z) : Z := let h := f `div` 2 in if h <? 1 then 1 else h.

Definition age_step (oldF : Z) (p : LFU) : outcome LFU :=
  let newF := halve oldF in
  if newF =? oldF then Ret p
  else
    bucket ← or_panic (buckets p !! oldF);
    let newBucket := bucket_or_new (buckets p) newF in
    '(nb, its, nx) ← move_all newF bucket newBucket (items p) (next_el p);
    Ret {| buckets := delete oldF (<[newF := nb]> (buckets p)); items := its; n := n p;
           ageCnt := ageCnt p; ageMax := ageMax p; decay := decay p;
           metadata := metadata p; next_el := nx; ranges := ranges p |}.

Definition ageLocked (p : LFU) : outcome LFU :=
  p' ← for_each age_step (range_keys (ranges p) (buckets p)) p;
  Ret {| buckets := buckets p'; items := items p'; n := n p'; ageCnt := ageCnt p';
         ageMax := ageMax p'; decay := decay p'; metadata := metadata p';
         next_el := next_el p'; ranges := S (ranges p') |}.

Definition OnAccess (k : string) (_ : option eptr) (p : LFU) : outcome LFU :=
  match items p !! k with
  | None => Ret p
  | Some it =>
      p ← incrementLocked k it p;
      if ageMax p >? 0 then
        let p := with_age p (u64 (ageCnt p + 1)) in
        if ageCnt p >=? ageMax p then
          p ← ageLocked p;
          Ret (with_age p 0)
        else Ret p
      else Ret p
  end.

Definition OnInsert (k : string) (ent : option eptr) (p : LFU) : outcome LFU :=
  match items p !! k with
  | Some it =>
      (* it.el.Value.(e) = ent, through the element's bucket *)
      b ← or_panic (buckets p !! freq it);
      let p := {| buckets := <[freq it := set_value (el it) (λ nd, {| key := key nd; e := ent |}) b]> (buckets p);
                  items := items p; n := n p; ageCnt := ageCnt p; ageMax := ageMax p;
                  decay := decay p; metadata := metadata p; next_el := next_el p;
                  ranges := ranges p |} in
      incrementLocked k it p
  | None =>
      let el' := next_el p in
      Ret {| buckets := bucket_push 1 el' {| key := k; e := ent |} (buckets p);
             items := <[k := {| el := el'; freq := 1 |}]> (items p);
             n := n p + 1; ageCnt := ageCnt p; ageMax := ageMax p; decay := decay p;
             metadata := i64 (metadata p + lfuPerEntryBytes);
             next_el := S (next_el p); ranges := ranges p |}
  end.

Definition OnRemove (k : string) (_ : option eptr) (p : LFU) : LFU :=
  match items p !! k with
  | None => p
  | Some it =>
      {| buckets := bucket_remove (freq it) (el it) (buckets p);
         items := delete k (items p); n := n p - 1; ageCnt := ageCnt p;
         ageMax := ageMax p; decay := decay p;
         metadata := i64 (metadata p - lfuPerEntryBytes);
         next_el := next_el p; ranges := ranges p |}
  end.

(** The body of the scan: [best], when [seen]. *)
Definition min_step (best : option Z) (f : Z) : option Z :=
  match best with
  | None => Some f
  | Some b => Some (if f <? b then f else b)
  end.

(** The scan for the smallest key of [buckets], 0 when there is none. *)
Definition lowestFreqLocked (p : LFU) : Z :=
  default 0 (foldl min_step None (range_keys (ranges p) (buckets p))).

Definition Victim (p : LFU) : outcome (option string) :=
  let lowest := lowestFreqLocked p in
  if lowest =? 0 then Ret None
  else
    bucket ← or_panic (buckets p !! lowest);
    match Back bucket with
    | None => Ret None
    | Some x => Ret (Some (key x.2))
    end.

(** [for len(out) < n], one bucket a turn; every turn looks the lowest bucket
    up again. *)
Fixpoint candidates_loop (fuel : nat) (cnt : nat) (out : list string) (p : LFU)
    : outcome (list string) :=
  if decide (length out < cnt)%nat then
    match fuel with
    | O => Diverge
    | S fuel =>
        let lowest := lowestFreqLocked p in
        if lowest =? 0 then Ret out
        else
          bucket ← or_panic (buckets p !! lowest);
          let out := out ++ take (cnt - length out) ((λ x, key x.2) <$> backwards bucket) in
          candidates_loop fuel cnt out p
    end
  else Ret out.

Definition Candidates (cnt : Z) (p : LFU) : outcome (list string) :=
  if (cnt <=? 0) || (n p =? 0) then Ret []
  else candidates_loop (Z.to_nat cnt) (Z.to_nat cnt) [] p.

Definition ShouldAdmit (_ : string) (_ : Z) (_ : LFU) : bool := true.

Definition Reset (p : LFU) : LFU :=
  {| buckets := ∅; items := ∅; n := 0; ageCnt := 0; ageMax := ageMax p; decay := decay p;
     metadata := 0; next_el := next_el p; ranges := ranges p |}.

Definition rebuild_freq (accessCount : Z) : Z :=
  let f := accessCount in
  let f := if f <? 1 then 1 else f in
  if f >? maxLFUFreq then maxLFUFreq else f.

Definition rebuild_step (x : eptr * Entry) (p : LFU) : LFU :=
  let f := rebuild_freq (AccessCount x.2) in
  let el' := next_el p in
  {| buckets := bucket_push f el' {| key := Key x.2; e := Some x.1 |} (buckets p);
     items := <[Key x.2 := {| el := el'; freq := f |}]> (items p);
     n := n p + 1; ageCnt := ageCnt p; ageMax := ageMax p; decay := decay p;
     metadata := i64 (metadata p + lfuPerEntryBytes);
     next_el := S (next_el p); ranges := ranges p |}.

Definition Rebuild (entries : list (eptr * Entry)) (p : LFU) : LFU :=
  foldl (flip rebuild_step) (Reset p) entries.

Definition MetadataBytes (p : LFU) : LFU * Z :=
  let md := if metadata p =? 0 then i64 (n p * lfuPerEntryBytes) else metadata p in
  ({| buckets := buckets p; items := items p; n := n p; ageCnt := ageCnt p;
      ageMax := ageMax p; decay := decay p; metadata := md; next_el := next_el p;
      ranges := ranges p |}, md).
End lfu.

#[global] Instance lfu_policy `{GoRuntime} : EvictionPolicy LFU := {
  Policy.Name := Name;
  Policy.OnAccess := OnAccess;
  Policy.OnInsert := OnInsert;
  Policy.OnRemove k e p := Ret (OnRemove k e p);
  Policy.Victim p := r ← Victim p; Ret (p, r);
  Policy.Candidates cnt p := ks ← Candidates cnt p; Ret (p, ks);
  Policy.ShouldAdmit := ShouldAdmit;
  Policy.Params := Params;
  Policy.SetParam := SetParam;
  Policy.Rebuild entries p := Ret (Rebuild entries p);
  Policy.MetadataBytes := MetadataBytes;
  Policy.Reset := Reset;
}.

(** ** The invariant of the buckets and the index *)

(** Element [i] with node [nd] is in the bucket of frequency [f]. *)
Definition at_ (bs : gmap Z (List lfuNode)) (f : Z) (i : Element) (nd : lfuNode) : Prop :=
  ∃ b, bs !! f = Some b ∧ (i, nd) ∈ b.

Record buckets_inv (bs : gmap Z (List lfuNode)) (its : gmap string lfuItem) (nx : Element) : Prop := {
  bi_nodup f b : bs !! f = Some b → NoDup b.*1;
  bi_nonempty f b : bs !! f = Some b → b ≠ [];
  bi_range f b : bs !! f = Some b → 1 ≤ f ≤ maxLFUFreq;
  bi_alloc f i nd : at_ bs f i nd → (i < nx)%nat;
  bi_items k it : its !! k = Some it ↔ ∃ ent, at_ bs (freq it) (el it) {| key := k; e := ent |};
}.

Record lfu_inv (p : LFU) : Prop := {
  li_buckets : buckets_inv (buckets p) (items p) (next_el p);
  li_n : n p = Z.of_nat (size (items p));
  li_meta : metadata p = i64 (lfuPerEntryBytes * n p);
  li_ageMax : is_u64 (ageMax p);
  li_ageCnt : 0 ≤ ageCnt p ∧ (0 < ageMax p → ageCnt p < ageMax p);
}.

(** The map the buckets stand for. *)
Definition holds (bs : gmap Z (List lfuNode)) (k : string) (ent : option eptr) : Prop :=
  ∃ f i, at_ bs f i {| key := k; e := ent |}.

Definition lfu_represents (p : LFU) (m : gmap string (option eptr)) : Prop :=
  lfu_inv p ∧ ∀ k ent, m !! k = Some ent ↔ holds (buckets p) k ent.

(** The frequency of every key. *)
Definition freqs (p : LFU) : gmap string Z := freq <$> items p.

Lemma at_key_inj bs its nx f1 i1 f2 i2 nd1 nd2 :
  buckets_inv bs its nx → at_ bs f1 i1 nd1 → at_ bs f2 i2 nd2 → key nd1 = key nd2 →
  f1 = f2 ∧ i1 = i2 ∧ nd1 = nd2.
Proof.
  intros Hi H1 H2 Hk. destruct nd1 as [k a], nd2 as [k' b]; simpl in Hk; subst k'.
  assert (its !! k = Some {| el := i1; freq := f1 |}) as E1 by (apply (bi_items _ _ _ Hi); eauto).
  assert (its !! k = Some {| el := i2; freq := f2 |}) as E2 by (apply (bi_items _ _ _ Hi); eauto).
  rewrite E1 in E2. injection E2 as <- <-. split; [done|split; [done|]].
  destruct H1 as (b1 & Hb1 & Hin1), H2 as (b2 & Hb2 & Hin2). simplify_eq.
  eapply NoDup_fst_eq; [eapply bi_nodup; [exact Hi|exact Hb1]|..]; done.
Qed.

Lemma at_push bs f i nd f' i' nd' :
  at_ (bucket_push f i nd bs) f' i' nd' ↔ (f' = f ∧ i' = i ∧ nd' = nd) ∨ at_ bs f' i' nd'.
Proof.
  unfold at_, bucket_push, bucket_or_new, PushFront. destruct (decide (f' = f)) as [->|Hf].
  - rewrite lookup_insert_eq. split.
    + intros (b & [= <-] & Hin). apply elem_of_cons in Hin as [|Hin]; [naive_solver|].
      destruct (bs !! f); set_solver.
    + intros [(_ & -> & ->)|(b & -> & Hin)]; eexists; (split; [done|]); simpl; [left|by right].
  - rewrite lookup_insert_ne by done. naive_solver.
Qed.

Lemma at_remove bs f i f' i' nd' :
  at_ (bucket_remove f i bs) f' i' nd' ↔ at_ bs f' i' nd' ∧ ¬ (f' = f ∧ i' = i).
Proof.
  unfold at_, bucket_remove. destruct (bs !! f) as [b|] eqn:Hb; [|naive_solver].
  destruct (decide (f' = f)) as [->|Hf]; case_decide as Hr.
  - rewrite lookup_delete_eq, Hb. split; [naive_solver|].
    intros [(b' & [= <-] & Hin) Hn]. exfalso.
    assert ((i', nd') ∈ Remove i b) as Hin'; [|rewrite Hr in Hin'; set_solver].
    apply elem_of_Remove. naive_solver.
  - rewrite lookup_insert_eq, Hb. split.
    + intros (b' & [= <-] & [Hin Hne]%elem_of_Remove). naive_solver.
    + intros [(b' & [= <-] & Hin) Hn]. eexists; split; [done|]. apply elem_of_Remove. naive_solver.
  - rewrite lookup_delete_ne by done. naive_solver.
  - rewrite lookup_insert_ne by done. naive_solver.
Qed.

Lemma bi_remove bs its nx k it :
  buckets_inv bs its nx → its !! k = Some it →
  buckets_inv (bucket_remove (freq it) (el it) bs) (delete k its) nx ∧
  ∀ f i nd, at_ (bucket_remove (freq it) (el it) bs) f i nd ↔ at_ bs f i nd ∧ key nd ≠ k.
Proof.
  intros Hi Hit. pose proof Hit as [ent0 Hat]%(bi_items _ _ _ Hi).
  assert (Hch : ∀ f i nd, at_ (bucket_remove (freq it) (el it) bs) f i nd ↔ at_ bs f i nd ∧ key nd ≠ k).
  { intros f i nd. rewrite at_remove. split; intros [Hin Hn]; split; try done.
    - intros Hk. apply Hn. destruct (at_key_inj _ _ _ _ _ _ _ _ _ Hi Hin Hat Hk) as (-> & -> & _). done.
    - intros [-> ->]. apply Hn. destruct Hin as (b & Hb & Hin), Hat as (b' & Hb' & Hin'). simplify_eq.
      assert (nd = {| key := k; e := ent0 |}) as ->; [|done].
      eapply NoDup_fst_eq; [by eapply bi_nodup|..]; done. }
  assert (Hlk : ∀ f b, bucket_remove (freq it) (el it) bs !! f = Some b →
                b ≠ [] ∧ ∃ b0, bs !! f = Some b0 ∧ (b = b0 ∨ b = Remove (el it) b0)).
  { intros f b. unfold bucket_remove. destruct (bs !! freq it) as [b1|] eqn:E.
    - case_decide.
      + intros [? Hb]%lookup_delete_Some. pose proof (bi_nonempty _ _ _ Hi _ _ Hb). naive_solver.
      + intros [[<- <-]|[? Hb]]%lookup_insert_Some; [naive_solver|].
        pose proof (bi_nonempty _ _ _ Hi _ _ Hb). naive_solver.
    - intros Hb. pose proof (bi_nonempty _ _ _ Hi _ _ Hb). naive_solver. }
  split; [|done]. split.
  - intros f b (_ & b0 & Hb0 & [->| ->])%Hlk; [by eapply bi_nodup|]. by eapply NoDup_Remove, bi_nodup.
  - by intros f b [? _]%Hlk.
  - intros f b (_ & b0 & Hb0 & _)%Hlk. by eapply bi_range.
  - intros f i nd [Hin _]%Hch. by eapply bi_alloc.
  - intros k' it'. rewrite lookup_delete_Some, (bi_items _ _ _ Hi). setoid_rewrite Hch. simpl. naive_solver.
Qed.

Lemma bi_push bs its nx k f ent :
  buckets_inv bs its nx → its !! k = None → 1 ≤ f ≤ maxLFUFreq →
  buckets_inv (bucket_push f nx {| key := k; e := ent |} bs)
    (<[k := {| el := nx; freq := f |}]> its) (S nx).
Proof.
  intros Hi Hk Hf.
  assert (Hnot : ∀ f' i' ent', ¬ at_ bs f' i' {| key := k; e := ent' |}).
  { intros f' i' ent' Hat. enough (its !! k = Some {| el := i'; freq := f' |}) by congruence.
    apply (bi_items _ _ _ Hi). eauto. }
  split.
  - unfold bucket_push, PushFront, bucket_or_new. intros f' b [[<- <-]|[? Hb]]%lookup_insert_Some;
      [|by eapply bi_nodup]. simpl. constructor.
    + rewrite list_elem_of_fmap. intros ([i nd] & Heq & Hin). simpl in Heq; subst i.
      destruct (bs !! f) as [b|] eqn:Hb; [|set_solver].
      assert (nx < nx)%nat; [|lia]. eapply (bi_alloc _ _ _ Hi). by exists b.
    + destruct (bs !! f) as [b|] eqn:Hb; [by eapply bi_nodup|constructor].
  - unfold bucket_push. intros f' b [[<- <-]|[? Hb]]%lookup_insert_Some; [done|by eapply bi_nonempty].
  - unfold bucket_push. intros f' b [[<- <-]|[? Hb]]%lookup_insert_Some; [done|by eapply bi_range].
  - intros f' i nd [(-> & -> & ->)|Hat]%at_push; [lia|]. apply (bi_alloc _ _ _ Hi) in Hat. lia.
  - intros k' it'. rewrite lookup_insert_Some, (bi_items _ _ _ Hi). setoid_rewrite at_push.
    destruct it' as [i' f']; simpl. destruct (decide (k = k')) as [<-|Hne].
    + split; [naive_solver|]. intros [ent' [(-> & -> & _)|Hat]]; [by left|]. by destruct (Hnot _ _ _ Hat).
    + naive_solver.
Qed.

(** Move a tracked key to the front of another bucket. *)
Lemma bi_move bs its nx k it v f :
  buckets_inv bs its nx → its !! k = Some it → at_ bs (freq it) (el it) v →
  1 ≤ f ≤ maxLFUFreq →
  key v = k ∧
  buckets_inv (bucket_push f nx v (bucket_remove (freq it) (el it) bs))
    (<[k := {| el := nx; freq := f |}]> its) (S nx) ∧
  ∀ k' ent, holds (bucket_push f nx v (bucket_remove (freq it) (el it) bs)) k' ent ↔ holds bs k' ent.
Proof.
  intros Hi Hit Hv Hf. pose proof Hit as [ent0 Hat]%(bi_items _ _ _ Hi).
  assert (v = {| key := k; e := ent0 |}) as ->.
  { destruct Hv as (b & Hb & Hin), Hat as (b' & Hb' & Hin'). simplify_eq.
    eapply NoDup_fst_eq; [by eapply bi_nodup|..]; done. }
  destruct (bi_remove _ _ _ _ _ Hi Hit) as [Hi' Hch]. split; [done|]. split.
  - rewrite <-(insert_delete_eq its). apply bi_push; [done|apply lookup_delete_eq|done].
  - intros k' ent. unfold holds. setoid_rewrite at_push. setoid_rewrite Hch. split.
    + intros (f' & i' & [(-> & -> & [= -> ->])|[? _]]); eauto.
    + intros (f' & i' & Hat'). destruct (decide (k' = k)) as [->|Hk'].
      * destruct (at_key_inj _ _ _ _ _ _ _ _ _ Hi Hat Hat' eq_refl) as (_ & _ & [= ->]).
        exists f, nx. by left.
      * exists f', i'. right. done.
Qed.

Lemma bi_elem_value bs its nx k it :
  buckets_inv bs its nx → its !! k = Some it →
  ∃ b v, bs !! freq it = Some b ∧ elem_value (el it) b = Some v ∧ at_ bs (freq it) (el it) v.
Proof.
  intros Hi [ent0 (b & Hb & Hin)]%(bi_items _ _ _ Hi). exists b, {| key := k; e := ent0 |}.
  split_and!; [done| |by exists b]. apply elem_value_Some; [by eapply bi_nodup|done].
Qed.

Lemma bi_freq_range bs its nx k it :
  buckets_inv bs its nx → its !! k = Some it → 1 ≤ freq it ≤ maxLFUFreq.
Proof. intros Hi [ent0 (b & Hb & Hin)]%(bi_items _ _ _ Hi). by eapply bi_range. Qed.

Lemma bi_bucket_freq bs its nx f b :
  buckets_inv bs its nx → bs !! f = Some b → ∃ k it, its !! k = Some it ∧ freq it = f.
Proof.
  intros Hi Hb. destruct b as [|[i [k ent]] b]; [by eapply bi_nonempty in Hb|].
  exists k, {| el := i; freq := f |}. split; [|done]. apply (bi_items _ _ _ Hi). exists ent; simpl.
  eexists; split; [exact Hb|left].
Qed.

Lemma maxLFUFreq_eq : maxLFUFreq = 65536.
Proof. done. Qed.

Definition bump (f : Z) : Z := Z.min maxLFUFreq (f + 1).

Lemma lfu_represents_tracked p m k :
  lfu_represents p m → is_Some (items p !! k) ↔ is_Some (m !! k).
Proof.
  intros [Hi Hm]. split.
  - intros [it [ent Hat]%(bi_items _ _ _ (li_buckets _ Hi))]. exists ent. apply Hm. by do 2 eexists.
  - intros [ent (f & i & Hat)%Hm]. exists {| el := i; freq := f |}.
    apply (bi_items _ _ _ (li_buckets _ Hi)). eauto.
Qed.

Lemma freqs_lookup p k : freqs p !! k = freq <$> items p !! k.
Proof. apply lookup_fmap. Qed.

(** The fields [incrementLocked] and the ageing loop leave alone. *)
Definition same_counters (p p' : LFU) : Prop :=
  n p' = n p ∧ ageCnt p' = ageCnt p ∧ ageMax p' = ageMax p ∧ decay p' = decay p ∧
  metadata p' = metadata p ∧ ranges p' = ranges p.

Lemma lfu_increment k it p m :
  lfu_represents p m → items p !! k = Some it →
  ∃ p', incrementLocked k it p = Ret p' ∧ lfu_represents p' m ∧
    freqs p' = <[k := bump (freq it)]> (freqs p) ∧ same_counters p p'.
Proof.
  intros [Hi Hm] Hit. pose proof (li_buckets _ Hi) as Hb.
  pose proof (bi_freq_range _ _ _ _ _ Hb Hit) as Hr. unfold incrementLocked.
  pose proof maxLFUFreq_eq as Hmx.
  rewrite (u32_small (freq it + 1)) by (unfold is_u32; lia).
  set (newF := if freq it + 1 >? maxLFUFreq then maxLFUFreq else freq it + 1).
  assert (HnewF : newF = bump (freq it)) by (unfold newF, bump; destruct (Z.gtb_spec (freq it + 1) maxLFUFreq); lia).
  destruct (Z.eqb_spec (freq it) newF) as [Heq|Hne].
  - exists p. split_and!; [done|by split| |done..]. symmetry. apply insert_id.
    rewrite freqs_lookup, Hit. simpl. congruence.
  - destruct (bi_elem_value _ _ _ _ _ Hb Hit) as (b & v & -> & Hval & Hat). simpl. rewrite Hval. simpl.
    destruct (bi_move _ _ _ k it v newF Hb Hit Hat) as (Hk & Hb' & Hh); [unfold bump in *; lia|].
    eexists. split; [done|]. split_and!; [split|..]; [|intros; rewrite Hm; simpl; by rewrite Hh|..|done].
    + destruct Hi as [_ Hn Hmd Hmax Hcnt]. split; simpl; try done.
      rewrite map_size_insert_Some by eauto. done.
    + unfold freqs; simpl. rewrite fmap_insert. simpl. congruence.
Qed.

(** Replacing the pointer of a node. *)
Lemma at_replace bs its nx k it ent b f i nd :
  buckets_inv bs its nx → its !! k = Some it → bs !! freq it = Some b →
  at_ (<[freq it := set_value (el it) (λ nd, {| key := key nd; e := ent |}) b]> bs) f i nd ↔
  (key nd = k ∧ f = freq it ∧ i = el it ∧ e nd = ent) ∨ (key nd ≠ k ∧ at_ bs f i nd).
Proof.
  intros Hi Hit Hb. pose proof Hit as [ent0 Hat]%(bi_items _ _ _ Hi).
  assert (Hin0 : (el it, {| key := k; e := ent0 |}) ∈ b).
  { destruct Hat as (b' & Hb' & ?). by simplify_eq. }
  assert (Hiff : at_ (<[freq it := set_value (el it) (λ nd, {| key := key nd; e := ent |}) b]> bs) f i nd ↔
    ∃ nd0, at_ bs f i nd0 ∧ nd = if decide (f = freq it ∧ i = el it) then {| key := key nd0; e := ent |} else nd0).
  { unfold at_. destruct (decide (f = freq it)) as [->|Hf].
    - rewrite lookup_insert_eq, Hb. split.
      + intros (b' & [= <-] & (nd0 & Hin & ->)%elem_of_set_value). exists nd0. split; [eauto|].
        by repeat case_decide; naive_solver.
      + intros (nd0 & (b' & [= <-] & Hin) & ->). eexists; split; [done|].
        apply elem_of_set_value. exists nd0. split; [done|]. by repeat case_decide; naive_solver.
    - rewrite lookup_insert_ne by done. split.
      + intros Hex. exists nd. split; [done|]. by rewrite decide_False by naive_solver.
      + intros (nd0 & Hex & ->). by rewrite decide_False by naive_solver. }
  rewrite Hiff. split.
  - intros (nd0 & Hat0 & ->). case_decide as Hd.
    + destruct Hd as [-> ->]. left. destruct Hat0 as (b' & Hb' & Hin'). simplify_eq.
      assert (nd0 = {| key := k; e := ent0 |}) as ->; [|done].
      eapply NoDup_fst_eq; [by eapply bi_nodup|..]; done.
    + right. split; [|done]. intros Hk. apply Hd.
      destruct (at_key_inj _ _ _ _ _ _ _ _ _ Hi Hat0 Hat Hk) as (-> & -> & _). done.
  - destruct nd as [k' ent']; simpl. intros [(-> & -> & -> & ->)|[Hk Hat']].
    + exists {| key := k; e := ent0 |}. split; [done|]. by rewrite decide_True by done.
    + exists {| key := k'; e := ent' |}. split; [done|]. rewrite decide_False; [done|]. intros [-> ->].
      destruct Hat' as (b' & Hb' & Hin'). simplify_eq.
      apply Hk. enough ({| key := k'; e := ent' |} = {| key := k; e := ent0 |}) by congruence.
      eapply NoDup_fst_eq; [by eapply bi_nodup|..]; done.
Qed.

Lemma bi_replace bs its nx k it ent b :
  buckets_inv bs its nx → its !! k = Some it → bs !! freq it = Some b →
  buckets_inv (<[freq it := set_value (el it) (λ nd, {| key := key nd; e := ent |}) b]> bs) its nx.
Proof.
  intros Hi Hit Hb. pose proof (λ f i nd, at_replace _ _ _ _ _ ent _ f i nd Hi Hit Hb) as Hat.
  set (bs' := <[_:=_]> bs) in *.
  assert (Hlk : ∀ f b', bs' !! f = Some b' → ∃ b0, bs !! f = Some b0 ∧ b'.*1 = b0.*1).
  { unfold bs'. intros f b' [[<- <-]|[? Hb']]%lookup_insert_Some; [|eauto].
    exists b. by rewrite fst_set_value. }
  split.
  - intros f b' (b0 & Hb0 & ->)%Hlk. by eapply bi_nodup.
  - intros f b' (b0 & Hb0 & Heq)%Hlk ->. eapply bi_nonempty; [done|exact Hb0|].
    by destruct b0.
  - intros f b' (b0 & Hb0 & _)%Hlk. by eapply bi_range.
  - intros f i nd [(Hk & -> & -> & _)|[_ ?]]%Hat; [|by eapply bi_alloc].
    apply (bi_items _ _ _ Hi) in Hit as [ent0 ?]. by eapply bi_alloc.
  - intros k' it'. setoid_rewrite Hat. simpl. destruct (decide (k' = k)) as [->|Hk].
    + rewrite Hit. split; [intros [= <-]; naive_solver|]. intros [ent' [(_ & H1 & H2 & _)|[? _]]]; [|done].
      f_equal. destruct it, it'; simpl in *. congruence.
    + rewrite (bi_items _ _ _ Hi). naive_solver.
Qed.

(** ** Every operation preserves the representation *)

Lemma lfu_represents_push k f ent p m :
  lfu_represents p m → m !! k = None → 1 ≤ f ≤ maxLFUFreq →
  let p' := {| buckets := bucket_push f (next_el p) {| key := k; e := ent |} (buckets p);
               items := <[k := {| el := next_el p; freq := f |}]> (items p);
               n := n p + 1; ageCnt := ageCnt p; ageMax := ageMax p; decay := decay p;
               metadata := i64 (metadata p + lfuPerEntryBytes);
               next_el := S (next_el p); ranges := ranges p |} in
  lfu_represents p' (<[k := ent]> m) ∧ freqs p' = <[k := f]> (freqs p).
Proof.
  intros Hrep Hk Hf. pose proof Hrep as [Hi Hm].
  assert (Hit : items p !! k = None).
  { apply eq_None_not_Some. rewrite lfu_represents_tracked by done. rewrite Hk. by intros []. }
  split; [split; [split; simpl|]; simpl|].
  - apply bi_push; [apply Hi|done|done].
  - rewrite map_size_insert_None by done. rewrite (li_n p) by done. lia.
  - rewrite (li_meta p) by done. rewrite i64_add_l. f_equal. unfold lfuPerEntryBytes. lia.
  - apply Hi.
  - apply Hi.
  - intros k' ent'. rewrite lookup_insert_Some, Hm. unfold holds. setoid_rewrite at_push.
    assert (Hno : ∀ f i ent', ¬ at_ (buckets p) f i {| key := k; e := ent' |}).
    { intros f' i' e' Hat. assert (m !! k = Some e') by (apply Hm; by do 2 eexists). congruence. }
    destruct (decide (k = k')) as [<-|Hne]; [|naive_solver].
    split; [intros [[_ <-]|[? _]]; [|done]; exists f, (next_el p); by left|].
    intros (f' & i' & [(_ & _ & [= ->])|Hat]); [by left|]. by apply Hno in Hat.
  - unfold freqs; simpl. by rewrite fmap_insert.
Qed.

(** The pointer of a tracked key stored through its element. *)
Lemma lfu_represents_replace k it ent b p m :
  lfu_represents p m → items p !! k = Some it → buckets p !! freq it = Some b →
  lfu_represents
    {| buckets := <[freq it := set_value (el it) (λ nd, {| key := key nd; e := ent |}) b]> (buckets p);
       items := items p; n := n p; ageCnt := ageCnt p; ageMax := ageMax p; decay := decay p;
       metadata := metadata p; next_el := next_el p; ranges := ranges p |} (<[k := ent]> m).
Proof.
  intros [Hi Hm] Hit Hbk. pose proof (li_buckets _ Hi) as Hb. split.
  - destruct Hi as [? ? ? ? ?]. split; try done. by eapply bi_replace.
  - intros k' ent'. unfold holds. simpl.
    setoid_rewrite (λ f i nd, at_replace _ _ _ k it ent b f i nd Hb Hit Hbk). simpl.
    rewrite lookup_insert_Some, Hm. unfold holds. naive_solver.
Qed.

Lemma lfu_represents_OnInsert k ent p m :
  lfu_represents p m →
  ∃ p', OnInsert k ent p = Ret p' ∧ lfu_represents p' (<[k := ent]> m) ∧
    freqs p' = <[k := default 1 (bump <$> freqs p !! k)]> (freqs p) ∧
    ageCnt p' = ageCnt p ∧ ageMax p' = ageMax p.
Proof.
  intros Hrep. pose proof Hrep as [Hi Hm]. unfold OnInsert.
  rewrite freqs_lookup. destruct (items p !! k) as [it|] eqn:Hit; simpl.
  - pose proof (li_buckets _ Hi) as Hb.
    destruct (bi_elem_value _ _ _ _ _ Hb Hit) as (b & v & Hbk & _ & _). rewrite Hbk. simpl.
    set (p1 := {| buckets := _ |}).
    assert (Hrep1 : lfu_represents p1 (<[k := ent]> m)) by (by apply lfu_represents_replace).
    destruct (lfu_increment k it p1 _ Hrep1 Hit) as (p' & Hrun & Hrep' & Hf & _ & Hc & Hmx & _).
    exists p'. split_and!; done.
  - eexists. split; [done|].
    assert (m !! k = None ∧ 1 ≤ 1 ≤ maxLFUFreq) as [Hk H1].
    2: { destruct (lfu_represents_push k 1 ent p m Hrep Hk H1). by split_and!. }
    split.
    + apply eq_None_not_Some. rewrite <-(lfu_represents_tracked p m k) by done. rewrite Hit. by intros [].
    + rewrite maxLFUFreq_eq. lia.
Qed.

Lemma lfu_represents_OnRemove k ent p m :
  lfu_represents p m →
  lfu_represents (OnRemove k ent p) (delete k m) ∧ freqs (OnRemove k ent p) = delete k (freqs p) ∧
  ageCnt (OnRemove k ent p) = ageCnt p ∧ ageMax (OnRemove k ent p) = ageMax p.
Proof.
  intros Hrep. pose proof Hrep as [Hi Hm]. unfold OnRemove. destruct (items p !! k) as [it|] eqn:Hit.
  - destruct (bi_remove _ _ _ _ _ (li_buckets _ Hi) Hit) as [Hb' Hch].
    split; [split; [split; simpl|]; simpl|split; [|done]].
    + done.
    + rewrite map_size_delete_Some by eauto. rewrite (li_n p) by done.
      assert (size (items p) ≠ 0%nat); [|lia]. rewrite map_size_ne_0_lookup. eauto.
    + rewrite (li_meta p) by done. rewrite i64_sub_l. f_equal. unfold lfuPerEntryBytes. lia.
    + apply Hi.
    + apply Hi.
    + intros k' ent'. rewrite lookup_delete_Some, Hm. unfold holds. setoid_rewrite Hch. simpl. naive_solver.
    + unfold freqs; simpl. by rewrite fmap_delete.
  - assert (m !! k = None) as Hk.
    { apply eq_None_not_Some. rewrite <-(lfu_represents_tracked p m k) by done. rewrite Hit. by intros []. }
    rewrite delete_id by done. split; [done|]. split; [|done].
    symmetry. apply delete_id. by rewrite freqs_lookup, Hit.
Qed.

Lemma buckets_inv_empty nx : buckets_inv ∅ ∅ nx.
Proof.
  split; try (intros ??; rewrite lookup_empty; done).
  - intros f i nd (b & Hb & _). by rewrite lookup_empty in Hb.
  - intros k it. rewrite lookup_empty. split; [done|]. intros (ent & b & Hb & _). by rewrite lookup_empty in Hb.
Qed.

Lemma holds_empty k ent : ¬ holds ∅ k ent.
Proof. intros (f & i & b & Hb & _). by rewrite lookup_empty in Hb. Qed.

Lemma lfu_represents_Reset p m : lfu_represents p m → lfu_represents (Reset p) ∅.
Proof.
  intros [Hi _]. split; [split; simpl; try done|].
  - apply buckets_inv_empty.
  - apply Hi.
  - intros k ent. rewrite lookup_empty. simpl. pose proof (holds_empty k ent). naive_solver.
Qed.

Lemma rebuild_freq_range c : 1 ≤ rebuild_freq c ≤ maxLFUFreq.
Proof.
  unfold rebuild_freq. pose proof maxLFUFreq_eq.
  destruct (Z.ltb_spec c 1); case_match; lia.
Qed.

Lemma lfu_foldl_rebuild es p m :
  lfu_represents p m → NoDup (entry_keys es) →
  (∀ k, k ∈ entry_keys es → m !! k = None) →
  ∃ m', lfu_represents (foldl (flip rebuild_step) p es) m' ∧
    (∀ k e, m' !! k = Some e ↔ m !! k = Some e ∨ ∃ x, x ∈ es ∧ Key x.2 = k ∧ Some x.1 = e) ∧
    ∀ k f, freqs (foldl (flip rebuild_step) p es) !! k = Some f ↔
      freqs p !! k = Some f ∨ ∃ x, x ∈ es ∧ Key x.2 = k ∧ rebuild_freq (AccessCount x.2) = f.
Proof.
  revert p m. induction es as [|x es IH]; intros p m Hr Hnd Hnew.
  - exists m. split_and!; [done|set_solver|set_solver].
  - rewrite entry_keys_cons, NoDup_cons in Hnd. destruct Hnd as [Hx Hnd].
    assert (Hn : m !! Key x.2 = None) by (apply Hnew; rewrite entry_keys_cons; left).
    assert (Hfn : freqs p !! Key x.2 = None).
    { rewrite freqs_lookup, fmap_None, eq_None_not_Some, (lfu_represents_tracked p m) by done. rewrite Hn. by intros []. }
    cbn [foldl flip].
    destruct (lfu_represents_push (Key x.2) (rebuild_freq (AccessCount x.2)) (Some x.1) p m Hr Hn
      (rebuild_freq_range _)) as [Hr1 Hf1].
    destruct (IH (rebuild_step x p) (<[Key x.2 := Some x.1]> m) Hr1) as (m' & Hr' & Hm' & Hf'); [done| |].
    + intros k Hk. rewrite lookup_insert_ne by (intros <-; done). apply Hnew.
      rewrite entry_keys_cons. by right.
    + exists m'. split_and!; [done| |].
      * intros k e0. rewrite Hm', lookup_insert_Some. setoid_rewrite elem_of_cons.
        destruct (decide (Key x.2 = k)) as [<-|]; naive_solver.
      * intros k f. rewrite Hf'. change (freqs (rebuild_step x p) !! k) with (freqs (rebuild_step x p) !! k).
        unfold rebuild_step at 1. rewrite Hf1, lookup_insert_Some. setoid_rewrite elem_of_cons.
        destruct (decide (Key x.2 = k)) as [<-|]; naive_solver.
Qed.

Lemma freqs_Reset p : freqs (Reset p) = ∅.
Proof. apply fmap_empty. Qed.

Lemma lfu_represents_Rebuild es p m :
  lfu_represents p m → NoDup (entry_keys es) →
  lfu_represents (Rebuild es p) (entries_map es) ∧
  ∀ k f, freqs (Rebuild es p) !! k = Some f ↔
    ∃ x, x ∈ es ∧ Key x.2 = k ∧ rebuild_freq (AccessCount x.2) = f.
Proof.
  intros Hrep Hnd. destruct (lfu_foldl_rebuild es (Reset p) ∅) as (m' & Hr & Hm & Hf).
  - by eapply lfu_represents_Reset.
  - done.
  - intros. apply lookup_empty.
  - split.
    + assert (m' = entries_map es) as <-; [|done]. apply map_eq. intros k. apply option_eq. intros e0.
      rewrite Hm, entries_map_lookup by done. rewrite lookup_empty. naive_solver.
    + intros k f. unfold Rebuild. rewrite Hf, freqs_Reset, lookup_empty. naive_solver.
Qed.

Lemma lfu_represents_MetadataBytes p m :
  lfu_represents p m → lfu_represents (MetadataBytes p).1 m.
Proof.
  intros [Hi Hm]. split; [|done]. destruct Hi as [? ? Hmd ? ?]. unfold MetadataBytes; split; simpl; try done.
  case_match; [|done]. f_equal. lia.
Qed.

Lemma lfu_metadata_same p m : lfu_represents p m → (MetadataBytes p).1 = p.
Proof.
  intros [Hi _]. pose proof (li_meta p Hi) as Hmd. destruct p. unfold MetadataBytes. cbn in *. f_equal.
  destruct (Z.eqb_spec metadata0 0); [|done]. rewrite Z.mul_comm. by symmetry.
Qed.

(** ** The ageing pass *)

Definition age_one (oldF f : Z) : Z := if decide (f = oldF) then halve oldF else f.

(** What a pass that visits the buckets in the order [fs] makes of frequency [f]. *)
Definition age_chain (fs : list Z) (f : Z) : Z := foldl (λ f oldF, age_one oldF f) f fs.

Lemma halve_range f : 1 ≤ f → 1 ≤ halve f ≤ f.
Proof.
  intros. unfold halve. pose proof (Z.div_pos f 2).
  assert (f `div` 2 ≤ f) by (apply Z.div_le_upper_bound; lia). case_match; lia.
Qed.

Lemma halve_id f : 1 ≤ f → halve f = f ↔ f = 1.
Proof.
  intros. unfold halve. assert (f `div` 2 < f) by (apply Z.div_lt; lia).
  destruct (Z.ltb_spec (f `div` 2) 1); [lia|]. split; [lia|]. intros ->. by compute in *.
Qed.

Lemma move_all_spec newF oldF bucket bs its nx :
  buckets_inv bs its nx → bs !! oldF = Some bucket → newF ≠ oldF → 1 ≤ newF ≤ maxLFUFreq →
  ∃ nb its' nx', move_all newF bucket (bucket_or_new bs newF) its nx = Ret (nb, its', nx') ∧
    let bs' := delete oldF (<[newF := nb]> bs) in
    buckets_inv bs' its' nx' ∧
    (∀ k ent, holds bs' k ent ↔ holds bs k ent) ∧
    freq <$> its' = (λ f, if decide (f = oldF) then newF else f) <$> (freq <$> its) ∧
    nb.*2 = reverse bucket.*2 ++ (bucket_or_new bs newF).*2.
Proof.
  intros Hi Hb Hne Hr. revert bs its nx Hi Hb.
  induction bucket as [|[i nd] rest IH]; intros bs its nx Hi Hb; [by eapply bi_nonempty in Hb|].
  set (k := key nd). set (it := {| el := i; freq := oldF |}).
  assert (Hat : at_ bs oldF i nd) by (eexists; split; [exact Hb|left]).
  assert (Hit : its !! k = Some it).
  { apply (bi_items _ _ _ Hi). exists (e nd). by destruct nd. }
  destruct (bi_move _ _ _ k it nd newF Hi Hit Hat Hr) as (_ & Hi1 & Hh1).
  cbn [move_all]. fold k. rewrite Hit. simpl or_panic. cbn [mbind outcome_bind].
  set (its1 := <[k := {| el := nx; freq := newF |}]> its) in *.
  set (bs1 := bucket_push newF nx nd _) in *.
  assert (Hfreq1 : freq <$> its1 = <[k := newF]> (freq <$> its)) by apply fmap_insert.
  assert (Hrem : bucket_remove (freq it) (el it) bs = if decide (rest = []) then delete oldF bs else <[oldF := rest]> bs).
  { unfold bucket_remove. simpl. rewrite Hb, Remove_head; [done|]. by eapply bi_nodup in Hb. }
  assert (Hnew : bucket_or_new (bucket_remove (freq it) (el it) bs) newF = bucket_or_new bs newF).
  { unfold bucket_or_new. rewrite Hrem. case_decide; [by rewrite lookup_delete_ne|by rewrite lookup_insert_ne]. }
  destruct (decide (rest = [])) as [->|Hrest].
  - exists (PushFront nx nd (bucket_or_new bs newF)), its1, (S nx). split; [done|].
    assert (Hbs : delete oldF (<[newF := PushFront nx nd (bucket_or_new bs newF)]> bs) = bs1).
    { unfold bs1, bucket_push. rewrite Hnew, Hrem. by rewrite delete_insert_ne. }
    rewrite Hbs. cbn zeta. split_and!; [done|done| |done].
    rewrite Hfreq1. apply map_eq. intros k'. rewrite lookup_fmap, lookup_insert, lookup_fmap.
    destruct (its !! k') as [it'|] eqn:Hit'; case_decide as Hk; subst; simpl.
    + rewrite Hit in Hit'. simplify_eq. by rewrite decide_True.
    + rewrite decide_False; [done|]. intros Hf. apply Hk.
      apply (bi_items _ _ _ Hi) in Hit' as (ent' & b' & Hb' & Hin'). rewrite Hf, Hb in Hb'. simplify_eq.
      apply list_elem_of_singleton in Hin'. injection Hin' as _ Hnd. unfold k. by rewrite <-Hnd.
    + congruence.
    + done.
  - destruct (IH bs1 its1 (S nx) Hi1) as (nb & its' & nx' & Hrun & Hi' & Hh' & Hf' & Hnb).
    { unfold bs1, bucket_push. rewrite Hrem, lookup_insert_ne, lookup_insert_eq by done. done. }
    assert (Hnb1 : bucket_or_new bs1 newF = PushFront nx nd (bucket_or_new bs newF)).
    { unfold bs1, bucket_push. unfold bucket_or_new at 1. by rewrite lookup_insert_eq, Hnew. }
    rewrite Hnb1 in Hrun, Hnb. exists nb, its', nx'. split; [done|].
    assert (Hbs : delete oldF (<[newF := nb]> bs1) = delete oldF (<[newF := nb]> bs)).
    { unfold bs1, bucket_push. rewrite insert_insert_eq, Hrem, !delete_insert_ne by done.
      rewrite delete_insert_eq. by rewrite delete_insert_ne by done. }
    rewrite Hbs in Hi', Hh'. cbn zeta. split_and!; [done| | |].
    + intros k' ent. rewrite Hh'. apply Hh1.
    + rewrite Hf', Hfreq1. apply map_eq. intros k'. rewrite !lookup_fmap, lookup_insert, lookup_fmap.
      case_decide as Hk; [|done]. subst k'. rewrite Hit. simpl. by repeat case_decide.
    + rewrite Hnb. simpl. rewrite reverse_cons, <-app_assoc. done.
Qed.

Lemma lfu_age_step oldF p m :
  lfu_represents p m → is_Some (buckets p !! oldF) →
  ∃ p', age_step oldF p = Ret p' ∧ lfu_represents p' m ∧
    freqs p' = age_one oldF <$> freqs p ∧ same_counters p p' ∧
    ∀ f, f ≠ oldF → is_Some (buckets p !! f) → is_Some (buckets p' !! f).
Proof.
  intros [Hi Hm] [b Hb]. pose proof (bi_range _ _ _ (li_buckets _ Hi) _ _ Hb) as Hr.
  pose proof (halve_range oldF) as Hh. unfold age_step.
  destruct (Z.eqb_spec (halve oldF) oldF) as [Heq|Hne].
  - exists p. split_and!; [done|by split| |done..|done]. symmetry.
    transitivity (id <$> freqs p); [|apply map_fmap_id]. apply map_fmap_ext. intros k f _.
    unfold age_one, id; simpl. case_decide; congruence.
  - rewrite Hb. simpl. destruct (move_all_spec (halve oldF) oldF b (buckets p) (items p) (next_el p))
      as (nb & its' & nx' & Hrun & Hi' & Hhold & Hf & _); [apply Hi|done|done|lia|].
    rewrite Hrun. simpl. eexists. split; [done|]. split_and!; [split; [|simpl]|..].
    + destruct Hi as [_ Hn Hmd Hmax Hcnt]. split; simpl; try done.
      rewrite Hn. f_equal. rewrite <-(map_size_fmap freq its'), Hf, !map_size_fmap. done.
    + intros k ent. rewrite Hm. simpl. by rewrite Hhold.
    + unfold freqs. simpl. by rewrite Hf.
    + done.
    + intros f Hf' Hsome. simpl. rewrite lookup_delete_ne by done.
      rewrite lookup_insert. case_decide; eauto.
Qed.

Lemma lfu_age_loop fs p m :
  lfu_represents p m → NoDup fs → (∀ f, f ∈ fs → is_Some (buckets p !! f)) →
  ∃ p', for_each age_step fs p = Ret p' ∧ lfu_represents p' m ∧
    freqs p' = age_chain fs <$> freqs p ∧ same_counters p p'.
Proof.
  revert p. induction fs as [|f fs IH]; intros p Hrep Hnd Hin.
  - exists p. split_and!; [done|done| |done..]. symmetry. apply map_fmap_id.
  - apply NoDup_cons in Hnd as [Hf Hnd].
    destruct (lfu_age_step f p m Hrep) as (p1 & Hrun1 & Hrep1 & Hf1 & Hc1 & Hkeep); [apply Hin; left|].
    destruct (IH p1 Hrep1 Hnd) as (p' & Hrun & Hrep' & Hf' & Hc').
    { intros f' Hf'. apply Hkeep; [by intros ->|]. apply Hin. by right. }
    exists p'. simpl. rewrite Hrun1. simpl. split_and!; [done|done| |].
    + rewrite Hf', Hf1, <-map_fmap_compose. done.
    + unfold same_counters in *. naive_solver congruence.
Qed.

Section ageing.
Context `{GoRuntime}.

Lemma elem_of_bucket_freqs p f : lfu_inv p →
  is_Some (buckets p !! f) ↔ ∃ k, freqs p !! k = Some f.
Proof.
  intros Hi. split.
  - intros [b Hb]. destruct (bi_bucket_freq _ _ _ _ _ (li_buckets _ Hi) Hb) as (k & it & Hit & Hf).
    exists k. rewrite freqs_lookup, Hit. simpl. by f_equal.
  - intros [k Hk]. rewrite freqs_lookup in Hk. apply fmap_Some in Hk as (it & Hit & ->).
    apply (bi_items _ _ _ (li_buckets _ Hi)) in Hit as (ent & b & Hb & _). eauto.
Qed.

(** [fs] lists the frequencies in use, each once: an order in which the pass
    may visit the buckets. *)
Definition visits (fr : gmap string Z) (fs : list Z) : Prop :=
  NoDup fs ∧ ∀ f, f ∈ fs ↔ ∃ k, fr !! k = Some f.

Lemma lfu_age p m :
  lfu_represents p m →
  ∃ p' fs, ageLocked p = Ret p' ∧ lfu_represents p' m ∧ visits (freqs p) fs ∧
    freqs p' = age_chain fs <$> freqs p ∧
    ageCnt p' = ageCnt p ∧ ageMax p' = ageMax p.
Proof.
  intros Hrep. pose proof Hrep as [Hi _]. unfold ageLocked.
  set (fs := range_keys (ranges p) (buckets p)).
  destruct (lfu_age_loop fs p m Hrep) as (p' & Hrun & [Hi' Hm'] & Hf & _ & Hc & Hmx & _).
  - apply NoDup_range_keys.
  - intros f. apply elem_of_range_keys.
  - rewrite Hrun. simpl. eexists _, fs. split; [done|]. split_and!; [|split|..]; try done.
    + split; [|done]. destruct Hi' as [? ? ? ? ?]. by split.
    + apply NoDup_range_keys.
    + intros f. unfold fs. rewrite elem_of_range_keys. by apply elem_of_bucket_freqs.
Qed.

(** The pass does not read the access counter. *)
Lemma age_step_with_age f p c :
  age_step f (with_age p c) = (p' ← age_step f p; Ret (with_age p' c)).
Proof.
  unfold age_step, with_age; simpl. case_match; [done|].
  destruct (buckets p !! f) as [b|]; simpl; [|done].
  by destruct (move_all _ _ _ _ _) as [[[??]?]| |].
Qed.

Lemma ageLocked_with_age p c :
  ageLocked (with_age p c) = (p' ← ageLocked p; Ret (with_age p' c)).
Proof.
  unfold ageLocked. simpl. set (fs := range_keys _ _).
  assert (for_each age_step fs (with_age p c) =
    (p' ← for_each age_step fs p; Ret (with_age p' c))) as ->.
  { generalize fs. intros l. revert p fs. induction l as [|f l IH]; intros p fs; [done|]. simpl.
    rewrite age_step_with_age. destruct (age_step f p) as [p1| |]; simpl; [|done..]. by apply IH. }
  by destruct (for_each age_step fs p).
Qed.

Lemma with_age_represents p m c :
  lfu_represents p m → 0 ≤ c → (0 < ageMax p → c < ageMax p) → lfu_represents (with_age p c) m.
Proof. intros [[? ? ? ? ?] Hm] ? ?. split; [|done]. by split. Qed.

(** [OnAccess] on a tracked key: the frequency goes up by one, to at most the
    ceiling, and every [ageMax]-th access runs an ageing pass. *)
Lemma lfu_access k ent p m f :
  lfu_represents p m → freqs p !! k = Some f →
  ∃ p', OnAccess k ent p = Ret p' ∧ lfu_represents p' m ∧ ageMax p' = ageMax p ∧
    let bumped := <[k := bump f]> (freqs p) in
    if decide (0 < ageMax p ≤ ageCnt p + 1)
    then ageCnt p' = 0 ∧ ∃ fs, visits bumped fs ∧ freqs p' = age_chain fs <$> bumped
    else freqs p' = bumped ∧
         ageCnt p' = if decide (0 < ageMax p) then ageCnt p + 1 else ageCnt p.
Proof.
  intros Hrep Hf. rewrite freqs_lookup in Hf. apply fmap_Some in Hf as (it & Hit & ->).
  unfold OnAccess. rewrite Hit.
  destruct (lfu_increment k it p m Hrep Hit) as (p1 & -> & Hrep1 & Hf1 & _ & Hc1 & Hmx1 & _).
  simpl. rewrite Hc1, Hmx1. pose proof Hrep as [[_ _ _ Hmx Hcnt] _].
  destruct (Z.gtb_spec (ageMax p) 0) as [Hpos|Hpos].
  2: { exists p1. rewrite !decide_False by lia. split_and!; done. }
  rewrite u64_small by (unfold is_u64 in *; lia). rewrite Z.geb_leb.
  destruct (Z.leb_spec (ageMax p) (ageCnt p + 1)) as [Hdue|Hdue].
  - destruct (decide (0 < ageMax p ≤ ageCnt p + 1)) as [_|?]; [|lia].
    destruct (lfu_age p1 m Hrep1) as (p2 & fs & Hrun & Hrep2 & Hv & Hf2 & Hc2 & Hmx2).
    rewrite ageLocked_with_age, Hrun. simpl. exists (with_age p2 0); split; [done|].
    split; [apply with_age_represents; [done|lia..]|]. split; [simpl; congruence|].
    split; [done|]. exists fs. by rewrite <-Hf1.
  - destruct (decide (0 < ageMax p ≤ ageCnt p + 1)) as [?|_]; [lia|].
    rewrite decide_True by lia. eexists; split; [done|].
    split_and!; try done. apply with_age_represents; [done|lia..].
Qed.

Lemma OnAccess_untracked k ent p : freqs p !! k = None → OnAccess k ent p = Ret p.
Proof. rewrite freqs_lookup. unfold OnAccess. by destruct (items p !! k). Qed.
End ageing.

(** ** Choosing the victim *)

Lemma foldl_min_step l b :
  ∃ f, foldl min_step (Some b) l = Some f ∧ (f = b ∨ f ∈ l) ∧ f ≤ b ∧ ∀ f', f' ∈ l → f ≤ f'.
Proof.
  revert b. induction l as [|x l IH]; intros b; simpl.
  - exists b. split_and!; [done|by left|lia|set_solver].
  - destruct (IH (if x <? b then x else b)) as (f & -> & Hin & Hle & Hall). exists f.
    destruct (Z.ltb_spec x b); (split_and!; [done| |lia|]; [destruct Hin as [->|]; set_solver|]);
      intros f' [->|]%elem_of_cons; auto; lia.
Qed.

Section victim.
Context `{GoRuntime}.

(** The scan finds the smallest bucket, whatever the order of the [range]. *)
Lemma lowestFreq_spec p :
  lfu_inv p →
  (buckets p = ∅ ∧ lowestFreqLocked p = 0) ∨
  (is_Some (buckets p !! lowestFreqLocked p) ∧ 1 ≤ lowestFreqLocked p ∧
   ∀ f, is_Some (buckets p !! f) → lowestFreqLocked p ≤ f).
Proof.
  intros Hi. unfold lowestFreqLocked.
  pose proof (λ f, elem_of_range_keys (ranges p) (buckets p) f) as Hel.
  destruct (range_keys (ranges p) (buckets p)) as [|f0 l] eqn:E.
  - left. split; [|done]. apply map_empty. intros f. apply eq_None_not_Some. rewrite <-Hel. set_solver.
  - right. simpl. destruct (foldl_min_step l f0) as (f & Hf & Hin & Hle & Hall).
    rewrite Hf. simpl.
    assert (Hsome : is_Some (buckets p !! f)) by (apply Hel; set_solver).
    split_and!; [done| |].
    + destruct Hsome as [b Hb]. by eapply (bi_range _ _ _ (li_buckets _ Hi)) in Hb as [??].
    + intros f' Hf'%Hel. apply elem_of_cons in Hf' as [->|]; [done|by apply Hall].
Qed.

(** The keys of a bucket, newest first. *)
Definition bucket_keys (p : LFU) (f : Z) : list string := (λ x, key x.2) <$> bucket_or_new (buckets p) f.

Lemma elem_of_bucket_keys p f k :
  lfu_inv p → k ∈ bucket_keys p f ↔ freqs p !! k = Some f.
Proof.
  intros Hi. unfold bucket_keys. rewrite freqs_lookup, list_elem_of_fmap, fmap_Some.
  setoid_rewrite (bi_items _ _ _ (li_buckets _ Hi)). unfold at_, bucket_or_new. split.
  - intros ([i [k' ent]] & -> & Hin). simpl. destruct (buckets p !! f) as [b|] eqn:Hb; [|set_solver].
    exists {| el := i; freq := f |}. simpl. eauto.
  - intros ([i f'] & (ent & b & Hb & Hin) & ->). simpl in *. rewrite Hb. simpl.
    by exists (i, {| key := k; e := ent |}).
Qed.

Lemma lfu_empty p m : lfu_represents p m → m = ∅ ↔ buckets p = ∅.
Proof.
  intros Hrep. pose proof Hrep as [Hi Hm]. split.
  - intros ->. apply map_empty. intros f. apply eq_None_not_Some. intros [b Hb].
    destruct (bi_bucket_freq _ _ _ _ _ (li_buckets _ Hi) Hb) as (k & it & Hit & _).
    assert (is_Some (items p !! k)) as Hs by eauto.
    apply (lfu_represents_tracked _ _ _ Hrep) in Hs. rewrite lookup_empty in Hs. by destruct Hs.
  - intros Hb. apply map_empty. intros k. apply eq_None_not_Some. intros [ent Hk%Hm].
    rewrite Hb in Hk. by apply holds_empty in Hk.
Qed.

Lemma lfu_victim p m :
  lfu_represents p m →
  ∃ r, Victim p = Ret r ∧
    match r with
    | None => m = ∅
    | Some k => ∃ f, freqs p !! k = Some f ∧ last (bucket_keys p f) = Some k ∧
                     ∀ k' f', freqs p !! k' = Some f' → f ≤ f'
    end.
Proof.
  intros Hrep. pose proof Hrep as [Hi Hm]. unfold Victim.
  destruct (lowestFreq_spec p Hi) as [[Hb ->]|([b Hb] & Hpos & Hmin)].
  - exists None. split; [done|]. by apply (lfu_empty _ _ Hrep).
  - destruct (Z.eqb_spec (lowestFreqLocked p) 0); [lia|]. rewrite Hb. simpl. unfold Back.
    destruct (last b) as [[i nd]|] eqn:Hl.
    2: { apply last_None in Hl as ->. by eapply (bi_nonempty _ _ _ (li_buckets _ Hi)) in Hb. }
    eexists; split; [done|]. simpl.
    assert (Hlast : last (bucket_keys p (lowestFreqLocked p)) = Some (key nd)).
    { unfold bucket_keys, bucket_or_new. rewrite Hb. simpl. by rewrite fmap_last, Hl. }
    eexists. split; [|split; [exact Hlast|]].
    + apply elem_of_bucket_keys; [done|]. by apply last_Some_elem_of.
    + intros k' f' Hf'. apply Hmin. apply elem_of_bucket_freqs; eauto.
Qed.

Lemma candidates_loop_spec fuel cnt out p m :
  lfu_represents p m → m ≠ ∅ → (cnt ≤ length out + fuel)%nat → (length out ≤ cnt)%nat →
  ∃ out', candidates_loop fuel cnt out p = Ret out' ∧ length out' = cnt ∧
    ∀ k, k ∈ out' → k ∈ out ∨ freqs p !! k = Some (lowestFreqLocked p).
Proof.
  intros Hrep Hne. pose proof Hrep as [Hi Hm].
  destruct (lowestFreq_spec p Hi) as [[Hb _]|([b Hb] & Hpos & _)].
  { destruct Hne. by apply (lfu_empty _ _ Hrep). }
  assert (Hbne : b ≠ []) by by eapply (bi_nonempty _ _ _ (li_buckets _ Hi)).
  revert out. induction fuel as [|fuel IH]; intros out Hfuel Hlen; simpl; case_decide.
  - lia.
  - exists out. split_and!; [done|lia|]. by left.
  - destruct (Z.eqb_spec (lowestFreqLocked p) 0); [lia|]. rewrite Hb. simpl.
    set (new := take _ _).
    assert (Hnew : (1 ≤ length new ≤ cnt - length out)%nat).
    { unfold new, backwards. rewrite length_take, length_fmap, length_reverse.
      destruct b; simpl in *; [done|lia]. }
    destruct (IH (out ++ new)) as (out' & Hrun & Hl & Hin).
    1, 2: rewrite length_app; lia.
    exists out'. split_and!; [done|done|]. intros k [[|Hk]%elem_of_app|]%Hin; [by left| |by right].
    right. apply elem_of_bucket_keys; [done|]. unfold bucket_keys, bucket_or_new. rewrite Hb. simpl.
    unfold new, backwards in Hk. apply elem_of_take in Hk as (i & Hk%list_elem_of_lookup_2 & _).
    rewrite list_elem_of_fmap in Hk |- *. setoid_rewrite elem_of_reverse in Hk. done.
  - exists out. split_and!; [done|lia|]. by left.
Qed.

Lemma lfu_candidates cnt p m :
  lfu_represents p m →
  ∃ out, Candidates cnt p = Ret out ∧
    length out = (if decide (m = ∅) then 0%nat else Z.to_nat cnt) ∧
    ∀ k, k ∈ out → freqs p !! k = Some (lowestFreqLocked p).
Proof.
  intros Hrep. pose proof Hrep as [Hi Hm]. unfold Candidates.
  assert (Hn : n p = 0 ↔ m = ∅).
  { rewrite (li_n p) by done. rewrite (lfu_empty _ _ Hrep). split.
    - intros Hs. assert (items p = ∅) as Hit by (apply map_size_empty_inv; lia).
      apply map_empty. intros f. apply eq_None_not_Some. intros [b Hb].
      destruct (bi_bucket_freq _ _ _ _ _ (li_buckets _ Hi) Hb) as (k & it & Hk & _).
      by rewrite Hit, lookup_empty in Hk.
    - intros Hb. enough (items p = ∅) as -> by (by rewrite map_size_empty). apply map_empty. intros k. apply eq_None_not_Some.
      intros [it Hit]. apply (bi_items _ _ _ (li_buckets _ Hi)) in Hit as (ent & b & Hb' & _).
      by rewrite Hb, lookup_empty in Hb'. }
  destruct (Z.leb_spec cnt 0); simpl.
  { exists []. split_and!; [done| |set_solver]. case_decide; simpl; lia. }
  destruct (Z.eqb_spec (n p) 0) as [Hz|Hz].
  { exists []. split_and!; [done| |set_solver]. by rewrite decide_True by (by apply Hn). }
  destruct (candidates_loop_spec (Z.to_nat cnt) (Z.to_nat cnt) [] p m Hrep) as (out & Hrun & Hl & Hin).
  - by rewrite <-Hn.
  - simpl. lia.
  - simpl. lia.
  - exists out. split_and!; [done| |].
    + by rewrite decide_False by (by rewrite <-Hn).
    + intros k Hk. destruct (Hin k Hk) as [?|?]; [set_solver|done].
Qed.
End victim.

(** ** The interface *)

Section lawful.
Context `{GoRuntime}.

(** The period of the ageing pass: off exactly for a decay of at most zero. *)
Lemma recompute_ageMax p :
  is_u64 (ageMax (recomputeAgeMaxLocked p)) ∧
  if f64_le (decay p) f64_zero then ageMax (recomputeAgeMaxLocked p) = 0
  else 1 ≤ ageMax (recomputeAgeMaxLocked p).
Proof.
  unfold recomputeAgeMaxLocked; cbn [ageMax].
  pose proof (f64_to_u64_range (f64_div f64_one (decay p))) as Hr.
  set (k := f64_to_u64 _) in *. unfold is_u64 in *. destruct (f64_le _ _); [lia|].
  destruct (Z.ltb_spec k 1); lia.
Qed.

Lemma lfu_represents_New : lfu_represents NewLFU ∅.
Proof.
  unfold NewLFU. set (p0 := {| buckets := ∅ |}). pose proof (recompute_ageMax p0) as [Hr _].
  split; [split; simpl; try done|].
  - apply buckets_inv_empty.
  - intros k ent. rewrite lookup_empty. pose proof (holds_empty k ent). naive_solver.
Qed.

Lemma lfu_represents_SetParam name v p m p' :
  lfu_represents p m → SetParam name v p = inr p' → lfu_represents p' m ∧ freqs p' = freqs p.
Proof.
  intros [Hi Hm]. unfold SetParam. case_decide; [done|]. case_match; [done|]. intros [= <-].
  set (p1 := {| ageMax := ageMax p |}). pose proof (recompute_ageMax p1) as [Hr _].
  split; [|done]. split; [|done]. destruct Hi as [? ? ? ? ?]. split; try done.
Qed.

#[global, refine] Instance lfu_lawful : LawfulPolicy LFU := {
  key_ok _ := True;
  represents := lfu_represents;
}.
Proof.
  - intros k ent p m Hr. simpl. destruct (freqs p !! k) as [f|] eqn:Hf.
    + destruct (lfu_access k ent p m f Hr Hf) as (p' & ? & ? & _). eauto.
    + exists p. split; [by apply OnAccess_untracked|done].
  - intros k ent p m Hr _. simpl.
    destruct (lfu_represents_OnInsert k ent p m Hr) as (p' & ? & ? & _). eauto.
  - intros k ent p m Hr. eexists; split; [done|]. by apply lfu_represents_OnRemove.
  - intros p m Hr. simpl. destruct (lfu_victim p m Hr) as (r & -> & Hres). simpl.
    do 2 eexists. split; [done|]. split; [done|]. destruct r as [k|]; [|done].
    destruct Hres as (f & Hf & _). rewrite freqs_lookup in Hf. apply fmap_Some in Hf as (it & Hit & _).
    apply (lfu_represents_tracked _ _ _ Hr). eauto.
  - intros cnt p m Hr. simpl. destruct (lfu_candidates cnt p m Hr) as (ks & -> & _ & Hin). simpl.
    do 2 eexists. split; [done|]. split; [done|]. intros k Hk%Hin. rewrite freqs_lookup in Hk.
    apply fmap_Some in Hk as (it & Hit & _). apply (lfu_represents_tracked _ _ _ Hr). eauto.
  - intros name v p m p' Hr Hs. by eapply (lfu_represents_SetParam name v p m p').
  - intros es p m Hr Hnd _. eexists; split; [done|]. by eapply lfu_represents_Rebuild.
  - apply lfu_represents_MetadataBytes.
  - apply lfu_represents_Reset.
Defined.
End lawful.

(** ** Ageing chains *)

Lemma age_one_range x f : 1 ≤ f → 1 ≤ x → 1 ≤ age_one x f ≤ f.
Proof. intros. unfold age_one. pose proof (halve_range x). case_decide; lia. Qed.

Lemma age_chain_range fs f : 1 ≤ f → (∀ x, x ∈ fs → 1 ≤ x) → 1 ≤ age_chain fs f ≤ f.
Proof.
  unfold age_chain. revert f. induction fs as [|x fs IH]; intros f Hf Hfs; simpl; [lia|].
  pose proof (age_one_range x f Hf (Hfs x ltac:(left))).
  specialize (IH (age_one x f)). destruct IH; [lia|set_solver|lia].
Qed.

Lemma age_chain_not_in fs f : f ∉ fs → age_chain fs f = f.
Proof.
  unfold age_chain. induction fs as [|x fs IH]; intros Hf; simpl; [done|].
  unfold age_one at 2. rewrite decide_False by set_solver. apply IH. set_solver.
Qed.

Lemma age_chain_split fs1 fs2 f :
  f ∉ fs1 → age_chain (fs1 ++ f :: fs2) f = age_chain fs2 (halve f).
Proof.
  intros Hf. unfold age_chain. rewrite foldl_app. fold (age_chain fs1 f).
  rewrite age_chain_not_in by done. simpl. unfold age_one at 2. by rewrite decide_True.
Qed.

(** Any order at least halves; the increasing order halves exactly. *)
Lemma age_chain_at_most_half fs f :
  f ∈ fs → (∀ x, x ∈ fs → 1 ≤ x) → 1 ≤ age_chain fs f ≤ halve f.
Proof.
  intros Hin Hfs. apply list_elem_of_split_l in Hin as (l1 & l2 & -> & Hl1).
  rewrite age_chain_split by done. apply age_chain_range; [|set_solver].
  apply halve_range, Hfs. set_solver.
Qed.

Lemma age_chain_increasing fs f :
  StronglySorted Z.lt fs → f ∈ fs → 1 ≤ f → age_chain fs f = halve f.
Proof.
  intros Hs Hin Hf. induction Hs as [|x fs Hs IH Hall]; [set_solver|].
  rewrite Forall_forall in Hall. unfold age_chain; simpl. unfold age_one at 2.
  case_decide as Hx; subst.
  - apply age_chain_not_in. intros Hin'%Hall. pose proof (halve_range x Hf). lia.
  - apply IH. set_solver.
Qed.

(** ** Reference counting

    What the frequencies are when the pass is off: the number of uses since
    the insertion, at most the ceiling. *)
Definition count_hook (h : hook) (F : gmap string Z) : gmap string Z :=
  match h with
  | HAccess k _ => match F !! k with Some f => <[k := bump f]> F | None => F end
  | HInsert k _ => <[k := default 1 (bump <$> F !! k)]> F
  | HRemove k _ => delete k F
  end.

(** ** The order of the buckets

    A reference for the order too: the tracked keys with their counts, the one
    whose count changed last at the front. *)
Definition without (k : string) (R : list (string * Z)) : list (string * Z) := filter (λ x, x.1 ≠ k) R.
Definition count_of (k : string) (R : list (string * Z)) : option Z := (list_to_map R : gmap string Z) !! k.

(** A use of [k], counted [f] times so far; at the ceiling nothing changes. *)
Definition order_use (k : string) (f : Z) (R : list (string * Z)) : list (string * Z) :=
  if decide (bump f = f) then R else (k, bump f) :: without k R.

Definition order_hook (h : hook) (R : list (string * Z)) : list (string * Z) :=
  match h with
  | HAccess k _ => match count_of k R with Some f => order_use k f R | None => R end
  | HInsert k _ => match count_of k R with Some f => order_use k f R | None => (k, 1) :: R end
  | HRemove k _ => without k R
  end.

(** The buckets of [p] are the keys of each count in the order [R]. *)
Record in_order (p : LFU) (R : list (string * Z)) : Prop := {
  io_freqs k f : freqs p !! k = Some f ↔ (k, f) ∈ R;
  io_nodup : NoDup R.*1;
  io_buckets f : bucket_keys p f = (filter (λ x, x.2 = f) R).*1;
}.

Definition keys_of (bs : gmap Z (List lfuNode)) (f : Z) : list string := (λ x, key x.2) <$> bucket_or_new bs f.

Lemma keys_push f i nd bs f' :
  keys_of (bucket_push f i nd bs) f' = (if decide (f' = f) then [key nd] else []) ++ keys_of bs f'.
Proof.
  unfold keys_of, bucket_push, bucket_or_new, PushFront. case_decide; subst.
  - by rewrite lookup_insert_eq.
  - by rewrite lookup_insert_ne by done.
Qed.

Lemma keys_remove bs its nx k it f :
  buckets_inv bs its nx → its !! k = Some it →
  keys_of (bucket_remove (freq it) (el it) bs) f = filter (λ k', k' ≠ k) (keys_of bs f).
Proof.
  intros Hi Hit. pose proof Hit as [ent Hat]%(bi_items _ _ _ Hi).
  assert (Hk : ∀ f' i nd, at_ bs f' i nd → key nd = k ↔ f' = freq it ∧ i = el it).
  { intros f' i nd Hnd. split.
    - intros Hkey. destruct (at_key_inj _ _ _ _ _ _ _ _ _ Hi Hnd Hat Hkey) as (-> & -> & _). done.
    - intros [-> ->]. destruct Hnd as (b & Hb & Hin), Hat as (b' & Hb' & Hin'). simplify_eq.
      assert (nd = {| key := k; e := ent |}) as ->; [|done]. eapply NoDup_fst_eq; [by eapply bi_nodup|..]; done. }
  assert (Hother : f ≠ freq it → filter (λ k', k' ≠ k) (keys_of bs f) = keys_of bs f).
  { intros Hf. apply filter_all. intros k' Hk'. unfold keys_of, bucket_or_new in Hk'.
    apply list_elem_of_fmap in Hk' as ([i nd] & -> & Hin). cbn. rewrite (Hk f i nd); [naive_solver|].
    destruct (bs !! f) as [b|] eqn:Hb; [by exists b|]. by apply elem_of_nil in Hin. }
  unfold keys_of, bucket_or_new, bucket_remove in *. destruct Hat as (b & Hb & _). rewrite Hb.
  assert (Hremove : (λ x, key x.2) <$> Remove (el it) b = filter (λ k', k' ≠ k) ((λ x, key x.2) <$> b)).
  { apply fmap_filter. intros [i nd] Hin. cbn. rewrite (Hk (freq it) i nd); [naive_solver|by exists b]. }
  destruct (decide (f = freq it)) as [->|Hf]; case_decide as He;
    rewrite ?lookup_delete_eq, ?lookup_insert_eq, ?lookup_delete_ne, ?lookup_insert_ne by done.
  - rewrite Hb. cbn. by rewrite <-Hremove, He.
  - rewrite Hb. cbn. by rewrite <-Hremove.
  - by rewrite Hother.
  - by rewrite Hother.
Qed.

(** A node with another value keeps its key. *)
Lemma keys_replace bs b f i (g : lfuNode → lfuNode) f' :
  bs !! f = Some b → (∀ nd, key (g nd) = key nd) → keys_of (<[f := set_value i g b]> bs) f' = keys_of bs f'.
Proof.
  intros Hb Hg. unfold keys_of, bucket_or_new. destruct (decide (f' = f)) as [->|]; [|by rewrite lookup_insert_ne].
  rewrite lookup_insert_eq, Hb. cbn. unfold set_value. rewrite <-list_fmap_compose. apply list_fmap_ext.
  intros j x _. cbn. destruct (decide (x.1 = i)); [apply Hg|done].
Qed.

Lemma filter_without k f R : (filter (λ x, x.2 = f) (without k R)).*1 = filter (λ k', k' ≠ k) (filter (λ x, x.2 = f) R).*1.
Proof.
  unfold without. rewrite <-(fmap_filter fst (λ x : string * Z, x.1 ≠ k) (λ k', k' ≠ k)) by done. f_equal.
  rewrite !list_filter_filter. apply list_filter_iff. intros x. tauto.
Qed.

Lemma count_of_freqs p R k : in_order p R → count_of k R = freqs p !! k.
Proof.
  intros [Hf Hnd _]. unfold count_of. apply option_eq. intros f. rewrite Hf.
  symmetry. by apply elem_of_list_to_map.
Qed.

Lemma elem_of_without k R x : x ∈ without k R ↔ x.1 ≠ k ∧ x ∈ R.
Proof. unfold without. by rewrite list_elem_of_filter. Qed.

Lemma in_order_increment k it p p' m R :
  lfu_represents p m → in_order p R → items p !! k = Some it → incrementLocked k it p = Ret p' →
  in_order p' (order_use k (freq it) R).
Proof.
  intros Hrep Ho Hit Hrun. pose proof Hrep as [Hi _].
  destruct (lfu_increment k it p m Hrep Hit) as (p1 & Hrun1 & _ & Hfr & _). rewrite Hrun in Hrun1. simplify_eq.
  pose proof (bi_freq_range _ _ _ _ _ (li_buckets _ Hi) Hit) as Hr. unfold incrementLocked in Hrun.
  assert (Hkf : freqs p !! k = Some (freq it)) by (by rewrite freqs_lookup, Hit).
  rewrite (u32_small (freq it + 1)) in Hrun by (rewrite maxLFUFreq_eq in Hr; unfold is_u32; lia).
  assert (Hb : (if freq it + 1 >? maxLFUFreq then maxLFUFreq else freq it + 1) = bump (freq it))
    by (unfold bump; destruct (Z.gtb_spec (freq it + 1) maxLFUFreq); lia).
  rewrite Hb in Hrun. unfold order_use. destruct (Z.eqb_spec (freq it) (bump (freq it))) as [Heq|Hne].
  { rewrite decide_True by done. by simplify_eq. }
  rewrite decide_False by done.
  destruct (bi_elem_value _ _ _ _ _ (li_buckets _ Hi) Hit) as (b & v & Hbk & Hv & Hat).
  rewrite Hbk in Hrun. cbn in Hrun. rewrite Hv in Hrun. cbn in Hrun.
  destruct (bi_move _ _ _ k it v (bump (freq it)) (li_buckets _ Hi) Hit Hat) as (Hkey & _); [unfold bump; lia|].
  destruct Ho as [Hf Hnd Hbu]. split.
  - intros k' f'. rewrite Hfr, lookup_insert_Some, elem_of_cons, elem_of_without, Hf. cbn. naive_solver.
  - cbn. constructor; [|by apply NoDup_filter_fst].
    intros ([k' f'] & -> & [? _]%elem_of_without)%list_elem_of_fmap. done.
  - intros f'. injection Hrun as <-. change (keys_of (bucket_push (bump (freq it)) (next_el p) v
      (bucket_remove (freq it) (el it) (buckets p))) f' = (filter (λ x, x.2 = f') ((k, bump (freq it)) :: without k R)).*1).
    rewrite keys_push, (keys_remove _ _ _ k it f' (li_buckets _ Hi) Hit), filter_cons, Hkey.
    change (keys_of (buckets p) f') with (bucket_keys p f'). rewrite Hbu.
    cbn [snd]. destruct (decide (f' = bump (freq it))) as [->|]; [rewrite decide_True by done|rewrite decide_False by done];
      cbn; by rewrite filter_without.
Qed.

Section ordered.
Context `{GoRuntime}.

(** With no pass, a hook does to the buckets what it does to the order. *)
Lemma in_order_hook h p m R :
  lfu_represents p m → in_order p R → ageMax p = 0 →
  ∃ p', run_hook h p = Ret p' ∧ in_order p' (order_hook h R).
Proof.
  intros Hrep Ho Hz. pose proof Hrep as [Hi _]. pose proof (li_buckets _ Hi) as Hb.
  destruct h as [k ent|k ent|k ent]; cbn [order_hook]; rewrite ?(count_of_freqs p), ?freqs_lookup by done.
  - change (run_hook (HAccess k ent) p) with (OnAccess k ent p). unfold OnAccess.
    destruct (items p !! k) as [it|] eqn:Hit; cbn [fmap option_fmap option_map]; [|by exists p].
    destruct (lfu_increment k it p m Hrep Hit) as (p1 & Hrun & _ & _ & _ & _ & Hmx & _). rewrite Hrun. cbn.
    rewrite Hmx, Hz. cbn. exists p1. split; [done|]. by eapply in_order_increment.
  - change (run_hook (HInsert k ent) p) with (OnInsert k ent p). unfold OnInsert.
    destruct (items p !! k) as [it|] eqn:Hit; cbn [fmap option_fmap option_map].
    + destruct (bi_elem_value _ _ _ _ _ Hb Hit) as (b & v & Hbk & _ & _). rewrite Hbk. cbn.
      set (p1 := {| buckets := _ |}).
      pose proof (lfu_represents_replace k it ent b p m Hrep Hit Hbk : lfu_represents p1 _) as Hrep1.
      assert (Ho1 : in_order p1 R).
      { destruct Ho as [Hf Hnd Hbu]. split; [done..|]. intros f. rewrite <-Hbu. by apply (keys_replace (buckets p) b). }
      destruct (lfu_increment k it p1 _ Hrep1 Hit) as (p2 & Hrun & _). exists p2. split; [done|].
      by eapply in_order_increment.
    + eexists. split; [done|]. destruct Ho as [Hf Hnd Hbu].
      assert (Hno : ∀ f, (k, f) ∉ R) by (intros f Hin%Hf; by rewrite freqs_lookup, Hit in Hin).
      split.
      * intros k' f. unfold freqs. cbn [items]. rewrite fmap_insert. cbn [freq]. rewrite lookup_insert_Some, elem_of_cons.
        change (freq <$> items p) with (freqs p). rewrite Hf. split; [naive_solver|].
        intros [[= -> ->]|Hin]; [by left|]. right. split; [|done]. intros ->. by apply Hno in Hin.
      * cbn. constructor; [|done]. intros ([k' f] & -> & Hin)%list_elem_of_fmap. by apply Hno in Hin.
      * intros f. change (bucket_keys _ f) with (keys_of (bucket_push 1 (next_el p) {| key := k; e := ent |} (buckets p)) f).
        rewrite keys_push, filter_cons. cbn [snd key]. change (keys_of (buckets p) f) with (bucket_keys p f). rewrite Hbu.
        destruct (decide (f = 1)) as [->|]; [rewrite decide_True by done|rewrite decide_False by done]; done.
  - change (run_hook (HRemove k ent) p) with (Ret (OnRemove k ent p)). eexists. split; [done|].
    destruct (lfu_represents_OnRemove k ent p m Hrep) as (_ & Hfr & _). pose proof Ho as [Hf Hnd Hbu]. split.
    + intros k' f. rewrite Hfr, lookup_delete_Some, elem_of_without, Hf. cbn. naive_solver.
    + by apply NoDup_filter_fst.
    + intros f. rewrite filter_without, <-Hbu. unfold OnRemove. destruct (items p !! k) as [it|] eqn:Hit.
      * by apply (keys_remove _ _ _ k it f Hb Hit).
      * symmetry. apply filter_all. intros k' Hk' ->. apply (elem_of_bucket_keys p f k Hi) in Hk'.
        by rewrite freqs_lookup, Hit in Hk'.
Qed.

End ordered.

Section properties.
Context `{GoRuntime}.

(** One hook, with what it does to the frequencies when no pass runs. *)
Lemma lfu_run_hook h p m :
  lfu_represents p m →
  ∃ p', run_hook h p = Ret p' ∧ lfu_represents p' (hook_effect h m) ∧ ageMax p' = ageMax p ∧
    (ageMax p = 0 → freqs p' = count_hook h (freqs p)).
Proof.
  intros Hr. destruct h as [k ent|k ent|k ent]; simpl.
  - destruct (freqs p !! k) as [f|] eqn:Hf.
    + destruct (lfu_access k ent p m f Hr Hf) as (p' & ? & ? & ? & Hc). exists p'. split_and!; [done..|].
      intros Hz. rewrite Hz, !decide_False in Hc by lia. apply Hc.
    + exists p. rewrite OnAccess_untracked by done. done.
  - destruct (lfu_represents_OnInsert k ent p m Hr) as (p' & ? & ? & ? & _ & ?). by exists p'.
  - destruct (lfu_represents_OnRemove k ent p m Hr) as (? & ? & _ & ?). by eexists.
Qed.

Lemma lfu_run_hooks hs p m :
  lfu_represents p m →
  ∃ p', run_hooks hs p = Ret p' ∧ lfu_represents p' (foldl (flip hook_effect) m hs) ∧
    (ageMax p = 0 → freqs p' = foldl (flip count_hook) (freqs p) hs).
Proof.
  unfold run_hooks. revert p m. induction hs as [|h hs IH]; intros p m Hr; [by exists p|].
  destruct (lfu_run_hook h p m Hr) as (p1 & Hrun & Hr1 & Hmx & Hc).
  destruct (IH p1 _ Hr1) as (p' & Hrun' & Hr' & Hc'). exists p'. cbn [for_each foldl].
  rewrite Hrun. split_and!; [done|done|]. intros Hz. rewrite Hc', Hc by congruence. done.
Qed.

Lemma in_order_hooks hs p m R :
  lfu_represents p m → in_order p R → ageMax p = 0 →
  ∃ p', run_hooks hs p = Ret p' ∧ in_order p' (foldl (flip order_hook) R hs).
Proof.
  unfold run_hooks. revert p m R. induction hs as [|h hs IH]; intros p m R Hr Ho Hz; [by exists p|].
  destruct (lfu_run_hook h p m Hr) as (p1 & Hrun & Hr1 & Hmx & _).
  destruct (in_order_hook h p m R Hr Ho Hz) as (p1' & Hrun' & Ho1). rewrite Hrun in Hrun'. simplify_eq.
  destruct (IH p1' _ _ Hr1 Ho1) as (p' & Hrun1 & Ho'); [congruence|].
  exists p'. cbn [for_each foldl]. by rewrite Hrun.
Qed.

Lemma lfu_freq_range p m k f : lfu_represents p m → freqs p !! k = Some f → 1 ≤ f ≤ maxLFUFreq.
Proof.
  intros [Hi _] Hf. rewrite freqs_lookup in Hf. apply fmap_Some in Hf as (it & Hit & ->).
  eapply bi_freq_range; [apply Hi|done].
Qed.

(** C12: LFU never panics and its bookkeeping stays sound.  After any history
    of hooks from [NewLFU], whatever order the ageing passes visit the
    buckets in, the policy has returned, it tracks exactly the keys the
    history leaves, with their pointers, every frequency lies between 1 and
    65536, and [MetadataBytes] is 64 bytes a key. *)
Theorem lfu_history_sound hs :
  let m := foldl (flip hook_effect) ∅ hs in
  ∃ p, run_hooks hs NewLFU = Ret p ∧ lfu_represents p m ∧
    (∀ k, is_Some (freqs p !! k) ↔ is_Some (m !! k)) ∧
    (∀ k f, freqs p !! k = Some f → 1 ≤ f ≤ 65536) ∧
    (MetadataBytes p).2 = i64 (64 * Z.of_nat (size (freqs p))).
Proof.
  intros m. destruct (lfu_run_hooks hs NewLFU ∅ lfu_represents_New) as (p & Hrun & Hr & _).
  exists p. split_and!; [done|done| |intros k f; rewrite <-maxLFUFreq_eq; by apply (lfu_freq_range p m)|].
  - intros k. rewrite freqs_lookup, fmap_is_Some. by apply lfu_represents_tracked.
  - destruct Hr as [Hi _]. unfold freqs. rewrite map_size_fmap, <-(li_n p Hi).
    unfold MetadataBytes; simpl. case_match; [f_equal; unfold lfuPerEntryBytes; lia|apply Hi].
Qed.

(** C22: with ageing off ([decay_lambda = 0]) LFU is exact counting, first come
    first out within a count.  After any history from a fresh policy with the
    parameter set to 0, the frequencies are the reference counts, and each
    bucket lists the keys of its count, the last to reach it at the front.
    [Victim] is the key of least count that reached that count first: the keys
    whose count changed before its own did and has not since all have greater
    counts, and those whose count changed after have no smaller ones. *)
Theorem lfu_counts_without_ageing hs :
  let F := foldl (flip count_hook) ∅ hs in
  let R := foldl (flip order_hook) [] hs in
  ∃ p0 p r, SetParam "decay_lambda" f64_zero NewLFU = inr p0 ∧
    run_hooks hs p0 = Ret p ∧ freqs p = F ∧
    (∀ k f, (k, f) ∈ R ↔ F !! k = Some f) ∧
    (∀ f, bucket_keys p f = (filter (λ x, x.2 = f) R).*1) ∧
    Victim p = Ret r ∧
    match r with
    | None => F = ∅
    | Some k => ∃ f later earlier, F !! k = Some f ∧ R = later ++ (k, f) :: earlier ∧
                  Forall (λ x, f ≤ x.2) later ∧ Forall (λ x, f < x.2) earlier
    end.
Proof.
  intros F R. unfold SetParam. rewrite decide_False by (by intros []). simpl orb. cbn iota.
  set (p0 := recomputeAgeMaxLocked _).
  assert (Hr0 : lfu_represents p0 ∅).
  { by eapply (lfu_represents_SetParam "decay_lambda" f64_zero NewLFU ∅ p0); [apply lfu_represents_New|]. }
  assert (freqs p0 = ∅) as E by apply fmap_empty. destruct (lfu_run_hooks hs p0 ∅ Hr0) as (p & Hrun & Hr & Hc).
  assert (Ho0 : in_order p0 []).
  { split; [|constructor|done]. intros k f. rewrite E, lookup_empty. split; [done|]. by intros ?%elem_of_nil. }
  destruct (in_order_hooks hs p0 ∅ [] Hr0 Ho0) as (p' & Hrun' & [Hf _ Hb]); [done|].
  rewrite Hrun in Hrun'. simplify_eq. rewrite E in Hc. fold F in Hc. fold R in Hf, Hb.
  destruct (lfu_victim p' _ Hr) as (r & Hv & Hres).
  exists p0, p', r. split_and!; [done|done|by apply Hc|intros; by rewrite <-Hf, Hc|done|done|].
  rewrite Hc in * by done. destruct r as [k|].
  - destruct Hres as (f & Hk & Hlast & Hmin). rewrite Hb in Hlast.
    rewrite fmap_last in Hlast.
    apply fmap_Some in Hlast as ([k' f'] & Hlast & ->). apply last_filter_Some in Hlast as Hs.
    destruct Hs as (later & earlier & HR & Hne).
    assert (f' = f) as -> by (by apply last_Some_elem_of, list_elem_of_filter in Hlast as [? _]).
    exists f, later, earlier. split_and!; [done|done| |].
    + apply Forall_forall. intros [j g] Hj. cbn. apply (Hmin j), Hf. rewrite HR. set_solver.
    + apply Forall_forall. intros [j g] Hj. rewrite Forall_forall in Hne. specialize (Hne _ Hj). cbn in *.
      assert (f ≤ g); [|lia]. apply (Hmin j), Hf. rewrite HR. set_solver.
  - rewrite <-Hc by done. apply map_empty. intros k.
    apply eq_None_not_Some. rewrite freqs_lookup, fmap_is_Some, (lfu_represents_tracked p' _ k Hr), Hres, lookup_empty.
    by intros [].
Qed.

(** C24: what an access does.  On a tracked key of frequency [f] it returns;
    the frequency becomes [min (f + 1) 65536]; if this is the [ageMax]-th
    access since the last pass the counter restarts and every key [k'] of
    frequency [f'] drops to between 1 and [max 1 (f' / 2)]; otherwise no
    other frequency changes and the counter goes up by one. *)
Theorem lfu_OnAccess_frequencies k ent p m f :
  lfu_represents p m → freqs p !! k = Some f →
  ∃ p', OnAccess k ent p = Ret p' ∧ lfu_represents p' m ∧
    let bumped := <[k := Z.min 65536 (f + 1)]> (freqs p) in
    if decide (0 < ageMax p ≤ ageCnt p + 1)
    then ageCnt p' = 0 ∧
         (∀ k', is_Some (freqs p' !! k') ↔ is_Some (bumped !! k')) ∧
         (∀ k' f' g, bumped !! k' = Some f' → freqs p' !! k' = Some g → 1 ≤ g ≤ Z.max 1 (f' `div` 2))
    else freqs p' = bumped ∧
         ageCnt p' = if decide (0 < ageMax p) then ageCnt p + 1 else ageCnt p.
Proof.
  intros Hr Hf. destruct (lfu_access k ent p m f Hr Hf) as (p' & Hrun & Hr' & _ & Hc).
  exists p'. split; [done|]. split; [done|]. cbn zeta in *. unfold bump in Hc. rewrite maxLFUFreq_eq in Hc.
  case_decide; [|done]. destruct Hc as (Hc0 & fs & [_ Hfs] & Hfr). split; [done|]. rewrite Hfr.
  pose proof (lfu_freq_range p m k f Hr Hf) as Hkr. split.
  - intros k'. by rewrite lookup_fmap, fmap_is_Some.
  - intros k' f' g Hk'. rewrite lookup_fmap, Hk'. intros [= <-].
    assert (Hpos : ∀ x, x ∈ fs → 1 ≤ x).
    { intros x [j Hj]%Hfs. apply lookup_insert_Some in Hj as [[<- <-]|[_ Hj]]; [lia|].
      by eapply (lfu_freq_range p m j x Hr) in Hj as [??]. }
    pose proof (age_chain_at_most_half fs f' (proj2 (Hfs f') (ex_intro _ k' Hk')) Hpos) as Hh.
    unfold halve in Hh. destruct (Z.ltb_spec (f' `div` 2) 1); lia.
Qed.
End properties.

Section properties2.
Context `{GoRuntime}.

(** C23: the victim is a key of least frequency, the last of its bucket.  With
    ageing on or off, after any history of hooks, [Victim] returns; it names a
    key unless none is tracked, no tracked key has a smaller frequency, and
    within that frequency it is the key at the back of the list. *)
Theorem lfu_victim_least_frequent hs :
  ∃ p r, run_hooks hs NewLFU = Ret p ∧ Victim p = Ret r ∧
    match r with
    | None => foldl (flip hook_effect) ∅ hs = ∅
    | Some k => ∃ f, freqs p !! k = Some f ∧ last (bucket_keys p f) = Some k ∧
                     ∀ k' f', freqs p !! k' = Some f' → f ≤ f'
    end.
Proof.
  destruct (lfu_run_hooks hs NewLFU ∅ lfu_represents_New) as (p & Hrun & Hr & _).
  destruct (lfu_victim p _ Hr) as (r & Hv & Hres). by exists p, r.
Qed.

(** [Candidates] repeats the lowest bucket.  After any history that leaves
    a key tracked, [Candidates n] for positive [n] returns exactly [n] keys,
    all of them of the least frequency; when fewer than [n] keys have that
    frequency the list holds duplicates, and no key of a higher frequency is
    ever proposed. *)
Theorem lfu_candidates_repeat_lowest_bucket hs cnt :
  foldl (flip hook_effect) ∅ hs ≠ (∅ : gmap string (option eptr)) → 0 < cnt →
  ∃ p out f, run_hooks hs NewLFU = Ret p ∧ Candidates cnt p = Ret out ∧
    Z.of_nat (length out) = cnt ∧
    (∀ k' f', freqs p !! k' = Some f' → f ≤ f') ∧
    (∀ k, k ∈ out → freqs p !! k = Some f) ∧
    (Z.of_nat (length (bucket_keys p f)) < cnt → ¬ NoDup out).
Proof.
  intros Hne Hcnt. destruct (lfu_run_hooks hs NewLFU ∅ lfu_represents_New) as (p & Hrun & Hr & _).
  pose proof Hr as [Hi _]. destruct (lfu_candidates cnt p _ Hr) as (out & Hout & Hlen & Hin).
  rewrite decide_False in Hlen by done.
  exists p, out, (lowestFreqLocked p). split_and!; [done|done|lia| |done|].
  - intros k' f' Hk'. destruct (lowestFreq_spec p Hi) as [[Hb _]|(_ & _ & Hmin)].
    + exfalso. apply Hne. by apply (lfu_empty _ _ Hr).
    + apply Hmin, elem_of_bucket_freqs; eauto.
  - intros Hshort Hnd. assert (out ⊆+ bucket_keys p (lowestFreqLocked p)) as Hsub%submseteq_length; [|lia].
    apply NoDup_submseteq; [done|]. intros k Hk%Hin. by apply elem_of_bucket_keys.
Qed.

(** Ageing reverses the order within a frequency.  Visiting the bucket of
    frequency [f > 1] puts its keys in front of the bucket of [f / 2], in the
    opposite order: the key that was the next victim of its bucket (the last,
    the oldest) becomes the first, the youngest. *)
Theorem lfu_ageing_reverses_bucket p m f :
  lfu_represents p m → is_Some (buckets p !! f) → 1 < f →
  ∃ p', age_step f p = Ret p' ∧ lfu_represents p' m ∧
    bucket_keys p' (f `div` 2) = reverse (bucket_keys p f) ++ bucket_keys p (f `div` 2) ∧
    bucket_keys p' f = [].
Proof.
  intros [Hi Hm] [b Hb] Hf.
  destruct (lfu_age_step f p m (conj Hi Hm)) as (p' & Hrun & Hrep & _); [eauto|].
  exists p'. split; [done|]. split; [done|]. pose proof (bi_range _ _ _ (li_buckets _ Hi) _ _ Hb) as Hr.
  assert (Hh : halve f = f `div` 2).
  { unfold halve. pose proof (Z.div_le_lower_bound f 2 1). destruct (Z.ltb_spec (f `div` 2) 1); lia. }
  assert (Hlt : f `div` 2 < f) by (apply Z.div_lt; lia). pose proof (halve_range f) as Hhr.
  unfold age_step in Hrun. rewrite Hh in *.
  destruct (Z.eqb_spec (f `div` 2) f); [lia|]. rewrite Hb in Hrun. simpl in Hrun.
  destruct (move_all_spec (f `div` 2) f b (buckets p) (items p) (next_el p))
    as (nb & its' & nx' & Hmv & _ & _ & _ & Hnb); [apply Hi|done|lia|lia|].
  rewrite Hmv in Hrun. simpl in Hrun. injection Hrun as <-. unfold bucket_keys. simpl.
  unfold bucket_or_new in *. rewrite Hb. simpl.
  rewrite lookup_delete_ne, lookup_insert_eq, lookup_delete_eq by lia. simpl. split; [|done].
  assert (Hsplit : ∀ l : List lfuNode, (λ x, key x.2) <$> l = key <$> l.*2)
    by (intros; by rewrite <-list_fmap_compose).
  rewrite !Hsplit, Hnb, fmap_app, fmap_reverse. done.
Qed.

(** [SetParam].  Only [decay_lambda] exists and a value below 0 or above 1
    is refused; otherwise the value is stored, the access counter restarts and
    the period of the pass is [uint64(1/v)] but at least 1, or off when the
    value is not positive.  NaN is neither below 0 nor above 1: it is
    accepted, and ageing stays on with a period the platform chooses. *)
Theorem lfu_SetParam_spec name v p :
  match SetParam name v p with
  | inl _ => name ≠ "decay_lambda" ∨ f64_lt v f64_zero = true ∨ f64_lt f64_one v = true
  | inr p' => name = "decay_lambda" ∧ f64_lt v f64_zero = false ∧ f64_lt f64_one v = false ∧
      decay p' = v ∧ ageCnt p' = 0 ∧ buckets p' = buckets p ∧ items p' = items p ∧
      ageMax p' = (if f64_le v f64_zero then 0 else Z.max 1 (f64_to_u64 (f64_div f64_one v)))
  end ∧
  ∃ p', SetParam "decay_lambda" S754_nan p = inr p' ∧ decay p' = S754_nan ∧ 1 ≤ ageMax p'.
Proof.
  split.
  - unfold SetParam. case_decide as Hn; [by left|]. unfold f64_gt.
    change minDecayLambda with f64_zero. change maxDecayLambda with f64_one.
    destruct (f64_lt v f64_zero) eqn:E1; cbn [orb]; [right; by left|].
    destruct (f64_lt f64_one v) eqn:E2; cbn [orb]; [right; by right|].
    unfold recomputeAgeMaxLocked; cbn [decay ageCnt buckets items ageMax].
    split_and!; try done. destruct (f64_le v f64_zero); [done|].
    set (k := f64_to_u64 _). destruct (Z.ltb_spec k 1); lia.
  - unfold SetParam. rewrite decide_False by (by intros []). eexists. split; [done|]. split; [done|].
    match goal with |- 1 ≤ ageMax (recomputeAgeMaxLocked ?q) =>
      pose proof (recompute_ageMax q) as [_ Hq] end. done.
Qed.

Lemma lfu_represents_run hs p :
  run_hooks hs NewLFU = Ret p → lfu_represents p (foldl (flip hook_effect) ∅ hs).
Proof.
  intros Hrun. destruct (lfu_run_hooks hs NewLFU ∅ lfu_represents_New) as (p' & Hrun' & Hr & _).
  congruence.
Qed.
End properties2.

(** The frequencies after a pass depend on the order in which the [range]
    of [ageLocked] visits the buckets.  After one history, with a pass every
    five accesses, the key [a] has been accessed to frequency 4 and one pass
    has run: with one order it is left at 2, with another at 1, because the
    bucket of 4 is emptied into that of 2 before that one is visited. *)
Theorem lfu_ageing_depends_on_range_order :
  ∃ hs (p1 p2 : LFU),
    (p0 ← match @SetParam amd64_runtime "decay_lambda" (f64_of_ratio 2 10) (@NewLFU amd64_runtime) with
          | inl _ => Panic | inr p => Ret p end;
     @run_hooks LFU (@lfu_policy amd64_runtime) hs p0) = Ret p1 ∧
    (p0 ← match @SetParam backward_runtime "decay_lambda" (f64_of_ratio 2 10) (@NewLFU backward_runtime) with
          | inl _ => Panic | inr p => Ret p end;
     @run_hooks LFU (@lfu_policy backward_runtime) hs p0) = Ret p2 ∧
    ∃ f1 f2, freqs p1 !! "a" = Some f1 ∧ freqs p2 !! "a" = Some f2 ∧
      ((f1 = 2 ∧ f2 = 1) ∨ (f1 = 1 ∧ f2 = 2)).
Proof.
  exists [HInsert "a" None; HInsert "b" None; HInsert "c" None; HAccess "a" None;
          HAccess "a" None; HAccess "a" None; HAccess "b" None; HAccess "c" None].
  do 2 eexists. split; [vm_compute; reflexivity|]. split; [vm_compute; reflexivity|].
  do 2 eexists. split; [vm_compute; reflexivity|]. split; [vm_compute; reflexivity|]. lia.
Qed.

(** ** Witnesses *)

(** A policy with [a] used once and [b] twice. *)
Definition lfu_sample : LFU :=
  match run_hooks [HInsert "a" (Some 1%positive); HInsert "b" None; HAccess "b" None] NewLFU with
  | Ret p => p
  | _ => NewLFU
  end.

Definition lfu_sample_map : gmap string (option eptr) :=
  <["b" := None]> (<["a" := Some 1%positive]> ∅).

Lemma lfu_sample_represents : lfu_represents lfu_sample lfu_sample_map.
Proof.
  apply (lfu_represents_run [HInsert "a" (Some 1%positive); HInsert "b" None; HAccess "b" None]).
  vm_compute. reflexivity.
Qed.

Lemma lfu_OnAccess_frequencies_witness :
  ∃ p', OnAccess "b" None lfu_sample = Ret p' ∧ lfu_represents p' lfu_sample_map.
Proof.
  destruct (lfu_OnAccess_frequencies "b" None lfu_sample lfu_sample_map 2) as (p' & ? & ? & _).
  - apply lfu_sample_represents.
  - vm_compute. reflexivity.
  - exists p'. split; assumption.
Defined.

Lemma lfu_candidates_witness :
  ∃ p out f, run_hooks [HInsert "a" None; HInsert "b" None; HAccess "b" None] NewLFU = Ret p ∧
    Candidates 3 p = Ret out ∧ Z.of_nat (length out) = 3 ∧
    (∀ k' f', freqs p !! k' = Some f' → f ≤ f') ∧
    (∀ k, k ∈ out → freqs p !! k = Some f) ∧
    (Z.of_nat (length (bucket_keys p f)) < 3 → ¬ NoDup out).
Proof.
  apply (lfu_candidates_repeat_lowest_bucket
    [HInsert "a" None; HInsert "b" None; HAccess "b" None] 3).
  - discriminate.
  - lia.
Defined.

Lemma lfu_ageing_reverses_bucket_witness :
  ∃ p', age_step 2 lfu_sample = Ret p' ∧ lfu_represents p' lfu_sample_map ∧
    bucket_keys p' 1 = ["b"; "a"] ∧ bucket_keys p' 2 = [].
Proof.
  destruct (lfu_ageing_reverses_bucket lfu_sample lfu_sample_map 2) as (p' & ? & ? & Hk & ?).
  - apply lfu_sample_represents.
  - eexists. vm_compute. reflexivity.
  - lia.
  - exists p'. split_and!; try assumption.
Defined.
