(* ===== verification/Clock.v ===== *)
(** * cache/policy/clock.go: second chance

    A ring of slots with a reference bit each, a hand and the index from keys
    to slots.  Slice indexing out of range and [% 0] are panics; the loop of
    [OnInsert] that looks for a free slot has no bound in the code and gets
    fuel.  An empty key marks a free slot, so [""] is not a key the ring can
    hold; what happens to it is stated at the end. *)
From S2P Require Import Prelude GoFloat Types Policy.

Record clockSlot := { key : string; ref : bool; e : option eptr }.

Definition free_slot : clockSlot := {| key := ""; ref := false; e := None |}.

Record Clock := {
  index : gmap string nat;
  slots : list clockSlot;
  hand : nat;
  cap : nat;
  live : Z;
}.

Definition NewClock : Clock := {| index := ∅; slots := []; hand := 0; cap := 0; live := 0 |}.

Definition clockPerSlotBytes : Z := 24.

Definition Name (p : Clock) : PolicyName := PolicyClock.

Definition with_slots (p : Clock) (s : list clockSlot) : Clock :=
  {| index := index p; slots := s; hand := hand p; cap := cap p; live := live p |}.

Definition with_hand (p : Clock) (h : nat) : Clock :=
  {| index := index p; slots := slots p; hand := h; cap := cap p; live := live p |}.

(** [p.hand = (p.hand + 1) % p.cap] *)
Definition advance (p : Clock) : outcome Clock :=
  if decide (cap p = 0%nat) then Panic
  else Ret (with_hand p (S (hand p) mod cap p)).

(** [p.slots[i] = s] *)
Definition store_slot (i : nat) (s : clockSlot) (p : Clock) : outcome Clock :=
  if decide (i < length (slots p))%nat then Ret (with_slots p (<[i := s]> (slots p))) else Panic.

Definition OnAccess (k : string) (_ : option eptr) (p : Clock) : outcome Clock :=
  match index p !! k with
  | None => Ret p
  | Some i =>
      s ← or_panic (slots p !! i);
      store_slot i {| key := key s; ref := true; e := e s |} p
  end.

(** The loop of [growLocked]: copy the occupied slots to the front of the new
    ring and index them there. *)
Fixpoint compact (old : list clockSlot) (new : list clockSlot) (ix : gmap string nat) (idx : nat)
    : outcome (list clockSlot * gmap string nat * nat) :=
  match old with
  | [] => Ret (new, ix, idx)
  | s :: old =>
      if decide (key s = "") then compact old new ix idx
      else if decide (idx < length new)%nat
      then compact old (<[idx := s]> new) (<[key s := idx]> ix) (S idx)
      else Panic
  end.

Definition growLocked (p : Clock) : outcome Clock :=
  if live p <? Z.of_nat (cap p) then Ret p
  else
    let newCap := (cap p * 2)%nat in
    let newCap := if decide (newCap < 1)%nat then 1%nat else newCap in
    '(newSlots, ix, idx) ← compact (take (cap p) (slots p)) (replicate newCap free_slot) (index p) 0;
    Ret {| index := ix; slots := newSlots; hand := idx mod newCap; cap := newCap;
           live := Z.of_nat idx |}.

(** [for p.slots[p.hand].key != ""] *)
Fixpoint find_free (fuel : nat) (steps : nat) (p : Clock) : outcome Clock :=
  s ← or_panic (slots p !! hand p);
  if decide (key s = "") then Ret p
  else
    match fuel with
    | O => Diverge
    | S fuel =>
        p ← advance p;
        if decide (cap p < S steps)%nat then
          p ← growLocked p;
          find_free fuel 0 p
        else find_free fuel (S steps) p
    end.

(** One turn of the ring is all the loop can use: if it has not found a free
    slot after [cap p] steps it never will (see [find_free_diverges]). *)
Definition OnInsert (k : string) (ent : option eptr) (p : Clock) : outcome Clock :=
  match index p !! k with
  | Some i =>
      s ← or_panic (slots p !! i);
      store_slot i {| key := key s; ref := true; e := ent |} p
  | None =>
      p ← growLocked p;
      p ← find_free (cap p) 0 p;
      p ← store_slot (hand p) {| key := k; ref := true; e := ent |} p;
      advance {| index := <[k := hand p]> (index p); slots := slots p; hand := hand p;
                 cap := cap p; live := live p + 1 |}
  end.

Definition OnRemove (k : string) (_ : option eptr) (p : Clock) : outcome Clock :=
  match index p !! k with
  | None => Ret p
  | Some i =>
      p ← store_slot i free_slot p;
      Ret {| index := delete k (index p); slots := slots p; hand := hand p; cap := cap p;
             live := live p - 1 |}
  end.

(** The body shared by the loops of [Victim] and [Candidates]: skip a free
    slot, clear a set bit, or stop at an unreferenced key. *)
Inductive visit := Skipped | Stopped (k : string).

Definition visit_slot (p : Clock) : outcome (Clock * visit) :=
  s ← or_panic (slots p !! hand p);
  if decide (key s = "") then p ← advance p; Ret (p, Skipped)
  else if ref s then
    p ← store_slot (hand p) {| key := key s; ref := false; e := e s |} p;
    p ← advance p;
    Ret (p, Skipped)
  else Ret (p, Stopped (key s)).

(** [for k := 0; k < bound; k++], with [bound] turns left. *)
Fixpoint victim_loop (bound : nat) (p : Clock) : outcome (Clock * option string) :=
  match bound with
  | O =>
      s ← or_panic (slots p !! hand p);
      Ret (p, if decide (key s = "") then None else Some (key s))
  | S bound =>
      '(p, v) ← visit_slot p;
      match v with
      | Skipped => victim_loop bound p
      | Stopped k => Ret (p, Some k)
      end
  end.

Definition Victim (p : Clock) : outcome (Clock * option string) :=
  if live p =? 0 then Ret (p, None)
  else victim_loop (2 * length (slots p)) p.

Fixpoint candidates_loop (bound : nat) (cnt : nat) (out : list string) (p : Clock)
    : outcome (Clock * list string) :=
  match bound with
  | O => Ret (p, out)
  | S bound =>
      if decide (length out < cnt)%nat then
        '(p, v) ← visit_slot p;
        match v with
        | Skipped => candidates_loop bound cnt out p
        | Stopped k => p ← advance p; candidates_loop bound cnt (out ++ [k]) p
        end
      else Ret (p, out)
  end.

Definition Candidates (cnt : Z) (p : Clock) : outcome (Clock * list string) :=
  if (cnt <=? 0) || (live p =? 0) then Ret (p, [])
  else candidates_loop (2 * length (slots p)) (Z.to_nat cnt) [] p.

Definition ShouldAdmit (_ : string) (_ : Z) (_ : Clock) : bool := true.

Definition Params (_ : Clock) : gmap string Param := ∅.

Definition SetParam (name : string) (_ : float64) (_ : Clock) : param_error + Clock :=
  inl (NoSuchParameter "clock" name).

(** [for newCap < len(entries) { newCap *= 2 }]; the number of entries is fuel
    enough, since the capacity grows by at least one a turn. *)
Fixpoint double_until (fuel len newCap : nat) : nat :=
  if decide (newCap < len)%nat then
    match fuel with
    | O => newCap
    | S fuel => double_until fuel len (newCap * 2)
    end
  else newCap.

Fixpoint rebuild_loop (i : nat) (entries : list (eptr * Entry)) (p : Clock) : outcome Clock :=
  match entries with
  | [] => Ret p
  | x :: entries =>
      p ← store_slot i {| key := Key x.2; ref := false; e := Some x.1 |} p;
      rebuild_loop (S i) entries
        {| index := <[Key x.2 := i]> (index p); slots := slots p; hand := hand p; cap := cap p;
           live := live p + 1 |}
  end.

Definition Rebuild (entries : list (eptr * Entry)) (p : Clock) : outcome Clock :=
  let newCap := double_until (length entries) (length entries) 1 in
  rebuild_loop 0 entries
    {| index := ∅; slots := replicate newCap free_slot; hand := 0; cap := newCap; live := 0 |}.

Definition MetadataBytes (p : Clock) : Z := i64 (Z.of_nat (cap p) * clockPerSlotBytes).

Definition Reset (p : Clock) : Clock := NewClock.

#[global] Instance clock_policy : EvictionPolicy Clock := {
  Policy.Name := Name;
  Policy.OnAccess := OnAccess;
  Policy.OnInsert := OnInsert;
  Policy.OnRemove := OnRemove;
  Policy.Victim := Victim;
  Policy.Candidates := Candidates;
  Policy.ShouldAdmit := ShouldAdmit;
  Policy.Params := Params;
  Policy.SetParam := SetParam;
  Policy.Rebuild := Rebuild;
  Policy.MetadataBytes p := (p, MetadataBytes p);
  Policy.Reset := Reset;
}.

(** ** The invariant *)

Abbreviation occupied := (λ s : clockSlot, key s ≠ "").

Record clock_inv (p : Clock) : Prop := {
  ci_len : length (slots p) = cap p;
  ci_hand : (hand p < cap p)%nat ∨ (cap p = 0%nat ∧ hand p = 0%nat);
  ci_index k i : index p !! k = Some i ↔ k ≠ "" ∧ ∃ s, slots p !! i = Some s ∧ key s = k;
  ci_live : live p = Z.of_nat (count occupied (slots p));
  ci_pow : cap p = 0%nat ∨ ∃ j, cap p = (2 ^ j)%nat;
}.

Definition clock_represents (p : Clock) (m : gmap string (option eptr)) : Prop :=
  clock_inv p ∧
  ∀ k ent, m !! k = Some ent ↔ k ≠ "" ∧ ∃ i s, slots p !! i = Some s ∧ key s = k ∧ e s = ent.

(** The slots in the order the hand meets them. *)
Definition ring (p : Clock) : list clockSlot := rotate (hand p) (slots p).

Lemma clock_key_inj p i j s t :
  clock_inv p → slots p !! i = Some s → slots p !! j = Some t → key s = key t → key s ≠ "" →
  i = j ∧ s = t.
Proof.
  intros Hi Hs Ht Hk Hne.
  assert (index p !! key s = Some i) as E1 by (apply ci_index; eauto).
  assert (index p !! key s = Some j) as E2 by (apply ci_index; [done|]; rewrite Hk in *; eauto).
  assert (i = j) as <- by congruence. split; [done|congruence].
Qed.

Lemma clock_lookup p m i s :
  clock_represents p m → slots p !! i = Some s → key s ≠ "" → m !! key s = Some (e s).
Proof. intros [_ Hm] Hs Hk. apply Hm. split; [done|]. by exists i, s. Qed.

Lemma clock_tracked p m k : clock_represents p m → is_Some (index p !! k) ↔ is_Some (m !! k).
Proof.
  intros [Hi Hm]. split.
  - intros [i (Hk & s & Hs & <-)%(ci_index p Hi)]. exists (e s). apply Hm. eauto 6.
  - intros [ent (Hk & i & s & Hs & <- & _)%Hm]. exists i. apply ci_index; eauto.
Qed.

Lemma clock_no_empty_key p m : clock_represents p m → m !! "" = None.
Proof. intros [_ Hm]. apply eq_None_not_Some. intros [ent [? _]%Hm]. done. Qed.

Lemma clock_live_zero p m : clock_represents p m → live p = 0 ↔ m = ∅.
Proof.
  intros [Hi Hm]. rewrite (ci_live p Hi). split.
  - intros Hz. apply map_empty. intros k. apply eq_None_not_Some.
    intros [ent (Hk & i & s & Hs & <- & _)%Hm].
    assert (s ∈ filter occupied (slots p)) as Hin.
    { apply list_elem_of_filter. split; [done|]. by eapply list_elem_of_lookup_2. }
    unfold count in Hz. destruct (filter occupied (slots p)); [set_solver|simpl in *; lia].
  - intros ->. destruct (filter occupied (slots p)) as [|s l] eqn:E; unfold count; [by rewrite E|].
    assert (s ∈ filter occupied (slots p)) as Hin by (rewrite E; left).
    apply list_elem_of_filter in Hin as [Hs Hin]. apply list_elem_of_lookup in Hin as [i Hin].
    pose proof (clock_lookup p ∅ i s (conj Hi Hm) Hin Hs) as Habs. by rewrite lookup_empty in Habs.
Qed.

(** Rewriting an occupied slot without changing its key. *)
Lemma clock_represents_update p m i s r ent :
  clock_represents p m → slots p !! i = Some s → key s ≠ "" →
  clock_represents (with_slots p (<[i := {| key := key s; ref := r; e := ent |}]> (slots p)))
    (<[key s := ent]> m).
Proof.
  intros [Hi Hm] Hs Hk. pose proof (lookup_lt_Some _ _ _ Hs) as Hlt.
  set (s' := {| key := key s |}).
  assert (Hlk : ∀ j t, <[i := s']> (slots p) !! j = Some t ↔
    (j = i ∧ t = s') ∨ (j ≠ i ∧ slots p !! j = Some t)).
  { intros j t. rewrite list_lookup_insert_Some. naive_solver. }
  split; [split; simpl|]; simpl.
  - rewrite length_insert. apply Hi.
  - apply Hi.
  - intros k j. rewrite (ci_index p Hi). setoid_rewrite Hlk.
    split; intros [Hk' (t & Ht & <-)]; (split; [done|]).
    + destruct (decide (j = i)) as [->|]; [exists s'; naive_solver|naive_solver].
    + destruct Ht as [[-> ->]|[? ?]]; [by exists s|naive_solver].
  - rewrite (ci_live p Hi). f_equal. pose proof (count_insert occupied _ i s' s Hs) as Hc.
    simpl in Hc. rewrite !decide_True in Hc by done. lia.
  - apply Hi.
  - intros k ent'. rewrite lookup_insert_Some, Hm. setoid_rewrite Hlk. split.
    + intros [[<- <-]|(Hne & Hk' & j & t & Ht & <- & <-)].
      * split; [done|]. exists i, s'. split; [by left|done].
      * split; [done|]. exists j, t. split; [|done]. right. split; [|done]. intros ->. naive_solver.
    + intros (Hk' & j & t & [[-> ->]|[Hj Ht]] & <- & <-); [by left|].
      right. split; [|naive_solver]. intros Heq. apply Hj. by eapply (clock_key_inj p j i t s).
Qed.

Lemma clock_represents_ref p m i s r :
  clock_represents p m → slots p !! i = Some s → key s ≠ "" →
  clock_represents (with_slots p (<[i := {| key := key s; ref := r; e := e s |}]> (slots p))) m.
Proof.
  intros Hr Hs Hk. pose proof (clock_lookup p m i s Hr Hs Hk) as Hl.
  pose proof (clock_represents_update p m i s r (e s) Hr Hs Hk) as Hr'.
  by rewrite (insert_id m _ _ Hl) in Hr'.
Qed.

Lemma clock_represents_hand p m h :
  clock_represents p m → (h < cap p)%nat → clock_represents (with_hand p h) m.
Proof. intros [[? ? ? ? ?] Hm] Hh. split; [|done]. split; try done. by left. Qed.

(** Filling a free slot with a new key. *)
Lemma clock_represents_put p m i s k r ent :
  clock_represents p m → slots p !! i = Some s → key s = "" → k ≠ "" → m !! k = None →
  clock_represents
    {| index := <[k := i]> (index p); slots := <[i := {| key := k; ref := r; e := ent |}]> (slots p);
       hand := hand p; cap := cap p; live := live p + 1 |} (<[k := ent]> m).
Proof.
  intros [Hi Hm] Hs Hse Hk Hnew. pose proof (lookup_lt_Some _ _ _ Hs) as Hlt.
  set (s' := {| key := k |}).
  assert (Hlk : ∀ j t, <[i := s']> (slots p) !! j = Some t ↔
    (j = i ∧ t = s') ∨ (j ≠ i ∧ slots p !! j = Some t)).
  { intros j t. rewrite list_lookup_insert_Some. naive_solver. }
  assert (Hfresh : ∀ j t, slots p !! j = Some t → key t ≠ k).
  { intros j t Ht <-. pose proof (clock_lookup p m j t (conj Hi Hm) Ht Hk). congruence. }
  split; [split; simpl|]; simpl.
  - rewrite length_insert. apply Hi.
  - apply Hi.
  - intros k' j. rewrite lookup_insert_Some, (ci_index p Hi). setoid_rewrite Hlk. split.
    + intros [[<- <-]|(Hne & Hk' & t & Ht & <-)].
      * split; [done|]. exists s'. naive_solver.
      * split; [done|]. exists t. split; [|done]. right. split; [|done]. intros ->. naive_solver.
    + intros (Hk' & t & [[-> ->]|[Hj Ht]] & <-); [by left|]. right.
      split; [|by eauto]. intros Heq. by apply (Hfresh j t).
  - rewrite (ci_live p Hi). pose proof (count_insert occupied _ i s' s Hs) as Hc.
    simpl in Hc. rewrite decide_False, decide_True in Hc by naive_solver. lia.
  - apply Hi.
  - intros k' ent'. rewrite lookup_insert_Some, Hm. setoid_rewrite Hlk. split.
    + intros [[<- <-]|(Hne & Hk' & j & t & Ht & <- & <-)].
      * split; [done|]. exists i, s'. split; [by left|done].
      * split; [done|]. exists j, t. split; [|done]. right. split; [|done]. intros ->. naive_solver.
    + intros (Hk' & j & t & [[-> ->]|[Hj Ht]] & <- & <-); [by left|].
      right. split; [|by eauto 10]. intros Heq. by apply (Hfresh j t).
Qed.

Lemma store_slot_Ret i s p : (i < length (slots p))%nat →
  store_slot i s p = Ret (with_slots p (<[i := s]> (slots p))).
Proof. intros. unfold store_slot. by rewrite decide_True. Qed.

Lemma advance_Ret p : cap p ≠ 0%nat → advance p = Ret (with_hand p (S (hand p) mod cap p)).
Proof. intros. unfold advance. by rewrite decide_False. Qed.

Lemma clock_represents_OnAccess k ent p m :
  clock_represents p m → ∃ p', OnAccess k ent p = Ret p' ∧ clock_represents p' m.
Proof.
  intros Hr. unfold OnAccess. destruct (index p !! k) as [i|] eqn:Hix; [|by exists p].
  apply ci_index in Hix as (Hk & s & Hs & <-); [|apply Hr]. rewrite Hs. simpl.
  rewrite store_slot_Ret by (by eapply lookup_lt_Some). eexists; split; [done|].
  by apply clock_represents_ref.
Qed.

Lemma clock_represents_OnRemove k ent p m :
  clock_represents p m → ∃ p', OnRemove k ent p = Ret p' ∧ clock_represents p' (delete k m).
Proof.
  intros Hr. pose proof Hr as [Hi Hm]. unfold OnRemove. destruct (index p !! k) as [i|] eqn:Hix.
  - apply ci_index in Hix as (Hk & s & Hs & <-); [|done].
    pose proof (lookup_lt_Some _ _ _ Hs) as Hlt.
    rewrite store_slot_Ret by done. simpl. eexists; split; [done|].
    assert (Hlk : ∀ j t, <[i := free_slot]> (slots p) !! j = Some t ↔
      (j = i ∧ t = free_slot) ∨ (j ≠ i ∧ slots p !! j = Some t)).
    { intros j t. rewrite list_lookup_insert_Some. naive_solver. }
    assert (Hother : ∀ j t, slots p !! j = Some t → key t = key s ↔ j = i).
    { intros j t Ht. split; [|intros ->; congruence]. intros Heq.
      by eapply (clock_key_inj p j i t s); [..|congruence]. }
    split; [split; simpl|]; simpl.
    + rewrite length_insert. apply Hi.
    + apply Hi.
    + intros k' j. rewrite lookup_delete_Some, (ci_index p Hi). setoid_rewrite Hlk.
      split; [intros (Hne & Hk' & t & Ht & <-)|intros (Hk' & t & [[-> ->]|[Hj Ht]] & <-)].
      * split; [done|]. exists t. split; [|done]. right. split; [|done]. intros ->. naive_solver.
      * done.
      * split; [|by eauto]. intros Heq. apply Hj. by apply (Hother j t Ht).
    + rewrite (ci_live p Hi). pose proof (count_insert occupied _ i free_slot s Hs) as Hc.
      simpl in Hc. repeat case_decide; try done; lia.
    + apply Hi.
    + intros k' ent'. rewrite lookup_delete_Some, Hm. setoid_rewrite Hlk.
      split; [intros (Hne & Hk' & j & t & Ht & <- & <-)|intros (Hk' & j & t & [[-> ->]|[Hj Ht]] & <- & <-)].
      * split; [done|]. exists j, t. split; [|done]. right. split; [|done]. intros ->. naive_solver.
      * done.
      * split; [|by eauto 10]. intros Heq. apply Hj. by apply (Hother j t Ht).
  - exists p. split; [done|]. rewrite delete_id; [done|]. apply eq_None_not_Some.
    rewrite <-(clock_tracked p m k Hr), Hix. by intros [].
Qed.

Lemma clock_represents_New : clock_represents NewClock ∅.
Proof.
  split; [split; simpl; try done|].
  - by right.
  - intros k i. rewrite lookup_empty. naive_solver.
  - by left.
  - intros k ent. rewrite lookup_empty. simpl. naive_solver.
Qed.

(** ** Sweeping the ring *)

(** A slot the hand passes over: free, or referenced. *)
Definition passes (s : clockSlot) : Prop := key s = "" ∨ ref s = true.
#[global] Instance passes_dec s : Decision (passes s) := _.

(** What passing over it leaves. *)
Definition clear (s : clockSlot) : clockSlot :=
  if decide (key s = "") then s else {| key := key s; ref := false; e := e s |}.

Lemma ring_head p s r :
  clock_inv p → ring p = s :: r → (hand p < length (slots p))%nat ∧ slots p !! hand p = Some s.
Proof.
  intros Hi Hr. assert (Hlt : (hand p < length (slots p))%nat).
  { assert (length (ring p) = cap p) as Hl by (unfold ring; rewrite length_rotate; apply Hi).
    rewrite Hr in Hl. simpl in Hl. rewrite (ci_len p Hi). destruct (ci_hand p Hi); lia. }
  split; [done|]. unfold ring in Hr. by rewrite <-rotate_head, Hr by done.
Qed.

Lemma length_ring p : clock_inv p → length (ring p) = cap p.
Proof. intros Hi. unfold ring. rewrite length_rotate. apply Hi. Qed.

Lemma elem_of_ring p s : s ∈ ring p ↔ ∃ i, slots p !! i = Some s.
Proof. unfold ring. by rewrite elem_of_rotate, list_elem_of_lookup. Qed.

(** Passing over the slot under the hand. *)
Lemma visit_slot_pass p m s r :
  clock_represents p m → ring p = s :: r → passes s →
  ∃ p', visit_slot p = Ret (p', Skipped) ∧ clock_represents p' m ∧ ring p' = r ++ [clear s] ∧
        index p' = index p ∧ cap p' = cap p.
Proof.
  intros Hr Hring Hpass. pose proof Hr as [Hi _].
  destruct (ring_head p s r Hi Hring) as [Hlt Hs].
  assert (Hcap : cap p ≠ 0%nat) by (rewrite <-(ci_len p Hi); lia).
  assert (Hmod : (S (hand p) mod cap p < cap p)%nat) by (by apply Nat.mod_upper_bound).
  unfold visit_slot, clear. rewrite Hs. simpl. destruct (decide (key s = "")) as [Hk|Hk].
  - rewrite advance_Ret by done. simpl. eexists. split; [done|]. split; [by apply clock_represents_hand|].
    split; [|done]. unfold ring in *; simpl. rewrite <-(ci_len p Hi). by apply rotate_succ.
  - destruct Hpass as [|Href]; [done|]. rewrite Href, store_slot_Ret by done. simpl.
    set (s' := {| key := key s |}). set (p1 := with_slots p _).
    assert (Hr1 : clock_represents p1 m) by (by apply clock_represents_ref).
    rewrite advance_Ret by done. simpl. eexists. split; [done|].
    split; [by apply clock_represents_hand|]. split; [|done]. unfold ring in *; simpl.
    rewrite <-(ci_len p Hi), <-(length_insert (slots p) (hand p) s').
    apply (rotate_succ _ _ s'); [by rewrite length_insert|]. by eapply rotate_insert_head.
Qed.

Lemma visit_slot_stop p s r :
  clock_inv p → ring p = s :: r → ¬ passes s → visit_slot p = Ret (p, Stopped (key s)).
Proof.
  intros Hi Hring Hpass. destruct (ring_head p s r Hi Hring) as [Hlt Hs].
  unfold visit_slot, passes in *. rewrite Hs. simpl. rewrite decide_False by tauto.
  destruct (ref s); [tauto|done].
Qed.

(** Passing over a run of slots. *)
Lemma victim_loop_pass l1 l2 b p m :
  clock_represents p m → ring p = l1 ++ l2 → Forall passes l1 →
  ∃ p', victim_loop (length l1 + b) p = victim_loop b p' ∧ clock_represents p' m ∧
        ring p' = l2 ++ (clear <$> l1) ∧ cap p' = cap p.
Proof.
  intros Hr Hring Hall. revert p l2 Hr Hring.
  induction Hall as [|s l1 Hs _ IH]; intros p l2 Hr Hring; simpl.
  - exists p. by rewrite app_nil_r.
  - destruct (visit_slot_pass p m s (l1 ++ l2) Hr Hring Hs) as (p1 & -> & Hr1 & Hring1 & _ & Hcap1). simpl.
    destruct (IH p1 (l2 ++ [clear s]) Hr1) as (p' & -> & Hr' & Hring' & Hcap').
    { by rewrite Hring1, app_assoc. }
    exists p'. split_and!; [done|done| |congruence]. rewrite Hring', <-app_assoc. done.
Qed.

Lemma victim_loop_stop l1 s l2 b p m :
  clock_represents p m → ring p = l1 ++ s :: l2 → Forall passes l1 → ¬ passes s →
  (length l1 < b)%nat →
  ∃ p', victim_loop b p = Ret (p', Some (key s)) ∧ clock_represents p' m ∧
        ring p' = s :: l2 ++ (clear <$> l1) ∧ cap p' = cap p.
Proof.
  intros Hr Hring Hl1 Hs Hb.
  destruct (victim_loop_pass l1 (s :: l2) (S (b - S (length l1))) p m Hr Hring Hl1)
    as (p' & Hrun & Hr' & Hring' & Hcap').
  replace (length l1 + S (b - S (length l1)))%nat with b in Hrun by lia.
  exists p'. rewrite Hrun. simpl. rewrite (visit_slot_stop p' s _ (proj1 Hr') Hring' Hs). done.
Qed.

Lemma clear_key s : key (clear s) = key s.
Proof. unfold clear. by case_decide. Qed.

Lemma clear_stops s : passes (clear s) ↔ key s = "".
Proof. unfold passes, clear. case_decide; simpl; naive_solver. Qed.

(** The reference definition of second chance, on the ring: the first
    unreferenced key from the hand; when every key is referenced, the first
    key. *)
Definition second_chance (r : list clockSlot) : option string :=
  match list_find (λ s, ¬ passes s) r with
  | Some (_, s) => Some (key s)
  | None => (λ '(_, s), key s) <$> list_find occupied r
  end.

Lemma list_find_first {A} (P : A → Prop) `{!∀ x, Decision (P x)} l1 x l2 :
  (∀ y, y ∈ l1 → ¬ P y) → P x → list_find P (l1 ++ x :: l2) = Some (length l1, x).
Proof.
  intros Hl1 Hx. apply list_find_Some. split_and!; [by apply list_lookup_middle|done|].
  intros j y Hj Hlt. apply Hl1. rewrite lookup_app_l in Hj by done. by eapply list_elem_of_lookup_2.
Qed.

Lemma clock_victim p m :
  clock_represents p m → m ≠ ∅ →
  ∃ p' k, Victim p = Ret (p', Some k) ∧ clock_represents p' m ∧ is_Some (m !! k) ∧
    second_chance (ring p) = Some k ∧ cap p' = cap p ∧
    ∃ s r, ring p' = s :: r ∧ key s = k ∧ ref s = false.
Proof.
  intros Hr Hne. pose proof Hr as [Hi Hm]. unfold Victim, second_chance.
  destruct (Z.eqb_spec (live p) 0) as [Hz|_]; [by apply (clock_live_zero p m Hr) in Hz|].
  rewrite (ci_len p Hi).
  assert (Hkey : ∀ s, s ∈ ring p → key s ≠ "" → is_Some (m !! key s)).
  { intros s [i Hs]%elem_of_ring Hk. eexists. by eapply clock_lookup. }
  destruct (first_split (λ s, ¬ passes s) (ring p)) as [Hall|(l1 & s & l2 & Hring & Hs & Hl1)].
  - (* every key is referenced: a full turn clears the bits *)
    assert (Hp : Forall passes (ring p)).
    { apply Forall_forall. intros x Hx. apply dec_stable. by apply Hall. }
    destruct (list_find (λ s, ¬ passes s) (ring p)) as [[j s]|] eqn:Hf.
    { apply list_find_Some in Hf as (Hs & Hns & _). exfalso. eapply Hall; [|done]. by eapply list_elem_of_lookup_2. }
    destruct (first_split occupied (ring p)) as [Hempty|(l1 & s & l2 & Hring & Hs & Hl1)].
    { exfalso. apply Hne. apply map_empty. intros k. apply eq_None_not_Some.
      intros [ent (Hk & i & s & Hs & <- & _)%Hm]. eapply Hempty; [|done]. apply elem_of_ring. eauto. }
    destruct (victim_loop_pass (ring p) [] (cap p) p m Hr) as (p1 & Hrun & Hr1 & Hring1 & Hcap1);
      [by rewrite app_nil_r|done|].
    rewrite (length_ring p Hi) in Hrun. replace (2 * cap p)%nat with (cap p + cap p)%nat by lia.
    rewrite Hring, fmap_app in Hring1. simpl in Hring1.
    destruct (victim_loop_stop (clear <$> l1) (clear s) (clear <$> l2) (cap p) p1 m Hr1 Hring1)
      as (p' & Hrun' & Hr' & Hring' & Hcap').
    { apply Forall_fmap, Forall_forall. intros x Hx. simpl. apply clear_stops, dec_stable. by apply Hl1. }
    { by rewrite clear_stops. }
    { rewrite length_fmap, <-(length_ring p Hi), Hring, length_app. simpl. lia. }
    exists p', (key s). rewrite Hrun, Hrun', clear_key. split_and!; [done|done| | |congruence|].
    + apply Hkey; [|done]. rewrite Hring. set_solver.
    + rewrite Hring, list_find_first by done. done.
    + eexists _, _. split; [exact Hring'|]. rewrite clear_key. split; [done|].
      unfold clear. by rewrite decide_False.
  - destruct (victim_loop_stop l1 s l2 (2 * cap p) p m Hr Hring) as (p' & Hrun & Hr' & Hring' & Hcap').
    { apply Forall_forall. intros x Hx. apply dec_stable. by apply Hl1. }
    { done. }
    { rewrite <-(length_ring p Hi), Hring, length_app. simpl. lia. }
    assert (Hsk : key s ≠ "" ∧ ref s = false).
    { unfold passes in Hs. destruct (ref s); naive_solver. }
    exists p', (key s). rewrite Hring, list_find_first by done.
    split_and!; [done|done| |done|done|].
    + apply Hkey; [|naive_solver]. rewrite Hring. set_solver.
    + eexists _, _. split; [exact Hring'|]. naive_solver.
Qed.

Lemma clock_candidates_loop bound cnt out p m :
  clock_represents p m → cap p ≠ 0%nat → (∀ k, k ∈ out → is_Some (m !! k)) →
  ∃ p' out', candidates_loop bound cnt out p = Ret (p', out') ∧ clock_represents p' m ∧
    ∀ k, k ∈ out' → is_Some (m !! k).
Proof.
  intros Hr Hcap Hout. revert p out Hr Hcap Hout.
  induction bound as [|bound IH]; intros p out Hr Hcap Hout; simpl; [eauto|].
  case_decide; [|eauto].
  destruct (ring p) as [|s r] eqn:Hring.
  { pose proof (length_ring p (proj1 Hr)) as Hl. rewrite Hring in Hl. simpl in Hl. lia. }
  destruct (decide (passes s)) as [Hp|Hp].
  - destruct (visit_slot_pass p m s r Hr Hring Hp) as (p1 & -> & Hr1 & _ & _ & Hcap1). simpl.
    apply IH; [done|congruence|done].
  - rewrite (visit_slot_stop p s r (proj1 Hr) Hring Hp). simpl. rewrite advance_Ret by done. simpl.
    apply IH; [|done|].
    + apply clock_represents_hand; [done|]. by apply Nat.mod_upper_bound.
    + intros k [Hk| ->%list_elem_of_singleton]%elem_of_app; [by apply Hout|].
      destruct (ring_head p s r (proj1 Hr) Hring) as [_ Hs]. eexists. eapply clock_lookup; [done|done|].
      unfold passes in Hp. tauto.
Qed.

(** ** Growing the ring *)

Lemma compact_spec old new ix idx :
  NoDup (key <$> filter occupied old) →
  (idx + count occupied old ≤ length new)%nat →
  ∃ ix', compact old new ix idx =
      Ret (take idx new ++ filter occupied old ++ drop (idx + count occupied old) new, ix',
           (idx + count occupied old)%nat) ∧
    ∀ k i, ix' !! k = Some i ↔
      (∃ j s, filter occupied old !! j = Some s ∧ key s = k ∧ i = (idx + j)%nat) ∨
      (k ∉ key <$> filter occupied old ∧ ix !! k = Some i).
Proof.
  unfold count. revert new ix idx. induction old as [|s old IH]; intros new ix idx Hnd Hlen; simpl.
  - exists ix. rewrite Nat.add_0_r, take_drop. split; [done|]. set_solver.
  - destruct (decide (key s = "")) as [Hk|Hk].
    + rewrite filter_cons_False in * by (simpl; tauto). by apply IH.
    + rewrite (filter_cons_True occupied) in * by done. simpl in Hnd, Hlen.
      apply NoDup_cons in Hnd as [Hs Hnd]. rewrite decide_True by lia.
      destruct (IH (<[idx := s]> new) (<[key s := idx]> ix) (S idx) Hnd) as (ix' & -> & Hix').
      { rewrite length_insert. lia. }
      exists ix'. split.
      * f_equal. f_equal; [f_equal|]; [|simpl; lia].
        rewrite (take_S_r _ _ s) by (apply list_lookup_insert_eq; lia).
        rewrite take_insert_ge, drop_insert_lt by lia. rewrite <-app_assoc. simpl. by rewrite Nat.add_succ_r.
      * intros k i. rewrite Hix', lookup_insert_Some, fmap_cons, not_elem_of_cons. split.
        -- intros [(j & t & Ht & Hkt & ->)|(Hnk & [[<- <-]|[Hne Hi]])].
           ++ left. exists (S j), t. split_and!; [done|done|lia].
           ++ left. exists 0%nat, s. split_and!; [done|done|lia].
           ++ right. done.
        -- intros [([|j] & t & Ht & Hkt & ->)|([Hne Hnk] & Hi)].
           ++ simpl in Ht. injection Ht as ->. right. subst k. split; [done|]. left. split; [done|lia].
           ++ left. exists j, t. split_and!; [done|done|lia].
           ++ right. split; [done|]. right. done.
Qed.

Lemma clock_full p m :
  clock_represents p m → Z.of_nat (cap p) ≤ live p →
  filter occupied (slots p) = slots p ∧ live p = Z.of_nat (cap p).
Proof.
  intros [Hi _] Hfull. rewrite (ci_live p Hi), <-(ci_len p Hi) in *.
  pose proof (count_le occupied (slots p)). split; [|lia].
  apply filter_all. apply (count_full occupied). lia.
Qed.

(** Doubling a full ring. *)
Lemma clock_grow_full p m :
  clock_represents p m → Z.of_nat (cap p) ≤ live p →
  let newCap := if decide (cap p * 2 < 1)%nat then 1%nat else (cap p * 2)%nat in
  ∃ ix, growLocked p =
    Ret {| index := ix; slots := slots p ++ replicate (newCap - cap p) free_slot;
           hand := cap p mod newCap; cap := newCap; live := live p |} ∧
    clock_represents
      {| index := ix; slots := slots p ++ replicate (newCap - cap p) free_slot;
         hand := cap p mod newCap; cap := newCap; live := live p |} m ∧
    (cap p < newCap)%nat.
Proof.
  intros Hr Hfull newCap. pose proof Hr as [Hi Hm].
  destruct (clock_full p m Hr Hfull) as [Hall Hlive].
  assert (Hlt : (cap p < newCap)%nat) by (unfold newCap; case_decide; lia).
  assert (Hocc : ∀ s, s ∈ slots p → key s ≠ "").
  { intros s. rewrite <-Hall, list_elem_of_filter. tauto. }
  assert (Hnd : NoDup (key <$> slots p)).
  { apply NoDup_alt. intros i j k. rewrite !list_lookup_fmap. intros Hsi Hsj.
    apply fmap_Some in Hsi as (s & Hsi & ->), Hsj as (t & Hsj & Hk).
    eapply (clock_key_inj p i j s t); try done. apply Hocc. by eapply list_elem_of_lookup_2. }
  destruct (compact_spec (slots p) (replicate newCap free_slot) (index p) 0) as (ix & Hc & Hix).
  { by rewrite Hall. }
  { rewrite length_replicate. unfold count. rewrite Hall, (ci_len p Hi). lia. }
  assert (Hcnt : count occupied (slots p) = cap p) by (unfold count; by rewrite Hall, (ci_len p Hi)).
  exists ix. split; [|split; [|done]].
  - unfold growLocked. destruct (Z.ltb_spec (live p) (Z.of_nat (cap p))); [lia|].
    fold newCap. rewrite take_ge by (by rewrite (ci_len p Hi)). rewrite Hc. simpl.
    rewrite Hcnt, Hall, drop_replicate, Hlive. done.
  - rewrite Hall in Hix.
    assert (Hlk : ∀ i s, (slots p ++ replicate (newCap - cap p) free_slot) !! i = Some s → key s ≠ "" →
                 slots p !! i = Some s).
    { intros i s [|[_ Hs]]%lookup_app_Some Hk; [done|]. apply lookup_replicate in Hs as [-> _]. done. }
    split; [split; simpl|]; simpl.
    + rewrite length_app, length_replicate, (ci_len p Hi). lia.
    + left. apply Nat.mod_upper_bound. lia.
    + intros k i. rewrite Hix. split.
      * intros [(j & s & Hs & <- & ->)|[Hn Hk]].
        -- split; [apply Hocc; by eapply list_elem_of_lookup_2|]. exists s. split; [|done].
           by apply lookup_app_l_Some.
        -- apply (ci_index p Hi) in Hk as (_ & s & Hs & <-). destruct Hn. apply list_elem_of_fmap.
           exists s. split; [done|]. by eapply list_elem_of_lookup_2.
      * intros (Hk & s & Hs & <-). left. exists i, s. split_and!; [by apply Hlk|done|done].
    + rewrite Hlive. unfold count in *. rewrite filter_app, length_app, Hcnt.
      fold (count occupied (replicate (newCap - cap p) free_slot)).
      rewrite count_replicate by (intros []; done). lia.
    + right. unfold newCap. destruct (ci_pow p Hi) as [->|[j ->]].
      * exists 0%nat. done.
      * exists (S j). pose proof (Nat.pow_nonzero 2 j). rewrite Nat.pow_succ_r'. case_decide; lia.
    + intros k ent. rewrite Hm. split.
      * intros (Hk & i & s & Hs & ? & ?). split; [done|]. exists i, s. split; [|done]. by apply lookup_app_l_Some.
      * intros (Hk & i & s & Hs & <- & ?). split; [done|]. exists i, s. split; [|done]. by apply Hlk.
Qed.

Lemma clock_grow p m :
  clock_represents p m →
  ∃ p', growLocked p = Ret p' ∧ clock_represents p' m ∧ live p' < Z.of_nat (cap p') ∧
    (live p < Z.of_nat (cap p) → p' = p).
Proof.
  intros Hr. destruct (decide (live p < Z.of_nat (cap p))) as [Hlt|Hge].
  - exists p. unfold growLocked. destruct (Z.ltb_spec (live p) (Z.of_nat (cap p))); [|lia]. done.
  - assert (Hfull : Z.of_nat (cap p) ≤ live p) by lia.
    destruct (clock_grow_full p m Hr Hfull) as (ix & Hg & Hr' & Hlt).
    destruct (clock_full p m Hr Hfull) as [_ Hl].
    eexists. split; [exact Hg|]. split; [exact Hr'|]. cbn [live cap]. split; [|lia].
    rewrite Hl. by apply inj_lt.
Qed.

(** ** Finding a free slot *)

Lemma find_free_spec l1 s l2 fuel steps p m :
  clock_represents p m → ring p = l1 ++ s :: l2 → key s = "" →
  (∀ x, x ∈ l1 → key x ≠ "") → (length l1 ≤ fuel)%nat → (steps + length l1 ≤ cap p)%nat →
  ∃ h, find_free fuel steps p = Ret (with_hand p h) ∧ (h < cap p)%nat ∧ slots p !! h = Some s.
Proof.
  intros Hr Hring Hs. revert p steps fuel l2 Hr Hring.
  induction l1 as [|x l1 IH]; intros p steps fuel l2 Hr Hring Hl1 Hfuel Hsteps.
  - destruct (ring_head p s l2 (proj1 Hr) Hring) as [Hlt Hlk]. exists (hand p).
    rewrite (ci_len p (proj1 Hr)) in Hlt. destruct fuel; simpl; rewrite Hlk; simpl; rewrite decide_True by done;
      by destruct p.
  - destruct (ring_head p x (l1 ++ s :: l2) (proj1 Hr) Hring) as [Hlt Hlk].
    rewrite (ci_len p (proj1 Hr)) in Hlt.
    destruct fuel as [|fuel]; simpl in *; [lia|]. rewrite Hlk. simpl.
    rewrite decide_False by (apply Hl1; left). rewrite advance_Ret by lia. simpl.
    rewrite decide_False by lia.
    set (p1 := with_hand p (S (hand p) mod cap p)).
    assert (Hmod : (S (hand p) mod cap p < cap p)%nat) by (apply Nat.mod_upper_bound; lia).
    destruct (IH p1 (S steps) fuel (l2 ++ [x])) as (h & Hrun & Hh & Hlk').
    + by apply clock_represents_hand.
    + unfold ring in *. simpl. rewrite <-(ci_len p (proj1 Hr)).
      erewrite (rotate_succ _ _ x (l1 ++ s :: l2)); [|by rewrite (ci_len p (proj1 Hr))|done].
      by rewrite <-app_assoc.
    + intros y Hy. apply Hl1. by right.
    + lia.
    + simpl. lia.
    + exists h. rewrite Hrun. done.
Qed.

(** With no free slot and [live < cap] the loop never ends: growing does
    nothing, whatever the fuel. *)
Lemma find_free_diverges fuel steps p :
  length (slots p) = cap p → (hand p < cap p)%nat → live p < Z.of_nat (cap p) →
  (∀ s, s ∈ slots p → key s ≠ "") → find_free fuel steps p = Diverge.
Proof.
  revert steps p. induction fuel as [|fuel IH]; intros steps p Hlen Hh Hlive Hocc; simpl;
    destruct (lookup_lt_is_Some_2 (slots p) (hand p)) as [s Hs]; try lia; rewrite Hs; simpl;
    rewrite decide_False by (apply Hocc; by eapply list_elem_of_lookup_2); [done|].
  rewrite advance_Ret by lia. simpl.
  assert (Hmod : (S (hand p) mod cap p < cap p)%nat) by (apply Nat.mod_upper_bound; lia).
  case_decide.
  - unfold growLocked; simpl. destruct (Z.ltb_spec (live p) (Z.of_nat (cap p))); [|lia]. simpl. by apply IH.
  - by apply IH.
Qed.

Lemma clock_represents_OnInsert k ent p m :
  clock_represents p m → k ≠ "" →
  ∃ p', OnInsert k ent p = Ret p' ∧ clock_represents p' (<[k := ent]> m).
Proof.
  intros Hr Hk. unfold OnInsert. destruct (index p !! k) as [i|] eqn:Hix.
  - apply ci_index in Hix as (_ & s & Hs & <-); [|apply Hr]. rewrite Hs. simpl.
    rewrite store_slot_Ret by (by eapply lookup_lt_Some). eexists; split; [done|].
    by apply clock_represents_update.
  - assert (Hnew : m !! k = None).
    { apply eq_None_not_Some. rewrite <-(clock_tracked p m k Hr), Hix. by intros []. }
    destruct (clock_grow p m Hr) as (p1 & -> & Hr1 & Hlive & _). simpl.
    pose proof Hr1 as [Hi1 _].
    destruct (first_split (λ s, key s = "") (ring p1)) as [Hno|(l1 & s & l2 & Hring & Hs & Hl1)].
    { exfalso. assert (length (slots p1) ≤ count occupied (slots p1))%nat as Hc.
      { apply (count_full occupied). intros s Hs. apply Hno. unfold ring. by rewrite elem_of_rotate. }
      rewrite (ci_live p1 Hi1), (ci_len p1 Hi1) in *. lia. }
    pose proof (length_ring p1 Hi1) as Hlr. rewrite Hring, length_app in Hlr. simpl in Hlr.
    destruct (find_free_spec l1 s l2 (cap p1) 0 p1 m Hr1 Hring Hs Hl1) as (h & -> & Hh & Hlk); [lia|lia|].
    simpl. rewrite store_slot_Ret by (simpl; rewrite (ci_len p1 Hi1); done). simpl.
    pose proof (clock_represents_put p1 m h s k true ent Hr1 Hlk Hs Hk Hnew) as Hr2.
    rewrite advance_Ret by (simpl; lia). simpl. eexists; split; [done|].
    apply (clock_represents_hand _ _ (S h mod cap p1)) in Hr2; [exact Hr2|].
    apply Nat.mod_upper_bound. simpl. lia.
Qed.

(** ** Rebuilding *)

Lemma double_until_spec fuel len c j :
  c = (2 ^ j)%nat → (len ≤ c + fuel)%nat →
  (len ≤ double_until fuel len c)%nat ∧ ∃ j', double_until fuel len c = (2 ^ j')%nat.
Proof.
  revert c j. induction fuel as [|fuel IH]; intros c j Hc Hlen; simpl; case_decide; try lia; [|eauto..].
  - split; [lia|eauto].
  - pose proof (Nat.pow_nonzero 2 j). apply (IH _ (S j)); [rewrite Nat.pow_succ_r'; lia|lia].
  - split; [lia|eauto].
Qed.

Definition rebuilt_slot (x : eptr * Entry) : clockSlot :=
  {| key := Key x.2; ref := false; e := Some x.1 |}.

Lemma rebuild_loop_spec i es p m :
  clock_represents p m →
  (∀ j, (j < length es)%nat → slots p !! (i + j)%nat = Some free_slot) →
  NoDup (entry_keys es) → (∀ k, k ∈ entry_keys es → k ≠ "" ∧ m !! k = None) →
  ∃ p' m', rebuild_loop i es p = Ret p' ∧ clock_represents p' m' ∧
    (∀ k e, m' !! k = Some e ↔ m !! k = Some e ∨ ∃ x, x ∈ es ∧ Key x.2 = k ∧ Some x.1 = e) ∧
    hand p' = hand p ∧ cap p' = cap p ∧
    slots p' = list_inserts i (rebuilt_slot <$> es) (slots p).
Proof.
  revert i p m. induction es as [|x es IH]; intros i p m Hr Hfree Hnd Hks.
  - exists p, m. split_and!; [done|done|set_solver|done..].
  - rewrite entry_keys_cons, NoDup_cons in Hnd. destruct Hnd as [Hx Hnd].
    destruct (Hks (Key x.2)) as [Hk Hn]; [rewrite entry_keys_cons; left|].
    assert (Hi : slots p !! i = Some free_slot) by (rewrite <-(Nat.add_0_r i); apply Hfree; simpl; lia).
    pose proof (lookup_lt_Some _ _ _ Hi) as Hlt.
    cbn [rebuild_loop]. rewrite store_slot_Ret by done. simpl.
    pose proof (clock_represents_put p m i free_slot (Key x.2) false (Some x.1) Hr Hi eq_refl Hk Hn) as Hr1.
    destruct (IH (S i) _ _ Hr1) as (p' & m' & Hrun & Hr' & Hm' & Hh & Hc & Hs).
    + intros j Hj. simpl. rewrite list_lookup_insert_ne by lia.
      rewrite <-Nat.add_succ_r. apply Hfree. simpl. lia.
    + done.
    + intros k Hkin. destruct (Hks k) as [? ?]; [rewrite entry_keys_cons; by right|].
      split; [done|]. rewrite lookup_insert_ne; [done|]. by intros <-.
    + exists p', m'. split_and!; [exact Hrun|done| |done|done|].
      * intros k e0. rewrite Hm', lookup_insert_Some. setoid_rewrite elem_of_cons.
        destruct (decide (Key x.2 = k)) as [<-|]; naive_solver.
      * rewrite Hs. simpl. symmetry. apply list_insert_inserts_lt. lia.
Qed.

Lemma clock_represents_fresh c j :
  c = (2 ^ j)%nat →
  clock_represents {| index := ∅; slots := replicate c free_slot; hand := 0; cap := c; live := 0 |} ∅.
Proof.
  intros Hc. assert (Hlk : ∀ i s, replicate c free_slot !! i = Some s → key s = "").
  { intros i s [-> _]%lookup_replicate. done. }
  split; [split; simpl|]; simpl.
  - apply length_replicate.
  - left. pose proof (Nat.pow_nonzero 2 j). lia.
  - intros k i. rewrite lookup_empty. split; [done|]. intros (Hk & s & Hs%Hlk & <-). done.
  - rewrite count_replicate; [done|]. by intros [].
  - right. eauto.
  - intros k ent. rewrite lookup_empty. split; [done|]. intros (Hk & i & s & Hs%Hlk & <- & _). done.
Qed.

Lemma clock_represents_Rebuild es p :
  NoDup (entry_keys es) → Forall (.≠ "") (entry_keys es) →
  ∃ p', Rebuild es p = Ret p' ∧ clock_represents p' (entries_map es) ∧
    hand p' = 0%nat ∧ ∀ j x, es !! j = Some x → slots p' !! j = Some (rebuilt_slot x).
Proof.
  intros Hnd Hne. unfold Rebuild.
  destruct (double_until_spec (length es) (length es) 1 0) as [Hlen [j Hpow]]; [done|lia|].
  set (c := double_until _ _ _) in *.
  destruct (rebuild_loop_spec 0 es _ ∅ (clock_represents_fresh c j Hpow))
    as (p' & m' & Hrun & Hr & Hm & Hh & _ & Hs).
  - intros i Hi. simpl. apply lookup_replicate. simpl. split; [done|lia].
  - done.
  - intros k Hk. rewrite Forall_forall in Hne. split; [by apply Hne|apply lookup_empty].
  - exists p'. split; [done|]. split; [|split; [done|]].
    + assert (m' = entries_map es) as <-; [|done]. apply map_eq. intros k. apply option_eq. intros e0.
      rewrite Hm, entries_map_lookup by done. rewrite lookup_empty. naive_solver.
    + intros i x Hx. rewrite Hs. simpl. apply list_lookup_inserts_Some. right.
      pose proof (lookup_lt_Some _ _ _ Hx). rewrite length_replicate, Nat.sub_0_r, list_lookup_fmap, Hx.
      rewrite length_fmap. simpl. split_and!; [lia|lia|lia|done].
Qed.

#[global, refine] Instance clock_lawful : LawfulPolicy Clock := {
  key_ok k := k ≠ "";
  represents := clock_represents;
}.
Proof.
  - intros k ent p m Hr. by apply clock_represents_OnAccess.
  - intros k ent p m Hr Hk. by apply clock_represents_OnInsert.
  - intros k ent p m Hr. by apply clock_represents_OnRemove.
  - intros p m Hr. simpl. destruct (decide (m = ∅)) as [->|Hne].
    + exists p, None. unfold Victim. rewrite (proj2 (clock_live_zero p ∅ Hr)) by done. done.
    + destruct (clock_victim p m Hr Hne) as (p' & k & ? & ? & ? & _). by exists p', (Some k).
  - intros cnt p m Hr. simpl. unfold Candidates.
    destruct ((cnt <=? 0) || (live p =? 0)) eqn:Hz; [eexists _, _; split_and!; [done|done|set_solver]|].
    apply clock_candidates_loop; [done| |set_solver].
    apply orb_false_iff in Hz as [_ Hz%Z.eqb_neq]. pose proof Hr as [Hi _].
    rewrite (ci_live p Hi) in Hz. pose proof (count_le occupied (slots p)).
    rewrite (ci_len p Hi) in *. lia.
  - discriminate.
  - intros es p m _ Hnd Hne. destruct (clock_represents_Rebuild es p Hnd Hne) as (p' & ? & ? & _). by exists p'.
  - done.
  - intros p m _. apply clock_represents_New.
Defined.

(** ** Properties *)

(** C11: Clock's choice is second chance.  In a sound state with a key tracked,
    [Victim] returns within its two turns; it names a tracked key, namely the
    first unreferenced key from the hand, or, when every key is referenced, the
    first key from the hand; and it leaves the hand on that key with its bit
    clear, the tracked keys and the ring's capacity unchanged. *)
Theorem clock_victim_second_chance p m :
  clock_represents p m → m ≠ ∅ →
  ∃ p' k, Victim p = Ret (p', Some k) ∧ clock_represents p' m ∧ is_Some (m !! k) ∧
    second_chance (ring p) = Some k ∧ cap p' = cap p ∧
    ∃ s r, ring p' = s :: r ∧ key s = k ∧ ref s = false.
Proof. apply clock_victim. Qed.

Lemma clock_live_size p m : clock_represents p m → live p = Z.of_nat (size m).
Proof.
  intros [Hi Hm]. rewrite (ci_live p Hi). f_equal. unfold count.
  rewrite <-(size_dom m), <-(length_fmap key (filter occupied (slots p))).
  assert (Hnd : NoDup (key <$> filter occupied (slots p))).
  { apply NoDup_fmap_filter. intros i j s t Hs Ht Hk Heq. by eapply (clock_key_inj p i j s t). }
  rewrite <-(size_list_to_set (C := gset string)) by done. f_equal. apply set_eq. intros k.
  rewrite elem_of_list_to_set, elem_of_dom, list_elem_of_fmap.
  setoid_rewrite list_elem_of_filter. setoid_rewrite list_elem_of_lookup. unfold is_Some.
  setoid_rewrite Hm. split.
  - intros (s & -> & Hk & i & Hs). by exists (e s); split; [done|]; exists i, s.
  - intros (ent & Hk & i & s & Hs & <- & _). by exists s; split_and!; [done|done|exists i].
Qed.

(** C25: Clock never panics and its ring stays sound, as long as the empty
    string is not a key.  After any such history of hooks from [NewClock] the
    policy has returned, it tracks exactly the keys the history leaves, with
    their pointers, it counts them, they fit the ring, the ring is empty or a
    power of two of slots, and [MetadataBytes] is 24 bytes a slot. *)
Theorem clock_history_sound hs :
  Forall hook_key_ok hs →
  let m := foldl (flip hook_effect) ∅ hs in
  ∃ p, run_hooks hs NewClock = Ret p ∧ clock_represents p m ∧
    live p = Z.of_nat (size m) ∧ live p ≤ Z.of_nat (cap p) ∧
    (cap p = 0%nat ∨ ∃ j, cap p = (2 ^ j)%nat) ∧
    MetadataBytes p = i64 (24 * Z.of_nat (cap p)).
Proof.
  intros Hok m.
  destruct (@run_hooks_represents Clock clock_policy clock_lawful hs NewClock ∅
    clock_represents_New Hok) as (p & Hrun & Hr).
  exists p. pose proof Hr as [Hi _]. split_and!; [done|done|by apply clock_live_size| |apply Hi|].
  - rewrite (ci_live p Hi), <-(ci_len p Hi). pose proof (count_le occupied (slots p)). lia.
  - unfold MetadataBytes, clockPerSlotBytes. f_equal. lia.
Qed.

(** [Rebuild] grants no second chance.  For entries with different,
    non-empty keys it returns, the policy tracks exactly these entries, entry
    [j] in slot [j] with a clear bit, and the next victim is the first entry. *)
Theorem clock_Rebuild_no_credit es p x rest :
  NoDup (entry_keys es) → Forall (.≠ "") (entry_keys es) → es = x :: rest →
  ∃ p' p'', Rebuild es p = Ret p' ∧ clock_represents p' (entries_map es) ∧
    (∀ j y, es !! j = Some y →
       slots p' !! j = Some {| key := Key y.2; ref := false; e := Some y.1 |}) ∧
    Victim p' = Ret (p'', Some (Key x.2)).
Proof.
  intros Hnd Hne ->. destruct (clock_represents_Rebuild (x :: rest) p Hnd Hne) as (p' & Hrun & Hr & Hh & Hs).
  destruct (clock_victim p' _ Hr) as (p'' & k & Hv & _ & _ & Hsc & _).
  { intros Hem. apply (f_equal (lookup (Key x.2))) in Hem. rewrite lookup_empty in Hem.
    apply eq_None_not_Some in Hem. apply Hem. apply entries_map_dom; [done|]. rewrite entry_keys_cons. left. }
  exists p', p''. split_and!; [done|done|exact Hs|]. rewrite Hv. do 3 f_equal.
  pose proof (Hs 0%nat x eq_refl) as H0. pose proof Hr as [Hi _].
  assert (∃ r, ring p' = rebuilt_slot x :: r) as [r Hring].
  { pose proof (rotate_head (slots p') (hand p')) as Hrh. rewrite Hh in Hrh.
    rewrite H0 in Hrh. unfold ring. rewrite Hh. specialize (Hrh (lookup_lt_Some _ _ _ H0)).
    destruct (rotate 0 (slots p')) as [|y r]; simpl in Hrh; [done|].
    injection Hrh as ->. by exists r. }
  apply Forall_cons in Hne as [Hk _]. rewrite Hring in Hsc. unfold second_chance in Hsc.
  rewrite (list_find_first _ [] (rebuilt_slot x) r) in Hsc; [by injection Hsc|set_solver|].
  unfold passes, rebuilt_slot; simpl. naive_solver.
Qed.

(** Inserting [k] never returns: the key is new, growing does nothing, and the
    search for a free slot outlives every bound. *)
Record stuck (k : string) (p : Clock) : Prop := {
  sk_new : index p !! k = None;
  sk_grow : growLocked p = Ret p;
  sk_search fuel : find_free fuel 0 p = Diverge;
  sk_insert ent : OnInsert k ent p = Diverge;
}.

Lemma stuck_full k p :
  index p !! k = None → length (slots p) = cap p → (hand p < cap p)%nat → live p < Z.of_nat (cap p) →
  Forall occupied (slots p) → stuck k p.
Proof.
  intros Hk Hlen Hh Hlive Hocc. rewrite Forall_forall in Hocc.
  assert (Hgrow : growLocked p = Ret p).
  { unfold growLocked. destruct (Z.ltb_spec (live p) (Z.of_nat (cap p))); [done|lia]. }
  assert (Hsearch : ∀ fuel, find_free fuel 0 p = Diverge) by (intros; by apply find_free_diverges).
  split; [done..|]. intros ent. unfold OnInsert. rewrite Hk, Hgrow. cbn [mbind outcome_bind]. by rewrite Hsearch.
Qed.

(** The search for a free slot that is the one under the hand. *)
Lemma OnInsert_at_hand k ent p s :
  index p !! k = None → live p < Z.of_nat (cap p) → length (slots p) = cap p →
  slots p !! hand p = Some s → key s = "" →
  OnInsert k ent p =
    Ret {| index := <[k := hand p]> (index p); slots := <[hand p := {| key := k; ref := true; e := ent |}]> (slots p);
           hand := S (hand p) mod cap p; cap := cap p; live := live p + 1 |}.
Proof.
  intros Hk Hlive Hlen Hs Hfree. pose proof (lookup_lt_Some _ _ _ Hs) as Hlt.
  unfold OnInsert, growLocked. rewrite Hk. destruct (Z.ltb_spec (live p) (Z.of_nat (cap p))); [|lia].
  cbn [mbind outcome_bind].
  assert (Hff : find_free (cap p) 0 p = Ret p).
  { destruct (cap p); cbn [find_free]; rewrite Hs; cbn [or_panic mbind outcome_bind]; by rewrite decide_True. }
  rewrite Hff. cbn [mbind outcome_bind]. rewrite store_slot_Ret by done. cbn [mbind outcome_bind].
  rewrite advance_Ret by (cbn; lia). done.
Qed.

Lemma OnRemove_at k ent p i :
  index p !! k = Some i → (i < length (slots p))%nat →
  OnRemove k ent p =
    Ret {| index := delete k (index p); slots := <[i := free_slot]> (slots p); hand := hand p; cap := cap p;
           live := live p - 1 |}.
Proof. intros Hk Hi. unfold OnRemove. rewrite Hk, store_slot_Ret by done. done. Qed.

(** An empty key makes [OnInsert] loop forever.  After the insertion of [""]
    and of a key [a], and their removal, the count of live slots is one short,
    for both removals empty the same slot: [""] has left a stale index.  Two
    more keys then fill the ring of two slots with a count of one, and the
    insertion of any third never returns. *)
Lemma clock_empty_key_hangs a b c d :
  a ≠ "" → b ≠ "" → c ≠ "" → b ≠ c → d ≠ b → d ≠ c →
  ∀ e0, ∃ p0, OnInsert "" e0 NewClock = Ret p0 ∧
  ∀ e1, ∃ p1, OnInsert a e1 p0 = Ret p1 ∧
  ∀ e2, ∃ p2, OnRemove "" e2 p1 = Ret p2 ∧
  ∀ e3, ∃ p3, OnRemove a e3 p2 = Ret p3 ∧
  ∀ e4, ∃ p4, OnInsert b e4 p3 = Ret p4 ∧
  ∀ e5, ∃ p5, OnInsert c e5 p4 = Ret p5 ∧ stuck d p5.
Proof.
  intros Ha Hb Hc Hbc Hdb Hdc e0. eexists. split; [reflexivity|].
  intros e1. exists {| index := <[a := 0%nat]> {["" := 0%nat]};
    slots := [{| key := a; ref := true; e := e1 |}; free_slot]; hand := 1; cap := 2; live := 1 |}. split.
  { unfold OnInsert. cbn. rewrite lookup_insert_ne by done. reflexivity. }
  intros e2. exists {| index := {[a := 0%nat]}; slots := [free_slot; free_slot]; hand := 1; cap := 2; live := 0 |}.
  split.
  { erewrite (OnRemove_at "" e2 _ 0); [|cbn [index]; by rewrite lookup_insert_ne, lookup_singleton_eq|cbn; lia].
    cbn [index slots hand cap live]. by rewrite delete_insert_ne, delete_singleton_eq. }
  intros e3. exists {| index := ∅; slots := [free_slot; free_slot]; hand := 1; cap := 2; live := -1 |}. split.
  { erewrite (OnRemove_at a e3 _ 0); [|cbn [index]; by rewrite lookup_singleton_eq|cbn; lia].
    cbn [index slots hand cap live]. by rewrite delete_singleton_eq. }
  intros e4. eexists. split; [by apply (OnInsert_at_hand b e4 _ free_slot)|].
  intros e5. eexists. split.
  { eapply (OnInsert_at_hand c e5 _ free_slot); [cbn; by rewrite lookup_insert_ne|done..]. }
  apply stuck_full; [|done|cbn; lia|cbn; lia|].
  - cbn. by rewrite !lookup_insert_ne by done.
  - cbn. by repeat apply Forall_cons_2.
Qed.

(** [Candidates] is not a list of distinct victims.  After [Rebuild] with
    two entries, asking for four candidates names each key twice: the sweep
    makes two turns and stopping at a key does not mark it. *)
Theorem clock_candidates_repeat :
  ∃ p p' es, NoDup (entry_keys es) ∧ Rebuild es NewClock = Ret p ∧
    entry_keys es = ["a"; "b"] ∧ Candidates 4 p = Ret (p', ["a"; "b"; "a"; "b"]).
Proof.
  eexists _, _, [(1%positive, {| Key := "a"; EValue := []; Size := 1; InsertionTime := 0;
                                LastAccessTime := 0; AccessCount := 1 |});
                 (2%positive, {| Key := "b"; EValue := []; Size := 1; InsertionTime := 0;
                                LastAccessTime := 0; AccessCount := 1 |})].
  split; [|split; [vm_compute; reflexivity|split; [done|vm_compute; reflexivity]]].
  vm_compute. repeat constructor; set_solver.
Qed.

(** ** Witnesses *)

Definition clock_sample_hooks : list hook :=
  [HInsert "a" (Some 1%positive); HInsert "b" None; HAccess "a" None].

Definition clock_sample : Clock :=
  match run_hooks clock_sample_hooks NewClock with Ret p => p | _ => NewClock end.

Lemma clock_sample_ok : Forall hook_key_ok clock_sample_hooks.
Proof. repeat constructor; by intros. Qed.

Lemma clock_represents_run hs p :
  Forall hook_key_ok hs → run_hooks hs NewClock = Ret p →
  clock_represents p (foldl (flip hook_effect) ∅ hs).
Proof.
  intros Hok Hrun. destruct (@run_hooks_represents Clock clock_policy clock_lawful hs NewClock ∅
    clock_represents_New Hok) as (p' & Hrun' & Hr).
  rewrite Hrun' in Hrun. injection Hrun as <-. exact Hr.
Qed.

Lemma clock_victim_second_chance_witness :
  ∃ p' k, Victim clock_sample = Ret (p', Some k) ∧ second_chance (ring clock_sample) = Some k.
Proof.
  destruct (clock_victim_second_chance clock_sample (<["b" := None]> (<["a" := Some 1%positive]> ∅)))
    as (p' & k & Hv & _ & _ & Hs & _).
  - apply (clock_represents_run clock_sample_hooks); [apply clock_sample_ok|vm_compute; reflexivity].
  - discriminate.
  - exists p', k. split; assumption.
Defined.

Lemma clock_history_sound_witness :
  ∃ p, run_hooks clock_sample_hooks NewClock = Ret p ∧ live p = 2.
Proof.
  destruct (clock_history_sound clock_sample_hooks clock_sample_ok) as (p & Hrun & _ & Hlive & _).
  exists p. split; [exact Hrun|]. rewrite Hlive. vm_compute. reflexivity.
Defined.

Lemma clock_Rebuild_no_credit_witness :
  let es := [(1%positive, {| Key := "a"; EValue := []; Size := 1; InsertionTime := 0;
                            LastAccessTime := 0; AccessCount := 7 |})] in
  ∃ p' p'', Rebuild es NewClock = Ret p' ∧ Victim p' = Ret (p'', Some "a").
Proof.
  intros es. destruct (clock_Rebuild_no_credit es NewClock
    (1%positive, {| Key := "a"; EValue := []; Size := 1; InsertionTime := 0;
                    LastAccessTime := 0; AccessCount := 7 |}) []) as (p' & p'' & Hrun & _ & _ & Hv).
  - repeat constructor. set_solver.
  - repeat constructor. by intros.
  - reflexivity.
  - exists p', p''. split; assumption.
Defined.
