(* ===== verification/Registry.v ===== *)
(** * cache/policy/registry.go: policies by name

    The registry maps a name to a constructor.  [AnyPolicy] is the interface
    value of the source, one of the three registered policies with its state;
    it is an eviction policy whose every method is the one of the policy
    inside, and it satisfies the laws for non-empty keys, Clock's limit. *)
From S2P Require Import Prelude GoFloat Types Policy.
From S2P Require LRU.
From S2P Require LFU.
From S2P Require Clock.

(** ** Policies of any kind *)

Inductive AnyPolicy :=
| PLRU (p : LRU.LRU)
| PLFU (p : LFU.LFU)
| PClock (p : Clock.Clock).

Section any_policy.
Context `{GoRuntime}.

Definition as_lru (m : outcome LRU.LRU) : outcome AnyPolicy := p ← m; Ret (PLRU p).
Definition as_lfu (m : outcome LFU.LFU) : outcome AnyPolicy := p ← m; Ret (PLFU p).
Definition as_clock (m : outcome Clock.Clock) : outcome AnyPolicy := p ← m; Ret (PClock p).

Definition any_hook (f : ∀ {P} `{EvictionPolicy P}, P → outcome P) (p : AnyPolicy) : outcome AnyPolicy :=
  match p with
  | PLRU p => as_lru (f p)
  | PLFU p => as_lfu (f p)
  | PClock p => as_clock (f p)
  end.

Definition any_choice {R} (f : ∀ {P} `{EvictionPolicy P}, P → outcome (P * R)) (p : AnyPolicy)
    : outcome (AnyPolicy * R) :=
  match p with
  | PLRU p => '(p, r) ← f p; Ret (PLRU p, r)
  | PLFU p => '(p, r) ← f p; Ret (PLFU p, r)
  | PClock p => '(p, r) ← f p; Ret (PClock p, r)
  end.

Definition any_read {R} (f : ∀ {P} `{EvictionPolicy P}, P → R) (p : AnyPolicy) : R :=
  match p with PLRU p => f p | PLFU p => f p | PClock p => f p end.

#[global] Instance any_policy : EvictionPolicy AnyPolicy := {
  Name := any_read (@Name);
  OnAccess k e := any_hook (λ P _, OnAccess k e);
  OnInsert k e := any_hook (λ P _, OnInsert k e);
  OnRemove k e := any_hook (λ P _, OnRemove k e);
  Victim := any_choice (λ P _, Victim);
  Candidates n := any_choice (λ P _, Candidates n);
  ShouldAdmit k size := any_read (λ P _, ShouldAdmit k size);
  Params := any_read (λ P _, Params);
  SetParam name v p :=
    match p with
    | PLRU p => match SetParam name v p with inl e => inl e | inr p => inr (PLRU p) end
    | PLFU p => match SetParam name v p with inl e => inl e | inr p => inr (PLFU p) end
    | PClock p => match SetParam name v p with inl e => inl e | inr p => inr (PClock p) end
    end;
  Rebuild es := any_hook (λ P _, Rebuild es);
  MetadataBytes p :=
    match p with
    | PLRU p => let '(p, n) := MetadataBytes p in (PLRU p, n)
    | PLFU p => let '(p, n) := MetadataBytes p in (PLFU p, n)
    | PClock p => let '(p, n) := MetadataBytes p in (PClock p, n)
    end;
  Reset p := match p with PLRU p => PLRU (Reset p) | PLFU p => PLFU (Reset p) | PClock p => PClock (Reset p) end;
}.

Definition any_represents (p : AnyPolicy) (m : gmap string (option eptr)) : Prop :=
  match p with PLRU p => represents p m | PLFU p => represents p m | PClock p => represents p m end.

Lemma key_ok_nonempty k :
  k ≠ ""%string → key_ok (P := LRU.LRU) k ∧ key_ok (P := LFU.LFU) k ∧ key_ok (P := Clock.Clock) k.
Proof. done. Qed.

#[global, refine] Instance any_lawful : LawfulPolicy AnyPolicy := {
  key_ok k := k ≠ ""%string;
  represents := any_represents;
}.
Proof.
  - intros k e [p|p|p] m Hr; destruct (law_OnAccess k e p m Hr) as (p' & Hrun & Hr');
      cbn [OnAccess any_policy any_hook]; rewrite Hrun; simpl; eauto.
  - intros k e [p|p|p] m Hr Hk; destruct (key_ok_nonempty k Hk) as (H1 & H2 & H3);
      destruct (law_OnInsert k e p m Hr) as (p' & Hrun & Hr'); try done;
      cbn [OnInsert any_policy any_hook]; rewrite Hrun; simpl; eauto.
  - intros k e [p|p|p] m Hr; destruct (law_OnRemove k e p m Hr) as (p' & Hrun & Hr');
      cbn [OnRemove any_policy any_hook]; rewrite Hrun; simpl; eauto.
  - intros [p|p|p] m Hr; destruct (law_Victim p m Hr) as (p' & r & Hrun & Hr' & Hv);
      cbn [Victim any_policy any_choice]; rewrite Hrun; simpl; eauto.
  - intros n [p|p|p] m Hr; destruct (law_Candidates n p m Hr) as (p' & r & Hrun & Hr' & Hv);
      cbn [Candidates any_policy any_choice]; rewrite Hrun; simpl; eauto.
  - intros name v [p|p|p] m p' Hr; cbn [SetParam any_policy];
      (match goal with |- context [match ?x with inl _ => _ | inr _ => _ end] => destruct x eqn:E end);
      intros; simplify_eq; by eapply law_SetParam.
  - intros es [p|p|p] m Hr Hnd Hok;
      assert (Hk : ∀ k, k ∈ entry_keys es → k ≠ ""%string) by (by apply Forall_forall);
      destruct (law_Rebuild es p m Hr Hnd) as (p' & Hrun & Hr');
      try (apply Forall_forall; intros k Hin; by apply key_ok_nonempty, Hk);
      cbn [Rebuild any_policy any_hook]; rewrite Hrun; simpl; eauto.
  - intros [p|p|p] m Hr; pose proof (law_MetadataBytes p m Hr) as Hr'; cbn [MetadataBytes any_policy];
      (match goal with |- context [let '(_, _) := ?x in _] => destruct x end); done.
  - intros [p|p|p] m Hr; by apply law_Reset with m.
Defined.

(** Asking a sound policy for its metadata changes nothing in it. *)
Lemma any_metadata_same (p : AnyPolicy) m : represents p m → (MetadataBytes p).1 = p.
Proof.
  destruct p as [p|p|p]; intros Hr; [| |done].
  - transitivity (PLRU (LRU.MetadataBytes p).1); [|by rewrite (LRU.lru_metadata_same p m Hr)].
    by cbn [MetadataBytes any_policy LRU.lru_policy]; destruct (LRU.MetadataBytes p).
  - transitivity (PLFU (LFU.MetadataBytes p).1); [|by rewrite (LFU.lfu_metadata_same p m Hr)].
    by cbn [MetadataBytes any_policy LFU.lfu_policy]; destruct (LFU.MetadataBytes p).
Qed.
End any_policy.

(** ** Go's order on strings: bytewise, a prefix first *)

Definition byte (a : Ascii.ascii) : N := Ascii.N_of_ascii a.

Fixpoint string_le (s t : string) : bool :=
  match s, t with
  | EmptyString, _ => true
  | String _ _, EmptyString => false
  | String a s, String b t =>
      if (byte a =? byte b)%N then string_le s t else (byte a <? byte b)%N
  end.

Lemma byte_inj a b : byte a = byte b → a = b.
Proof. unfold byte. intros Heq. rewrite <-(Ascii.ascii_N_embedding a), Heq. apply Ascii.ascii_N_embedding. Qed.

#[global] Instance string_le_total : Total string_le.
Proof.
  intros s. induction s as [|a s IH]; intros [|b t]; simpl; auto.
  destruct (N.eqb_spec (byte a) (byte b)) as [->|Hne]; [rewrite N.eqb_refl; apply IH|].
  destruct (N.eqb_spec (byte b) (byte a)); [congruence|]. unfold Is_true.
  destruct (N.ltb_spec (byte a) (byte b)), (N.ltb_spec (byte b) (byte a)); auto; lia.
Qed.

#[global] Instance string_le_trans : Transitive string_le.
Proof.
  intros s. induction s as [|a s IH]; intros [|b t] [|c u]; simpl; try done.
  destruct (N.eqb_spec (byte a) (byte b)) as [Hab|Hab], (N.eqb_spec (byte b) (byte c)) as [Hbc|Hbc],
    (N.eqb_spec (byte a) (byte c)) as [Hac|Hac]; try congruence; eauto;
    rewrite ?Hab, ?Hbc; auto; unfold Is_true;
    destruct (N.ltb_spec (byte a) (byte b)), (N.ltb_spec (byte b) (byte c)), (N.ltb_spec (byte a) (byte c));
    try done; lia.
Qed.

#[global] Instance string_le_antisym : AntiSymm (=) string_le.
Proof.
  intros s. induction s as [|a s IH]; intros [|b t]; simpl; try done.
  destruct (N.eqb_spec (byte a) (byte b)) as [Heq|Hne].
  - rewrite Heq, N.eqb_refl. intros. f_equal; [by apply byte_inj|by apply IH].
  - destruct (N.eqb_spec (byte b) (byte a)); [congruence|]. unfold Is_true.
    destruct (N.ltb_spec (byte a) (byte b)), (N.ltb_spec (byte b) (byte a)); try done; lia.
Qed.

(** ** The registry *)

Definition Constructor (P : Type) : Type := unit → P.
Abbreviation registry P := (gmap PolicyName (Constructor P)).

Section registry.
Context {P : Type}.
Implicit Types r : registry P.

(** [None] is a nil constructor. *)
Definition Register (name : PolicyName) (ctor : option (Constructor P)) (r : registry P) : outcome (registry P) :=
  match ctor with
  | None => Panic
  | Some c => Ret (<[name := c]> r)
  end.

Definition New (name : PolicyName) (r : registry P) : option P :=
  match r !! name with Some ctor => Some (ctor ()) | None => None end.

Definition IsKnown (name : PolicyName) (r : registry P) : bool := bool_decide (is_Some (r !! name)).

Definition UnregisterAll (_ : registry P) : registry P := ∅.

(** [sort.Slice] of the keys in the order the range statement gives them. *)
Definition Names `{GoRuntime} (tick : nat) (r : registry P) : list PolicyName :=
  merge_sort string_le (range_keys tick r).
End registry.

Lemma elem_of_Names `{GoRuntime} {P} (r : registry P) tick n : n ∈ Names tick r ↔ is_Some (New n r).
Proof.
  unfold Names, New. rewrite merge_sort_Permutation, elem_of_range_keys.
  destruct (r !! n); split; intros [? ?]; eauto; done.
Qed.

(** C34: the registry is a finite map.  [Names] lists exactly the registered
    names, each once, in increasing order, and is the same list whatever order
    the map is visited in; a name is known exactly when [New] constructs a
    policy for it; registering binds the name, replacing an older constructor,
    and leaves the other names alone; and [UnregisterAll] forgets them all. *)
Theorem registry_is_a_sorted_map {P} (r : registry P) (rt rt' : GoRuntime) tick tick' name ctor :
  (∀ n, n ∈ Names tick r ↔ is_Some (New n r)) ∧ NoDup (Names tick r) ∧
  StronglySorted string_le (Names tick r) ∧
  Names (H := rt) tick r = Names (H := rt') tick' r ∧
  IsKnown name r = bool_decide (is_Some (New name r)) ∧
  (∃ r', Register name (Some ctor) r = Ret r' ∧ New name r' = Some (ctor ()) ∧
    ∀ n, n ≠ name → New n r' = New n r) ∧
  Register name None r = Panic ∧
  Names tick (UnregisterAll r) = [].
Proof.
  split_and!.
  - intros n. apply elem_of_Names.
  - unfold Names. rewrite merge_sort_Permutation. apply NoDup_range_keys.
  - apply (StronglySorted_merge_sort _).
  - unfold Names. apply (StronglySorted_unique string_le); [apply (StronglySorted_merge_sort _)..|].
    rewrite !merge_sort_Permutation. unfold range_keys. by rewrite !range_order_perm.
  - unfold IsKnown, New. apply bool_decide_ext. destruct (r !! name); split; intros [? ?]; eauto; done.
  - eexists. split; [done|]. unfold New. split; [by rewrite lookup_insert_eq|].
    intros n Hn. by rewrite lookup_insert_ne.
  - done.
  - unfold Names, UnregisterAll. apply Permutation_nil. symmetry.
    rewrite merge_sort_Permutation. unfold range_keys.
    rewrite map_to_list_empty, range_order_perm. reflexivity.
Qed.

(** The registrations of the package's [init] functions. *)
Definition init_registry `{GoRuntime} : outcome (registry AnyPolicy) :=
  r ← Register PolicyClock (Some (λ _, PClock Clock.NewClock)) ∅;
  r ← Register PolicyLFU (Some (λ _, PLFU LFU.NewLFU)) r;
  Register PolicyLRU (Some (λ _, PLRU LRU.NewLRU)) r.

Lemma init_registry_new `{GoRuntime} r name p :
  init_registry = Ret r → New name r = Some p → Name p = name ∧ represents p ∅.
Proof.
  unfold init_registry, Register. cbn [mbind outcome_bind]. intros [= <-]. unfold New.
  destruct (decide (name = PolicyLRU)) as [->|H1];
    [|destruct (decide (name = PolicyLFU)) as [->|H2];
      [|destruct (decide (name = PolicyClock)) as [->|H3]]];
    simplify_map_eq; intros [= <-]; (split; [done|]); simpl;
    auto using LRU.lru_represents_New, LFU.lfu_represents_New, Clock.clock_represents_New.
Qed.

Lemma init_registry_names `{GoRuntime} tick r :
  init_registry = Ret r → Names tick r = [PolicyClock; PolicyLFU; PolicyLRU].
Proof.
  unfold init_registry, Register. cbn [mbind outcome_bind]. intros [= <-].
  apply (StronglySorted_unique string_le); [apply (StronglySorted_merge_sort _)|repeat constructor|].
  unfold Names. rewrite merge_sort_Permutation.
  apply NoDup_Permutation; [apply NoDup_range_keys|by apply (bool_decide_unpack _)|].
  intros k. rewrite elem_of_range_keys. unfold is_Some. setoid_rewrite lookup_insert_Some.
  setoid_rewrite lookup_insert_Some. setoid_rewrite lookup_insert_Some.
  rewrite !elem_of_cons. split.
  - intros [x Hx]. rewrite lookup_empty in Hx. naive_solver.
  - destruct (decide (k = PolicyLRU)), (decide (k = PolicyLFU)), (decide (k = PolicyClock));
      naive_solver set_solver.
Qed.

(** After initialisation the registered policies are clock, lfu and lru,
    and each constructs an empty policy of its own name. *)
Theorem init_registry_policies `{GoRuntime} tick :
  ∃ r, init_registry = Ret r ∧ Names tick r = [PolicyClock; PolicyLFU; PolicyLRU] ∧
    ∀ name p, New name r = Some p → Name p = name ∧ represents p ∅.
Proof.
  eexists. split; [reflexivity|]. split; [by apply init_registry_names|].
  intros name p. by apply init_registry_new.
Qed.
