(* ===== verification/Events.v ===== *)
(** * events/: the publish/subscribe bus

    The event types of events/types.go and the in-process bus of events/bus.go.
    Subscribers and channels are objects behind pointers (a subscriber is
    reached from the map, from the publication order and through its channel
    from the consumer), so the bus works on two heaps.  A channel keeps its
    bounded buffer, whether it is closed, how many receivers are blocked on it
    and, as a history variable, the events receivers have taken off it. *)
From S2P Require Import Prelude GoFloat Types.

(** ** events/types.go *)

Definition TypeRequest : Z := 0.
Definition TypeHit : Z := 1.
Definition TypeMiss : Z := 2.
Definition TypeEviction : Z := 3.
Definition TypeDetection : Z := 4.
Definition TypeSwitch : Z := 5.
Definition TypeTuning : Z := 6.
Definition TypeTierPromote : Z := 7.
Definition TypeTierDemote : Z := 8.
Definition TypeScenarioMark : Z := 9.
Definition TypeRunStart : Z := 10.
Definition TypeRunEnd : Z := 11.

Definition maxType : Z := TypeRunEnd + 1.

Definition Type_String (t : Z) : string :=
  if t =? TypeRequest then "request"
  else if t =? TypeHit then "hit"
  else if t =? TypeMiss then "miss"
  else if t =? TypeEviction then "eviction"
  else if t =? TypeDetection then "detection"
  else if t =? TypeSwitch then "switch"
  else if t =? TypeTuning then "tuning"
  else if t =? TypeTierPromote then "tier_promote"
  else if t =? TypeTierDemote then "tier_demote"
  else if t =? TypeScenarioMark then "scenario_mark"
  else if t =? TypeRunStart then "run_start"
  else if t =? TypeRunEnd then "run_end"
  else "unknown".

Record SwitchEvent := {
  From : PolicyName;
  To : PolicyName;
  SwitchWorkload : Z;
  SwitchConfidence : float64;
  HitRateBefore : float64;
  Reason : string;
  OverheadMs : float64;
  EntriesKept : Z;
}.

Record DetectionEvent := {
  DetectionWorkload : Z;
  Previous : Z;
  DetectionConfidence : float64;
  DetectionFeatures : Features;
  WindowStart : Z;
  WindowEnd : Z;
}.

Record TuningEvent := {
  TuningPolicy : PolicyName;
  Parameter_ : string;
  OldValue : float64;
  NewValue : float64;
  MetricBefore : float64;
  MetricAfter : float64;
  Accepted : bool;
}.

Record ScenarioMarkEvent := {
  MarkSeq : Z;
  FromWorkload : Z;
  ToWorkload : Z;
  SegmentName : string;
}.

(** The payload of an event: nil or one of the structs above. *)
Inductive payload :=
| NoPayload
| PSwitch (e : SwitchEvent)
| PDetection (e : DetectionEvent)
| PTuning (e : TuningEvent)
| PScenarioMark (e : ScenarioMarkEvent).

Record Event := {
  Seq : Z;
  Timestamp : Z;
  EType : Z;
  Payload : payload;
}.

(** ** Go channels of events *)

Record chan := {
  chan_cap : nat;
  chan_buf : list Event;
  chan_closed : bool;
  chan_waiting : nat;
  chan_received : list Event;
}.

Definition make_chan (n : nat) : chan :=
  {| chan_cap := n; chan_buf := []; chan_closed := false; chan_waiting := 0; chan_received := [] |}.

(** [select { case ch <- e: ... default: ... }]: whether the event was sent. *)
Definition try_send (e : Event) (c : chan) : outcome (chan * bool) :=
  if chan_closed c then Panic
  else if decide (0 < chan_waiting c)%nat then
    Ret ({| chan_cap := chan_cap c; chan_buf := chan_buf c; chan_closed := false;
            chan_waiting := pred (chan_waiting c); chan_received := chan_received c ++ [e] |}, true)
  else if decide (length (chan_buf c) < chan_cap c)%nat then
    Ret ({| chan_cap := chan_cap c; chan_buf := chan_buf c ++ [e]; chan_closed := false;
            chan_waiting := chan_waiting c; chan_received := chan_received c |}, true)
  else Ret (c, false).

(** [close(ch)]: the blocked receivers are released. *)
Definition close_chan (c : chan) : outcome chan :=
  if chan_closed c then Panic
  else Ret {| chan_cap := chan_cap c; chan_buf := chan_buf c; chan_closed := true;
              chan_waiting := 0; chan_received := chan_received c |}.

(** [<-ch] by the consumer, which blocks when there is nothing to receive. *)
Definition recv (c : chan) : chan :=
  match chan_buf c with
  | e :: buf =>
      {| chan_cap := chan_cap c; chan_buf := buf; chan_closed := chan_closed c;
         chan_waiting := chan_waiting c; chan_received := chan_received c ++ [e] |}
  | [] =>
      if chan_closed c then c
      else {| chan_cap := chan_cap c; chan_buf := []; chan_closed := false;
              chan_waiting := S (chan_waiting c); chan_received := chan_received c |}
  end.

(** ** events/bus.go *)

Abbreviation cptr := positive.
Abbreviation sptr := positive.

Record subscriber := {
  name : string;
  ch : cptr;
  all : bool;
  filter_ : list bool;
  dropped : Z;
}.

Definition wants (s : subscriber) (t : Z) : bool :=
  if all s then true
  else if t >=? maxType then false
  else default false (filter_ s !! Z.to_nat t).

Record MemBus := {
  subs : gmap string sptr;
  order : list sptr;
  closed : bool;
  subscribers : gmap sptr subscriber;
  chans : gmap cptr chan;
}.

Definition NewBus : MemBus :=
  {| subs := ∅; order := []; closed := false; subscribers := ∅; chans := ∅ |}.

Definition set_chan (l : cptr) (c : chan) (b : MemBus) : MemBus :=
  {| subs := subs b; order := order b; closed := closed b; subscribers := subscribers b;
     chans := <[l := c]> (chans b) |}.

Definition set_subscriber (i : sptr) (s : subscriber) (b : MemBus) : MemBus :=
  {| subs := subs b; order := order b; closed := closed b;
     subscribers := <[i := s]> (subscribers b); chans := chans b |}.

Definition drop_one (s : subscriber) : subscriber :=
  {| name := name s; ch := ch s; all := all s; filter_ := filter_ s; dropped := u64 (dropped s + 1) |}.

(** One iteration of the loop of [Publish]. *)
Definition publish_one (e : Event) (i : sptr) (b : MemBus) : outcome MemBus :=
  s ← or_panic (subscribers b !! i);
  if negb (wants s (EType e)) then Ret b
  else
    c ← or_panic (chans b !! ch s);
    '(c', sent) ← try_send e c;
    if (sent : bool) then Ret (set_chan (ch s) c' b) else Ret (set_subscriber i (drop_one s) b).

Definition Publish (e : Event) (b : MemBus) : outcome MemBus :=
  if closed b then Ret b else for_each (publish_one e) (order b) b.

Fixpoint remove_first (i : sptr) (l : list sptr) : list sptr :=
  match l with
  | [] => []
  | j :: l => if decide (j = i) then l else j :: remove_first i l
  end.

Definition removeLocked (n : string) (b : MemBus) : outcome MemBus :=
  match subs b !! n with
  | None => Ret b
  | Some i =>
      s ← or_panic (subscribers b !! i);
      c ← or_panic (chans b !! ch s);
      c' ← close_chan c;
      Ret {| subs := delete n (subs b); order := remove_first i (order b); closed := closed b;
             subscribers := subscribers b; chans := <[ch s := c']> (chans b) |}
  end.

Definition subscribe_filter (types : list Z) : list bool :=
  foldl (λ f t, if t <? maxType then <[Z.to_nat t := true]> f else f)
    (replicate (Z.to_nat maxType) false) types.

(** The channel returned is where the consumer receives. *)
Definition Subscribe (n : string) (buf : Z) (types : list Z) (b : MemBus) : outcome (MemBus * cptr) :=
  let buf := if buf <? 0 then 0 else buf in
  let l := fresh (dom (chans b)) in
  let s := {| name := n; ch := l; all := Nat.eqb (length types) 0;
              filter_ := subscribe_filter types; dropped := 0 |} in
  let b := set_chan l (make_chan (Z.to_nat buf)) b in
  if closed b then
    c ← close_chan (make_chan (Z.to_nat buf));
    Ret (set_chan l c b, l)
  else
    b ← removeLocked n b;
    let i := fresh (dom (subscribers b)) in
    Ret ({| subs := <[n := i]> (subs b); order := order b ++ [i]; closed := closed b;
            subscribers := <[i := s]> (subscribers b); chans := chans b |}, l).

Definition Unsubscribe (n : string) (b : MemBus) : outcome MemBus := removeLocked n b.

Definition DroppedCount (n : string) (b : MemBus) : outcome Z :=
  match subs b !! n with
  | Some i => s ← or_panic (subscribers b !! i); Ret (dropped s)
  | None => Ret 0
  end.

Definition close_one (i : sptr) (b : MemBus) : outcome MemBus :=
  s ← or_panic (subscribers b !! i);
  c ← or_panic (chans b !! ch s);
  c' ← close_chan c;
  Ret (set_chan (ch s) c' b).

Definition Close (b : MemBus) : outcome MemBus :=
  if closed b then Ret b
  else
    b ← for_each close_one (order b) b;
    Ret {| subs := ∅; order := []; closed := true; subscribers := subscribers b; chans := chans b |}.

(** The interface the cache core publishes through. *)
Class Bus (B : Type) := {
  bus_Publish : Event → B → outcome B;
}.

Class LawfulBus (B : Type) `{Bus B} := {
  bus_ok : B → Prop;
  law_Publish e b : bus_ok b → ∃ b', bus_Publish e b = Ret b' ∧ bus_ok b';
}.

#[global] Instance MemBus_bus : Bus MemBus := {| bus_Publish := Publish |}.

(** ** The invariant of the bus *)

Definition chan_ok (c : chan) : Prop :=
  (length (chan_buf c) ≤ chan_cap c)%nat ∧ ((0 < chan_waiting c)%nat → chan_buf c = []).

(** What a consumer has received or can still receive, in order. *)
Definition chan_log (c : chan) : list Event := chan_received c ++ chan_buf c.

Definition chan_full (c : chan) : Prop :=
  chan_waiting c = 0%nat ∧ length (chan_buf c) = chan_cap c.

(** A subscriber and its channel. *)
Definition view (b : MemBus) (i : sptr) : option (subscriber * chan) :=
  s ← subscribers b !! i; c ← chans b !! ch s; Some (s, c).

Record bus_inv (b : MemBus) : Prop := {
  bi_subs n i : subs b !! n = Some i →
    ∃ s c, view b i = Some (s, c) ∧ name s = n ∧ chan_closed c = false;
  bi_nodup : NoDup (order b);
  bi_order i : i ∈ order b ↔ ∃ n, subs b !! n = Some i;
  bi_view i s : subscribers b !! i = Some s → ∃ c, view b i = Some (s, c);
  bi_ch i j s t : subscribers b !! i = Some s → subscribers b !! j = Some t → ch s = ch t → i = j;
  bi_chans l c : chans b !! l = Some c → chan_ok c;
  bi_closed : closed b = true → subs b = ∅;
}.

Lemma view_Some b i s c :
  view b i = Some (s, c) ↔ subscribers b !! i = Some s ∧ chans b !! ch s = Some c.
Proof.
  unfold view. destruct (subscribers b !! i) as [s'|]; simpl; [|naive_solver].
  destruct (chans b !! ch s') as [c'|] eqn:E; simpl; split; intros; naive_solver.
Qed.

Lemma chan_ok_recv c : chan_ok c → chan_ok (recv c) ∧ chan_log (recv c) = chan_log c ∧
  chan_closed (recv c) = chan_closed c.
Proof.
  unfold chan_ok, chan_log, recv. destruct (chan_buf c) as [|e buf] eqn:E; simpl; intros [H1 H2].
  - destruct (chan_closed c) eqn:Ec; rewrite ?E; simpl; auto.
  - split_and!; [lia| |by rewrite <-app_assoc|done].
    intros Hw. by specialize (H2 Hw).
Qed.

Lemma try_send_spec e c :
  chan_ok c → chan_closed c = false →
  ∃ c' sent, try_send e c = Ret (c', sent) ∧ chan_ok c' ∧ chan_closed c' = false ∧
    if sent : bool then chan_log c' = chan_log c ++ [e] else c' = c ∧ chan_full c.
Proof.
  unfold chan_ok, chan_log, try_send, chan_full. intros [H1 H2] Hc. rewrite Hc.
  case_decide as Hw; [|case_decide as Hl]; do 2 eexists; (split; [done|]); simpl.
  - rewrite H2 by lia. rewrite !app_nil_r. simpl. split_and!; auto with lia.
  - rewrite length_app, app_assoc. simpl. split_and!; auto with lia.
  - split_and!; auto with lia.
Qed.

(** Offering an event to a subscriber. *)
Definition offered (e : Event) (v v' : subscriber * chan) : Prop :=
  if wants v.1 (EType e) then
    (v'.1 = v.1 ∧ chan_log v'.2 = chan_log v.2 ++ [e]) ∨
    (v'.1 = drop_one v.1 ∧ v'.2 = v.2 ∧ chan_full v.2)
  else v' = v.

Definition same_registry (b b' : MemBus) : Prop :=
  subs b' = subs b ∧ order b' = order b ∧ closed b' = closed b.

Lemma set_chan_view b i s c l c' :
  bus_inv b → view b i = Some (s, c) → l = ch s →
  view (set_chan l c' b) i = Some (s, c') ∧ ∀ j, j ≠ i → view (set_chan l c' b) j = view b j.
Proof.
  intros Hi [Hs Hc]%view_Some ->. split.
  - apply view_Some. simpl. by rewrite lookup_insert_eq.
  - intros j Hj. unfold view; simpl. destruct (subscribers b !! j) as [t|] eqn:Ht; [|done]. simpl.
    rewrite lookup_insert_ne; [done|]. intros Heq. destruct Hj. by eapply bi_ch.
Qed.

Lemma set_chan_inv b i s c l c' :
  bus_inv b → view b i = Some (s, c) → l = ch s →
  chan_ok c' → chan_closed c' = chan_closed c → bus_inv (set_chan l c' b).
Proof.
  intros Hi Hv Hl Hok Hcl. destruct (set_chan_view b i s c l c' Hi Hv Hl) as [Hvi Hvj].
  destruct Hi as [Hs Hn Ho Hvw Hch Hcs Hc]. split; simpl; [|done|done| |done| |done].
  - intros n j Hj. destruct (Hs n j Hj) as (s' & c2 & Hv' & ? & ?).
    destruct (decide (j = i)) as [->|Hji]; [|rewrite Hvj by done; eauto].
    rewrite Hvi. simplify_eq. exists s, c'. by rewrite Hcl.
  - intros j t Ht. destruct (decide (j = i)) as [->|Hji]; [|rewrite Hvj by done; eauto].
    apply view_Some in Hv as [Hs' _]. simplify_eq. eauto.
  - intros k c2. rewrite lookup_insert_Some. naive_solver.
Qed.

Lemma publish_one_spec e i b s c :
  bus_inv b → i ∈ order b → view b i = Some (s, c) →
  ∃ b' v', publish_one e i b = Ret b' ∧ bus_inv b' ∧ same_registry b b' ∧
    dom (subscribers b') = dom (subscribers b) ∧
    view b' i = Some v' ∧ offered e (s, c) v' ∧ ∀ j, j ≠ i → view b' j = view b j.
Proof.
  intros Hi Hin Hv. pose proof Hv as [Hs Hc]%view_Some.
  assert (Hopen : chan_closed c = false).
  { apply (bi_order b Hi) in Hin as [n Hn]. destruct (bi_subs b Hi n i Hn) as (?&?&?&_&?). naive_solver. }
  unfold publish_one, offered. rewrite Hs. simpl. destruct (wants s (EType e)); simpl.
  2:{ exists b, (s, c). unfold same_registry. eauto 10. }
  rewrite Hc. simpl.
  destruct (try_send_spec e c (bi_chans b Hi _ _ Hc) Hopen) as (c' & sent & -> & Hok & Hcl & Hsent). simpl.
  destruct sent; simpl.
  - destruct (set_chan_view b i s c (ch s) c' Hi Hv eq_refl) as [Hvi Hvj].
    exists (set_chan (ch s) c' b), (s, c'). unfold same_registry. split_and!; eauto.
    eapply set_chan_inv; eauto.
  - destruct Hsent as [-> Hfull].
    assert (Hvi : view (set_subscriber i (drop_one s) b) i = Some (drop_one s, c)).
    { apply view_Some. simpl. by rewrite lookup_insert_eq. }
    assert (Hvj : ∀ j, j ≠ i → view (set_subscriber i (drop_one s) b) j = view b j).
    { intros j Hj. unfold view. simpl. by rewrite lookup_insert_ne. }
    exists (set_subscriber i (drop_one s) b), (drop_one s, c). unfold same_registry.
    split_and!; simpl; eauto; [|by rewrite dom_insert_lookup_L by eauto].
    destruct Hi as [Hsu Hn Ho Hvw Hch Hcs Hcd]. split; simpl; [|done|done| | |done|done].
    + intros n j Hj. destruct (Hsu n j Hj) as (s' & c2 & Hv' & ? & ?).
      destruct (decide (j = i)) as [->|Hji]; [|rewrite Hvj by done; eauto].
      rewrite Hvi. simplify_eq. exists (drop_one s), c. done.
    + intros j t Ht. destruct (decide (j = i)) as [->|Hji].
      * rewrite lookup_insert_eq in Ht. simplify_eq. eauto.
      * rewrite lookup_insert_ne in Ht by done. rewrite Hvj by done. eauto.
    + intros j k t1 t2. rewrite !lookup_insert_Some. intros [[<- <-]|[? ?]] [[<- <-]|[? ?]]; simpl; eauto.
Qed.

Lemma remove_first_filter i l : NoDup l → remove_first i l = filter (.≠ i) l.
Proof.
  induction 1 as [|j l Hj Hnd IH]; [done|]. simpl. rewrite filter_cons. case_decide; subst.
  - rewrite decide_False by naive_solver. symmetry. apply filter_all. set_solver.
  - rewrite decide_True by done. by f_equal.
Qed.

Lemma bus_inv_name b n m i :
  bus_inv b → subs b !! n = Some i → subs b !! m = Some i → n = m.
Proof.
  intros Hi Hn Hm. destruct (bi_subs b Hi n i Hn) as (s & c & Hv & <- & _).
  destruct (bi_subs b Hi m i Hm) as (s' & c' & Hv' & <- & _). naive_solver.
Qed.

(** [removeLocked] never panics; it closes the channel, whose log stays. *)
Lemma removeLocked_spec n b :
  bus_inv b →
  ∃ b', removeLocked n b = Ret b' ∧ bus_inv b' ∧ subs b' = delete n (subs b) ∧
    closed b' = closed b ∧ subscribers b' = subscribers b ∧
    (∀ l c, (∀ i s, subscribers b !! i = Some s → ch s ≠ l) → chans b !! l = Some c → chans b' !! l = Some c) ∧
    ∀ i s c, view b i = Some (s, c) →
      ∃ c', view b' i = Some (s, c') ∧ chan_log c' = chan_log c.
Proof.
  intros Hi. unfold removeLocked. destruct (subs b !! n) as [i|] eqn:Hn.
  2:{ exists b. rewrite delete_id by done. eauto 10. }
  destruct (bi_subs b Hi n i Hn) as (s & c & Hv & Hname & Hcl).
  pose proof Hv as [Hs Hc]%view_Some. rewrite Hs; simpl. rewrite Hc; simpl.
  unfold close_chan. rewrite Hcl; simpl. eexists. split; [done|].
  set (c' := {| chan_cap := chan_cap c |}).
  destruct (set_chan_view b i s c (ch s) c' Hi Hv eq_refl) as [Hvi Hvj].
  destruct Hi as [Hsu Hnd Ho Hvw Hch Hcs Hcd].
  assert (Hother : ∀ m j, delete n (subs b) !! m = Some j → j ≠ i).
  { intros m j [Hnm Hm]%lookup_delete_Some ->. destruct (Hsu m i Hm) as (s' & c2 & Hv' & Hname' & _).
    naive_solver. }
  split_and!; simpl; [|done|done|done|by intros l c2 Hl ?; rewrite lookup_insert_ne by (by eapply Hl)|].
  - split; simpl.
    + intros m j Hm. pose proof (Hother m j Hm) as Hji. apply lookup_delete_Some in Hm as [_ Hm].
      change (∃ s0 c0, view (set_chan (ch s) c' b) j = Some (s0, c0) ∧ name s0 = m ∧ chan_closed c0 = false).
      rewrite Hvj by done. eauto.
    + rewrite remove_first_filter by done. by apply NoDup_filter.
    + intros j. rewrite remove_first_filter, list_elem_of_filter, Ho by done. split.
      * intros [Hji [m Hm]]. exists m. rewrite lookup_delete_Some. split; [congruence|done].
      * intros [m Hm]. split; [by eapply Hother|]. apply lookup_delete_Some in Hm as [_ Hm]. eauto.
    + intros j t Ht. change (∃ c0, view (set_chan (ch s) c' b) j = Some (t, c0)).
      destruct (decide (j = i)) as [->|]; [|rewrite Hvj by done; eauto]. simplify_eq. eauto.
    + done.
    + intros l c2. rewrite lookup_insert_Some. intros [[<- <-]|[_ Hl]]; [|eauto].
      destruct (Hcs _ _ Hc). split; simpl; [done|lia].
    + intros Hcd'. rewrite (Hcd Hcd'). apply delete_empty.
  - intros j t c2 Hj. change (∃ c0, view (set_chan (ch s) c' b) j = Some (t, c0) ∧ chan_log c0 = chan_log c2).
    destruct (decide (j = i)) as [->|]; [|rewrite Hvj by done; eauto]. simplify_eq. eauto.
Qed.

Lemma bus_inv_New : bus_inv NewBus.
Proof. split; simpl; try done; [constructor|]. set_solver. Qed.

Lemma add_chan_view b l c i : chans b !! l = None →
  bus_inv b → view (set_chan l c b) i = view b i.
Proof.
  intros Hl Hi. unfold view; simpl. destruct (subscribers b !! i) as [s|] eqn:Hs; [|done]. simpl.
  destruct (bi_view b Hi i s Hs) as [c' [_ Hc']%view_Some].
  rewrite lookup_insert_ne by congruence. done.
Qed.

Lemma add_chan_inv b l c : chans b !! l = None → chan_ok c →
  bus_inv b → bus_inv (set_chan l c b).
Proof.
  intros Hl Hok Hi. pose proof (λ i, add_chan_view b l c i Hl Hi) as Hv.
  destruct Hi as [Hsu Hnd Ho Hvw Hch Hcs Hcd].
  split; simpl; [setoid_rewrite Hv; done|done|done|setoid_rewrite Hv; done|done| |done].
  intros k c'. rewrite lookup_insert_Some. naive_solver.
Qed.

(** A new subscriber with a fresh channel. *)
Lemma register_inv b n i s c :
  bus_inv b → subs b !! n = None → closed b = false → subscribers b !! i = None →
  (∀ j t, subscribers b !! j = Some t → ch t ≠ ch s) →
  chans b !! ch s = Some c → name s = n → chan_closed c = false →
  let b' := {| subs := <[n := i]> (subs b); order := order b ++ [i]; closed := closed b;
               subscribers := <[i := s]> (subscribers b); chans := chans b |} in
  bus_inv b' ∧ view b' i = Some (s, c) ∧ ∀ j, j ≠ i → view b' j = view b j.
Proof.
  intros Hi Hn Hcl Hfr Hdiff Hc Hname Hopen b'.
  assert (Hvi : view b' i = Some (s, c)) by (apply view_Some; simpl; by rewrite lookup_insert_eq).
  assert (Hvj : ∀ j, j ≠ i → view b' j = view b j).
  { intros j Hj. unfold view; simpl. by rewrite lookup_insert_ne. }
  assert (Hsubs : ∀ m j, subs b !! m = Some j → j ≠ i).
  { intros m j Hm ->. destruct (bi_subs b Hi m i Hm) as (?&?&[? _]%view_Some&_). congruence. }
  split_and!; [|done..]. destruct Hi as [Hsu Hnd Ho Hvw Hch Hcs Hcd]. split.
  - intros m j. simpl. rewrite lookup_insert_Some. intros [[<- <-]|[_ Hm]]; [eauto|].
    rewrite Hvj by eauto. eauto.
  - simpl. apply NoDup_app. split_and!; [done| |apply NoDup_singleton].
    intros j [m Hm]%Ho. rewrite list_elem_of_singleton. eauto.
  - intros j. simpl. rewrite elem_of_app, list_elem_of_singleton, Ho. split.
    + intros [[m Hm]| ->]; [|exists n; by rewrite lookup_insert_eq].
      exists m. rewrite lookup_insert_ne by congruence. done.
    + intros [m Hm]. apply lookup_insert_Some in Hm as [[_ <-]|[_ Hm]]; eauto.
  - intros j t. simpl. rewrite lookup_insert_Some. intros [[<- <-]|[Hj Ht]]; [eauto|].
    rewrite Hvj by done. eauto.
  - intros j k t1 t2. simpl. rewrite !lookup_insert_Some.
    intros [[<- <-]|[? ?]] [[<- <-]|[? ?]] Heq; eauto; exfalso; [symmetry in Heq|]; by eapply Hdiff.
  - done.
  - simpl. rewrite Hcl. done.
Qed.

(** What the operations that take the write lock do to the logs. *)
Record keeps_logs (b b' : MemBus) : Prop := {
  kl_old i s c : view b i = Some (s, c) → ∃ c', view b' i = Some (s, c') ∧ chan_log c' = chan_log c;
  kl_new i s c : view b' i = Some (s, c) → subscribers b !! i = None →
    chan_log c = [] ∧ dropped s = 0;
}.

Lemma keeps_logs_same b b' : bus_inv b' →
  subscribers b' = subscribers b →
  (∀ i s c, view b i = Some (s, c) → ∃ c', view b' i = Some (s, c') ∧ chan_log c' = chan_log c) →
  keeps_logs b b'.
Proof.
  intros _ Hsub Hold. split; [done|]. intros i s c [Hs _]%view_Some Hn. congruence.
Qed.

Lemma subscribe_filter_spec ts t :
  Forall (λ t, 0 ≤ t) ts → 0 ≤ t < maxType →
  subscribe_filter ts !! Z.to_nat t = Some (bool_decide (t ∈ ts)).
Proof.
  intros Hts Ht. unfold subscribe_filter.
  assert (Hgen : ∀ (f : list bool) b, f !! Z.to_nat t = Some b →
    foldl (λ f t, if t <? maxType then <[Z.to_nat t := true]> f else f) f ts !! Z.to_nat t =
      Some (b || bool_decide (t ∈ ts))).
  { induction Hts as [|x ts Hx _ IH]; intros f b Hf; cbn [foldl].
    - rewrite bool_decide_false by set_solver. by rewrite orb_false_r.
    - destruct (decide (x = t)) as [->|Hxt].
      + destruct (Z.ltb_spec t maxType); [|lia].
        rewrite (IH _ true) by (apply list_lookup_insert_eq; by eapply lookup_lt_Some).
        simpl. rewrite (bool_decide_true (t ∈ t :: ts)) by set_solver. by rewrite orb_true_r.
      + rewrite (IH _ b).
        * f_equal. f_equal. apply bool_decide_ext. set_solver.
        * destruct (Z.ltb_spec x maxType); [|done]. rewrite list_lookup_insert_ne; [done|lia]. }
  apply (Hgen _ false). apply lookup_replicate. split; [done|lia].
Qed.

Lemma Subscribe_spec n buf ts b :
  bus_inv b →
  ∃ b' l, Subscribe n buf ts b = Ret (b', l) ∧ bus_inv b' ∧ keeps_logs b b' ∧
    closed b' = closed b ∧ chans b !! l = None ∧
    if closed b then same_registry b b' ∧ ∃ c, chans b' !! l = Some c ∧ chan_closed c = true
    else ∃ i s, subscribers b !! i = None ∧ subs b' = <[n := i]> (subs b) ∧
      view b' i = Some (s, make_chan (Z.to_nat buf)) ∧ ch s = l ∧ name s = n ∧ dropped s = 0 ∧
      (Forall (λ t, 0 ≤ t) ts → ∀ t, 0 ≤ t → wants s t = true ↔ ts = [] ∨ t ∈ ts ∧ t < maxType).
Proof.
  intros Hi. unfold Subscribe. cbv zeta.
  assert (Hbuf : Z.to_nat (if buf <? 0 then 0 else buf) = Z.to_nat buf) by (destruct (Z.ltb_spec buf 0); lia).
  rewrite Hbuf. set (l := fresh (dom (chans b))). set (mk := make_chan (Z.to_nat buf)).
  assert (Hl : chans b !! l = None) by apply not_elem_of_dom, is_fresh.
  assert (Hmk : chan_ok mk) by (split; simpl; lia).
  pose proof (add_chan_inv b l mk Hl Hmk Hi) as Hi1.
  pose proof (λ i, add_chan_view b l mk i Hl Hi) as Hv1.
  change (closed (set_chan l mk b)) with (closed b). destruct (closed b) eqn:Hcl.
  - simpl. do 2 eexists. split; [done|].
    set (c := {| chan_cap := Z.to_nat buf |}).
    assert (E : set_chan l c (set_chan l mk b) = set_chan l c b).
    { unfold set_chan; simpl. by rewrite insert_insert_eq. }
    rewrite E.
    assert (Hok : chan_ok c) by (split; simpl; lia).
    pose proof (add_chan_inv b l c Hl Hok Hi) as Hi2.
    split_and!; try done.
    + apply keeps_logs_same; [done..|]. intros i s c' Hv. exists c'. by rewrite add_chan_view.
    + exists c. simpl. by rewrite lookup_insert_eq.
  - destruct (removeLocked_spec n _ Hi1) as (b2 & -> & Hi2 & Hsubs & Hcl2 & Hss & Hkeep & Hlog). simpl.
    set (i := fresh (dom (subscribers b2))). set (s := {| name := n |}).
    assert (Hfr : subscribers b2 !! i = None) by apply not_elem_of_dom, is_fresh.
    assert (Hdiff : ∀ j t, subscribers b2 !! j = Some t → ch t ≠ l).
    { intros j t Ht Heq. rewrite Hss in Ht. simpl in Ht. destruct (bi_view b Hi j t Ht) as [c [_ Hc]%view_Some].
      congruence. }
    assert (Hmk2 : chans b2 !! l = Some mk).
    { apply Hkeep; [|simpl; by rewrite lookup_insert_eq]. intros j t Ht. apply (Hdiff j t). by rewrite Hss. }
    simpl in Hcl2. rewrite Hcl in Hcl2.
    destruct (register_inv b2 n i s mk Hi2) as (Hi3 & Hvi & Hvj); [|done..|].
    { rewrite Hsubs. apply lookup_delete_eq. }
    rewrite Hcl2 in Hi3, Hvi, Hvj. rewrite Hcl2. do 2 eexists. split; [done|].
    split_and!; [done| |done|done|].
    + split.
      * intros j t c Hj. rewrite <-Hv1 in Hj. destruct (Hlog j t c Hj) as (c' & Hc' & ?).
        exists c'. rewrite Hvj; [done|]. apply view_Some in Hc' as [Ht _]. congruence.
      * intros j t c Hj Hnone. destruct (decide (j = i)) as [->|Hji].
        -- rewrite Hvi in Hj. by simplify_eq.
        -- rewrite Hvj in Hj by done. apply view_Some in Hj as [Ht _]. rewrite Hss in Ht. simpl in Ht. congruence.
    + exists i, s. split_and!; [by rewrite Hss in Hfr|simpl; by rewrite Hsubs, insert_delete_eq|done..|].
      intros Hts t Ht. unfold wants; simpl. destruct ts as [|t0 ts]; simpl; [by split; [left|]|].
      destruct (Z.geb_spec t maxType).
      * split; [done|]. intros [|[_ ?]]; [done|lia].
      * rewrite (subscribe_filter_spec (t0 :: ts)) by (done || lia). simpl.
        rewrite bool_decide_eq_true. naive_solver lia.
Qed.

(** The loop of [Close], with [todo] left to close. *)
Record closing (b : MemBus) (todo : list sptr) (b1 : MemBus) : Prop := {
  cl_nodup : NoDup todo;
  cl_todo i : i ∈ todo → is_Some (view b i);
  cl_subscribers : subscribers b1 = subscribers b;
  cl_view i s c : view b i = Some (s, c) →
    ∃ c', view b1 i = Some (s, c') ∧ chan_log c' = chan_log c ∧ (i ∈ todo → chan_closed c' = false);
  cl_chans l c : chans b1 !! l = Some c → chan_ok c;
}.

Lemma close_one_spec b i todo b1 :
  bus_inv b → closing b (i :: todo) b1 →
  ∃ b2, close_one i b1 = Ret b2 ∧ closing b todo b2.
Proof.
  intros Hi [[Hni Hnd]%NoDup_cons Htodo Hss Hview Hch].
  destruct (Htodo i) as [[s c] Hv]; [left|].
  destruct (Hview i s c Hv) as (c1 & [Hs1 Hc1]%view_Some & Hlog1 & Hop). specialize (Hop ltac:(left)).
  unfold close_one. rewrite Hs1; simpl. rewrite Hc1; simpl. unfold close_chan. rewrite Hop; simpl.
  set (c2 := {| chan_cap := chan_cap c1 |}). eexists. split; [done|]. split; simpl.
  - done.
  - intros j Hj. apply Htodo. by right.
  - done.
  - intros j t c0 Hj. destruct (Hview j t c0 Hj) as (c3 & [Ht Hc3]%view_Some & Hlog & Hop3).
    destruct (decide (j = i)) as [->|Hji].
    + simplify_eq. exists c2. rewrite view_Some; simpl. rewrite lookup_insert_eq.
      split_and!; [done|done|done|]. intros. done.
    + exists c3. rewrite view_Some; simpl. rewrite lookup_insert_ne.
      * split_and!; [done|done|done|]. intros. apply Hop3. by right.
      * intros Heq. destruct Hji. rewrite Hss in Hs1, Ht. by eapply (bi_ch b Hi j i).
  - intros l c0. rewrite lookup_insert_Some. intros [[<- <-]|[_ Hl]]; [|eauto].
    destruct (Hch _ _ Hc1). split; simpl; [done|lia].
Qed.

Lemma Close_spec b :
  bus_inv b →
  ∃ b', Close b = Ret b' ∧ bus_inv b' ∧ keeps_logs b b' ∧ closed b' = true ∧ subs b' = ∅ ∧ order b' = [].
Proof.
  intros Hi. unfold Close. destruct (closed b) eqn:Hcl.
  { exists b. pose proof (bi_closed b Hi Hcl) as Hs. split_and!; try done.
    - apply keeps_logs_same; eauto.
    - destruct (order b) as [|i l] eqn:Ho; [done|]. exfalso.
      destruct (proj1 (bi_order b Hi i)) as [n Hn]; [rewrite Ho; left|]. by rewrite Hs in Hn. }
  destruct (for_each_ind close_one (closing b) (order b) b) as (b1 & Hrun & Hfin).
  - split; [apply Hi| |done| |apply Hi].
    + intros i [n Hn]%(bi_order b Hi). destruct (bi_subs b Hi n i Hn) as (s & c & -> & _). done.
    + intros i s c Hv. exists c. split_and!; [done|done|]. intros [n Hn]%(bi_order b Hi).
      destruct (bi_subs b Hi n i Hn) as (s' & c' & Hv' & _ & ?). naive_solver.
  - intros i todo b1. by apply close_one_spec.
  - rewrite Hrun. simpl. destruct Hfin as [_ _ Hss Hview Hch]. eexists. split; [done|].
    set (b' := {| subs := ∅ |}). assert (Hv' : ∀ i, view b' i = view b1 i) by done.
    assert (Hinv : bus_inv b').
    { split; try done; [constructor|simpl; set_solver| |].
      - intros i s Hs. simpl in Hs. rewrite Hss in Hs. destruct (bi_view b Hi i s Hs) as [c Hc].
        destruct (Hview i s c Hc) as (c' & ? & _). eauto.
      - simpl. rewrite Hss. apply Hi. }
    split_and!; try done. apply keeps_logs_same; [done..|].
    intros i s c Hv. destruct (Hview i s c Hv) as (c' & ? & ? & _). eauto.
Qed.

Lemma Unsubscribe_spec n b :
  bus_inv b →
  ∃ b', Unsubscribe n b = Ret b' ∧ bus_inv b' ∧ keeps_logs b b' ∧ closed b' = closed b ∧
    subs b' = delete n (subs b).
Proof.
  intros Hi. destruct (removeLocked_spec n b Hi) as (b' & Hrun & Hi' & Hs & Hcl & Hss & _ & Hlog).
  exists b'. split_and!; try done. by apply keeps_logs_same.
Qed.

(** A consumer receives from the channel at [l]. *)
Definition Recv (l : cptr) (b : MemBus) : MemBus :=
  match chans b !! l with Some c => set_chan l (recv c) b | None => b end.

Lemma Recv_spec l b :
  bus_inv b →
  bus_inv (Recv l b) ∧ same_registry b (Recv l b) ∧ subscribers (Recv l b) = subscribers b ∧
  ∀ i s c, view b i = Some (s, c) → ∃ c', view (Recv l b) i = Some (s, c') ∧ chan_log c' = chan_log c.
Proof.
  intros Hi. unfold Recv. destruct (chans b !! l) as [c|] eqn:Hl; [|unfold same_registry; eauto 10].
  destruct (chan_ok_recv c (bi_chans b Hi l c Hl)) as (Hok & Hlog & Hcl).
  assert (Hview : ∀ i s c0, view b i = Some (s, c0) →
    ∃ c', view (set_chan l (recv c) b) i = Some (s, c') ∧ chan_log c' = chan_log c0 ∧ chan_closed c' = chan_closed c0).
  { intros i s c0 [Hs Hc0]%view_Some. destruct (decide (ch s = l)) as [<-|Hne].
    - simplify_eq. exists (recv c). rewrite view_Some; simpl. by rewrite lookup_insert_eq.
    - exists c0. rewrite view_Some; simpl. by rewrite lookup_insert_ne. }
  split_and!; try done; [|by intros i s c0 Hv; destruct (Hview i s c0 Hv) as (c' & ? & ? & _); eauto].
  destruct Hi as [Hsu Hnd Ho Hvw Hch Hcs Hcd]. split; simpl; try done.
  - intros n i Hn. destruct (Hsu n i Hn) as (s & c0 & Hv & <- & Ho').
    destruct (Hview i s c0 Hv) as (c' & ? & _ & Hc'). exists s, c'. by rewrite Hc'.
  - intros i s Hs. destruct (Hvw i s Hs) as [c0 Hv]. destruct (Hview i s c0 Hv) as (c' & ? & _). eauto.
  - intros k c0. rewrite lookup_insert_Some. naive_solver.
Qed.

(** C17: one [Publish].  On a well-formed bus it returns, and every subscriber
    that wants the event gets it at the end of its log, or, when its buffer is
    full and nobody is blocked receiving, has it dropped and counted; nothing
    else of the bus changes. *)
Theorem Publish_delivers_or_counts e b :
  bus_inv b →
  ∃ b', Publish e b = Ret b' ∧ bus_inv b' ∧ same_registry b b' ∧
    (∀ i v, view b i = Some v →
      if decide (i ∈ order b) then ∃ v', view b' i = Some v' ∧ offered e v v' else view b' i = Some v).
Proof.
  intros Hi. unfold Publish. destruct (closed b) eqn:Hcl.
  { exists b. unfold same_registry. split_and!; try done. intros i v Hv. case_decide as Hin; [|done]. exfalso.
    apply (bi_order b Hi) in Hin as [n Hn]. by rewrite (bi_closed b Hi Hcl) in Hn. }
  destruct (for_each_ind (publish_one e)
    (λ todo b1, NoDup todo ∧ (∀ i, i ∈ todo → i ∈ order b) ∧ bus_inv b1 ∧ same_registry b b1 ∧
      ∀ i v, view b i = Some v →
        if decide (i ∈ order b ∧ i ∉ todo) then ∃ v', view b1 i = Some v' ∧ offered e v v'
        else view b1 i = Some v) (order b) b) as (b' & Hrun & _ & _ & Hi' & Hreg & Hv').
  - unfold same_registry. split_and!; try done; [apply Hi|]. intros i v Hv. by rewrite decide_False by tauto.
  - intros i todo b1 ([Hni Hnd]%NoDup_cons & Htodo & Hi1 & (Hr1 & Hr2 & Hr3) & Hv1).
    assert (Hin : i ∈ order b) by (apply Htodo; left).
    destruct (proj1 (bi_order b Hi i) Hin) as [n Hn]. destruct (bi_subs b Hi n i Hn) as (s & c & Hv & _).
    pose proof (Hv1 i _ Hv) as Hvi. rewrite decide_False in Hvi by set_solver.
    destruct (publish_one_spec e i b1 s c Hi1) as (b2 & v2 & -> & Hi2 & (Hq1 & Hq2 & Hq3) & _ & Hvi2 & Hoff & Hoth);
      [by rewrite Hr2|done|].
    eexists. split; [done|]. unfold same_registry. split_and!; try congruence; [set_solver|].
    intros j v Hj. specialize (Hv1 j v Hj). destruct (decide (j = i)) as [->|Hji].
    + rewrite decide_True by done. simplify_eq. eauto.
    + rewrite Hoth by done. repeat case_decide; try done; set_solver.
  - exists b'. split_and!; try done. intros i v Hv. specialize (Hv' i v Hv). repeat case_decide; try done; set_solver.
Qed.

(** A bus with one subscriber that is full, one that is not and one that does
    not want the event. *)
Definition sample_bus : outcome MemBus :=
  '(b, _) ← Subscribe "full" 0 [] NewBus;
  '(b, _) ← Subscribe "hits" 2 [TypeHit] b;
  '(b, _) ← Subscribe "marks" 2 [TypeScenarioMark; 200] b;
  Ret b.

Definition hit_event (n : Z) : Event := {| Seq := n; Timestamp := 0; EType := TypeHit; Payload := NoPayload |}.

Lemma sample_bus_inv : ∃ b, sample_bus = Ret b ∧ bus_inv b.
Proof.
  unfold sample_bus.
  destruct (Subscribe_spec "full" 0 [] NewBus bus_inv_New) as (b1 & l1 & -> & H1 & _). simpl.
  destruct (Subscribe_spec "hits" 2 [TypeHit] b1 H1) as (b2 & l2 & -> & H2 & _). simpl.
  destruct (Subscribe_spec "marks" 2 [TypeScenarioMark; 200] b2 H2) as (b3 & l3 & -> & H3 & _). simpl. eauto.
Qed.

(** Publishing a hit drops it for "full", delivers it to "hits" and not to "marks". *)
Lemma Publish_delivers_witness :
  ∃ b b', sample_bus = Ret b ∧ Publish (hit_event 1) b = Ret b' ∧ same_registry b b' ∧
    DroppedCount "full" b' = Ret 1 ∧ DroppedCount "hits" b' = Ret 0 ∧
    (chan_buf <$> (snd <$> view b' 2)) = Some [hit_event 1] ∧
    (chan_buf <$> (snd <$> view b' 3)) = Some [].
Proof.
  destruct sample_bus_inv as (b & Hb & Hi).
  destruct (Publish_delivers_or_counts (hit_event 1) b Hi) as (b' & Hrun & _ & Hreg & _).
  exists b, b'. assert (Hb2 : (b ← sample_bus; Publish (hit_event 1) b) = Ret b') by (by rewrite Hb).
  vm_compute in Hb2. injection Hb2 as <-. by split_and!.
Defined.

(** ** Publishers, consumers and writers together

    [Publish] holds the read lock during its loop, so any number of publishes
    can be in progress at once, each with the subscribers it still has to
    offer its event to; the operations that take the write lock run only when
    none is; consumers receive at any time.  [offers] is the history of the
    offers made, each of an event a subscriber wants. *)
Inductive write_op :=
| WSubscribe (n : string) (buf : Z) (types : list Z)
| WUnsubscribe (n : string)
| WClose.

Inductive action :=
| AStart (e : Event)
| AStep (flight : nat)
| AWrite (w : write_op)
| ARecv (l : cptr).

Record system := {
  bus : MemBus;
  flights : list (Event * list sptr);
  offers : list (sptr * Event);
}.

Definition run_write (w : write_op) (b : MemBus) : outcome MemBus :=
  match w with
  | WSubscribe n buf types => '(b, _) ← Subscribe n buf types b; Ret b
  | WUnsubscribe n => Unsubscribe n b
  | WClose => Close b
  end.

Definition wants_event (b : MemBus) (i : sptr) (e : Event) : bool :=
  match subscribers b !! i with Some s => wants s (EType e) | None => false end.

(** [None]: the action cannot happen now. *)
Definition run_action (a : action) (s : system) : option (outcome system) :=
  match a with
  | AStart e =>
      Some (Ret {| bus := bus s;
                   flights := if closed (bus s) then flights s else flights s ++ [(e, order (bus s))];
                   offers := offers s |})
  | AStep n =>
      match flights s !! n with
      | Some (e, i :: todo) =>
          Some (b ← publish_one e i (bus s);
                Ret {| bus := b; flights := <[n := (e, todo)]> (flights s);
                       offers := if wants_event (bus s) i e then offers s ++ [(i, e)] else offers s |})
      | Some (e, []) =>
          Some (Ret {| bus := bus s; flights := delete n (flights s); offers := offers s |})
      | None => None
      end
  | AWrite w =>
      if decide (flights s = []) then
        Some (b ← run_write w (bus s); Ret {| bus := b; flights := []; offers := offers s |})
      else None
  | ARecv l => Some (Ret {| bus := Recv l (bus s); flights := flights s; offers := offers s |})
  end.

Definition system_init : system := {| bus := NewBus; flights := []; offers := [] |}.

Inductive reachable : system → Prop :=
| reach_init : reachable system_init
| reach_step s a s' : reachable s → run_action a s = Some (Ret s') → reachable s'.

Definition offers_to (i : sptr) (os : list (sptr * Event)) : list Event :=
  (filter (λ x, x.1 = i) os).*2.

(** The log of a subscriber against the offers made to it. *)
Definition accounted (os : list Event) (s : subscriber) (c : chan) : Prop :=
  sublist (chan_log c) os ∧ dropped s = u64 (Z.of_nat (length os) - Z.of_nat (length (chan_log c))).

Record system_inv (s : system) : Prop := {
  si_bus : bus_inv (bus s);
  si_flights n e todo : flights s !! n = Some (e, todo) → ∀ i, i ∈ todo → i ∈ order (bus s);
  si_offers i e : (i, e) ∈ offers s → is_Some (subscribers (bus s) !! i);
  si_accounted i t c : view (bus s) i = Some (t, c) → accounted (offers_to i (offers s)) t c;
}.

Lemma offers_to_snoc i j e os :
  offers_to i (os ++ [(j, e)]) = if decide (j = i) then offers_to i os ++ [e] else offers_to i os.
Proof.
  unfold offers_to. rewrite filter_app, fmap_app, filter_cons, filter_nil. simpl.
  case_decide; simpl; [done|by rewrite app_nil_r].
Qed.

Lemma accounted_offered os e v v' :
  accounted os v.1 v.2 → offered e v v' →
  accounted (if wants v.1 (EType e) then os ++ [e] else os) v'.1 v'.2.
Proof.
  destruct v as [s c], v' as [s' c']. unfold accounted, offered. simpl. intros [Hsub Hd].
  destruct (wants s (EType e)); [|by intros [= -> ->]].
  rewrite length_app. cbn [length]. intros [[-> ->]|(-> & -> & _)].
  - rewrite length_app. cbn [length]. split; [by apply sublist_app|]. rewrite Hd. f_equal. lia.
  - split; [by apply sublist_inserts_r|]. simpl. rewrite Hd, u64_add_l. f_equal. lia.
Qed.

Lemma accounted_log os s c c' : chan_log c' = chan_log c → accounted os s c → accounted os s c'.
Proof. unfold accounted. by intros ->. Qed.

Lemma system_inv_init : system_inv system_init.
Proof. split; simpl; [apply bus_inv_New|done|set_solver|]. intros i t c [Hs _]%view_Some. done. Qed.

Lemma run_write_spec w b :
  bus_inv b → ∃ b', run_write w b = Ret b' ∧ bus_inv b' ∧ keeps_logs b b'.
Proof.
  intros Hi. destruct w as [n buf ts|n|]; simpl.
  - destruct (Subscribe_spec n buf ts b Hi) as (b' & l & -> & Hi' & Hk & _). simpl. eauto.
  - destruct (Unsubscribe_spec n b Hi) as (b' & -> & Hi' & Hk & _). eauto.
  - destruct (Close_spec b Hi) as (b' & -> & Hi' & Hk & _). eauto.
Qed.

Lemma system_inv_write w s :
  system_inv s → flights s = [] →
  ∃ b, run_write w (bus s) = Ret b ∧ system_inv {| bus := b; flights := []; offers := offers s |}.
Proof.
  intros [Hb _ Hof Hac] _. destruct (run_write_spec w (bus s) Hb) as (b & Hrun & Hb' & [Hold Hnew]).
  exists b. split; [done|]. split; simpl; [done|done| |].
  - intros i e Hin. destruct (Hof i e Hin) as [t Ht]. destruct (bi_view _ Hb i t Ht) as [c Hc].
    destruct (Hold i t c Hc) as (c' & [Ht' _]%view_Some & _). by rewrite Ht'.
  - intros i t c Hv. destruct (subscribers (bus s) !! i) as [t0|] eqn:Ht0.
    + destruct (bi_view _ Hb i t0 Ht0) as [c0 Hc0]. destruct (Hold i t0 c0 Hc0) as (c' & Hv' & Hlog).
      simplify_eq. eapply accounted_log; [done|]. by apply Hac.
    + destruct (Hnew i t c Hv Ht0) as [Hlog Hd].
      assert (offers_to i (offers s) = []) as ->.
      { unfold offers_to. destruct (filter _ _) as [|[j e] l] eqn:E; [done|]. exfalso.
        assert (Hin : (j, e) ∈ filter (λ x, x.1 = i) (offers s)) by (rewrite E; left).
        apply list_elem_of_filter in Hin as [Hji Hin]. simpl in Hji. subst. destruct (Hof _ _ Hin). congruence. }
      unfold accounted. by rewrite Hlog, Hd.
Qed.

Lemma system_inv_step s n e i todo :
  system_inv s → flights s !! n = Some (e, i :: todo) →
  ∃ b, publish_one e i (bus s) = Ret b ∧
    system_inv {| bus := b; flights := <[n := (e, todo)]> (flights s);
                  offers := if wants_event (bus s) i e then offers s ++ [(i, e)] else offers s |}.
Proof.
  intros [Hb Hfl Hof Hac] Hn. assert (Hin : i ∈ order (bus s)) by (eapply Hfl; [done|left]).
  destruct (proj1 (bi_order _ Hb i) Hin) as [nm Hnm]. destruct (bi_subs _ Hb nm i Hnm) as (t & c & Hv & _).
  destruct (publish_one_spec e i (bus s) t c Hb Hin Hv)
    as (b & v' & -> & Hb' & (Hr1 & Hr2 & Hr3) & Hdom & Hv' & Hoff & Hoth).
  exists b. split; [done|]. pose proof Hv as [Ht _]%view_Some. unfold wants_event. rewrite Ht.
  assert (Hdom' : ∀ j, is_Some (subscribers b !! j) ↔ is_Some (subscribers (bus s) !! j)).
  { intros j. by rewrite <-!elem_of_dom, Hdom. }
  split; simpl; [done| | |].
  - intros m e' todo' Hm j Hj. rewrite Hr2. apply list_lookup_insert_Some in Hm as [(-> & [= -> ->] & _)|[_ Hm]].
    + eapply Hfl; [exact Hn|by right].
    + by eapply Hfl.
  - intros j e'. rewrite Hdom'. destruct (wants t (EType e)); [|apply Hof].
    rewrite elem_of_app, list_elem_of_singleton. intros [Hj|[= -> ->]]; [by eapply Hof|by rewrite Ht].
  - intros j t' c' Hj. destruct (decide (j = i)) as [->|Hji].
    + simplify_eq. pose proof (accounted_offered _ e (t, c) (t', c') (Hac i t c Hv) Hoff) as Ha. simpl in Ha.
      destruct (wants t (EType e)); [|done]. by rewrite offers_to_snoc, decide_True.
    + rewrite Hoth in Hj by done. specialize (Hac j t' c' Hj).
      destruct (wants t (EType e)); [|done]. by rewrite offers_to_snoc, decide_False by congruence.
Qed.

Lemma system_inv_action a s r :
  system_inv s → run_action a s = Some r → ∃ s', r = Ret s' ∧ system_inv s'.
Proof.
  intros Hinv. destruct a as [e|n|w|l]; simpl.
  - intros [= <-]. eexists. split; [done|]. destruct Hinv as [Hb Hfl Hof Hac]. split; simpl; try done.
    intros n e' todo Hn. destruct (closed (bus s)); [by eapply Hfl|].
    apply lookup_app_Some in Hn as [Hn|[_ Hn]]; [by eapply Hfl|].
    apply list_lookup_singleton_Some in Hn as [_ [= <- <-]]. done.
  - destruct (flights s !! n) as [[e [|i todo]]|] eqn:Hn; [| |done]; intros [= <-].
    + eexists. split; [done|]. destruct Hinv as [Hb Hfl Hof Hac]. split; simpl; try done.
      intros m e' todo Hm. destruct (decide (m < n)%nat).
      * rewrite list_lookup_delete_lt in Hm by done. by eapply Hfl.
      * rewrite list_lookup_delete_ge in Hm by lia. by eapply Hfl.
    + destruct (system_inv_step s n e i todo Hinv Hn) as (b & -> & Hs). simpl. eauto.
  - case_decide as Hf; [|done]. intros [= <-].
    destruct (system_inv_write w s Hinv Hf) as (b & -> & Hs). simpl. eauto.
  - intros [= <-]. eexists. split; [done|]. destruct Hinv as [Hb Hfl Hof Hac].
    destruct (Recv_spec l (bus s) Hb) as (Hb' & (Hr1 & Hr2 & Hr3) & Hss & Hlog).
    split; simpl; [done|by rewrite Hr2|by rewrite Hss|].
    intros i t c Hv. pose proof Hv as [Ht _]%view_Some. rewrite Hss in Ht.
    destruct (bi_view _ Hb i t Ht) as [c0 Hc0]. destruct (Hlog i t c0 Hc0) as (c' & Hc' & Hl).
    simplify_eq. eapply accounted_log; [done|]. by apply Hac.
Qed.

Lemma reachable_inv s : reachable s → system_inv s.
Proof.
  induction 1 as [|s a s' _ IH Hrun]; [apply system_inv_init|].
  destruct (system_inv_action a s _ IH Hrun) as (s'' & [= <-] & ?). done.
Qed.

(** C8: the bus under any interleaving of publishers, consumers,
    subscriptions and closes.  No action panics (no send on a closed channel,
    no double close); a publish in progress can always take its next step,
    whatever the consumers do; every buffer is within its bound; and what a
    consumer has received or can receive is, in order, a subsequence of the
    events offered to it, the rest being exactly its dropped count (modulo
    2^64). *)
Theorem bus_interleavings_safe s :
  reachable s →
  (∀ a r, run_action a s = Some r → ∃ s', r = Ret s') ∧
  (∀ n, (n < length (flights s))%nat → is_Some (run_action (AStep n) s)) ∧
  (∀ i t c, view (bus s) i = Some (t, c) →
    (length (chan_buf c) ≤ chan_cap c)%nat ∧ accounted (offers_to i (offers s)) t c).
Proof.
  intros Hr%reachable_inv. split_and!.
  - intros a r Ha. destruct (system_inv_action a s r Hr Ha) as (s' & ? & _). eauto.
  - intros n Hn%lookup_lt_is_Some_2. simpl. destruct Hn as [[e [|i todo]] ->]; done.
  - intros i t c Hv. split; [|by apply (si_accounted s Hr)].
    apply view_Some in Hv as [_ Hc]. by apply (bi_chans _ (si_bus s Hr) _ _ Hc).
Qed.

(** Two publishes in progress at once to a subscriber of capacity 1. *)
Lemma bus_interleavings_witness :
  ∃ s, reachable s ∧ length (flights s) = 2%nat ∧ length (offers s) = 2%nat ∧
    is_Some (run_action (AStep 1) s) ∧
    ∀ t c, view (bus s) 1 = Some (t, c) → (length (chan_buf c) ≤ chan_cap c)%nat.
Proof.
  assert (H : reachable (default system_init (Some system_init))) by constructor.
  pose (acts := [AWrite (WSubscribe "a" 1 []); AStart (hit_event 1); AStart (hit_event 2); AStep 1; AStep 0]).
  assert (Hrun : ∀ acts s, reachable s →
    reachable (foldl (λ s a, match run_action a s with Some (Ret s') => s' | _ => s end) s acts)).
  { clear. induction acts as [|a acts IH]; intros s Hs; [done|]. simpl. apply IH.
    destruct (run_action a s) as [[s'| |]|] eqn:E; try done. by eapply reach_step. }
  pose proof (Hrun acts system_init reach_init) as Hs.
  set (s := foldl _ _ _) in Hs. exists s.
  destruct (bus_interleavings_safe s Hs) as (_ & Hen & Hacc).
  split_and!; [done|reflexivity|reflexivity|by apply Hen; vm_compute; lia|].
  intros t c Hv. by apply (Hacc 1%positive t c).
Defined.

#[global, refine] Instance MemBus_lawful : LawfulBus MemBus := {| bus_ok := bus_inv |}.
Proof.
  intros e b Hi. unfold bus_Publish; simpl. unfold Publish. destruct (closed b) eqn:Hcl; [eauto|].
  destruct (for_each_ind (publish_one e)
    (λ todo b1, (∀ i, i ∈ todo → i ∈ order b1) ∧ bus_inv b1) (order b) b) as (b' & -> & _ & Hi'); eauto.
  intros i todo b1 [Hto Hi1]. assert (Hin : i ∈ order b1) by (apply Hto; left).
  destruct (proj1 (bi_order b1 Hi1 i) Hin) as [n Hn]. destruct (bi_subs b1 Hi1 n i Hn) as (s & c & Hv & _).
  destruct (publish_one_spec e i b1 s c Hi1 Hin Hv) as (b2 & v2 & -> & Hi2 & (_ & Hq & _) & _).
  eexists. split; [done|]. split; [|done]. rewrite Hq. set_solver.
Defined.
