(* ===== verification/Histogram.v ===== *)
(** * metrics/latency.go: the log-linear latency histogram

    976 buckets over the uint64 nanosecond values, with 16 linear sub-buckets
    per power of two, an exact count, sum and maximum, and quantiles read off
    the buckets.  The abstract state is the list of recorded durations. *)
From S2P Require Import Prelude GoFloat.

Definition subBits : Z := 4.
Definition subCount : Z := Z.shiftl 1 subBits.
Definition numBuckets : Z := (64 - subBits + 1) * subCount.

Record Histogram := {
  buckets : list Z;
  count_ : Z;
  sum : Z;
  max_ : Z;
}.

#[global] Instance Histogram_eq_dec : EqDecision Histogram.
Proof. solve_decision. Defined.

Definition NewHistogram : Histogram :=
  {| buckets := replicate (Z.to_nat numBuckets) 0; count_ := 0; sum := 0; max_ := 0 |}.

(** [bits.Len64] *)
Definition Len64 (v : Z) : Z := if v =? 0 then 0 else Z.log2 v + 1.

Definition bucketIndex (v : Z) : Z :=
  if v <? subCount then v
  else
    let exp := Len64 v - 1 in
    let shift := exp - subBits in
    let sub := Z.shiftr v shift - subCount in
    (shift + 1) * subCount + sub.

(** The bounds of a bucket: its first value and its width. *)
Definition bucket_lo (i : Z) : Z :=
  if i <? subCount then i
  else u64 (Z.shiftl (subCount + i mod subCount) (i / subCount - 1)).
Definition bucket_width (i : Z) : Z :=
  if i <? subCount then 1 else u64 (Z.shiftl 1 (i / subCount - 1)).

Definition bucketMidpoint (i : Z) : float64 :=
  if i <? subCount then f64_of_Z i
  else
    let shift := i / subCount - 1 in
    let sub := i mod subCount in
    let lo := u64 (Z.shiftl (subCount + sub) shift) in
    let width := u64 (Z.shiftl 1 shift) in
    f64_add (f64_of_Z lo) (f64_div (f64_of_Z width) (f64_of_Z 2)).

(** [d] is a [time.Duration], an int64. *)
Definition Record_ (d : Z) (h : Histogram) : Histogram :=
  if d <? 0 then h
  else
    let ns := u64 d in
    let i := Z.to_nat (bucketIndex ns) in
    {| buckets := alter (λ c, u64 (c + 1)) i (buckets h);
       count_ := u64 (count_ h + 1);
       sum := u64 (sum h + ns);
       max_ := if ns <=? max_ h then max_ h else ns |}.

Definition Count (h : Histogram) : Z := count_ h.

Definition million : float64 := f64_of_Z 1000000.

Definition MeanMillis (h : Histogram) : float64 :=
  let n := count_ h in
  if n =? 0 then f64_zero
  else f64_div (f64_div (f64_of_Z (sum h)) (f64_of_Z n)) million.

Definition MaxMillis (h : Histogram) : float64 := f64_div (f64_of_Z (max_ h)) million.

(** The loop of [QuantileMillis] over the buckets from index [i]: the first
    bucket at which more than [target] observations have been seen. *)
Fixpoint scan (i : Z) (bs : list Z) (seen target : Z) : option Z :=
  match bs with
  | [] => None
  | c :: bs =>
      if c =? 0 then scan (i + 1) bs seen target
      else
        let seen := u64 (seen + c) in
        if seen >? target then Some i else scan (i + 1) bs seen target
  end.

Section quantile.
Context `{GoRuntime}.

(** The rank [QuantileMillis] looks for among [total] observations. *)
Definition quantile_rank (q : float64) (total : Z) : Z :=
  let q := if f64_lt q f64_zero then f64_zero else q in
  let q := if f64_gt q f64_one then f64_one else q in
  let target := f64_to_u64 (f64_mul q (f64_of_Z total)) in
  if target >=? total then u64 (total - 1) else target.

Definition QuantileMillis (q : float64) (h : Histogram) : float64 :=
  let total := count_ h in
  if total =? 0 then f64_zero
  else
    match scan 0 (buckets h) 0 (quantile_rank q total) with
    | Some i => f64_div (bucketMidpoint i) million
    | None => MaxMillis h
    end.

Definition P50 : Histogram → float64 := QuantileMillis (f64_of_ratio 50 100).
Definition P95 : Histogram → float64 := QuantileMillis (f64_of_ratio 95 100).
Definition P99 : Histogram → float64 := QuantileMillis (f64_of_ratio 99 100).
End quantile.

Definition Reset (h : Histogram) : Histogram :=
  {| buckets := (λ _, 0) <$> buckets h; count_ := 0; sum := 0; max_ := 0 |}.

(** ** Buckets *)

Lemma subCount_eq : subCount = 16.
Proof. done. Qed.

Lemma numBuckets_eq : numBuckets = 976.
Proof. done. Qed.

(** A value of at least 16 has its top five bits in [sub] and [exp]. *)
Lemma bucketIndex_large v :
  16 ≤ v → let s := Z.log2 v - 4 in
  bucketIndex v = (s + 1) * 16 + (v / 2 ^ s - 16) ∧ 0 ≤ s ∧ 16 ≤ v / 2 ^ s < 32.
Proof.
  intros Hv s. pose proof (Z.log2_spec v) as [Hlo Hhi]; [lia|].
  assert (Hlog : 4 ≤ Z.log2 v) by (change 4 with (Z.log2 16); by apply Z.log2_le_mono).
  assert (Hs : Z.log2 v = 4 + s) by lia.
  unfold bucketIndex, Len64. rewrite subCount_eq. unfold subBits.
  destruct (Z.ltb_spec v 16); [lia|]. destruct (Z.eqb_spec v 0); [lia|].
  replace (Z.log2 v + 1 - 1 - 4) with s by lia. rewrite Z.shiftr_div_pow2 by lia.
  split; [done|]. split; [lia|].
  rewrite Hs in Hlo, Hhi. rewrite <-Z.add_succ_r in Hhi. rewrite Z.pow_add_r in Hlo, Hhi by lia.
  pose proof (Z.pow_pos_nonneg 2 s). rewrite Z.pow_succ_r in Hhi by lia.
  split; [apply Z.div_le_lower_bound; lia|apply Z.div_lt_upper_bound; lia].
Qed.

Lemma bucketIndex_small v : v < 16 → bucketIndex v = v.
Proof. intros. unfold bucketIndex. rewrite subCount_eq. destruct (Z.ltb_spec v 16); lia. Qed.

Lemma bucketIndex_range v : is_u64 v → 0 ≤ bucketIndex v < numBuckets.
Proof.
  intros [Hv0 Hv]. rewrite numBuckets_eq. destruct (decide (v < 16)).
  - rewrite bucketIndex_small; lia.
  - destruct (bucketIndex_large v) as (-> & Hs & Hd); [lia|].
    assert (Z.log2 v < 64) by (apply Z.log2_lt_pow2; lia). lia.
Qed.

Lemma bucket_bounds v :
  is_u64 v → let i := bucketIndex v in
  bucket_lo i ≤ v < bucket_lo i + bucket_width i ∧
  (v < 16 → bucket_width i = 1) ∧ (16 ≤ v → 16 * bucket_width i ≤ bucket_lo i).
Proof.
  intros [Hv0 Hv] i. unfold i, bucket_lo, bucket_width. rewrite subCount_eq.
  destruct (decide (v < 16)) as [Hsm|Hsm].
  - rewrite bucketIndex_small by done. destruct (Z.ltb_spec v 16); lia.
  - destruct (bucketIndex_large v) as (-> & Hs & Hd); [lia|]. set (s := Z.log2 v - 4) in *.
    pose proof (Z.pow_pos_nonneg 2 s). pose proof (Z.mul_div_le v (2 ^ s)).
    pose proof (Z.mul_succ_div_gt v (2 ^ s)). set (d := v / 2 ^ s) in *.
    assert (Hq : ((s + 1) * 16 + (d - 16)) / 16 = s + 1).
    { symmetry. apply Z.div_unique with (d - 16); lia. }
    assert (Hr : ((s + 1) * 16 + (d - 16)) mod 16 = d - 16).
    { symmetry. apply Z.mod_unique with (s + 1); lia. }
    destruct (Z.ltb_spec ((s + 1) * 16 + (d - 16)) 16); [lia|]. rewrite Hq, Hr.
    replace (s + 1 - 1) with s by lia. rewrite !Z.shiftl_mul_pow2 by lia.
    assert (Hlo : 2 ^ s * d ≤ v) by lia. assert (Hhi : v < 2 ^ s * d + 2 ^ s) by lia.
    rewrite !u64_small; unfold is_u64; [|nia..]. split; [lia|]. split; [lia|]. intros _. nia.
Qed.

Lemma bucketIndex_mono v w : 0 ≤ v ≤ w → bucketIndex v ≤ bucketIndex w.
Proof.
  intros [Hv Hvw]. destruct (decide (w < 16)).
  - rewrite !bucketIndex_small by lia. lia.
  - destruct (bucketIndex_large w) as (-> & Hsw & Hdw); [lia|]. destruct (decide (v < 16)).
    + rewrite bucketIndex_small by lia. lia.
    + destruct (bucketIndex_large v) as (-> & Hsv & Hdv); [lia|].
      pose proof (Z.log2_le_mono v w Hvw). set (sv := Z.log2 v - 4) in *. set (sw := Z.log2 w - 4) in *.
      destruct (decide (sv = sw)) as [->|]; [|lia].
      assert (v / 2 ^ sw ≤ w / 2 ^ sw); [|lia]. apply Z.div_le_mono; [|done]. by apply Z.pow_pos_nonneg.
Qed.

(** Twice a float64 that is a multiple of a half. *)
Definition is_half (f : float64) (z : Z) : bool :=
  match f with
  | S754_zero _ => z =? 0
  | S754_finite s m e =>
      if -1 <=? e then cond_Zopp s (Zpos m * 2 ^ (e + 1)) =? z
      else (cond_Zopp s (Zpos m) =? z * 2 ^ (- e - 1))
  | _ => false
  end.

(** The arithmetic of [bucketMidpoint] is exact: checked on every bucket. *)
Lemma bucketMidpoint_exact i :
  0 ≤ i < numBuckets →
  is_half (bucketMidpoint i) (2 * bucket_lo i + if i <? subCount then 0 else bucket_width i) = true.
Proof.
  intros Hi.
  assert (Hall : forallb (λ j, let i := Z.of_nat j in
    is_half (bucketMidpoint i) (2 * bucket_lo i + if i <? subCount then 0 else bucket_width i))
    (seq 0 (Z.to_nat numBuckets)) = true) by (vm_compute; reflexivity).
  rewrite forallb_forall in Hall. specialize (Hall (Z.to_nat i)). rewrite Z2Nat.id in Hall by lia.
  apply Hall. apply in_seq. lia.
Qed.

(** ** The histogram as a list of observations *)

Definition in_bucket (i v : Z) : Prop := bucketIndex v = i.
Definition below (i v : Z) : Prop := bucketIndex v < i.
#[global] Instance in_bucket_dec i v : Decision (in_bucket i v) := decide (bucketIndex v = i).
#[global] Instance below_dec i v : Decision (below i v) := decide (bucketIndex v < i).

Definition max_obs (obs : list Z) : Z := foldr Z.max 0 obs.
Definition sum_obs (obs : list Z) : Z := foldr Z.add 0 obs.

(** How many observations each bucket has. *)
Definition bucket_counts (obs : list Z) : list Z :=
  (λ j, Z.of_nat (count (in_bucket (Z.of_nat j)) obs)) <$> seq 0 (Z.to_nat numBuckets).

Lemma count_perm {A} (P : A → Prop) `{!∀ x, Decision (P x)} (l l' : list A) :
  l ≡ₚ l' → count P l = count P l'.
Proof. unfold count. by intros ->. Qed.

Lemma bucket_counts_perm obs obs' : obs ≡ₚ obs' → bucket_counts obs = bucket_counts obs'.
Proof. intros Hp. apply list_fmap_ext. intros. f_equal. by apply count_perm. Qed.

Lemma bucket_counts_add v obs :
  is_u64 v → Z.of_nat (length obs) + 1 < 2 ^ 64 →
  alter (λ c, u64 (c + 1)) (Z.to_nat (bucketIndex v)) (bucket_counts obs) = bucket_counts (v :: obs).
Proof.
  intros Hu Hlen. unfold bucket_counts. pose proof (bucketIndex_range v Hu) as Hr. rewrite numBuckets_eq in Hr.
  assert (HN : Z.of_nat (Z.to_nat numBuckets) = 976) by (rewrite numBuckets_eq; lia).
  revert HN. generalize (Z.to_nat numBuckets). intros N HN.
  apply list_eq. intros j. rewrite list_lookup_alter, !list_lookup_fmap.
  destruct (decide (j < N)%nat) as [Hj|Hj].
  - rewrite !lookup_seq_lt by lia. cbn [fmap option_fmap option_map]. rewrite !Nat.add_0_l, count_cons.
    pose proof (count_le (in_bucket (Z.of_nat j)) obs) as Hle.
    destruct (decide (Z.to_nat (bucketIndex v) = j)) as [<-|Hne].
    + rewrite decide_True by (unfold in_bucket; lia). f_equal. rewrite u64_small by (unfold is_u64; lia). lia.
    + rewrite decide_False by (unfold in_bucket; lia). done.
  - assert (seq 0 N !! j = None) as -> by (apply lookup_ge_None_2; rewrite length_seq; lia).
    destruct (decide _) as [Heq|]; [exfalso; clear -HN Hr Hj Heq; lia|done].
Qed.

Lemma max_obs_perm obs obs' : obs ≡ₚ obs' → max_obs obs = max_obs obs'.
Proof. induction 1; simpl; lia. Qed.

Lemma sum_obs_perm obs obs' : obs ≡ₚ obs' → sum_obs obs = sum_obs obs'.
Proof. induction 1; simpl; lia. Qed.

Record hist_rep (h : Histogram) (obs : list Z) : Prop := {
  hr_obs : Forall (λ v, 0 ≤ v < 2 ^ 63) obs;
  hr_len : Z.of_nat (length obs) < 2 ^ 64;
  hr_buckets : buckets h = bucket_counts obs;
  hr_count : count_ h = Z.of_nat (length obs);
  hr_sum : sum h = u64 (sum_obs obs);
  hr_max : max_ h = max_obs obs;
}.

Lemma hist_rep_New : hist_rep NewHistogram [].
Proof.
  by split.
Qed.

Lemma hist_rep_Record h obs d :
  hist_rep h obs → is_i64 d → Z.of_nat (length obs) + 1 < 2 ^ 64 →
  hist_rep (Record_ d h) (if decide (0 ≤ d) then d :: obs else obs).
Proof.
  intros [Hobs Hlen Hb Hc Hs Hm] [Hd1 Hd2] Hsp. unfold Record_.
  destruct (Z.ltb_spec d 0).
  { rewrite decide_False by lia. by split. }
  rewrite decide_True by lia. assert (Hu : is_u64 d) by (unfold is_u64; lia).
  rewrite u64_small by done. pose proof (bucketIndex_range d Hu) as Hr. rewrite numBuckets_eq in Hr.
  split; cbn [buckets count_ sum max_].
  - constructor; [lia|done].
  - cbn [length]. lia.
  - rewrite Hb. by apply bucket_counts_add.
  - rewrite Hc, u64_small by (unfold is_u64; lia). cbn [length]. lia.
  - rewrite Hs, u64_add_l. f_equal. cbn [sum_obs foldr]. fold (sum_obs obs). lia.
  - rewrite Hm. cbn [max_obs foldr]. fold (max_obs obs). destruct (Z.leb_spec d (max_obs obs)); lia.
Qed.

Lemma count_below_split obs i :
  (count (below (i + 1)) obs = count (below i) obs + count (in_bucket i) obs)%nat.
Proof.
  unfold count, below, in_bucket. induction obs as [|v obs IH]; [done|]. rewrite !filter_cons.
  repeat case_decide; simpl; lia.
Qed.

Lemma count_mono {A} (P Q : A → Prop) `{!∀ x, Decision (P x), !∀ x, Decision (Q x)} (l : list A) :
  (∀ x, x ∈ l → P x → Q x) → (count P l ≤ count Q l)%nat.
Proof.
  unfold count. induction l as [|x l IH]; intros HPQ; [done|]. rewrite !filter_cons.
  assert (length (filter P l) ≤ length (filter Q l))%nat by (apply IH; set_solver).
  repeat case_decide; simpl; try lia. exfalso. specialize (HPQ x). set_solver.
Qed.

(** What the scan returns: the bucket that holds the observation of rank
    [target]. *)
Lemma scan_spec obs n i target :
  Z.of_nat (length obs) < 2 ^ 64 →
  Z.of_nat (count (below (Z.of_nat i)) obs) ≤ target →
  target < Z.of_nat (count (below (Z.of_nat (i + n))) obs) →
  ∃ j, scan (Z.of_nat i)
      ((λ j, Z.of_nat (count (in_bucket (Z.of_nat j)) obs)) <$> seq i n)
      (Z.of_nat (count (below (Z.of_nat i)) obs)) target = Some j ∧
    Z.of_nat (count (below j) obs) ≤ target < Z.of_nat (count (below (j + 1)) obs).
Proof.
  intros Hlen. revert i. induction n as [|n IH]; intros i Hlo Hhi.
  { rewrite Nat.add_0_r in Hhi. lia. }
  cbn [seq fmap list_fmap scan]. pose proof (count_below_split obs (Z.of_nat i)) as Hsp.
  replace (Z.of_nat i + 1) with (Z.of_nat (S i)) in * by lia.
  pose proof (count_le (below (Z.of_nat (S i))) obs) as Hle.
  rewrite Nat.add_succ_r in Hhi.
  destruct (Z.eqb_spec (Z.of_nat (count (in_bucket (Z.of_nat i)) obs)) 0) as [Hz|Hnz].
  - replace (count (below (Z.of_nat i)) obs) with (count (below (Z.of_nat (S i))) obs) by lia.
    apply IH; [lia|done].
  - rewrite u64_small by (unfold is_u64; lia). rewrite <-Nat2Z.inj_add, <-Hsp.
    destruct (Z.gtb_spec (Z.of_nat (count (below (Z.of_nat (S i))) obs)) target).
    + exists (Z.of_nat i). split; [done|]. replace (Z.of_nat i + 1) with (Z.of_nat (S i)) by lia. lia.
    + apply IH; [lia|done].
Qed.

Lemma scan_rank h obs target :
  hist_rep h obs → 0 ≤ target < Z.of_nat (length obs) →
  ∃ j, scan 0 (buckets h) 0 target = Some j ∧
    Z.of_nat (count (below j) obs) ≤ target < Z.of_nat (count (below (j + 1)) obs).
Proof.
  intros [Hobs Hlen Hb _ _ _] Ht. rewrite Hb. unfold bucket_counts.
  assert (H0 : count (below 0) obs = 0%nat).
  { apply count_none. unfold below. intros v Hin Hv. rewrite Forall_forall in Hobs. specialize (Hobs v Hin).
    pose proof (bucketIndex_range v). unfold is_u64 in *. lia. }
  assert (Hall : count (below numBuckets) obs = length obs).
  { apply Nat.le_antisymm; [apply count_le|]. apply count_full. intros v Hin.
    rewrite Forall_forall in Hobs. specialize (Hobs v Hin). unfold below.
    apply bucketIndex_range. unfold is_u64. lia. }
  destruct (scan_spec obs (Z.to_nat numBuckets) 0 target) as (j & Hscan & Hj); [done| | |].
  - change (Z.of_nat 0) with 0. rewrite H0. lia.
  - rewrite Nat.add_0_l, Z2Nat.id by (rewrite numBuckets_eq; lia). rewrite Hall. lia.
  - exists j. split; [|done]. change (Z.of_nat 0) with 0 in Hscan. by rewrite H0 in Hscan.
Qed.

(** ** Order statistics *)

Lemma sorted_count_lt (l : list Z) (t : nat) x :
  StronglySorted Z.le l → l !! t = Some x → (count (λ y : Z, (y < x)%Z) l ≤ t < count (λ y : Z, (y ≤ x)%Z) l)%nat.
Proof.
  intros Hs. revert t. induction Hs as [|y l Hs IH Hall]; intros [|t] Hx; simplify_eq/=.
  - rewrite !count_cons, decide_False, decide_True by lia. rewrite (count_none (λ y : Z, (y < x)%Z) l); [lia|].
    intros v Hin. rewrite Forall_forall in Hall. specialize (Hall v Hin). lia.
  - specialize (IH t Hx). rewrite !count_cons. assert (y ≤ x).
    { rewrite Forall_forall in Hall. apply Hall. by eapply list_elem_of_lookup_2. }
    rewrite (decide_True _ _ (P := y ≤ x)) by done. case_decide; lia.
Qed.

(** The observation of rank [t], the smallest having rank 0. *)
Definition order_statistic (obs : list Z) (t : nat) : option Z := merge_sort Z.le obs !! t.

#[global] Instance Zle_total : Total Z.le.
Proof. intros x y. lia. Qed.

Lemma rank_bucket obs t x j :
  Forall (λ v, 0 ≤ v < 2 ^ 63) obs → order_statistic obs t = Some x →
  (count (below j) obs ≤ t < count (below (j + 1)) obs)%nat →
  j = bucketIndex x.
Proof.
  unfold order_statistic. intros Hobs Hx Hj. rewrite Forall_forall in Hobs.
  pose proof (merge_sort_Permutation Z.le obs) as Hp.
  assert (Hx0 : 0 ≤ x < 2 ^ 63).
  { apply Hobs. rewrite <-Hp. by eapply list_elem_of_lookup_2. }
  pose proof (sorted_count_lt _ t x (StronglySorted_merge_sort Z.le obs) Hx) as Hc.
  rewrite !(count_perm _ _ _ Hp) in Hc.
  assert (H1 : (count (below (bucketIndex x)) obs ≤ count (λ y : Z, (y < x)%Z) obs)%nat).
  { apply count_mono. intros v Hv Hb. unfold below in Hb. specialize (Hobs v Hv).
    destruct (decide (v < x)); [done|]. pose proof (bucketIndex_mono x v). lia. }
  assert (H2 : (count (λ y : Z, (y ≤ x)%Z) obs ≤ count (below (bucketIndex x + 1)) obs)%nat).
  { apply count_mono. intros v Hv Hb. unfold below. specialize (Hobs v Hv).
    pose proof (bucketIndex_mono v x). lia. }
  destruct (Z.lt_trichotomy j (bucketIndex x)) as [Hlt|[|Hgt]]; [|done|].
  - assert (count (below (j + 1)) obs ≤ count (below (bucketIndex x)) obs)%nat; [|lia].
    apply count_mono. unfold below. lia.
  - assert (count (below (bucketIndex x + 1)) obs ≤ count (below j) obs)%nat; [|lia].
    apply count_mono. unfold below. lia.
Qed.

#[global] Instance hist_rep_proper h : Proper ((≡ₚ) ==> iff) (hist_rep h).
Proof.
  assert (Hone : ∀ obs obs', obs ≡ₚ obs' → hist_rep h obs → hist_rep h obs').
  { intros obs obs' Hp [Hobs Hlen Hb Hc Hs Hm]. split.
    - by rewrite <-Hp.
    - by rewrite <-Hp.
    - rewrite Hb. by apply bucket_counts_perm.
    - by rewrite <-Hp.
    - rewrite Hs. f_equal. by apply sum_obs_perm.
    - rewrite Hm. by apply max_obs_perm. }
  intros obs obs' Hp. split; apply Hone; [done|by symmetry].
Qed.

(** [Record] over a sequence of durations. *)
Definition record_all (ds : list Z) (h : Histogram) : Histogram := foldl (flip Record_) h ds.

(** The durations that count: the negative ones are ignored. *)
Definition observations (ds : list Z) : list Z := filter (λ d, 0 ≤ d) ds.

Lemma record_all_rep ds h obs :
  hist_rep h obs → Forall is_i64 ds → Z.of_nat (length obs) + Z.of_nat (length ds) < 2 ^ 64 →
  hist_rep (record_all ds h) (observations ds ++ obs).
Proof.
  intros Hr Hds. revert h obs Hr. unfold record_all, observations.
  induction Hds as [|d ds Hd _ IH]; intros h obs Hr Hlen; [done|]. cbn [length foldl] in *.
  pose proof (hist_rep_Record h obs d Hr Hd) as Hr1. unfold flip at 2. rewrite filter_cons.
  case_decide; cbn [app]; [rewrite Permutation_middle|]; apply IH; try apply Hr1; cbn [length]; lia.
Qed.

(** Recordings commute, whatever the histogram. *)
Lemma Record_comm d1 d2 h : Record_ d1 (Record_ d2 h) = Record_ d2 (Record_ d1 h).
Proof.
  unfold Record_. destruct (Z.ltb_spec d1 0), (Z.ltb_spec d2 0); try done. cbn. f_equal.
  - destruct (decide (Z.to_nat (bucketIndex (u64 d1)) = Z.to_nat (bucketIndex (u64 d2)))) as [->|Hne]; [done|].
    by apply list_alter_alter_ne.
  - rewrite !u64_add_l. f_equal. lia.
  - destruct (Z.leb_spec (u64 d2) (max_ h)), (Z.leb_spec (u64 d1) (max_ h));
      destruct (Z.leb_spec (u64 d1) (u64 d2)), (Z.leb_spec (u64 d2) (u64 d1));
      repeat case_match; lia.
Qed.

Lemma hist_rep_Reset h obs : hist_rep h obs → Reset h = NewHistogram.
Proof.
  intros [_ _ Hb _ _ _]. unfold Reset. rewrite Hb. reflexivity.
Qed.

Lemma order_statistic_is_Some obs t : is_Some (order_statistic obs t) ↔ (t < length obs)%nat.
Proof.
  unfold order_statistic. rewrite lookup_lt_is_Some. by rewrite (merge_sort_Permutation Z.le obs).
Qed.

Section quantile_theorems.
Context `{GoRuntime}.

Lemma quantile_rank_range q total : is_u64 total → 0 < total → 0 ≤ quantile_rank q total < total.
Proof.
  intros [_ Hu] Hpos. unfold quantile_rank. cbv zeta.
  set (t := f64_to_u64 _). pose proof (f64_to_u64_range
    (f64_mul (if f64_gt (if f64_lt q f64_zero then f64_zero else q) f64_one then f64_one
      else if f64_lt q f64_zero then f64_zero else q) (f64_of_Z total))) as [Ht _]. fold t in Ht.
  destruct (Z.geb_spec t total); [|lia]. rewrite u64_small; unfold is_u64; lia.
Qed.

Lemma QuantileMillis_rep q h obs :
  hist_rep h obs → obs ≠ [] →
  ∃ x, order_statistic obs (Z.to_nat (quantile_rank q (Z.of_nat (length obs)))) = Some x ∧
    QuantileMillis q h = f64_div (bucketMidpoint (bucketIndex x)) million.
Proof.
  intros Hr Hne. pose proof Hr as [Hobs Hlen _ Hc _ _].
  assert (0 < Z.of_nat (length obs)) by (destruct obs; [done|cbn [length]; lia]).
  pose proof (quantile_rank_range q (Z.of_nat (length obs))) as Ht.
  specialize (Ht ltac:(unfold is_u64; lia) ltac:(done)).
  unfold QuantileMillis. rewrite Hc. destruct (Z.eqb_spec (Z.of_nat (length obs)) 0); [lia|].
  set (t := quantile_rank q _) in *.
  destruct (scan_rank h obs t Hr Ht) as (j & -> & Hj).
  destruct (proj2 (order_statistic_is_Some obs (Z.to_nat t))) as [x Hx]; [lia|].
  exists x. split; [done|]. rewrite <-(rank_bucket obs (Z.to_nat t) x j); [done|done|done|lia].
Qed.

(** C20: the histogram answers for the observations it was given.  After
    [Record] of any sequence of durations (fewer than 2^64), the count, the
    sum (modulo 2^64) and the maximum are those of the non-negative ones; a
    quantile is the midpoint of the bucket of the observation of that rank
    in sorted order; and [Reset] gives back an empty histogram. *)
Theorem histogram_history ds q :
  Forall is_i64 ds → Z.of_nat (length ds) < 2 ^ 64 →
  let obs := observations ds in
  let h := record_all ds NewHistogram in
  Count h = Z.of_nat (length obs) ∧ sum h = u64 (sum_obs obs) ∧ max_ h = max_obs obs ∧
  Reset h = NewHistogram ∧
  match order_statistic obs (Z.to_nat (quantile_rank q (Z.of_nat (length obs)))) with
  | Some x => QuantileMillis q h = f64_div (bucketMidpoint (bucketIndex x)) million
  | None => obs = [] ∧ QuantileMillis q h = f64_zero
  end.
Proof.
  intros Hds Hlen obs h.
  pose proof (record_all_rep ds NewHistogram [] hist_rep_New Hds) as Hr. rewrite app_nil_r in Hr.
  specialize (Hr ltac:(done)). fold obs h in Hr. pose proof Hr as [_ _ _ Hc Hs Hm].
  split_and!; [done..|by eapply hist_rep_Reset|].
  destruct (decide (obs = [])) as [He|Hne].
  - rewrite He. split; [done|]. unfold QuantileMillis. by rewrite Hc, He.
  - destruct (QuantileMillis_rep q h obs Hr Hne) as (x & -> & ->). done.
Qed.
End quantile_theorems.

(** 100, 200, -1 and 300 ns: the median is read off the bucket of 200. *)
Lemma histogram_history_witness :
  let obs := [100; 200; 300] in
  let h := record_all [100; 200; -1; 300] NewHistogram in
  observations [100; 200; -1; 300] = obs ∧ Count h = 3 ∧ sum h = 600 ∧ max_ h = 300 ∧
  P50 h = f64_div (bucketMidpoint (bucketIndex 200)) million.
Proof.
  pose proof (histogram_history [100; 200; -1; 300] (f64_of_ratio 50 100)) as Hh.
  assert (Forall is_i64 [100; 200; -1; 300]) as Hi by (repeat constructor; unfold is_i64; lia).
  specialize (Hh Hi ltac:(simpl; lia)) as (Hc & Hs & Hm & _ & Hq).
  split_and!; [reflexivity|exact Hc|exact Hs|exact Hm|].
  assert (order_statistic (observations [100; 200; -1; 300])
    (Z.to_nat (quantile_rank (f64_of_ratio 50 100)
      (Z.of_nat (length (observations [100; 200; -1; 300]))))) = Some 200) as E by (vm_compute; reflexivity).
  rewrite E in Hq. exact Hq.
Defined.

(** C21: the resolution of the buckets.  Every uint64 value falls in one of
    the 976 buckets, whose bounds contain it; buckets are in the order of the
    values; and the midpoint reported for a bucket is computed exactly (twice
    the float64 is the integer [z]) and is within 1/32 of the value, exact
    below 16. *)
Theorem bucket_resolution v w :
  is_u64 v → is_u64 w →
  let i := bucketIndex v in
  0 ≤ i < numBuckets ∧ bucket_lo i ≤ v < bucket_lo i + bucket_width i ∧
  (v ≤ w → i ≤ bucketIndex w) ∧
  (∃ z, is_half (bucketMidpoint i) z = true ∧ 16 * Z.abs (z - 2 * v) ≤ v) ∧
  (v < subCount → is_half (bucketMidpoint i) (2 * v) = true).
Proof.
  intros Hv Hw i. pose proof (bucketIndex_range v Hv) as Hi. pose proof Hv as [Hv0 _]. fold i in Hi.
  destruct (bucket_bounds v Hv) as (Hb & Hsmall & Hlarge). fold i in Hb, Hsmall, Hlarge.
  pose proof (bucketMidpoint_exact i Hi) as Hmid. rewrite subCount_eq in *.
  assert (Hsm : v < 16 → bucket_lo i = v) by (intros; specialize (Hsmall ltac:(done)); lia).
  assert (Hiv : v < 16 → i < 16) by (intros; unfold i; rewrite bucketIndex_small; lia).
  assert (Hiv' : 16 ≤ v → 16 ≤ i) by (intros; apply (bucketIndex_mono 16 v); lia).
  split_and!; [lia|lia|lia|lia|intros; apply bucketIndex_mono; destruct Hv; lia| |].
  - eexists. split; [exact Hmid|]. destruct (decide (v < 16)).
    + destruct (Z.ltb_spec i 16); [|lia]. rewrite Hsm by done. lia.
    + specialize (Hlarge ltac:(lia)). destruct (Z.ltb_spec i 16); lia.
  - intros. destruct (Z.ltb_spec i 16); [|lia]. by rewrite Hsm, Z.add_0_r in Hmid.
Qed.

(** 1000 ns is in the bucket of 992 to 1023. *)
Lemma bucket_resolution_witness :
  bucketIndex 1000 = 111 ∧ (bucket_lo 111, bucket_width 111) = (992, 32) ∧
  ∃ z, is_half (bucketMidpoint 111) z = true ∧ 16 * Z.abs (z - 2 * 1000) ≤ 1000.
Proof.
  destruct (bucket_resolution 1000 2000) as (_ & _ & _ & Hz & _); [unfold is_u64; lia..|].
  split_and!; [reflexivity|reflexivity|exact Hz].
Defined.
