(* ===== verification/HistogramConc.v ===== *)
(** * metrics/latency.go: concurrent recordings

    [Histogram.Record] takes no lock: it adds to a bucket, to the count and to
    the sum, and raises the maximum in a loop of loads and compare-and-swaps,
    each an atomic step.  Here any number of recordings run at once, their
    steps interleaved in any order. *)
From S2P Require Import Prelude Interleave GoFloat Histogram.

(** Where a recording of [ns] nanoseconds is. *)
Inductive pc :=
| PBucket
| PCount
| PSum
| PLoad
| PCas (cur : Z)
| PDone.

Record thread := { ns : Z; at_pc : pc }.

Record system := { hist : Histogram; threads : list thread }.

Definition goto (t : thread) (p : pc) : thread := {| ns := ns t; at_pc := p |}.

Definition with_buckets (bs : list Z) (h : Histogram) : Histogram :=
  {| buckets := bs; count_ := count_ h; sum := sum h; max_ := max_ h |}.
Definition with_count (n : Z) (h : Histogram) : Histogram :=
  {| buckets := buckets h; count_ := n; sum := sum h; max_ := max_ h |}.
Definition with_sum (n : Z) (h : Histogram) : Histogram :=
  {| buckets := buckets h; count_ := count_ h; sum := n; max_ := max_ h |}.
Definition with_max (n : Z) (h : Histogram) : Histogram :=
  {| buckets := buckets h; count_ := count_ h; sum := sum h; max_ := n |}.

(** The next atomic step of a recording; [None] when it has returned. *)
Definition thread_step (t : thread) (h : Histogram) : option (Histogram * thread) :=
  match at_pc t with
  | PBucket =>
      Some (with_buckets (alter (λ c, u64 (c + 1)) (Z.to_nat (bucketIndex (ns t))) (buckets h)) h,
            goto t PCount)
  | PCount => Some (with_count (u64 (count_ h + 1)) h, goto t PSum)
  | PSum => Some (with_sum (u64 (sum h + ns t)) h, goto t PLoad)
  | PLoad =>
      let cur := max_ h in
      Some (h, goto t (if ns t <=? cur then PDone else PCas cur))
  | PCas cur =>
      if max_ h =? cur then Some (with_max (ns t) h, goto t PDone) else Some (h, goto t PLoad)
  | PDone => None
  end.

Inductive step : system → system → Prop :=
| step_thread s i t h t' :
    threads s !! i = Some t → thread_step t (hist s) = Some (h, t') →
    step s {| hist := h; threads := <[i := t']> (threads s) |}.

(** The calls: a negative duration returns at once. *)
Definition spawn (d : Z) (s : system) : system :=
  if d <? 0 then s
  else {| hist := hist s; threads := threads s ++ [{| ns := u64 d; at_pc := PBucket |}] |}.

Definition init_system : system := {| hist := NewHistogram; threads := [] |}.

(** Reachable by any interleaving of calls with the durations [ds] and steps. *)
Inductive reachable : list Z → system → Prop :=
| reach_init : reachable [] init_system
| reach_spawn ds s d :
    reachable ds s → is_i64 d → Z.of_nat (S (length ds)) < 2 ^ 63 → reachable (ds ++ [d]) (spawn d s)
| reach_step ds s s' : reachable ds s → step s s' → reachable ds s'.

Definition quiescent (s : system) : Prop := ∀ t, t ∈ threads s → at_pc t = PDone.

(** An executable schedule: the recording [i] takes its next step. *)
Definition step_at (i : nat) (s : system) : option system :=
  t ← threads s !! i; '(h, t') ← thread_step t (hist s);
  Some {| hist := h; threads := <[i := t']> (threads s) |}.

Fixpoint run_schedule (is_ : list nat) (s : system) : option system :=
  match is_ with [] => Some s | i :: is_ => step_at i s ≫= run_schedule is_ end.

Lemma step_at_step i s s' : step_at i s = Some s' → step s s'.
Proof.
  unfold step_at. destruct (threads s !! i) as [t|] eqn:Hi; [|done]. cbn.
  destruct (thread_step t (hist s)) as [[h t']|] eqn:Hst; [|done]. cbn. intros [= <-].
  by eapply step_thread.
Qed.

Lemma run_schedule_reachable is_ ds s s' :
  reachable ds s → run_schedule is_ s = Some s' → reachable ds s'.
Proof.
  revert s. induction is_ as [|i is_ IH]; intros s Hr Hrun; simplify_eq/=; [done|].
  apply bind_Some in Hrun as (s1 & Hs & Hrun). eapply IH; [|done]. by eapply reach_step, step_at_step.
Qed.

(** ** The invariant: which recordings have passed each step *)

Definition rank (p : pc) : nat :=
  match p with PBucket => 0 | PCount => 1 | PSum => 2 | PLoad | PCas _ => 3 | PDone => 4 end.

Definition past (n : nat) (ts : list thread) : list Z := ns <$> filter (λ t, (n < rank (at_pc t))%nat) ts.

(** The histogram when the recordings past point [n] are [p n]. *)
Record hist_at (h : Histogram) (p : nat → list Z) : Prop := {
  ha_buckets : buckets h = bucket_counts (p 0%nat);
  ha_count : count_ h = Z.of_nat (length (p 1%nat));
  ha_sum : sum h = u64 (sum_obs (p 2%nat));
  ha_max : max_ h = max_obs (p 3%nat);
}.

(** A recording about to swap is larger than the maximum it has read. *)
Definition cas_ok (t : thread) : Prop := ∀ cur, at_pc t = PCas cur → cur < ns t.

Record conc_inv (ds : list Z) (s : system) : Prop := {
  cc_all : ns <$> threads s = observations ds;
  cc_len : Z.of_nat (length ds) < 2 ^ 63;
  cc_obs : Forall (λ v, 0 ≤ v < 2 ^ 63) (observations ds);
  cc_hist : hist_at (hist s) (λ n, past n (threads s));
  cc_cas : Forall cas_ok (threads s);
}.

(** The recordings past point [n] after a step of [t] to [t']. *)
Definition crossed (t t' : thread) (n : nat) (p : list Z) : list Z :=
  if ((rank (at_pc t) <=? n) && (n <? rank (at_pc t')))%nat then ns t :: p else p.

Lemma past_step n ts i t t' :
  ts !! i = Some t → ns t' = ns t → (rank (at_pc t) ≤ rank (at_pc t'))%nat →
  past n (<[i := t']> ts) ≡ₚ crossed t t' n (past n ts).
Proof.
  unfold past, crossed. intros Hi Hns Hle. revert i Hi. induction ts as [|u ts IH]; intros [|i] Hi; simplify_eq/=.
  - rewrite !filter_cons. destruct (Nat.leb_spec (rank (at_pc t)) n), (Nat.ltb_spec n (rank (at_pc t')));
      repeat case_decide; try lia; cbn; by rewrite ?Hns.
  - rewrite !filter_cons. specialize (IH i Hi).
    destruct ((rank (at_pc t) <=? n) && (n <? rank (at_pc t')))%nat; case_decide; cbn; rewrite IH;
      [constructor|done..].
Qed.

Lemma past_app n ts us : past n (ts ++ us) = past n ts ++ past n us.
Proof. unfold past. by rewrite filter_app, fmap_app. Qed.

Lemma length_past n ts : (length (past n ts) ≤ length ts)%nat.
Proof. unfold past. rewrite length_fmap. apply length_filter. Qed.

Lemma hist_at_perm h p p' : (∀ n, p n ≡ₚ p' n) → hist_at h p → hist_at h p'.
Proof.
  intros Hp [Hb Hc Hs Hm].
  by split; [rewrite Hb; apply bucket_counts_perm|rewrite Hc, (Hp 1%nat)|rewrite Hs; f_equal; apply sum_obs_perm
            |rewrite Hm; apply max_obs_perm].
Qed.

(** What a step does to the recordings past each point. *)
Lemma thread_step_past t h h' t' :
  thread_step t h = Some (h', t') → cas_ok t →
  ns t' = ns t ∧ (rank (at_pc t) ≤ rank (at_pc t'))%nat ∧ cas_ok t'.
Proof.
  unfold cas_ok. destruct t as [v []]; cbn; intros Hst Hcas; simplify_eq/=; try (split_and!; [done|lia|done]).
  - destruct (Z.leb_spec v (max_ h')); cbn; split_and!; try done; try lia; intros c Hc; by simplify_eq.
  - destruct (max_ h =? cur); simplify_eq/=; split_and!; try done; lia.
Qed.

Lemma thread_step_hist t h h' t' p :
  hist_at h p → thread_step t h = Some (h', t') → cas_ok t → 0 ≤ ns t < 2 ^ 63 →
  (∀ n, Z.of_nat (length (p n)) < 2 ^ 63) →
  hist_at h' (λ n, crossed t t' n (p n)).
Proof.
  intros [Hb Hc Hs Hm] Hst Hcas Hv Hlen.
  destruct t as [v []]; cbn in *; simplify_eq; [split; cbn; try done..| |].
  - rewrite Hb. apply bucket_counts_add; [unfold is_u64; lia|]. specialize (Hlen 0%nat). lia.
  - specialize (Hlen 1%nat). rewrite Hc, u64_small by (unfold is_u64; lia). lia.
  - rewrite Hs, u64_add_l. f_equal. apply Z.add_comm.
  - destruct (Z.leb_spec v (max_ h')); split; cbn; try done. fold (max_obs (p 3%nat)). lia.
  - destruct (Z.eqb_spec (max_ h) cur) as [Hcur|]; simplify_eq; split; cbn; try done.
    specialize (Hcas _ eq_refl). cbn in Hcas. fold (max_obs (p 3%nat)). lia.
Qed.

Lemma conc_inv_step ds s s' : conc_inv ds s → step s s' → conc_inv ds s'.
Proof.
  intros [Hall Hlen Hobs Hh Hcas] Hstep. destruct Hstep as [s i t h t' Hi Hst].
  assert (Hct : cas_ok t) by (rewrite Forall_forall in Hcas; eapply Hcas, list_elem_of_lookup_2, Hi).
  destruct (thread_step_past _ _ _ _ Hst Hct) as (Hns & Hle & Hct').
  split; cbn [hist threads]; [|done..| |by apply Forall_insert].
  - rewrite <-Hall, list_fmap_insert, Hns. apply list_insert_id. by rewrite list_lookup_fmap, Hi.
  - apply (hist_at_perm _ (λ n, crossed t t' n (past n (threads s)))).
    { intros n. symmetry. by apply past_step. }
    apply (thread_step_hist _ (hist s)); [done..| |].
    + rewrite Forall_forall in Hobs. apply Hobs. rewrite <-Hall. apply list_elem_of_fmap.
      exists t. split; [done|]. by eapply list_elem_of_lookup_2.
    + intros n. pose proof (length_past n (threads s)) as H1.
      pose proof (f_equal length Hall) as H2. rewrite length_fmap in H2.
      pose proof (length_filter (λ d, 0 ≤ d) ds). unfold observations in *. lia.
Qed.

Lemma conc_inv_spawn ds s d :
  conc_inv ds s → is_i64 d → Z.of_nat (S (length ds)) < 2 ^ 63 → conc_inv (ds ++ [d]) (spawn d s).
Proof.
  intros [Hall Hlen Hobs Hh Hcas] [Hd1 Hd2] Hsp. unfold spawn.
  assert (Ho : observations (ds ++ [d]) = observations ds ++ if decide (0 ≤ d) then [d] else []).
  { unfold observations. rewrite filter_app, filter_cons. by case_decide. }
  assert (Hl : Z.of_nat (length (ds ++ [d])) < 2 ^ 63) by (rewrite length_app; cbn [length]; lia).
  destruct (Z.ltb_spec d 0).
  - rewrite decide_False, app_nil_r in Ho by lia. by split; rewrite ?Ho.
  - rewrite decide_True in Ho by lia. rewrite (u64_small d) by (unfold is_u64; lia). split; cbn [hist threads].
    + by rewrite fmap_app, Hall, Ho.
    + done.
    + rewrite Ho. apply Forall_app_2; [done|]. repeat constructor; lia.
    + eapply hist_at_perm; [|exact Hh]. intros n. cbn beta. rewrite past_app. unfold past at 3.
      rewrite filter_cons, decide_False by (cbn; lia). cbn. by rewrite app_nil_r.
    + apply Forall_app_2; [done|]. by repeat constructor.
Qed.

Lemma conc_reachable_inv ds s : reachable ds s → conc_inv ds s.
Proof.
  induction 1; [|by apply conc_inv_spawn|by eapply conc_inv_step].
  by split; cbn; try (split; reflexivity); constructor.
Qed.

Lemma past_quiescent n ts : (∀ t, t ∈ ts → at_pc t = PDone) → (n < 4)%nat → past n ts = ns <$> ts.
Proof.
  intros Hq Hn. unfold past. f_equal. induction ts as [|t ts IH]; [done|].
  rewrite filter_cons, (Hq t), decide_True by (cbn; set_solver). f_equal. apply IH. set_solver.
Qed.

(** ** Every run of steps ends *)

(** The points before a recording, and how often its next steps can only
    repeat themselves. *)
Definition points_left (t : thread) : nat := 4 - rank (at_pc t).

Definition stale (h : Histogram) (t : thread) : nat :=
  match at_pc t with PLoad => 1 | PCas cur => if max_ h =? cur then 0 else 2 | _ => 0 end.

Lemma stale_le_2 h t : (stale h t ≤ 2)%nat.
Proof. unfold stale. repeat case_match; lia. Qed.

(** A step moves its recording forward, or leaves the histogram alone and
    reads a fresher maximum. *)
Lemma thread_step_progress t h h' t' :
  thread_step t h = Some (h', t') →
  (points_left t' < points_left t)%nat ∨
  points_left t' = points_left t ∧ h' = h ∧ stale h t = S (stale h t').
Proof.
  unfold stale, points_left. destruct t as [v []]; cbn; intros Hst; simplify_eq/=; try (left; lia).
  - destruct (v <=? max_ h'); cbn; [left; lia|right]. by rewrite Z.eqb_refl.
  - destruct (max_ h =? cur) eqn:E; simplify_eq/=; [left; lia|by right].
Qed.

Definition view (s : system) : Histogram * list thread := (hist s, threads s).

Lemma step_interleaved s s' : step s s' → interleaved thread_step (view s) (view s').
Proof. destruct 1. by eapply interleaved_step. Qed.

Lemma steps_bound k s s' :
  nsteps step k s s' →
  let N := length (threads s) in (k ≤ 4 * N * (2 * N + 1) + 2 * N)%nat.
Proof.
  intros Hk%(interleaved_bound thread_step points_left stale stale_le_2 thread_step_progress _ view).
  - cbv zeta in *. unfold all_left, view in Hk. cbn [snd] in Hk.
    assert (Hp : ∀ t, (points_left t ≤ 4)%nat) by (unfold points_left; lia).
    pose proof (sum_list_with_bound _ 4 (threads s) Hp). nia.
  - intros ??. apply step_interleaved.
Qed.

#[global] Instance quiescent_dec s : Decision (quiescent s).
Proof.
  refine (cast_if (decide (Forall (λ t, rank (at_pc t) = 4%nat) (threads s)))).
  - intros t Ht. rewrite Forall_forall in f. specialize (f t Ht). by destruct t as [v []].
  - intros Hq. destruct n. apply Forall_forall. intros t Ht. by rewrite (Hq t Ht).
Defined.

Lemma not_quiescent_step s : ¬ quiescent s → ∃ s', step s s'.
Proof.
  intros Hq. destruct (decide (Exists (λ t, rank (at_pc t) ≠ 4%nat) (threads s))) as [He|Hne].
  - apply Exists_exists in He as (t & Ht & Hpc). apply list_elem_of_lookup in Ht as [i Hi].
    destruct (thread_step t (hist s)) as [[h t']|] eqn:Hst; [by eexists; eapply step_thread|].
    destruct t as [v []]; cbn in Hst; try done. by destruct (max_ (hist s) =? cur).
  - destruct Hq. intros t Ht. apply not_Exists_Forall in Hne; [|apply _]. rewrite Forall_forall in Hne.
    specialize (Hne t Ht). destruct t as [v []]; cbn in *; try done; by destruct Hne.
Qed.

Lemma hist_rep_unique h h' obs : hist_rep h obs → hist_rep h' obs → h = h'.
Proof.
  intros [_ _ Hb Hc Hs Hm] [_ _ Hb' Hc' Hs' Hm']. destruct h, h'; cbn in *. congruence.
Qed.

Lemma quiescent_rep ds s : conc_inv ds s → quiescent s → hist_rep (hist s) (observations ds).
Proof.
  intros [Hall Hlen Hobs [Hb Hc Hs Hm] _] Hq.
  rewrite !(past_quiescent _ _ Hq), Hall in * by lia.
  pose proof (length_filter (λ d, 0 ≤ d) ds) as Hl. split; try done. unfold observations in *. lia.
Qed.

Lemma reachable_i64 ds s : reachable ds s → Forall is_i64 ds.
Proof. induction 1; [by constructor| |done]. apply Forall_app. by rewrite Forall_singleton. Qed.

(** Concurrent recordings lose nothing.  Let calls of [Record] with the
    durations [ds] (fewer than 2^63) run at once, their atomic steps
    interleaved in any way.  When all have returned the histogram is the one
    that recording [ds] one after the other gives: every bucket, the count,
    the sum and the maximum.  While one has not returned some step is
    possible, and no run of steps is longer than a bound on the number of
    recordings: the compare-and-swap loop ends under every schedule. *)
Theorem concurrent_record ds s :
  reachable ds s →
  let N := length (threads s) in
  (quiescent s → hist s = record_all ds NewHistogram) ∧
  (¬ quiescent s → ∃ s', step s s') ∧
  (∀ k s', nsteps step k s s' → (k ≤ 4 * N * (2 * N + 1) + 2 * N)%nat).
Proof.
  intros Hr N. pose proof (conc_reachable_inv _ _ Hr) as Hinv. split_and!.
  - intros Hq. apply (hist_rep_unique _ _ (observations ds)); [by apply quiescent_rep|].
    pose proof (record_all_rep ds NewHistogram [] hist_rep_New (reachable_i64 _ _ Hr)) as Hrec.
    rewrite app_nil_r in Hrec. apply Hrec. pose proof (cc_len _ _ Hinv). cbn [length]. lia.
  - apply not_quiescent_step.
  - intros k s'. apply steps_bound.
Qed.

(** A recording of 100 ns reads the maximum 0; another, of 300 ns, runs to its
    end; the swap of the first fails and it reads 300.  Then all have
    returned. *)
Definition two_started : system := spawn 300 (spawn (-5) (spawn 100 init_system)).
Definition two_schedule : list nat := [0; 0; 0; 0; 1; 1; 1; 1; 1; 0; 0]%nat.

Lemma two_started_reachable : reachable [100; -5; 300] two_started.
Proof.
  apply (reach_spawn [100; -5]); [|unfold is_i64; lia|cbn; lia].
  apply (reach_spawn [100]); [|unfold is_i64; lia|cbn; lia].
  apply (reach_spawn []); [apply reach_init|unfold is_i64; lia|cbn; lia].
Qed.

Lemma concurrent_record_witness :
  ∃ s, run_schedule two_schedule two_started = Some s ∧ quiescent s ∧
    hist s = record_all [100; -5; 300] NewHistogram ∧ Count (hist s) = 2 ∧ max_ (hist s) = 300.
Proof.
  destruct (run_schedule two_schedule two_started) as [s|] eqn:Hrun; [|vm_compute in Hrun; discriminate].
  exists s. pose proof (run_schedule_reachable _ _ _ _ two_started_reachable Hrun) as Hr.
  assert (Hq : quiescent s).
  { apply (bool_decide_unpack _). assert (Some true = (λ s, bool_decide (quiescent s)) <$> Some s) as Hb;
      [rewrite <-Hrun; vm_compute; reflexivity|]. cbn in Hb. injection Hb as <-. exact I. }
  pose proof (proj1 (concurrent_record _ _ Hr) Hq) as Hh.
  split_and!; [reflexivity|exact Hq|exact Hh|rewrite Hh; vm_compute; reflexivity..].
Defined.
