(* ===== verification/Memory.v ===== *)
(** * metrics/memory.go: the payload-versus-metadata accounting

    [AccountMemory] as the code computes it, in int64.  The sizes of Go types
    are those of a 64-bit platform, added up from the fields.  What the Go run
    time reports about the process is an argument. *)
From S2P Require Import Prelude GoFloat.

(** [unsafe.Sizeof] of the types an entry is made of. *)
Definition sizeof_string : Z := 16.
Definition sizeof_slice : Z := 24.
Definition sizeof_int64 : Z := 8.
Definition sizeof_Time : Z := 24.
Definition sizeof_uint32 : Z := 4.
Definition sizeof_interface : Z := 16.
Definition sizeof_pointer : Z := 8.

(** [a] rounded up to the alignment of the next field. *)
Definition align8 (a : Z) : Z := (a + 7) / 8 * 8.

Definition entryStructBytes : Z :=
  align8 (sizeof_string + sizeof_slice + sizeof_int64 + 2 * sizeof_Time + sizeof_uint32)
  + sizeof_interface.

Definition mapEntryOverheadBytes : Z := sizeof_string + sizeof_pointer + 8.

Definition EntryStructBytes : Z := entryStructBytes.

Record RuntimeMemory := {
  HeapAllocBytes : Z;
  HeapSysBytes : Z;
  HeapObjects : Z;
  TotalAllocated : Z;
  SysBytes : Z;
  NumGC : Z;
}.

(** The fields of [runtime.MemStats] that are read. *)
Record MemStats := {
  HeapAlloc : Z;
  HeapSys : Z;
  HeapObjects_ : Z;
  TotalAlloc : Z;
  Sys : Z;
  NumGC_ : Z;
}.

(** [ms] is what [runtime.ReadMemStats] stores. *)
Definition ReadRuntimeMemory (ms : MemStats) : RuntimeMemory :=
  {| HeapAllocBytes := HeapAlloc ms; HeapSysBytes := HeapSys ms; HeapObjects := HeapObjects_ ms;
     TotalAllocated := TotalAlloc ms; SysBytes := Sys ms; NumGC := NumGC_ ms |}.

Record MemoryBreakdown := {
  ObjectCount : Z;
  PayloadBytes : Z;
  KeyBytes : Z;
  EntryBytes : Z;
  IndexBytes : Z;
  PolicyBytes : Z;
  MetadataBytes : Z;
  OverheadRatio : float64;
  Runtime : RuntimeMemory;
}.

Definition AccountMemory (objectCount payloadBytes keyBytes policyBytes : Z) (rt : RuntimeMemory)
    : MemoryBreakdown :=
  let entryBytes := i64 (objectCount * entryStructBytes) in
  let indexBytes := i64 (objectCount * mapEntryOverheadBytes) in
  let metadataBytes := i64 (i64 (i64 (keyBytes + entryBytes) + indexBytes) + policyBytes) in
  let total := i64 (payloadBytes + metadataBytes) in
  {| ObjectCount := objectCount; PayloadBytes := payloadBytes; KeyBytes := keyBytes;
     EntryBytes := entryBytes; IndexBytes := indexBytes; PolicyBytes := policyBytes;
     MetadataBytes := metadataBytes;
     OverheadRatio := if total >? 0 then f64_div (f64_of_Z metadataBytes) (f64_of_Z total) else f64_zero;
     Runtime := rt |}.

Lemma entryStructBytes_eq : entryStructBytes = 120.
Proof. reflexivity. Qed.

Lemma mapEntryOverheadBytes_eq : mapEntryOverheadBytes = 32.
Proof. reflexivity. Qed.

(** The metadata is the keys, 120 bytes of header and 32 of index an
    entry, and the policy's own bytes, modulo 2^64; the ratio is 0 when there
    is nothing to account for and never divides by zero. *)
Lemma AccountMemory_sum n payload keys pol rt :
  let b := AccountMemory n payload keys pol rt in
  MetadataBytes b = i64 (keys + n * 120 + n * 32 + pol) ∧
  (is_i64 (keys + n * 152 + pol) → MetadataBytes b = keys + n * 152 + pol) ∧
  OverheadRatio b =
    if i64 (payload + MetadataBytes b) >? 0
    then f64_div (f64_of_Z (MetadataBytes b)) (f64_of_Z (i64 (payload + MetadataBytes b)))
    else f64_zero.
Proof.
  assert (Hm : MetadataBytes (AccountMemory n payload keys pol rt) = i64 (keys + n * 120 + n * 32 + pol)).
  { unfold AccountMemory. cbn [MetadataBytes]. rewrite entryStructBytes_eq, mapEntryOverheadBytes_eq.
    autorewrite with go. by rewrite <-Z.add_assoc, i64_add_l, Z.add_assoc. }
  split_and!; [done| |done]. intros Hr. rewrite Hm, i64_small; [lia|].
  unfold is_i64 in *. lia.
Qed.
