(* ===== verification/Collector.v ===== *)
(** * metrics/collector.go: the aggregate metrics

    The counters of [Collector] at their widths, every recording operation,
    [Snapshot] and the CSV columns.  The abstract state is the list of
    operations since the last [Reset]. *)
From stdpp Require Import pretty.
From S2P Require Import Prelude GoFloat Types Histogram Events FormatFloat.

Record CacheState := {
  Capacity : Z;
  BytesUsed : Z;
  MetadataBytes : Z;
  ObjectCount : Z;
}.

#[global] Instance CacheState_eq_dec : EqDecision CacheState.
Proof. solve_decision. Defined.

Definition zero_state : CacheState :=
  {| Capacity := 0; BytesUsed := 0; MetadataBytes := 0; ObjectCount := 0 |}.

Record Collector := {
  total : Z;
  hits : Z;
  misses : Z;
  bytesServed : Z;
  bytesFetched : Z;
  evictions : Z;
  evictedBytes : Z;
  backendReqs : Z;
  switches : Z;
  switchOverhead : Z;
  tuningAttempts : Z;
  tuningAccepted : Z;
  latency : Histogram;
  policy : PolicyName;
  state : CacheState;
}.

#[global] Instance Collector_eq_dec : EqDecision Collector.
Proof. solve_decision. Defined.

Definition NewCollector : Collector :=
  {| total := 0; hits := 0; misses := 0; bytesServed := 0; bytesFetched := 0; evictions := 0;
     evictedBytes := 0; backendReqs := 0; switches := 0; switchOverhead := 0; tuningAttempts := 0;
     tuningAccepted := 0; latency := NewHistogram; policy := PolicyNone; state := zero_state |}.

Definition RecordRequest (r : Request) (hit : bool) (lat : Z) (c : Collector) : Collector :=
  {| total := u64 (total c + 1);
     hits := if hit then u64 (hits c + 1) else hits c;
     misses := if hit then misses c else u64 (misses c + 1);
     bytesServed := if hit then i64 (bytesServed c + Request_Size r) else bytesServed c;
     bytesFetched := if hit then bytesFetched c else i64 (bytesFetched c + Request_Size r);
     evictions := evictions c;
     evictedBytes := evictedBytes c;
     backendReqs := if hit then backendReqs c else u64 (backendReqs c + 1);
     switches := switches c; switchOverhead := switchOverhead c;
     tuningAttempts := tuningAttempts c; tuningAccepted := tuningAccepted c;
     latency := Record_ lat (latency c);
     policy := policy c; state := state c |}.

Definition RecordFetch (size : Z) (c : Collector) : Collector :=
  {| total := total c; hits := hits c; misses := misses c; bytesServed := bytesServed c;
     bytesFetched := i64 (bytesFetched c + size);
     evictions := evictions c; evictedBytes := evictedBytes c; backendReqs := backendReqs c;
     switches := switches c; switchOverhead := switchOverhead c;
     tuningAttempts := tuningAttempts c; tuningAccepted := tuningAccepted c;
     latency := latency c; policy := policy c; state := state c |}.

Definition RecordEviction (_ : string) (size : Z) (c : Collector) : Collector :=
  {| total := total c; hits := hits c; misses := misses c; bytesServed := bytesServed c;
     bytesFetched := bytesFetched c;
     evictions := u64 (evictions c + 1); evictedBytes := i64 (evictedBytes c + size);
     backendReqs := backendReqs c; switches := switches c; switchOverhead := switchOverhead c;
     tuningAttempts := tuningAttempts c; tuningAccepted := tuningAccepted c;
     latency := latency c; policy := policy c; state := state c |}.

(** What [RecordSwitch] adds to the overhead, in microseconds. *)
Definition switch_micros `{GoRuntime} (e : SwitchEvent) : Z :=
  if f64_gt (OverheadMs e) f64_zero then f64_to_u64 (f64_mul (OverheadMs e) (f64_of_Z 1000)) else 0.

Definition RecordSwitch `{GoRuntime} (e : SwitchEvent) (c : Collector) : Collector :=
  {| total := total c; hits := hits c; misses := misses c; bytesServed := bytesServed c;
     bytesFetched := bytesFetched c; evictions := evictions c; evictedBytes := evictedBytes c;
     backendReqs := backendReqs c;
     switches := u64 (switches c + 1);
     switchOverhead :=
       if f64_gt (OverheadMs e) f64_zero then u64 (switchOverhead c + switch_micros e)
       else switchOverhead c;
     tuningAttempts := tuningAttempts c; tuningAccepted := tuningAccepted c;
     latency := latency c; policy := To e; state := state c |}.

Definition RecordTuning (e : TuningEvent) (c : Collector) : Collector :=
  {| total := total c; hits := hits c; misses := misses c; bytesServed := bytesServed c;
     bytesFetched := bytesFetched c; evictions := evictions c; evictedBytes := evictedBytes c;
     backendReqs := backendReqs c; switches := switches c; switchOverhead := switchOverhead c;
     tuningAttempts := u64 (tuningAttempts c + 1);
     tuningAccepted := if Accepted e then u64 (tuningAccepted c + 1) else tuningAccepted c;
     latency := latency c; policy := policy c; state := state c |}.

Definition with_policy_state (n : PolicyName) (s : CacheState) (c : Collector) : Collector :=
  {| total := total c; hits := hits c; misses := misses c; bytesServed := bytesServed c;
     bytesFetched := bytesFetched c; evictions := evictions c; evictedBytes := evictedBytes c;
     backendReqs := backendReqs c; switches := switches c; switchOverhead := switchOverhead c;
     tuningAttempts := tuningAttempts c; tuningAccepted := tuningAccepted c;
     latency := latency c; policy := n; state := s |}.

Definition ObserveCache (s : CacheState) (c : Collector) : Collector := with_policy_state (policy c) s c.
Definition SetPolicy (n : PolicyName) (c : Collector) : Collector := with_policy_state n (state c) c.

Definition TuningAttempts (c : Collector) : Z * Z := (tuningAttempts c, tuningAccepted c).

Definition Reset (c : Collector) : Collector :=
  {| total := 0; hits := 0; misses := 0; bytesServed := 0; bytesFetched := 0; evictions := 0;
     evictedBytes := 0; backendReqs := 0; switches := 0; switchOverhead := 0; tuningAttempts := 0;
     tuningAccepted := 0; latency := Histogram.Reset (latency c);
     policy := policy c; state := state c |}.

Record Stats := {
  TotalRequests : Z;
  Hits : Z;
  Misses : Z;
  HitRate : float64;
  ByteHitRate : float64;
  BytesServed : Z;
  BytesFetched : Z;
  LatencyMean : float64;
  LatencyP50 : float64;
  LatencyP95 : float64;
  LatencyP99 : float64;
  SCapacity : Z;
  SBytesUsed : Z;
  SMetadataBytes : Z;
  SObjectCount : Z;
  CurrentPolicy : PolicyName;
  PolicySwitches : Z;
  SwitchOverheadTotalMs : float64;
  DetectionDelayMean : float64;
  DetectionAccuracy : float64;
  Evictions : Z;
  BackendRequests : Z;
}.

Definition Snapshot `{GoRuntime} (c : Collector) : Stats :=
  let n := u64 (hits c + misses c) in
  let b := i64 (bytesServed c + bytesFetched c) in
  {| TotalRequests := total c;
     Hits := hits c;
     Misses := misses c;
     HitRate := if n >? 0 then f64_div (f64_of_Z (hits c)) (f64_of_Z n) else f64_zero;
     ByteHitRate := if b >? 0 then f64_div (f64_of_Z (bytesServed c)) (f64_of_Z b) else f64_zero;
     BytesServed := bytesServed c;
     BytesFetched := bytesFetched c;
     LatencyMean := MeanMillis (latency c);
     LatencyP50 := P50 (latency c);
     LatencyP95 := P95 (latency c);
     LatencyP99 := P99 (latency c);
     SCapacity := Capacity (state c);
     SBytesUsed := BytesUsed (state c);
     SMetadataBytes := MetadataBytes (state c);
     SObjectCount := ObjectCount (state c);
     CurrentPolicy := policy c;
     PolicySwitches := switches c;
     SwitchOverheadTotalMs := f64_div (f64_of_Z (switchOverhead c)) (f64_of_Z 1000);
     DetectionDelayMean := f64_zero;
     DetectionAccuracy := f64_zero;
     Evictions := evictions c;
     BackendRequests := backendReqs c |}.

(** ** The CSV columns

    Floats have the fewest digits that read back, integers are decimal. *)
Definition format_Z (z : Z) : string := pretty z.

Definition csvHeader : list string := [
  "total_requests"; "hits"; "misses"; "hit_rate"; "byte_hit_rate";
  "bytes_served"; "bytes_fetched";
  "latency_mean_ms"; "latency_p50_ms"; "latency_p95_ms"; "latency_p99_ms";
  "capacity"; "bytes_used"; "metadata_bytes"; "object_count";
  "current_policy"; "policy_switches"; "switch_overhead_total_ms";
  "detection_delay_mean"; "detection_accuracy";
  "evictions"; "backend_requests"]%string.

Definition CSVHeader : list string := csvHeader.

Definition Row (s : Stats) : list string :=
  let f := FormatFloat_g in [
  format_Z (TotalRequests s);
  format_Z (Hits s);
  format_Z (Misses s);
  f (HitRate s);
  f (ByteHitRate s);
  format_Z (BytesServed s);
  format_Z (BytesFetched s);
  f (LatencyMean s);
  f (LatencyP50 s);
  f (LatencyP95 s);
  f (LatencyP99 s);
  format_Z (SCapacity s);
  format_Z (SBytesUsed s);
  format_Z (SMetadataBytes s);
  format_Z (SObjectCount s);
  CurrentPolicy s;
  format_Z (PolicySwitches s);
  f (SwitchOverheadTotalMs s);
  f (DetectionDelayMean s);
  f (DetectionAccuracy s);
  format_Z (Evictions s);
  format_Z (BackendRequests s)].

(** ** Histories of recording operations *)

Inductive op :=
| ORequest (r : Request) (hit : bool) (lat : Z)
| OFetch (size : Z)
| OEviction (k : string) (size : Z)
| OSwitch (e : SwitchEvent)
| OTuning (e : TuningEvent)
| OObserve (s : CacheState)
| OSetPolicy (n : PolicyName)
| OReset.

(** The operations since the last [Reset]. *)
Definition since_reset (ops : list op) : list op :=
  foldl (λ l o, match o with OReset => [] | _ => l ++ [o] end) [] ops.

Definition total_of (f : op → Z) (ops : list op) : Z := foldr (λ o n, f o + n) 0 ops.

Definition is_hit (o : op) : Z := match o with ORequest _ true _ => 1 | _ => 0 end.
Definition is_miss (o : op) : Z := match o with ORequest _ false _ => 1 | _ => 0 end.
Definition hit_bytes (o : op) : Z := match o with ORequest r true _ => Request_Size r | _ => 0 end.
Definition fetched_bytes (o : op) : Z :=
  match o with ORequest r false _ => Request_Size r | OFetch size => size | _ => 0 end.
Definition is_eviction (o : op) : Z := match o with OEviction _ _ => 1 | _ => 0 end.
Definition eviction_bytes (o : op) : Z := match o with OEviction _ size => size | _ => 0 end.
Definition is_switch (o : op) : Z := match o with OSwitch _ => 1 | _ => 0 end.
Definition is_tuning (o : op) : Z := match o with OTuning _ => 1 | _ => 0 end.
Definition is_accepted (o : op) : Z :=
  match o with OTuning e => if Accepted e then 1 else 0 | _ => 0 end.

Definition latencies (ops : list op) : list Z :=
  omap (λ o, match o with ORequest _ _ lat => Some lat | _ => None end) ops.

(** The policy and the cache state, which [Reset] keeps. *)
Definition last_policy (ops : list op) : PolicyName :=
  foldl (λ n o, match o with OSwitch e => To e | OSetPolicy n => n | _ => n end) PolicyNone ops.
Definition last_state (ops : list op) : CacheState :=
  foldl (λ s o, match o with OObserve s => s | _ => s end) zero_state ops.

Lemma total_of_snoc f ops o : total_of f (ops ++ [o]) = total_of f ops + f o.
Proof. unfold total_of. induction ops as [|x ops IH]; simpl; lia. Qed.

Lemma latencies_snoc ops o :
  latencies (ops ++ [o]) = latencies ops ++ match o with ORequest _ _ lat => [lat] | _ => [] end.
Proof. unfold latencies. rewrite omap_app. by destruct o. Qed.

Lemma length_buckets_record ds : length (buckets (record_all ds NewHistogram)) = Z.to_nat numBuckets.
Proof.
  unfold record_all. assert (Hgen : ∀ h, length (buckets (foldl (flip Record_) h ds)) = length (buckets h)).
  { induction ds as [|d ds IH]; intros h; [done|]. cbn [foldl]. rewrite IH. unfold flip, Record_.
    destruct (Z.ltb_spec d 0); [done|]. cbn [buckets]. apply length_alter. }
  by rewrite Hgen.
Qed.

Lemma Reset_New h : length (buckets h) = Z.to_nat numBuckets → Histogram.Reset h = NewHistogram.
Proof.
  intros Hl. unfold Histogram.Reset, NewHistogram. f_equal. rewrite <-Hl. clear.
  induction (buckets h) as [|b bs IH]; [done|]. cbn [fmap list_fmap length replicate]. by f_equal.
Qed.

Section histories.
Context `{GoRuntime}.

Definition run_op (o : op) (c : Collector) : Collector :=
  match o with
  | ORequest r hit lat => RecordRequest r hit lat c
  | OFetch size => RecordFetch size c
  | OEviction k size => RecordEviction k size c
  | OSwitch e => RecordSwitch e c
  | OTuning e => RecordTuning e c
  | OObserve s => ObserveCache s c
  | OSetPolicy n => SetPolicy n c
  | OReset => Reset c
  end.

Definition run_ops (ops : list op) (c : Collector) : Collector := foldl (flip run_op) c ops.

Definition overhead_micros (o : op) : Z := match o with OSwitch e => switch_micros e | _ => 0 end.

(** The collector of a history. *)
Definition collector_of (ops : list op) : Collector :=
  let l := since_reset ops in
  {| total := u64 (total_of is_hit l + total_of is_miss l);
     hits := u64 (total_of is_hit l);
     misses := u64 (total_of is_miss l);
     bytesServed := i64 (total_of hit_bytes l);
     bytesFetched := i64 (total_of fetched_bytes l);
     evictions := u64 (total_of is_eviction l);
     evictedBytes := i64 (total_of eviction_bytes l);
     backendReqs := u64 (total_of is_miss l);
     switches := u64 (total_of is_switch l);
     switchOverhead := u64 (total_of overhead_micros l);
     tuningAttempts := u64 (total_of is_tuning l);
     tuningAccepted := u64 (total_of is_accepted l);
     latency := record_all (latencies l) NewHistogram;
     policy := last_policy ops; state := last_state ops |}.

Lemma run_ops_snoc ops o c : run_ops (ops ++ [o]) c = run_op o (run_ops ops c).
Proof. unfold run_ops. by rewrite foldl_app. Qed.

Lemma record_all_snoc ds d h : record_all (ds ++ [d]) h = Record_ d (record_all ds h).
Proof. unfold record_all. by rewrite foldl_app. Qed.

Lemma run_ops_collector_of ops : run_ops ops NewCollector = collector_of ops.
Proof.
  induction ops as [|o ops IH] using rev_ind; [done|]. rewrite run_ops_snoc, IH. unfold collector_of.
  unfold since_reset, last_policy, last_state. rewrite !foldl_app. cbn [foldl].
  fold (since_reset ops) (last_policy ops) (last_state ops).
  destruct o as [r [] lat|size|k size|e|e|s|n|]; cbn [run_op];
    unfold RecordRequest, RecordFetch, RecordEviction, RecordSwitch, RecordTuning, ObserveCache, SetPolicy,
      with_policy_state, Reset; cbn -[record_all numBuckets total_of latencies];
    rewrite ?total_of_snoc, ?latencies_snoc, ?app_nil_r, ?record_all_snoc;
    cbn -[record_all numBuckets total_of latencies].
  all: try (f_equal; rewrite ?u64_add_l, ?i64_add_l, ?Z.add_0_r; try done; f_equal; lia).
  - f_equal; rewrite ?Z.add_0_r, ?u64_add_l; try done. unfold switch_micros. case_match; [done|].
    by rewrite Z.add_0_r.
  - f_equal; rewrite ?Z.add_0_r, ?u64_add_l; try done. case_match; [done|]. by rewrite Z.add_0_r.
  - rewrite Reset_New by apply length_buckets_record. reflexivity.
Qed.

(** C26: the collector counts exactly.  After any history of recording
    operations, every counter is the count or sum over the operations since
    the last [Reset] (modulo its width), the latency histogram is that of the
    recorded latencies, the policy is the last one set and the cache state the
    last one observed, [Reset] keeping these two. *)
Theorem collector_counts_history ops :
  run_ops ops NewCollector = collector_of ops.
Proof. apply run_ops_collector_of. Qed.

(** ** Recordings in another order

    The cache records requests, fetches and evictions; these commute. *)
Definition counting (o : op) : Prop :=
  match o with ORequest _ _ _ | OFetch _ | OEviction _ _ => True | _ => False end.

(** What the recordings change: all but the policy name and the cache state. *)
Definition counters (c : Collector) : Collector := with_policy_state PolicyNone zero_state c.

Lemma run_op_counters o c : counting o → counters (run_op o c) = run_op o (counters c).
Proof. by destruct o. Qed.

Lemma run_ops_counters ops c : Forall counting ops → counters (run_ops ops c) = run_ops ops (counters c).
Proof.
  intros Hops. revert c. unfold run_ops. induction Hops as [|o ops Ho _ IH]; intros c; [done|].
  cbn [foldl]. unfold flip at 2 4. by rewrite IH, run_op_counters.
Qed.

Lemma run_op_comm o1 o2 c :
  counting o1 → counting o2 → run_op o1 (run_op o2 c) = run_op o2 (run_op o1 c).
Proof.
  destruct o1 as [r1 [] l1|n1|k1 n1|?|?|?|?|]; try done; destruct o2 as [r2 [] l2|n2|k2 n2|?|?|?|?|]; try done;
    intros _ _; cbn [run_op]; unfold RecordRequest, RecordFetch, RecordEviction; cbn; f_equal;
    rewrite ?u64_add_l, ?i64_add_l; try (f_equal; lia); try apply Record_comm.
Qed.

Lemma run_ops_perm ops ops' c : Forall counting ops → ops ≡ₚ ops' → run_ops ops c = run_ops ops' c.
Proof.
  intros Hops Hp. revert c. unfold run_ops.
  induction Hp as [|o l l' _ IH|o1 o2 l|l l2 l3 H12 IH1 _ IH2]; intros c.
  - done.
  - apply Forall_cons in Hops as [_ Hl]. cbn [foldl]. by apply IH.
  - apply Forall_cons in Hops as [H1 [H2 _]%Forall_cons]. cbn [foldl]. unfold flip at 2 3 5 6.
    by rewrite run_op_comm.
  - rewrite IH1 by done. apply IH2. by rewrite <-H12.
Qed.

Lemma run_ops_app ops ops' c : run_ops (ops ++ ops') c = run_ops ops' (run_ops ops c).
Proof. unfold run_ops. by rewrite foldl_app. Qed.

(** C27: what a snapshot says of a history: every request is a hit or a miss,
    a miss is a backend request, and with fewer than 2^63 requests the hit
    rate is the quotient of the numbers of hits and of requests, and 0 when
    there is none. *)
Theorem snapshot_of_history ops :
  let l := since_reset ops in
  let h := total_of is_hit l in
  let m := total_of is_miss l in
  let s := Snapshot (run_ops ops NewCollector) in
  Z.of_nat (length ops) < 2 ^ 63 →
  TotalRequests s = Hits s + Misses s ∧ Hits s = h ∧ Misses s = m ∧ BackendRequests s = m ∧
  HitRate s = (if decide (h + m = 0) then f64_zero else f64_div (f64_of_Z h) (f64_of_Z (h + m))) ∧
  CurrentPolicy s = last_policy ops.
Proof.
  intros l h m s Hlen.
  assert (Hl : (length l ≤ length ops)%nat).
  { unfold l. induction ops as [|o ops IH] using rev_ind; [done|]. unfold since_reset.
    rewrite foldl_app. cbn [foldl]. fold (since_reset ops). rewrite length_app in Hlen |- *.
    cbn [length] in *. specialize (IH ltac:(lia)).
    destruct o; rewrite ?length_app; cbn [length]; lia. }
  assert (Hhm : ∀ l, 0 ≤ total_of is_hit l ∧ 0 ≤ total_of is_miss l ∧
    total_of is_hit l + total_of is_miss l ≤ Z.of_nat (length l)).
  { clear. induction l as [|o l IH]; [simpl; lia|]. unfold total_of in *. cbn [foldr length] in *.
    destruct o as [r [] lat| | | | | | |]; cbn [is_hit is_miss]; lia. }
  destruct (Hhm l) as (Hh & Hm & Hs). fold h m in Hh, Hm, Hs.
  unfold s. rewrite run_ops_collector_of. unfold Snapshot, collector_of. fold l h m.
  cbn [TotalRequests Hits Misses BackendRequests HitRate CurrentPolicy total hits misses backendReqs policy].
  rewrite !(u64_small h), !(u64_small m), !(u64_small (h + m)) by (unfold is_u64; lia).
  split_and!; try done. case_decide; destruct (Z.gtb_spec (h + m) 0); (done || lia).
Qed.
End histories.

Definition sample_request : Request :=
  {| Request_Key := "a"; Request_Size := 10; Request_Timestamp := 0; Request_RequestID := 1; Request_Op := OpGet |}.

(** A warm-up miss, a reset, a miss and three hits: a hit rate of 3/4. *)
Lemma snapshot_of_history_witness :
  let ops := [ORequest sample_request false 5; OSetPolicy PolicyLRU; OReset;
              ORequest sample_request false 5; OFetch 10; ORequest sample_request true 1;
              ORequest sample_request true 1; ORequest sample_request true 1] in
  Hits (Snapshot (run_ops ops NewCollector)) = 3 ∧
  HitRate (Snapshot (run_ops ops NewCollector)) = f64_of_ratio 3 4 ∧
  CurrentPolicy (Snapshot (run_ops ops NewCollector)) = PolicyLRU.
Proof.
  intros ops. destruct (snapshot_of_history ops) as (_ & Hh & _ & _ & Hr & Hp); [simpl; lia|].
  rewrite Hh, Hr, Hp. split_and!; vm_compute; reflexivity.
Defined.

(** The row has the columns of the header, in its order. *)
Lemma Row_columns s :
  length (Row s) = length CSVHeader ∧ NoDup CSVHeader ∧
  zip CSVHeader (Row s) !! 3%nat = Some ("hit_rate"%string, FormatFloat_g (HitRate s)) ∧
  zip CSVHeader (Row s) !! 15%nat = Some ("current_policy"%string, CurrentPolicy s).
Proof. split_and!; try done. apply (bool_decide_unpack _). vm_compute. exact I. Qed.
