(* ===== verification/Snapshot.v ===== *)
(** * metrics/: every number of a snapshot is well formed

    The counters of a snapshot are in the range of their types and its rates
    and latencies are finite, whatever was recorded: no division by zero, no
    overflow to an infinity.  Such numbers are read back from their text. *)
From S2P Require Import Prelude GoFloat FloatFacts GoText FormatFloat Types Histogram Events Collector.

(** ** The histogram *)

Record hist_ok (h : Histogram) : Prop := {
  ho_buckets : length (buckets h) = Z.to_nat numBuckets;
  ho_count : is_u64 (count_ h);
  ho_sum : is_u64 (sum h);
  ho_max : is_u64 (max_ h);
}.

Lemma hist_ok_New : hist_ok NewHistogram.
Proof. by split. Qed.

Lemma hist_ok_Record d h : hist_ok h → hist_ok (Record_ d h).
Proof.
  intros [Hb Hc Hs Hm]. unfold Record_. destruct (d <? 0); [done|].
  split; cbn; [by rewrite length_alter|apply u64_range|apply u64_range|]. case_match; [done|apply u64_range].
Qed.

Lemma hist_ok_Reset h : hist_ok h → hist_ok (Histogram.Reset h).
Proof. intros [Hb Hc Hs Hm]. split; cbn; try done. by rewrite length_fmap. Qed.

Lemma scan_range i bs seen target j :
  scan i bs seen target = Some j → i ≤ j < i + Z.of_nat (length bs).
Proof.
  revert i seen. induction bs as [|c bs IH]; intros i seen; [done|]. cbn [scan length].
  destruct (c =? 0); [intros H%IH; lia|]. cbv zeta. destruct (_ >? target); [intros [= <-]; lia|intros H%IH; lia].
Qed.

(** The midpoints, checked on every bucket. *)
Lemma bucketMidpoint_within i : 0 ≤ i < numBuckets → within (-1) 66 (bucketMidpoint i).
Proof.
  intros Hi.
  assert (Hall : forallb (λ j, match bucketMidpoint (Z.of_nat j) with
    | S754_zero _ => true
    | S754_finite _ m e => bounded 53 1024 m e && (-1 <=? Zpos (digits2_pos m) + e) && (Zpos (digits2_pos m) + e <=? 66)
    | _ => false
    end) (seq 0 (Z.to_nat numBuckets)) = true) by (vm_compute; reflexivity).
  rewrite forallb_forall in Hall. specialize (Hall (Z.to_nat i)). rewrite Z2Nat.id in Hall by lia.
  specialize (Hall ltac:(apply in_seq; lia)). destruct (bucketMidpoint i); try done. cbn.
  rewrite !andb_true_iff, !Z.leb_le in Hall. naive_solver.
Qed.

Lemma million_between : finite_between 20 20 million.
Proof. split; [reflexivity|]. vm_compute. by split. Qed.

Lemma u64_within z : is_u64 z → within 1 65 (f64_of_Z z).
Proof. unfold is_u64. intros ?. apply of_Z_within. lia. Qed.

Lemma u64_between z : is_u64 z → z ≠ 0 → finite_between 1 65 (f64_of_Z z).
Proof. unfold is_u64. intros ? ?. apply of_Z_between; [done|lia]. Qed.

Lemma millis_finite a b x : within a b x → -1000 ≤ a → b ≤ 1000 → finite64 (f64_div x million) = true.
Proof. intros Hx Ha Hb. eapply within_finite, (div_within a b 20 20); [done|apply million_between|lia|lia]. Qed.

Section finite.
Context `{GoRuntime}.

Lemma MeanMillis_finite h : hist_ok h → finite64 (MeanMillis h) = true.
Proof.
  intros [_ Hc Hs _]. unfold MeanMillis. destruct (Z.eqb_spec (count_ h) 0) as [|Hne]; [done|].
  eapply millis_finite; [|instantiate (1 := 1 - 65); lia|instantiate (1 := 65 - 1 + 2); lia].
  apply div_within; [by apply u64_within|by apply u64_between|lia|lia].
Qed.

Lemma QuantileMillis_finite q h : hist_ok h → finite64 (QuantileMillis q h) = true.
Proof.
  intros [Hb Hc Hs Hm]. unfold QuantileMillis. destruct (count_ h =? 0); [done|].
  destruct (scan 0 (buckets h) 0 _) as [i|] eqn:Hscan.
  - apply scan_range in Hscan. eapply millis_finite; [apply bucketMidpoint_within|lia|lia].
    rewrite Hb, Z2Nat.id in Hscan by (rewrite numBuckets_eq; lia). lia.
  - unfold MaxMillis. eapply millis_finite; [by apply u64_within|lia|lia].
Qed.

(** ** The collector *)

(** The counters are in the range of their types: always. *)
Record counters_ok (c : Collector) : Prop := {
  co_u64 : Forall is_u64 [total c; hits c; misses c; evictions c; backendReqs c; switches c; switchOverhead c];
  co_i64 : Forall is_i64 [bytesServed c; bytesFetched c];
  co_hist : hist_ok (latency c);
}.

(** A cache state with int64 fields. *)
Definition state_typed (s : CacheState) : Prop :=
  Forall is_i64 [Capacity s; BytesUsed s; MetadataBytes s; ObjectCount s].

Definition op_typed (o : op) : Prop := match o with OObserve s => state_typed s | _ => True end.

Record coll_typed (c : Collector) : Prop := { cy_counters : counters_ok c; cy_state : state_typed (state c) }.

Lemma counters_ok_New : counters_ok NewCollector.
Proof. split; [repeat constructor; unfold is_u64; cbn; lia|repeat constructor; unfold is_i64; cbn; lia|apply hist_ok_New]. Qed.

Lemma run_op_counters_ok o c : counters_ok c → counters_ok (run_op o c).
Proof.
  intros [Hu Hi Hh]. split_forall.
  assert (is_u64 0) by (unfold is_u64; lia). assert (is_i64 0) by (unfold is_i64; lia).
  destruct o as [r [] lat|size|k size|e|e|s|n|]; cbn [run_op];
    (split; cbn; [rewrite !Forall_cons; split_and!..|]); repeat case_match; auto using u64_range, i64_range, hist_ok_Record, hist_ok_Reset.
Qed.

Lemma run_op_typed o c : op_typed o → coll_typed c → coll_typed (run_op o c).
Proof. intros Ho [Hc Hs]. split; [by apply run_op_counters_ok|]. by destruct o. Qed.

Lemma coll_typed_New : coll_typed NewCollector.
Proof. split; [apply counters_ok_New|]. repeat constructor; unfold is_i64; cbn; lia. Qed.

Lemma run_ops_counters_ok ops c : counters_ok c → counters_ok (run_ops ops c).
Proof. revert c. induction ops as [|o ops IH]; intros c Hc; [done|]. apply IH. by apply run_op_counters_ok. Qed.

Lemma run_ops_state_typed ops : Forall op_typed ops → state_typed (state (run_ops ops NewCollector)).
Proof.
  induction ops as [|o ops IH] using rev_ind; intros Hops; [repeat constructor; unfold is_i64; cbn; lia|].
  rewrite run_ops_snoc. apply Forall_app in Hops as [Hops [Ho _]%Forall_cons_1]. specialize (IH Hops). by destruct o.
Qed.

(** ** The snapshot *)

Definition stats_u64 (s : Stats) : list Z :=
  [TotalRequests s; Hits s; Misses s; PolicySwitches s; Evictions s; BackendRequests s].
Definition stats_i64 (s : Stats) : list Z :=
  [BytesServed s; BytesFetched s; SCapacity s; SBytesUsed s; SMetadataBytes s; SObjectCount s].
Definition stats_floats (s : Stats) : list float64 :=
  [HitRate s; ByteHitRate s; LatencyMean s; LatencyP50 s; LatencyP95 s; LatencyP99 s;
   SwitchOverheadTotalMs s; DetectionDelayMean s; DetectionAccuracy s].

Record stats_ok (s : Stats) : Prop := {
  so_u64 : Forall is_u64 (stats_u64 s);
  so_i64 : Forall is_i64 (stats_i64 s);
  so_floats : Forall (λ f, finite64 f = true) (stats_floats s);
}.

Lemma rate_finite x y :
  Z.abs x < 2 ^ 64 → Z.abs y < 2 ^ 64 → finite64 (if y >? 0 then f64_div (f64_of_Z x) (f64_of_Z y) else f64_zero) = true.
Proof.
  intros Hx Hy. destruct (Z.gtb_spec y 0); [|done].
  eapply within_finite, (div_within 1 65 1 65); [by apply of_Z_within|apply of_Z_between; [lia|done]|lia|lia].
Qed.

Lemma Snapshot_finite c : counters_ok c → Forall (λ f, finite64 f = true) (stats_floats (Snapshot c)).
Proof.
  intros [Hu Hi Hh].
  assert (Hthousand : finite_between 10 10 (f64_of_Z 1000)) by (split; [reflexivity|vm_compute; by split]).
  split_forall. repeat constructor; try done; cbn [HitRate ByteHitRate LatencyMean LatencyP50 LatencyP95 LatencyP99
    SwitchOverheadTotalMs DetectionDelayMean DetectionAccuracy Snapshot].
  - pose proof (u64_range (hits c + misses c)). unfold is_u64 in *. apply rate_finite; lia.
  - pose proof (i64_range (bytesServed c + bytesFetched c)). unfold is_i64 in *. apply rate_finite; lia.
  - by apply MeanMillis_finite.
  - by apply QuantileMillis_finite.
  - by apply QuantileMillis_finite.
  - by apply QuantileMillis_finite.
  - eapply within_finite, (div_within 1 65 10 10); [|done|lia|lia]. by apply u64_within.
Qed.

Lemma Snapshot_typed c : coll_typed c → stats_ok (Snapshot c).
Proof.
  intros [Hc Hs]. split; [..|by apply Snapshot_finite].
  - destruct Hc as [Hu _ _]. split_forall. repeat (apply Forall_cons_2; [assumption|]). apply Forall_nil_2.
  - destruct Hc as [_ Hi _]. unfold state_typed in Hs. split_forall. repeat (apply Forall_cons_2; [assumption|]). apply Forall_nil_2.
Qed.

Lemma snapshot_ok_of_history ops : Forall op_typed ops → stats_ok (Snapshot (run_ops ops NewCollector)).
Proof.
  intros Hops. apply Snapshot_typed. split; [apply run_ops_counters_ok, counters_ok_New|by apply run_ops_state_typed].
Qed.
End finite.

(** ** Reading the numbers back *)

Definition read_u64 (s : text) : option Z :=
  n ← parse_digits s; if decide (n < 2 ^ 64) then Some n else None.

Definition read_float (s : text) : option float64 :=
  match ParseFloat s with inr f => Some f | inl _ => None end.

Lemma read_u64_format z : is_u64 z → read_u64 (explode (format_Z z)) = Some z.
Proof.
  unfold is_u64. intros Hz. unfold read_u64, format_Z. destruct (explode_pretty_Z z) as (ds & -> & Hd & Hv).
  destruct (Z.ltb_spec z 0); [lia|]. rewrite parse_digits_all, Hv by done. cbn [mbind option_bind].
  rewrite decide_True by lia. f_equal. lia.
Qed.

Lemma read_float_format f : finite64 f = true → read_float (explode (FormatFloat_g f)) = Some f.
Proof. intros Hf. unfold read_float, FormatFloat_g. by rewrite explode_implode, format_float_reads. Qed.
