(* ===== verification/CollectorConc.v ===== *)
(** * metrics/collector.go: concurrent recordings and snapshots

    The collector takes no lock for its counters: a recording is a sequence of
    atomic additions, a snapshot a sequence of atomic loads, and only the
    policy's name and the cache state are under a mutex.  Here every method is
    the list of its atomic steps, any number of calls run at once, their steps
    interleaved in any order, and a snapshot is read while they run. *)
From S2P Require Import Prelude Interleave GoFloat FloatFacts Types Histogram Events Collector Snapshot.

(** ** The atomic words of a collector *)

Inductive word :=
| WTotal | WHits | WMisses | WServed | WFetched | WEvictions | WEvictedBytes | WBackend
| WSwitches | WOverhead | WAttempts | WAccepted
| WBucket (i : nat) | WCount | WSum | WMax.

#[global] Instance word_eq_dec : EqDecision word.
Proof. solve_decision. Defined.

(** [atomic.Int64] or [atomic.Uint64] *)
Definition wrap (w : word) (z : Z) : Z :=
  match w with WServed | WFetched | WEvictedBytes => i64 z | _ => u64 z end.

Definition load (w : word) (c : Collector) : Z :=
  match w with
  | WTotal => total c
  | WHits => hits c
  | WMisses => misses c
  | WServed => bytesServed c
  | WFetched => bytesFetched c
  | WEvictions => evictions c
  | WEvictedBytes => evictedBytes c
  | WBackend => backendReqs c
  | WSwitches => switches c
  | WOverhead => switchOverhead c
  | WAttempts => tuningAttempts c
  | WAccepted => tuningAccepted c
  | WBucket i => default 0 (buckets (latency c) !! i)
  | WCount => count_ (latency c)
  | WSum => sum (latency c)
  | WMax => max_ (latency c)
  end.

Definition update (w : word) (f : Z → Z) (c : Collector) : Collector :=
  let at_ x v := if decide (w = x) then f v else v in
  {| total := at_ WTotal (total c);
     hits := at_ WHits (hits c);
     misses := at_ WMisses (misses c);
     bytesServed := at_ WServed (bytesServed c);
     bytesFetched := at_ WFetched (bytesFetched c);
     evictions := at_ WEvictions (evictions c);
     evictedBytes := at_ WEvictedBytes (evictedBytes c);
     backendReqs := at_ WBackend (backendReqs c);
     switches := at_ WSwitches (switches c);
     switchOverhead := at_ WOverhead (switchOverhead c);
     tuningAttempts := at_ WAttempts (tuningAttempts c);
     tuningAccepted := at_ WAccepted (tuningAccepted c);
     latency :=
       {| buckets :=
            match w with
            | WBucket i => alter f i (buckets (latency c))
            | _ => buckets (latency c)
            end;
          count_ := at_ WCount (count_ (latency c));
          sum := at_ WSum (sum (latency c));
          max_ := at_ WMax (max_ (latency c)) |};
     policy := policy c; state := state c |}.

(** ** The atomic steps of the methods *)

Inductive instr :=
| IAdd (w : word) (n : Z)
| IStore (w : word) (v : Z)
| IRaise (ns : Z) (cur : option Z)
| IPolicy (n : PolicyName)
| IState (s : CacheState).

(** What a step does when nothing comes between: [IRaise] is the loop of
    [Record] that raises the maximum, [IPolicy] and [IState] are the sections
    under the mutex. *)
Definition exec (i : instr) (c : Collector) : Collector :=
  match i with
  | IAdd w n => update w (λ v, wrap w (v + n)) c
  | IStore w v => update w (λ _, v) c
  | IRaise ns _ => update WMax (λ m, if ns <=? m then m else ns) c
  | IPolicy n => with_policy_state n (state c) c
  | IState s => with_policy_state (policy c) s c
  end.

(** One atomic step, and what is left of it: the loop loads the maximum and
    then swaps it if it is still the one it has loaded. *)
Definition instr_step (i : instr) (c : Collector) : Collector * option instr :=
  match i with
  | IRaise ns None =>
      let cur := load WMax c in
      (c, if ns <=? cur then None else Some (IRaise ns (Some cur)))
  | IRaise ns (Some cur) =>
      if load WMax c =? cur then (update WMax (λ _, ns) c, None) else (c, Some (IRaise ns None))
  | _ => (exec i c, None)
  end.

Definition Record_code (d : Z) : list instr :=
  if d <? 0 then []
  else
    let ns := u64 d in
    [IAdd (WBucket (Z.to_nat (bucketIndex ns))) 1; IAdd WCount 1; IAdd WSum ns; IRaise ns None].

Definition RecordRequest_code (r : Request) (hit : bool) (lat : Z) : list instr :=
  IAdd WTotal 1 ::
  (if hit then [IAdd WHits 1; IAdd WServed (Request_Size r)]
   else [IAdd WMisses 1; IAdd WFetched (Request_Size r); IAdd WBackend 1]) ++
  Record_code lat.

Definition RecordFetch_code (size : Z) : list instr := [IAdd WFetched size].

Definition RecordEviction_code (_ : string) (size : Z) : list instr :=
  [IAdd WEvictions 1; IAdd WEvictedBytes size].

Definition RecordSwitch_code `{GoRuntime} (e : SwitchEvent) : list instr :=
  [IAdd WSwitches 1] ++
  (if f64_gt (OverheadMs e) f64_zero
   then [IAdd WOverhead (f64_to_u64 (f64_mul (OverheadMs e) (f64_of_Z 1000)))] else []) ++
  [IPolicy (To e)].

Definition RecordTuning_code (e : TuningEvent) : list instr :=
  IAdd WAttempts 1 :: if Accepted e then [IAdd WAccepted 1] else [].

Definition Histogram_Reset_code : list instr :=
  ((λ i, IStore (WBucket i) 0) <$> seq 0 (Z.to_nat numBuckets)) ++
  [IStore WCount 0; IStore WSum 0; IStore WMax 0].

Definition Reset_code : list instr :=
  [IStore WTotal 0; IStore WHits 0; IStore WMisses 0; IStore WServed 0; IStore WFetched 0;
   IStore WEvictions 0; IStore WEvictedBytes 0; IStore WBackend 0; IStore WSwitches 0;
   IStore WOverhead 0; IStore WAttempts 0; IStore WAccepted 0] ++ Histogram_Reset_code.

Definition code `{GoRuntime} (o : op) : list instr :=
  match o with
  | ORequest r hit lat => RecordRequest_code r hit lat
  | OFetch size => RecordFetch_code size
  | OEviction k size => RecordEviction_code k size
  | OSwitch e => RecordSwitch_code e
  | OTuning e => RecordTuning_code e
  | OObserve s => [IState s]
  | OSetPolicy n => [IPolicy n]
  | OReset => Reset_code
  end.

Definition exec_all (is_ : list instr) (c : Collector) : Collector := foldl (flip exec) c is_.

Lemma exec_all_cons i is_ c : exec_all (i :: is_) c = exec_all is_ (exec i c).
Proof. done. Qed.

Lemma exec_all_app is_ js c : exec_all (is_ ++ js) c = exec_all js (exec_all is_ c).
Proof. unfold exec_all. by rewrite foldl_app. Qed.

(** ** Alone, a call does what the sequential method does *)

Definition with_latency (h : Histogram) (c : Collector) : Collector :=
  {| total := total c; hits := hits c; misses := misses c; bytesServed := bytesServed c;
     bytesFetched := bytesFetched c; evictions := evictions c; evictedBytes := evictedBytes c;
     backendReqs := backendReqs c; switches := switches c; switchOverhead := switchOverhead c;
     tuningAttempts := tuningAttempts c; tuningAccepted := tuningAccepted c;
     latency := h; policy := policy c; state := state c |}.

Lemma exec_Record_code d c : exec_all (Record_code d) c = with_latency (Record_ d (latency c)) c.
Proof. unfold Record_code, Record_. by destruct c as [? ? ? ? ? ? ? ? ? ? ? ? [] ? ?], (d <? 0). Qed.

Lemma store_buckets is_ c :
  exec_all ((λ i, IStore (WBucket i) 0) <$> is_) c =
  with_latency {| buckets := foldl (λ bs i, alter (λ _, 0) i bs) (buckets (latency c)) is_;
                  count_ := count_ (latency c); sum := sum (latency c); max_ := max_ (latency c) |} c.
Proof.
  revert c. induction is_ as [|i is_ IH]; intros c; [by destruct c as [? ? ? ? ? ? ? ? ? ? ? ? [] ? ?]|].
  rewrite fmap_cons, exec_all_cons. by rewrite IH.
Qed.

Lemma zero_all (bs : list Z) n i :
  (length bs ≤ i + n)%nat → foldl (λ bs i, alter (λ _, 0) i bs) bs (seq i n) = take i bs ++ ((λ _, 0) <$> drop i bs).
Proof.
  revert bs i. induction n as [|n IH]; intros bs i Hlen; cbn [seq foldl].
  - rewrite take_ge, drop_ge by lia. by rewrite app_nil_r.
  - rewrite IH by (rewrite length_alter; lia). destruct (bs !! i) as [b|] eqn:Hb.
    + rewrite <-(take_drop_middle _ _ _ Hb) at 1 2 4. pose proof (lookup_lt_Some _ _ _ Hb).
      rewrite !alter_app_r_alt by (rewrite length_take; lia).
      rewrite length_take, Nat.min_l, Nat.sub_diag by lia. cbn [alter list_alter].
      rewrite !(cons_middle _ (take i bs)), !app_assoc, take_app_length', drop_app_length' by
        (rewrite length_app, length_take; cbn; lia).
      by rewrite <-!app_assoc, drop_app_length' by (rewrite length_take; lia).
    + apply lookup_ge_None in Hb. rewrite !drop_ge, !take_ge by (rewrite ?length_alter; lia).
      rewrite !app_nil_r. apply list_eq. intros j. destruct (decide (i = j)) as [<-|].
      * rewrite list_lookup_alter_eq. by rewrite lookup_ge_None_2.
      * by rewrite list_lookup_alter_ne.
Qed.

(** A call: what it records and the steps it has still to take. *)
Record call := { call_op : op; todo : list instr }.

(** The calls in the order they started and, as history, the recordings in
    the order they returned. *)
Record system := { coll : Collector; calls : list call; finished : list op }.

Definition init_system : system := {| coll := NewCollector; calls := []; finished := [] |}.

Definition call_step (t : call) (c : Collector) : option (Collector * call) :=
  match todo t with
  | [] => None
  | i :: rest =>
      let (c', i') := instr_step i c in
      Some (c', {| call_op := call_op t; todo := option_list i' ++ rest |})
  end.

(** The call [i] takes its next step. *)
Definition step_at (i : nat) (s : system) : option system :=
  t ← calls s !! i; '(c, t') ← call_step t (coll s);
  Some {| coll := c; calls := <[i := t']> (calls s);
          finished := finished s ++ match todo t' with [] => [call_op t] | _ => [] end |}.

Definition started (s : system) : list op := call_op <$> calls s.

Section concurrent.
Context `{GoRuntime}.

(** With no other call under way, the steps of a method are the method. *)
Lemma exec_code o c : length (buckets (latency c)) = Z.to_nat numBuckets → exec_all (code o) c = run_op o c.
Proof.
  intros Hb. destruct c as [? ? ? ? ? ? ? ? ? ? ? ? h ? ?].
  destruct o as [r hit lat|size|k size|e|e|s|n|]; cbn [code run_op].
  - unfold RecordRequest_code. rewrite (app_comm_cons _ _ (IAdd WTotal 1)), exec_all_app, exec_Record_code.
    destruct hit, h; reflexivity.
  - by destruct h.
  - by destruct h.
  - unfold RecordSwitch_code, RecordSwitch, switch_micros. by destruct (f64_gt (OverheadMs e) f64_zero), h.
  - unfold RecordTuning_code, RecordTuning. by destruct (Accepted e), h.
  - done.
  - done.
  - unfold Reset_code, Histogram_Reset_code. rewrite !exec_all_app, store_buckets, zero_all by (apply Nat.eq_le_incl, Hb).
    by rewrite take_0, drop_0.
Qed.

(** ** The counting steps commute *)

Definition counts (i : instr) : Prop := match i with IAdd _ _ | IRaise _ _ => True | _ => False end.
#[global] Instance counts_dec i : Decision (counts i).
Proof. destruct i; apply _. Defined.

Lemma update_comm w w' f g c :
  (w = w' → ∀ v, f (g v) = g (f v)) → update w f (update w' g c) = update w' g (update w f c).
Proof.
  intros Hfg. unfold update. cbn. f_equal; [..|f_equal];
    try (repeat case_decide; subst; try done; by apply Hfg).
  destruct w as [| | | | | | | | | | | |i| | |], w' as [| | | | | | | | | | | |j| | |]; try done.
  destruct (decide (i = j)) as [->|]; [|by apply list_alter_alter_ne].
  apply list_eq. intros k. destruct (decide (j = k)) as [<-|]; [|by rewrite !list_lookup_alter_ne].
  rewrite !list_lookup_alter_eq. destruct (buckets (latency c) !! j); cbn; [|done]. by rewrite Hfg.
Qed.

Lemma wrap_add_comm w m n v : wrap w (wrap w (v + n) + m) = wrap w (wrap w (v + m) + n).
Proof. destruct w; cbn; rewrite ?u64_add_l, ?i64_add_l; f_equal; lia. Qed.

(** No counting step but the loop of [Record] touches the maximum. *)
Definition no_max (i : instr) : Prop := match i with IAdd w _ => w ≠ WMax | _ => True end.

Lemma exec_comm i j c :
  counts i → counts j → no_max i → no_max j → exec i (exec j c) = exec j (exec i c).
Proof.
  destruct i as [w n|? ?|m ?|?|?]; try done; destruct j as [w' n'|? ?|m' ?|?|?]; try done;
    cbn [exec no_max]; intros _ _ Hi Hj; apply update_comm; intros Hw; subst; try done.
  - intros v. apply wrap_add_comm.
  - intros v. destruct (Z.leb_spec m v), (Z.leb_spec m' v); destruct (Z.leb_spec m m'), (Z.leb_spec m' m);
      repeat case_match; lia.
Qed.

Definition counting_step (i : instr) : Prop := counts i ∧ no_max i.

Lemma exec_all_perm is_ js c : Forall counting_step is_ → is_ ≡ₚ js → exec_all is_ c = exec_all js c.
Proof.
  intros His Hp. revert c. induction Hp as [|i l l' _ IH|i j l|l l2 l3 H12 IH1 _ IH2]; intros c.
  - done.
  - apply Forall_cons in His as [_ Hl]. rewrite !exec_all_cons. by apply IH.
  - apply Forall_cons in His as [[Hi Hi'] [[Hj Hj'] _]%Forall_cons]. rewrite !exec_all_cons. by rewrite exec_comm.
  - rewrite IH1 by done. apply IH2. by rewrite <-H12.
Qed.

Lemma exec_counters i c : counts i → counters (exec i c) = exec i (counters c).
Proof. by destruct i. Qed.

Lemma exec_all_counters is_ c : Forall counts is_ → counters (exec_all is_ c) = exec_all is_ (counters c).
Proof.
  intros His. revert c. induction His as [|i is_ Hi _ IH]; intros c; [done|].
  rewrite !exec_all_cons. by rewrite IH, exec_counters.
Qed.

Lemma exec_lock_counters i c :
  match i with IPolicy _ | IState _ => True | _ => False end → counters (exec i c) = counters c.
Proof. by destruct i. Qed.

(** ** Calls under way *)

(** The section under the mutex a recording ends with. *)
Definition locked (o : op) : list instr :=
  match o with
  | OSwitch e => [IPolicy (To e)]
  | OSetPolicy n => [IPolicy n]
  | OObserve s => [IState s]
  | _ => []
  end.

Definition counted (o : op) : list instr := filter counts (code o).

(** Every recording but [Reset] counts first and ends with its section. *)
Lemma code_split o : o ≠ OReset → code o = counted o ++ locked o ∧ Forall counting_step (counted o) ∧ code o ≠ [].
Proof.
  intros Ho. unfold counted, counting_step.
  assert (Hrec : ∀ d, Forall (λ i, counts i ∧ no_max i) (Record_code d) ∧ filter counts (Record_code d) = Record_code d).
  { intros d. unfold Record_code. destruct (d <? 0); split; try done. repeat constructor; done. }
  destruct o as [r hit lat|size|k size|e|e|s|n|]; try done; cbn [code locked].
  - unfold RecordRequest_code. destruct (Hrec lat) as [Hf He].
    rewrite filter_cons, filter_app, He, app_nil_r. destruct hit; cbn; split_and!; try done; by repeat constructor.
  - cbn. split_and!; try done. by repeat constructor.
  - cbn. split_and!; try done. by repeat constructor.
  - unfold RecordSwitch_code. destruct (f64_gt (OverheadMs e) f64_zero); cbn; split_and!; try done; by repeat constructor.
  - unfold RecordTuning_code. destruct (Accepted e); cbn; split_and!; try done; by repeat constructor.
Qed.

Definition start (o : op) (s : system) : system :=
  {| coll := coll s; calls := calls s ++ [{| call_op := o; todo := code o |}]; finished := finished s |}.

(** What can happen next: a call starts, or one takes a step. *)
Inductive event : system → system → Prop :=
| ev_start o s : event s (start o s)
| ev_step i s s' : step_at i s = Some s' → event s s'.

Definition reachable : system → Prop := rtc event init_system.

(** No [Reset] has started, and fewer than 2^63 calls have. *)
Definition calm (s : system) : Prop := OReset ∉ started s ∧ Z.of_nat (length (calls s)) < 2 ^ 63.

Definition quiescent (s : system) : Prop := ∀ t, t ∈ calls s → todo t = [].

(** ** The invariant *)

(** The loop of [Record] swaps only a larger value in. *)
Definition ready (i : instr) : Prop := match i with IRaise ns (Some cur) => cur < ns | _ => True end.

Definition call_ok (t : call) : Prop :=
  todo t ≠ [] → ∃ pre, todo t = pre ++ locked (call_op t) ∧ Forall counting_step pre ∧ Forall ready pre.

Definition pending (t : call) : list instr := filter counts (todo t).

(** What a recording leaves of the fields under the mutex. *)
Definition policy_after (o : op) (n : PolicyName) : PolicyName :=
  match o with OSwitch e => To e | OSetPolicy n => n | _ => n end.
Definition state_after (o : op) (s : CacheState) : CacheState := match o with OObserve s => s | _ => s end.

Lemma filter_counts_pre pre l : Forall counting_step pre → filter counts (pre ++ l) = pre ++ filter counts l.
Proof.
  intros Hpre. rewrite filter_app, filter_all; [done|]. intros i Hi. rewrite Forall_forall in Hpre. by apply Hpre.
Qed.

Lemma filter_counts_locked o : filter counts (locked o) = [].
Proof. by destruct o. Qed.

(** One step of a recording. *)
Record step_spec (t t' : call) (c c' : Collector) : Prop := {
  ss_ok : call_ok t';
  ss_op : call_op t' = call_op t;
  ss_live : todo t ≠ [];
  ss_counting : Forall counts (pending t) ∧ Forall counts (pending t');
  ss_counters : counters (exec_all (pending t') c') = counters (exec_all (pending t) c);
  ss_end : todo t' = [] → policy c' = policy_after (call_op t) (policy c) ∧ state c' = state_after (call_op t) (state c);
  ss_go : todo t' ≠ [] → policy c' = policy c ∧ state c' = state c;
}.

Lemma pending_counts t : Forall counts (pending t).
Proof. unfold pending. apply Forall_forall. intros i Hi. by apply list_elem_of_filter in Hi as [? _]. Qed.

Lemma raise_done m f c : f (load WMax c) = m → update WMax f c = update WMax (λ _, m) c.
Proof. intros Hf. unfold update. cbn in *. by rewrite Hf. Qed.

Lemma raise_same c : update WMax (λ _, load WMax c) c = c.
Proof. by destruct c as [? ? ? ? ? ? ? ? ? ? ? ? [] ? ?]. Qed.

Lemma instr_step_spec i c c' i' :
  counting_step i → ready i → instr_step i c = (c', i') →
  Forall counting_step (option_list i') ∧ Forall ready (option_list i') ∧
  policy c' = policy c ∧ state c' = state c ∧ exec_all (option_list i') c' = exec i c.
Proof.
  intros [Hi Hm] Hr Hst. destruct i as [w n|? ?|ns [cur|]|?|?]; try done; cbn [instr_step] in Hst.
  - simplify_eq. by split_and!.
  - destruct (Z.eqb_spec (load WMax c) cur) as [<-|]; simplify_eq; (split_and!; [by repeat constructor..|]); cbn [option_list exec_all foldl flip exec]; try done.
    symmetry. apply raise_done. cbn in Hr |- *. destruct (Z.leb_spec ns (max_ (latency c))); [lia|done].
  - cbn in Hst. simplify_eq. destruct (Z.leb_spec ns (max_ (latency c'))) as [Hle|Hgt];
      (split_and!; [by repeat constructor..|]); try done. cbn [option_list exec_all foldl exec].
    rewrite (raise_done (load WMax c')); [by rewrite raise_same|]. cbn. destruct (Z.leb_spec ns (max_ (latency c'))); [done|lia].
Qed.

Lemma call_step_spec t t' c c' : call_ok t → call_step t c = Some (c', t') → step_spec t t' c c'.
Proof.
  intros Hok Hst. destruct t as [o [|i rest]]; [done|]. unfold call_step in Hst. cbn [todo call_op] in Hst.
  destruct (instr_step i c) as [c1 i'] eqn:Hi. simplify_eq. destruct Hok as (pre & Htodo & Hc & Hr); [done|].
  cbn [todo call_op] in Htodo. destruct pre as [|j pre]; cbn [app] in Htodo.
  - assert (Hl : rest = [] ∧ i' = None ∧ c' = exec i c ∧ match i with IPolicy _ | IState _ => True | _ => False end)
      by (destruct o; try done; cbn in Htodo; simplify_eq/=; by simplify_eq).
    destruct Hl as (-> & -> & -> & Hlk). split; cbn [todo call_op option_list app]; try done.
    + by intros [].
    + split; apply pending_counts.
    + unfold pending. cbn [todo]. rewrite Htodo, filter_counts_locked. cbn. by apply exec_lock_counters.
    + intros _. destruct o; try done; cbn in Htodo; by simplify_eq.
  - cbn in Htodo. simplify_eq. apply Forall_cons in Hc as [Hcj Hc]. apply Forall_cons in Hr as [Hrj Hr].
    destruct (instr_step_spec _ _ _ _ Hcj Hrj Hi) as (Hc' & Hr' & Hp & Hs & He).
    split; cbn [todo call_op]; try done.
    + intros _. exists (option_list i' ++ pre). rewrite app_assoc. cbn [todo call_op].
      split_and!; [done|by apply Forall_app..].
    + split; apply pending_counts.
    + unfold pending. cbn [todo]. rewrite app_assoc, filter_counts_pre by (by apply Forall_app).
      rewrite app_comm_cons, filter_counts_pre by (by constructor). rewrite filter_counts_locked, !app_nil_r.
      by rewrite exec_all_app, exec_all_cons, He.
    + intros Hend. apply app_nil in Hend as [_ [_ Hend]%app_nil]. split; [|by destruct o]. by destruct o.
Qed.

(** The recording of a call that has not returned. *)
Definition live (t : call) : list op := match todo t with [] => [] | _ => [call_op t] end.

Record coll_inv (s : system) : Prop := {
  cv_calls : Forall call_ok (calls s);
  cv_counters :
    counters (exec_all (calls s ≫= pending) (coll s)) = counters (exec_all (started s ≫= counted) NewCollector);
  cv_policy : policy (coll s) = last_policy (finished s);
  cv_state : state (coll s) = last_state (finished s);
  cv_finished : finished s ++ (calls s ≫= live) ≡ₚ started s;
}.

Lemma coll_inv_init : coll_inv init_system.
Proof. by split. Qed.

Lemma coll_inv_start o s : o ≠ OReset → coll_inv s → coll_inv (start o s).
Proof.
  intros Ho [Hcalls Hcnt Hp Hs Hfin]. destruct (code_split o Ho) as (Hcode & Hc & Hne).
  split; cbn [start calls coll finished]; try done.
  - apply Forall_app_2; [done|]. constructor; [|done]. intros _. exists (counted o). split_and!; [done..|].
    cbn [todo call_op]. unfold counted. apply Forall_forall. intros i [_ Hi]%list_elem_of_filter.
    clear Hcode Hc Hne. destruct i as [| |ns [cur|]| |]; try done. exfalso.
    destruct o as [r hit lat|size|k size|e|e|st|n|]; try done; cbn in Hi;
      unfold RecordRequest_code, RecordFetch_code, RecordEviction_code, RecordSwitch_code, RecordTuning_code,
        Record_code in Hi; repeat case_match; set_solver.
  - unfold started. cbn [start calls]. rewrite fmap_app, !bind_app. cbn. rewrite !app_nil_r, !exec_all_app.
    change (pending {| call_op := o; todo := code o |}) with (counted o).
    assert (Forall counts (counted o)) as Hco by (eapply Forall_impl; [exact Hc|]; by intros ? []).
    rewrite !(exec_all_counters (counted o)) by done. by f_equal.
  - unfold started. cbn [start calls]. rewrite fmap_app, bind_app, app_assoc. apply Permutation_app; [exact Hfin|].
    cbn. unfold live. cbn [todo call_op]. by destruct (code o).
Qed.

Lemma pending_step t : call_ok t → Forall counting_step (pending t).
Proof.
  unfold pending. intros Hok. destruct (decide (todo t = [])) as [->|Hne]; [done|].
  destruct (Hok Hne) as (pre & -> & Hc & _). by rewrite filter_counts_pre, filter_counts_locked, app_nil_r.
Qed.

Lemma Forall_bind_pending ts : Forall call_ok ts → Forall counting_step (ts ≫= pending).
Proof.
  induction 1 as [|t ts Ht _ IH]; [done|]. cbn. apply Forall_app. split; [by apply pending_step|done].
Qed.

Lemma last_policy_snoc ops o : last_policy (ops ++ [o]) = policy_after o (last_policy ops).
Proof. unfold last_policy. by rewrite foldl_app. Qed.
Lemma last_state_snoc ops o : last_state (ops ++ [o]) = state_after o (last_state ops).
Proof. unfold last_state. by rewrite foldl_app. Qed.

Lemma step_at_inv i s s' :
  step_at i s = Some s' → ∃ t t' c, calls s !! i = Some t ∧ call_step t (coll s) = Some (c, t') ∧
    s' = {| coll := c; calls := <[i := t']> (calls s);
            finished := finished s ++ match todo t' with [] => [call_op t] | _ => [] end |}.
Proof.
  unfold step_at. intros Hst. apply bind_Some in Hst as (t & Ht & Hst).
  apply bind_Some in Hst as ([c t'] & Hc & Hst). simplify_eq. eauto 10.
Qed.

Lemma call_step_op t t' c c' : call_step t c = Some (c', t') → call_op t' = call_op t.
Proof. unfold call_step. destruct (todo t) as [|i rest]; [done|]. destruct (instr_step i c). by intros [= _ <-]. Qed.

(** A step starts no call. *)
Lemma step_at_started i s s' : step_at i s = Some s' → started s' = started s.
Proof.
  intros (t & t' & c & Hi & Hst%call_step_op & ->)%step_at_inv. unfold started. cbn [calls].
  rewrite list_fmap_insert, Hst. apply list_insert_id. by rewrite list_lookup_fmap, Hi.
Qed.

Lemma coll_inv_step i s s' : coll_inv s → step_at i s = Some s' → coll_inv s'.
Proof.
  intros [Hcalls Hcnt Hp Hs Hfin] Hat. pose proof (step_at_started _ _ _ Hat) as Hsame.
  apply step_at_inv in Hat as (t & t' & c & Hi & Hst & ->).
  assert (Ht : call_ok t) by (rewrite Forall_forall in Hcalls; eapply Hcalls, list_elem_of_lookup_2, Hi).
  destruct (call_step_spec _ _ _ _ Ht Hst) as [Hok Hop Hlive [Hc Hc'] Hcs Hend Hgo].
  assert (Hcalls' : Forall call_ok (<[i:=t']> (calls s))) by (by apply Forall_insert).
  split; rewrite ?Hsame; cbn [calls coll finished]; [done|..].
  - rewrite <-Hcnt. destruct (bind_insert_perm pending _ i t t' Hi) as (R & HR & HR').
    rewrite (exec_all_perm _ _ _ (Forall_bind_pending _ Hcalls') HR'), (exec_all_perm _ _ _ (Forall_bind_pending _ Hcalls) HR).
    assert (Forall counts R) as Hcr.
    { pose proof (Forall_bind_pending _ Hcalls) as Hf. rewrite HR in Hf. apply Forall_app in Hf as [_ Hf].
      eapply Forall_impl; [exact Hf|]. by intros ? []. }
    rewrite !exec_all_app, !(exec_all_counters R) by done. by rewrite Hcs.
  - destruct (todo t') eqn:Et; [|by rewrite app_nil_r, <-Hp; apply Hgo].
    rewrite last_policy_snoc, <-Hp. by apply Hend.
  - destruct (todo t') eqn:Et; [|by rewrite app_nil_r, <-Hs; apply Hgo].
    rewrite last_state_snoc, <-Hs. by apply Hend.
  - rewrite <-Hfin. destruct (bind_insert_perm live _ i t t' Hi) as (R & HR & HR'). rewrite HR, HR', <-app_assoc.
    apply Permutation_app_head. rewrite app_assoc. apply Permutation_app_tail. unfold live. rewrite Hop.
    destruct (todo t); [done|]. by destruct (todo t').
Qed.

Lemma event_calm s s' : event s s' → calm s' → calm s.
Proof.
  unfold calm. destruct 1 as [o s|i s s' Hst].
  - unfold started. cbn [start calls]. rewrite fmap_app, length_app, not_elem_of_app. cbn [length].
    intros [[? _] ?]. split; [done|lia].
  - rewrite (step_at_started _ _ _ Hst). apply step_at_inv in Hst as (t & t' & c & _ & _ & ->). cbn [calls].
    by rewrite length_insert.
Qed.

Lemma events_calm s s' : rtc event s s' → calm s' → calm s.
Proof. induction 1 as [|s s1 s' Hev _ IH]; [done|]. intros Hc. eapply event_calm; [done|]. by apply IH. Qed.

Lemma calm_start o s : calm (start o s) → o ≠ OReset.
Proof. intros [Hr _] ->. apply Hr. unfold started. cbn. rewrite fmap_app. set_solver. Qed.

(** Induction on the events of calm systems. *)
Lemma events_ind (P : system → Prop) s s' :
  (∀ o s, P s → calm (start o s) → o ≠ OReset → P (start o s)) →
  (∀ i s s', P s → calm s → step_at i s = Some s' → P s') →
  rtc event s s' → calm s' → P s → P s'.
Proof.
  intros Hstart Hstep Hev. induction Hev as [|s s1 s' Hev Hevs IH]; [done|]. intros Hc Hp. apply IH; [done|].
  pose proof (events_calm _ _ Hevs Hc) as Hc1. destruct Hev as [o s|i s s1 Hst].
  - apply Hstart; [done..|]. by eapply calm_start.
  - eapply Hstep; [done| |done]. eapply event_calm; [|done]. by eapply ev_step.
Qed.

Lemma coll_reachable_inv s : reachable s → calm s → coll_inv s.
Proof.
  intros Hr Hc. eapply (events_ind coll_inv); [|by eauto using coll_inv_step|done|done|apply coll_inv_init].
  intros. by apply coll_inv_start.
Qed.

(** ** When every call has returned *)

Lemma counters_run_op o c :
  o ≠ OReset → counters_ok c → counters (run_op o c) = exec_all (counted o) (counters c).
Proof.
  intros Ho [_ _ [Hb _ _ _]]. destruct (code_split o Ho) as (Hcode & Hc & _).
  rewrite <-exec_code, Hcode, exec_all_app by done.
  rewrite <-exec_all_counters by (eapply Forall_impl; [exact Hc|]; by intros ? []). by destruct o.
Qed.

Lemma counters_run_ops ops c :
  OReset ∉ ops → counters_ok c → counters (run_ops ops c) = exec_all (ops ≫= counted) (counters c).
Proof.
  revert c. induction ops as [|o ops IH]; intros c Hr Hc; [done|]. apply not_elem_of_cons in Hr as [Ho Hr].
  change (run_ops (o :: ops) c) with (run_ops ops (run_op o c)).
  rewrite IH, bind_cons by eauto using run_op_counters_ok. by rewrite exec_all_app, counters_run_op by done.
Qed.

Lemma counted_steps ops : OReset ∉ ops → Forall counting_step (ops ≫= counted).
Proof.
  induction ops as [|o ops IH]; [done|]. intros [Ho Hr]%not_elem_of_cons. cbn. apply Forall_app.
  split; [|by apply IH]. apply (code_split o). done.
Qed.

Lemma counters_ok_counters c : counters_ok (counters c) ↔ counters_ok c.
Proof. split; intros [? ? ?]; by split. Qed.

(** The counters do not depend on the order of the recordings. *)
Lemma counters_run_ops_perm ops ops' c c' :
  OReset ∉ ops → counters_ok c' → ops ≡ₚ ops' → counters c = counters c' →
  counters (run_ops ops c) = counters (run_ops ops' c').
Proof.
  intros Hr Hok' Hp Hc. assert (Hok : counters_ok c) by (by rewrite <-counters_ok_counters, Hc, counters_ok_counters).
  rewrite !counters_run_ops, Hc by (done || by rewrite <-Hp).
  apply exec_all_perm; [by apply counted_steps|]. by rewrite Hp.
Qed.

Lemma collector_ext c c' : counters c = counters c' → policy c = policy c' → state c = state c' → c = c'.
Proof. destruct c, c'; cbn. intros [=] -> ->. by subst. Qed.

Lemma run_ops_policy_state ops : let c := run_ops ops NewCollector in policy c = last_policy ops ∧ state c = last_state ops.
Proof. cbv zeta. by rewrite run_ops_collector_of. Qed.

Lemma bind_quiescent {A} (f : call → list A) s :
  quiescent s → (∀ t, todo t = [] → f t = []) → calls s ≫= f = [].
Proof.
  unfold quiescent. intros Hq Hf. induction (calls s) as [|t ts IH]; [done|]. cbn.
  rewrite Hf, IH by set_solver. done.
Qed.

Lemma quiescent_collector s :
  coll_inv s → calm s → quiescent s → coll s = run_ops (finished s) NewCollector ∧ finished s ≡ₚ started s.
Proof.
  intros [_ Hcnt Hp Hs Hfin] [Hr _] Hq. rewrite (bind_quiescent live), app_nil_r in Hfin by (done || by intros [? ?] [= ->]).
  rewrite (bind_quiescent pending) in Hcnt by (done || by intros [? ?] [= ->]). split; [|done].
  destruct (run_ops_policy_state (finished s)) as [Hp' Hs']. apply collector_ext; [|congruence..].
  assert (Hr' : OReset ∉ finished s) by (by rewrite Hfin).
  rewrite counters_run_ops by (done || apply counters_ok_New). cbn in Hcnt. rewrite Hcnt.
  rewrite exec_all_counters by (eapply Forall_impl; [by apply counted_steps|]; by intros ? []).
  apply exec_all_perm; [by apply counted_steps|]. by rewrite Hfin.
Qed.

(** ** Every run of steps ends *)

Definition step (s s' : system) : Prop := ∃ i, step_at i s = Some s'.

(** How often the next steps of a call can only repeat themselves. *)
Definition stale (c : Collector) (t : call) : nat :=
  match todo t with
  | IRaise _ None :: _ => 1
  | IRaise _ (Some cur) :: _ => if load WMax c =? cur then 0 else 2
  | _ => 0
  end.

Definition call_left (t : call) : nat := length (todo t).
Definition steps_left (s : system) : nat := sum_list_with call_left (calls s).

Lemma call_stale_le c t : (stale c t ≤ 2)%nat.
Proof. unfold stale. repeat case_match; lia. Qed.

Lemma call_step_progress t c c' t' :
  call_step t c = Some (c', t') →
  (call_left t' < call_left t)%nat ∨ call_left t' = call_left t ∧ c' = c ∧ stale c t = S (stale c t').
Proof.
  unfold call_step, call_left. destruct t as [o [|i rest]]; [done|]. cbn [todo].
  destruct (instr_step i c) as [c1 i'] eqn:Hi. intros [= <- <-]. cbn [todo].
  destruct i as [| |ns [cur|]| |]; simplify_eq/=; try (left; lia).
  - destruct (max_ (latency c) =? cur) eqn:E; simplify_eq/=; [left; lia|right]. unfold stale. cbn. by rewrite E.
  - destruct (ns <=? max_ (latency c1)); simplify_eq/=; [left; lia|right]. unfold stale. cbn. by rewrite Z.eqb_refl.
Qed.

Definition view (s : system) : Collector * list call := (coll s, calls s).

Lemma coll_step_interleaved s s' : step s s' → interleaved call_step (view s) (view s').
Proof. intros [i (t & t' & c & Hi & Hst & ->)%step_at_inv]. by eapply (interleaved_step call_step (coll _)). Qed.

(** What the steps of the calls under way use up. *)
Definition coll_work (s : system) : nat := work_left call_left stale (view s).

Lemma coll_step_work s s' : step s s' → (coll_work s' < coll_work s)%nat.
Proof.
  intros Hst%coll_step_interleaved.
  by apply (interleaved_work call_step call_left stale call_stale_le call_step_progress) in Hst as [? _].
Qed.

Lemma coll_steps_bound k s s' :
  nsteps step k s s' → (k ≤ steps_left s * (2 * length (calls s) + 1) + 2 * length (calls s))%nat.
Proof.
  apply (interleaved_bound call_step call_left stale call_stale_le call_step_progress _ view).
  intros ??. apply coll_step_interleaved.
Qed.

Lemma coll_not_quiescent_step s : ¬ quiescent s → ∃ s', step s s'.
Proof.
  intros Hq. destruct (decide (Exists (λ t, todo t ≠ []) (calls s))) as [He|Hne].
  - apply Exists_exists in He as (t & [i Hi]%list_elem_of_lookup & Ht).
    destruct (call_step t (coll s)) as [[c t']|] eqn:Hst.
    + eexists. exists i. unfold step_at. rewrite Hi. cbn. by rewrite Hst.
    + unfold call_step in Hst. destruct (todo t); [done|]. by destruct (instr_step i0 (coll s)).
  - destruct Hq. intros t Ht. apply not_Exists_Forall in Hne; [|apply _]. rewrite Forall_forall in Hne.
    specialize (Hne t Ht). cbn in Hne. destruct (todo t); [done|]. by destruct Hne.
Qed.

(** C18: concurrent recordings are linearizable.  Let any calls of the
    collector's recording methods (fewer than 2^63, none of them [Reset]) run
    at once, their atomic steps interleaved in any way.  When all have returned
    the collector is the one that performing them one after the other in the
    order in which they returned gives: every counter, every bucket, the
    policy's name and the cache state.  While one has not returned some step is
    possible, and every run of steps ends. *)
Theorem collector_linearizable s :
  reachable s → calm s →
  (quiescent s → coll s = run_ops (finished s) NewCollector ∧ finished s ≡ₚ started s) ∧
  (¬ quiescent s → ∃ s', step s s') ∧
  (∀ k s', nsteps step k s s' →
    (k ≤ steps_left s * (2 * length (calls s) + 1) + 2 * length (calls s))%nat).
Proof.
  intros Hr Hc. split_and!.
  - intros Hq. apply quiescent_collector; [by apply coll_reachable_inv|done..].
  - apply coll_not_quiescent_step.
  - intros k s'. apply coll_steps_bound.
Qed.

(** An executable schedule. *)
Fixpoint run_schedule (is_ : list nat) (s : system) : option system :=
  match is_ with [] => Some s | i :: is_ => step_at i s ≫= run_schedule is_ end.

Lemma run_schedule_events is_ s s' : run_schedule is_ s = Some s' → rtc event s s'.
Proof.
  revert s. induction is_ as [|i is_ IH]; intros s Hrun; simplify_eq/=; [done|].
  apply bind_Some in Hrun as (s1 & Hs & Hrun). eapply rtc_l; [by eapply ev_step|]. by apply IH.
Qed.

Definition start_all (os : list op) (s : system) : system := foldl (flip start) s os.

Lemma start_all_events os s : rtc event s (start_all os s).
Proof.
  revert s. induction os as [|o os IH]; intros s; [done|]. eapply rtc_l; [apply (ev_start o)|]. apply (IH (start o s)).
Qed.
End concurrent.

#[global] Instance quiescent_dec s : Decision (quiescent s).
Proof.
  refine (cast_if (decide (Forall (λ t, todo t = []) (calls s)))).
  - intros t. revert t. by apply Forall_forall.
  - intros Hq. destruct n. by apply Forall_forall.
Defined.

Definition is_reset (o : op) : bool := match o with OReset => true | _ => false end.

#[global] Instance calm_dec s : Decision (calm s).
Proof.
  destruct (decide (Forall (λ o, is_reset o = false) (started s))) as [Ha|Hn];
    [destruct (decide (Z.of_nat (length (calls s)) < 2 ^ 63)) as [Hl|Hl]|].
  - left. split; [|done]. rewrite Forall_forall in Ha. intros Hin. by specialize (Ha _ Hin).
  - right. by intros [_ ?].
  - right. intros [Hr Hl]. destruct Hn. apply Forall_forall. by intros [] Hin.
Defined.

(** A hit of 300 ns, a miss of 100 ns, and a policy set, all at once.  The miss
    loads the maximum 0; the hit swaps its 300 in; the swap of the miss fails.
    The miss returns last. *)
Definition three_calls : list op :=
  [ORequest sample_request true 300; ORequest sample_request false 100; OSetPolicy PolicyLRU].
Definition three_started : system := start_all three_calls init_system.
Definition three_schedule : list nat :=
  [0; 1; 1; 1; 1; 1; 1; 1; 1; 0; 0; 0; 0; 0; 2; 0; 0; 1; 1]%nat.


Lemma three_started_reachable : reachable three_started.
Proof. apply start_all_events. Qed.

Lemma collector_linearizable_witness :
  ∃ s, run_schedule three_schedule three_started = Some s ∧ quiescent s ∧
    coll s = run_ops [OSetPolicy PolicyLRU; ORequest sample_request true 300; ORequest sample_request false 100] NewCollector ∧
    total (coll s) = 2 ∧ policy (coll s) = PolicyLRU ∧ max_ (latency (coll s)) = 300.
Proof.
  destruct (run_schedule three_schedule three_started) as [s|] eqn:Hrun; [|vm_compute in Hrun; discriminate].
  assert (Hr : reachable s) by (unfold reachable; etrans; [apply three_started_reachable|by eapply run_schedule_events]).
  assert (Some (true, true, [OSetPolicy PolicyLRU; ORequest sample_request true 300; ORequest sample_request false 100]) =
    (λ s, (bool_decide (quiescent s), bool_decide (calm s), finished s)) <$> Some s) as Hf
    by (rewrite <-Hrun; vm_compute; reflexivity).
  cbn [fmap option_fmap option_map] in Hf. injection Hf as Hq Hc Hfin.
  assert (quiescent s) as Hq' by (apply (bool_decide_unpack _); rewrite <-Hq; exact I).
  assert (calm s) as Hc' by (apply (bool_decide_unpack _); rewrite <-Hc; exact I).
  exists s. destruct (proj1 (collector_linearizable _ Hr Hc') Hq') as [Hcoll _]. rewrite <-Hfin in Hcoll.
  split_and!; [reflexivity|exact Hq'|exact Hcoll|rewrite Hcoll; vm_compute; reflexivity..].
Defined.

(** A [Reset] in the middle of a recording is not: the hit has counted as a
    request before it and as a hit after it, and the collector has more hits
    than requests from then on. *)
Definition reset_schedule : list nat := [0]%nat ++ replicate (length Reset_code) 1%nat ++ replicate 7 0%nat.

Lemma reset_race :
  let s0 := start_all [ORequest sample_request true 300; OReset] init_system in
  ∃ s, run_schedule reset_schedule s0 = Some s ∧ quiescent s ∧
    Hits (Snapshot (coll s)) = 1 ∧ TotalRequests (Snapshot (coll s)) = 0.
Proof.
  cbv zeta. eexists. split; [vm_compute; reflexivity|].
  split; [apply (bool_decide_unpack _); vm_compute; exact I|]. split; vm_compute; reflexivity.
Qed.
