(* ===== verification/SnapshotConc.v ===== *)
(** * metrics/collector.go: a snapshot read while calls are under way

    [Snapshot] loads the counters one after the other, so other calls come
    between its loads and it need not be the state at any moment.  Here it is
    the program of its loads, interleaved with the calls of [CollectorConc];
    the theorem says what can still be relied on. *)
From S2P Require Import Prelude GoFloat FloatFacts Types Histogram Events Collector Snapshot CollectorConc.

(** A reader: loads of words, the section that reads the fields under the
    mutex, and a result. *)
Inductive reader (A : Type) : Type :=
| Done (a : A)
| Load (w : word) (k : Z → reader A)
| ReadLocked (k : PolicyName → CacheState → reader A).
Arguments Done {A} a.
Arguments Load {A} w k.
Arguments ReadLocked {A} k.

#[global] Instance reader_ret : MRet reader := @Done.
#[global] Instance reader_bind : MBind reader := λ A B f, fix go p :=
  match p with
  | Done a => f a
  | Load w k => Load w (λ v, go (k v))
  | ReadLocked k => ReadLocked (λ n s, go (k n s))
  end.

Definition loaded (w : word) : reader Z := Load w Done.
Definition locked_fields : reader (PolicyName * CacheState) := ReadLocked (λ n s, Done (n, s)).

(** A reader alone. *)
Fixpoint read {A} (p : reader A) (c : Collector) : A :=
  match p with
  | Done a => a
  | Load w k => read (k (load w c)) c
  | ReadLocked k => read (k (policy c) (state c)) c
  end.

(** ** The readers of the source *)

Definition MeanMillis_reader : reader float64 :=
  n ← loaded WCount;
  if n =? 0 then mret f64_zero
  else sum ← loaded WSum; mret (f64_div (f64_div (f64_of_Z sum) (f64_of_Z n)) million).

Definition MaxMillis_reader : reader float64 := m ← loaded WMax; mret (f64_div (f64_of_Z m) million).

(** The loop over the [n] buckets from [i]. *)
Fixpoint scan_reader (n i : nat) (seen target : Z) : reader (option Z) :=
  match n with
  | O => mret None
  | S n =>
      c ← loaded (WBucket i);
      if c =? 0 then scan_reader n (S i) seen target
      else
        let seen := u64 (seen + c) in
        if seen >? target then mret (Some (Z.of_nat i)) else scan_reader n (S i) seen target
  end.

Section readers.
Context `{GoRuntime}.

Definition QuantileMillis_reader (q : float64) : reader float64 :=
  total ← loaded WCount;
  if total =? 0 then mret f64_zero
  else
    r ← scan_reader (Z.to_nat numBuckets) 0 0 (quantile_rank q total);
    match r with
    | Some i => mret (f64_div (bucketMidpoint i) million)
    | None => MaxMillis_reader
    end.

Definition Snapshot_reader : reader Stats :=
  hits ← loaded WHits;
  misses ← loaded WMisses;
  served ← loaded WServed;
  fetched ← loaded WFetched;
  total ← loaded WTotal;
  mean ← MeanMillis_reader;
  p50 ← QuantileMillis_reader (f64_of_ratio 50 100);
  p95 ← QuantileMillis_reader (f64_of_ratio 95 100);
  p99 ← QuantileMillis_reader (f64_of_ratio 99 100);
  switches ← loaded WSwitches;
  overhead ← loaded WOverhead;
  evictions ← loaded WEvictions;
  backend ← loaded WBackend;
  let n := u64 (hits + misses) in
  let b := i64 (served + fetched) in
  '(policy, state) ← locked_fields;
  mret {| TotalRequests := total;
          Hits := hits;
          Misses := misses;
          HitRate := if n >? 0 then f64_div (f64_of_Z hits) (f64_of_Z n) else f64_zero;
          ByteHitRate := if b >? 0 then f64_div (f64_of_Z served) (f64_of_Z b) else f64_zero;
          BytesServed := served;
          BytesFetched := fetched;
          LatencyMean := mean;
          LatencyP50 := p50;
          LatencyP95 := p95;
          LatencyP99 := p99;
          SCapacity := Capacity state;
          SBytesUsed := BytesUsed state;
          SMetadataBytes := MetadataBytes state;
          SObjectCount := ObjectCount state;
          CurrentPolicy := policy;
          PolicySwitches := switches;
          SwitchOverheadTotalMs := f64_div (f64_of_Z overhead) (f64_of_Z 1000);
          DetectionDelayMean := f64_zero;
          DetectionAccuracy := f64_zero;
          Evictions := evictions;
          BackendRequests := backend |}.

(** ** Alone, the readers are the sequential functions *)

Lemma read_bind {A B} (p : reader A) (k : A → reader B) c : read (p ≫= k) c = read (k (read p c)) c.
Proof. induction p as [a|w k' IH|k' IH]; cbn; [done|apply IH|apply IH]. Qed.

Lemma read_scan n i seen target c :
  (i + n = length (buckets (latency c)))%nat →
  read (scan_reader n i seen target) c = scan (Z.of_nat i) (drop i (buckets (latency c))) seen target.
Proof.
  revert i seen. induction n as [|n IH]; intros i seen Hn.
  - by rewrite drop_ge by lia.
  - destruct (lookup_lt_is_Some_2 (buckets (latency c)) i) as [b Hb]; [lia|].
    rewrite (drop_S _ _ _ Hb). cbn. rewrite Hb. cbn. replace (Z.of_nat i + 1) with (Z.of_nat (S i)) by lia.
    destruct (b =? 0); [apply IH; lia|]. destruct (u64 (seen + b) >? target); [done|apply IH; lia].
Qed.

Lemma read_QuantileMillis q c :
  length (buckets (latency c)) = Z.to_nat numBuckets →
  read (QuantileMillis_reader q) c = QuantileMillis q (latency c).
Proof.
  intros Hb. unfold QuantileMillis_reader, QuantileMillis. cbn -[scan_reader numBuckets].
  destruct (count_ (latency c) =? 0); [done|]. rewrite read_bind, read_scan by lia. rewrite drop_0. cbn [Z.of_nat].
  by destruct (scan _ _ _ _).
Qed.

Lemma read_Snapshot c :
  length (buckets (latency c)) = Z.to_nat numBuckets → read Snapshot_reader c = Snapshot c.
Proof.
  intros Hb. unfold Snapshot_reader.
  repeat (rewrite read_bind, ?read_QuantileMillis by done; cbn [read loaded]; cbn beta).
  unfold MeanMillis_reader, Snapshot, MeanMillis, P50, P95, P99. cbn. by destruct (count_ (latency c) =? 0).
Qed.

(** ** A reader among the calls *)

(** [observes s p s' a]: the reader [p], begun in [s], ends in [s'] with [a];
    between its loads any events happen. *)
Inductive observes {A} : system → reader A → system → A → Prop :=
| ob_done s a : observes s (Done a) s a
| ob_load s s1 s' w k a :
    rtc event s s1 → observes s1 (k (load w (coll s1))) s' a → observes s (Load w k) s' a
| ob_locked s s1 s' k a :
    rtc event s s1 → observes s1 (k (policy (coll s1)) (state (coll s1))) s' a → observes s (ReadLocked k) s' a.

Lemma observes_events {A} (p : reader A) s s' a : observes s p s' a → rtc event s s'.
Proof. induction 1; [done|by etrans..]. Qed.

Lemma observes_bind {A B} (p : reader A) (k : A → reader B) s s' b :
  observes s (p ≫= k) s' b → ∃ s1 a, observes s p s1 a ∧ observes s1 (k a) s' b.
Proof.
  revert s. induction p as [a|w k' IH|k' IH]; intros s Hob.
  - exists s, a. split; [constructor|done].
  - cbn in Hob. inversion Hob; subst. edestruct IH as (s2 & a & ? & ?); [done|]. exists s2, a. split; [|done].
    by econstructor.
  - cbn in Hob. inversion Hob; subst. edestruct IH as (s2 & a & ? & ?); [done|]. exists s2, a. split; [|done].
    by econstructor.
Qed.

Lemma observes_loaded w s s' v : observes s (loaded w) s' v → rtc event s s' ∧ v = load w (coll s').
Proof. intros Hob. inversion Hob as [|? ? ? ? ? ? Hev Hob'|]; subst. inversion Hob'; subst. done. Qed.

Lemma observes_locked s s' n st :
  observes s locked_fields s' (n, st) → rtc event s s' ∧ n = policy (coll s') ∧ st = state (coll s').
Proof. intros Hob. inversion Hob as [| |? ? ? ? ? Hev Hob']; subst. by inversion Hob'; subst. Qed.

(** ** Exact counts *)

(** The words that a recording counts by one. *)
Definition tally (w : word) : Prop := w ∈ [WTotal; WHits; WMisses; WEvictions; WBackend; WSwitches].

Definition added (w : word) (i : instr) : Z :=
  match i with IAdd w' n => if decide (w' = w) then n else 0 | _ => 0 end.

Definition adds (w : word) (is_ : list instr) : Z := foldr (λ i n, added w i + n) 0 is_.

Lemma adds_cons w i is_ : adds w (i :: is_) = added w i + adds w is_.
Proof. done. Qed.

Lemma adds_app w is_ js : adds w (is_ ++ js) = adds w is_ + adds w js.
Proof. unfold adds. induction is_ as [|i is_ IH]; cbn; [done|]. rewrite IH. lia. Qed.

Lemma adds_perm w is_ js : is_ ≡ₚ js → adds w is_ = adds w js.
Proof. unfold adds. induction 1; cbn; lia. Qed.

(** What a recording adds to each. *)
Definition counted_in (w : word) (o : op) : Z :=
  match w with
  | WTotal => is_hit o + is_miss o
  | WHits => is_hit o
  | WMisses | WBackend => is_miss o
  | WEvictions => is_eviction o
  | WSwitches => is_switch o
  | _ => 0
  end.

Lemma tally_cases w :
  tally w → w = WTotal ∨ w = WHits ∨ w = WMisses ∨ w = WEvictions ∨ w = WBackend ∨ w = WSwitches.
Proof. unfold tally. set_solver. Qed.

Lemma adds_Record_code w d : tally w → adds w (Record_code d) = 0.
Proof. intros Hw. unfold Record_code. destruct (d <? 0); apply tally_cases in Hw; by destruct_or! Hw; subst. Qed.

Lemma adds_code w o : tally w → o ≠ OReset → adds w (code o) = counted_in w o.
Proof.
  intros Hw Ho. pose proof (λ d, adds_Record_code w d Hw) as Hrec. apply tally_cases in Hw.
  destruct o as [r hit lat|size|k size|e|e|st|n|]; try done; cbn [code].
  - unfold RecordRequest_code. rewrite app_comm_cons, adds_app, Hrec. destruct hit; by destruct_or! Hw; subst.
  - by destruct_or! Hw; subst.
  - by destruct_or! Hw; subst.
  - unfold RecordSwitch_code. destruct (f64_gt (OverheadMs e) f64_zero); by destruct_or! Hw; subst.
  - unfold RecordTuning_code. destruct (Accepted e); by destruct_or! Hw; subst.
  - by destruct_or! Hw; subst.
  - by destruct_or! Hw; subst.
Qed.

Lemma adds_codes w ops : tally w → OReset ∉ ops → adds w (ops ≫= code) = total_of (counted_in w) ops.
Proof.
  intros Hw. induction ops as [|o ops IH]; [done|]. intros [Ho Hr]%not_elem_of_cons.
  rewrite bind_cons, adds_app, adds_code, IH by done. done.
Qed.

Lemma counted_in_unit w o : 0 ≤ counted_in w o ≤ 1.
Proof. destruct w, o; cbn; try lia; by destruct hit. Qed.

Lemma counted_in_bound w ops : 0 ≤ total_of (counted_in w) ops ≤ Z.of_nat (length ops).
Proof.
  induction ops as [|o ops IH]; [done|]. unfold total_of in *. cbn [foldr length].
  pose proof (counted_in_unit w o). lia.
Qed.

Definition unit_step (i : instr) : Prop := ∀ w, tally w → 0 ≤ added w i ≤ 1.

Lemma adds_nonneg w is_ : tally w → Forall unit_step is_ → 0 ≤ adds w is_.
Proof.
  intros Hw. induction 1 as [|i is_ Hi _ IH]; [done|]. unfold adds in *. cbn. specialize (Hi w Hw). lia.
Qed.

(** A step that counts nothing any more, or counts by one. *)
Lemma load_update w w' f c : tally w → load w (update w' f c) = if decide (w' = w) then f (load w c) else load w c.
Proof. intros Hw%tally_cases. by destruct_or! Hw; subst. Qed.

Lemma instr_step_load w i c c' i' :
  tally w → match i with IStore _ _ => False | _ => True end → is_u64 (load w c + added w i) →
  instr_step i c = (c', i') → load w c' = load w c + added w i.
Proof.
  intros Hw Hi Hr Hst.
  assert (Hne : WMax ≠ w) by (intros <-; apply tally_cases in Hw; by destruct_or! Hw).
  destruct i as [w' n|? ?|ns [cur|]|n|st]; try done; cbn [instr_step exec added] in *; simplify_eq.
  - rewrite load_update by done. case_decide; [|lia]. subst. apply tally_cases in Hw.
    destruct_or! Hw; subst; by apply u64_small.
  - destruct (load WMax c =? cur); simplify_eq; rewrite ?load_update, ?decide_False by done; lia.
  - lia.
  - apply tally_cases in Hw. destruct_or! Hw; subst; cbn; lia.
  - apply tally_cases in Hw. destruct_or! Hw; subst; cbn; lia.
Qed.

Lemma instr_step_left i c c' i' : instr_step i c = (c', i') → ∀ w, adds w (option_list i') = 0.
Proof.
  intros Hst w. destruct i as [w' n|? ?|ns [cur|]|n|st]; simplify_eq/=; try done.
  - by destruct (_ =? _); simplify_eq.
  - by destruct (_ <=? _); simplify_eq.
Qed.

(** What each call has still to count. *)
Record call_tally (t : call) : Prop := {
  ct_unit : Forall unit_step (todo t);
  ct_first : adds WTotal (tail (todo t)) = 0;
  ct_order : adds WTotal (todo t) ≤ adds WHits (todo t) + adds WMisses (todo t);
  ct_left : ∀ w, tally w → adds w (todo t) ≤ adds w (live t ≫= code);
}.

Lemma call_tally_step t t' c c' :
  call_tally t → call_step t c = Some (c', t') → call_tally t'.
Proof.
  intros [Hu Hf Ho Hl] Hst. destruct t as [o [|i rest]]; [done|]. unfold call_step in Hst. cbn [todo call_op tail] in *.
  destruct (instr_step i c) as [c1 i'] eqn:Hi. simplify_eq.
  pose proof (instr_step_left _ _ _ _ Hi) as Hz. apply Forall_cons in Hu as [Hui Hu].
  assert (Hadds : ∀ w, adds w (option_list i' ++ rest) = adds w rest) by (intros w; rewrite adds_app, Hz; lia).
  assert (HT : tally WTotal) by (unfold tally; set_solver).
  split; cbn [todo].
  - apply Forall_app. split; [|done]. destruct i' as [j|]; cbn; [|done]. constructor; [|done].
    intros w Hw. specialize (Hz w). cbn in Hz. lia.
  - destruct i' as [j|]; cbn; [done|]. destruct rest as [|j rest]; [done|]. cbn in Hf |- *.
    apply Forall_cons in Hu as [Huj Hu]. specialize (Huj _ HT). pose proof (adds_nonneg _ _ HT Hu). unfold adds in *. lia.
  - rewrite !Hadds, Hf. apply Z.add_nonneg_nonneg; apply adds_nonneg; (done || unfold tally; set_solver).
  - intros w Hw. specialize (Hl w Hw). specialize (Hui w Hw). unfold live in *. cbn [todo call_op] in *.
    destruct (option_list i' ++ rest) as [|j l] eqn:E; [done|]. rewrite Hadds. rewrite adds_cons in Hl. cbv iota in *. lia.
Qed.

Lemma unit_step_IAdd w n : n = 1 ∨ ¬ tally w → unit_step (IAdd w n).
Proof. intros Hn w' Hw'. cbn. case_decide; subst; destruct Hn; (lia || done). Qed.

Lemma unit_step_other i : match i with IAdd _ _ => False | _ => True end → unit_step i.
Proof. intros Hi w Hw. destruct i; (done || cbn; lia). Qed.

Ltac unit_steps := repeat apply Forall_cons_2; try apply Forall_nil_2.

Lemma unit_code o : o ≠ OReset → Forall unit_step (code o).
Proof.
  assert (Hrec : ∀ d, Forall unit_step (Record_code d)).
  { intros d. unfold Record_code. destruct (d <? 0); [done|].
    unit_steps; first [apply unit_step_IAdd; first [by left|right; unfold tally; set_solver]|by apply unit_step_other]. }
  assert (Hsz : ∀ w n, w ∈ [WServed; WFetched; WEvictedBytes; WOverhead] → unit_step (IAdd w n)).
  { intros w n Hw. apply unit_step_IAdd. right. unfold tally. set_solver. }
  intros Ho. destruct o as [r hit lat|size|k size|e|e|st|n|]; try done; cbn [code].
  - unfold RecordRequest_code. constructor; [by apply unit_step_IAdd; left|]. apply Forall_app. split; [|done].
    destruct hit; unit_steps; first [by apply unit_step_IAdd; left|apply Hsz; set_solver].
  - unit_steps. apply Hsz. set_solver.
  - unit_steps; [by apply unit_step_IAdd; left|apply Hsz; set_solver].
  - unfold RecordSwitch_code. destruct (f64_gt (OverheadMs e) f64_zero); unit_steps;
      first [by apply unit_step_IAdd; left|apply Hsz; set_solver|by apply unit_step_other].
  - unfold RecordTuning_code. destruct (Accepted e); unit_steps; by apply unit_step_IAdd; left.
  - unit_steps. by apply unit_step_other.
  - unit_steps. by apply unit_step_other.
Qed.

Lemma call_tally_start o : o ≠ OReset → call_tally {| call_op := o; todo := code o |}.
Proof.
  intros Ho. destruct (code_split o Ho) as (_ & _ & Hne). split; cbn [todo]; [by apply unit_code|..].
  - destruct o as [r hit lat|size|k size|e|e|st|n|]; try done; cbn [code].
    + unfold RecordRequest_code. cbn [tail]. rewrite adds_app, adds_Record_code by (unfold tally; set_solver).
      by destruct hit.
    + unfold RecordSwitch_code. by destruct (f64_gt (OverheadMs e) f64_zero).
    + unfold RecordTuning_code. by destruct (Accepted e).
  - rewrite !adds_code by (done || unfold tally; set_solver). cbn. lia.
  - intros w Hw. unfold live. cbn [todo call_op]. destruct (code o) eqn:E; [done|]. cbn. by rewrite app_nil_r, E.
Qed.

(** ** The counters of a system *)

Record tallied (s : system) : Prop := {
  ta_inv : coll_inv s;
  ta_calls : Forall call_tally (calls s);
  ta_range : ∀ w, tally w → 0 ≤ load w (coll s);
  ta_exact : ∀ w, tally w → load w (coll s) + adds w (calls s ≫= todo) = adds w (started s ≫= code);
}.

Lemma todo_unit ts : Forall call_tally ts → Forall unit_step (ts ≫= todo).
Proof. induction 1 as [|t ts [Hu _ _ _] _ IH]; [done|]. rewrite bind_cons. by apply Forall_app. Qed.

Lemma tallied_start o s : tallied s → calm (start o s) → o ≠ OReset → tallied (start o s).
Proof.
  intros [Hinv Hcalls Hrange Hex] _ Ho. split; cbn [start calls coll]; [by apply coll_inv_start| |done|].
  - apply Forall_app_2; [done|]. constructor; [by apply call_tally_start|done].
  - intros w Hw. pose proof (Hex w Hw) as He. unfold started in *. cbn [start calls].
    rewrite fmap_app, !bind_app, !adds_app, <-He. cbn. rewrite !app_nil_r. lia.
Qed.

(** A step of a call counts what it no longer has to count. *)
Lemma call_step_tally w t t' c c' :
  tally w → call_ok t → call_tally t → 0 ≤ load w c → load w c + adds w (todo t) < 2 ^ 64 →
  call_step t c = Some (c', t') →
  call_op t' = call_op t ∧ load w c ≤ load w c' ∧ load w c' + adds w (todo t') = load w c + adds w (todo t).
Proof.
  intros Hw Hok [Hu _ _ _] Hc Hb Hst. destruct t as [o [|i rest]]; [done|]. unfold call_step in Hst. cbn [todo call_op] in *.
  destruct (instr_step i c) as [c1 i'] eqn:Hi. simplify_eq. cbn [todo call_op].
  apply Forall_cons in Hu as [Hui Hu]. pose proof (adds_nonneg w _ Hw Hu). specialize (Hui w Hw).
  rewrite adds_app, (instr_step_left _ _ _ _ Hi). rewrite adds_cons in *.
  rewrite (instr_step_load w i c c' i'); [split; [done|lia]|done| |unfold is_u64; lia|done].
  destruct Hok as (pre & Hpre & Hcs & _); [done|]. cbn in Hpre. destruct i; try done.
  destruct pre as [|j pre]; cbn in Hpre; simplify_eq; [by destruct o|]. by apply Forall_cons in Hcs as [[] _].
Qed.

Lemma tallied_step_mono i s s' :
  tallied s → calm s → step_at i s = Some s' → tallied s' ∧ ∀ w, tally w → load w (coll s) ≤ load w (coll s').
Proof.
  intros [Hinv Hcalls Hrange Hex] [Hr Hlen] Hst. pose proof (coll_inv_step _ _ _ Hinv Hst) as Hinv'.
  apply step_at_inv in Hst as (t & t' & c & Hi & Hst & ->).
  assert (Ht : call_tally t) by (rewrite Forall_forall in Hcalls; eapply Hcalls, list_elem_of_lookup_2, Hi).
  assert (Hok : call_ok t).
  { pose proof (cv_calls _ Hinv) as Ho. rewrite Forall_forall in Ho. eapply Ho, list_elem_of_lookup_2, Hi. }
  assert (Hcalls' : Forall call_tally (<[i:=t']> (calls s))) by (apply Forall_insert; [done|by eapply call_tally_step]).
  assert (Hstep : ∀ w, tally w → call_op t' = call_op t ∧ load w (coll s) ≤ load w c ∧
    load w c + adds w (<[i:=t']> (calls s) ≫= todo) = load w (coll s) + adds w (calls s ≫= todo)).
  { intros w Hw. destruct (bind_insert_perm todo _ i t t' Hi) as (R & HR & HR').
    pose proof (adds_perm w _ _ HR) as Ha. pose proof (adds_perm w _ _ HR') as Ha'. rewrite adds_app in Ha, Ha'.
    assert (Hb : load w (coll s) + adds w (calls s ≫= todo) < 2 ^ 63).
    { rewrite Hex, adds_codes by done. pose proof (counted_in_bound w (started s)).
      unfold started in *. rewrite length_fmap in *. lia. }
    assert (HRn : 0 ≤ adds w R).
    { apply adds_nonneg; [done|]. pose proof (todo_unit _ Hcalls) as Hu. rewrite HR in Hu. by apply Forall_app in Hu as [_ ?]. }
    destruct (call_step_tally w t t' (coll s) c) as (Hop & H0 & Hs); [done..|by apply Hrange|lia|done|].
    split_and!; [done..|lia]. }
  split; [split|]; cbn [calls coll]; [done|done|..].
  - intros w Hw. destruct (Hstep w Hw) as (_ & ? & _). specialize (Hrange w Hw). lia.
  - intros w Hw. destruct (Hstep w Hw) as (Hop & _ & ->). rewrite (Hex w Hw). unfold started. cbn [calls].
    rewrite list_fmap_insert, Hop, list_insert_id; [done|]. by rewrite list_lookup_fmap, Hi.
  - intros w Hw. by destruct (Hstep w Hw) as (_ & ? & _).
Qed.

(** A counter never goes down. *)
Lemma tallied_events s s' :
  rtc event s s' → calm s' → tallied s → tallied s' ∧ ∀ w, tally w → load w (coll s) ≤ load w (coll s').
Proof.
  intros Hev Hc Hs.
  apply (events_ind (λ s1, tallied s1 ∧ ∀ w, tally w → load w (coll s) ≤ load w (coll s1)) s); [..|done|done|].
  - intros o s1 [Ht Hm] Hc1 Ho. split; [by apply tallied_start|exact Hm].
  - intros i s1 s2 [Ht Hm] Hc1 Hst. destruct (tallied_step_mono _ _ _ Ht Hc1 Hst) as [Ht2 Hm2].
    split; [done|]. intros w Hw. specialize (Hm w Hw). specialize (Hm2 w Hw). lia.
  - by split.
Qed.

Lemma tallied_init : tallied init_system.
Proof.
  split; [apply coll_inv_init|done|..]; intros w Hw%tally_cases; destruct_or! Hw; subst; (reflexivity || cbn; lia).
Qed.

Lemma adds_todo_live w ts :
  tally w → Forall call_tally ts → adds w (ts ≫= todo) ≤ adds w ((ts ≫= live) ≫= code).
Proof.
  intros Hw. induction 1 as [|t ts [_ _ _ Hl] _ IH]; [done|].
  rewrite !bind_cons, bind_app, !adds_app. specialize (Hl w Hw). lia.
Qed.

(** Between what has returned and what has started. *)
Lemma tallied_bounds s w :
  tallied s → calm s → tally w →
  total_of (counted_in w) (finished s) ≤ load w (coll s) ≤ total_of (counted_in w) (started s).
Proof.
  intros [Hinv Hcalls Hrange Hex] [Hr _] Hw. specialize (Hex w Hw).
  pose proof (adds_nonneg w _ Hw (todo_unit _ Hcalls)). pose proof (adds_todo_live w _ Hw Hcalls).
  pose proof (cv_finished _ Hinv) as Hfin. pose proof (adds_perm w _ _ (bind_Permutation code _ _ Hfin)) as Ha.
  rewrite bind_app, adds_app in Ha.
  assert (OReset ∉ finished s) by (rewrite <-Hfin in Hr; set_solver).
  rewrite adds_codes in Hex by done. rewrite (adds_codes w (finished s)), (adds_codes w (started s)) in Ha by done. lia.
Qed.

Lemma total_of_requests ops :
  total_of (counted_in WTotal) ops = total_of (counted_in WHits) ops + total_of (counted_in WMisses) ops.
Proof. unfold total_of. induction ops as [|o ops IH]; [done|]. cbn [foldr counted_in] in *. lia. Qed.

(** A request counts in the total before it counts as a hit or a miss. *)
Lemma tallied_total s : tallied s → calm s → hits (coll s) + misses (coll s) ≤ total (coll s).
Proof.
  intros [Hinv Hcalls Hrange Hex] [Hr _].
  assert (HT : tally WTotal ∧ tally WHits ∧ tally WMisses) by (unfold tally; set_solver).
  destruct HT as (HT & HH & HM).
  pose proof (Hex _ HT) as ET. pose proof (Hex _ HH) as EH. pose proof (Hex _ HM) as EM.
  rewrite adds_codes in ET, EH, EM by done. cbn [load] in *.
  pose proof (total_of_requests (started s)).
  assert (Hord : adds WTotal (calls s ≫= todo) ≤ adds WHits (calls s ≫= todo) + adds WMisses (calls s ≫= todo)).
  { clear -Hcalls. induction Hcalls as [|t ts [_ _ Ho _] _ IH]; [done|]. rewrite !bind_cons, !adds_app. lia. }
  lia.
Qed.

(** What has returned and what has started only grows. *)
Lemma events_history s s' :
  rtc event s s' → finished s `prefix_of` finished s' ∧ started s `prefix_of` started s'.
Proof.
  induction 1 as [|s s1 s' Hev _ [IHf IHs]]; [done|].
  cut (finished s `prefix_of` finished s1 ∧ started s `prefix_of` started s1).
  { intros [Hf Hs]. by split; etrans. }
  destruct Hev as [o s|i s s1 Hst].
  - split; [done|]. unfold started. cbn [start calls]. rewrite fmap_app. by apply prefix_app_r.
  - rewrite (step_at_started _ _ _ Hst). split; [|done].
    apply step_at_inv in Hst as (t & t' & c & _ & _ & ->). by apply prefix_app_r.
Qed.

Lemma total_of_prefix w ops ops' :
  ops `prefix_of` ops' → total_of (counted_in w) ops ≤ total_of (counted_in w) ops'.
Proof.
  intros [l ->]. unfold total_of. rewrite foldr_app. pose proof (counted_in_bound w l) as [Hl _]. unfold total_of in Hl.
  induction ops as [|o ops IH]; cbn; lia.
Qed.

(** ** Every number loaded is in the range of its word *)

Definition is_word (w : word) (v : Z) : Prop :=
  match w with WServed | WFetched | WEvictedBytes => is_i64 v | _ => is_u64 v end.

Lemma is_word_wrap w v : is_word w (wrap w v).
Proof. destruct w; cbn; apply u64_range || apply i64_range. Qed.

Definition instr_typed (i : instr) : Prop :=
  match i with
  | IStore w v => is_word w v
  | IRaise ns _ => is_u64 ns
  | IState s => state_typed s
  | _ => True
  end.

Lemma update_typed w f c : (∀ v, is_word w v → is_word w (f v)) → coll_typed c → coll_typed (update w f c).
Proof.
  intros Hf [[Hu Hi [Hb Hcn Hs Hm]] Hst]. split; [|done]. split_forall.
  destruct w; cbn in Hf; (split; [..|split]); cbn; repeat (apply Forall_cons_2);
    rewrite ?length_alter; repeat case_decide; try discriminate; auto using Forall_nil_2.
Qed.

Lemma exec_typed i c : instr_typed i → coll_typed c → coll_typed (exec i c).
Proof.
  intros Hi Hc. destruct i as [w n|w v|ns cur|n|st]; cbn [exec].
  - apply update_typed; [|done]. intros. apply is_word_wrap.
  - by apply update_typed.
  - apply update_typed; [|done]. intros v Hv. by destruct (ns <=? v).
  - destruct Hc as [[? ? ?] ?]. by split; [split|].
  - destruct Hc as [[? ? ?] ?]. by split; [split|].
Qed.

Lemma instr_step_typed i c c' i' :
  instr_typed i → coll_typed c → instr_step i c = (c', i') → coll_typed c' ∧ Forall instr_typed (option_list i').
Proof.
  intros Hi Hc Hst. pose proof (exec_typed i c Hi Hc) as He.
  destruct i as [w n|w v|ns [cur|]|n|st]; cbn [instr_step] in Hst;
    [by simplify_eq; split; [|apply Forall_nil_2]|by simplify_eq; split; [|apply Forall_nil_2]| | |
     by simplify_eq; split; [|apply Forall_nil_2]|by simplify_eq; split; [|apply Forall_nil_2]].
  - destruct (load WMax c =? cur); simplify_eq; split; cbn; auto using Forall_nil_2, update_typed.
  - simplify_eq. split; [done|]. destruct (_ <=? _); cbn; auto using Forall_nil_2.
Qed.

Lemma code_typed o : op_typed o → Forall instr_typed (code o).
Proof.
  assert (Hrec : ∀ d, Forall instr_typed (Record_code d)).
  { intros d. unfold Record_code. destruct (d <? 0); unit_steps; try done. apply u64_range. }
  intros Ho. destruct o as [r hit lat|size|k size|e|e|st|n|]; cbn [code].
  - unfold RecordRequest_code. apply Forall_cons_2; [done|]. apply Forall_app_2; [|done]. by destruct hit; unit_steps.
  - by unit_steps.
  - by unfold RecordEviction_code; unit_steps.
  - unfold RecordSwitch_code. by destruct (f64_gt (OverheadMs e) f64_zero); cbn; unit_steps.
  - unfold RecordTuning_code. by destruct (Accepted e); unit_steps.
  - apply Forall_cons_2; [exact Ho|apply Forall_nil_2].
  - by unit_steps.
  - assert (H0 : ∀ w, is_word w 0) by (intros []; cbn; unfold is_u64, is_i64; lia).
    unfold Reset_code, Histogram_Reset_code. apply Forall_app_2; [by unit_steps; apply H0|].
    apply Forall_app_2; [|by unit_steps; apply H0]. apply Forall_fmap, Forall_forall. intros i _. apply (H0 (WBucket i)).
Qed.

Record typed (s : system) : Prop := {
  ty_coll : coll_typed (coll s);
  ty_calls : Forall (λ t, Forall instr_typed (todo t)) (calls s);
}.

Lemma typed_events s s' : rtc event s s' → Forall op_typed (started s') → typed s → typed s'.
Proof.
  induction 1 as [|s s1 s' Hev Hevs IH]; [done|]. intros Hop Hs. apply IH; [done|].
  apply events_history in Hevs as [_ [l Hl]]. rewrite Hl in Hop. apply Forall_app in Hop as [Hop _].
  destruct Hs as [Hc Hcalls]. destruct Hev as [o s|i s s1 (t & t' & c & Hi & Hst & ->)%step_at_inv].
  - split; [done|]. cbn. apply Forall_app_2; [done|]. constructor; [|done]. apply code_typed.
    unfold started in Hop. cbn in Hop. rewrite fmap_app in Hop. by apply Forall_app in Hop as [_ [? _]%Forall_cons].
  - assert (Ht : Forall instr_typed (todo t)) by (rewrite Forall_forall in Hcalls; eapply Hcalls, list_elem_of_lookup_2, Hi).
    unfold call_step in Hst. destruct (todo t) as [|j rest]; [done|]. destruct (instr_step j (coll s)) as [c1 i'] eqn:Hj.
    simplify_eq. apply Forall_cons in Ht as [Htj Ht]. destruct (instr_step_typed _ _ _ _ Htj Hc Hj) as [Hc' Hi'].
    split; [done|]. cbn [calls]. apply Forall_insert; [done|]. by apply Forall_app.
Qed.

Lemma typed_init : typed init_system.
Proof.
  split; [|done]. split; [apply counters_ok_New|]. unfold state_typed. cbn. unit_steps; unfold is_i64; lia.
Qed.

(** ** What a reader can rely on *)

(** The words whose range the snapshot depends on. *)
Definition bounded_word (w : word) : bool :=
  match w with WBucket _ | WEvictedBytes | WAttempts | WAccepted => false | _ => true end.

(** Whatever the loads find in the range of the words, the result satisfies [Q]. *)
Fixpoint always {A} (p : reader A) (Q : A → Prop) : Prop :=
  match p with
  | Done a => Q a
  | Load w k => ∀ v, (bounded_word w = true → is_word w v) → always (k v) Q
  | ReadLocked k => ∀ n s, state_typed s → always (k n s) Q
  end.

Lemma always_bind {A B} (p : reader A) (k : A → reader B) (P : A → Prop) Q :
  always p P → (∀ a, P a → always (k a) Q) → always (p ≫= k) Q.
Proof. intros Hp Hk. induction p as [a|w k' IH|k' IH]; cbn in *; eauto. Qed.

Lemma always_impl {A} (p : reader A) (P Q : A → Prop) : always p P → (∀ a, P a → Q a) → always p Q.
Proof. intros Hp Hpq. induction p as [a|w k' IH|k' IH]; cbn in *; eauto. Qed.

Lemma always_loaded w : bounded_word w = true → always (loaded w) (is_word w).
Proof. intros Hw v Hv. by apply Hv. Qed.

Lemma load_typed w c : coll_typed c → bounded_word w = true → is_word w (load w c).
Proof. intros [[Hu Hi [Hb Hcn Hs Hm]] Hst] Hw. split_forall. by destruct w. Qed.

Lemma observes_always {A} (p : reader A) Q s s' a :
  observes s p s' a → typed s → Forall op_typed (started s') → always p Q → Q a.
Proof.
  induction 1 as [s a|s s1 s' w k a Hev Hob IH|s s1 s' k a Hev Hob IH]; intros Hs Hop Hp; [done|..];
    (assert (typed s1) as Hs1 by
      (eapply typed_events; [done| |done]; apply observes_events, events_history in Hob as [_ [l Hl]];
       rewrite Hl in Hop; by apply Forall_app in Hop as [? _])); apply IH; try done.
  - apply Hp. apply load_typed, Hs1.
  - apply Hp, Hs1.
Qed.

Lemma MeanMillis_always : always MeanMillis_reader (λ f, finite64 f = true).
Proof.
  eapply always_bind; [by apply always_loaded|]. intros n Hn. destruct (Z.eqb_spec n 0); [done|].
  eapply always_bind; [by apply always_loaded|]. intros m Hm. cbn in *.
  eapply millis_finite; [|instantiate (1 := 1 - 65); lia|instantiate (1 := 65 - 1 + 2); lia].
  apply div_within; [by apply u64_within|by apply u64_between|lia|lia].
Qed.

Lemma scan_always n i seen target :
  always (scan_reader n i seen target) (λ r, ∀ j, r = Some j → Z.of_nat i ≤ j < Z.of_nat (i + n)).
Proof.
  revert i seen. induction n as [|n IH]; intros i seen; [done|]. cbn [scan_reader loaded mbind reader_bind]. intros c _.
  assert (Hnext : ∀ seen, always (scan_reader n (S i) seen target) (λ r, ∀ j, r = Some j → Z.of_nat i ≤ j < Z.of_nat (i + S n))).
  { intros seen'. eapply always_impl; [apply IH|].
    intros r Hr j Hj. specialize (Hr j Hj). lia. }
  destruct (c =? 0); [apply Hnext|]. cbv zeta. destruct (_ >? target); [|apply Hnext]. intros j [= <-]. lia.
Qed.

Lemma QuantileMillis_always q : always (QuantileMillis_reader q) (λ f, finite64 f = true).
Proof.
  eapply always_bind; [by apply always_loaded|]. intros n Hn. destruct (n =? 0); [done|].
  eapply always_bind; [apply scan_always|]. intros [i|] Hi.
  - specialize (Hi i eq_refl). eapply millis_finite; [apply bucketMidpoint_within|lia|lia].
    rewrite numBuckets_eq in *. lia.
  - eapply always_bind; [by apply always_loaded|]. intros m Hm. cbn in *.
    eapply millis_finite; [by apply u64_within|lia|lia].
Qed.

Lemma Snapshot_always : always Snapshot_reader stats_ok.
Proof.
  assert (Hthousand : finite_between 10 10 (f64_of_Z 1000)) by (split; [reflexivity|vm_compute; by split]).
  unfold Snapshot_reader.
  do 5 (eapply always_bind; [by apply always_loaded|]; intros ? ?).
  eapply always_bind; [apply MeanMillis_always|]; intros ? ?.
  do 3 (eapply always_bind; [apply QuantileMillis_always|]; intros ? ?).
  do 4 (eapply always_bind; [by apply always_loaded|]; intros ? ?).
  cbv zeta. cbn [locked_fields mbind reader_bind always]. intros n st Hst. cbn [is_word] in *.
  unfold state_typed in Hst. split_forall.
  split; [by repeat apply Forall_cons_2; try apply Forall_nil_2..|].
  repeat apply Forall_cons_2; try apply Forall_nil_2; try done; cbn [HitRate ByteHitRate SwitchOverheadTotalMs].
  - pose proof (u64_range (a + a0)). unfold is_u64 in *. apply rate_finite; lia.
  - pose proof (i64_range (a1 + a2)). unfold is_i64 in *. apply rate_finite; lia.
  - eapply within_finite, (div_within 1 65 10 10); [|done|lia|lia]. by apply u64_within.
Qed.

(** The moments at which a snapshot reads. *)
Lemma snapshot_loads s s' st :
  observes s Snapshot_reader s' st →
  ∃ s1 s2 s3 s4 s5 s6 s7,
    Forall2 (rtc event) [s; s1; s2; s3; s4; s5; s6; s7] [s1; s2; s3; s4; s5; s6; s7; s'] ∧
    Hits st = hits (coll s1) ∧ Misses st = misses (coll s2) ∧ TotalRequests st = total (coll s3) ∧
    PolicySwitches st = switches (coll s4) ∧ Evictions st = evictions (coll s5) ∧
    BackendRequests st = backendReqs (coll s6) ∧
    CurrentPolicy st = policy (coll s7) ∧ SCapacity st = Capacity (state (coll s7)) ∧
    SBytesUsed st = BytesUsed (state (coll s7)) ∧ SMetadataBytes st = MetadataBytes (state (coll s7)) ∧
    SObjectCount st = ObjectCount (state (coll s7)).
Proof.
  intros Hob. unfold Snapshot_reader in Hob.
  apply observes_bind in Hob as (s1 & ? & [Hev1 ->]%observes_loaded & Hob).
  apply observes_bind in Hob as (s2 & ? & [Hev2 ->]%observes_loaded & Hob).
  apply observes_bind in Hob as (s2a & ? & Hev2a%observes_events & Hob).
  apply observes_bind in Hob as (s2b & ? & Hev2b%observes_events & Hob).
  apply observes_bind in Hob as (s3 & ? & [Hev3 ->]%observes_loaded & Hob).
  apply observes_bind in Hob as (s3a & ? & Hev3a%observes_events & Hob).
  apply observes_bind in Hob as (s3b & ? & Hev3b%observes_events & Hob).
  apply observes_bind in Hob as (s3c & ? & Hev3c%observes_events & Hob).
  apply observes_bind in Hob as (s3d & ? & Hev3d%observes_events & Hob).
  apply observes_bind in Hob as (s4 & ? & [Hev4 ->]%observes_loaded & Hob).
  apply observes_bind in Hob as (s4a & ? & Hev4a%observes_events & Hob).
  apply observes_bind in Hob as (s5 & ? & [Hev5 ->]%observes_loaded & Hob).
  apply observes_bind in Hob as (s6 & ? & [Hev6 ->]%observes_loaded & Hob). cbv zeta in Hob.
  apply observes_bind in Hob as (s7 & [n cs] & (Hev7 & -> & ->)%observes_locked & Hob).
  inversion Hob; subst. exists s1, s2, s3, s4, s5, s6, s'. split; [|by split_and!].
  assert (Htr : ∀ a b c, rtc event a b → rtc event b c → rtc event a c) by (intros; by etrans).
  repeat apply Forall2_cons_2; try apply Forall2_nil_2; eauto using rtc_refl.
Qed.

(** A moment of the snapshot. *)
Lemma snapshot_moment s s1 s' :
  reachable s → calm s' → rtc event s s1 → rtc event s1 s' →
  tallied s1 ∧ calm s1 ∧ ∀ w, tally w →
    total_of (counted_in w) (finished s) ≤ load w (coll s1) ≤ total_of (counted_in w) (started s').
Proof.
  intros Hr Hc Hev Hev'. pose proof (events_calm _ _ Hev' Hc) as Hc1.
  assert (tallied s1) as Ht1.
  { eapply tallied_events; [|done|apply tallied_init]. unfold reachable in Hr. by etrans. }
  split_and!; [done..|]. intros w Hw. pose proof (tallied_bounds _ _ Ht1 Hc1 Hw).
  apply events_history in Hev as [Hf _], Hev' as [_ Hs].
  pose proof (total_of_prefix w _ _ Hf). pose proof (total_of_prefix w _ _ Hs). lia.
Qed.

(** Chains of events, from the first to the last. *)
Ltac chain :=
  match goal with
  | |- rtc _ ?a ?a => apply rtc_refl
  | H : rtc _ ?a ?b |- rtc _ ?a ?b => exact H
  | H : rtc _ ?a ?b |- rtc _ ?a ?c => etrans; [exact H|clear H; chain]
  end.

(** C19: what a snapshot taken while recordings are under way says.  Let a
    snapshot begin in a state [s] and end in [s'], any calls but [Reset]
    starting and taking steps between its loads (fewer than 2^63 calls in all).
    No request counts as a hit or a miss without being in the total; each
    counter is at least the number of recordings that had returned when the
    snapshot began and at most the number that had started when it ended; the
    policy and the cache state are those of one moment between; and every
    number is in range and finite. *)
Theorem concurrent_snapshot s s' st :
  reachable s → observes s Snapshot_reader s' st → calm s' → Forall op_typed (started s') →
  Hits st + Misses st ≤ TotalRequests st ∧
  Forall (λ '(w, n), total_of (counted_in w) (finished s) ≤ n ≤ total_of (counted_in w) (started s'))
    [(WHits, Hits st); (WMisses, Misses st); (WTotal, TotalRequests st); (WEvictions, Evictions st);
     (WSwitches, PolicySwitches st); (WBackend, BackendRequests st)] ∧
  (∃ s1, rtc event s s1 ∧ rtc event s1 s' ∧ CurrentPolicy st = last_policy (finished s1) ∧
     SCapacity st = Capacity (last_state (finished s1)) ∧ SBytesUsed st = BytesUsed (last_state (finished s1)) ∧
     SMetadataBytes st = MetadataBytes (last_state (finished s1)) ∧
     SObjectCount st = ObjectCount (last_state (finished s1))) ∧
  stats_ok st.
Proof.
  intros Hr Hob Hc Hop. pose proof (observes_events _ _ _ _ Hob) as Hev.
  assert (Hty : typed s).
  { eapply typed_events; [exact Hr| |apply typed_init]. apply events_history in Hev as [_ [l Hl]].
    rewrite Hl in Hop. by apply Forall_app in Hop as [? _]. }
  pose proof (observes_always _ _ _ _ _ Hob Hty Hop Snapshot_always) as Hok.
  apply snapshot_loads in Hob as (s1 & s2 & s3 & s4 & s5 & s6 & s7 & Hevs & EH & EM & ET & ES & EE & EB & EP & EC).
  rewrite !Forall2_cons in Hevs. clear Hev. destruct Hevs as (H1 & H2 & H3 & H4 & H5 & H6 & H7 & H8 & _).
  destruct (snapshot_moment s s1 s') as (T1 & C1 & B1); [done|done|by chain|by chain|].
  destruct (snapshot_moment s s2 s') as (T2 & C2 & B2); [done|done|by chain|by chain|].
  destruct (snapshot_moment s s3 s') as (T3 & C3 & B3); [done|done|by chain|by chain|].
  destruct (snapshot_moment s s4 s') as (_ & _ & B4); [done|done|by chain|by chain|].
  destruct (snapshot_moment s s5 s') as (_ & _ & B5); [done|done|by chain|by chain|].
  destruct (snapshot_moment s s6 s') as (_ & _ & B6); [done|done|by chain|by chain|].
  destruct (snapshot_moment s s7 s') as ([[_ _ Hp Hs _] _ _ _] & _); [done|done|by chain|by chain|].
  assert (Ht : ∀ w, w ∈ [WTotal; WHits; WMisses; WEvictions; WBackend; WSwitches] → tally w) by done.
  split_and!; [| | |exact Hok].
  - destruct (tallied_events s1 s3) as [_ M1]; [by chain|done|done|].
    destruct (tallied_events s2 s3) as [_ M2]; [by chain|done|done|].
    specialize (M1 WHits (Ht WHits ltac:(set_solver))). specialize (M2 WMisses (Ht WMisses ltac:(set_solver))).
    pose proof (tallied_total _ T3 C3). cbn [load] in *. lia.
  - rewrite EH, EM, ET, ES, EE, EB.
    repeat apply Forall_cons_2; try apply Forall_nil_2;
      [apply (B1 WHits)|apply (B2 WMisses)|apply (B3 WTotal)|apply (B5 WEvictions)|apply (B4 WSwitches)|apply (B6 WBackend)];
      apply Ht; set_solver.
  - exists s7. rewrite EP, Hp. destruct EC as (-> & -> & -> & ->). rewrite Hs. split_and!; [by chain|by chain|done..].
Qed.
End readers.

(** An executable reading: before its loads, calls take the steps of the lists. *)
Fixpoint observe_run {A} (p : reader A) (sched : list (list nat)) (s : system) : option (system * A) :=
  match p with
  | Done a => Some (s, a)
  | Load w k =>
      s1 ← run_schedule (default [] (head sched)) s; observe_run (k (load w (coll s1))) (tail sched) s1
  | ReadLocked k =>
      s1 ← run_schedule (default [] (head sched)) s;
      observe_run (k (policy (coll s1)) (state (coll s1))) (tail sched) s1
  end.

Lemma observe_run_observes {A} (p : reader A) sched s s' a :
  observe_run p sched s = Some (s', a) → observes s p s' a.
Proof.
  revert sched s. induction p as [b|w k IH|k IH]; intros sched s Hrun; cbn in Hrun.
  - simplify_eq. constructor.
  - apply bind_Some in Hrun as (s1 & Hs1 & Hrun). econstructor; [by eapply run_schedule_events|by eapply IH].
  - apply bind_Some in Hrun as (s1 & Hs1 & Hrun). econstructor; [by eapply run_schedule_events|by eapply IH].
Qed.

(** The hits are read before the hit counts, the misses after the miss does. *)
Lemma concurrent_snapshot_witness :
  ∃ s' st, observes three_started Snapshot_reader s' st ∧ Hits st + Misses st ≤ TotalRequests st ∧
    Hits st = 0 ∧ Misses st = 1 ∧ TotalRequests st = 2 ∧ stats_ok st.
Proof.
  destruct (observe_run Snapshot_reader [[]; [0; 0; 1; 1]%nat] three_started) as [[s' st]|] eqn:Hrun;
    [|vm_compute in Hrun; discriminate].
  assert (Some (true, three_calls, 0, 1, 2) =
    (λ '(s, st), (bool_decide (calm s), started s, Hits st, Misses st, TotalRequests st)) <$> Some (s', st)) as Hf
    by (rewrite <-Hrun; vm_compute; reflexivity).
  cbn [fmap option_fmap option_map] in Hf. injection Hf as Hc Hst Hh Hm Ht.
  pose proof (observe_run_observes _ _ _ _ _ Hrun) as Hob.
  assert (Hc' : calm s') by (apply (bool_decide_unpack _); rewrite <-Hc; exact I).
  assert (Hop : Forall op_typed (started s')) by (rewrite <-Hst; by repeat apply Forall_cons_2; try apply Forall_nil_2).
  destruct (concurrent_snapshot _ _ _ three_started_reachable Hob Hc' Hop) as (Hle & _ & _ & Hok).
  exists s', st. by split_and!.
Defined.
