(* ===== verification/CSV.v ===== *)
(** * metrics/collector.go: WriteCSV

    The snapshot written as a CSV file of two lines through encoding/csv, and a
    reader of the format and of the columns to state what was written.  The
    file operations, which can fail, are arguments. *)
From S2P Require Import Prelude GoFloat FloatFacts GoText FormatFloat Histogram Collector Snapshot.

(** ** encoding/csv: the writer, with the comma and no CRLF *)

Definition quote : Ascii.ascii := byte_of 34.
Definition comma : Ascii.ascii := byte_of 44.
Definition newline : Ascii.ascii := byte_of 10.
Definition return_ : Ascii.ascii := byte_of 13.

Definition special_byte (c : Ascii.ascii) : bool :=
  bool_decide (c = newline) || bool_decide (c = return_) || bool_decide (c = quote) || bool_decide (c = comma).

Definition fieldNeedsQuotes (f : text) : bool :=
  if decide (f = []) then false
  else if decide (f = [byte_of 92; byte_of 46]) then true
  else existsb special_byte f || bool_decide (is_Some (strip_any spaces f)).

Definition double_quotes (f : text) : text :=
  f ≫= λ c, if decide (c = quote) then [quote; quote] else [c].

Definition csv_field (f : text) : text :=
  if fieldNeedsQuotes f then quote :: double_quotes f ++ [quote] else f.

Fixpoint csv_fields (fs : list text) : text :=
  match fs with
  | [] => []
  | [f] => csv_field f
  | f :: fs => csv_field f ++ comma :: csv_fields fs
  end.

Definition csv_line (fs : list text) : text := csv_fields fs ++ [newline].

(** ** WriteCSV *)

(** The file operations: the error of each, if any. *)
Record file_ops (E : Type) := {
  create_err : string → option E;
  write_err : text → option E;
  close_err : option E;
}.
Arguments create_err {E}.
Arguments write_err {E}.
Arguments close_err {E}.

Inductive csv_error (E : Type) :=
| WriteFailed (path : string) (e : E)
| CloseFailed (e : E).
Arguments WriteFailed {E}.
Arguments CloseFailed {E}.

Section write.
Context `{GoRuntime} {E : Type}.

(** The two lines of the file. *)
Definition csv_data (c : Collector) : text :=
  csv_line (explode <$> csvHeader) ++ csv_line (explode <$> Row (Snapshot c)).

(** The contents of the file, or the error. *)
Definition WriteCSV (ops : file_ops E) (path : string) (c : Collector) : csv_error E + text :=
  match create_err ops path with
  | Some e => inl (WriteFailed path e)
  | None =>
      let data := csv_data c in
      match write_err ops data with
      | Some e => inl (WriteFailed path e)
      | None =>
          match close_err ops with
          | Some e => inl (CloseFailed e)
          | None => inr data
          end
      end
  end.
End write.

(** ** A reader of the format (RFC 4180)

    Where the reader is: at the start of a field, in a bare field, in a quoted
    field, or after a quote in a quoted field. *)
Inductive where_ := FieldStart | InBare | InQuoted | AfterQuote.

(** [cur] is the field read so far and [row] the fields before it, both
    backwards. *)
Fixpoint csv_read (w : where_) (cur : text) (row : list text) (s : text) : option (list (list text)) :=
  match s with
  | [] => match w, cur, row with FieldStart, [], [] => Some [] | _, _, _ => None end
  | c :: s =>
      match w with
      | InQuoted =>
          if decide (c = quote) then csv_read AfterQuote cur row s else csv_read InQuoted (c :: cur) row s
      | _ =>
          if decide (c = comma) then csv_read FieldStart [] (reverse cur :: row) s
          else if decide (c = newline) then
            rows ← csv_read FieldStart [] [] s; Some (reverse (reverse cur :: row) :: rows)
          else if decide (c = quote) then
            match w with
            | FieldStart => csv_read InQuoted cur row s
            | AfterQuote => csv_read InQuoted (quote :: cur) row s
            | _ => None
            end
          else match w with AfterQuote => None | _ => csv_read InBare (c :: cur) row s end
      end
  end.

Definition read_csv (s : text) : option (list (list text)) := csv_read FieldStart [] [] s.

(** ** What is written is read back *)

Lemma double_quotes_cons c f :
  double_quotes (c :: f) = (if decide (c = quote) then [quote; quote] else [c]) ++ double_quotes f.
Proof. done. Qed.

Lemma read_quoted f cur row s :
  csv_read InQuoted cur row (double_quotes f ++ quote :: s) = csv_read AfterQuote (reverse f ++ cur) row s.
Proof.
  revert cur. induction f as [|c f IH]; intros cur; [done|].
  rewrite double_quotes_cons, reverse_cons, <-!(assoc_L (++)). case_decide as Hc; cbn [app csv_read].
  - subst. apply IH.
  - rewrite decide_False by done. apply IH.
Qed.

Lemma read_bare f cur row s w :
  w = FieldStart ∨ w = InBare → existsb special_byte f = false →
  csv_read w cur row (f ++ s) =
    match f with [] => csv_read w cur row s | _ => csv_read InBare (reverse f ++ cur) row s end.
Proof.
  intros Hw Hf. revert w Hw cur. induction f as [|c f IH]; intros w Hw cur; [done|].
  cbn [existsb] in Hf. apply orb_false_elim in Hf as [Hc Hf]. unfold special_byte in Hc.
  apply orb_false_elim in Hc as [Hc Hcomma]. apply orb_false_elim in Hc as [Hc Hquote].
  apply orb_false_elim in Hc as [Hnl _]. apply bool_decide_eq_false in Hcomma, Hquote, Hnl.
  cbn [app csv_read]. destruct Hw as [-> | ->]; rewrite !decide_False by done;
    rewrite (IH Hf InBare) by (by right); rewrite reverse_cons, <-(assoc_L (++)); by destruct f.
Qed.

(** A field, up to the separator that follows it. *)
Lemma read_field f row sep s :
  sep = comma ∨ sep = newline →
  ∃ w, csv_read FieldStart [] row (csv_field f ++ sep :: s) = csv_read w (reverse f) row (sep :: s) ∧ w ≠ InQuoted.
Proof.
  intros Hsep. unfold csv_field. destruct (fieldNeedsQuotes f) eqn:Hq.
  - exists AfterQuote. split; [|done]. cbn [app csv_read]. rewrite !decide_False, decide_True by done.
    rewrite <-(assoc_L (++)). cbn [app]. by rewrite read_quoted, app_nil_r.
  - assert (Hf : existsb special_byte f = false).
    { unfold fieldNeedsQuotes in Hq. case_decide; [by subst|]. case_decide; [done|].
      by apply orb_false_elim in Hq as [? _]. }
    exists (if decide (f = []) then FieldStart else InBare). split; [|by case_decide].
    rewrite read_bare, app_nil_r by auto. by destruct f.
Qed.

Lemma read_line fs row s :
  fs ≠ [] →
  csv_read FieldStart [] row (csv_line fs ++ s) =
    rows ← csv_read FieldStart [] [] s; Some ((reverse row ++ fs) :: rows).
Proof.
  unfold csv_line. intros Hne. revert row. induction fs as [|f fs IH]; intros row; [done|].
  destruct fs as [|g fs].
  - cbn [csv_fields]. rewrite <-(assoc_L (++)). cbn [app].
    destruct (read_field f row newline s) as (w & -> & Hw); [by right|].
    assert (Hnl : csv_read w (reverse f) row (newline :: s) =
      rows ← csv_read FieldStart [] [] s; Some (reverse (reverse (reverse f) :: row) :: rows)).
    { cbn [csv_read]. destruct w; try done; by rewrite decide_False, decide_True. }
    rewrite Hnl, reverse_involutive, reverse_cons. done.
  - change (csv_fields (f :: g :: fs)) with (csv_field f ++ comma :: csv_fields (g :: fs)).
    rewrite <-!(assoc_L (++)). cbn [app].
    destruct (read_field f row comma (csv_fields (g :: fs) ++ newline :: s)) as (w & -> & Hw); [by left|].
    assert (Hco : ∀ t, csv_read w (reverse f) row (comma :: t) = csv_read FieldStart [] (f :: row) t).
    { intros t. cbn [csv_read]. destruct w; try done; by rewrite decide_True, reverse_involutive. }
    rewrite Hco. specialize (IH ltac:(done) (f :: row)). rewrite <-(assoc_L (++)) in IH. cbn [app] in IH. rewrite IH.
    rewrite reverse_cons, <-(assoc_L (++)). done.
Qed.

(** ** The columns *)

(** The snapshot a row stands for. *)
Definition decode_row (row : list text) : option Stats :=
  match row with
  | [total; hits; misses; hit_rate; byte_hit_rate; served; fetched; mean; p50; p95; p99; capacity; used;
     metadata; objects; policy; switches; overhead; delay; accuracy; evictions; backend] =>
      total ← read_u64 total; hits ← read_u64 hits; misses ← read_u64 misses;
      hit_rate ← read_float hit_rate; byte_hit_rate ← read_float byte_hit_rate;
      served ← ParseInt served; fetched ← ParseInt fetched;
      mean ← read_float mean; p50 ← read_float p50; p95 ← read_float p95; p99 ← read_float p99;
      capacity ← ParseInt capacity; used ← ParseInt used; metadata ← ParseInt metadata; objects ← ParseInt objects;
      switches ← read_u64 switches; overhead ← read_float overhead;
      delay ← read_float delay; accuracy ← read_float accuracy;
      evictions ← read_u64 evictions; backend ← read_u64 backend;
      Some {| TotalRequests := total; Hits := hits; Misses := misses; HitRate := hit_rate;
              ByteHitRate := byte_hit_rate; BytesServed := served; BytesFetched := fetched;
              LatencyMean := mean; LatencyP50 := p50; LatencyP95 := p95; LatencyP99 := p99;
              SCapacity := capacity; SBytesUsed := used; SMetadataBytes := metadata; SObjectCount := objects;
              CurrentPolicy := implode policy; PolicySwitches := switches; SwitchOverheadTotalMs := overhead;
              DetectionDelayMean := delay; DetectionAccuracy := accuracy;
              Evictions := evictions; BackendRequests := backend |}
  | _ => None
  end.

Lemma decode_row_Row s : stats_ok s → decode_row (explode <$> Row s) = Some s.
Proof.
  intros [Hu Hi Hf]. unfold stats_u64, stats_i64, stats_floats in *. split_forall. unfold Row. cbn [fmap list_fmap decode_row].
  rewrite !read_u64_format, !read_float_format, implode_explode by done. cbn [mbind option_bind].
  unfold format_Z. rewrite !ParseInt_pretty by done. cbn. by destruct s.
Qed.

Section theorems.
Context `{GoRuntime} {E : Type}.

(** C31: a CSV file written is the snapshot.  Whatever operations the collector
    has recorded, when the file operations succeed the file read back is two
    rows of 22 columns, the header and a row that decodes to exactly the
    snapshot: every counter and every bit of every rate and latency, all
    finite, and the policy's name whatever characters it has.  [WriteCSV]
    fails exactly when a file operation does, with the error of the first. *)
Theorem WriteCSV_reads_back (fs : file_ops E) path os :
  Forall op_typed os →
  let c := run_ops os NewCollector in
  match WriteCSV fs path c with
  | inr data => (∃ row, read_csv data = Some [explode <$> CSVHeader; row] ∧ decode_row row = Some (Snapshot c) ∧
        length row = 22%nat ∧ length CSVHeader = 22%nat) ∧
      Forall (λ f, finite64 f = true) (stats_floats (Snapshot c)) ∧
      create_err fs path = None ∧ write_err fs data = None ∧ close_err fs = None
  | inl (WriteFailed p e) => p = path ∧ (create_err fs path = Some e ∨
      create_err fs path = None ∧ write_err fs (csv_data c) = Some e)
  | inl (CloseFailed e) => create_err fs path = None ∧ close_err fs = Some e
  end.
Proof.
  intros Hos c. pose proof (snapshot_ok_of_history os Hos) as Hok. fold c in Hok.
  unfold WriteCSV. destruct (create_err fs path) as [e|] eqn:Hc; [by auto|]. cbv zeta.
  destruct (write_err fs (csv_data c)) as [e|] eqn:Hw; [by eauto|]. destruct (close_err fs) as [e|] eqn:Hcl; [done|].
  split_and!; try done; [|apply Hok]. exists (explode <$> Row (Snapshot c)). split_and!; [|by apply decode_row_Row|done|done].
  unfold read_csv, csv_data. rewrite read_line by done.
  rewrite <-(app_nil_r (csv_line (explode <$> Row _))), read_line by done. done.
Qed.
End theorems.

(** A file system that never fails; a hit of 3 ns and a miss, under a policy
    with an awkward name. *)
Definition all_succeed : file_ops unit :=
  {| create_err _ := None; write_err _ := None; close_err := None |}.

Definition csv_sample : list op := [ORequest sample_request true 3; ORequest sample_request false 7; OSetPolicy "a,b"].

Lemma WriteCSV_reads_back_witness :
  ∃ data row, WriteCSV all_succeed "out.csv" (run_ops csv_sample NewCollector) = inr data ∧
    read_csv data = Some [explode <$> CSVHeader; row] ∧
    (HitRate <$> decode_row row) = Some (f64_of_ratio 1 2) ∧ (CurrentPolicy <$> decode_row row) = Some "a,b"%string.
Proof.
  pose proof (WriteCSV_reads_back all_succeed "out.csv" csv_sample ltac:(repeat constructor)) as Hw.
  cbv zeta in Hw. change (WriteCSV all_succeed "out.csv" (run_ops csv_sample NewCollector))
    with (@inr (csv_error unit) _ (csv_data (run_ops csv_sample NewCollector))) in Hw |- *.
  destruct Hw as ((row & Hr & Hd & _) & _). exists (csv_data (run_ops csv_sample NewCollector)), row.
  split; [reflexivity|]. split; [exact Hr|]. rewrite Hd. split; vm_compute; reflexivity.
Defined.
