(* ===== verification/StatsJSON.v ===== *)
(** * metrics/collector.go: WriteJSON

    The snapshot as an indented JSON object, in the order of the fields of
    [Stats] and under their tags.  An infinity or NaN has no JSON form: the
    encoder returns an error.  The file system is an argument. *)
From S2P Require Import Prelude GoFloat FloatFacts GoText FormatFloat Json Types Histogram Collector Snapshot.

(** encoding/json's [UnsupportedValueError]. *)
Definition unsupported (f : float64) : bool :=
  match f with S754_infinity _ | S754_nan => true | _ => false end.

Fixpoint first_unsupported (fs : list float64) : option float64 :=
  match fs with
  | [] => None
  | f :: fs => if unsupported f then Some f else first_unsupported fs
  end.

Definition tag (s : string) (v : json) : text * json := (explode s, v).

Definition stats_json (s : Stats) : json :=
  JObj [
    tag "total_requests" (jint (TotalRequests s));
    tag "hits" (jint (Hits s));
    tag "misses" (jint (Misses s));
    tag "hit_rate" (jfloat (HitRate s));
    tag "byte_hit_rate" (jfloat (ByteHitRate s));
    tag "bytes_served" (jint (BytesServed s));
    tag "bytes_fetched" (jint (BytesFetched s));
    tag "latency_mean_ms" (jfloat (LatencyMean s));
    tag "latency_p50_ms" (jfloat (LatencyP50 s));
    tag "latency_p95_ms" (jfloat (LatencyP95 s));
    tag "latency_p99_ms" (jfloat (LatencyP99 s));
    tag "capacity" (jint (SCapacity s));
    tag "bytes_used" (jint (SBytesUsed s));
    tag "metadata_bytes" (jint (SMetadataBytes s));
    tag "object_count" (jint (SObjectCount s));
    tag "current_policy" (jstring (CurrentPolicy s));
    tag "policy_switches" (jint (PolicySwitches s));
    tag "switch_overhead_total_ms" (jfloat (SwitchOverheadTotalMs s));
    tag "detection_delay_mean" (jfloat (DetectionDelayMean s));
    tag "detection_accuracy" (jfloat (DetectionAccuracy s));
    tag "evictions" (jint (Evictions s));
    tag "backend_requests" (jint (BackendRequests s))].

Inductive json_error (E : Type) :=
| EncodeFailed (path : string) (f : float64)
| JSONWriteFailed (path : string) (e : E).
Arguments EncodeFailed {E}.
Arguments JSONWriteFailed {E}.

(** [json.MarshalIndent(s, "", "  ")] and the newline. *)
Definition json_data (s : Stats) : text := write_json indented 0 (stats_json s) ++ [newline].

Section write.
Context `{GoRuntime} {E : Type}.

(** The contents of the file, or the error; [writeFile] is the error of
    [os.WriteFile], if any. *)
Definition WriteJSON (writeFile : string → text → option E) (path : string) (c : Collector) : json_error E + text :=
  let s := Snapshot c in
  match first_unsupported (stats_floats s) with
  | Some f => inl (EncodeFailed path f)
  | None =>
      let data := json_data s in
      match writeFile path data with
      | Some e => inl (JSONWriteFailed path e)
      | None => inr data
      end
  end.
End write.

(** ** Reading the object back *)

Fixpoint assoc (k : text) (ms : list (text * json)) : option json :=
  match ms with
  | [] => None
  | (k', v) :: ms => if decide (k = k') then Some v else assoc k ms
  end.

Definition member (k : string) (v : json) : option json :=
  match v with JObj ms => assoc (explode k) ms | _ => None end.

Definition member_u64 (k : string) (v : json) : option Z :=
  match member k v with Some (JNum t) => read_u64 t | _ => None end.
Definition member_i64 (k : string) (v : json) : option Z :=
  match member k v with Some (JNum t) => ParseInt t | _ => None end.
Definition member_float (k : string) (v : json) : option float64 :=
  match member k v with Some (JNum t) => read_float t | _ => None end.
Definition member_string (k : string) (v : json) : option string :=
  match member k v with Some (JStr t) => Some (implode t) | _ => None end.

Definition decode_stats (v : json) : option Stats :=
  total ← member_u64 "total_requests" v; hits ← member_u64 "hits" v; misses ← member_u64 "misses" v;
  hit_rate ← member_float "hit_rate" v; byte_hit_rate ← member_float "byte_hit_rate" v;
  served ← member_i64 "bytes_served" v; fetched ← member_i64 "bytes_fetched" v;
  mean ← member_float "latency_mean_ms" v; p50 ← member_float "latency_p50_ms" v;
  p95 ← member_float "latency_p95_ms" v; p99 ← member_float "latency_p99_ms" v;
  capacity ← member_i64 "capacity" v; used ← member_i64 "bytes_used" v;
  metadata ← member_i64 "metadata_bytes" v; objects ← member_i64 "object_count" v;
  policy ← member_string "current_policy" v; switches ← member_u64 "policy_switches" v;
  overhead ← member_float "switch_overhead_total_ms" v;
  delay ← member_float "detection_delay_mean" v; accuracy ← member_float "detection_accuracy" v;
  evictions ← member_u64 "evictions" v; backend ← member_u64 "backend_requests" v;
  Some {| TotalRequests := total; Hits := hits; Misses := misses; HitRate := hit_rate;
          ByteHitRate := byte_hit_rate; BytesServed := served; BytesFetched := fetched;
          LatencyMean := mean; LatencyP50 := p50; LatencyP95 := p95; LatencyP99 := p99;
          SCapacity := capacity; SBytesUsed := used; SMetadataBytes := metadata; SObjectCount := objects;
          CurrentPolicy := policy; PolicySwitches := switches; SwitchOverheadTotalMs := overhead;
          DetectionDelayMean := delay; DetectionAccuracy := accuracy;
          Evictions := evictions; BackendRequests := backend |}.

(** A snapshot whose policy is named [n]. *)
Definition with_policy_name (n : PolicyName) (s : Stats) : Stats :=
  {| TotalRequests := TotalRequests s; Hits := Hits s; Misses := Misses s; HitRate := HitRate s;
     ByteHitRate := ByteHitRate s; BytesServed := BytesServed s; BytesFetched := BytesFetched s;
     LatencyMean := LatencyMean s; LatencyP50 := LatencyP50 s; LatencyP95 := LatencyP95 s; LatencyP99 := LatencyP99 s;
     SCapacity := SCapacity s; SBytesUsed := SBytesUsed s; SMetadataBytes := SMetadataBytes s;
     SObjectCount := SObjectCount s; CurrentPolicy := n; PolicySwitches := PolicySwitches s;
     SwitchOverheadTotalMs := SwitchOverheadTotalMs s; DetectionDelayMean := DetectionDelayMean s;
     DetectionAccuracy := DetectionAccuracy s; Evictions := Evictions s; BackendRequests := BackendRequests s |}.

Definition valid_name (n : PolicyName) : PolicyName := implode (to_valid (explode n)).

Lemma first_unsupported_finite fs : Forall (λ f, finite64 f = true) fs → first_unsupported fs = None.
Proof. induction 1 as [|f fs Hf _ IH]; [done|]. cbn. by destruct f. Qed.

Lemma stats_json_ok s : stats_ok s → json_ok (stats_json s).
Proof.
  intros [_ _ Hf]. unfold stats_floats in Hf. split_forall.
  repeat (split; [first [apply jint_ok | by apply json_float_ok | exact I]|]). exact I.
Qed.

(** The members as they are read. *)
Lemma member_clean k v ms :
  forallb (λ m, forallb (λ c, byte_val c <? 128) m.1) ms = true →
  assoc (explode k) ms = Some v → member k (clean (JObj ms)) = Some (clean v).
Proof.
  unfold member. induction ms as [|[k' v'] ms IH]; [done|]. cbn. intros [Hk Hms]%andb_prop Ha.
  rewrite to_valid_ascii by done. case_decide; [by simplify_eq|auto].
Qed.

Lemma member_u64_clean k z ms :
  assoc (explode k) ms = Some (jint z) → forallb (λ m, forallb (λ c, byte_val c <? 128) m.1) ms = true →
  is_u64 z → member_u64 k (clean (JObj ms)) = Some z.
Proof. intros Ha Hms Hz. unfold member_u64. rewrite (member_clean k _ ms Hms Ha). cbn. by apply read_u64_format. Qed.

Lemma member_i64_clean k z ms :
  assoc (explode k) ms = Some (jint z) → forallb (λ m, forallb (λ c, byte_val c <? 128) m.1) ms = true →
  is_i64 z → member_i64 k (clean (JObj ms)) = Some z.
Proof. intros Ha Hms Hz. unfold member_i64. rewrite (member_clean k _ ms Hms Ha). by apply ParseInt_pretty. Qed.

Lemma member_float_clean k f ms :
  assoc (explode k) ms = Some (jfloat f) → forallb (λ m, forallb (λ c, byte_val c <? 128) m.1) ms = true →
  finite64 f = true → member_float k (clean (JObj ms)) = Some f.
Proof.
  intros Ha Hms Hf. unfold member_float. rewrite (member_clean k _ ms Hms Ha). cbn. unfold read_float, json_float.
  by rewrite format_float_reads.
Qed.

Lemma member_string_clean k n ms :
  forallb (λ m, forallb (λ c, byte_val c <? 128) m.1) ms = true →
  assoc (explode k) ms = Some (jstring n) → member_string k (clean (JObj ms)) = Some (valid_name n).
Proof. intros Hms Ha. unfold member_string. by rewrite (member_clean k _ ms Hms Ha). Qed.

Lemma decode_stats_json s :
  stats_ok s → decode_stats (clean (stats_json s)) = Some (with_policy_name (valid_name (CurrentPolicy s)) s).
Proof.
  intros [Hu Hi Hf]. unfold stats_u64, stats_i64, stats_floats in *. split_forall.
  unfold decode_stats, stats_json.
  repeat (first [erewrite member_u64_clean by (reflexivity || done) | erewrite member_i64_clean by (reflexivity || done)
    | erewrite member_float_clean by (reflexivity || done) | erewrite member_string_clean by reflexivity];
    cbn [mbind option_bind]).
  done.
Qed.

Section theorems.
Context `{GoRuntime} {E : Type}.

(** C32: a JSON file written is the snapshot.  Whatever operations the
    collector has recorded, [WriteJSON] never fails to encode (every rate and
    latency is finite) and fails exactly when the file cannot be written; the
    file read back is an object that decodes to exactly the snapshot: every
    counter and every bit of every float, and the policy's name with what is
    not valid UTF-8 replaced. *)
Theorem WriteJSON_reads_back (writeFile : string → text → option E) path os :
  Forall op_typed os →
  let c := run_ops os NewCollector in
  match WriteJSON writeFile path c with
  | inr data => writeFile path data = None ∧
      ∃ v, read_json data = Some v ∧
        decode_stats v = Some (with_policy_name (valid_name (CurrentPolicy (Snapshot c))) (Snapshot c))
  | inl (EncodeFailed _ _) => False
  | inl (JSONWriteFailed p e) => p = path ∧ writeFile path (json_data (Snapshot c)) = Some e
  end.
Proof.
  intros Hos c. pose proof (snapshot_ok_of_history os Hos) as Hok. fold c in Hok.
  unfold WriteJSON. cbv zeta. rewrite first_unsupported_finite by apply Hok.
  destruct (writeFile path (json_data (Snapshot c))) as [e|] eqn:Hw; [done|]. split; [done|].
  exists (clean (stats_json (Snapshot c))). split; [|by apply decode_stats_json].
  apply read_json_write; [apply indented_ok|by apply stats_json_ok|done].
Qed.
End theorems.

(** A hit of 3 ns and a miss, under a policy whose name needs escapes. *)
Lemma WriteJSON_reads_back_witness :
  ∃ data v, WriteJSON (E := unit) (λ _ _, None) "out.json"
      (run_ops [ORequest sample_request true 3; ORequest sample_request false 7; OSetPolicy "a<b"] NewCollector) = inr data ∧
    read_json data = Some v ∧ (HitRate <$> decode_stats v) = Some (f64_of_ratio 1 2) ∧
    (CurrentPolicy <$> decode_stats v) = Some "a<b"%string.
Proof.
  pose proof (WriteJSON_reads_back (E := unit) (λ _ _, None) "out.json"
    [ORequest sample_request true 3; ORequest sample_request false 7; OSetPolicy "a<b"] ltac:(repeat constructor)) as Hw.
  cbv zeta in Hw. set (c := run_ops _ NewCollector) in *.
  destruct (WriteJSON (λ _ _, None) "out.json" c) as [[p f|p e]|data] eqn:Hd; [destruct Hw|by destruct Hw|].
  destruct Hw as (_ & v & Hr & Hv). exists data, v. split; [reflexivity|]. split; [exact Hr|]. rewrite Hv.
  split; vm_compute; reflexivity.
Defined.
