(* ===== verification/Store.v ===== *)
(** * cache/store.go: the object store

    A map from keys to entries with byte accounting.  Entries are mutable
    objects the store and the policy both point at, so the store is a heap of
    entries and a map from keys to addresses; an entry removed from the map
    stays in the heap, where a pointer to it is still valid.  The abstract
    state is [contents], the map from the resident keys to their entries. *)
From S2P Require Import Prelude GoFloat Types Policy.

Inductive store_error := ErrObjectTooLarge | ErrCapacityExceeded | ErrInvalidSize.

#[global] Instance store_error_eq_dec : EqDecision store_error.
Proof. solve_decision. Defined.

Record Store := {
  items : gmap string eptr;
  heap : gmap eptr Entry;
  bytes : Z;
  keyBytes : Z;
  capacity : Z;
}.

Definition NewStore (cap : Z) : Store :=
  {| items := ∅; heap := ∅; bytes := 0; keyBytes := 0; capacity := cap |}.

Definition Get (k : string) (s : Store) : option eptr := items s !! k.

Definition set_entry (l : eptr) (e : Entry) (s : Store) : Store :=
  {| items := items s; heap := <[l := e]> (heap s); bytes := bytes s; keyBytes := keyBytes s;
     capacity := capacity s |}.

Definition touched (now : Z) (e : Entry) : Entry :=
  {| Key := Key e; EValue := EValue e; Size := Size e; InsertionTime := InsertionTime e;
     LastAccessTime := now; AccessCount := u32 (AccessCount e + 1) |}.

Definition Touch (k : string) (now : Z) (s : Store) : outcome (Store * option eptr) :=
  match items s !! k with
  | None => Ret (s, None)
  | Some l => e ← or_panic (heap s !! l); Ret (set_entry l (touched now e) s, Some l)
  end.

Definition Contains (k : string) (s : Store) : bool := bool_decide (is_Some (items s !! k)).

(** What replacing the value of an entry makes of it. *)
Definition replaced (val : Value) (size now : Z) (e : Entry) : Entry :=
  {| Key := Key e; EValue := val; Size := size; InsertionTime := InsertionTime e;
     LastAccessTime := now; AccessCount := u32 (AccessCount e + 1) |}.

Definition new_entry (k : string) (val : Value) (size now : Z) : Entry :=
  {| Key := k; EValue := val; Size := size; InsertionTime := now; LastAccessTime := now;
     AccessCount := 1 |}.

Definition key_len (k : string) : Z := Z.of_nat (String.length k).

Definition Insert (k : string) (val : Value) (size now : Z) (s : Store)
    : outcome (Store * (store_error + eptr)) :=
  if size <? 0 then Ret (s, inl ErrInvalidSize)
  else if size >? capacity s then Ret (s, inl ErrObjectTooLarge)
  else
    match items s !! k with
    | Some l =>
        existing ← or_panic (heap s !! l);
        let projected := i64 (i64 (bytes s + size) - Size existing) in
        if projected >? capacity s then Ret (s, inl ErrCapacityExceeded)
        else
          Ret ({| items := items s; heap := <[l := replaced val size now existing]> (heap s);
                  bytes := i64 (i64 (bytes s - Size existing) + size);
                  keyBytes := keyBytes s; capacity := capacity s |}, inr l)
    | None =>
        let projected := i64 (bytes s + size) in
        if projected >? capacity s then Ret (s, inl ErrCapacityExceeded)
        else
          let l := fresh (dom (heap s)) in
          Ret ({| items := <[k := l]> (items s);
                  heap := <[l := new_entry k val size now]> (heap s);
                  bytes := i64 (bytes s + size); keyBytes := i64 (keyBytes s + key_len k);
                  capacity := capacity s |}, inr l)
    end.

Definition Remove (k : string) (s : Store) : outcome (Store * option eptr) :=
  match items s !! k with
  | None => Ret (s, None)
  | Some l =>
      e ← or_panic (heap s !! l);
      Ret ({| items := delete k (items s); heap := heap s; bytes := i64 (bytes s - Size e);
              keyBytes := i64 (keyBytes s - key_len k); capacity := capacity s |}, Some l)
  end.

Definition Len (s : Store) : Z := Z.of_nat (size (items s)).
Definition Bytes (s : Store) : Z := bytes s.
Definition KeyBytes (s : Store) : Z := keyBytes s.
Definition Capacity (s : Store) : Z := capacity s.
Definition Free (s : Store) : Z := i64 (capacity s - bytes s).

Definition Clear (s : Store) : Store :=
  {| items := ∅; heap := heap s; bytes := 0; keyBytes := 0; capacity := capacity s |}.

Section entries.
Context `{GoRuntime}.

Definition entries_step (s : Store) (k : string) (out : list (eptr * Entry))
    : outcome (list (eptr * Entry)) :=
  l ← or_panic (items s !! k); e ← or_panic (heap s !! l); Ret (out ++ [(l, e)]).

(** The pointers of the snapshot, with what they point at. *)
Definition Entries (tick : nat) (s : Store) : outcome (list (eptr * Entry)) :=
  for_each (entries_step s) (range_keys tick (items s)) [].
End entries.

(** ** The abstract state and the invariant *)

Definition contents (s : Store) : gmap string Entry := omap (λ l, heap s !! l) (items s).

Definition payload (m : gmap string Entry) : Z := map_sum (λ _ e, Size e) m.
Definition key_bytes (m : gmap string Entry) : Z := map_sum (λ k _, key_len k) m.

(** The largest capacity for which the sum of two sizes is in range. *)
Definition maxCapacity : Z := 2 ^ 62 - 1.

Record store_inv (s : Store) : Prop := {
  st_items k l : items s !! k = Some l → ∃ e, heap s !! l = Some e ∧ Key e = k;
  st_sizes k e : contents s !! k = Some e → 0 ≤ Size e;
  st_bytes : bytes s = payload (contents s);
  st_keyBytes : keyBytes s = i64 (key_bytes (contents s));
  st_bound : bytes s ≤ capacity s;
  st_capacity : 0 ≤ capacity s ≤ maxCapacity;
}.

Lemma contents_lookup s k : contents s !! k = l ← items s !! k; heap s !! l.
Proof. unfold contents. by rewrite lookup_omap. Qed.

Lemma contents_Some s k e :
  contents s !! k = Some e ↔ ∃ l, items s !! k = Some l ∧ heap s !! l = Some e.
Proof. rewrite contents_lookup. destruct (items s !! k); simpl; naive_solver. Qed.

Lemma contents_None s k : store_inv s → contents s !! k = None ↔ items s !! k = None.
Proof.
  intros Hi. rewrite contents_lookup. destruct (items s !! k) as [l|] eqn:E; simpl; [|done].
  destruct (st_items s Hi k l E) as (e & -> & _). done.
Qed.

Lemma contents_item s k l : store_inv s → items s !! k = Some l →
  ∃ e, heap s !! l = Some e ∧ contents s !! k = Some e ∧ Key e = k.
Proof.
  intros Hi Hk. destruct (st_items s Hi k l Hk) as (e & He & <-). exists e.
  rewrite contents_Some. eauto.
Qed.

Lemma contents_key s k e : store_inv s → contents s !! k = Some e → Key e = k.
Proof.
  intros Hi (l & Hk & He)%contents_Some. destruct (st_items s Hi k l Hk) as (e' & He' & <-). congruence.
Qed.

Lemma items_inj s k j l : store_inv s → items s !! k = Some l → items s !! j = Some l → k = j.
Proof.
  intros Hi Hk Hj. destruct (st_items s Hi k l Hk) as (e & He & <-).
  destruct (st_items s Hi j l Hj) as (e' & He' & <-). congruence.
Qed.

Lemma payload_nonneg s : store_inv s → 0 ≤ payload (contents s).
Proof. intros Hi. apply map_sum_nonneg. apply (st_sizes s Hi). Qed.

Lemma bytes_range s : store_inv s → 0 ≤ bytes s ≤ maxCapacity.
Proof. intros Hi. pose proof (payload_nonneg s Hi). destruct Hi as [_ _ Hb _ Hle Hc]. rewrite Hb in *. lia. Qed.

Lemma size_le_payload s k e : store_inv s → contents s !! k = Some e → 0 ≤ Size e ≤ payload (contents s).
Proof.
  intros Hi Hk. split; [by eapply st_sizes|]. unfold payload. rewrite (map_sum_delete _ _ _ _ Hk).
  cbn beta. rewrite <-(Z.add_0_r (Size e)) at 1. apply Z.add_le_mono_l, map_sum_nonneg.
  intros j x [_ Hj]%lookup_delete_Some. by eapply st_sizes.
Qed.

(** ** The effect of a change of the heap or of the map on [contents] *)

Lemma contents_set_heap s k l e bs kb c :
  store_inv s → items s !! k = Some l →
  contents {| items := items s; heap := <[l := e]> (heap s); bytes := bs; keyBytes := kb; capacity := c |}
  = <[k := e]> (contents s).
Proof.
  intros Hi Hk. apply map_eq. intros j. rewrite contents_lookup; simpl.
  destruct (decide (j = k)) as [->|Hj].
  - by rewrite Hk, lookup_insert_eq; simpl; rewrite lookup_insert_eq.
  - rewrite lookup_insert_ne, contents_lookup by done. destruct (items s !! j) as [l'|] eqn:Ej; [|done].
    simpl. rewrite lookup_insert_ne; [done|]. intros <-. destruct Hj. by eapply items_inj.
Qed.

Lemma contents_delete s k bs kb c :
  contents {| items := delete k (items s); heap := heap s; bytes := bs; keyBytes := kb; capacity := c |}
  = delete k (contents s).
Proof.
  apply map_eq. intros j. rewrite contents_lookup; simpl. destruct (decide (j = k)) as [->|Hj].
  - by rewrite !lookup_delete_eq.
  - by rewrite !lookup_delete_ne, contents_lookup.
Qed.

Lemma contents_alloc s k l e bs kb c :
  store_inv s → items s !! k = None → heap s !! l = None →
  contents {| items := <[k := l]> (items s); heap := <[l := e]> (heap s); bytes := bs; keyBytes := kb;
              capacity := c |}
  = <[k := e]> (contents s).
Proof.
  intros Hi Hk Hl. apply map_eq. intros j. rewrite contents_lookup; simpl.
  destruct (decide (j = k)) as [->|Hj].
  - by rewrite !lookup_insert_eq; simpl; rewrite lookup_insert_eq.
  - rewrite !lookup_insert_ne, contents_lookup by done. destruct (items s !! j) as [l'|] eqn:Ej; [|done].
    simpl. destruct (st_items s Hi j l' Ej) as (e' & He' & _). rewrite lookup_insert_ne; congruence.
Qed.

(** ** The operations refine those of a bounded map *)

(** What [Insert] leaves under the key: a fresh entry, or the old one with its
    insertion time kept and its access count incremented. *)
Definition inserted (k : string) (val : Value) (size now : Z) (old : option Entry) : Entry :=
  match old with Some e => replaced val size now e | None => new_entry k val size now end.

Definition old_size (o : option Entry) : Z := match o with Some e => Size e | None => 0 end.

(** Whether an object fits in the place of the one it replaces. *)
Definition fits (k : string) (size cap : Z) (m : gmap string Entry) : Prop :=
  payload m - old_size (m !! k) + size ≤ cap.
#[global] Instance fits_dec k size cap m : Decision (fits k size cap m) := decide (_ ≤ _).

(** The specification of [Insert] on the map. *)
Definition spec_insert (k : string) (val : Value) (size now cap : Z) (m : gmap string Entry)
    : store_error + gmap string Entry :=
  if decide (size < 0) then inl ErrInvalidSize
  else if decide (cap < size) then inl ErrObjectTooLarge
  else if decide (fits k size cap m) then inr (<[k := inserted k val size now (m !! k)]> m)
  else inl ErrCapacityExceeded.

Lemma payload_insert k e m : payload (<[k := e]> m) = payload m - old_size (m !! k) + Size e.
Proof.
  unfold payload. destruct (m !! k) as [e0|] eqn:Hk; simpl.
  - by rewrite (map_sum_update _ _ _ e0).
  - rewrite map_sum_insert by done. lia.
Qed.

Lemma payload_delete k e m : m !! k = Some e → payload m = Size e + payload (delete k m).
Proof. apply (map_sum_delete (λ _ e, Size e)). Qed.

Lemma Insert_replace k l val size now s e :
  store_inv s → items s !! k = Some l → heap s !! l = Some e → contents s !! k = Some e → Key e = k →
  0 ≤ size ≤ capacity s → fits k size (capacity s) (contents s) →
  let s' := {| items := items s; heap := <[l := replaced val size now e]> (heap s);
               bytes := i64 (i64 (bytes s - Size e) + size);
               keyBytes := keyBytes s; capacity := capacity s |} in
  store_inv s' ∧ contents s' = <[k := replaced val size now e]> (contents s).
Proof.
  intros Hi Hk Hl He Hkey Hsz Hfit s'.
  pose proof (contents_set_heap s k l (replaced val size now e) (bytes s') (keyBytes s') (capacity s) Hi Hk) as Hc.
  change (contents s' = <[k := replaced val size now e]> (contents s)) in Hc. split; [|done].
  pose proof (size_le_payload s k e Hi He) as Hle. pose proof (bytes_range s Hi) as Hr.
  unfold fits in Hfit. rewrite He in Hfit. simpl in Hfit. unfold maxCapacity in *.
  pose proof (st_bytes s Hi) as Hb. pose proof (st_capacity s Hi) as Hcap.
  assert (Hb' : bytes s' = payload (contents s')).
  { rewrite Hc, payload_insert, He. simpl. rewrite i64_add_l, i64_small; unfold is_i64, maxCapacity in *; lia. }
  split; try done.
  - intros j l' Hj. simpl in *. destruct (decide (l' = l)) as [->|Hne].
    + rewrite lookup_insert_eq. eexists. split; [done|]. simpl. rewrite Hkey. by eapply items_inj.
    + rewrite lookup_insert_ne by done. by apply (st_items s Hi).
  - intros j e'. rewrite Hc, lookup_insert_Some. intros [[<- <-]|[_ Hj]]; [simpl; lia|by eapply st_sizes].
  - rewrite Hc. simpl. rewrite (st_keyBytes s Hi). unfold key_bytes. f_equal.
    rewrite (map_sum_update _ _ _ e) by done. lia.
  - rewrite Hb', Hc, payload_insert, He. simpl. lia.
Qed.

Lemma Insert_alloc k l val size now s :
  store_inv s → items s !! k = None → heap s !! l = None →
  0 ≤ size ≤ capacity s → fits k size (capacity s) (contents s) →
  let s' := {| items := <[k := l]> (items s); heap := <[l := new_entry k val size now]> (heap s);
               bytes := i64 (bytes s + size); keyBytes := i64 (keyBytes s + key_len k);
               capacity := capacity s |} in
  store_inv s' ∧ contents s' = <[k := new_entry k val size now]> (contents s).
Proof.
  intros Hi Hk Hl Hsz Hfit s'.
  pose proof (contents_alloc s k l (new_entry k val size now) (bytes s') (keyBytes s') (capacity s) Hi Hk Hl) as Hc.
  change (contents s' = <[k := new_entry k val size now]> (contents s)) in Hc. split; [|done].
  pose proof Hk as Hn. rewrite <-contents_None in Hn by done.
  pose proof (bytes_range s Hi) as Hr. unfold fits in Hfit. rewrite Hn in Hfit. simpl in Hfit.
  pose proof (st_bytes s Hi) as Hb. pose proof (st_capacity s Hi) as Hcap. unfold maxCapacity in *.
  assert (Hb' : bytes s' = payload (contents s')).
  { rewrite Hc, payload_insert, Hn. simpl. rewrite i64_small; unfold is_i64; lia. }
  split; try done.
  - intros j l'. simpl. rewrite lookup_insert_Some. intros [[<- <-]|[Hj Hjl]].
    + rewrite lookup_insert_eq. eauto.
    + destruct (st_items s Hi j l' Hjl) as (e & He & Hkey). rewrite lookup_insert_ne by congruence. eauto.
  - intros j e'. rewrite Hc, lookup_insert_Some. intros [[<- <-]|[_ Hj]]; [simpl; lia|by eapply st_sizes].
  - rewrite Hc. simpl. rewrite (st_keyBytes s Hi). unfold key_bytes. rewrite map_sum_insert by done.
    rewrite i64_add_l. f_equal. lia.
  - rewrite Hb', Hc, payload_insert, Hn. simpl. lia.
Qed.

(** [Insert] on every branch, with the address it returns. *)
Lemma Insert_spec k val size now s :
  store_inv s → is_i64 size →
  ∃ s' r, Insert k val size now s = Ret (s', r) ∧ store_inv s' ∧ capacity s' = capacity s ∧
    match r with
    | inl err => s' = s ∧ spec_insert k val size now (capacity s) (contents s) = inl err
    | inr l => items s' = <[k := l]> (items s) ∧
        spec_insert k val size now (capacity s) (contents s) = inr (contents s')
    end.
Proof.
  intros Hi Hsize. unfold Insert, spec_insert.
  destruct (Z.ltb_spec size 0) as [|H0]; [rewrite decide_True by done; eauto 10|].
  rewrite decide_False by lia.
  destruct (Z.gtb_spec size (capacity s)) as [|H1]; [rewrite decide_True by lia; eauto 10|].
  rewrite decide_False by lia.
  pose proof (bytes_range s Hi) as Hr. pose proof (st_bytes s Hi) as Hb.
  pose proof (st_capacity s Hi) as Hcap. unfold maxCapacity in *.
  destruct (items s !! k) as [l|] eqn:Hk.
  - destruct (contents_item s k l Hi Hk) as (e & He & Hc & Hkey). rewrite He. cbn [or_panic mbind outcome_bind].
    pose proof (size_le_payload s k e Hi Hc) as Hle.
    assert (Hproj : i64 (i64 (bytes s + size) - Size e) = payload (contents s) - Size e + size).
    { rewrite i64_sub_l, i64_small; unfold is_i64; lia. }
    rewrite Hproj. destruct (Z.gtb_spec (payload (contents s) - Size e + size) (capacity s)) as [Hgt|Hngt].
    + rewrite decide_False by (unfold fits; rewrite Hc; simpl; lia). eauto 10.
    + assert (Hfit : fits k size (capacity s) (contents s)) by (unfold fits; rewrite Hc; simpl; lia).
      rewrite decide_True by done. do 2 eexists. split; [done|].
      destruct (Insert_replace k l val size now s e) as [Hi' Hc']; [done..|lia|done|].
      split_and!; [done|done| |].
      * simpl. by rewrite insert_id.
      * rewrite Hc', Hc. done.
  - assert (Hc : contents s !! k = None) by (by rewrite contents_None).
    rewrite (i64_small (bytes s + size)) by (unfold is_i64; lia).
    destruct (Z.gtb_spec (bytes s + size) (capacity s)) as [Hgt|Hngt].
    + rewrite decide_False by (unfold fits; rewrite Hc; simpl; lia). eauto 10.
    + assert (Hfit : fits k size (capacity s) (contents s)) by (unfold fits; rewrite Hc; simpl; lia).
      rewrite decide_True by done. do 2 eexists. split; [done|].
      destruct (Insert_alloc k (fresh (dom (heap s))) val size now s) as [Hi' Hc'];
        [done|done|apply not_elem_of_dom, is_fresh|lia|done|].
      rewrite (i64_small (bytes s + size)) in Hi', Hc' by (unfold is_i64; lia).
      split_and!; [done|done|done|]. by rewrite Hc', Hc.
Qed.

Lemma store_inv_New cap : 0 ≤ cap ≤ maxCapacity → store_inv (NewStore cap).
Proof.
  intros Hc. assert (Hcon : contents (NewStore cap) = ∅) by apply omap_empty.
  split; rewrite ?Hcon; simpl; try done. lia.
Qed.

Lemma set_entry_inv k l e e' s :
  store_inv s → items s !! k = Some l → contents s !! k = Some e → Key e' = k → Size e' = Size e →
  store_inv (set_entry l e' s) ∧ contents (set_entry l e' s) = <[k := e']> (contents s).
Proof.
  intros Hi Hk He Hkey Hsz.
  pose proof (contents_set_heap s k l e' (bytes s) (keyBytes s) (capacity s) Hi Hk) as Hc.
  change (contents (set_entry l e' s) = <[k := e']> (contents s)) in Hc. split; [|done].
  assert (Hpay : payload (contents (set_entry l e' s)) = payload (contents s)).
  { rewrite Hc, payload_insert, He. simpl. lia. }
  split; try done.
  - intros j l' Hj. simpl in *. destruct (decide (l' = l)) as [->|Hne].
    + rewrite lookup_insert_eq. exists e'. split; [done|]. rewrite Hkey. by eapply items_inj.
    + rewrite lookup_insert_ne by done. by apply (st_items s Hi).
  - intros j x. rewrite Hc, lookup_insert_Some. intros [[<- <-]|[_ Hj]]; [rewrite Hsz|]; by eapply st_sizes.
  - rewrite Hpay. apply Hi.
  - rewrite Hc. simpl. rewrite (st_keyBytes s Hi). unfold key_bytes. f_equal.
    rewrite (map_sum_update _ _ _ e) by done. lia.
  - apply Hi.
  - apply Hi.
Qed.

Lemma Touch_spec k now s :
  store_inv s →
  ∃ s' r, Touch k now s = Ret (s', r) ∧ store_inv s' ∧ capacity s' = capacity s ∧ items s' = items s ∧
    r = items s !! k ∧ contents s' = alter (touched now) k (contents s).
Proof.
  intros Hi. unfold Touch. destruct (items s !! k) as [l|] eqn:Hk.
  - destruct (contents_item s k l Hi Hk) as (e & He & Hc & Hkey). rewrite He. simpl.
    do 2 eexists. split; [done|].
    destruct (set_entry_inv k l e (touched now e) s Hi Hk Hc Hkey eq_refl) as [Hi' Hc'].
    split_and!; try done. rewrite Hc'. apply map_eq. intros j.
    destruct (decide (j = k)) as [->|]; by simplify_map_eq.
  - exists s, None. split_and!; try done. symmetry. apply alter_id. intros e He.
    by rewrite (proj2 (contents_None s k Hi) Hk) in He.
Qed.

Lemma Remove_spec k s :
  store_inv s →
  ∃ s' r, Remove k s = Ret (s', r) ∧ store_inv s' ∧ capacity s' = capacity s ∧ heap s' = heap s ∧
    items s' = delete k (items s) ∧ r = items s !! k ∧ contents s' = delete k (contents s).
Proof.
  intros Hi. unfold Remove. destruct (items s !! k) as [l|] eqn:Hk.
  2:{ exists s, None. rewrite !delete_id; [done..|by apply contents_None|done]. }
  destruct (contents_item s k l Hi Hk) as (e & He & Hc & Hkey). rewrite He. simpl.
  do 2 eexists. split; [done|].
  pose proof (contents_delete s k (i64 (bytes s - Size e)) (i64 (keyBytes s - key_len k)) (capacity s)) as Hc'.
  pose proof (size_le_payload s k e Hi Hc) as Hle. pose proof (bytes_range s Hi) as Hr.
  pose proof (st_bytes s Hi) as Hb. pose proof (st_capacity s Hi) as Hcap. pose proof (st_bound s Hi) as Hbd.
  assert (Hpay : payload (contents s) = Size e + payload (delete k (contents s))) by (by apply payload_delete).
  unfold maxCapacity in *. rewrite (i64_small (bytes s - Size e)) in * by (unfold is_i64; lia).
  split_and!; try done. split; try rewrite Hc'; simpl.
  - intros j l' [_ Hj]%lookup_delete_Some. by apply (st_items s Hi).
  - intros j x [_ Hj]%lookup_delete_Some. by eapply st_sizes.
  - lia.
  - rewrite (st_keyBytes s Hi). unfold key_bytes. rewrite (map_sum_delete _ (contents s) k e Hc).
    rewrite i64_sub_l. f_equal. apply Z.add_simpl_l.
  - lia.
  - done.
Qed.

Lemma Clear_spec s : store_inv s → store_inv (Clear s) ∧ contents (Clear s) = ∅.
Proof.
  intros Hi. assert (Hc : contents (Clear s) = ∅) by apply omap_empty. split; [|done].
  pose proof (st_capacity s Hi). split; rewrite ?Hc; simpl; try done. lia.
Qed.

Lemma size_contents s : store_inv s → size (contents s) = size (items s).
Proof.
  intros Hi. rewrite <-!size_dom. f_equal. apply set_eq. intros k.
  rewrite !elem_of_dom. pose proof (contents_None s k Hi) as Hn.
  destruct (contents s !! k), (items s !! k); naive_solver.
Qed.

(** [Entries] is the list of the resident entries, each once. *)
Lemma Entries_spec `{GoRuntime} tick s :
  store_inv s →
  ∃ es, Entries tick s = Ret es ∧ NoDup (entry_keys es) ∧
    entries_map es = Some <$> items s ∧ ∀ l e, (l, e) ∈ es → contents s !! Key e = Some e.
Proof.
  intros Hi. unfold Entries.
  destruct (for_each_ind (entries_step s)
    (λ todo es, NoDup todo ∧ (∀ k, k ∈ todo → is_Some (items s !! k)) ∧ NoDup (entry_keys es) ∧
      (∀ l e, (l, e) ∈ es ↔ Key e ∉ todo ∧ items s !! Key e = Some l ∧ heap s !! l = Some e))
    (range_keys tick (items s)) []) as (es & Hrun & _ & _ & Hnd & Hes).
  - split_and!; [apply NoDup_range_keys| |constructor|].
    + intros k Hk. by apply elem_of_range_keys in Hk.
    + intros l e. split; [set_solver|]. intros (Hn & Hk & _). destruct Hn. apply elem_of_range_keys. eauto.
  - intros k todo es ([Hk Hnd]%NoDup_cons & Hto & Hnds & Hes). destruct (Hto k) as [l Hl]; [left|].
    destruct (contents_item s k l Hi Hl) as (e & He & Hc & Hkey).
    unfold entries_step. rewrite Hl; simpl. rewrite He; simpl. eexists. split; [done|]. split_and!.
    + done.
    + set_solver.
    + unfold entry_keys. rewrite fmap_app. apply NoDup_app. split_and!; [done| |apply NoDup_singleton].
      intros j. rewrite list_elem_of_fmap. intros ([l' e'] & -> & Hin) Hj. simpl in Hj.
      apply Hes in Hin as (Hn & _). set_solver.
    + intros l' e'. rewrite elem_of_app, Hes, list_elem_of_singleton. split.
      * intros [(Hn & ? & ?)|[= -> ->]]; [set_solver|]. rewrite Hkey. done.
      * intros (Hn & Hk' & He'). destruct (decide (Key e' = k)) as [Heq|Hne]; [right|left; set_solver].
        rewrite Heq in Hk'. congruence.
  - exists es. split_and!; [done|done| |].
    + apply map_eq. intros k. apply option_eq. intros o. rewrite entries_map_lookup by done.
      rewrite lookup_fmap. split.
      * intros ([l e] & Hin%Hes & <- & <-). destruct Hin as (_ & Hk & _). simpl. by rewrite Hk.
      * destruct (items s !! k) as [l|] eqn:Hk; simpl; [|done]. intros [= <-].
        destruct (contents_item s k l Hi Hk) as (e & He & _ & Hkey). exists (l, e).
        split_and!; [apply Hes|done|done]. rewrite Hkey. split_and!; [set_solver|done|done].
    + intros l e (_ & Hk & He)%Hes. apply contents_Some. eauto.
Qed.

(** ** Histories of store operations *)

Inductive store_op :=
| SGet (k : string)
| STouch (k : string) (now : Z)
| SContains (k : string)
| SInsert (k : string) (val : Value) (size now : Z)
| SRemove (k : string)
| SClear.

(** What the caller sees, pointers being followed. *)
Inductive store_result :=
| REntry (e : option Entry)
| RBool (b : bool)
| RInsert (r : store_error + Entry)
| RUnit.

Definition deref (s : Store) (o : option eptr) : outcome (option Entry) :=
  match o with Some l => e ← or_panic (heap s !! l); Ret (Some e) | None => Ret None end.

Definition run_store_op (o : store_op) (s : Store) : outcome (Store * store_result) :=
  match o with
  | SGet k => e ← deref s (Get k s); Ret (s, REntry e)
  | STouch k now => '(s, r) ← Touch k now s; e ← deref s r; Ret (s, REntry e)
  | SContains k => Ret (s, RBool (Contains k s))
  | SInsert k val size now =>
      '(s, r) ← Insert k val size now s;
      match r with
      | inl err => Ret (s, RInsert (inl err))
      | inr l => e ← or_panic (heap s !! l); Ret (s, RInsert (inr e))
      end
  | SRemove k => '(s, r) ← Remove k s; e ← deref s r; Ret (s, REntry e)
  | SClear => Ret (Clear s, RUnit)
  end.

Definition spec_store_op (cap : Z) (o : store_op) (m : gmap string Entry)
    : gmap string Entry * store_result :=
  match o with
  | SGet k => (m, REntry (m !! k))
  | STouch k now => (alter (touched now) k m, REntry (touched now <$> m !! k))
  | SContains k => (m, RBool (bool_decide (is_Some (m !! k))))
  | SInsert k val size now =>
      match spec_insert k val size now cap m with
      | inl err => (m, RInsert (inl err))
      | inr m' => (m', RInsert (inr (inserted k val size now (m !! k))))
      end
  | SRemove k => (delete k m, REntry (m !! k))
  | SClear => (∅, RUnit)
  end.

Definition store_op_ok (o : store_op) : Prop :=
  match o with SInsert _ _ size _ => is_i64 size | _ => True end.

Fixpoint run_store (ops : list store_op) (s : Store) : outcome (Store * list store_result) :=
  match ops with
  | [] => Ret (s, [])
  | o :: ops => '(s, r) ← run_store_op o s; '(s, rs) ← run_store ops s; Ret (s, r :: rs)
  end.

Fixpoint spec_store (cap : Z) (ops : list store_op) (m : gmap string Entry)
    : gmap string Entry * list store_result :=
  match ops with
  | [] => (m, [])
  | o :: ops =>
      let '(m, r) := spec_store_op cap o m in let '(m, rs) := spec_store cap ops m in (m, r :: rs)
  end.

Lemma deref_items s k : store_inv s → deref s (items s !! k) = Ret (contents s !! k).
Proof.
  intros Hi. destruct (items s !! k) as [l|] eqn:Hk; simpl.
  - destruct (contents_item s k l Hi Hk) as (e & -> & -> & _). done.
  - by rewrite (proj2 (contents_None s k Hi) Hk).
Qed.

Lemma run_store_op_refines o s :
  store_inv s → store_op_ok o →
  ∃ s', run_store_op o s = Ret (s', (spec_store_op (capacity s) o (contents s)).2) ∧
    store_inv s' ∧ capacity s' = capacity s ∧
    contents s' = (spec_store_op (capacity s) o (contents s)).1.
Proof.
  intros Hi Hok. destruct o as [k|k now|k|k val size now|k|]; simpl in *.
  - unfold Get. rewrite deref_items by done. simpl. eauto.
  - destruct (Touch_spec k now s Hi) as (s' & r & -> & Hi' & Hcap & Hit & -> & Hc). simpl.
    rewrite <-Hit, deref_items, Hc by done. simpl. rewrite lookup_alter_eq. eauto.
  - exists s. split_and!; try done. do 3 f_equal. unfold Contains. apply bool_decide_ext.
    pose proof (contents_None s k Hi) as Hn. destruct (contents s !! k), (items s !! k); naive_solver.
  - destruct (Insert_spec k val size now s Hi Hok) as (s' & r & -> & Hi' & Hcap & Hr). simpl.
    destruct r as [err|l]; [destruct Hr as [-> ->]; simpl; eauto|]. destruct Hr as [Hit Hspec].
    rewrite Hspec. simpl. assert (Hl : items s' !! k = Some l) by (by rewrite Hit, lookup_insert_eq).
    destruct (contents_item s' k l Hi' Hl) as (e & -> & Hc & _). simpl.
    exists s'. split_and!; try done. do 4 f_equal.
    unfold spec_insert in Hspec. repeat case_decide; simplify_eq.
    match goal with H : _ = contents s' |- _ => rewrite <-H, lookup_insert_eq in Hc end. by simplify_eq.
  - destruct (Remove_spec k s Hi) as (s' & r & -> & Hi' & Hcap & Hheap & Hit & -> & Hc). simpl.
    assert (Hd : deref s' (items s !! k) = deref s (items s !! k)) by (unfold deref; by rewrite Hheap).
    rewrite Hd, deref_items by done. simpl. eauto.
  - destruct (Clear_spec s Hi). eauto.
Qed.

Lemma run_store_refines ops s :
  store_inv s → Forall store_op_ok ops →
  ∃ s', run_store ops s = Ret (s', (spec_store (capacity s) ops (contents s)).2) ∧
    store_inv s' ∧ capacity s' = capacity s ∧
    contents s' = (spec_store (capacity s) ops (contents s)).1.
Proof.
  intros Hi Hok. revert s Hi. induction Hok as [|o ops Ho _ IH]; intros s Hi; simpl; [eauto|].
  destruct (run_store_op_refines o s Hi Ho) as (s1 & -> & Hi1 & Hcap1 & Hc1). simpl.
  destruct (IH s1 Hi1) as (s2 & -> & Hi2 & Hcap2 & Hc2). simpl. rewrite Hcap1 in *.
  destruct (spec_store_op (capacity s) o (contents s)) as [m1 r1]. simpl in *. subst m1.
  destruct (spec_store (capacity s) ops (contents s1)) as [m2 rs]. simpl in *.
  exists s2. by rewrite Hcap2.
Qed.

(** C9: the store refines a bounded map.  From an empty store of any capacity
    up to 2^62-1, any history of operations returns (no nil entry is followed)
    with the results and the contents the map specification gives, every
    error branch included; its byte count is exactly the sum of the resident
    sizes and is within the capacity, its key bytes are the total length of
    the keys (modulo 2^64), and [Len] and [Free] agree. *)
Theorem store_refines_bounded_map cap ops :
  0 ≤ cap ≤ maxCapacity → Forall store_op_ok ops →
  let '(m, rs) := spec_store cap ops ∅ in
  ∃ s, run_store ops (NewStore cap) = Ret (s, rs) ∧ contents s = m ∧ Capacity s = cap ∧
    Bytes s = payload m ∧ 0 ≤ Bytes s ≤ cap ∧ KeyBytes s = i64 (key_bytes m) ∧
    Len s = Z.of_nat (size m) ∧ Free s = cap - payload m.
Proof.
  intros Hcap Hok. pose proof (store_inv_New cap Hcap) as Hi.
  destruct (run_store_refines ops (NewStore cap) Hi Hok) as (s & Hrun & Hi' & Hc & Hm).
  simpl in Hc. rewrite (omap_empty _ : contents (NewStore cap) = ∅) in *.
  change (capacity (NewStore cap)) with cap in *.
  destruct (spec_store cap ops ∅) as [m rs]. simpl in *. subst m.
  pose proof (bytes_range s Hi') as Hr. unfold maxCapacity in *.
  exists s. unfold Capacity, Bytes, KeyBytes, Len, Free. rewrite Hc, size_contents by done.
  destruct Hi' as [_ _ Hb Hk Hbd _]. split_and!; try done; try lia.
  rewrite i64_small; unfold is_i64; lia.
Qed.

(** A capacity of 100: the second key does not fit until the first goes. *)
Lemma store_refines_bounded_map_witness :
  let ops := [SInsert "a" [] 70 1; SInsert "b" [] 40 2; SInsert "c" [] 101 3; SInsert "a" [] 50 4;
              SInsert "b" [] 40 5; SRemove "a"; SContains "a"] in
  let '(m, rs) := spec_store 100 ops ∅ in
  rs !! 1%nat = Some (RInsert (inl ErrCapacityExceeded)) ∧
  rs !! 2%nat = Some (RInsert (inl ErrObjectTooLarge)) ∧
  ∃ s, run_store ops (NewStore 100) = Ret (s, rs) ∧ Bytes s = 40 ∧ Free s = 60.
Proof.
  intros ops. pose proof (store_refines_bounded_map 100 ops) as H.
  specialize (H ltac:(unfold maxCapacity; lia) ltac:(repeat constructor; unfold store_op_ok, is_i64; lia)).
  destruct (spec_store 100 ops ∅) as [m rs] eqn:E. vm_compute in E. injection E as <- <-.
  split_and!; [reflexivity..|]. destruct H as (s & Hrun & _ & _ & Hb & _ & _ & _ & Hf).
  exists s. rewrite Hb, Hf. split_and!; [done|vm_compute; reflexivity..].
Defined.

(** The limit on the capacity is needed.  With a capacity of 2^63-1, two
    objects of that size are both admitted: the projected size wraps to -2,
    below the capacity, and the byte count is then -2. *)
Theorem store_bytes_overflow :
  let big := maxInt64 in
  ∃ s, run_store [SInsert "a" [] big 0; SInsert "b" [] big 1] (NewStore big) =
         Ret (s, [RInsert (inr (new_entry "a" [] big 0)); RInsert (inr (new_entry "b" [] big 1))]) ∧
    Bytes s = -2 ∧ payload (contents s) = 2 * big ∧ Free s = minInt64 + 1.
Proof.
  intros big. destruct (run_store _ _) as [[s rs]| |] eqn:E; [|vm_compute in E; done..].
  exists s. vm_compute in E. injection E as <- <-. by split_and!.
Qed.
