(* ===== verification/Core.v ===== *)
(** * cache/core.go: the cache

    [Core] puts the store, the policy, the metrics collector and the bus
    together.  It is generic in the policy and in the bus, which it uses only
    through their interfaces; either may be missing.  The clock is an argument:
    an operation takes the times the source reads.  An operation is a function
    of the state, composed of what the source does under the cache's mutex
    ([Get_locked], [Put_locked] and the like) and what it does outside. *)
From S2P Require Import Prelude GoFloat Types Policy Events.
From S2P Require Store.
From S2P Require Memory.
From S2P Require Collector.

Abbreviation store_error := Store.store_error.
Abbreviation contents := Store.contents.
Abbreviation fits := Store.fits.

(** [t.Sub(u)]: a Duration, saturating. *)
Definition time_Sub (t u : Z) : Z := Z.max minInt64 (Z.min maxInt64 (t - u)).

Record Core (P B : Type) := {
  store : Store.Store;
  policy : option P;
  bus : option B;
  metrics : Collector.Collector;
  sampleRate : Z;
  seq : Z;
  ticks : nat;
}.
Arguments store {P B}.
Arguments policy {P B}.
Arguments bus {P B}.
Arguments metrics {P B}.
Arguments sampleRate {P B}.
Arguments seq {P B}.
Arguments ticks {P B}.

Record Options (P B : Type) := {
  OCapacity : Z;
  OPolicy : option P;
  OBus : option B;
  OMetrics : option Collector.Collector;
  RequestSampleRate : Z;
}.
Arguments OCapacity {P B}.
Arguments OPolicy {P B}.
Arguments OBus {P B}.
Arguments OMetrics {P B}.
Arguments RequestSampleRate {P B}.

Section core.
Context `{EvictionPolicy P} `{Bus B}.
Implicit Types c : Core P B.

Definition with_store (st : Store.Store) c : Core P B :=
  {| store := st; policy := policy c; bus := bus c; metrics := metrics c;
     sampleRate := sampleRate c; seq := seq c; ticks := ticks c |}.
Definition with_policy (p : option P) c : Core P B :=
  {| store := store c; policy := p; bus := bus c; metrics := metrics c;
     sampleRate := sampleRate c; seq := seq c; ticks := ticks c |}.
Definition with_bus (b : option B) c : Core P B :=
  {| store := store c; policy := policy c; bus := b; metrics := metrics c;
     sampleRate := sampleRate c; seq := seq c; ticks := ticks c |}.
Definition with_metrics (mt : Collector.Collector) c : Core P B :=
  {| store := store c; policy := policy c; bus := bus c; metrics := mt;
     sampleRate := sampleRate c; seq := seq c; ticks := ticks c |}.
(** [c.seq.Add(1)] *)
Definition next_seq c : Core P B :=
  {| store := store c; policy := policy c; bus := bus c; metrics := metrics c;
     sampleRate := sampleRate c; seq := u64 (seq c + 1); ticks := ticks c |}.
(** A range statement over the store has run. *)
Definition next_tick c : Core P B :=
  {| store := store c; policy := policy c; bus := bus c; metrics := metrics c;
     sampleRate := sampleRate c; seq := seq c; ticks := S (ticks c) |}.

Definition policy_name (p : option P) : PolicyName :=
  match p with Some p => Name p | None => PolicyNone end.

Definition PolicyName_ c : PolicyName := policy_name (policy c).

Definition New (opts : Options P B) : Core P B :=
  let c := {| store := Store.NewStore (OCapacity opts); policy := OPolicy opts; bus := OBus opts;
              metrics := default Collector.NewCollector (OMetrics opts);
              sampleRate := if RequestSampleRate opts =? 0 then 1 else RequestSampleRate opts;
              seq := 0; ticks := 0%nat |} in
  with_metrics (Collector.SetPolicy (PolicyName_ c) (metrics c)) c.

(** A call of a policy method that returns nothing, skipped with no policy. *)
Definition call_policy (f : P → outcome P) c : outcome (Core P B) :=
  match policy c with
  | Some p => p ← f p; Ret (with_policy (Some p) c)
  | None => Ret c
  end.

Definition publish (e : Event) c : outcome (Core P B) :=
  match bus c with
  | Some b => b ← bus_Publish e b; Ret (with_bus (Some b) c)
  | None => Ret c
  end.

Definition sampled (sq : Z) c : outcome bool :=
  if sampleRate c =? 0 then Panic else Ret (sq mod sampleRate c =? 0).

Definition event (sq now t : Z) : Event :=
  {| Seq := sq; Timestamp := now; EType := t; Payload := NoPayload |}.

(** [Get] under the lock: whether the key is resident, and a copy of the
    entry under it. *)
Definition Get_locked (k : string) (start : Z) c : outcome (Core P B * bool * option Entry) :=
  '(st, e) ← Store.Touch k start (store c);
  let c := with_store st c in
  val ← Store.deref st e;
  c ← match e with Some l => call_policy (OnAccess k (Some l)) c | None => Ret c end;
  Ret (c, bool_decide (is_Some e), val).

Definition get_request (k : string) (size start sq : Z) : Request :=
  {| Request_Key := k; Request_Size := size; Request_Timestamp := start;
     Request_RequestID := sq; Request_Op := OpGet |}.

(** [Get] after the lock: the recording, then the publication. *)
Definition Get_record (k : string) (start stop sq : Z) (hit : bool) (val : option Entry) c : Core P B :=
  let size := match val with Some e => Size e | None => 0 end in
  with_metrics (Collector.RecordRequest (get_request k size start sq) hit (time_Sub stop start) (metrics c)) c.

Definition Get_publish (start sq : Z) (hit : bool) c : outcome (Core P B) :=
  smp ← sampled sq c;
  if (smp : bool) then publish (event sq start (if hit then TypeHit else TypeMiss)) c else Ret c.

(** [start] and [stop] are the two readings of the clock. *)
Definition Get (k : string) (start stop : Z) c : outcome (Core P B * option Value) :=
  let c := next_seq c in
  let sq := seq c in
  '(c, hit, val) ← Get_locked k start c;
  c ← Get_publish start sq hit (Get_record k start stop sq hit val c);
  Ret (c, EValue <$> val).

Definition evictOneLocked (sq now : Z) c : outcome (Core P B * bool) :=
  match policy c with
  | None => Panic
  | Some p =>
      '(p, victim) ← Victim p;
      let c := with_policy (Some p) c in
      match victim with
      | None => Ret (c, false)
      | Some k =>
          '(st, e) ← Store.Remove k (store c);
          let c := with_store st c in
          c ← call_policy (OnRemove k e) c;
          match e with
          | None => Ret (c, false)
          | Some l =>
              ent ← or_panic (Store.heap st !! l);
              let c := with_metrics (Collector.RecordEviction k (Size ent) (metrics c)) c in
              c ← publish (event sq now TypeEviction) c;
              Ret (c, true)
          end
      end
  end.

(** The loop of [Put]. *)
Fixpoint put_loop (fuel : nat) (k : string) (val : Value) (size now sq : Z) c
    : outcome (Core P B * option store_error) :=
  match fuel with
  | O => Diverge
  | S fuel =>
      '(st, r) ← Store.Insert k val size now (store c);
      let c := with_store st c in
      match r with
      | inr l =>
          c ← call_policy (OnInsert k (Some l)) c;
          Ret (with_metrics (Collector.RecordFetch size (metrics c)) c, None)
      | inl err =>
          if negb (bool_decide (err = Store.ErrCapacityExceeded)) || negb (bool_decide (is_Some (policy c)))
          then Ret (c, Some err)
          else
            '(c, evicted) ← evictOneLocked sq now c;
            if (evicted : bool) then put_loop fuel k val size now sq c
            else Ret (c, Some Store.ErrCapacityExceeded)
      end
  end.

(** [Put] under the lock. *)
Definition Put_locked (k : string) (val : Value) (size now sq : Z) c : outcome (Core P B * option store_error) :=
  match policy c with
  | Some p =>
      if negb (ShouldAdmit k size p) then Ret (c, None)
      else put_loop (S (base.size (Store.items (store c)))) k val size now sq c
  | None => put_loop (S (base.size (Store.items (store c)))) k val size now sq c
  end.

Definition Put (k : string) (val : Value) (size now : Z) c : outcome (Core P B * option store_error) :=
  let c := next_seq c in
  Put_locked k val size now (seq c) c.

Definition removeLocked (k : string) c : outcome (Core P B * bool) :=
  '(st, e) ← Store.Remove k (store c);
  let c := with_store st c in
  match e with
  | None => Ret (c, false)
  | Some l => c ← call_policy (OnRemove k (Some l)) c; Ret (c, true)
  end.

Definition Remove (k : string) c : outcome (Core P B * bool) := removeLocked k c.

Definition Contains (k : string) c : bool := Store.Contains k (store c).
Definition Len c : Z := Store.Len (store c).
Definition Bytes c : Z := Store.Bytes (store c).
Definition Capacity c : Z := Store.Capacity (store c).
Definition Metrics c : Collector.Collector := metrics c.
Definition Seq_ c : Z := seq c.

(** [rt] is what the run time reports about the process. *)
Definition Memory_ (rt : Memory.RuntimeMemory) c : Core P B * Memory.MemoryBreakdown :=
  let '(p, policyBytes) :=
    match policy c with
    | Some p => let '(p, n) := MetadataBytes p in (Some p, n)
    | None => (None, 0)
    end in
  (with_policy p c,
   Memory.AccountMemory (Len c) (Bytes c) (Store.KeyBytes (store c)) policyBytes rt).

Definition Stats `{GoRuntime} (rt : Memory.RuntimeMemory) c : Core P B * Collector.Stats :=
  let '(c, mem) := Memory_ rt c in
  let s := {| Collector.Capacity := Capacity c; Collector.BytesUsed := Bytes c;
              Collector.MetadataBytes := Memory.MetadataBytes mem;
              Collector.ObjectCount := Memory.ObjectCount mem |} in
  let c := with_metrics (Collector.ObserveCache s (metrics c)) c in
  (c, Collector.Snapshot (metrics c)).

Definition Clear c : Core P B :=
  let c := with_store (Store.Clear (store c)) c in
  match policy c with Some p => with_policy (Some (Reset p)) c | None => c end.

(** [SetPolicy] under the lock; the collector hears the name after it. *)
Definition SetPolicy_locked `{GoRuntime} (p : option P) c : outcome (Core P B * PolicyName) :=
  c ← match p with
      | Some p =>
          entries ← Store.Entries (ticks c) (store c);
          p ← Rebuild entries (Reset p);
          Ret (with_policy (Some p) (next_tick c))
      | None => Ret (with_policy None c)
      end;
  Ret (c, PolicyName_ c).

Definition SetPolicy `{GoRuntime} (p : option P) c : outcome (Core P B) :=
  '(c, name) ← SetPolicy_locked p c;
  Ret (with_metrics (Collector.SetPolicy name (metrics c)) c).
End core.

(** ** The invariant: store, policy and bus sound and in agreement *)

Definition tracks `{LawfulPolicy P} (po : option P) (m : gmap string (option eptr)) : Prop :=
  ∀ p, po = Some p → represents p m.

(** What the policy must hold for a store. *)
Definition pointers (st : Store.Store) : gmap string (option eptr) := Some <$> Store.items st.

Definition bus_sound `{LawfulBus B} (bo : option B) : Prop := ∀ b, bo = Some b → bus_ok b.

Record core_inv `{LawfulPolicy P} `{LawfulBus B} (c : Core P B) : Prop := {
  cv_store : Store.store_inv (store c);
  cv_policy : tracks (policy c) (pointers (store c));
  cv_bus : bus_sound (bus c);
  cv_keys k : is_Some (Store.items (store c) !! k) → key_ok k;
  cv_rate : 0 < sampleRate c;
}.

(** A call of a policy hook that returned. *)
Definition called `{EvictionPolicy P} (f : P → outcome P) (po po' : option P) : Prop :=
  match po with Some p => ∃ p', f p = Ret p' ∧ po' = Some p' | None => po' = None end.

(** The evictions that make room for an object of [size] bytes under [k]: as
    long as it does not fit, the policy's victim, a resident entry, goes, and
    the policy is told. *)
Inductive evicts `{EvictionPolicy P} (k : string) (size cap : Z)
    : option P → gmap string Entry → list (string * Entry) → option P → gmap string Entry → Prop :=
| evicts_done po m : fits k size cap m → evicts k size cap po m [] po m
| evicts_step p p1 po2 m x e l vs po' m' :
    ¬ fits k size cap m → Victim p = Ret (p1, Some x) → m !! x = Some e →
    called (OnRemove x (Some l)) (Some p1) po2 →
    evicts k size cap po2 (delete x m) vs po' m' →
    evicts k size cap (Some p) m ((x, e) :: vs) po' m'.

Definition record_evictions (vs : list (string * Entry)) (mt : Collector.Collector) : Collector.Collector :=
  foldl (λ mt x, Collector.RecordEviction x.1 (Size x.2) mt) mt vs.

Section core_theorems.
Context `{LawfulPolicy P} `{LawfulBus B}.
Implicit Types c : Core P B.

Lemma call_policy_spec f c m m' :
  tracks (policy c) m →
  (∀ p, represents p m → ∃ p', f p = Ret p' ∧ represents p' m') →
  ∃ po, call_policy f c = Ret (with_policy po c) ∧ tracks po m' ∧ called f (policy c) po.
Proof.
  intros Ht Hf. unfold call_policy, called. destruct (policy c) as [p|] eqn:Hp.
  - destruct (Hf p (Ht p eq_refl)) as (p' & -> & Hp'). exists (Some p').
    split_and!; [done| |by eauto]. intros ? [= <-]. done.
  - exists None. split_and!; [|by intros ? ?|done].
    destruct c; simpl in *. by subst.
Qed.

Lemma called_is_Some (f : P → outcome P) po po' : called f po po' → is_Some po' ↔ is_Some po.
Proof. unfold called. destruct po; naive_solver. Qed.

Lemma publish_spec ev c :
  bus_sound (bus c) → ∃ bo, publish ev c = Ret (with_bus bo c) ∧ bus_sound bo.
Proof.
  intros Hb. unfold publish. destruct (bus c) as [b|] eqn:Eb.
  - destruct (law_Publish ev b (Hb b eq_refl)) as (b' & -> & Hok). exists (Some b').
    split; [done|]. by intros ? [= <-].
  - exists None. split; [|by intros ? ?]. destruct c; simpl in *. by subst.
Qed.

Lemma pointers_lookup st k : pointers st !! k = Some <$> Store.items st !! k.
Proof. apply lookup_fmap. Qed.

(** One eviction: a resident entry goes, or there was none. *)
Lemma evictOneLocked_spec sq now c :
  core_inv c → is_Some (policy c) →
  ∃ c' ok, evictOneLocked sq now c = Ret (c', ok) ∧ core_inv c' ∧ is_Some (policy c') ∧
    Store.capacity (store c') = Store.capacity (store c) ∧ seq c' = seq c ∧ sampleRate c' = sampleRate c ∧
    if ok : bool then
      ∃ k e, contents (store c) !! k = Some e ∧ contents (store c') = delete k (contents (store c)) ∧
        Store.items (store c') = delete k (Store.items (store c)) ∧ is_Some (Store.items (store c) !! k) ∧
        (∃ p p1 l, policy c = Some p ∧ Victim p = Ret (p1, Some k) ∧
          called (OnRemove k (Some l)) (Some p1) (policy c')) ∧
        metrics c' = Collector.RecordEviction k (Size e) (metrics c)
    else contents (store c) = ∅ ∧ store c' = store c ∧ metrics c' = metrics c.
Proof.
  intros [Hst Hpol Hbus Hkeys Hrate] [p Hp]. unfold evictOneLocked. rewrite Hp.
  destruct (law_Victim p _ (Hpol p Hp)) as (p1 & r & Hvic & Hr1 & Hv). rewrite Hvic. simpl.
  destruct r as [k|]; simpl.
  2:{ eexists _, false. split; [done|]. unfold pointers in Hv. apply fmap_empty_inv in Hv.
      split_and!; simpl; try done.
      - split; try done. by intros ? [= <-].
      - unfold Store.contents. rewrite Hv. apply omap_empty. }
  rewrite pointers_lookup, fmap_is_Some in Hv. destruct Hv as [l Hl].
  destruct (Store.Remove_spec k (store c) Hst) as (st & r & -> & Hst' & Hcap & Hheap & Hit & -> & Hcon). simpl.
  destruct (Store.contents_item (store c) k l Hst Hl) as (e & He & Hc & Hkey). rewrite Hl.
  destruct (call_policy_spec (OnRemove k (Some l)) (with_store st (with_policy (Some p1) c))
    (pointers (store c)) (pointers st)) as (po & -> & Htr & Hsome).
  { by intros ? [= <-]. }
  { intros q Hq. destruct (law_OnRemove k (Some l) q _ Hq) as (q' & ? & ?). exists q'. split; [done|].
    unfold pointers. by rewrite Hit, fmap_delete. }
  cbn [mbind outcome_bind]. rewrite Hheap, He. cbn [or_panic mbind outcome_bind].
  match goal with |- context [publish ?ev ?c0] => destruct (publish_spec ev c0) as (bo & -> & Hbo); [exact Hbus|] end.
  cbn [mbind outcome_bind]. eexists _, true. split; [done|]. cbn.
  split_and!; try done.
  - split; cbn; try done. rewrite Hit. intros j [l' [_ Hj]%lookup_delete_Some]. eauto.
  - by apply (called_is_Some _ _ _ Hsome).
  - exists k, e. split_and!; [done|done|done|by eauto| |done]. by exists p, p1, l.
Qed.

Lemma spec_insert_fits k val size now cap m :
  0 ≤ size ≤ cap →
  Store.spec_insert k val size now cap m =
    if decide (fits k size cap m) then inr (<[k := Store.inserted k val size now (m !! k)]> m)
    else inl Store.ErrCapacityExceeded.
Proof. intros. unfold Store.spec_insert. by rewrite !decide_False by lia. Qed.

(** What the loop of [Put] does, with the fuel [Put] gives it. *)
Lemma put_loop_spec fuel k val size now sq c :
  core_inv c → key_ok k → is_i64 size → (base.size (Store.items (store c)) < fuel)%nat →
  ∃ c' r, put_loop fuel k val size now sq c = Ret (c', r) ∧ core_inv c' ∧
    Store.capacity (store c') = Store.capacity (store c) ∧ seq c' = seq c ∧ sampleRate c' = sampleRate c ∧
    match r with
    | Some err => contents (store c') = contents (store c) ∧ metrics c' = metrics c ∧ policy c' = policy c ∧
        Store.spec_insert k val size now (Store.capacity (store c)) (contents (store c)) = inl err ∧
        (is_Some (policy c) → err ≠ Store.ErrCapacityExceeded)
    | None => 0 ≤ size ≤ Store.capacity (store c) ∧
        ∃ vs po m l, evicts k size (Store.capacity (store c)) (policy c) (contents (store c)) vs po m ∧
          called (OnInsert k (Some l)) po (policy c') ∧
          contents (store c') = <[k := Store.inserted k val size now (m !! k)]> m ∧
          metrics c' = Collector.RecordFetch size (record_evictions vs (metrics c))
    end.
Proof.
  revert c. induction fuel as [|fuel IH]; intros c Hinv Hk Hsz Hfuel; [lia|].
  pose proof Hinv as [Hst Hpol Hbus Hkeys Hrate]. cbn [put_loop].
  destruct (Store.Insert_spec k val size now (store c) Hst Hsz) as (st & r & -> & Hst' & Hcap & Hr).
  cbn [mbind outcome_bind]. destruct r as [err|l].
  - destruct Hr as [-> Hspec].
    assert (Heq : with_store (store c) c = c) by (by destruct c). rewrite Heq.
    destruct (bool_decide_reflect (err = Store.ErrCapacityExceeded)) as [->|Herr]; cbn [negb orb].
    2:{ exists c, (Some err). split_and!; done. }
    destruct (bool_decide_reflect (is_Some (policy c))) as [Hsome|Hnone]; cbn [negb].
    2:{ exists c, (Some Store.ErrCapacityExceeded). split_and!; done. }
    assert (Hrange : 0 ≤ size ≤ Store.capacity (store c)).
    { unfold Store.spec_insert in Hspec. repeat case_decide; simplify_eq. lia. }
    rewrite spec_insert_fits in Hspec by done. case_decide as Hfit; [done|].
    destruct (evictOneLocked_spec sq now c Hinv Hsome)
      as (c1 & ok & -> & Hinv1 & Hsome1 & Hcap1 & Hseq1 & Hrate1 & Hok). cbn [mbind outcome_bind].
    destruct ok.
    + destruct Hok as (x & e & Hx & Hc1 & Hit1 & Hxi & (p & p1 & l & Hp & Hvic & Hcall) & Hm1).
      destruct (IH c1 Hinv1 Hk Hsz) as (c' & r & -> & Hinv' & Hcap' & Hseq' & Hrate' & Hr).
      { rewrite Hit1, map_size_delete_Some by done.
        assert (base.size (Store.items (store c)) ≠ 0%nat); [|lia].
        destruct Hxi as [l0 Hl]. intros Hz%map_size_empty_iff. by rewrite Hz in Hl. }
      exists c', r. rewrite Hcap', Hseq', Hrate', Hcap1, Hseq1, Hrate1. rewrite Hcap1 in *.
      split_and!; try done. destruct r as [err|].
      * destruct Hr as (_ & _ & _ & Hspec1 & Hne). exfalso. apply Hne; [done|].
        rewrite spec_insert_fits in Hspec1 by done. case_decide; by simplify_eq.
      * destruct Hr as (_ & vs & po & m & l' & Hev & Hins & Hc' & Hm'). split; [done|].
        exists ((x, e) :: vs), po, m, l'. split_and!; [|done|done|].
        -- rewrite Hp. eapply evicts_step; [done|done|done|done|]. by rewrite <-Hc1.
        -- rewrite Hm', Hm1. done.
    + destruct Hok as (Hempty & _). exfalso. apply Hfit. unfold Store.fits. rewrite Hempty, lookup_empty.
      unfold Store.payload. rewrite map_sum_empty. simpl. lia.
  - destruct Hr as [Hit Hspec].
    destruct (call_policy_spec (OnInsert k (Some l)) (with_store st c) (pointers (store c)) (pointers st))
      as (po & -> & Htr & Hsome); [done| |].
    { intros q Hq. destruct (law_OnInsert k (Some l) q _ Hq Hk) as (q' & ? & ?). exists q'. split; [done|].
      unfold pointers. by rewrite Hit, fmap_insert. }
    cbn [mbind outcome_bind]. do 2 eexists. split; [done|]. cbn.
    split_and!; try done.
    + split; cbn; try done. rewrite Hit. intros j [l' Hj]. apply lookup_insert_Some in Hj as [[<- _]|[_ Hj]]; eauto.
    + unfold Store.spec_insert in Hspec. repeat case_decide; simplify_eq. lia.
    + unfold Store.spec_insert in Hspec. repeat case_decide; simplify_eq. lia.
    + unfold Store.spec_insert in Hspec. repeat case_decide; simplify_eq.
      exists [], (policy c), (contents (store c)), l. split_and!; try done. by constructor.
Qed.

Definition admits k size c : bool :=
  match policy c with Some p => ShouldAdmit k size p | None => true end.

Lemma core_inv_next_seq c : core_inv c → core_inv (next_seq c).
Proof. by intros [? ? ? ? ?]. Qed.

Lemma Put_spec k val size now c :
  core_inv c → key_ok k → is_i64 size →
  ∃ c' r, Put k val size now c = Ret (c', r) ∧ core_inv c' ∧
    Store.capacity (store c') = Store.capacity (store c) ∧ seq c' = u64 (seq c + 1) ∧
    sampleRate c' = sampleRate c ∧
    if admits k size c then
      match r with
      | Some err => contents (store c') = contents (store c) ∧ metrics c' = metrics c ∧ policy c' = policy c ∧
          Store.spec_insert k val size now (Store.capacity (store c)) (contents (store c)) = inl err ∧
          (is_Some (policy c) → err ≠ Store.ErrCapacityExceeded)
      | None => 0 ≤ size ≤ Store.capacity (store c) ∧
          ∃ vs po m l, evicts k size (Store.capacity (store c)) (policy c) (contents (store c)) vs po m ∧
            called (OnInsert k (Some l)) po (policy c') ∧
            contents (store c') = <[k := Store.inserted k val size now (m !! k)]> m ∧
            metrics c' = Collector.RecordFetch size (record_evictions vs (metrics c))
      end
    else r = None ∧ c' = next_seq c.
Proof.
  intros Hinv Hk Hsz. unfold Put, Put_locked, admits. apply core_inv_next_seq in Hinv as Hinv1.
  change (policy (next_seq c)) with (policy c).
  destruct (policy c) as [p|] eqn:Hp; [destruct (ShouldAdmit k size p); cbn [negb]|].
  2:{ do 2 eexists. split; [done|]. split_and!; done. }
  all: destruct (put_loop_spec (S (base.size (Store.items (store (next_seq c))))) k val size now
      (seq (next_seq c)) (next_seq c) Hinv1 Hk Hsz ltac:(lia))
    as (c' & r & -> & Hinv' & Hcap & Hseq & Hrate & Hr);
    change (policy (next_seq c)) with (policy c) in *; rewrite Hp in *; by exists c', r.
Qed.

Lemma Get_spec k start stop c :
  core_inv c →
  let old := contents (store c) !! k in
  let hit := bool_decide (is_Some old) in
  ∃ c', Get k start stop c = Ret (c', EValue <$> old) ∧ core_inv c' ∧
    Store.capacity (store c') = Store.capacity (store c) ∧ seq c' = u64 (seq c + 1) ∧
    sampleRate c' = sampleRate c ∧
    (if hit then ∃ l, called (OnAccess k (Some l)) (policy c) (policy c') else policy c' = policy c) ∧
    contents (store c') = alter (Store.touched start) k (contents (store c)) ∧
    metrics c' = Collector.RecordRequest (get_request k (Store.old_size old) start (u64 (seq c + 1)))
      hit (time_Sub stop start) (metrics c).
Proof.
  intros [Hst Hpol Hbus Hkeys Hrate] old hit. unfold Get, Get_locked, Get_record, Get_publish. cbn [next_seq store seq].
  destruct (Store.Touch_spec k start (store c) Hst) as (st & r & -> & Hst' & Hcap & Hit & -> & Hcon).
  cbn [mbind outcome_bind]. rewrite <-Hit, Store.deref_items by done. cbn [mbind outcome_bind].
  assert (Hptr : pointers st = pointers (store c)) by (unfold pointers; by rewrite Hit).
  assert (Hget : contents st !! k = Store.touched start <$> old) by (by rewrite Hcon, lookup_alter_eq).
  rewrite Hget. rewrite Hit.
  assert (Hhit : bool_decide (is_Some (Store.items (store c) !! k)) = hit).
  { unfold hit, old. apply bool_decide_ext. pose proof (Store.contents_None (store c) k Hst) as Hn.
    destruct (contents (store c) !! k), (Store.items (store c) !! k); naive_solver. }
  match goal with |- context [match ?o with Some l => call_policy _ ?c1 | None => Ret _ end] =>
    assert (∃ po, match o with Some l => call_policy (OnAccess k (Some l)) c1 | None => Ret c1 end
      = Ret (with_policy po c1) ∧ tracks po (pointers st) ∧
      (if hit then ∃ l, called (OnAccess k (Some l)) (policy c) po else po = policy c))
      as (po & -> & Htr & Hcall) end.
  { rewrite <-Hhit. destruct (Store.items (store c) !! k) as [l|].
    - destruct (call_policy_spec (OnAccess k (Some l)) (with_store st (next_seq c)) (pointers st) (pointers st))
        as (po & ? & ? & ?); [by rewrite Hptr| |exists po; rewrite bool_decide_true by done; eauto].
      intros p Hp. apply (law_OnAccess k (Some l) p _ Hp).
    - exists (policy c). split_and!; [done|by rewrite Hptr|done]. }
  cbn [mbind outcome_bind]. rewrite Hhit. unfold sampled. cbn [sampleRate with_metrics with_policy with_store next_seq].
  destruct (Z.eqb_spec (sampleRate c) 0); [lia|]. cbn [mbind outcome_bind].
  assert (Hsz : match Store.touched start <$> old with Some e => Size e | None => 0 end = Store.old_size old)
    by (by destruct old).
  assert (Hval : EValue <$> (Store.touched start <$> old) = EValue <$> old) by (by destruct old).
  rewrite Hsz, Hval.
  match goal with |- context [if ?b then publish ?ev ?c1 else Ret ?c1] =>
    assert (∃ bo, (if b then publish ev c1 else Ret c1) = Ret (with_bus bo c1) ∧ bus_sound bo)
      as (bo & -> & Hbo) end.
  { destruct (u64 (seq c + 1) mod sampleRate c =? 0); [apply publish_spec; exact Hbus|]. by exists (bus c). }
  cbn [mbind outcome_bind]. eexists. split; [done|]. cbn. split_and!; try done.
  split; cbn; try done. intros j. rewrite Hit. apply Hkeys.
Qed.

Lemma cache_Remove_spec k c :
  core_inv c →
  ∃ c', Remove k c = Ret (c', bool_decide (is_Some (contents (store c) !! k))) ∧ core_inv c' ∧
    Store.capacity (store c') = Store.capacity (store c) ∧ seq c' = seq c ∧ sampleRate c' = sampleRate c ∧
    metrics c' = metrics c ∧ contents (store c') = delete k (contents (store c)) ∧
    (if bool_decide (is_Some (contents (store c) !! k))
     then ∃ l, called (OnRemove k (Some l)) (policy c) (policy c') else policy c' = policy c).
Proof.
  intros [Hst Hpol Hbus Hkeys Hrate]. unfold Remove, removeLocked.
  destruct (Store.Remove_spec k (store c) Hst) as (st & r & -> & Hst' & Hcap & Hheap & Hit & -> & Hcon).
  cbn [mbind outcome_bind]. pose proof (Store.contents_None (store c) k Hst) as Hn.
  destruct (Store.items (store c) !! k) as [l|] eqn:Hl.
  - destruct (call_policy_spec (OnRemove k (Some l)) (with_store st c) (pointers (store c)) (pointers st))
      as (po & -> & Htr & Hsome); [done| |].
    { intros q Hq. destruct (law_OnRemove k (Some l) q _ Hq) as (q' & ? & ?). exists q'. split; [done|].
      unfold pointers. by rewrite Hit, fmap_delete. }
    assert (Hin : is_Some (contents (store c) !! k)).
    { destruct (contents (store c) !! k); [done|]. naive_solver. }
    rewrite (bool_decide_true _ Hin). cbn [mbind outcome_bind]. eexists. split; [done|].
    cbn. split_and!; try done; [|by eauto]. split; cbn; try done. rewrite Hit.
    intros j [l' [_ Hj]%lookup_delete_Some]. eauto.
  - rewrite (proj2 Hn) by done. eexists. split; [done|].
    cbn. split_and!; try done. split; cbn; try done.
    + unfold pointers. rewrite Hit, delete_id by done. done.
    + rewrite Hit, delete_id by done. done.
Qed.

Lemma cache_Clear_spec c :
  core_inv c → core_inv (Clear c) ∧ contents (store (Clear c)) = ∅ ∧ metrics (Clear c) = metrics c ∧
    policy (Clear c) = Reset <$> policy c ∧
    Store.capacity (store (Clear c)) = Store.capacity (store c).
Proof.
  intros [Hst Hpol Hbus Hkeys Hrate]. destruct (Store.Clear_spec (store c) Hst) as [Hst' Hcon].
  unfold Clear. cbn [with_store policy]. destruct (policy c) as [p|] eqn:Hp; cbn; split_and!; try done.
  - split; cbn; try done.
    + intros ? [= <-]. unfold pointers. cbn. rewrite fmap_empty. eapply law_Reset. by apply Hpol.
    + intros k [? Hk]. by rewrite lookup_empty in Hk.
  - split; cbn; try done.
    + intros ? Hq. congruence.
    + intros k [? Hk]. by rewrite lookup_empty in Hk.
Qed.

Lemma Memory_spec rt c :
  core_inv c → core_inv (Memory_ rt c).1 ∧ store (Memory_ rt c).1 = store c ∧ metrics (Memory_ rt c).1 = metrics c.
Proof.
  intros [Hst Hpol Hbus Hkeys Hrate]. unfold Memory_. destruct (policy c) as [p|] eqn:Hp.
  - pose proof (law_MetadataBytes p _ (Hpol p eq_refl)) as Hm. destruct (MetadataBytes p) as [p' n].
    cbn in *. split_and!; try done. split; cbn; try done. by intros ? [= <-].
  - cbn. split_and!; try done.
Qed.

Section range.
Context `{GoRuntime}.

Lemma Stats_spec rt c :
  core_inv c → core_inv (Stats rt c).1 ∧ store (Stats rt c).1 = store c.
Proof.
  intros Hi. unfold Stats. destruct (Memory_spec rt c Hi) as (Hi' & Hs & _).
  destruct (Memory_ rt c) as [c1 mem]. cbn in *. split; [|done]. by destruct Hi'.
Qed.

(** A policy [SetPolicy] can be given: in a sound state, whatever it tracks. *)
Definition policy_sound (po : option P) : Prop := ∀ p, po = Some p → ∃ m, represents p m.

Lemma SetPolicy_spec po c :
  core_inv c → policy_sound po →
  ∃ c', SetPolicy po c = Ret c' ∧ core_inv c' ∧ store c' = store c ∧ seq c' = seq c ∧
    (is_Some (policy c') ↔ is_Some po) ∧
    metrics c' = Collector.SetPolicy (policy_name (policy c')) (metrics c).
Proof.
  intros [Hst Hpol Hbus Hkeys Hrate] Hso. unfold SetPolicy, SetPolicy_locked. destruct po as [p|].
  - destruct (Store.Entries_spec (ticks c) (store c) Hst) as (es & -> & Hnd & Hmap & Hes).
    cbn [mbind outcome_bind]. destruct (Hso p eq_refl) as [m Hm].
    destruct (law_Rebuild es (Reset p) ∅ (law_Reset p m Hm) Hnd) as (p' & -> & Hp').
    { apply Forall_forall. intros k Hk. apply Hkeys.
      apply (entries_map_dom es k Hnd) in Hk. rewrite Hmap, lookup_fmap, fmap_is_Some in Hk. done. }
    cbn [mbind outcome_bind]. eexists. split; [done|]. cbn. split_and!; try done.
    split; cbn; try done. intros ? [= <-]. by rewrite Hmap in Hp'.
  - cbn [mbind outcome_bind]. eexists. split; [done|]. cbn. split_and!; try done.
Qed.
End range.
End core_theorems.
