(* ===== verification/CoreSpec.v ===== *)
(** * What the cache promises

    The contracts of the operations of [Core], for any policy and any bus that
    satisfy their laws, and the invariant of every history of operations.
    The instances used as witnesses are the LRU policy and the in-process bus. *)
From S2P Require Import Prelude GoFloat Types Policy Events Core.
From S2P Require Store.
From S2P Require Memory.
From S2P Require Collector.
From S2P Require LRU.

Section contracts.
Context `{LawfulPolicy P} `{LawfulBus B}.
Implicit Types c : Core P B.

(** C7: [Put] with a policy installed that admits the object.  A negative size
    and a size above the capacity are refused with their errors and nothing is
    evicted or counted.  Any other object is stored: entries leave one at a
    time, each the victim the policy names then, as long as the object does
    not fit and no longer; the key then holds the object (a replaced entry
    keeps its insertion time), every other entry that did not leave is
    untouched, and the collector has recorded the evictions and the fetch. *)
Theorem Put_evicts_as_needed k val size now c :
  core_inv c → key_ok k → is_i64 size → is_Some (policy c) → admits k size c = true →
  let cap := Store.capacity (store c) in
  ∃ c' r, Put k val size now c = Ret (c', r) ∧ core_inv c' ∧
    if decide (0 ≤ size ≤ cap) then
      r = None ∧ ∃ vs po m l, evicts k size cap (policy c) (contents (store c)) vs po m ∧
        called (OnInsert k (Some l)) po (policy c') ∧
        contents (store c') = <[k := Store.inserted k val size now (m !! k)]> m ∧
        metrics c' = Collector.RecordFetch size (record_evictions vs (metrics c))
    else
      r = Some (if decide (size < 0) then Store.ErrInvalidSize else Store.ErrObjectTooLarge) ∧
      contents (store c') = contents (store c) ∧ metrics c' = metrics c ∧ policy c' = policy c.
Proof.
  intros Hi Hk Hsz Hp Had cap.
  destruct (Put_spec k val size now c Hi Hk Hsz) as (c' & r & Hrun & Hi' & _ & _ & _ & Hr).
  rewrite Had in Hr. exists c', r. split_and!; [done|done|]. destruct r as [err|].
  - destruct Hr as (Hc & Hm & Hpo & Hspec & Hne). specialize (Hne Hp). unfold Store.spec_insert in Hspec. fold cap in Hspec.
    repeat case_decide; simplify_eq; try done; lia.
  - destruct Hr as (Hrange & Hev). rewrite decide_True by done. done.
Qed.

(** [Put] with no policy installed is the store's bounded insertion: it
    never evicts, and an object that does not fit is refused with
    [ErrCapacityExceeded], the cache unchanged. *)
Theorem Put_without_policy k val size now c :
  core_inv c → key_ok k → is_i64 size → policy c = None →
  ∃ c' r, Put k val size now c = Ret (c', r) ∧ core_inv c' ∧ policy c' = None ∧
    match Store.spec_insert k val size now (Store.capacity (store c)) (contents (store c)) with
    | inl err => r = Some err ∧ contents (store c') = contents (store c) ∧ metrics c' = metrics c
    | inr m => r = None ∧ contents (store c') = m ∧ metrics c' = Collector.RecordFetch size (metrics c)
    end.
Proof.
  intros Hi Hk Hsz Hp.
  destruct (Put_spec k val size now c Hi Hk Hsz) as (c' & r & Hrun & Hi' & _ & _ & _ & Hr).
  unfold admits in Hr. rewrite Hp in Hr. exists c', r. split; [done|]. split; [done|]. destruct r as [err|].
  - destruct Hr as (Hc & Hm & Hpo & -> & _). done.
  - destruct Hr as (Hrange & vs & po & m & l & Hev & Hcall & Hc & Hm). inversion Hev; subst; simpl in *.
    rewrite spec_insert_fits, decide_True by done. done.
Qed.

(** C16: [Get] hits exactly the resident keys.  It returns the value of the
    entry under the key, whose access count and time it updates, leaving every
    other entry alone; the policy hears of a hit and not of a miss; and the
    collector records one request with the outcome, the size and the elapsed
    time. *)
Theorem Get_hits_resident k start stop c :
  core_inv c →
  let old := contents (store c) !! k in
  let hit := bool_decide (is_Some old) in
  ∃ c', Get k start stop c = Ret (c', EValue <$> old) ∧ core_inv c' ∧
    contents (store c') = alter (Store.touched start) k (contents (store c)) ∧
    (if hit then ∃ l, called (OnAccess k (Some l)) (policy c) (policy c') else policy c' = policy c) ∧
    metrics c' = Collector.RecordRequest (get_request k (Store.old_size old) start (seq c'))
      hit (time_Sub stop start) (metrics c).
Proof.
  intros Hi old hit. destruct (Get_spec k start stop c Hi) as (c' & Hrun & Hi' & _ & Hseq & _ & Hpo & Hc & Hm).
  exists c'. rewrite Hseq. done.
Qed.

(** C15: a policy switch keeps the cache.  [SetPolicy] leaves the store as it
    is, entries and addresses included, and the policy installed, sound before
    whatever it tracked, then tracks exactly the resident entries. *)
Theorem SetPolicy_keeps_objects `{GoRuntime} p c :
  core_inv c → policy_sound (Some p) →
  ∃ c' p', SetPolicy (Some p) c = Ret c' ∧ core_inv c' ∧ store c' = store c ∧ seq c' = seq c ∧
    policy c' = Some p' ∧ represents p' (pointers (store c)) ∧
    Collector.policy (metrics c') = Name p'.
Proof.
  intros Hi Hp. destruct (SetPolicy_spec (Some p) c Hi Hp) as (c' & Hrun & Hi' & Hst & Hseq & Hsome & Hm).
  destruct (proj2 Hsome) as [p' Hp']; [done|]. exists c', p'. split_and!; try done.
  - rewrite <-Hst. by apply (cv_policy c' Hi').
  - rewrite Hm, Hp'. done.
Qed.
End contracts.

(** ** Termination *)

Section termination.
Context `{EvictionPolicy P} `{Bus B}.
Implicit Types c : Core P B.

(** The policy and the bus return, whatever they answer. *)
Definition policy_returns : Prop :=
  (∀ p : P, Victim p ≠ Diverge) ∧ (∀ k e (p : P), OnRemove k e p ≠ Diverge) ∧
  (∀ k e (p : P), OnInsert k e p ≠ Diverge).
Definition bus_returns : Prop := ∀ e (b : B), bus_Publish e b ≠ Diverge.

Lemma bind_not_Diverge {A C} (m : outcome A) (f : A → outcome C) :
  m ≠ Diverge → (∀ a, m = Ret a → f a ≠ Diverge) → (m ≫= f) ≠ Diverge.
Proof. destruct m; simpl; auto. Qed.

Lemma or_panic_returns {A} (o : option A) : or_panic o ≠ Diverge.
Proof. by destruct o. Qed.

Lemma call_policy_returns f c :
  (∀ p : P, f p ≠ Diverge) → call_policy f c ≠ Diverge.
Proof.
  intros Hf. unfold call_policy. destruct (policy c) as [p|]; [|done].
  by apply bind_not_Diverge; [apply Hf|].
Qed.

Lemma call_policy_store f c c' : call_policy f c = Ret c' → store c' = store c.
Proof.
  unfold call_policy. destruct (policy c) as [p|]; [|by intros [= <-]].
  intros (p' & _ & [= <-])%bind_Ret_inv. done.
Qed.

Lemma publish_store e c c' : publish e c = Ret c' → store c' = store c.
Proof.
  unfold publish. destruct (bus c) as [b|]; [|by intros [= <-]].
  intros (b' & _ & [= <-])%bind_Ret_inv. done.
Qed.

(** A successful eviction removes a key of the store. *)
Lemma evictOneLocked_shrinks sq now c c' :
  evictOneLocked sq now c = Ret (c', true) →
  (base.size (Store.items (store c')) < base.size (Store.items (store c)))%nat.
Proof.
  unfold evictOneLocked. destruct (policy c) as [p|]; [|done].
  intros ([p1 [k|]] & _ & Hrun)%bind_Ret_inv; [|done].
  apply bind_Ret_inv in Hrun as ([st r] & Hrem & Hrun).
  apply bind_Ret_inv in Hrun as (c1 & Hcall%call_policy_store & Hrun).
  unfold Store.Remove in Hrem. cbn [with_policy store] in Hrem.
  destruct (Store.items (store c) !! k) as [l|] eqn:Hl; [|by simplify_eq].
  apply bind_Ret_inv in Hrem as (e & _ & Hst). injection Hst as <- <-.
  apply bind_Ret_inv in Hrun as (ent & _ & Hrun).
  apply bind_Ret_inv in Hrun as (c2 & Hpub%publish_store & Hrun). injection Hrun as <-.
  rewrite Hpub. cbn [with_metrics store]. rewrite Hcall. cbn [with_store store Store.items].
  rewrite map_size_delete_Some by eauto.
  assert (base.size (Store.items (store c)) ≠ 0%nat); [|lia].
  intros Hz%map_size_empty_iff. by rewrite Hz in Hl.
Qed.

Lemma Insert_error_store k val size now s s' err :
  Store.Insert k val size now s = Ret (s', inl err) → s' = s.
Proof.
  unfold Store.Insert. repeat case_match; try naive_solver.
  intros (ex & _ & Hrun)%bind_Ret_inv. repeat case_match; naive_solver.
Qed.

Lemma Insert_returns k val size now s : Store.Insert k val size now s ≠ Diverge.
Proof.
  unfold Store.Insert. repeat case_match; try done. apply bind_not_Diverge; [apply or_panic_returns|].
  intros. by case_match.
Qed.

Lemma Remove_returns k s : Store.Remove k s ≠ Diverge.
Proof. unfold Store.Remove. case_match; [|done]. by apply bind_not_Diverge; [apply or_panic_returns|]. Qed.

Lemma evictOneLocked_returns sq now c :
  policy_returns → bus_returns → evictOneLocked sq now c ≠ Diverge.
Proof.
  intros (Hv & Hr & _) Hb. unfold evictOneLocked. destruct (policy c) as [p|]; [|done].
  apply bind_not_Diverge; [apply Hv|]. intros [p1 [k|]] _; [|done].
  apply bind_not_Diverge; [apply Remove_returns|]. intros [st e] _.
  apply bind_not_Diverge; [by apply call_policy_returns|]. intros c1 _. destruct e as [l|]; [|done].
  apply bind_not_Diverge; [apply or_panic_returns|]. intros ent _.
  apply bind_not_Diverge; [|done]. unfold publish. cbn [with_metrics bus]. destruct (bus c1); [|done].
  by apply bind_not_Diverge.
Qed.

Lemma put_loop_returns fuel k val size now sq c :
  policy_returns → bus_returns → (base.size (Store.items (store c)) < fuel)%nat →
  put_loop fuel k val size now sq c ≠ Diverge.
Proof.
  intros Hp Hb. revert c. induction fuel as [|fuel IH]; intros c Hf; [lia|]. cbn [put_loop].
  apply bind_not_Diverge; [apply Insert_returns|]. intros [st [err|l]] Hins.
  - apply Insert_error_store in Hins as ->. case_match; [done|].
    apply bind_not_Diverge; [by apply evictOneLocked_returns|]. intros [c1 [|]] Hev; [|done].
    apply IH. apply evictOneLocked_shrinks in Hev. cbn [with_store store] in Hev. lia.
  - apply bind_not_Diverge; [|done]. apply call_policy_returns, Hp.
Qed.

(** C13: [Put] ends, whatever the policy answers: with methods that return, a
    policy that names keys that are not resident, or nothing, or the same key
    for ever cannot make the eviction loop run on, for every turn of the loop
    either ends it or removes an entry. *)
Theorem Put_terminates k val size now c :
  policy_returns → bus_returns → Put k val size now c ≠ Diverge.
Proof.
  intros Hp Hb. unfold Put, Put_locked. destruct (policy (next_seq c)) as [p|]; [case_match; [done|]|];
    apply put_loop_returns; auto; lia.
Qed.
End termination.

(** ** Histories *)

Inductive core_op (P : Type) :=
| CGet (k : string) (start stop : Z)
| CPut (k : string) (val : Value) (size now : Z)
| CRemove (k : string)
| CSetPolicy (po : option P)
| CClear
| CStats (rt : Memory.RuntimeMemory).
Arguments CGet {P}.
Arguments CPut {P}.
Arguments CRemove {P}.
Arguments CSetPolicy {P}.
Arguments CClear {P}.
Arguments CStats {P}.

Section histories.
Context `{GoRuntime} `{LawfulPolicy P} `{LawfulBus B}.
Implicit Types c : Core P B.

Definition run_core_op (o : core_op P) c : outcome (Core P B) :=
  match o with
  | CGet k start stop => '(c, _) ← Get k start stop c; Ret c
  | CPut k val size now => '(c, _) ← Put k val size now c; Ret c
  | CRemove k => '(c, _) ← Remove k c; Ret c
  | CSetPolicy po => SetPolicy po c
  | CClear => Ret (Clear c)
  | CStats rt => Ret (Stats rt c).1
  end.

Definition run_core : list (core_op P) → Core P B → outcome (Core P B) := for_each run_core_op.

Definition core_op_ok (o : core_op P) : Prop :=
  match o with
  | CPut k _ size _ => key_ok k ∧ is_i64 size
  | CSetPolicy po => policy_sound po
  | _ => True
  end.

Definition options_ok (opts : Options P B) : Prop :=
  0 ≤ OCapacity opts ≤ Store.maxCapacity ∧ is_u64 (RequestSampleRate opts) ∧
  tracks (OPolicy opts) ∅ ∧ bus_sound (OBus opts).

Lemma core_inv_New opts : options_ok opts → core_inv (New opts).
Proof.
  intros (Hcap & Hrate & Hpol & Hbus). split; cbn; try done.
  - by apply Store.store_inv_New.
  - intros k [? Hk]. by rewrite lookup_empty in Hk.
  - unfold is_u64 in Hrate. destruct (Z.eqb_spec (RequestSampleRate opts) 0); lia.
Qed.

Lemma run_core_op_inv o c :
  core_inv c → core_op_ok o →
  ∃ c', run_core_op o c = Ret c' ∧ core_inv c' ∧ Capacity c' = Capacity c.
Proof.
  intros Hi Hok. unfold Capacity, Store.Capacity. destruct o as [k start stop|k val size now|k|po| |rt]; cbn [run_core_op].
  - destruct (Get_spec k start stop c Hi) as (c' & -> & Hi' & Hcap & _). simpl. eauto.
  - destruct Hok as [Hk Hsz].
    destruct (Put_spec k val size now c Hi Hk Hsz) as (c' & r & -> & Hi' & Hcap & _). simpl. eauto.
  - destruct (cache_Remove_spec k c Hi) as (c' & -> & Hi' & Hcap & _). simpl. eauto.
  - destruct (SetPolicy_spec po c Hi Hok) as (c' & -> & Hi' & Hst & _). rewrite <-Hst. eauto.
  - destruct (cache_Clear_spec c Hi) as (Hi' & _ & _ & _ & Hcap). eauto.
  - destruct (Stats_spec rt c Hi) as (Hi' & Hst). rewrite <-Hst. eauto.
Qed.

Lemma run_core_inv ops c :
  core_inv c → Forall core_op_ok ops →
  ∃ c', run_core ops c = Ret c' ∧ core_inv c' ∧ Capacity c' = Capacity c.
Proof.
  intros Hi Hops. revert c Hi. unfold run_core.
  induction Hops as [|o ops Ho _ IH]; intros c Hi; [eauto|]. cbn [for_each].
  destruct (run_core_op_inv o c Hi Ho) as (c1 & -> & Hi1 & Hc1).
  destruct (IH c1 Hi1) as (c2 & Hrun & Hi2 & Hc2). exists c2. split_and!; [done|done|congruence].
Qed.

(** C5: every history of cache operations is sound.  From a new cache of any
    capacity up to 2^62-1, any sequence of gets, puts, removals, policy
    switches, clears and statistics returns (nothing panics, nothing loops);
    the bytes counted are exactly the sizes of the resident objects and never
    exceed the capacity; and the policy installed tracks exactly the resident
    entries, at their addresses. *)
Theorem core_history_sound opts ops :
  options_ok opts → Forall core_op_ok ops →
  ∃ c, run_core ops (New opts) = Ret c ∧ Capacity c = OCapacity opts ∧
    Bytes c = Store.payload (contents (store c)) ∧ 0 ≤ Bytes c ≤ Capacity c ∧
    Len c = Z.of_nat (base.size (contents (store c))) ∧
    (∀ p, policy c = Some p → represents p (pointers (store c))).
Proof.
  intros Hopts Hops.
  destruct (run_core_inv ops _ (core_inv_New opts Hopts) Hops) as (c & Hrun & Hi & Hcap).
  exists c. change (Capacity (New opts)) with (OCapacity opts) in Hcap.
  pose proof Hi as [Hst Hpol _ _ _]. pose proof (Store.bytes_range _ Hst) as Hr.
  unfold Bytes, Store.Bytes, Len, Store.Len, Capacity, Store.Capacity in *.
  rewrite Store.size_contents by done. pose proof (Store.st_bytes _ Hst). pose proof (Store.st_bound _ Hst).
  split_and!; try done; lia.
Qed.
End histories.

(** ** Sampling *)

(** A bus that records what is published. *)
#[global] Instance recorder : Bus (list Event) | 100 := {| bus_Publish e log := Ret (log ++ [e]) |}.
#[global, refine] Instance recorder_lawful : LawfulBus (list Event) | 100 := {| bus_ok _ := True |}.
Proof. intros e b _. by eexists. Defined.

Section sampling.
Context `{LawfulPolicy P}.
Implicit Types c : Core P (list Event).

(** One turn of the request loop of the demo: look a key up, and fill a miss. *)
Definition fill (k : string) (val : Value) (size now : Z) c : outcome (Core P (list Event)) :=
  '(c, v) ← Get k now now c;
  match v with
  | Some _ => Ret c
  | None => '(c, _) ← Put k val size now c; Ret c
  end.

(** The events a sampled request leaves. *)
Definition request_events (bo : option (list Event)) : list Event :=
  filter (λ e, EType e = TypeHit ∨ EType e = TypeMiss ∨ EType e = TypeRequest) (default [] bo).

Lemma call_policy_bus {B} f (c c' : Core P B) : call_policy f c = Ret c' → bus c' = bus c.
Proof.
  unfold call_policy. destruct (policy c) as [p|]; [|by intros [= <-]].
  intros (p' & _ & [= <-])%bind_Ret_inv. done.
Qed.

Lemma evictOneLocked_events sq now c c' ok :
  evictOneLocked sq now c = Ret (c', ok) → request_events (bus c') = request_events (bus c).
Proof.
  unfold evictOneLocked. destruct (policy c) as [p|]; [|done].
  intros ([p1 [k|]] & _ & Hrun)%bind_Ret_inv; [|by simplify_eq].
  apply bind_Ret_inv in Hrun as ([st r] & _ & Hrun).
  apply bind_Ret_inv in Hrun as (c1 & Hcall%call_policy_bus & Hrun).
  destruct r as [l|]; [|by simplify_eq; rewrite Hcall].
  apply bind_Ret_inv in Hrun as (ent & _ & Hrun).
  apply bind_Ret_inv in Hrun as (c2 & Hpub & Hrun). simplify_eq.
  cbn [with_store with_policy bus] in Hcall.
  unfold publish in Hpub. cbn [with_metrics bus] in Hpub. rewrite Hcall in Hpub. cbn in Hpub.
  destruct (bus c) as [log|]; simplify_eq; cbn; [|by rewrite Hcall].
  unfold request_events. cbn. rewrite filter_app, filter_cons_False, filter_nil, app_nil_r; [done|].
  by intros [|[|]].
Qed.

Lemma Put_events k val size now c c' r :
  Put k val size now c = Ret (c', r) → request_events (bus c') = request_events (bus c).
Proof.
  assert (Hloop : ∀ fuel sq c c' r, put_loop fuel k val size now sq c = Ret (c', r) →
    request_events (bus c') = request_events (bus c)).
  { clear c c' r. induction fuel as [|fuel IH]; intros sq c c' r; [done|]. cbn [put_loop].
    intros ([st [err|l]] & _ & Hrun)%bind_Ret_inv.
    - case_match; [by simplify_eq|]. apply bind_Ret_inv in Hrun as ([c1 [|]] & Hev%evictOneLocked_events & Hrun).
      + rewrite (IH _ _ _ _ Hrun). done.
      + by simplify_eq.
    - apply bind_Ret_inv in Hrun as (c1 & Hcall%call_policy_bus & Hrun). simplify_eq. cbn. by rewrite Hcall. }
  unfold Put, Put_locked. destruct (policy (next_seq c)) as [p|]; [case_match; [by intros; simplify_eq|]|];
    intros Hrun%Hloop; done.
Qed.

Lemma Get_unsampled k start stop c c' v :
  Get k start stop c = Ret (c', v) → u64 (seq c + 1) mod sampleRate c ≠ 0 → bus c' = bus c.
Proof.
  unfold Get, Get_locked. intros Hrun Hns. apply bind_Ret_inv in Hrun as ([[c1 hit] val] & Hl & Hrun).
  apply bind_Ret_inv in Hl as ([st e] & _ & Hl). apply bind_Ret_inv in Hl as (val' & _ & Hl).
  apply bind_Ret_inv in Hl as (c1' & Hcall & [= -> <- <-]). apply bind_Ret_inv in Hrun as (c2 & Hpub & Hrun).
  apply bind_Ret_inv in Hpub as (smp & Hs & Hpub).
  assert (Hc1 : bus c1 = bus c ∧ sampleRate c1 = sampleRate c).
  { destruct e as [l|]; [|by simplify_eq]. unfold call_policy in Hcall. cbn [with_store policy] in Hcall.
    destruct (policy (next_seq c)); [|by simplify_eq].
    apply bind_Ret_inv in Hcall as (p' & _ & Hcall). by simplify_eq. }
  destruct Hc1 as [Hb Hrate]. unfold sampled in Hs. cbn [Get_record with_metrics sampleRate next_seq seq] in Hs.
  rewrite Hrate in Hs. destruct (sampleRate c =? 0); [done|]. injection Hs as <-.
  destruct (Z.eqb_spec (u64 (seq c + 1) mod sampleRate c) 0); [done|].
  cbn in Hpub. by simplify_eq.
Qed.

Lemma odd_not_sampled s rate : Z.even s = true → Z.even rate = true → 0 < rate →
  u64 (s + 1) mod rate ≠ 0.
Proof.
  intros Hs Hr Hpos Hm. apply Z.mod_divide in Hm as [q Hq]; [|lia].
  apply Z.even_spec in Hs as [a ->]. apply Z.even_spec in Hr as [b ->]. unfold wrapU in Hq.
  pose proof (Z.div_mod (2 * a + 1) (2 ^ 64)). lia.
Qed.

Lemma even_u64_succ2 s : Z.even s = true → Z.even (u64 (u64 (s + 1) + 1)) = true.
Proof.
  intros Hs. rewrite u64_add_l. replace (s + 1 + 1) with (s + 2) by lia. unfold wrapU.
  apply Z.even_spec in Hs as [a ->]. apply Z.even_spec.
  exists ((a + 1) - 2 ^ 63 * ((2 * a + 2) / 2 ^ 64)).
  pose proof (Z.div_mod (2 * a + 2) (2 ^ 64)). lia.
Qed.

Lemma fill_miss k val size now c :
  core_inv c → key_ok k → is_i64 size → contents (store c) !! k = None →
  Z.even (seq c) = true → Z.even (sampleRate c) = true →
  ∃ c', fill k val size now c = Ret c' ∧ core_inv c' ∧ Z.even (seq c') = true ∧
    sampleRate c' = sampleRate c ∧ request_events (bus c') = request_events (bus c) ∧
    (∀ j, is_Some (contents (store c') !! j) → j = k ∨ is_Some (contents (store c) !! j)).
Proof.
  intros Hi Hk Hsz Hmiss Heven Hrate. unfold fill.
  destruct (Get_spec k now now c Hi) as (c1 & Hget & Hi1 & _ & Hseq1 & Hrate1 & _ & Hc1 & _).
  rewrite Hget. rewrite Hmiss. cbn [mbind outcome_bind fmap option_fmap option_map].
  destruct (Put_spec k val size now c1 Hi1 Hk Hsz) as (c2 & r & Hput & Hi2 & _ & Hseq2 & Hrate2 & Hr).
  rewrite Hput. cbn [mbind outcome_bind]. exists c2.
  assert (Hsame : contents (store c1) = contents (store c)).
  { rewrite Hc1. apply alter_id. intros e He. congruence. }
  split_and!; try done.
  - rewrite Hseq2, Hseq1. by apply even_u64_succ2.
  - congruence.
  - rewrite (Put_events _ _ _ _ _ _ _ Hput). f_equal. eapply Get_unsampled; [exact Hget|].
    apply odd_not_sampled; [done|done|apply (cv_rate c Hi)].
  - intros j Hj. destruct (admits k size c1).
    + destruct r as [err|].
      * destruct Hr as [Hc2 _]. rewrite Hc2, Hsame in Hj. by right.
      * destruct Hr as (_ & vs & po & m & l & Hev & _ & Hc2 & _). rewrite Hc2 in Hj.
        destruct (decide (j = k)) as [->|Hjk]; [by left|]. rewrite lookup_insert_ne in Hj by done.
        right. rewrite <-Hsame. clear -Hev Hj. induction Hev; [done|].
        apply IHHev in Hj. destruct Hj as [y Hy]. apply lookup_delete_Some in Hy as [_ Hy]. eauto.
    + destruct Hr as [_ ->]. right. by rewrite <-Hsame.
Qed.

(** The sampling rate does not sample requests.  The source promises one
    event in [RequestSampleRate] requests, but the sequence number it samples
    on also counts the insertions: when every lookup misses and is filled, as
    in the request loop of the demo on a cold cache, lookups have the odd
    numbers, and with an even rate (the default is 1000) no request event is
    ever published, however many requests are served. *)
Theorem sampling_misses_alternating_requests opts val size now ks :
  options_ok opts → Z.even (RequestSampleRate opts) = true →
  RequestSampleRate opts ≠ 0 → NoDup ks → Forall key_ok ks → is_i64 size → OBus opts = Some [] →
  ∃ c, for_each (λ k, fill k val size now) ks (New opts) = Ret c ∧ request_events (bus c) = [].
Proof.
  intros Hopts Heven Hne Hnd Hok Hsz Hbus.
  destruct (for_each_ind (λ k, fill k val size now)
    (λ ks c, NoDup ks ∧ Forall key_ok ks ∧ core_inv c ∧ Z.even (seq c) = true ∧
      sampleRate c = RequestSampleRate opts ∧ request_events (bus c) = [] ∧
      ∀ k, k ∈ ks → contents (store c) !! k = None) ks (New opts)) as (c & Hrun & Hfin).
  - split_and!; try done.
    + by apply core_inv_New.
    + cbn. by destruct (Z.eqb_spec (RequestSampleRate opts) 0).
    + cbn. by rewrite Hbus.
  - clear Hnd Hok. intros k ks' c ([Hk Hnd]%NoDup_cons & [Hkok Hok]%Forall_cons & Hi & Hev & Hrate & Hreq & Hmiss).
    destruct (fill_miss k val size now c Hi Hkok Hsz) as (c' & Hrun & Hi' & Hev' & Hrate' & Hreq' & Hcon);
      [apply Hmiss; left|done|by rewrite Hrate|].
    exists c'. split_and!; try done; [congruence|congruence|].
    intros j Hj. destruct (contents (store c') !! j) as [e|] eqn:Ej; [|done]. exfalso.
    destruct (Hcon j) as [->|Hj']; [eauto|done|]. rewrite (Hmiss j) in Hj' by (by right). by destruct Hj'.
  - exists c. split; [done|]. apply Hfin.
Qed.
End sampling.

(** ** A concrete cache: LRU, 100 bytes, every request sampled *)

Definition sample_opts : Options LRU.LRU (list Event) :=
  {| OCapacity := 100; OPolicy := Some LRU.NewLRU; OBus := Some []; OMetrics := None; RequestSampleRate := 0 |}.

Lemma sample_opts_ok : options_ok sample_opts.
Proof.
  split_and!; cbn; try done. intros p [= <-]. apply LRU.lru_represents_New.
Qed.

Definition sample_ops : list (core_op LRU.LRU) := [CPut "a" [] 60 1; CPut "b" [] 30 2; CGet "b" 3 4].

Lemma sample_ops_ok : Forall core_op_ok sample_ops.
Proof. repeat constructor; unfold is_i64; lia. Qed.

Definition sample_core : Core LRU.LRU (list Event) :=
  match run_core sample_ops (New sample_opts) with Ret c => c | _ => New sample_opts end.

Lemma sample_core_inv : core_inv sample_core.
Proof.
  destruct (run_core_inv sample_ops _ (core_inv_New _ sample_opts_ok) sample_ops_ok) as (c & Hrun & Hi & _).
  unfold sample_core. by rewrite Hrun.
Qed.

(** The keys and sizes of a cache, and the keys of a list of evictions. *)
Definition sizes (c : Core LRU.LRU (list Event)) : list (string * Z) :=
  map_to_list (Size <$> contents (store c)).

(** Storing 50 bytes under "c" evicts "a", the least recently used, and no more. *)
Lemma Put_evicts_as_needed_witness :
  ∃ c' r, Put "c" [] 50 5 sample_core = Ret (c', r) ∧ r = None ∧ core_inv c' ∧
    sizes c' ≡ₚ [("b", 30); ("c", 50)]%string ∧
    Collector.evictions (metrics c') = 1 ∧ Collector.evictedBytes (metrics c') = 60.
Proof.
  destruct (Put_evicts_as_needed "c" [] 50 5 sample_core sample_core_inv) as (c' & r & Hrun & Hi & Hr);
    [done|unfold is_i64; lia|by vm_compute; eauto|reflexivity|].
  exists c', r. split; [done|]. rewrite decide_True in Hr by (vm_compute; split; congruence).
  split; [apply Hr|]. split; [done|]. clear Hi Hr. vm_compute in Hrun. injection Hrun as <- <-.
  split_and!; [|reflexivity|reflexivity].
  apply NoDup_Permutation; [apply NoDup_map_to_list|by apply (bool_decide_unpack _)|].
  intros x. vm_compute (sizes _). set_solver.
Defined.

(** With no policy, 30 bytes fit next to 60 and then 20 more do not. *)
Definition bare_opts : Options LRU.LRU (list Event) :=
  {| OCapacity := 100; OPolicy := None; OBus := None; OMetrics := None; RequestSampleRate := 7 |}.

Lemma bare_opts_ok : options_ok bare_opts.
Proof. by split_and!. Qed.

Lemma Put_without_policy_witness :
  ∃ c', Put "a" [] 101 1 (New bare_opts) = Ret (c', Some Store.ErrObjectTooLarge) ∧
    contents (store c') = ∅ ∧ policy c' = None.
Proof.
  destruct (Put_without_policy "a" [] 101 1 (New bare_opts) (core_inv_New _ bare_opts_ok))
    as (c' & r & Hrun & _ & Hp & Hr); [done|unfold is_i64; lia|done|].
  exists c'. destruct Hr as (-> & Hc & _). split_and!; [done|exact Hc|done].
Defined.

Lemma Get_hits_resident_witness :
  ∃ c', Get "a" 7 9 sample_core = Ret (c', Some []) ∧ core_inv c' ∧
    LastAccessTime <$> contents (store c') !! "a"%string = Some 7 ∧ Collector.hits (metrics c') = 2.
Proof.
  destruct (Get_hits_resident "a" 7 9 sample_core sample_core_inv) as (c' & Hrun & Hi & Hc & _ & Hm).
  exists c'. split_and!; [exact Hrun|done|rewrite Hc; reflexivity|rewrite Hm; reflexivity].
Defined.

Lemma SetPolicy_keeps_objects_witness :
  ∃ c', SetPolicy (Some LRU.NewLRU) sample_core = Ret c' ∧ core_inv c' ∧ store c' = store sample_core ∧
    Collector.policy (metrics c') = PolicyLRU.
Proof.
  destruct (SetPolicy_keeps_objects LRU.NewLRU sample_core sample_core_inv)
    as (c' & p' & Hrun & Hi & Hst & _ & _ & _ & Hn).
  { intros p [= <-]. exists ∅. apply LRU.lru_represents_New. }
  exists c'. split_and!; done.
Defined.

Lemma Put_terminates_witness : Put "c" [] 50 5 sample_core ≠ Diverge.
Proof. apply Put_terminates; [|done]. by unfold policy_returns; split_and!. Defined.

(** Two puts, a get, a switch to a fresh LRU and a removal. *)
Lemma core_history_sound_witness :
  ∃ c, run_core (sample_ops ++ [CSetPolicy (Some LRU.NewLRU); CPut "c" [] 40 6; CRemove "c"]) (New sample_opts) = Ret c ∧
    0 ≤ Bytes c ≤ 100 ∧ Len c = 1.
Proof.
  destruct (core_history_sound sample_opts (sample_ops ++ [CSetPolicy (Some LRU.NewLRU); CPut "c" [] 40 6; CRemove "c"]))
    as (c & Hrun & Hcap & _ & Hb & _).
  - apply sample_opts_ok.
  - apply Forall_app. split; [apply sample_ops_ok|]. repeat constructor; try (unfold is_i64; lia).
    intros p [= <-]. exists ∅. apply LRU.lru_represents_New.
  - exists c. rewrite Hcap in Hb. split_and!; [exact Hrun|apply Hb|apply Hb|].
    vm_compute in Hrun. injection Hrun as <-. reflexivity.
Defined.

Lemma sampling_misses_witness :
  ∃ c, for_each (λ k, fill k [] 40 0) ["a"; "b"; "c"; "d"]%string
      (New {| OCapacity := 100; OPolicy := Some LRU.NewLRU; OBus := Some []; OMetrics := None;
              RequestSampleRate := 2 |}) = Ret c ∧
    request_events (bus c) = [] ∧ Collector.total (metrics c) = 4.
Proof.
  destruct (sampling_misses_alternating_requests (P := LRU.LRU)
    {| OCapacity := 100; OPolicy := Some LRU.NewLRU; OBus := Some []; OMetrics := None;
       RequestSampleRate := 2 |} [] 40 0 ["a"; "b"; "c"; "d"]%string) as (c & Hrun & Hreq).
  - split_and!; cbn; try done.
    intros p [= <-]. apply LRU.lru_represents_New.
  - reflexivity.
  - done.
  - by apply (bool_decide_unpack _).
  - repeat constructor.
  - unfold is_i64; lia.
  - reflexivity.
  - exists c. split_and!; [done|done|]. vm_compute in Hrun. injection Hrun as <-. reflexivity.
Defined.
