(* ===== verification/Cache.v ===== *)
(** * cache/cache.go: the Cache interface

    [Cache] has the methods of the Go interface, each as a function on the
    state of the cache; the clock and the process statistics that the
    implementations read are arguments.  [LawfulCache] is what a client may
    rely on: the cache stands for a finite map from keys to values with their
    sizes, of which it may forget what it likes, and nothing else.  [Core]
    keeps the contract with any lawful policy and bus; a client that fills
    misses from a backend is proved against the contract alone. *)
From S2P Require Import Prelude GoFloat Types Policy Events Core.
From S2P Require Store.
From S2P Require Memory.
From S2P Require Collector.
From S2P Require LRU.
From S2P Require CoreSpec.

Class Cache (C : Type) := {
  cache_Get : string → Z → Z → C → outcome (C * option Value);
  cache_Put : string → Value → Z → Z → C → outcome (C * option store_error);
  cache_Remove : string → C → outcome (C * bool);
  cache_Contains : string → C → bool;
  cache_Len : C → Z;
  cache_Bytes : C → Z;
  cache_Capacity : C → Z;
  cache_Stats : Memory.RuntimeMemory → C → C * Collector.Stats;
  cache_Clear : C → C;
}.

(** The objects of a cache: their values and sizes. *)
Abbreviation objects := (gmap string (Value * Z)).

Definition object_bytes (m : objects) : Z := map_sum (λ _ o, o.2) m.

(** After a put: an error says why and changes nothing; without one the object
    is there, or was not admitted, and no other object appeared. *)
Definition put_effect (k : string) (val : Value) (size cap : Z) (m m' : objects)
    (r : option store_error) : Prop :=
  match r with
  | Some Store.ErrInvalidSize => size < 0 ∧ m' = m
  | Some Store.ErrObjectTooLarge => cap < size ∧ m' = m
  | Some Store.ErrCapacityExceeded => 0 ≤ size ≤ cap ∧ m' = m
  | None => m' = m ∨ 0 ≤ size ≤ cap ∧ m' !! k = Some (val, size) ∧ delete k m' ⊆ m
  end.

Class LawfulCache (C : Type) `{Cache C} := {
  cache_key_ok : string → Prop;
  cache_ok : C → Prop;
  cache_map : C → objects;
  law_Get k start stop c : cache_ok c →
    ∃ c', cache_Get k start stop c = Ret (c', fst <$> cache_map c !! k) ∧ cache_ok c' ∧
      cache_map c' = cache_map c ∧ cache_Capacity c' = cache_Capacity c;
  law_Put k val size now c : cache_ok c → cache_key_ok k → is_i64 size →
    ∃ c' r, cache_Put k val size now c = Ret (c', r) ∧ cache_ok c' ∧
      put_effect k val size (cache_Capacity c) (cache_map c) (cache_map c') r ∧
      cache_Capacity c' = cache_Capacity c;
  law_Remove k c : cache_ok c →
    ∃ c', cache_Remove k c = Ret (c', bool_decide (is_Some (cache_map c !! k))) ∧ cache_ok c' ∧
      cache_map c' = delete k (cache_map c) ∧ cache_Capacity c' = cache_Capacity c;
  law_Clear c : cache_ok c →
    cache_ok (cache_Clear c) ∧ cache_map (cache_Clear c) = ∅ ∧ cache_Capacity (cache_Clear c) = cache_Capacity c;
  law_Contains k c : cache_ok c → cache_Contains k c = bool_decide (is_Some (cache_map c !! k));
  law_Len c : cache_ok c → cache_Len c = Z.of_nat (size (cache_map c));
  law_Bytes c : cache_ok c → cache_Bytes c = object_bytes (cache_map c) ∧ 0 ≤ cache_Bytes c ≤ cache_Capacity c;
  law_Stats rt c : cache_ok c →
    let '(c', s) := cache_Stats rt c in
    cache_ok c' ∧ cache_map c' = cache_map c ∧ cache_Capacity c' = cache_Capacity c ∧
    Collector.SBytesUsed s = cache_Bytes c ∧ Collector.SObjectCount s = cache_Len c ∧
    Collector.SCapacity s = cache_Capacity c;
}.

(** ** Core is a lawful cache *)
Section core.
Context `{GoRuntime} `{LawfulPolicy P} `{LawfulBus B}.
Implicit Types c : Core P B.

#[global] Instance Core_cache : Cache (Core P B) := {|
  cache_Get := Core.Get;
  cache_Put := Core.Put;
  cache_Remove := Core.Remove;
  cache_Contains := Core.Contains;
  cache_Len := Core.Len;
  cache_Bytes := Core.Bytes;
  cache_Capacity := Core.Capacity;
  cache_Stats := Core.Stats;
  cache_Clear := Core.Clear;
|}.

Definition object (e : Entry) : Value * Z := (EValue e, Size e).
Definition core_objects c : objects := object <$> contents (store c).

Lemma core_objects_lookup k c : core_objects c !! k = object <$> contents (store c) !! k.
Proof. apply lookup_fmap. Qed.

Lemma core_hit k c : bool_decide (is_Some (core_objects c !! k)) = bool_decide (is_Some (contents (store c) !! k)).
Proof. rewrite core_objects_lookup. by destruct (_ !! k). Qed.

Lemma evicts_subseteq k size cap (po po' : option P) m m' vs :
  evicts k size cap po m vs po' m' → m' ⊆ m.
Proof. induction 1; [done|]. etrans; [eassumption|apply delete_subseteq]. Qed.

Lemma touched_objects k now (m : gmap string Entry) : object <$> alter (Store.touched now) k m = object <$> m.
Proof.
  apply map_eq. intros j. rewrite !lookup_fmap. destruct (decide (j = k)) as [->|Hj].
  - rewrite lookup_alter_eq. by destruct (m !! k).
  - by rewrite lookup_alter_ne.
Qed.

Lemma Put_effect k val size now c :
  core_inv c → key_ok k → is_i64 size →
  ∃ c' r, Core.Put k val size now c = Ret (c', r) ∧ core_inv c' ∧
    put_effect k val size (Capacity c) (core_objects c) (core_objects c') r ∧ Capacity c' = Capacity c.
Proof.
  intros Hi Hk Hsz. destruct (Put_spec k val size now c Hi Hk Hsz) as (c' & r & Hrun & Hi' & Hcap & _ & _ & Hr).
  exists c', r. unfold put_effect, core_objects, Capacity, Store.Capacity. split_and!; [done..| |done].
  destruct (admits k size c); [|by destruct Hr as [-> ->]; left]. destruct r as [err|].
  - destruct Hr as (Hc & _ & _ & Hspec & _). unfold Store.spec_insert in Hspec. rewrite Hc.
    repeat case_decide; simplify_eq; split; done || lia.
  - destruct Hr as (Hr & vs & po & m & l & Hev & _ & Hc & _). right. rewrite Hc. split_and!; [lia..| |].
    + rewrite lookup_fmap, lookup_insert_eq. unfold Store.inserted. by case_match.
    + rewrite fmap_insert. rewrite delete_insert_eq. etrans; [apply delete_subseteq|].
      apply map_fmap_mono. by eapply evicts_subseteq.
Qed.

Lemma core_object_bytes c : core_inv c → Bytes c = object_bytes (core_objects c).
Proof.
  intros Hi. unfold Bytes, Store.Bytes. rewrite (Store.st_bytes _ (cv_store c Hi)).
  unfold Store.payload, object_bytes, map_sum, core_objects. by rewrite map_fold_fmap.
Qed.

Lemma Stats_reports rt c :
  core_inv c →
  let '(c', s) := Stats rt c in
  core_inv c' ∧ store c' = store c ∧ Collector.SBytesUsed s = Bytes c ∧
  Collector.SObjectCount s = Len c ∧ Collector.SCapacity s = Capacity c.
Proof.
  intros Hi. pose proof (Stats_spec rt c Hi) as Hs. unfold Stats in *.
  destruct (Memory_spec rt c Hi) as (_ & Hst & _).
  assert (Hobj : Memory.ObjectCount (Memory_ rt c).2 = Len c).
  { unfold Memory_. destruct (policy c) as [p|]; [|done]. by destruct (MetadataBytes p). }
  destruct (Memory_ rt c) as [c1 mem]. cbn in *. destruct Hs as [Hi' Hst'].
  unfold Bytes, Capacity. rewrite <-Hst. by split_and!.
Qed.

#[global, refine] Instance Core_lawful : LawfulCache (Core P B) := {|
  cache_key_ok := key_ok;
  cache_ok := core_inv;
  cache_map := core_objects;
|}.
Proof.
  - intros k start stop c Hi. destruct (Get_spec k start stop c Hi) as (c' & Hrun & Hi' & Hcap & _ & _ & _ & Hc & _).
    exists c'. cbn. rewrite core_objects_lookup, Hrun. unfold core_objects, Capacity, Store.Capacity.
    rewrite Hc, touched_objects. split_and!; try done. by destruct (_ !! k).
  - apply Put_effect.
  - intros k c Hi. destruct (cache_Remove_spec k c Hi) as (c' & Hrun & Hi' & Hcap & _ & _ & _ & Hc & _).
    exists c'. cbn. rewrite core_hit. split_and!; [done..| |done]. unfold core_objects. by rewrite Hc, fmap_delete.
  - intros c Hi. destruct (cache_Clear_spec c Hi) as (Hi' & Hc & _ & _ & Hcap).
    split_and!; [done| |done]. cbn. unfold core_objects. by rewrite Hc, fmap_empty.
  - intros k c Hi. cbn. rewrite core_hit. apply bool_decide_ext. pose proof (cv_store c Hi) as Hst.
    pose proof (Store.contents_None (store c) k Hst) as Hn. rewrite <-!not_eq_None_Some. tauto.
  - intros c Hi. cbn. unfold core_objects, Len, Store.Len. rewrite map_size_fmap, Store.size_contents; [done|apply Hi].
  - intros c Hi. cbn. rewrite <-core_object_bytes by done. split; [done|].
    pose proof (cv_store c Hi) as Hst. pose proof (Store.bytes_range _ Hst). pose proof (Store.st_bytes _ Hst).
    pose proof (Store.st_bound _ Hst). unfold Bytes, Store.Bytes, Capacity, Store.Capacity. lia.
  - intros rt c Hi. pose proof (Stats_reports rt c Hi) as Hs. cbn. destruct (Stats rt c) as [c' s].
    destruct Hs as (Hi' & Hst & Hrest). split_and!; [done|..|apply Hrest|apply Hrest|apply Hrest];
      unfold core_objects, Capacity; by rewrite Hst.
Defined.
End core.

(** ** A client that fills misses

    What the request loop of the demo does ([generate] in
    cmd/adaptive-cache/main.go) with a backend: a get and, after a miss, a put
    of the backend's value, whatever the put answers.  A client that also
    writes changes the backend and removes the key. *)
Section client.
Context `{Cache C}.

Definition read_through (origin : string → Value) (k : string) (t1 t2 : Z) (c : C) : outcome (C * Value) :=
  '(c, v) ← cache_Get k t1 t2 c;
  match v with
  | Some v => Ret (c, v)
  | None =>
      let v := origin k in
      '(c, _) ← cache_Put k v (Z.of_nat (length v)) t2 c;
      Ret (c, v)
  end.

Inductive client_op :=
| Read (k : string) (t1 t2 : Z)
| Write (k : string) (v : Value)
| Forget (k : string)
| ForgetAll
| Observe (rt : Memory.RuntimeMemory).

(** The backend after an operation, and what a client without a cache reads. *)
Definition written (o : client_op) (origin : string → Value) : string → Value :=
  match o with Write k v => λ j, if decide (j = k) then v else origin j | _ => origin end.

Definition direct (o : client_op) (origin : string → Value) : option Value :=
  match o with Read k _ _ => Some (origin k) | _ => None end.

Definition client_step (o : client_op) (origin : string → Value) (c : C) : outcome (C * option Value) :=
  match o with
  | Read k t1 t2 => '(c, v) ← read_through origin k t1 t2 c; Ret (c, Some v)
  | Write k _ => '(c, _) ← cache_Remove k c; Ret (c, None)
  | Forget k => '(c, _) ← cache_Remove k c; Ret (c, None)
  | ForgetAll => Ret (cache_Clear c, None)
  | Observe rt => Ret ((cache_Stats rt c).1, None)
  end.

Fixpoint run_client (ops : list client_op) (origin : string → Value) (c : C)
    : outcome (C * list (option Value)) :=
  match ops with
  | [] => Ret (c, [])
  | o :: ops =>
      '(c, r) ← client_step o origin c;
      '(c, rs) ← run_client ops (written o origin) c;
      Ret (c, r :: rs)
  end.

Fixpoint run_direct (ops : list client_op) (origin : string → Value) : list (option Value) :=
  match ops with
  | [] => []
  | o :: ops => direct o origin :: run_direct ops (written o origin)
  end.
End client.

Section transparent.
Context `{LawfulCache C}.
Implicit Types c : C.

Definition client_op_ok (o : client_op) : Prop :=
  match o with
  | Read k _ _ => cache_key_ok k
  | Write _ v => is_i64 (Z.of_nat (length v))
  | _ => True
  end.

(** The cache holds values of the backend only. *)
Definition coherent (origin : string → Value) c : Prop :=
  ∀ k v size, cache_map c !! k = Some (v, size) → v = origin k.

Definition values_fit (origin : string → Value) : Prop := ∀ k, is_i64 (Z.of_nat (length (origin k))).

Lemma coherent_subseteq origin c c' k :
  coherent origin c → delete k (cache_map c') ⊆ cache_map c →
  (∀ v size, cache_map c' !! k = Some (v, size) → v = origin k) → coherent origin c'.
Proof.
  intros Hc Hsub Hk j v size Hj. destruct (decide (j = k)) as [->|Hjk]; [by eapply Hk|].
  eapply Hc, lookup_weaken; [|exact Hsub]. by rewrite lookup_delete_ne.
Qed.

Lemma read_through_spec origin k t1 t2 c :
  cache_ok c → cache_key_ok k → values_fit origin → coherent origin c →
  ∃ c', read_through origin k t1 t2 c = Ret (c', origin k) ∧ cache_ok c' ∧ coherent origin c' ∧
    cache_Capacity c' = cache_Capacity c.
Proof.
  intros Hi Hk Hfit Hco. unfold read_through. destruct (law_Get k t1 t2 c Hi) as (c1 & -> & Hi1 & Hm1 & Hcap1).
  cbn [mbind outcome_bind]. destruct (cache_map c !! k) as [[v size]|] eqn:Hl; cbn [fmap option_fmap option_map fst].
  - exists c1. rewrite (Hco _ _ _ Hl). split_and!; try done. intros j w s. rewrite Hm1. apply Hco.
  - destruct (law_Put k (origin k) (Z.of_nat (length (origin k))) t2 c1 Hi1 Hk (Hfit k)) as (c2 & r & -> & Hi2 & He & Hcap2).
    cbn [mbind outcome_bind]. exists c2. split_and!; [done|done| |congruence].
    assert (Hsame : cache_map c2 = cache_map c1 → coherent origin c2) by (intros Heq j w s; rewrite Heq, Hm1; apply Hco).
    unfold put_effect in He. destruct r as [[]|]; [by apply Hsame, He..|].
    destruct He as [He|(_ & Hnew & Hsub)]; [by apply Hsame|].
    eapply (coherent_subseteq _ c _ k); [done|by rewrite <-Hm1|]. intros w s. rewrite Hnew. by intros [= <- _].
Qed.

Lemma client_step_spec o origin c :
  cache_ok c → client_op_ok o → values_fit origin → coherent origin c →
  ∃ c', client_step o origin c = Ret (c', direct o origin) ∧ cache_ok c' ∧ values_fit (written o origin) ∧
    coherent (written o origin) c' ∧ cache_Capacity c' = cache_Capacity c.
Proof.
  intros Hi Hok Hfit Hco. destruct o as [k t1 t2|k v|k| |rt]; cbn [client_step direct written].
  - destruct (read_through_spec origin k t1 t2 c Hi Hok Hfit Hco) as (c' & -> & Hi' & Hco' & Hcap). by exists c'.
  - destruct (law_Remove k c Hi) as (c' & -> & Hi' & Hm & Hcap). exists c'. split_and!; [done|done| | |done].
    + intros j. by case_decide.
    + intros j w s. rewrite Hm. intros [Hne Hj]%lookup_delete_Some. rewrite decide_False by done. by eapply Hco.
  - destruct (law_Remove k c Hi) as (c' & -> & Hi' & Hm & Hcap). exists c'. split_and!; [done|done|done| |done].
    intros j w s. rewrite Hm. intros [_ Hj]%lookup_delete_Some. by eapply Hco.
  - destruct (law_Clear c Hi) as (Hi' & Hm & Hcap). eexists. split_and!; [done|done|done| |done].
    intros j w s. by rewrite Hm, lookup_empty.
  - pose proof (law_Stats rt c Hi) as Hs. destruct (cache_Stats rt c) as [c' s]. destruct Hs as (Hi' & Hm & Hcap & _).
    exists c'. split_and!; [done|done|done| |done]. intros j w z. rewrite Hm. apply Hco.
Qed.

(** C6: the cache is transparent.  Over any cache that keeps the contract of
    the interface, started with values of the backend only, a client that
    fills misses from the backend and removes what it writes reads, in any
    sequence of reads, writes, removals, clears and statistics, exactly what it
    would read from the backend without a cache; nothing panics, whatever the
    puts answer, and the bytes stay within the capacity. *)
Theorem cache_transparent ops origin c :
  cache_ok c → Forall client_op_ok ops → values_fit origin → coherent origin c →
  ∃ c', run_client ops origin c = Ret (c', run_direct ops origin) ∧ cache_ok c' ∧
    coherent (foldl (flip written) origin ops) c' ∧
    0 ≤ cache_Bytes c' ≤ cache_Capacity c' ∧ cache_Capacity c' = cache_Capacity c.
Proof.
  intros Hi Hops Hfit Hco. revert origin c Hi Hfit Hco. induction Hops as [|o ops Ho _ IH]; intros origin c Hi Hfit Hco.
  - exists c. split_and!; try done; apply law_Bytes, Hi.
  - destruct (client_step_spec o origin c Hi Ho Hfit Hco) as (c1 & Hs & Hi1 & Hfit1 & Hco1 & Hcap1).
    destruct (IH _ c1 Hi1 Hfit1 Hco1) as (c2 & Hrun & Hi2 & Hco2 & Hb & Hcap2).
    exists c2. cbn [run_client run_direct foldl flip]. rewrite Hs. cbn [mbind outcome_bind]. rewrite Hrun.
    split_and!; try done; [lia|lia|congruence].
Qed.
End transparent.

(** A cache of 100 bytes with LRU that holds nothing: of three objects of 60
    bytes each read evicts the one before; after a write the new value is
    read. *)
Definition sixty (b : Byte.byte) : Value := replicate 60 b.

Lemma cache_transparent_witness :
  ∃ c', run_client [Read "a" 1 2; Read "b" 3 4; Read "a" 5 6; Write "a" (sixty Byte.x01); Read "a" 7 8]
      (λ _, sixty Byte.x00) (New CoreSpec.sample_opts) =
    Ret (c', [Some (sixty Byte.x00); Some (sixty Byte.x00); Some (sixty Byte.x00); None; Some (sixty Byte.x01)]) ∧
    cache_Bytes c' = 60.
Proof.
  destruct (cache_transparent [Read "a" 1 2; Read "b" 3 4; Read "a" 5 6; Write "a" (sixty Byte.x01); Read "a" 7 8]
    (λ _, sixty Byte.x00) (New CoreSpec.sample_opts)) as (c' & Hrun & _).
  - apply (CoreSpec.core_inv_New _ CoreSpec.sample_opts_ok).
  - repeat constructor; unfold is_i64; simpl; lia.
  - intros k. unfold is_i64. simpl. lia.
  - intros k v size Hk. vm_compute in Hk. discriminate Hk.
  - exists c'. split; [exact Hrun|]. vm_compute in Hrun. injection Hrun as <-. reflexivity.
Defined.
