(* ===== verification/CoreConc.v ===== *)
(** * cache/core.go: concurrent calls

    Any number of calls of [Get], [Put], [Remove], [Clear] and [SetPolicy] run
    at once.  A call is a sequence of atomic steps: taking a sequence number,
    the section under the cache's mutex, and what [Get] and [SetPolicy] do
    after they have unlocked it.  Steps of different calls interleave in any
    order.  A recording of the collector and a publication on the bus are one
    step each; the additions of a recording commute with all others, and the
    bus has its own step relation in [Events]. *)
From S2P Require Import Prelude GoFloat Types Policy Events Core CoreSpec.
From S2P Require Store.
From S2P Require Collector.
From S2P Require LRU.

Inductive cache_call (P : Type) :=
| KGet (k : string) (start stop : Z)
| KPut (k : string) (val : Value) (size now : Z)
| KRemove (k : string)
| KClear
| KSetPolicy (po : option P).
Arguments KGet {P}.
Arguments KPut {P}.
Arguments KRemove {P}.
Arguments KClear {P}.
Arguments KSetPolicy {P}.

(** What a call returns. *)
Inductive result :=
| RValue (v : option Value)
| RError (e : option store_error)
| RFound (b : bool)
| RUnit.

(** Where a call is. *)
Inductive pc (P : Type) :=
| Called (o : cache_call P)
| GetLocking (k : string) (start stop sq : Z)
| GetRecording (k : string) (start stop sq : Z) (hit : bool) (val : option Entry)
| GetPublishing (start sq : Z) (hit : bool) (val : option Entry)
| PutLocking (k : string) (val : Value) (size now sq : Z)
| Naming (name : PolicyName)
| Returned (r : result).
Arguments Called {P}.
Arguments GetLocking {P}.
Arguments GetRecording {P}.
Arguments GetPublishing {P}.
Arguments PutLocking {P}.
Arguments Naming {P}.
Arguments Returned {P}.

(** [log] is auxiliary: the sections under the mutex in the order they ran,
    with the number of the call, the call, and what it will return. *)
Record system (P B : Type) := {
  core : Core P B;
  calls : list (cache_call P);
  threads : list (pc P);
  log : list (nat * cache_call P * result);
}.
Arguments core {P B}.
Arguments calls {P B}.
Arguments threads {P B}.
Arguments log {P B}.

Section steps.
Context `{GoRuntime} `{EvictionPolicy P} `{Bus B}.
Implicit Types c : Core P B.
Implicit Types s : system P B.

(** The next atomic step: the cache after it, where the call is, and the call
    and its result if this was its section under the mutex. *)
Definition thread_step (t : pc P) c : option (outcome (Core P B * pc P * option (cache_call P * result))) :=
  match t with
  | Called (KGet k start stop) =>
      let c := next_seq c in Some (Ret (c, GetLocking k start stop (seq c), None))
  | GetLocking k start stop sq =>
      Some ('(c, hit, val) ← Get_locked k start c;
            Ret (c, GetRecording k start stop sq hit val,
                 Some (KGet k start stop, RValue (EValue <$> val))))
  | GetRecording k start stop sq hit val =>
      Some (Ret (Get_record k start stop sq hit val c, GetPublishing start sq hit val, None))
  | GetPublishing start sq hit val =>
      Some (c ← Get_publish start sq hit c; Ret (c, Returned (RValue (EValue <$> val)), None))
  | Called (KPut k val size now) =>
      let c := next_seq c in Some (Ret (c, PutLocking k val size now (seq c), None))
  | PutLocking k val size now sq =>
      Some ('(c, err) ← Put_locked k val size now sq c;
            Ret (c, Returned (RError err), Some (KPut k val size now, RError err)))
  | Called (KRemove k) =>
      Some ('(c, b) ← Remove k c; Ret (c, Returned (RFound b), Some (KRemove k, RFound b)))
  | Called KClear => Some (Ret (Clear c, Returned RUnit, Some (KClear, RUnit)))
  | Called (KSetPolicy po) =>
      Some ('(c, name) ← SetPolicy_locked po c; Ret (c, Naming name, Some (KSetPolicy po, RUnit)))
  | Naming name =>
      Some (Ret (with_metrics (Collector.SetPolicy name (metrics c)) c, Returned RUnit, None))
  | Returned _ => None
  end.

(** Call [i] takes its next step; [None] when there is none, or it panics. *)
Definition step_at (i : nat) s : option (system P B) :=
  t ← threads s !! i;
  o ← thread_step t (core s);
  match o with
  | Ret (c, t', e) =>
      Some {| core := c; calls := calls s; threads := <[i := t']> (threads s);
              log := log s ++ match e with Some (o, r) => [(i, o, r)] | None => [] end |}
  | _ => None
  end.

Definition spawn (o : cache_call P) s : system P B :=
  {| core := core s; calls := calls s ++ [o]; threads := threads s ++ [Called o]; log := log s |}.

Definition start (c : Core P B) : system P B := {| core := c; calls := []; threads := []; log := [] |}.

(** An executable interleaving. *)
Inductive action := Spawn (o : cache_call P) | Step (i : nat).

Definition act (a : action) s : option (system P B) :=
  match a with Spawn o => Some (spawn o s) | Step i => step_at i s end.

Fixpoint run_actions (acts : list action) s : option (system P B) :=
  match acts with [] => Some s | a :: acts => s ← act a s; run_actions acts s end.

Definition step s s' : Prop := ∃ i, step_at i s = Some s'.

(** One call after the other, with the results. *)
Definition run_call (o : cache_call P) c : outcome (Core P B * result) :=
  match o with
  | KGet k start stop => '(c, v) ← Get k start stop c; Ret (c, RValue v)
  | KPut k val size now => '(c, err) ← Put k val size now c; Ret (c, RError err)
  | KRemove k => '(c, b) ← Remove k c; Ret (c, RFound b)
  | KClear => Ret (Clear c, RUnit)
  | KSetPolicy po => c ← SetPolicy po c; Ret (c, RUnit)
  end.

Fixpoint run_calls (os : list (cache_call P)) c : outcome (Core P B * list result) :=
  match os with
  | [] => Ret (c, [])
  | o :: os => '(c, r) ← run_call o c; '(c, rs) ← run_calls os c; Ret (c, r :: rs)
  end.
End steps.
Arguments action : clear implicits.

(** ** What a section under the mutex depends on

    The store, the policy and the run time; not the bus, the collector or the
    sequence numbers, which [graft] replaces. *)
Section frames.
Context `{GoRuntime} `{LawfulPolicy P} `{LawfulBus B}.
Implicit Types c : Core P B.

Definition graft (b : option B) (m : Collector.Collector) (q : Z) c : Core P B :=
  {| store := store c; policy := policy c; bus := b; metrics := m;
     sampleRate := sampleRate c; seq := q; ticks := ticks c |}.

Lemma graft_self c : graft (bus c) (metrics c) (seq c) c = c.
Proof. by destruct c. Qed.

(** From [c] to [c'] the collector records [L]; any other bus, collector and
    sequence numbers, that of the operation included, give the same cache and
    the same recordings. *)
Definition framed {A} (f : Z → Core P B → outcome (Core P B * A)) c c' (a : A) : Prop :=
  seq c' = seq c ∧ ∃ L, Forall Collector.counting L ∧ metrics c' = Collector.run_ops L (metrics c) ∧
    ∀ sq b m q, bus_sound b → ∃ b', bus_sound b' ∧
      f sq (graft b m q c) = Ret (graft b' (Collector.run_ops L m) q c', a).

Lemma call_policy_frame f c c' :
  call_policy f c = Ret c' →
  seq c' = seq c ∧ metrics c' = metrics c ∧ ∀ b m q, call_policy f (graft b m q c) = Ret (graft b m q c').
Proof.
  unfold call_policy. cbn [graft policy]. destruct (policy c) as [p|]; [|by intros [= <-]].
  intros (p' & -> & [= <-])%bind_Ret_inv. done.
Qed.

Lemma publish_frame ev ev' c c' :
  publish ev c = Ret c' →
  seq c' = seq c ∧ metrics c' = metrics c ∧
  ∀ b m q, bus_sound b → ∃ b', bus_sound b' ∧ publish ev' (graft b m q c) = Ret (graft b' m q c').
Proof.
  intros Hrun. assert (Hc : ∃ bo, c' = with_bus bo c).
  { unfold publish in Hrun. destruct (bus c) as [b|]; [|exists (bus c); destruct c; cbn in *; by simplify_eq].
    apply bind_Ret_inv in Hrun as (b' & _ & [= <-]). by eexists. }
  destruct Hc as [bo ->]. split_and!; [done..|]. intros b m q Hb.
  destruct (publish_spec ev' (graft b m q c) Hb) as (b' & -> & Hb'). by exists b'.
Qed.

Lemma evictOneLocked_frame sq now c c' ok :
  evictOneLocked sq now c = Ret (c', ok) → framed (λ sq, evictOneLocked sq now) c c' ok.
Proof.
  unfold framed, evictOneLocked. cbn [graft policy]. destruct (policy c) as [p|]; [|done].
  intros ([p1 [k|]] & -> & Hrun)%bind_Ret_inv.
  2:{ simplify_eq. split; [done|]. exists []. split_and!; [done..|]. intros sq' b m q Hb. by exists b. }
  apply bind_Ret_inv in Hrun as ([st e] & Hrem & Hrun).
  apply bind_Ret_inv in Hrun as (c1 & Hcall & Hrun).
  destruct (call_policy_frame _ _ _ Hcall) as (Hseq1 & Hm1 & Hf1). cbn [with_store with_policy store seq metrics] in *.
  destruct e as [l|].
  - apply bind_Ret_inv in Hrun as (ent & Hent & Hrun). apply bind_Ret_inv in Hrun as (c2 & Hpub & [= <- <-]).
    pose proof (λ sq', publish_frame _ (event sq' now TypeEviction) _ _ Hpub) as Hf2.
    destruct (Hf2 0) as (Hseq2 & Hm2 & _). cbn [with_metrics seq metrics] in *.
    split; [congruence|]. exists [Collector.OEviction k (Size ent)].
    split_and!; [by repeat constructor|by rewrite Hm2, Hm1|]. intros sq' b m q Hb.
    destruct (Hf2 sq') as (_ & _ & Hf2'). destruct (Hf2' b (Collector.RecordEviction k (Size ent) m) q Hb) as (b' & Hb' & Hpub'). exists b'.
    split; [done|]. cbn [graft store mbind outcome_bind]. rewrite Hrem. cbn [mbind outcome_bind].
    change (with_store st (with_policy (Some p1) (graft b m q c)))
      with (graft b m q (with_store st (with_policy (Some p1) c))).
    rewrite Hf1. cbn [mbind outcome_bind]. rewrite Hent. cbn [mbind outcome_bind].
    change (with_metrics _ (graft b m q c1)) with (graft b (Collector.RecordEviction k (Size ent) m) q
      (with_metrics (Collector.RecordEviction k (Size ent) (metrics c1)) c1)).
    by rewrite Hpub'.
  - simplify_eq. split; [done|]. exists []. split_and!; [by constructor|done|]. intros sq' b m q Hb. exists b.
    split; [done|]. cbn [graft store mbind outcome_bind]. rewrite Hrem. cbn [mbind outcome_bind].
    change (with_store st (with_policy (Some p1) (graft b m q c)))
      with (graft b m q (with_store st (with_policy (Some p1) c))).
    by rewrite Hf1.
Qed.

Lemma framed_silent {A} (f : Z → Core P B → outcome (Core P B * A)) c c' a :
  seq c' = seq c → metrics c' = metrics c →
  (∀ sq b m q, f sq (graft b m q c) = Ret (graft b m q c', a)) → framed f c c' a.
Proof.
  intros Hs Hm Hf. split; [done|]. exists []. split_and!; [by constructor|done|].
  intros sq b m q Hb. exists b. split; [done|]. apply Hf.
Qed.

Lemma put_loop_frame fuel k val size now sq c c' r :
  put_loop fuel k val size now sq c = Ret (c', r) → framed (put_loop fuel k val size now) c c' r.
Proof.
  revert c. induction fuel as [|fuel IH]; intros c Hrun; [done|]. cbn [put_loop] in Hrun.
  apply bind_Ret_inv in Hrun as ([st [err|l]] & Hins & Hrun).
  - destruct (negb _ || negb _) eqn:Hb.
    + simplify_eq. apply framed_silent; [done..|]. intros sq' b m q. cbn [put_loop graft store].
      rewrite Hins. cbn. cbn in Hb. by rewrite Hb.
    + apply bind_Ret_inv in Hrun as ([c1 ev] & Hev & Hrun).
      destruct (evictOneLocked_frame _ _ _ _ _ Hev) as (Hseq1 & L1 & HL1 & Hm1 & Hf1).
      assert (Hrest : framed (λ sq c1, if ev then put_loop fuel k val size now sq c1
        else Ret (c1, Some Store.ErrCapacityExceeded)) c1 c' r).
      { destruct ev; [by apply IH|]. simplify_eq. by apply framed_silent. }
      destruct Hrest as (Hseq2 & L2 & HL2 & Hm2 & Hf2). cbn [with_store seq metrics] in *.
      split; [congruence|]. exists (L1 ++ L2). rewrite Collector.run_ops_app.
      split_and!; [by apply Forall_app|by rewrite Hm2, Hm1|]. intros sq' b m q Hbs.
      destruct (Hf1 sq' b m q Hbs) as (b1 & Hb1 & Hrun1). destruct (Hf2 sq' b1 (Collector.run_ops L1 m) q Hb1) as (b2 & Hb2 & Hrun2).
      exists b2. split; [done|]. cbn [put_loop graft store]. rewrite Hins. cbn [mbind outcome_bind].
      change (with_store st (graft b m q c)) with (graft b m q (with_store st c)).
      change (policy (graft b m q (with_store st c))) with (policy (with_store st c)).
      rewrite Hb, Hrun1. cbn [mbind outcome_bind]. by rewrite Collector.run_ops_app.
  - apply bind_Ret_inv in Hrun as (c1 & Hcall & [= <- <-]).
    destruct (call_policy_frame _ _ _ Hcall) as (Hseq1 & Hm1 & Hf1). cbn [with_store seq metrics] in *.
    split; [done|]. exists [Collector.OFetch size]. split_and!; [by repeat constructor|by cbn; rewrite Hm1|].
    intros sq' b m q Hb. exists b. split; [done|]. cbn [put_loop graft store]. rewrite Hins. cbn [mbind outcome_bind].
    change (with_store st (graft b m q c)) with (graft b m q (with_store st c)). by rewrite Hf1.
Qed.

Lemma Put_locked_frame k val size now sq c c' r :
  Put_locked k val size now sq c = Ret (c', r) → framed (Put_locked k val size now) c c' r.
Proof.
  unfold Put_locked. intros Hrun. assert (Hf : framed (λ sq c1, match policy c with
    | Some p => if negb (ShouldAdmit k size p) then Ret (c1, None)
        else put_loop (S (base.size (Store.items (store c)))) k val size now sq c1
    | None => put_loop (S (base.size (Store.items (store c)))) k val size now sq c1 end) c c' r); [|exact Hf].
  destruct (policy c) as [p|]; [destruct (negb _)|].
  - simplify_eq. by apply framed_silent.
  - by eapply put_loop_frame.
  - by eapply put_loop_frame.
Qed.

Lemma Get_locked_frame k start c c' hit val :
  Get_locked k start c = Ret (c', hit, val) →
  seq c' = seq c ∧ metrics c' = metrics c ∧
  ∀ b m q, Get_locked k start (graft b m q c) = Ret (graft b m q c', hit, val).
Proof.
  unfold Get_locked. intros ([st e] & Ht & Hrun)%bind_Ret_inv. apply bind_Ret_inv in Hrun as (v & Hd & Hrun).
  apply bind_Ret_inv in Hrun as (c1 & Hcall & [= <- <- <-]).
  assert (Hc : seq c1 = seq c ∧ metrics c1 = metrics c ∧ ∀ b m q,
    match e with Some l => call_policy (OnAccess k (Some l)) (graft b m q (with_store st c))
    | None => Ret (graft b m q (with_store st c)) end = Ret (graft b m q c1)).
  { destruct e as [l|]; [|by simplify_eq]. by apply call_policy_frame in Hcall as (? & ? & ?). }
  destruct Hc as (Hs & Hm & Hf). split_and!; [done..|]. intros b m q. cbn [graft store]. rewrite Ht.
  cbn [mbind outcome_bind]. rewrite Hd. cbn [mbind outcome_bind].
  change (with_store st (graft b m q c)) with (graft b m q (with_store st c)). by rewrite Hf.
Qed.

Lemma Remove_frame k c c' r : Remove k c = Ret (c', r) → framed (λ _, Remove k) c c' r.
Proof.
  unfold Remove, removeLocked. intros ([st [l|]] & Hr & Hrun)%bind_Ret_inv.
  - apply bind_Ret_inv in Hrun as (c1 & (Hs & Hm & Hf)%call_policy_frame & [= <- <-]).
    apply framed_silent; [done..|]. intros _ b m q. cbn [graft store]. rewrite Hr. cbn [mbind outcome_bind].
    change (with_store st (graft b m q c)) with (graft b m q (with_store st c)). by rewrite Hf.
  - simplify_eq. apply framed_silent; [done..|]. intros _ b m q. cbn [graft store]. by rewrite Hr.
Qed.

Lemma Clear_graft b m q c : Clear (graft b m q c) = graft b m q (Clear c).
Proof. unfold Clear. cbn. by destruct (policy c). Qed.

Lemma SetPolicy_locked_frame po c c' name :
  SetPolicy_locked po c = Ret (c', name) →
  seq c' = seq c ∧ metrics c' = metrics c ∧
  ∀ b m q, SetPolicy_locked po (graft b m q c) = Ret (graft b m q c', name).
Proof.
  unfold SetPolicy_locked. intros (c1 & Hrun & [= <- <-])%bind_Ret_inv. destruct po as [p|].
  - apply bind_Ret_inv in Hrun as (es & He & Hrun). apply bind_Ret_inv in Hrun as (p' & Hp & [= <-]).
    split_and!; [done..|]. intros b m q. cbn [graft ticks store]. rewrite He. cbn [mbind outcome_bind].
    by rewrite Hp.
  - simplify_eq. done.
Qed.

Lemma core_inv_graft b m q c : core_inv c → bus_sound b → core_inv (graft b m q c).
Proof. by intros [? ? ? ? ?] ?. Qed.

Lemma Get_publish_graft sq st hit c b m q :
  core_inv c → bus_sound b →
  ∃ b', bus_sound b' ∧ Get_publish st sq hit (graft b m q c) = Ret (graft b' m q c).
Proof.
  intros Hi Hb. unfold Get_publish, sampled. cbn [graft sampleRate]. pose proof (cv_rate c Hi).
  destruct (Z.eqb_spec (sampleRate c) 0); [lia|]. cbn [mbind outcome_bind].
  destruct (sq mod sampleRate c =? 0); [|by exists b].
  match goal with |- context [publish ?ev ?g] => destruct (publish_spec ev g Hb) as (b' & -> & Hb') end.
  by exists b'.
Qed.

(** Each step returns and keeps the invariant. *)
Lemma Get_locked_ok k st c :
  core_inv c → ∃ c' hit val, Get_locked k st c = Ret (c', hit, val) ∧ core_inv c' ∧ bus c' = bus c.
Proof.
  intros Hi. destruct (Get_spec k st st c Hi) as (c2 & Hget & Hi2 & _).
  unfold Get in Hget. apply bind_Ret_inv in Hget as ([[c1 hit] val] & Hl & Hget).
  apply bind_Ret_inv in Hget as (c3 & Hpub & [= <- Hv]).
  apply Get_locked_frame in Hl as (_ & _ & Hf).
  pose proof (Hf (bus c) (metrics c) (seq c)) as Hc.
  change (graft (bus c) (metrics c) (seq c) (next_seq c)) with (graft (bus c) (metrics c) (seq c) c) in Hc.
  rewrite graft_self in Hc. exists (graft (bus c) (metrics c) (seq c) c1), hit, val. split_and!; [exact Hc| |done].
  assert (Hsame : store c3 = store c1 ∧ policy c3 = policy c1 ∧ sampleRate c3 = sampleRate c1).
  { unfold Get_publish in Hpub. apply bind_Ret_inv in Hpub as (smp & _ & Hpub). unfold publish in Hpub.
    destruct smp; [|by simplify_eq]. cbn [Get_record with_metrics bus] in Hpub.
    destruct (bus c1); [|by simplify_eq]. apply bind_Ret_inv in Hpub as (b' & _ & [= <-]). done. }
  destruct Hsame as (Hs & Hp & Hr), Hi2 as [Hst Hpol _ Hkeys Hrate].
  rewrite Hs, Hp, Hr in *. split; try done. apply (cv_bus c Hi).
Qed.

Lemma Put_locked_ok k val size now sq c :
  core_inv c → key_ok k → is_i64 size → ∃ c' r, Put_locked k val size now sq c = Ret (c', r) ∧ core_inv c'.
Proof.
  intros Hi Hk Hsz. unfold Put_locked.
  destruct (put_loop_spec (S (base.size (Store.items (store c)))) k val size now sq c Hi Hk Hsz ltac:(lia))
    as (c' & r & Hrun & Hi' & _).
  destruct (policy c); [destruct (negb _)|]; eauto.
Qed.

Lemma SetPolicy_locked_ok po c :
  core_inv c → policy_sound po → ∃ c' name, SetPolicy_locked po c = Ret (c', name) ∧ core_inv c'.
Proof.
  intros Hi Hpo. destruct (SetPolicy_spec po c Hi Hpo) as (c2 & Hrun & Hi2 & _). unfold SetPolicy in Hrun.
  apply bind_Ret_inv in Hrun as ([c1 name] & -> & [= <-]). exists c1, name. split; [done|].
  by destruct Hi2.
Qed.
End frames.

(** ** Linearization *)
Section linearization.
Context `{GoRuntime} `{LawfulPolicy P} `{LawfulBus B}.
Implicit Types c : Core P B.
Implicit Types s : system P B.
Implicit Types t : pc P.

Definition call_ok (o : cache_call P) : Prop :=
  match o with
  | KPut k _ size _ => key_ok k ∧ is_i64 size
  | KSetPolicy po => policy_sound po
  | _ => True
  end.

(** Reachable from the cache [c0] by any interleaving of calls and steps. *)
Inductive conc_reachable (c0 : Core P B) : system P B → Prop :=
| conc_start : conc_reachable c0 (start c0)
| conc_spawn o s : conc_reachable c0 s → call_ok o → conc_reachable c0 (spawn o s)
| conc_step s s' : conc_reachable c0 s → step s s' → conc_reachable c0 s'.

Definition all_returned s : Prop := ∀ t, t ∈ threads s → ∃ r, t = Returned r.

(** The call, before its section under the mutex; its result, after. *)
Definition pc_call t : option (cache_call P) :=
  match t with
  | Called o => Some o
  | GetLocking k st stop _ => Some (KGet k st stop)
  | PutLocking k val size now _ => Some (KPut k val size now)
  | _ => None
  end.
Definition pc_result t : option result :=
  match t with
  | GetRecording _ _ _ _ _ val | GetPublishing _ _ _ val => Some (RValue (EValue <$> val))
  | Naming _ => Some RUnit
  | Returned r => Some r
  | _ => None
  end.

(** What a call still has to record, and whether it holds a sequence number
    that its section has not used. *)
Definition pc_pending t : list Collector.op :=
  match t with
  | GetRecording k st stop sq hit val =>
      [Collector.ORequest (get_request k (match val with Some e => Size e | None => 0 end) st sq) hit (time_Sub stop st)]
  | _ => []
  end.
Definition pc_numbered t : nat := match t with GetLocking _ _ _ _ | PutLocking _ _ _ _ _ => 1 | _ => 0 end.
Definition pc_steps t : nat :=
  match t with
  | Called (KGet _ _ _) => 4
  | GetLocking _ _ _ _ => 3
  | GetRecording _ _ _ _ _ _ | Called (KPut _ _ _ _) | Called (KSetPolicy _) => 2
  | Returned _ => 0
  | _ => 1
  end.

Definition pc_ok t : Prop := ∀ o, pc_call t = Some o → call_ok o.

(** What a step that is not under the mutex does: the cache other than its
    bus, collector and sequence number stays. *)
Definition silent t t' c c' : Prop :=
  pc_call t' = pc_call t ∧ pc_result t' = pc_result t ∧ (∀ b m q, graft b m q c' = graft b m q c) ∧
  (seq c' = seq c ∧ pc_numbered t' = pc_numbered t ∨
   seq c' = u64 (seq c + 1) ∧ pc_numbered t' = S (pc_numbered t)).

(** What a section under the mutex does: the call at once, on any other bus,
    collector and sequence number, gives the same cache and result. *)
Definition linearizes t t' c c' (o : cache_call P) (r : result) (L : list Collector.op) : Prop :=
  pc_call t = Some o ∧ pc_result t' = Some r ∧ pc_call t' = None ∧ pc_numbered t' = 0%nat ∧ seq c' = seq c ∧
  ∀ b m q, bus_sound b → ∃ b' m' q', bus_sound b' ∧ run_call o (graft b m q c) = Ret (graft b' m' q' c', r) ∧
    Collector.counters m' = Collector.run_ops L (Collector.counters m) ∧
    (pc_numbered t = 0%nat ∧ q' = q ∨ pc_numbered t = 1%nat ∧ q' = u64 (q + 1)).

Record stepped t c c' t' (e : option (cache_call P * result)) (L1 L : list Collector.op) : Prop := {
  sp_inv : core_inv c';
  sp_steps : pc_steps t = S (pc_steps t');
  sp_count : Forall Collector.counting (L1 ++ L ++ pc_pending t ++ pc_pending t');
  sp_core : Collector.counters (metrics c') = Collector.run_ops L1 (Collector.counters (metrics c));
  sp_records : L ++ pc_pending t = L1 ++ pc_pending t';
  sp_lin : match e with None => L = [] ∧ silent t t' c c' | Some (o, r) => linearizes t t' c c' o r L end;
}.

Lemma Put_locked_linearizes k val size now sq c c' r :
  Put_locked k val size now sq c = Ret (c', r) →
  ∃ L, Forall Collector.counting L ∧ metrics c' = Collector.run_ops L (metrics c) ∧
    linearizes (PutLocking k val size now sq) (Returned (RError r)) c c' (KPut k val size now) (RError r) L.
Proof.
  intros Hrun. destruct (Put_locked_frame _ _ _ _ _ _ _ _ Hrun) as (Hseq & L & HL & Hm & Hf).
  exists L. split_and!; [done..|]. split_and!; [done..|]. intros b m q Hb. unfold run_call, Put.
  destruct (Hf (u64 (q + 1)) b m (u64 (q + 1)) Hb) as (b' & Hb' & Hrun').
  exists b', (Collector.run_ops L m), (u64 (q + 1)). split_and!; [done| |by apply Collector.run_ops_counters|by right].
  change (next_seq (graft b m q c)) with (graft b m (u64 (q + 1)) c). cbn [graft seq]. by rewrite Hrun'.
Qed.

Lemma Remove_linearizes k c c' r :
  Remove k c = Ret (c', r) →
  ∃ L, Forall Collector.counting L ∧ metrics c' = Collector.run_ops L (metrics c) ∧
    linearizes (Called (KRemove k)) (Returned (RFound r)) c c' (KRemove k) (RFound r) L.
Proof.
  intros Hrun. destruct (Remove_frame _ _ _ _ Hrun) as (Hseq & L & HL & Hm & Hf).
  exists L. split_and!; [done..|]. split_and!; [done..|]. intros b m q Hb. unfold run_call.
  destruct (Hf 0 b m q Hb) as (b' & Hb' & Hrun').
  exists b', (Collector.run_ops L m), q. split_and!; [done| |by apply Collector.run_ops_counters|by left].
  by rewrite Hrun'.
Qed.

Lemma Get_locked_linearizes k st stop sq c c' hit val :
  core_inv c' → Get_locked k st c = Ret (c', hit, val) →
  linearizes (GetLocking k st stop sq) (GetRecording k st stop sq hit val) c c'
    (KGet k st stop) (RValue (EValue <$> val)) (pc_pending (GetRecording k st stop sq hit val)).
Proof.
  intros Hi' Hrun. destruct (Get_locked_frame _ _ _ _ _ _ Hrun) as (Hseq & Hm & Hf).
  split_and!; [done..|]. intros b m q Hb. unfold run_call, Get. set (q' := u64 (q + 1)).
  set (req := get_request k (match val with Some e => Size e | None => 0 end) st q').
  set (m' := Collector.RecordRequest req hit (time_Sub stop st) m).
  destruct (Get_publish_graft q' st hit c' b m' q' Hi' Hb) as (b' & Hb' & Hpub).
  exists b', m', q'. split_and!; [done| |done|by right].
  change (next_seq (graft b m q c)) with (graft b m q' c). rewrite Hf. cbn [mbind outcome_bind].
  change (Get_record k st stop (seq (graft b m q' c)) hit val (graft b m q' c')) with (graft b m' q' c').
  cbn [graft seq] in Hpub |- *. by rewrite Hpub.
Qed.

Lemma SetPolicy_locked_linearizes po c c' name :
  SetPolicy_locked po c = Ret (c', name) →
  linearizes (Called (KSetPolicy po)) (Naming name) c c' (KSetPolicy po) RUnit [].
Proof.
  intros Hrun. destruct (SetPolicy_locked_frame _ _ _ _ Hrun) as (Hseq & Hm & Hf).
  split_and!; [done..|]. intros b m q Hb. exists b, (Collector.SetPolicy name m), q.
  split_and!; [done| |done|by left]. unfold run_call, SetPolicy. by rewrite Hf.
Qed.

Lemma thread_step_stepped t c o :
  core_inv c → pc_ok t → thread_step t c = Some o →
  ∃ c' t' e L1 L, o = Ret (c', t', e) ∧ stepped t c c' t' e L1 L.
Proof.
  intros Hi Hok Hst.
  destruct t as [[k st stop|k val size now|k| |po]|k st stop sq|k st stop sq hit val|st sq hit val
                |k val size now sq|name|r]; cbn [thread_step] in Hst; simplify_eq.
  - do 3 eexists. exists [], []. split; [done|]. split; try done; [by apply core_inv_next_seq|].
    unfold silent, linearizes; split_and!; try done. by right.
  - do 3 eexists. exists [], []. split; [done|]. split; try done; [by apply core_inv_next_seq|].
    unfold silent, linearizes; split_and!; try done. by right.
  - destruct (cache_Remove_spec k c Hi) as (c' & Hrun & Hi' & _).
    destruct (Remove_linearizes k c c' _ Hrun) as (L & HL & Hm & Hlin).
    rewrite Hrun. do 3 eexists. exists L, L. split; [done|]. split; try done; [by repeat apply Forall_app_2|].
    rewrite Hm. by apply Collector.run_ops_counters.
  - destruct (cache_Clear_spec c Hi) as (Hi' & _ & Hm & _).
    do 3 eexists. exists [], []. split; [done|]. split; try done; [by cbn; rewrite Hm|].
    unfold silent, linearizes; split_and!; try done; [unfold Clear; cbn; by destruct (policy c)|].
    intros b m q Hb. exists b, m, q. split_and!; [done| |done|by left]. cbn. by rewrite Clear_graft.
  - destruct (SetPolicy_locked_ok po c Hi (Hok _ eq_refl)) as (c' & name & Hrun & Hi').
    pose proof (SetPolicy_locked_frame _ _ _ _ Hrun) as (_ & Hm & _).
    rewrite Hrun. do 3 eexists. exists [], []. split; [done|].
    split; try done; [by cbn; rewrite Hm|by apply SetPolicy_locked_linearizes].
  - destruct (Get_locked_ok k st c Hi) as (c' & hit & val & Hrun & Hi' & _).
    pose proof (Get_locked_frame _ _ _ _ _ _ Hrun) as (_ & Hm & _).
    rewrite Hrun. do 3 eexists. exists [], (pc_pending (GetRecording k st stop sq hit val)). split; [done|].
    split; try done; [by repeat constructor|by cbn; rewrite Hm|by apply Get_locked_linearizes].
  - do 3 eexists. eexists (pc_pending (GetRecording k st stop sq hit val)), []. split; [done|].
    split; try done; [by destruct Hi|by repeat constructor|]. unfold silent, linearizes; split_and!; try done. by left.
  - destruct (Get_publish_graft sq st hit c (bus c) (metrics c) (seq c) Hi (cv_bus c Hi)) as (b' & Hb' & Hpub).
    rewrite graft_self in Hpub. rewrite Hpub. do 3 eexists. exists [], []. split; [done|].
    split; try done; [by apply core_inv_graft|]. unfold silent, linearizes; split_and!; try done. by left.
  - destruct (Hok _ eq_refl) as [Hk Hsz].
    destruct (Put_locked_ok k val size now sq c Hi Hk Hsz) as (c' & r & Hrun & Hi').
    destruct (Put_locked_linearizes k val size now sq c c' r Hrun) as (L & HL & Hm & Hlin).
    rewrite Hrun. do 3 eexists. exists L, L. split; [done|]. split; try done; [by repeat apply Forall_app_2|].
    rewrite Hm. by apply Collector.run_ops_counters.
  - do 3 eexists. exists [], []. split; [done|]. split; try done; [by destruct Hi|].
    unfold silent, linearizes; split_and!; try done. by left.
Qed.

(** ** The invariant *)

Definition log_ids s : list nat := (log s).*1.*1.
Definition log_calls s : list (cache_call P) := (log s).*1.*2.
Definition log_results s : list result := (log s).*2.

Definition pending s : list Collector.op := threads s ≫= pc_pending.
Definition numbered s : nat := sum_list_with pc_numbered (threads s).

(** A call before its section is not in the log; after it, its result is. *)
Definition thread_logged s (i : nat) t : Prop :=
  pc_ok t ∧ (∀ o, pc_call t = Some o → calls s !! i = Some o ∧ i ∉ log_ids s) ∧
  (∀ r, pc_result t = Some r → ∃ o, (i, o, r) ∈ log s).

(** The calls of the log one after the other, from the same cache, give the
    same results and, but for the bus and the recordings to come, the same
    cache. *)
Definition linearized (c0 : Core P B) s : Prop :=
  ∃ b m q, bus_sound b ∧ is_u64 q ∧ run_calls (log_calls s) c0 = Ret (graft b m q (core s), log_results s) ∧
    Collector.counters m = Collector.run_ops (pending s) (Collector.counters (metrics (core s))) ∧
    seq (core s) = u64 (q + Z.of_nat (numbered s)).

Record cache_conc_inv (c0 : Core P B) s : Prop := {
  ci_core : core_inv (core s);
  ci_len : length (threads s) = length (calls s);
  ci_threads i t : threads s !! i = Some t → thread_logged s i t;
  ci_log i o r : (i, o, r) ∈ log s → calls s !! i = Some o;
  ci_nodup : NoDup (log_ids s);
  ci_lin : linearized c0 s;
}.

Lemma run_calls_snoc os o c c1 rs c2 r :
  run_calls os c = Ret (c1, rs) → run_call o c1 = Ret (c2, r) → run_calls (os ++ [o]) c = Ret (c2, rs ++ [r]).
Proof.
  revert c rs. induction os as [|o' os IH]; intros c rs Hos Ho; cbn [run_calls app] in *.
  - simplify_eq. rewrite Ho. done.
  - apply bind_Ret_inv in Hos as ([c' r'] & -> & Hos). apply bind_Ret_inv in Hos as ([c1' rs'] & Hos & [= -> <-]).
    cbn [mbind outcome_bind]. by rewrite (IH c' rs' Hos Ho).
Qed.

Lemma elem_of_log_ids s i o r : (i, o, r) ∈ log s → i ∈ log_ids s.
Proof.
  intros Hin. unfold log_ids. apply list_elem_of_fmap. exists (i, o). split; [done|].
  apply list_elem_of_fmap. by exists (i, o, r).
Qed.

Lemma pending_counting ts : Forall Collector.counting (ts ≫= pc_pending).
Proof.
  induction ts as [|t ts IH]; [done|]. cbn. apply Forall_app_2; [|done]. destruct t; by repeat constructor.
Qed.

Lemma cache_conc_inv_start c0 : core_inv c0 → is_u64 (seq c0) → cache_conc_inv c0 (start c0).
Proof.
  intros Hi Hu. split; try done; [by intros ??? ?%elem_of_nil|by constructor|]. exists (bus c0), (metrics c0), (seq c0).
  split_and!; [apply (cv_bus c0 Hi)|done..| |done|].
  - cbn. by rewrite graft_self.
  - cbn. by rewrite Z.add_0_r, u64_small.
Qed.

Lemma cache_conc_inv_spawn c0 s o : cache_conc_inv c0 s → call_ok o → cache_conc_inv c0 (spawn o s).
Proof.
  intros [Hi Hlen Hth Hlog Hnd (b & m & q & Hb & Hu & Hrun & Hm & Hs)] Ho. split; cbn [core calls threads log spawn].
  - done.
  - rewrite !length_app. cbn. lia.
  - intros i t [Hi'|[Hge Ht]]%lookup_app_Some.
    + destruct (Hth i t Hi') as (Hok & Hpre & Hpost). split_and!; [done| |done].
      intros o' Ho'. destruct (Hpre o' Ho') as [Hc Hn]. split; [|done]. cbn [calls spawn]. by apply lookup_app_l_Some.
    + apply list_lookup_singleton_Some in Ht as [Hz <-]. split_and!; [by intros o' [= <-]| |done].
      intros o' [= <-]. split; [cbn [calls spawn]; rewrite lookup_app_r by (cbn; lia); cbn in *; by rewrite <-Hlen, Hz|].
      unfold log_ids. cbn. intros ([j o'] & -> & ([[j' o''] r'] & [= <- <-] & Hin)%list_elem_of_fmap)%list_elem_of_fmap.
      apply Hlog, lookup_lt_Some in Hin. cbn in *. lia.
  - intros i o' r Hin. apply lookup_app_l_Some. by eapply Hlog.
  - done.
  - exists b, m, q. unfold pending, numbered in *. cbn [threads spawn core].
    rewrite bind_app, sum_list_with_app. cbn. rewrite app_nil_r, Nat.add_0_r. done.
Qed.

Lemma step_at_stepped c0 s i t :
  cache_conc_inv c0 s → threads s !! i = Some t → pc_steps t ≠ 0%nat →
  ∃ c' t' e L1 L, stepped t (core s) c' t' e L1 L ∧
    step_at i s = Some {| core := c'; calls := calls s; threads := <[i := t']> (threads s);
                          log := log s ++ match e with Some (o, r) => [(i, o, r)] | None => [] end |}.
Proof.
  intros Hinv Hi Hn. unfold step_at. rewrite Hi. cbn [mbind option_bind].
  destruct (thread_step t (core s)) as [o|] eqn:Hst; [|by destruct t as [[]| | | | | |]].
  destruct (ci_threads _ _ Hinv i t Hi) as (Hok & _).
  destruct (thread_step_stepped t (core s) o (ci_core _ _ Hinv) Hok Hst) as (c' & t' & e & L1 & L & -> & Hs).
  by exists c', t', e, L1, L.
Qed.

Lemma step_at_enabled i s s' : step_at i s = Some s' → ∃ t, threads s !! i = Some t ∧ pc_steps t ≠ 0%nat.
Proof.
  unfold step_at. destruct (threads s !! i) as [t|]; [|done]. intros Hs. exists t. split; [done|].
  by destruct t as [[]| | | | | |].
Qed.

(** The threads and the log after a step. *)
Lemma thread_logged_step s i j t c t' c' e L1 L u :
  stepped t c c' t' e L1 L → thread_logged s i t → thread_logged s j u ∨ j = i ∧ u = t' →
  (j = i → u = t') →
  thread_logged {| core := c'; calls := calls s; threads := <[i := t']> (threads s);
      log := log s ++ match e with Some (o, r) => [(i, o, r)] | None => [] end |} j u.
Proof.
  intros Hs (Hok & Hpre & Hpost) Hu Hji. pose proof (sp_lin _ _ _ _ _ _ _ Hs) as Hlin.
  unfold thread_logged, log_ids. cbn [calls log]. rewrite !fmap_app. destruct (decide (j = i)) as [->|Hne].
  - rewrite (Hji eq_refl). destruct e as [[o r]|].
    + destruct Hlin as (Ho & Hr & Hno & _). split_and!; [by intros ? ?; congruence|by intros ? ?; congruence|].
      intros r' Hr'. assert (r' = r) as -> by congruence. exists o. set_solver.
    + destruct Hlin as (_ & Hcall & Hres & _). unfold pc_ok. rewrite Hcall, Hres, !app_nil_r. done.
  - destruct Hu as [(Hoku & Hpreu & Hpostu)|[? _]]; [|done]. split_and!; [done| |].
    + intros o Ho. destruct (Hpreu o Ho) as [Hc Hn]. split; [done|]. unfold log_ids in Hn. destruct e as [[o' r']|]; set_solver.
    + intros r Hr. destruct (Hpostu r Hr) as [o Ho]. exists o. set_solver.
Qed.

Lemma linearized_step c0 s i t c' t' e L1 L :
  linearized c0 s → threads s !! i = Some t → stepped t (core s) c' t' e L1 L →
  linearized c0 {| core := c'; calls := calls s; threads := <[i := t']> (threads s);
      log := log s ++ match e with Some (o, r) => [(i, o, r)] | None => [] end |}.
Proof.
  intros (b & m & q & Hb & Hu & Hrun & Hm & Hseq) Hi [_ _ Hct Hcore Hrec Hlin].
  destruct (bind_insert_perm pc_pending _ i t t' Hi) as (R & HR & HR').
  pose proof (sum_list_with_insert pc_numbered _ i t t' Hi) as Hnum.
  assert (HcR : Forall Collector.counting R).
  { pose proof (pending_counting (threads s)) as Hp. rewrite HR in Hp. by apply Forall_app in Hp as [_ ?]. }
  rewrite !Forall_app in Hct. destruct Hct as (Hc1 & HcL & Hct & Hct').
  assert (Hnew : Collector.run_ops L (Collector.counters m) =
    Collector.run_ops (<[i := t']> (threads s) ≫= pc_pending) (Collector.counters (metrics c'))).
  { rewrite Hm, Hcore, <-!Collector.run_ops_app. unfold pending. apply Collector.run_ops_perm.
    - apply Forall_app_2; [apply pending_counting|done].
    - rewrite HR, HR', (comm (++) (_ ++ R) L), !(assoc_L (++)), Hrec. done. }
  unfold linearized, pending, numbered, log_calls, log_results in *. cbn [core calls threads log].
  set (N := sum_list_with pc_numbered (threads s)) in *.
  set (N' := sum_list_with pc_numbered (<[i := t']> (threads s))) in *.
  rewrite !fmap_app. destruct e as [[o r]|]; cbn [fmap list_fmap fst snd].
  - destruct Hlin as (_ & _ & _ & Hn' & Hs & Hcall).
    destruct (Hcall b m q Hb) as (b' & m' & q' & Hb' & Hrc & Hm' & Hq).
    exists b', m', q'. split_and!; [done| |by eapply run_calls_snoc|by rewrite Hm'|].
    + destruct Hq as [[_ ->]|[_ ->]]; [done|apply u64_range].
    + rewrite Hs, Hseq. destruct Hq as [[Hn ->]|[Hn ->]]; rewrite ?u64_add_l; f_equal; lia.
  - destruct Hlin as (-> & _ & _ & Hg & Hs). exists b, m, q.
    rewrite !app_nil_r, Hg. split_and!; try done.
    destruct Hs as [[-> Hn]|[-> Hn]]; rewrite Hseq, ?u64_add_l; f_equal; lia.
Qed.

Lemma cache_conc_inv_step c0 s s' : cache_conc_inv c0 s → step s s' → cache_conc_inv c0 s'.
Proof.
  intros Hinv [i Hst]. destruct (step_at_enabled i s s' Hst) as (t & Hi & Hn).
  destruct (step_at_stepped c0 s i t Hinv Hi Hn) as (c' & t' & e & L1 & L & Hs & Hst').
  rewrite Hst in Hst'. injection Hst' as ->. destruct Hinv as [Hci Hlen Hth Hlog Hnd Hlin].
  split.
  - apply (sp_inv _ _ _ _ _ _ _ Hs).
  - cbn [threads calls]. by rewrite length_insert.
  - intros j u Hj. cbn [threads] in Hj. apply (thread_logged_step s i j t (core s) t' c' e L1 L u Hs (Hth i t Hi)).
    + apply list_lookup_insert_Some in Hj as [(-> & -> & _)|[_ Hj]]; [by right|left; by apply Hth].
    + intros ->. rewrite list_lookup_insert_eq in Hj by (by eapply lookup_lt_Some). by simplify_eq.
  - cbn [log calls]. intros j o r [Hj|Hj]%elem_of_app; [by eapply Hlog|].
    pose proof (sp_lin _ _ _ _ _ _ _ Hs) as Hl. destruct e as [[o' r']|]; [|by apply elem_of_nil in Hj].
    apply list_elem_of_singleton in Hj as [= -> -> ->]. destruct Hl as (Ho & _).
    apply (proj1 (proj2 (Hth i t Hi)) _ Ho).
  - unfold log_ids. cbn [log]. rewrite !fmap_app. apply NoDup_app. split_and!; [done| |].
    + pose proof (sp_lin _ _ _ _ _ _ _ Hs) as Hl. destruct e as [[o' r']|]; [|by set_solver].
      destruct Hl as (Ho & _). destruct (proj1 (proj2 (Hth i t Hi)) o' Ho) as [_ Hni].
      unfold log_ids in Hni. set_solver.
    + destruct e as [[o' r']|]; [apply NoDup_singleton|constructor].
  - by eapply linearized_step.
Qed.

Lemma cache_reachable_inv c0 s :
  core_inv c0 → is_u64 (seq c0) → conc_reachable c0 s → cache_conc_inv c0 s.
Proof.
  intros Hi Hu. induction 1; [by apply cache_conc_inv_start|by apply cache_conc_inv_spawn
    |by eapply cache_conc_inv_step].
Qed.

Lemma pending_returned ts : (∀ t, t ∈ ts → ∃ r, t = Returned r) → ts ≫= pc_pending = [].
Proof.
  induction ts as [|t ts IH]; intros Hr; [done|]. destruct (Hr t) as [r ->]; [set_solver|]. cbn. apply IH. set_solver.
Qed.

Lemma numbered_returned ts : (∀ t, t ∈ ts → ∃ r, t = Returned r) → sum_list_with pc_numbered ts = 0%nat.
Proof.
  induction ts as [|t ts IH]; intros Hr; [done|]. destruct (Hr t) as [r ->]; [set_solver|]. cbn. apply IH. set_solver.
Qed.

(** While a call has not returned there is a step. *)
Lemma unreturned_step c0 s : cache_conc_inv c0 s → ¬ all_returned s → ∃ s', step s s'.
Proof.
  intros Hinv Hall. destruct (decide (Exists (λ t, pc_steps t ≠ 0%nat) (threads s))) as [He|Hne].
  - apply Exists_exists in He as (t & [i Hi]%list_elem_of_lookup & Hn).
    destruct (step_at_stepped c0 s i t Hinv Hi Hn) as (? & ? & ? & ? & ? & _ & Hst). eexists. by exists i.
  - destruct Hall. intros t Ht. apply not_Exists_Forall in Hne; [|apply _]. rewrite Forall_forall in Hne.
    specialize (Hne t Ht). destruct t as [[]| | | | | |]; try (by destruct Hne). by eexists.
Qed.

(** When all have returned, the sequential run is the cache but for the bus. *)
Lemma linearized_returned c0 s :
  linearized c0 s → all_returned s →
  ∃ b m, run_calls (log_calls s) c0 = Ret (graft b m (seq (core s)) (core s), log_results s) ∧
    Collector.counters m = Collector.counters (metrics (core s)).
Proof.
  intros (b & m & q & _ & Hq & Hrun & Hm & Hs) Hall. exists b, m. unfold pending, numbered in *.
  rewrite (pending_returned _ Hall) in Hm. rewrite (numbered_returned _ Hall), Z.add_0_r, u64_small in Hs by done.
  by rewrite Hs.
Qed.

(** One more call, or one more step. *)
Definition moves s s' : Prop := step s s' ∨ ∃ o, s' = spawn o s.

Lemma moves_log s s' : rtc moves s s' → log s `prefix_of` log s'.
Proof.
  induction 1 as [s|s s1 s' Hm _ IH]; [done|]. etrans; [|exact IH].
  destruct Hm as [[i Hst]|[o ->]]; [|done]. unfold step_at in Hst.
  destruct (threads s !! i) as [t|]; [|done]. cbn in Hst. destruct (thread_step t (core s)) as [[[[c' t'] e]| |]|]; try done.
  cbn in Hst. simplify_eq. by apply prefix_app_r.
Qed.

Lemma step_steps s s' : step s s' → sum_list_with pc_steps (threads s) = S (sum_list_with pc_steps (threads s')).
Proof.
  intros [i Hst]. unfold step_at in Hst. destruct (threads s !! i) as [t|] eqn:Hi; [|done]. cbn in Hst.
  destruct (thread_step t (core s)) as [[[[c' t'] e]| |]|] eqn:Ht; try done. cbn in Hst. simplify_eq. cbn [threads].
  pose proof (sum_list_with_insert pc_steps _ i t t' Hi) as Hsum.
  assert (pc_steps t = S (pc_steps t')); [|lia]. clear -Ht.
  destruct t as [[]| | | | | |]; cbn [thread_step] in Ht; simplify_eq; try done;
    apply bind_Ret_inv in Ht as (x & _ & Ht); repeat destruct x as [x ?]; by simplify_eq.
Qed.

Lemma nsteps_steps k s s' :
  nsteps step k s s' → (k ≤ sum_list_with pc_steps (threads s))%nat.
Proof. induction 1 as [|k s s1 s' Hst _ IH]; [lia|]. apply step_steps in Hst. lia. Qed.

(** C3: the cache is linearizable.  Let any number of gets, puts, removals,
    clears and policy switches run at once from a cache that satisfies the
    invariant.  At any moment the invariant holds, and the calls that have had
    the mutex, run one after the other in the order they had it ([log]), give
    the same results, each to its own caller, and the same store and policy.
    The order contains the order of calls that did not overlap: a call that
    has returned is in the log, one that has not begun is not, and the log only
    grows at its end.  When all have returned, the number of operations and
    every counter of the collector are those of the sequential run too. *)
Theorem cache_linearizable c0 s :
  core_inv c0 → is_u64 (seq c0) → conc_reachable c0 s →
  core_inv (core s) ∧
  (∃ d, run_calls (log_calls s) c0 = Ret (d, log_results s) ∧
    store (core s) = store d ∧ policy (core s) = policy d ∧
    (all_returned s → seq (core s) = seq d ∧
      Collector.counters (metrics (core s)) = Collector.counters (metrics d))) ∧
  (NoDup (log_ids s) ∧ ∀ i o r, (i, o, r) ∈ log s → calls s !! i = Some o) ∧
  (∀ i r, threads s !! i = Some (Returned r) → ∃ o, (i, o, r) ∈ log s) ∧
  (∀ s', rtc moves s s' → log s `prefix_of` log s').
Proof.
  intros Hi Hu Hr. pose proof (cache_reachable_inv c0 s Hi Hu Hr) as [Hc _ Hth Hlog Hnd Hlin].
  split_and!; [done| |done..| |apply moves_log].
  - pose proof Hlin as (b & m & q & _ & _ & Hrun & _). exists (graft b m q (core s)). split_and!; [done..|].
    intros (b' & m' & Hrun' & Hm)%(linearized_returned c0 s Hlin). rewrite Hrun in Hrun'.
    injection Hrun' as _ -> ->. done.
  - intros i r Ht. by destruct (Hth i _ Ht) as (_ & _ & Hpost); apply Hpost.
Qed.

(** C14: no call of the cache is stuck and none runs forever.  At any moment of
    any interleaving, a call that has not returned has a next step that
    neither panics nor diverges, whatever the others have done; and the calls
    together take at most four steps each. *)
Theorem cache_calls_return c0 s :
  core_inv c0 → is_u64 (seq c0) → conc_reachable c0 s →
  (∀ i t, threads s !! i = Some t → (∃ r, t = Returned r) ∨ ∃ s', step_at i s = Some s') ∧
  (∀ k s', nsteps step k s s' → (k ≤ 4 * length (calls s))%nat).
Proof.
  intros Hi Hu Hr. pose proof (cache_reachable_inv c0 s Hi Hu Hr) as Hinv. split.
  - intros i t Ht. destruct (decide (pc_steps t = 0%nat)) as [Hz|Hn].
    + left. destruct t as [[]| | | | | |]; try done. by eexists.
    + right. destruct (step_at_stepped c0 s i t Hinv Ht Hn) as (? & ? & ? & ? & ? & _ & Hst). by eexists.
  - intros k s' Hk. apply nsteps_steps in Hk. rewrite <-(ci_len _ _ Hinv).
    pose proof (sum_list_with_bound pc_steps 4 (threads s)) as Hb. etrans; [exact Hk|].
    apply Hb. intros [[]| | | | | |]; cbn; lia.
Qed.

Definition action_ok (a : action P) : Prop := match a with Spawn o => call_ok o | Step _ => True end.

Lemma run_actions_reachable acts c0 s s' :
  Forall action_ok acts → conc_reachable c0 s → run_actions acts s = Some s' → conc_reachable c0 s'.
Proof.
  intros Hok. revert s. induction Hok as [|a acts Ha _ IH]; intros s Hr Hrun; simplify_eq/=; [done|].
  apply bind_Some in Hrun as (s1 & Hs & Hrun). eapply IH; [|done]. destruct a as [o|i]; simplify_eq/=.
  - by apply conc_spawn.
  - eapply conc_step; [done|]. by exists i.
Qed.

(** C40: two policy switches can leave the collector with the wrong name.
    [SetPolicy] tells the collector the name after it has released the mutex,
    so from any cache the calls [SetPolicy(nil)] and [SetPolicy(p)] can have
    the mutex in that order and name their policies in the other: both have
    returned, [p] is installed, and the collector says that no policy is. *)
Theorem setpolicy_race_misnames c0 p :
  core_inv c0 → policy_sound (Some p) →
  ∃ s, conc_reachable c0 s ∧ all_returned s ∧ log_calls s = [KSetPolicy None; KSetPolicy (Some p)] ∧
    is_Some (policy (core s)) ∧ Collector.policy (metrics (core s)) = PolicyNone.
Proof.
  intros Hi Hp. destruct (SetPolicy_locked_ok None c0 Hi) as (c1 & n1 & HA & Hi1); [by intros ? ?|].
  pose proof HA as [= <- <-].
  destruct (SetPolicy_locked_ok (Some p) (with_policy None c0) Hi1 Hp) as (c2 & n2 & HB & _).
  assert (Hc2 : is_Some (policy c2)).
  { apply bind_Ret_inv in HB as (c3 & HB & [= <- <-]). apply bind_Ret_inv in HB as (es & _ & HB).
    apply bind_Ret_inv in HB as (p' & _ & [= <-]). by eexists. }
  unfold SetPolicy_locked in HB. cbn in HB.
  set (acts := [Spawn (KSetPolicy None); Spawn (KSetPolicy (Some p)); Step 0; Step 1; Step 1; Step 0]).
  destruct (run_actions acts (start c0)) as [s|] eqn:Hrun.
  - exists s. split; [apply (run_actions_reachable acts c0 (start c0)); [by repeat constructor|constructor|done]|].
    cbn in Hrun. rewrite HB in Hrun. cbn in Hrun. simplify_eq. cbn. split_and!; try done.
    intros t [->|[->|[]%elem_of_nil]%elem_of_cons]%elem_of_cons; by eexists.
  - exfalso. cbn in Hrun. rewrite HB in Hrun. by cbn in Hrun.
Qed.
End linearization.

(** A put of "c", which evicts "a", and a get of "a" that has its number first
    but the mutex last: it misses. *)
Section witnesses.

Definition race_acts : list (action LRU.LRU) :=
  [Spawn (KGet "a" 5 9); Spawn (KPut "c" [] 50 6); Step 0; Step 1; Step 1; Step 0; Step 0; Step 0]%nat.

Lemma race_acts_ok : Forall action_ok race_acts.
Proof. repeat constructor; unfold is_i64; lia. Qed.

Lemma cache_linearizable_witness :
  ∃ s, run_actions race_acts (start sample_core) = Some s ∧ core_inv (core s) ∧ all_returned s ∧
    log_results s = [RError None; RValue None] ∧
    ∃ d, run_calls [KPut "c" [] 50 6; KGet "a" 5 9] sample_core = Ret (d, [RError None; RValue None]) ∧
      store (core s) = store d ∧ seq (core s) = seq d.
Proof.
  destruct (run_actions race_acts (start sample_core)) as [s|] eqn:Hrun; [|vm_compute in Hrun; discriminate].
  pose proof (run_actions_reachable _ _ _ _ race_acts_ok (conc_start _) Hrun) as Hr.
  destruct (cache_linearizable sample_core s sample_core_inv) as (Hi & (d & Hd & Hst & _ & Hall) & _);
    [split; [vm_compute; discriminate|vm_compute; reflexivity]|exact Hr|].
  assert (Hret : all_returned s).
  { vm_compute in Hrun. injection Hrun as <-. intros t Ht. cbn [threads] in Ht.
    apply elem_of_cons in Ht as [->|Ht]; [by eexists|]. apply elem_of_cons in Ht as [->|Ht]; [by eexists|].
    by apply elem_of_nil in Ht. }
  assert (Hlog : log_calls s = [KPut "c" [] 50 6; KGet "a" 5 9] ∧ log_results s = [RError None; RValue None]).
  { vm_compute in Hrun. injection Hrun as <-. split; reflexivity. }
  destruct Hlog as [Hlc Hlr]. rewrite Hlc, Hlr in Hd. destruct (Hall Hret) as [Hseq _].
  exists s. split_and!; [reflexivity|exact Hi|exact Hret|exact Hlr|]. by exists d.
Defined.

Lemma cache_calls_return_witness :
  ∃ s', step_at 1 (spawn (KPut "c" [] 50 6) (spawn (KGet "a" 5 9) (start sample_core))) = Some s'.
Proof.
  destruct (cache_calls_return sample_core (spawn (KPut "c" [] 50 6) (spawn (KGet "a" 5 9) (start sample_core)))
    sample_core_inv) as [Hnext _].
  - split; [vm_compute; discriminate|vm_compute; reflexivity].
  - apply conc_spawn; [apply conc_spawn; [apply conc_start|exact I]|split; [exact I|unfold is_i64; lia]].
  - destruct (Hnext 1%nat _ eq_refl) as [[r Hr]|Hs']; [discriminate Hr|exact Hs'].
Defined.

Lemma setpolicy_race_misnames_witness :
  ∃ s, conc_reachable sample_core s ∧ all_returned s ∧
    log_calls s = [KSetPolicy None; KSetPolicy (Some LRU.NewLRU)] ∧
    is_Some (policy (core s)) ∧ Collector.policy (metrics (core s)) = PolicyNone.
Proof.
  apply (setpolicy_race_misnames sample_core LRU.NewLRU); [apply sample_core_inv|].
  intros p [= <-]. exists ∅. apply LRU.lru_represents_New.
Defined.
End witnesses.
