(* ===== verification/CoreRecords.v ===== *)
(** * cache/core.go and metrics/collector.go: calls and their recordings

    In [CoreConc] a recording of the collector is one step.  Here it is not:
    what a step of a call records starts calls of the collector's methods, and
    these take their atomic steps ([CollectorConc]) at any time, among those of
    all others and while the cache goes on.  [Core.Metrics] hands the collector
    out, so that others may record in it as well. *)
From S2P Require Import Prelude GoFloat Types Policy Events Core CoreSpec CoreConc.
From S2P Require Collector.
From S2P Require Snapshot.
From S2P Require CollectorConc.
From S2P Require LRU.

Section records.
Context `{GoRuntime} `{LawfulPolicy P} `{LawfulBus B}.
Implicit Types s : system P B.
Implicit Types ms : CollectorConc.system.

(** What the cache records from [s] to [s']. *)
Definition recorded (L : list Collector.op) s s' : Prop :=
  Collector.OReset ∉ L ∧ metrics (core s') = Collector.run_ops L (metrics (core s)).

(** The calls of the cache, with the collector as they would leave it if a
    recording were one step, and the collector as it is. *)
Inductive whole_step : system P B * CollectorConc.system → system P B * CollectorConc.system → Prop :=
| whole_call L s s' ms :
    step s s' → recorded L s s' → whole_step (s, ms) (s', CollectorConc.start_all L ms)
| whole_record i s ms ms' :
    CollectorConc.step_at i ms = Some ms' → whole_step (s, ms) (s, ms').

Inductive whole_reachable (c0 : Core P B) : system P B * CollectorConc.system → Prop :=
| whole_start : whole_reachable c0 (start c0, CollectorConc.init_system)
| whole_spawn o s ms : whole_reachable c0 (s, ms) → call_ok o → whole_reachable c0 (spawn o s, ms)
| whole_next x x' : whole_reachable c0 x → whole_step x x' → whole_reachable c0 x'.

Lemma whole_cache c0 x : whole_reachable c0 x → conc_reachable c0 (fst x).
Proof.
  induction 1 as [|o s ms _ IH Ho|x x' _ IH Hst]; [apply conc_start|by apply conc_spawn|].
  destruct Hst; [by eapply conc_step|done].
Qed.

Lemma whole_collector c0 x : whole_reachable c0 x → CollectorConc.reachable (snd x).
Proof.
  unfold CollectorConc.reachable. induction 1 as [|o s ms _ IH _|x x' _ IH Hst]; [done..|].
  destruct Hst as [L s s' ms _ _|i s ms ms' Hst]; cbn [snd] in *.
  - etrans; [exact IH|]. apply CollectorConc.start_all_events.
  - eapply rtc_r; [exact IH|]. by eapply CollectorConc.ev_step.
Qed.

Lemma started_all L ms :
  CollectorConc.started (CollectorConc.start_all L ms) = CollectorConc.started ms ++ L.
Proof.
  revert ms. induction L as [|o L IH]; intros ms; [by rewrite app_nil_r|].
  change (CollectorConc.start_all (o :: L) ms) with (CollectorConc.start_all L (CollectorConc.start o ms)).
  rewrite IH. unfold CollectorConc.started. cbn. by rewrite fmap_app, <-(assoc_L (++)).
Qed.

(** The recordings, in the order they started, are those of the cache. *)
Lemma whole_started c0 x :
  whole_reachable c0 x →
  metrics (core (fst x)) = Collector.run_ops (CollectorConc.started (snd x)) (metrics c0) ∧
  Collector.OReset ∉ CollectorConc.started (snd x).
Proof.
  induction 1 as [|o s ms _ IH _|x x' _ IH Hst]; [|done|].
  - split; [done|]. by apply not_elem_of_nil.
  - destruct Hst as [L s s' ms _ [Hr HL]|i s ms ms' Hst]; cbn [fst snd] in *.
    + destruct IH as [IHm IHr]. rewrite started_all, Collector.run_ops_app, HL, IHm.
      split; [done|]. by apply not_elem_of_app.
    + by rewrite (CollectorConc.step_at_started _ _ _ Hst).
Qed.

(** ** What a step records *)

Lemma counting_no_reset L : Forall Collector.counting L → Collector.OReset ∉ L.
Proof. rewrite Forall_forall. by intros Hc Hin%Hc. Qed.

Lemma thread_step_recorded (t : pc P) (c c' : Core P B) t' e :
  thread_step t c = Some (Ret (c', t', e)) →
  ∃ L, Collector.OReset ∉ L ∧ metrics c' = Collector.run_ops L (metrics c).
Proof.
  assert (Hnil : metrics c' = metrics c → ∃ L, Collector.OReset ∉ L ∧ metrics c' = Collector.run_ops L (metrics c)).
  { intros Hm. exists []. split; [apply not_elem_of_nil|done]. }
  assert (Hone : ∀ o, o ≠ Collector.OReset → metrics c' = Collector.run_op o (metrics c) →
    ∃ L, Collector.OReset ∉ L ∧ metrics c' = Collector.run_ops L (metrics c)).
  { intros o Ho Hm. exists [o]. split; [by intros ?%list_elem_of_singleton|done]. }
  destruct t as [[k st stop|k val size now|k| |po]|k st stop sq|k st stop sq hit val|st sq hit val
                |k val size now sq|name|r]; cbn [thread_step]; intros Hst; simplify_eq; [by apply Hnil|by apply Hnil|..].
  - apply bind_Ret_inv in Hst as ([c1 b] & (_ & L & HL & Hm & _)%Remove_frame & [= <- _ _]).
    exists L. split; [by apply counting_no_reset|done].
  - apply Hnil. unfold Clear. cbn. by destruct (policy c).
  - apply bind_Ret_inv in Hst as ([c1 n] & (_ & Hm & _)%SetPolicy_locked_frame & [= <- _ _]).
    by apply Hnil.
  - apply bind_Ret_inv in Hst as ([[c1 hit] val] & (_ & Hm & _)%Get_locked_frame & [= <- _ _]).
    by apply Hnil.
  - by eapply (Hone (Collector.ORequest _ hit _)).
  - apply bind_Ret_inv in Hst as (c1 & Hpub & [= <- _ _]). apply Hnil.
    unfold Get_publish in Hpub. apply bind_Ret_inv in Hpub as (smp & _ & Hpub). destruct smp; [|by simplify_eq].
    by apply (publish_frame _ (event sq st TypeHit)) in Hpub as (_ & Hm & _).
  - apply bind_Ret_inv in Hst as ([c1 r] & (_ & L & HL & Hm & _)%Put_locked_frame & [= <- _ _]).
    exists L. split; [by apply counting_no_reset|done].
  - by apply (Hone (Collector.OSetPolicy name)).
Qed.

Lemma step_recorded s s' : step s s' → ∃ L, recorded L s s'.
Proof.
  intros [i Hst]. unfold step_at in Hst. destruct (threads s !! i) as [t|]; [|done]. cbn in Hst.
  destruct (thread_step t (core s)) as [[[[c' t'] e]| |]|] eqn:Ht; try done. cbn in Hst. simplify_eq.
  by eapply thread_step_recorded.
Qed.

(** ** Every run ends *)

Lemma whole_terminates (x : system P B * CollectorConc.system) : sn whole_step x.
Proof.
  destruct x as [s ms]. revert ms. induction s as [s IHs] using (induction_ltof1 _ (λ s, sum_list_with pc_steps (threads s))).
  intros ms. induction ms as [ms IHms] using (induction_ltof1 _ CollectorConc.coll_work).
  constructor. intros x' Hst. inversion Hst as [L s1 s' ms1 Hs HL|i s1 ms1 ms' Hm]; subst.
  - apply IHs. unfold ltof. pose proof (step_steps _ _ Hs). lia.
  - apply IHms. apply CollectorConc.coll_step_work. by exists i.
Qed.

(** C4: calls of the cache and their recordings, both by their atomic steps.
    Let gets, puts, removals, clears and policy switches run at once from a
    cache whose collector has counted nothing, and let every recording they make be a call of
    the collector whose atomic steps come at any time.  When all the calls and
    all the recordings (fewer than 2^63) have returned, the calls run one after
    the other in the order they had the mutex give the same results, the same
    store, policy and number of operations, and the same counters in the
    collector.  Until then a step is possible, and no run of steps is
    infinite. *)
Theorem cache_and_collector_linearizable c0 s ms :
  core_inv c0 → is_u64 (seq c0) → Collector.counters (metrics c0) = Collector.counters Collector.NewCollector →
  whole_reachable c0 (s, ms) →
  (all_returned s → CollectorConc.quiescent ms → Z.of_nat (length (CollectorConc.calls ms)) < 2 ^ 63 →
    ∃ d, run_calls (log_calls s) c0 = Ret (d, log_results s) ∧
      store (core s) = store d ∧ policy (core s) = policy d ∧ seq (core s) = seq d ∧
      Collector.counters (CollectorConc.coll ms) = Collector.counters (metrics d)) ∧
  (¬ (all_returned s ∧ CollectorConc.quiescent ms) → ∃ x, whole_step (s, ms) x) ∧
  sn whole_step (s, ms).
Proof.
  intros Hi Hu Hm0 Hr. pose proof (whole_cache _ _ Hr) as Hrc. cbn [fst] in Hrc.
  pose proof (cache_reachable_inv c0 s Hi Hu Hrc) as Hinv. pose proof (whole_started _ _ Hr) as [Hms Hno].
  cbn [fst snd] in Hms, Hno. split_and!; [| |apply whole_terminates].
  - intros Hall Hq Hlen. destruct (linearized_returned c0 s (ci_lin _ _ Hinv) Hall) as (b & m & Hrun & Hm).
    exists (graft b m (seq (core s)) (core s)). split_and!; [done..|]. cbn [graft metrics]. rewrite Hm, Hms.
    assert (Hcalm : CollectorConc.calm ms) by (by split).
    pose proof (CollectorConc.coll_reachable_inv _ (whole_collector _ _ Hr) Hcalm) as Hci.
    destruct (CollectorConc.quiescent_collector _ Hci Hcalm Hq) as [Hc Hp]. cbn [snd] in Hc, Hp. rewrite Hc.
    apply CollectorConc.counters_run_ops_perm; [by rewrite Hp| |done..].
    by rewrite <-CollectorConc.counters_ok_counters, Hm0, CollectorConc.counters_ok_counters; apply Snapshot.counters_ok_New.
  - intros Hn. destruct (decide (CollectorConc.quiescent ms)) as [Hq|Hq].
    + destruct (unreturned_step c0 s Hinv) as [s' Hst]; [by intros ?; apply Hn|].
      destruct (step_recorded _ _ Hst) as [L HL]. eexists. by apply (whole_call L).
    + apply CollectorConc.coll_not_quiescent_step in Hq as (ms' & i & Hst). eexists. by eapply whole_record.
Qed.

(** An executable interleaving: a call of the cache begins, takes its next step
    and makes the recordings [L], or a recording takes its next step. *)
Inductive whole_action := Begin (o : cache_call P) | Next (i : nat) (L : list Collector.op) | Note (i : nat).

Definition whole_act (a : whole_action) (x : system P B * CollectorConc.system) :
    option (system P B * CollectorConc.system) :=
  let '(s, ms) := x in
  match a with
  | Begin o => Some (spawn o s, ms)
  | Next i L =>
      s' ← step_at i s;
      if decide (metrics (core s') = Collector.run_ops L (metrics (core s)))
      then Some (s', CollectorConc.start_all L ms) else None
  | Note i => pair s <$> CollectorConc.step_at i ms
  end.

Definition whole_action_ok (a : whole_action) : Prop :=
  match a with Begin o => call_ok o | Next _ L => Forall Collector.counting L | Note _ => True end.

Fixpoint whole_run (acts : list whole_action) x : option (system P B * CollectorConc.system) :=
  match acts with [] => Some x | a :: acts => whole_act a x ≫= whole_run acts end.

Lemma whole_act_reachable a c0 x x' :
  whole_action_ok a → whole_reachable c0 x → whole_act a x = Some x' → whole_reachable c0 x'.
Proof.
  destruct x as [s ms]. intros Ha Hr. destruct a as [o|i L|i]; cbn [whole_act]; intros Hact.
  - simplify_eq. by apply whole_spawn.
  - apply bind_Some in Hact as (s' & Hst & Hact). case_decide as Hm; [|done]. simplify_eq.
    eapply whole_next; [done|]. apply whole_call; [by exists i|]. by split; [apply counting_no_reset|].
  - apply fmap_Some in Hact as (ms' & Hst & ->). eapply whole_next; [done|]. by eapply whole_record.
Qed.

Lemma whole_run_reachable acts c0 x x' :
  Forall whole_action_ok acts → whole_reachable c0 x → whole_run acts x = Some x' → whole_reachable c0 x'.
Proof.
  intros Hok. revert x. induction Hok as [|a acts Ha _ IH]; intros x Hr Hrun; simplify_eq/=; [done|].
  apply bind_Some in Hrun as (x1 & Hx & Hrun). eapply IH; [|done]. by eapply whole_act_reachable.
Qed.
End records.
Arguments whole_action : clear implicits.

(** A put of "a"; then, at once, a put of "c", which evicts "a", and a get of
    "a", which has the mutex first and hits.  The get records its request
    while the eviction is recorded; the loop of its latency comes last. *)
Definition whole_core : Core LRU.LRU (list Event) := New sample_opts.
Definition hit_of_a : Collector.op := Collector.ORequest (get_request "a" 60 5 2) true 4.

Definition whole_schedule : list (whole_action LRU.LRU) :=
  [Begin (KPut "a" [] 60 1); Begin (KGet "a" 5 9); Begin (KPut "c" [] 50 6);
   Next 0 []; Next 0 [Collector.OFetch 60]; Next 1 []; Next 2 []; Next 1 []; Next 1 [hit_of_a];
   Next 2 [Collector.OEviction "a" 60; Collector.OFetch 50];
   Note 1; Note 2; Note 1; Note 0; Note 2; Note 1; Note 1; Note 1; Note 1; Note 3; Next 1 []; Note 1; Note 1]%nat.

Lemma whole_schedule_ok : Forall whole_action_ok whole_schedule.
Proof. unfold whole_schedule. repeat apply Forall_cons_2; try apply Forall_nil_2; cbn; unfold is_i64; repeat constructor; lia. Qed.

Lemma cache_and_collector_linearizable_witness :
  ∃ s ms d, whole_run whole_schedule (start whole_core, CollectorConc.init_system) = Some (s, ms) ∧
    all_returned s ∧ CollectorConc.quiescent ms ∧
    run_calls [KPut "a" [] 60 1; KGet "a" 5 9; KPut "c" [] 50 6] whole_core =
      Ret (d, [RError None; RValue (Some []); RError None]) ∧
    store (core s) = store d ∧
    Collector.counters (CollectorConc.coll ms) = Collector.counters (metrics d) ∧
    Collector.hits (CollectorConc.coll ms) = 1 ∧ Collector.evictedBytes (CollectorConc.coll ms) = 60 ∧
    Histogram.max_ (Collector.latency (CollectorConc.coll ms)) = 4.
Proof.
  destruct (whole_run whole_schedule (start whole_core, CollectorConc.init_system)) as [[s ms]|] eqn:Hrun;
    [|vm_compute in Hrun; discriminate].
  assert (Some (true, true, 4%nat, [KPut "a" [] 60 1; KGet "a" 5 9; KPut "c" [] 50 6], [RError None; RValue (Some []); RError None], [1; 60; 4]) =
    (λ '(s, ms), (forallb (λ t : pc LRU.LRU, match t with Returned _ => true | _ => false end) (threads s),
      bool_decide (CollectorConc.quiescent ms), length (CollectorConc.calls ms), log_calls s, log_results s,
      [Collector.hits (CollectorConc.coll ms); Collector.evictedBytes (CollectorConc.coll ms);
       Histogram.max_ (Collector.latency (CollectorConc.coll ms))])) <$> Some (s, ms)) as Hf
    by (rewrite <-Hrun; vm_compute; reflexivity).
  cbn [fmap option_fmap option_map] in Hf. injection Hf as Hall Hq Hlen Hcalls Hres Hhits Hev Hmax.
  assert (all_returned s) as Hall'.
  { intros t Ht. apply list_elem_of_In in Ht. pose proof (proj1 (forallb_forall _ _) (eq_sym Hall) t Ht) as Hret.
    clear -Hret. destruct t; try discriminate Hret. by eexists. }
  assert (CollectorConc.quiescent ms) as Hq' by (apply (bool_decide_unpack _); rewrite <-Hq; exact I).
  pose proof (whole_run_reachable _ _ _ _ whole_schedule_ok (whole_start whole_core) Hrun) as Hr.
  destruct (proj1 (cache_and_collector_linearizable whole_core s ms (core_inv_New _ sample_opts_ok)
    ltac:(vm_compute; split; [discriminate|reflexivity]) eq_refl Hr) Hall' Hq') as (d & Hd & Hst & _ & _ & Hc);
    [rewrite <-Hlen; reflexivity|].
  rewrite <-Hcalls, <-Hres in Hd. exists s, ms, d.
  split_and!; [exact eq_refl|exact Hall'|exact Hq'|exact Hd|exact Hst|exact Hc|exact (eq_sym Hhits)|exact (eq_sym Hev)|exact (eq_sym Hmax)].
Defined.
