(* ===== verification/LRUCache.v ===== *)
(** * The cache with the LRU policy

    The whole cache, store and policy together, against the textbook
    definition: a byte-bounded map and the list of its keys from most to least
    recently used.  A get moves its key to the front; a put drops keys from the
    end of the list until the object fits, then puts a new key at the front (a
    replaced one stays where it is). *)
From S2P Require Import Prelude GoFloat Types Policy Events Core.
From S2P Require Store.
From S2P Require LRU.

(** ** The reference *)

Definition lru_state : Type := list string * gmap string Entry.

Inductive cache_op :=
| KGet (k : string) (start stop : Z)
| KPut (k : string) (val : Value) (size now : Z)
| KRemove (k : string)
| KClear.

Inductive cache_result :=
| RValue (v : option Value)
| RError (e : option store_error)
| RRemoved (b : bool)
| RDone.

(** Drop keys from the end until the object fits. *)
Fixpoint make_room (fuel : nat) (k : string) (size cap : Z) (s : lru_state) : lru_state :=
  if decide (fits k size cap s.2) then s
  else
    match fuel, last s.1 with
    | S fuel, Some x => make_room fuel k size cap (LRU.spec_remove x s.1, delete x s.2)
    | _, _ => s
    end.

Definition spec_put (k : string) (val : Value) (size now cap : Z) (s : lru_state)
    : lru_state * option store_error :=
  if decide (size < 0) then (s, Some Store.ErrInvalidSize)
  else if decide (cap < size) then (s, Some Store.ErrObjectTooLarge)
  else
    let '(l, m) := make_room (length s.1) k size cap s in
    ((LRU.spec_insert k l, <[k := Store.inserted k val size now (m !! k)]> m), None).

Definition spec_step (cap : Z) (o : cache_op) (s : lru_state) : lru_state * cache_result :=
  match o with
  | KGet k start _ =>
      ((LRU.spec_access k s.1, alter (Store.touched start) k s.2), RValue (EValue <$> s.2 !! k))
  | KPut k val size now => let '(s, e) := spec_put k val size now cap s in (s, RError e)
  | KRemove k => ((LRU.spec_remove k s.1, delete k s.2), RRemoved (bool_decide (is_Some (s.2 !! k))))
  | KClear => (([], ∅), RDone)
  end.

Fixpoint spec_run (cap : Z) (ops : list cache_op) (s : lru_state) : lru_state * list cache_result :=
  match ops with
  | [] => (s, [])
  | o :: ops =>
      let '(s, r) := spec_step cap o s in let '(s, rs) := spec_run cap ops s in (s, r :: rs)
  end.

(** ** The cache *)

Section lru_cache.
Context `{LawfulBus B}.
Implicit Types c : Core LRU.LRU B.

Definition step (o : cache_op) c : outcome (Core LRU.LRU B * cache_result) :=
  match o with
  | KGet k start stop => '(c, v) ← Get k start stop c; Ret (c, RValue v)
  | KPut k val size now => '(c, e) ← Put k val size now c; Ret (c, RError e)
  | KRemove k => '(c, b) ← Remove k c; Ret (c, RRemoved b)
  | KClear => Ret (Clear c, RDone)
  end.

Fixpoint run (ops : list cache_op) c : outcome (Core LRU.LRU B * list cache_result) :=
  match ops with
  | [] => Ret (c, [])
  | o :: ops => '(c, r) ← step o c; '(c, rs) ← run ops c; Ret (c, r :: rs)
  end.

Definition cache_op_ok (o : cache_op) : Prop :=
  match o with KPut _ _ size _ => is_i64 size | _ => True end.

(** The state of a cache with LRU installed. *)
Definition simulates c (s : lru_state) : Prop :=
  core_inv c ∧ contents (store c) = s.2 ∧ ∃ p, policy c = Some p ∧ LRU.recency p = s.1.

Lemma simulates_represents c s :
  simulates c s → ∃ p, policy c = Some p ∧ LRU.lru_represents p (pointers (store c)) ∧ LRU.recency p = s.1.
Proof. intros (Hi & _ & p & Hp & Hr). exists p. split_and!; [done|by apply (cv_policy c Hi)|done]. Qed.

Lemma evicts_make_room k size cap po m vs po' m' p pm :
  evicts k size cap po m vs po' m' → po = Some p → LRU.lru_represents p pm →
  ∃ p' pm', po' = Some p' ∧ LRU.lru_represents p' pm' ∧
    ∀ fuel, (length (LRU.recency p) ≤ fuel)%nat →
      make_room fuel k size cap (LRU.recency p, m) = (LRU.recency p', m').
Proof.
  intros Hev. revert p pm. induction Hev as [po m Hfit|p0 p1 po2 m x e l vs po' m' Hfit Hvic Hx Hcall Hev IH];
    intros p pm Hpo Hr.
  - exists p, pm. split_and!; [done|done|]. intros fuel _.
    destruct fuel; cbn [make_room]; rewrite decide_True by done; done.
  - simplify_eq. cbn in Hvic. injection Hvic as <- Hlast. rewrite LRU.lru_victim_spec in Hlast.
    destruct Hcall as (p2 & [= <-] & ->).
    assert (Hr2 : LRU.lru_represents (LRU.OnRemove x (Some l) p) (delete x pm))
      by (by apply LRU.lru_represents_OnRemove).
    destruct (IH _ _ eq_refl Hr2) as (p' & pm' & -> & Hr' & Hrun). exists p', pm'.
    split_and!; [done|done|]. intros fuel Hfuel.
    rewrite LRU.recency_OnRemove in Hrun by apply Hr.
    assert (Hin : x ∈ LRU.recency p) by (by apply last_Some_elem_of).
    assert (Hlen : (length (LRU.spec_remove x (LRU.recency p)) < length (LRU.recency p))%nat).
    { apply length_filter_lt with x; [done|]. by intros []. }
    destruct fuel as [|fuel]; [lia|]. cbn [make_room fst snd]. rewrite decide_False by done.
    rewrite Hlast. apply Hrun. lia.
Qed.

Lemma step_put k val size now c s :
  simulates c s → is_i64 size →
  ∃ c' r, Put k val size now c = Ret (c', r) ∧
    Store.capacity (store c') = Store.capacity (store c) ∧
    simulates c' (spec_put k val size now (Store.capacity (store c)) s).1 ∧
    r = (spec_put k val size now (Store.capacity (store c)) s).2.
Proof.
  intros Hsim Hsz. destruct (simulates_represents c s Hsim) as (p & Hp & Hr & Hrec).
  destruct Hsim as (Hi & Hc & _).
  destruct (Put_spec k val size now c Hi I Hsz) as (c' & r & Hrun & Hi' & Hcap & _ & _ & Hres).
  exists c', r. unfold admits in Hres. rewrite Hp in Hres. cbn in Hres. destruct s as [l0 m0].
  cbn [fst snd] in *. subst l0 m0. unfold spec_put. destruct r as [err|].
  - destruct Hres as (Hc' & _ & Hpo & Hspec & Hne). specialize (Hne ltac:(eauto)).
    assert (Hsame : simulates c' (LRU.recency p, contents (store c))).
    { split; [done|]. split; [done|]. exists p. by rewrite Hpo. }
    unfold Store.spec_insert in Hspec. repeat case_decide; by simplify_eq.
  - destruct Hres as (Hrange & vs & po & m & l & Hev & Hcall & Hc' & _).
    rewrite !decide_False by lia.
    destruct (evicts_make_room _ _ _ _ _ _ _ _ p _ Hev eq_refl Hr) as (p' & pm' & -> & Hr' & Hroom).
    cbn [fst]. rewrite Hroom by lia. split_and!; [done|done| |done].
    destruct Hcall as (p2 & [= <-] & Hp2). split; [done|]. split; [done|].
    eexists. split; [exact Hp2|]. apply LRU.recency_OnInsert, Hr'.
Qed.

Lemma step_refines o c s :
  simulates c s → cache_op_ok o →
  ∃ c', step o c = Ret (c', (spec_step (Store.capacity (store c)) o s).2) ∧
    Store.capacity (store c') = Store.capacity (store c) ∧
    simulates c' (spec_step (Store.capacity (store c)) o s).1.
Proof.
  intros Hsim Hok. destruct (simulates_represents c s Hsim) as (p & Hp & Hr & Hrec).
  pose proof Hsim as (Hi & Hc & _).
  assert (Hmem : ∀ k, k ∈ LRU.recency p ↔ is_Some (contents (store c) !! k)).
  { intros k. rewrite (LRU.elem_of_recency p _ k Hr), pointers_lookup, fmap_is_Some.
    pose proof (Store.contents_None (store c) k (cv_store c Hi)) as Hn.
    destruct (contents (store c) !! k), (Store.items (store c) !! k); naive_solver. }
  destruct o as [k start stop|k val size now|k|]; cbn [step spec_step].
  - destruct (Get_spec k start stop c Hi) as (c' & -> & Hi' & Hcap & _ & _ & Hpo & Hc' & _).
    cbn [mbind outcome_bind fst snd]. rewrite <-Hc. exists c'. split_and!; [done|done|]. split; [done|]. split; [done|].
    rewrite Hp in Hpo. cbn [fst]. rewrite <-Hrec. case_bool_decide as Hhit.
    + destruct Hpo as (l & p2 & [= <-] & Hp2). eexists. split; [exact Hp2|]. apply LRU.recency_OnAccess, Hr.
    + exists p. split; [done|]. unfold LRU.spec_access. by rewrite decide_False by (by rewrite Hmem).
  - destruct (step_put k val size now c s Hsim Hok) as (c' & r & -> & Hcap & Hs & ->).
    cbn [mbind outcome_bind]. destruct (spec_put _ _ _ _ _ _) as [s' r]. eauto.
  - destruct (cache_Remove_spec k c Hi) as (c' & -> & Hi' & Hcap & _ & _ & _ & Hc' & Hpo).
    cbn [mbind outcome_bind fst snd]. rewrite <-Hc. exists c'. split_and!; [done|done|]. split; [done|]. split; [done|].
    rewrite Hp in Hpo. cbn [fst]. rewrite <-Hrec. case_bool_decide as Hhit.
    + destruct Hpo as (l & p2 & [= <-] & Hp2). eexists. split; [exact Hp2|]. apply LRU.recency_OnRemove, Hr.
    + exists p. split; [done|]. unfold LRU.spec_remove. symmetry. apply filter_all.
      intros j Hj%Hmem ->. done.
  - destruct (cache_Clear_spec c Hi) as (Hi' & Hc' & _ & Hpo & Hcap). eexists. split_and!; [done|done|].
    split; [done|]. split; [done|]. rewrite Hpo, Hp. eexists. split; [reflexivity|]. reflexivity.
Qed.

Lemma run_refines ops c s :
  simulates c s → Forall cache_op_ok ops →
  ∃ c', run ops c = Ret (c', (spec_run (Store.capacity (store c)) ops s).2) ∧
    simulates c' (spec_run (Store.capacity (store c)) ops s).1.
Proof.
  intros Hs Hok. revert c s Hs. induction Hok as [|o ops Ho _ IH]; intros c s Hs; [by exists c|].
  cbn [run spec_run]. destruct (step_refines o c s Hs Ho) as (c1 & -> & Hcap & Hs1). cbn [mbind outcome_bind].
  destruct (spec_step (Store.capacity (store c)) o s) as [s1 r]. cbn [fst snd] in *.
  destruct (IH c1 s1 Hs1) as (c2 & -> & Hs2). rewrite Hcap in *. cbn [mbind outcome_bind].
  destruct (spec_run (Store.capacity (store c)) ops s1) as [s2 rs]. eauto.
Qed.

(** C1: the cache with LRU is the textbook LRU cache.  From a new cache of any
    capacity up to 2^62-1, any history of gets, puts, removals and clears
    gives the results of the reference and ends in its state: the resident
    entries are those of the reference's map, and the policy's list is its
    list of keys.  In particular a put evicts exactly the least recently used
    keys, no more than needed, and a get refreshes its key. *)
Theorem lru_cache_refines_reference cap bo rate ops :
  0 ≤ cap ≤ Store.maxCapacity → is_u64 rate → bus_sound bo → Forall cache_op_ok ops →
  let '(s, rs) := spec_run cap ops ([], ∅) in
  ∃ c p, run ops (New {| OCapacity := cap; OPolicy := Some LRU.NewLRU; OBus := bo; OMetrics := None;
                         RequestSampleRate := rate |}) = Ret (c, rs) ∧
    contents (store c) = s.2 ∧ policy c = Some p ∧ LRU.recency p = s.1.
Proof.
  intros Hcap Hrate Hbus Hok.
  set (c0 := New _). assert (Hsim : simulates c0 ([], ∅)).
  { split; [|split; [apply omap_empty|by exists LRU.NewLRU]]. split; cbn; try done.
    - by apply Store.store_inv_New.
    - intros p [= <-]. apply LRU.lru_represents_New.
    - unfold is_u64 in Hrate. destruct (Z.eqb_spec rate 0); lia. }
  destruct (run_refines ops c0 _ Hsim Hok) as (c & Hrun & Hs).
  change (Store.capacity (store c0)) with cap in *.
  destruct (spec_run cap ops ([], ∅)) as [s rs]. destruct Hs as (_ & Hc & p & Hp & Hr).
  exists c, p. split_and!; done.
Qed.
End lru_cache.

(** With 100 bytes, "a" is read, so "b" goes when "c" needs room. *)
Lemma lru_cache_refines_witness :
  ∃ (c : Core LRU.LRU MemBus) p,
    run [KPut "a" [] 40 1; KPut "b" [] 40 2; KGet "a" 3 3; KPut "c" [] 40 4; KGet "b" 5 5]
      (New {| OCapacity := 100; OPolicy := Some LRU.NewLRU; OBus := Some NewBus; OMetrics := None;
              RequestSampleRate := 1 |})
    = Ret (c, [RError None; RError None; RValue (Some []); RError None; RValue None]) ∧
    policy c = Some p ∧ LRU.recency p = ["c"; "a"]%string.
Proof.
  pose proof (lru_cache_refines_reference (B := MemBus) 100 (Some NewBus) 1
    [KPut "a" [] 40 1; KPut "b" [] 40 2; KGet "a" 3 3; KPut "c" [] 40 4; KGet "b" 5 5]) as Hr.
  specialize (Hr ltac:(unfold Store.maxCapacity; lia) ltac:(unfold is_u64; lia)).
  specialize (Hr ltac:(intros b [= <-]; apply bus_inv_New) ltac:(repeat constructor; unfold cache_op_ok, is_i64; lia)).
  destruct (spec_run 100 _ ([], ∅)) as [[l m] rs] eqn:E. vm_compute in E. injection E as <- _ <-.
  destruct Hr as (c & p & Hrun & _ & Hp & Hl). exists c, p. split; [exact Hrun|]. split; [exact Hp|exact Hl].
Defined.
