(* ===== verification/Config.v ===== *)
(** * config/: the configuration

    The records of config/config.go and config/flags.go with their defaults,
    [Validate] of config/validate.go as the list of the problems found, the
    frame interval, and [Parse] and [Load] over the YAML decoder and the file
    system, which are arguments.  Byte sizes are the int64 they decode to. *)
From S2P Require Import Prelude GoFloat Types Policy Registry.

(** ** config/flags.go *)

Record FeatureFlags := {
  Adaptive : bool;
  Tuning : bool;
  SizeAware : bool;
  Tiers : bool;
  Shadow : bool;
}.

Definition DefaultFeatureFlags : FeatureFlags :=
  {| Adaptive := false; Tuning := false; SizeAware := false; Tiers := false; Shadow := false |}.

(** ** config/config.go *)

Definition ByteSize : Type := Z.

Definition Bytes (b : ByteSize) : Z := b.
Definition MarshalYAML (b : ByteSize) : Z := b.

Record CacheConfig := { Capacity : ByteSize; CPolicy : string }.

Record EventsConfig := {
  BusBuffer : Z;
  MetricsBuffer : Z;
  FrameBuffer : Z;
  RequestSampleRate : Z;
}.

Record UIConfig := { FrameRateHz : float64 }.
Record LogConfig := { Level : string }.

Record Config := {
  Cache : CacheConfig;
  CEvents : EventsConfig;
  UI : UIConfig;
  Log : LogConfig;
  CFeatures : FeatureFlags;
}.

Definition Default : Config :=
  {| Cache := {| Capacity := 100 * 1000 * 1000; CPolicy := "lru" |};
     CEvents := {| BusBuffer := 1024; MetricsBuffer := 8192; FrameBuffer := 256; RequestSampleRate := 1000 |};
     UI := {| FrameRateHz := f64_of_Z 10 |};
     Log := {| Level := "info" |};
     CFeatures := DefaultFeatureFlags |}.

Definition Second : Z := 1000000000.
Definition Millisecond : Z := 1000000.

Definition FrameInterval `{GoRuntime} (c : Config) : Z :=
  if f64_le (FrameRateHz (UI c)) f64_zero then 100 * Millisecond
  else f64_to_i64 (f64_div (f64_of_Z Second) (FrameRateHz (UI c))).

(** ** config/validate.go *)

(** The problems [Validate] reports, with the values its messages print. *)
Inductive config_error :=
| ECapacity (got : Z)
| EPolicyEmpty
| EPolicyUnknown (name : string) (known : list PolicyName)
| EBusBuffer (got : Z)
| EMetricsBuffer (got : Z)
| EFrameBuffer (got : Z)
| ESampleRate
| EFrameRate (got : float64)
| ELogLevel (got : string).

Definition validLogLevels : list string := ["debug"; "info"; "warn"; "error"]%string.
Definition maxFrameRateHz : Z := 240.

Fixpoint level_in (level : string) (levels : list string) : bool :=
  match levels with
  | [] => false
  | l :: levels => if decide (level = l) then true else level_in level levels
  end.

Definition validLogLevel (level : string) : bool := level_in level validLogLevels.

Section validate.
Context `{GoRuntime} {P : Type}.
Implicit Types (r : registry P) (c : Config).

(** [errors.Join] of no error is nil, so the empty list is success. *)
Definition Validate (tick : nat) r c : list config_error :=
  (if Capacity (Cache c) <=? 0 then [ECapacity (Capacity (Cache c))] else []) ++
  (if decide (CPolicy (Cache c) = ""%string) then [EPolicyEmpty]
   else
     let name := CPolicy (Cache c) in
     if negb (bool_decide (name = PolicyNone)) && negb (IsKnown name r)
     then [EPolicyUnknown name (Names tick r)] else []) ++
  (if BusBuffer (CEvents c) <=? 0 then [EBusBuffer (BusBuffer (CEvents c))] else []) ++
  (if MetricsBuffer (CEvents c) <=? 0 then [EMetricsBuffer (MetricsBuffer (CEvents c))] else []) ++
  (if FrameBuffer (CEvents c) <=? 0 then [EFrameBuffer (FrameBuffer (CEvents c))] else []) ++
  (if RequestSampleRate (CEvents c) =? 0 then [ESampleRate] else []) ++
  (if f64_le (FrameRateHz (UI c)) f64_zero || f64_gt (FrameRateHz (UI c)) (f64_of_Z maxFrameRateHz)
   then [EFrameRate (FrameRateHz (UI c))] else []) ++
  (if negb (validLogLevel (Level (Log c))) then [ELogLevel (Level (Log c))] else []).

(** What [Parse] and [Load] return besides a configuration. *)
Inductive load_error (E : Type) :=
| ReadFailed (e : E)
| DecodeFailed (e : E)
| Invalid (errs : list config_error).
Arguments ReadFailed {E}.
Arguments DecodeFailed {E}.
Arguments Invalid {E}.

Section load.
Context {E : Type} (unmarshal : list Byte.byte → Config → E + Config).

Definition Parse (tick : nat) r (data : list Byte.byte) : load_error E + Config :=
  match unmarshal data Default with
  | inl e => inl (DecodeFailed e)
  | inr cfg =>
      match Validate tick r cfg with
      | [] => inr cfg
      | errs => inl (Invalid errs)
      end
  end.

Definition Load (tick : nat) (readFile : string → E + list Byte.byte) r (path : string)
    : load_error E + Config :=
  match readFile path with
  | inl e => inl (ReadFailed e)
  | inr data => Parse tick r data
  end.
End load.

Lemma if_nil {A} (b : bool) (x : A) : (if b then [x] else []) = [] ↔ b = false.
Proof. by destruct b. Qed.

Lemma level_in_spec level levels : level_in level levels = true ↔ level ∈ levels.
Proof.
  induction levels as [|l levels IH]; simpl; [split; [done|set_solver]|].
  rewrite elem_of_cons. case_decide; [naive_solver|]. rewrite IH. naive_solver.
Qed.

Lemma Validate_iff tick r c :
  Validate tick r c = [] ↔
    0 < Capacity (Cache c) ∧
    CPolicy (Cache c) ≠ ""%string ∧
    (CPolicy (Cache c) = PolicyNone ∨ is_Some (New (CPolicy (Cache c)) r)) ∧
    0 < BusBuffer (CEvents c) ∧ 0 < MetricsBuffer (CEvents c) ∧ 0 < FrameBuffer (CEvents c) ∧
    RequestSampleRate (CEvents c) ≠ 0 ∧
    (FrameRateHz (UI c) = S754_nan ∨
      f64_le (FrameRateHz (UI c)) f64_zero = false ∧
      f64_gt (FrameRateHz (UI c)) (f64_of_Z maxFrameRateHz) = false) ∧
    Level (Log c) ∈ validLogLevels.
Proof.
  unfold Validate. rewrite !app_nil, !if_nil, !Z.leb_gt, Z.eqb_neq, orb_false_iff, negb_false_iff.
  unfold validLogLevel. rewrite level_in_spec.
  assert (Hknown : IsKnown (CPolicy (Cache c)) r = true ↔ is_Some (New (CPolicy (Cache c)) r)).
  { unfold IsKnown, New. rewrite bool_decide_eq_true. by destruct (r !! _). }
  assert (Hpol : (if decide (CPolicy (Cache c) = ""%string) then [EPolicyEmpty]
      else let name := CPolicy (Cache c) in
        if negb (bool_decide (name = PolicyNone)) && negb (IsKnown name r)
        then [EPolicyUnknown name (Names tick r)] else []) = [] ↔
    CPolicy (Cache c) ≠ ""%string ∧ (CPolicy (Cache c) = PolicyNone ∨ is_Some (New (CPolicy (Cache c)) r))).
  { case_decide as He; [naive_solver|]. cbv zeta. rewrite if_nil, andb_false_iff, !negb_false_iff, Hknown, bool_decide_eq_true.
    naive_solver. }
  rewrite Hpol. assert (Hnan : FrameRateHz (UI c) = S754_nan →
    f64_le (FrameRateHz (UI c)) f64_zero = false ∧ f64_gt (FrameRateHz (UI c)) (f64_of_Z maxFrameRateHz) = false).
  { by intros ->. }
  naive_solver.
Qed.
(** ** What [Validate] reports *)

(** The problems of a configuration, each with its field and the value that is
    printed. *)
Inductive problem tick r c : config_error → Prop :=
| p_capacity : Capacity (Cache c) ≤ 0 → problem tick r c (ECapacity (Capacity (Cache c)))
| p_policy_empty : CPolicy (Cache c) = ""%string → problem tick r c EPolicyEmpty
| p_policy_unknown :
    CPolicy (Cache c) ≠ ""%string → CPolicy (Cache c) ≠ PolicyNone → New (CPolicy (Cache c)) r = None →
    problem tick r c (EPolicyUnknown (CPolicy (Cache c)) (Names tick r))
| p_bus : BusBuffer (CEvents c) ≤ 0 → problem tick r c (EBusBuffer (BusBuffer (CEvents c)))
| p_metrics : MetricsBuffer (CEvents c) ≤ 0 → problem tick r c (EMetricsBuffer (MetricsBuffer (CEvents c)))
| p_frame : FrameBuffer (CEvents c) ≤ 0 → problem tick r c (EFrameBuffer (FrameBuffer (CEvents c)))
| p_sample : RequestSampleRate (CEvents c) = 0 → problem tick r c ESampleRate
| p_rate :
    f64_le (FrameRateHz (UI c)) f64_zero = true ∨ f64_gt (FrameRateHz (UI c)) (f64_of_Z maxFrameRateHz) = true →
    problem tick r c (EFrameRate (FrameRateHz (UI c)))
| p_level : Level (Log c) ∉ validLogLevels → problem tick r c (ELogLevel (Level (Log c))).

(** The checks in their order. *)
Definition field_no (e : config_error) : nat :=
  match e with
  | ECapacity _ => 0 | EPolicyEmpty | EPolicyUnknown _ _ => 1 | EBusBuffer _ => 2 | EMetricsBuffer _ => 3
  | EFrameBuffer _ => 4 | ESampleRate => 5 | EFrameRate _ => 6 | ELogLevel _ => 7
  end.

Lemma elem_of_if (b : bool) (x e : config_error) : e ∈ (if b then [x] else []) ↔ b = true ∧ e = x.
Proof. destruct b; set_solver. Qed.

Lemma Validate_problems tick r c e : e ∈ Validate tick r c ↔ problem tick r c e.
Proof.
  unfold Validate. rewrite !elem_of_app, !elem_of_if, !Z.leb_le, Z.eqb_eq, orb_true_iff, negb_true_iff.
  assert (Hlevel : validLogLevel (Level (Log c)) = false ↔ Level (Log c) ∉ validLogLevels).
  { rewrite <-not_true_iff_false. unfold validLogLevel. by rewrite level_in_spec. }
  assert (Hpol : e ∈ (if decide (CPolicy (Cache c) = ""%string) then [EPolicyEmpty]
      else let name := CPolicy (Cache c) in
        if negb (bool_decide (name = PolicyNone)) && negb (IsKnown name r)
        then [EPolicyUnknown name (Names tick r)] else []) ↔
    CPolicy (Cache c) = ""%string ∧ e = EPolicyEmpty ∨
    CPolicy (Cache c) ≠ ""%string ∧ CPolicy (Cache c) ≠ PolicyNone ∧ New (CPolicy (Cache c)) r = None ∧
      e = EPolicyUnknown (CPolicy (Cache c)) (Names tick r)).
  { case_decide; [set_solver|]. cbv zeta. rewrite elem_of_if, andb_true_iff, !negb_true_iff.
    unfold IsKnown. rewrite !bool_decide_eq_false, <-eq_None_not_Some.
    unfold New. destruct (r !! CPolicy (Cache c)); naive_solver. }
  rewrite Hpol, Hlevel. split; [|destruct 1; naive_solver].
  intros Hor. destruct_or?; destruct_and?; subst; by constructor.
Qed.

Definition in_order (es : list config_error) : Prop := StronglySorted (λ a b, (field_no a < field_no b)%nat) es.
Definition at_field (n : nat) (es : list config_error) : Prop := es = [] ∨ ∃ e, es = [e] ∧ field_no e = n.
Definition from_field (n : nat) (es : list config_error) : Prop := in_order es ∧ Forall (λ e, n ≤ field_no e)%nat es.

Lemma from_field_app n es es' : at_field n es → from_field (S n) es' → from_field n (es ++ es').
Proof.
  intros Hes [Hs Hf]. assert (Hf' : Forall (λ e, n ≤ field_no e)%nat es').
  { eapply Forall_impl; [exact Hf|]. intros; cbn in *; lia. }
  destruct Hes as [->|(e & -> & He)]; [done|]. split; constructor; try done; [|lia].
  eapply Forall_impl; [exact Hf|]. intros e' He'. cbn in *. lia.
Qed.

Lemma at_field_if n (b : bool) e : field_no e = n → at_field n (if b then [e] else []).
Proof. destruct b; [right; eauto|by left]. Qed.

Lemma Validate_in_order tick r c : in_order (Validate tick r c).
Proof.
  apply (from_field_app 0); [by apply at_field_if|]. apply from_field_app; [|do 5 (apply from_field_app; [by apply at_field_if|])].
  - case_decide; [right; by eexists|by apply at_field_if].
  - rewrite <-app_nil_r. apply from_field_app; [by apply at_field_if|]. split; constructor.
Qed.

(** Where the result of [Load] comes from. *)
Lemma Load_outcome {E} (unmarshal : list Byte.byte → Config → E + Config) tick readFile r path :
  match Load unmarshal tick readFile r path with
  | inl (ReadFailed e) => readFile path = inl e
  | inl (DecodeFailed e) => ∃ data, readFile path = inr data ∧ unmarshal data Default = inl e
  | inl (Invalid errs) =>
      ∃ data cfg, readFile path = inr data ∧ unmarshal data Default = inr cfg ∧ errs = Validate tick r cfg ∧ errs ≠ []
  | inr cfg => ∃ data, readFile path = inr data ∧ unmarshal data Default = inr cfg ∧ Validate tick r cfg = []
  end.
Proof.
  unfold Load, Parse. destruct (readFile path) as [e|data]; [done|].
  destruct (unmarshal data Default) as [e|cfg] eqn:Hd; [by exists data|].
  destruct (Validate tick r cfg) as [|e0 errs] eqn:Hv; [by exists data|]. exists data, cfg. by rewrite Hv.
Qed.

(** C35: loading a configuration reports everything that is wrong with it.  If
    the file cannot be read or decoded the error is that of the step that
    failed.  If the configuration it gives, over the defaults, has problems,
    the error names exactly these, each once, with the value found, in the
    order of the fields; it is accepted when it has none. *)
Theorem Load_reports_every_problem {E} (unmarshal : list Byte.byte → Config → E + Config) tick readFile r path :
  match Load unmarshal tick readFile r path with
  | inl (ReadFailed e) => readFile path = inl e
  | inl (DecodeFailed e) => ∃ data, readFile path = inr data ∧ unmarshal data Default = inl e
  | inl (Invalid errs) =>
      ∃ data cfg, readFile path = inr data ∧ unmarshal data Default = inr cfg ∧ errs ≠ [] ∧
        (∀ e, e ∈ errs ↔ problem tick r cfg e) ∧ StronglySorted (λ a b, (field_no a < field_no b)%nat) errs
  | inr cfg => ∃ data, readFile path = inr data ∧ unmarshal data Default = inr cfg ∧ ∀ e, ¬ problem tick r cfg e
  end.
Proof.
  pose proof (Load_outcome unmarshal tick readFile r path) as Ho.
  destruct (Load unmarshal tick readFile r path) as [[e|e|errs]|cfg]; [done..| |].
  - destruct Ho as (data & cfg & Hf & Hd & -> & Hne). exists data, cfg.
    split_and!; [done..|apply Validate_problems|apply Validate_in_order].
  - destruct Ho as (data & Hf & Hd & Hv). exists data. split_and!; [done..|].
    intros e He%Validate_problems. rewrite Hv in He. by apply elem_of_nil in He.
Qed.

Lemma Validate_accepted tick r c :
  Validate tick r c = [] →
    0 < Capacity (Cache c) ∧ CPolicy (Cache c) ≠ ""%string ∧
    (CPolicy (Cache c) = PolicyNone ∨ is_Some (New (CPolicy (Cache c)) r)) ∧
    RequestSampleRate (CEvents c) ≠ 0.
Proof. rewrite Validate_iff. naive_solver. Qed.

(** What [Validate] accepts: a positive capacity, a policy that is "none"
    or registered, positive buffers and a sample rate that is not zero, a known
    log level, and a frame rate that is not found to be at most zero or above
    240, which NaN is not. *)
Theorem Validate_accepts tick r c :
  Validate tick r c = [] ↔
    0 < Capacity (Cache c) ∧
    CPolicy (Cache c) ≠ ""%string ∧
    (CPolicy (Cache c) = PolicyNone ∨ is_Some (New (CPolicy (Cache c)) r)) ∧
    0 < BusBuffer (CEvents c) ∧ 0 < MetricsBuffer (CEvents c) ∧ 0 < FrameBuffer (CEvents c) ∧
    RequestSampleRate (CEvents c) ≠ 0 ∧
    (FrameRateHz (UI c) = S754_nan ∨
      f64_le (FrameRateHz (UI c)) f64_zero = false ∧
      f64_gt (FrameRateHz (UI c)) (f64_of_Z maxFrameRateHz) = false) ∧
    Level (Log c) ∈ validLogLevels.
Proof. apply Validate_iff. Qed.
End validate.
Arguments ReadFailed {E}.
Arguments DecodeFailed {E}.
Arguments Invalid {E}.

(** The defaults are valid with the policies the program registers. *)
Lemma Default_is_valid `{GoRuntime} tick :
  ∃ r, init_registry = Ret r ∧ Validate tick r Default = [] ∧ FrameInterval Default = 100 * Millisecond.
Proof. eexists. split; [reflexivity|]. by split. Qed.

Definition with_rate (f : float64) (c : Config) : Config :=
  {| Cache := Cache c; CEvents := CEvents c; UI := {| FrameRateHz := f |}; Log := Log c; CFeatures := CFeatures c |}.

(** The check of the frame rate lets through rates that have no interval.
    With NaN, or a positive rate as small as 2^-60, [Validate] reports nothing
    and the interval is whatever the platform's conversion of an
    unrepresentable value gives: on amd64 the most negative Duration, which a
    ticker refuses with a panic. *)
Theorem Validate_accepts_rates_without_interval (rt : GoRuntime) tick :
  ∃ r, init_registry = Ret r ∧
    ∀ f, f = S754_nan ∨ f = f64_of_ratio 1 1152921504606846976 →
      Validate tick r (with_rate f Default) = [] ∧
      FrameInterval (with_rate f Default) = i64_unrepresentable (f64_div (f64_of_Z Second) f).
Proof.
  eexists. split; [reflexivity|]. intros f [->| ->]; split; reflexivity.
Qed.
