(* ===== verification/ByteSize.v ===== *)
(** * config/config.go: byte sizes as text

    [ParseByteSize], the YAML methods and [String] of [ByteSize], with the
    round trips.  The YAML decoder, which gives [UnmarshalYAML] the scalar as a
    string, is an argument. *)
From stdpp Require Import pretty.
From S2P Require Import Prelude GoFloat GoText Config.

Record byteUnit := { suffix : text; mult : Z }.

Definition unit_of (s : string) (m : Z) : byteUnit := {| suffix := explode s; mult := m |}.

Definition byteUnits : list byteUnit := [
  unit_of "KIB" (2 ^ 10);
  unit_of "MIB" (2 ^ 20);
  unit_of "GIB" (2 ^ 30);
  unit_of "TIB" (2 ^ 40);
  unit_of "KB" 1000;
  unit_of "MB" (1000 * 1000);
  unit_of "GB" (1000 * 1000 * 1000);
  unit_of "TB" (1000 * 1000 * 1000 * 1000);
  unit_of "B" 1].

Inductive size_error :=
| EmptySize
| InvalidNumber (s : string) (num : text) (err : num_error)
| InvalidSize (s : string).

(** The first unit whose suffix the text has, with what is before it. *)
Fixpoint find_unit (units : list byteUnit) (s : text) : option (byteUnit * text) :=
  match units with
  | [] => None
  | u :: units =>
      match strip_suffix (suffix u) s with
      | Some num => Some (u, num)
      | None => find_unit units s
      end
  end.

Section byte_size.
Context `{GoRuntime}.

Definition ParseByteSize (s : string) : size_error + ByteSize :=
  let trimmed := TrimSpace (explode s) in
  if decide (trimmed = []) then inl EmptySize
  else
    let upper := ToUpper trimmed in
    match find_unit byteUnits upper with
    | Some (u, num) =>
        match ParseFloat (TrimSpace num) with
        | inl err => inl (InvalidNumber s (TrimSpace num) err)
        | inr v => inr (f64_to_i64 (f64_mul v (f64_of_Z (mult u))))
        end
    | None =>
        match ParseInt upper with
        | None => inl (InvalidSize s)
        | Some v => inr v
        end
    end.

(** [decode] is the decoding of a YAML node to a string. *)
Definition UnmarshalYAML {N E : Type} (decode : N → E + string) (node : N) : E + size_error + ByteSize :=
  match decode node with
  | inl e => inl (inl e)
  | inr raw =>
      match ParseByteSize raw with
      | inl e => inl (inr e)
      | inr v => inr v
      end
  end.
End byte_size.

(** [String] *)
Definition ByteSize_String (b : ByteSize) : string :=
  let n := b in
  if n >=? 2 ^ 40 then format_f2 (f64_div (f64_of_Z n) (f64_of_Z (2 ^ 40))) +:+ "TiB"
  else if n >=? 2 ^ 30 then format_f2 (f64_div (f64_of_Z n) (f64_of_Z (2 ^ 30))) +:+ "GiB"
  else if n >=? 2 ^ 20 then format_f2 (f64_div (f64_of_Z n) (f64_of_Z (2 ^ 20))) +:+ "MiB"
  else if n >=? 2 ^ 10 then format_f2 (f64_div (f64_of_Z n) (f64_of_Z (2 ^ 10))) +:+ "KiB"
  else pretty n +:+ "B".

(** The cases of config_test.go. *)
Example ParseByteSize_cases :
  ParseByteSize <$> ["100MB"; "1GB"; "512KiB"; "2MiB"; "1024"; "  64kb "; "1.5MB"; "4096B"] =
    inr <$> [100000000; 1000000000; 524288; 2097152; 1024; 64000; 1500000; 4096].
Proof. vm_compute. reflexivity. Qed.

Example ParseByteSize_bad_cases :
  ParseByteSize <$> [""; "MB"; "abc"; "12XB"; "1_000"; "0x1FB"; "1e400B"] =
    [inl EmptySize; inl (InvalidNumber "MB" [] ErrSyntax); inl (InvalidSize "abc");
     inl (InvalidNumber "12XB" (explode "12X") ErrSyntax); inl (InvalidSize "1_000");
     inl (InvalidNumber "0x1FB" (explode "0X1F") ErrSyntax); inl (InvalidNumber "1e400B" (explode "1E400") ErrRange)].
Proof. vm_compute. reflexivity. Qed.

Example ParseByteSize_odd_cases :
  ParseByteSize <$> ["-5KB"; "1_000KB"; "0x1p4B"; "1e3KB"; ".5KiB"; "infinityMB"; "9007199254740993B"; "0.1KB"] =
    inr <$> [-5000; 1000000; 16; 1000000; 512; - 2 ^ 63; 9007199254740992; 100].
Proof. vm_compute. reflexivity. Qed.

Example String_cases :
  ByteSize_String <$> [0; 1023; -7; 1024; 1500; 1536; 100000000; 5 * 2 ^ 40] =
    ["0B"; "1023B"; "-7B"; "1.00KiB"; "1.46KiB"; "1.50KiB"; "95.37MiB"; "5.00TiB"].
Proof. vm_compute. reflexivity. Qed.

(** ** The units *)

(** A character a number or the space after it ends with. *)
Definition number_end (c : Ascii.ascii) : Prop := is_digit c = true ∨ c = space.

Lemma number_end_neq c d : number_end c → is_digit d = false → d ≠ space → d ≠ c.
Proof. intros [Hc| ->] Hd Hs; congruence. Qed.

Lemma strip_suffix_snoc p d s c :
  d ≠ c → strip_suffix (p ++ [d]) (s ++ [c]) = None.
Proof. intros Hne. unfold strip_suffix. rewrite !reverse_snoc. cbn. by rewrite decide_False. Qed.

(** No unit is found after a digit. *)
Lemma find_unit_digit s c : is_digit c = true → find_unit byteUnits (s ++ [c]) = None.
Proof.
  intros Hc. assert (Hsuf : ∀ u, In u byteUnits → ∃ p, suffix u = p ++ [byte_of 66]).
  { intros u Hu. cbn in Hu. repeat destruct Hu as [<-|Hu]; [..|done];
      cbn; by (exists [] + (eexists [_]) + (eexists [_; _])). }
  assert (Hb : byte_of 66 ≠ c) by (intros <-; done).
  induction byteUnits as [|u us IH]; [done|]. cbn [find_unit].
  destruct (Hsuf u ltac:(by left)) as [p ->]. rewrite strip_suffix_snoc by done.
  apply IH. intros v Hv. apply Hsuf. by right.
Qed.

Lemma strip_suffix_under v s c u :
  strip_suffix v ((s ++ [c]) ++ u) = reverse <$> strip_prefix (reverse v) (reverse u ++ c :: reverse s).
Proof. unfold strip_suffix. by rewrite reverse_app, reverse_snoc. Qed.

(** The unit whose suffix follows a number is the one found. *)
Lemma find_unit_suffix u s c :
  In u byteUnits → number_end c → find_unit byteUnits ((s ++ [c]) ++ suffix u) = Some (u, s ++ [c]).
Proof.
  intros Hu Hc.
  assert (Hne : ∀ d, In d [73; 75; 77; 71; 84] → byte_of d ≠ c).
  { intros d Hd. apply number_end_neq; [done|..]; cbn in Hd; by repeat destruct Hd as [<-|Hd]. }
  assert (HI := Hne 73 ltac:(cbn; tauto)). assert (HK := Hne 75 ltac:(cbn; tauto)).
  assert (HM := Hne 77 ltac:(cbn; tauto)). assert (HG := Hne 71 ltac:(cbn; tauto)).
  assert (HT := Hne 84 ltac:(cbn; tauto)). cbv in HI, HK, HM, HG, HT.
  assert (Hself : strip_suffix (suffix u) ((s ++ [c]) ++ suffix u) = Some (s ++ [c])) by apply strip_suffix_app.
  cbn in Hu; repeat destruct Hu as [<-|Hu]; [..|done]; unfold byteUnits; cbn [find_unit];
    rewrite ?Hself; try done; rewrite !strip_suffix_under; cbn [suffix unit_of];
    repeat (let x := fresh in set (x := reverse (explode _)); vm_compute in x; subst x);
    cbn [strip_prefix app fmap option_fmap option_map];
    repeat first [rewrite decide_True by reflexivity | rewrite decide_False by (discriminate || assumption)];
    cbn [fmap option_fmap option_map]; rewrite ?Hself; try done.
Qed.

Implicit Types n : Z.

(** [k] spaces. *)
Definition blank (k : nat) : string := implode (replicate k space).

Lemma explode_blank k : explode (blank k) = replicate k space.
Proof. apply String.list_ascii_of_string_of_list_ascii. Qed.

Lemma number_ends n k : ∃ s c, explode (pretty n) ++ replicate k space = s ++ [c] ∧ number_end c.
Proof.
  destruct k as [|k].
  - destruct (explode_pretty_Z n) as (ds & -> & [Hne Hd] & _). rewrite app_nil_r.
    destruct ds as [|c ds _] using rev_ind; [done|]. rewrite forallb_app in Hd. apply andb_prop in Hd as [_ Hd].
    cbn in Hd. rewrite andb_true_r in Hd.
    destruct (n <? 0); [exists (minus :: ds), c|exists ds, c]; by split; [|left].
  - exists (explode (pretty n) ++ replicate k space), space. split; [|by right].
    by rewrite <-(assoc_L (++)), <-replicate_S_end.
Qed.

Lemma pretty_solid n : solid (explode (pretty n)).
Proof.
  destruct (explode_pretty_Z n) as (ds & -> & [Hne Hd] & _). apply forallb_digit_graph in Hd.
  destruct (n <? 0); [apply solid_graph; [done|exact Hd]|by apply solid_graph].
Qed.

Lemma pretty_below n b : 58 ≤ b → forallb (λ c, byte_val c <? b) (explode (pretty n)) = true.
Proof.
  intros Hb. destruct (explode_pretty_Z n) as (ds & -> & [_ Hd] & _).
  assert (Hds : forallb (λ c, byte_val c <? b) ds = true).
  { rewrite !forallb_forall in *. intros c Hc. specialize (Hd c Hc). apply is_digit_spec in Hd. apply Z.ltb_lt. lia. }
  destruct (n <? 0); [|done]. cbn [forallb]. rewrite Hds, andb_true_r. apply Z.ltb_lt. vm_compute byte_val. lia.
Qed.

Lemma blank_below k b : 33 ≤ b → forallb (λ c, byte_val c <? b) (replicate k space) = true.
Proof.
  intros Hb. induction k as [|k IH]; [done|]. cbn [replicate forallb]. rewrite IH, andb_true_r. apply Z.ltb_lt.
  vm_compute byte_val. lia.
Qed.

Section theorems.
Context `{GoRuntime}.

(** A number, blanks and a unit in any case, with blanks around. *)
Lemma ParseByteSize_unit n u sfx i j k :
  In u byteUnits → ToUpper (explode sfx) = suffix u → forallb is_graph (explode sfx) = true →
  Z.abs n < 2 ^ 53 →
  ParseByteSize (blank i +:+ pretty n +:+ blank j +:+ sfx +:+ blank k) =
    inr (f64_to_i64 (f64_mul (f64_of_Z n) (f64_of_Z (mult u)))).
Proof.
  intros Hu Hsfx Hg Hn. unfold ParseByteSize. rewrite !explode_app, !explode_blank.
  assert (Hsolid : solid (explode (pretty n) ++ replicate j space ++ explode sfx)).
  { apply solid_app; [apply pretty_solid|]. apply solid_graph; [|done]. intros E. rewrite E in Hsfx.
    cbn in Hu. by repeat destruct Hu as [<-|Hu]. }
  assert (Htrim : TrimSpace (replicate i space ++ explode (pretty n) ++ replicate j space ++ explode sfx ++ replicate k space) =
    explode (pretty n) ++ replicate j space ++ explode sfx).
  { rewrite (assoc_L (++) (replicate j space)), (assoc_L (++) (explode (pretty n))). by apply TrimSpace_spec. }
  rewrite Htrim. rewrite decide_False by (by apply solid_nonempty).
  assert (Hup : ToUpper (explode (pretty n) ++ replicate j space ++ explode sfx) =
    (explode (pretty n) ++ replicate j space) ++ suffix u).
  { rewrite !ToUpper_app, Hsfx, (assoc_L (++)) by (apply pretty_below || apply blank_below; lia).
    by rewrite !ToUpper_id by (apply pretty_below || apply blank_below; lia). }
  rewrite Hup. destruct (number_ends n j) as (s & c & Hs & Hc). rewrite Hs, find_unit_suffix by done. rewrite <-Hs.
  pose proof (TrimSpace_spec 0 j _ (pretty_solid n)) as Ht. cbn [replicate app] in Ht. rewrite Ht.
  by rewrite ParseFloat_pretty.
Qed.

Lemma ParseByteSize_plain n : is_i64 n → ParseByteSize (pretty n) = inr n.
Proof.
  intros Hn. unfold ParseByteSize. rewrite TrimSpace_solid by apply pretty_solid.
  rewrite decide_False by (apply solid_nonempty, pretty_solid). rewrite ToUpper_id by (apply pretty_below; lia).
  destruct (explode_pretty_Z n) as (ds & Hds & [Hne Hd] & _).
  assert (Hlast : ∃ s c, explode (pretty n) = s ++ [c] ∧ is_digit c = true).
  { rewrite Hds. destruct ds as [|c ds _] using rev_ind; [done|]. rewrite forallb_app in Hd.
    apply andb_prop in Hd as [_ Hd]. cbn in Hd. rewrite andb_true_r in Hd.
    destruct (n <? 0); [by exists (minus :: ds), c|by exists ds, c]. }
  destruct Hlast as (s & c & Hs & Hc). rewrite Hs, find_unit_digit by done. rewrite <-Hs.
  by rewrite ParseInt_pretty.
Qed.

(** C28: a size written with a unit means what the documentation says.  An
    integer followed by one of the nine suffixes (powers of 1000, powers of
    1024, or bytes), in any mixture of cases, with any number of spaces around
    and between, is parsed as exactly the integer times the unit, as long as
    the product is below 2^53, although the code goes through float64. *)
Theorem ParseByteSize_exact n u sfx i j k :
  In u byteUnits → ToUpper (explode sfx) = suffix u → forallb is_graph (explode sfx) = true →
  Z.abs (n * mult u) < 2 ^ 53 →
  ParseByteSize (blank i +:+ pretty n +:+ blank j +:+ sfx +:+ blank k) = inr (n * mult u).
Proof.
  intros Hu Hsfx Hg Hn.
  assert (Hm : 1 ≤ mult u < 2 ^ 53) by (cbn in Hu; repeat destruct Hu as [<-|Hu]; [..|done]; cbn; lia).
  assert (Hn' : Z.abs n < 2 ^ 53) by nia.
  rewrite (ParseByteSize_unit n u) by done. f_equal. apply f64_mul_int; lia.
Qed.

(** C29: writing a size and reading it back.  The YAML form, the plain number
    of bytes, is read back as the same size for every int64, as MarshalYAML
    promises.  The printed form is read back as the same size below 1024
    bytes, where it is the number of bytes; above it is rounded to hundredths
    of a unit and is not: 1500 bytes are printed "1.46KiB", which is 1495. *)
Theorem byte_size_round_trips {N E : Type} (decode : N → E + string) node b :
  is_i64 b → decode node = inr (pretty (MarshalYAML b)) →
  UnmarshalYAML decode node = inr b ∧
  (- 2 ^ 53 < b < 1024 → ParseByteSize (ByteSize_String b) = inr b) ∧
  ByteSize_String 1500 = "1.46KiB" ∧ ParseByteSize (ByteSize_String 1500) = inr 1495.
Proof.
  intros Hb Hdec. split_and!; [|intros Hr|vm_compute; reflexivity..].
  - unfold UnmarshalYAML. by rewrite Hdec, ParseByteSize_plain.
  - assert (Hs : ByteSize_String b = blank 0 +:+ pretty b +:+ blank 0 +:+ "B" +:+ blank 0).
    { unfold ByteSize_String. repeat match goal with |- context [b >=? ?x] => destruct (Z.geb_spec b x); [lia|] end.
      done. }
    rewrite Hs, (ParseByteSize_unit b (unit_of "B" 1)); [|cbn; tauto|done|done|lia].
    f_equal. rewrite f64_mul_int by (cbn; lia). cbn. lia.
Qed.
End theorems.

(** "64 kb" with spaces around, and 100000000 bytes through YAML. *)
Lemma ParseByteSize_exact_witness :
  ParseByteSize "  64 kb " = inr 64000.
Proof.
  apply (ParseByteSize_exact 64 (unit_of "KB" 1000) "kb" 2 1 1).
  - cbn. tauto.
  - vm_compute. reflexivity.
  - vm_compute. reflexivity.
  - vm_compute. reflexivity.
Defined.

Lemma byte_size_round_trips_witness :
  UnmarshalYAML (λ s : string, @inr unit string s) "100000000" = inr 100000000 ∧
  ParseByteSize (ByteSize_String 1023) = inr 1023.
Proof.
  destruct (byte_size_round_trips (λ s : string, @inr unit string s) "100000000" 100000000) as (Hy & _);
    [unfold is_i64; lia|vm_compute; reflexivity|].
  destruct (byte_size_round_trips (λ s : string, @inr unit string s) "1023" 1023) as (_ & Hs & _);
    [unfold is_i64; lia|vm_compute; reflexivity|].
  split; [exact Hy|apply Hs; lia].
Defined.
