(* ===== verification/Main.v ===== *)
(** * cmd/adaptive-cache/main.go: the program

    What the demo does between the configuration and its output: the policy it
    installs, the options of the cache and the frame it prints; [Program] puts
    a run together.  The flags, the signal handling, the ticker, the random
    keys and the JSON encoding are the run time's. *)
From S2P Require Import Prelude GoFloat Types Policy Events Core CoreSpec Registry.
From S2P Require Store.
From S2P Require Memory.
From S2P Require Collector.
From S2P Require Config.
From S2P Require LRU.

Record Frame := {
  FSeq : Z;
  WallClock : Z;
  Progress : float64;
  HitRate : float64;
  ByteHitRate : float64;
  Throughput : float64;
  FP50 : float64;
  FP95 : float64;
  FP99 : float64;
  FPolicy : string;
  PolicyResidency : Z;
  Workload : string;
  Confidence : float64;
  FBytesUsed : Z;
  FCapacity : Z;
  FObjectCount : Z;
  FMetadataBytes : Z;
  FFeatures : Features;
  FShadow : gmap string float64;
  FParams : gmap string float64;
}.

Definition zero_features : Features :=
  {| ReuseDistanceMean := f64_zero; ReuseDistanceP50 := f64_zero; ReuseDistanceP95 := f64_zero;
     RepeatedKeyRatio := f64_zero; InterArrivalMean := f64_zero; KeyDistanceMean := f64_zero;
     ContiguousRatio := f64_zero; RangeDensity := f64_zero; UniqueKeys := 0;
     TopKConcentration := f64_zero; KeyEntropy := f64_zero; ZipfAlphaEstimate := f64_zero;
     RequestRateMean := f64_zero; RequestRateStdDev := f64_zero; BurstinessCV := f64_zero;
     SpikeRatio := f64_zero; WorkingSetEstimate := 0; ActiveSetStability := f64_zero;
     SizeMean := f64_zero; SizeMedian := f64_zero; SizeP95 := f64_zero; SizeVariance := f64_zero;
     SmallRatio := f64_zero; MediumRatio := f64_zero; LargeRatio := f64_zero; BytesRequested := 0 |}.

(** [d.Seconds()] *)
Definition Seconds (d : Z) : float64 :=
  f64_add (f64_of_Z (Z.quot d Config.Second))
    (f64_div (f64_of_Z (Z.rem d Config.Second)) (f64_of_Z Config.Second)).

Section main.
Context `{GoRuntime}.

(** The [--policy] flag, when given, replaces the configured name. *)
Definition override_policy (flag : string) (cfg : Config.Config) : Config.Config :=
  if decide (flag = ""%string) then cfg
  else {| Config.Cache := {| Config.Capacity := Config.Capacity (Config.Cache cfg); Config.CPolicy := flag |};
          Config.CEvents := Config.CEvents cfg; Config.UI := Config.UI cfg; Config.Log := Config.Log cfg;
          Config.CFeatures := Config.CFeatures cfg |}.

(** The error: the unknown name and the names listed. *)
Definition resolve_policy {P} (tick : nat) (r : registry P) (cfg : Config.Config)
    : (string * list PolicyName) + option P :=
  let name := Config.CPolicy (Config.Cache cfg) in
  if decide (name = PolicyNone) then inr None
  else
    match Registry.New name r with
    | Some p => inr (Some p)
    | None => inl (name, Names tick r)
    end.

Definition cache_options {P} (pol : option P) (bus : MemBus) (cfg : Config.Config) : Options P MemBus :=
  {| OCapacity := Config.Bytes (Config.Capacity (Config.Cache cfg)); OPolicy := pol; OBus := Some bus;
     OMetrics := None; RequestSampleRate := Config.RequestSampleRate (Config.CEvents cfg) |}.

Definition policyFlagChoices {P} (tick : nat) (r : registry P) : string :=
  foldl (λ out n, out +:+ ", " +:+ n) "none"%string (Names tick r).

Section with_cache.
Context `{EvictionPolicy P} `{Bus B}.
Implicit Types c : Core P B.

Definition progress_of (elapsed total : Z) : float64 :=
  if total >? 0 then
    let p := f64_div (f64_of_Z elapsed) (f64_of_Z total) in if f64_gt p f64_one then f64_one else p
  else f64_zero.

Definition buildFrame (rt1 rt2 : Memory.RuntimeMemory) (start now total : Z) c : Core P B * Frame :=
  let '(c, s) := Stats rt1 c in
  let '(c, mem) := Memory_ rt2 c in
  let elapsed := time_Sub now start in
  (c, {| FSeq := Seq_ c; WallClock := now; Progress := progress_of elapsed total;
         HitRate := Collector.HitRate s; ByteHitRate := Collector.ByteHitRate s;
         Throughput :=
           if elapsed >? 0 then f64_div (f64_of_Z (Collector.TotalRequests s)) (Seconds elapsed) else f64_zero;
         FP50 := Collector.LatencyP50 s; FP95 := Collector.LatencyP95 s; FP99 := Collector.LatencyP99 s;
         FPolicy := PolicyName_ c; PolicyResidency := Collector.TotalRequests s;
         Workload := WorkloadType_String WorkloadUnknown; Confidence := f64_zero;
         FBytesUsed := Collector.SBytesUsed s; FCapacity := Capacity c; FObjectCount := Collector.SObjectCount s;
         FMetadataBytes := Memory.MetadataBytes mem; FFeatures := zero_features; FShadow := ∅; FParams := ∅ |}).
End with_cache.

(** With no [--policy] flag, or one that names a registered policy or "none",
    the policy of a validated configuration resolves. *)
Lemma validated_config_resolves tick cfg flag r :
  init_registry = Ret r → Config.Validate tick r cfg = [] →
  (flag = ""%string ∨ flag = PolicyNone ∨ is_Some (Registry.New flag r)) →
  ∃ pol, resolve_policy tick r (override_policy flag cfg) = inr pol ∧
    policy_name pol = Config.CPolicy (Config.Cache (override_policy flag cfg)) ∧ tracks pol ∅.
Proof.
  intros Hr Hv Hflag. set (cfg' := override_policy flag cfg).
  apply Config.Validate_accepted in Hv as (_ & _ & Hknown & _).
  assert (Hknown' : Config.CPolicy (Config.Cache cfg') = PolicyNone ∨
    is_Some (Registry.New (Config.CPolicy (Config.Cache cfg')) r)).
  { unfold cfg', override_policy. case_decide; [done|]. simpl. naive_solver. }
  unfold resolve_policy. case_decide as Hn; [exists None; rewrite Hn; by split_and!|].
  destruct Hknown' as [?|[p Hp]]; [done|]. rewrite Hp. exists (Some p).
  destruct (init_registry_new r _ p Hr Hp) as [Hname Hrep].
  split_and!; [done|done|]. by intros ? [= <-].
Qed.

(** What asking a policy for its metadata leaves of it, and what it answers. *)
Definition measured `{EvictionPolicy P} (po : option P) : option P := (λ p, (MetadataBytes p).1) <$> po.
Definition policy_bytes `{EvictionPolicy P} (po : option P) : Z :=
  match po with Some p => (MetadataBytes p).2 | None => 0 end.

(** The metadata of entries [m] under a policy: the bytes of the keys, 120 of
    header and 32 of index an entry, and the policy's own. *)
Definition metadata_of `{EvictionPolicy P} (po : option P) (m : gmap string Entry) : Z :=
  i64 (Store.key_bytes m + Z.of_nat (base.size m) * 120 + Z.of_nat (base.size m) * 32 + policy_bytes po).

Lemma Memory_measured `{LawfulPolicy P} `{LawfulBus B} rt (c : Core P B) :
  core_inv c →
  (Memory_ rt c).1 = with_policy (measured (policy c)) c ∧
  Memory.MetadataBytes (Memory_ rt c).2 = metadata_of (policy c) (contents (store c)) ∧
  Memory.ObjectCount (Memory_ rt c).2 = Z.of_nat (base.size (contents (store c))).
Proof.
  intros Hi. pose proof (cv_store c Hi) as Hst.
  assert (Hrun : Memory_ rt c = (with_policy (measured (policy c)) c,
    Memory.AccountMemory (Len c) (Bytes c) (Store.KeyBytes (store c)) (policy_bytes (policy c)) rt)).
  { unfold Memory_, measured, policy_bytes. destruct (policy c) as [p|]; [|done]. cbn. by destruct (MetadataBytes p). }
  rewrite Hrun. cbn [fst snd]. split; [done|].
  assert (Hlen : Len c = Z.of_nat (base.size (contents (store c)))).
  { unfold Len, Store.Len. by rewrite Store.size_contents. }
  split; [|exact Hlen].
  destruct (Memory.AccountMemory_sum (Len c) (Bytes c) (Store.KeyBytes (store c)) (policy_bytes (policy c)) rt) as [-> _].
  rewrite Hlen. unfold metadata_of, Store.KeyBytes. rewrite (Store.st_keyBytes _ Hst). autorewrite with go.
  by rewrite <-!Z.add_assoc, i64_add_l.
Qed.

(** What the frame holds is read from the cache as it was. *)
Definition frame_of `{EvictionPolicy P} {B} (start now total : Z) (name : PolicyName) (c : Core P B) : Frame :=
  let m := contents (store c) in
  let s := Collector.Snapshot (metrics c) in
  let elapsed := time_Sub now start in
  {| FSeq := seq c; WallClock := now; Progress := progress_of elapsed total;
     HitRate := Collector.HitRate s; ByteHitRate := Collector.ByteHitRate s;
     Throughput :=
       if decide (0 < elapsed) then f64_div (f64_of_Z (Collector.total (metrics c))) (Seconds elapsed) else f64_zero;
     FP50 := Histogram.P50 (Collector.latency (metrics c)); FP95 := Histogram.P95 (Collector.latency (metrics c));
     FP99 := Histogram.P99 (Collector.latency (metrics c)); FPolicy := name;
     PolicyResidency := Collector.total (metrics c); Workload := "unknown"; Confidence := f64_zero;
     FBytesUsed := Store.payload m; FCapacity := Store.capacity (store c); FObjectCount := Z.of_nat (base.size m);
     FMetadataBytes := metadata_of (measured (policy c)) m; FFeatures := zero_features; FShadow := ∅; FParams := ∅ |}.

(** What the collector is told of the cache. *)
Definition observed `{EvictionPolicy P} {B} (c : Core P B) : Collector.CacheState :=
  let m := contents (store c) in
  {| Collector.Capacity := Store.capacity (store c); Collector.BytesUsed := Store.payload m;
     Collector.MetadataBytes := metadata_of (policy c) m; Collector.ObjectCount := Z.of_nat (base.size m) |}.

Lemma buildFrame_frame `{LawfulPolicy P} `{LawfulBus B} rt1 rt2 start now total (c : Core P B) :
  core_inv c →
  let '(c', f) := buildFrame rt1 rt2 start now total c in
  core_inv c' ∧
  c' = with_policy (measured (measured (policy c))) (with_metrics (Collector.ObserveCache (observed c) (metrics c)) c) ∧
  f = frame_of start now total (PolicyName_ c') c.
Proof.
  intros Hi. unfold buildFrame, Stats.
  destruct (Memory_spec rt1 c Hi) as (Hi1 & _ & _). destruct (Memory_measured rt1 c Hi) as (Hc1 & Hm1 & Ho1).
  destruct (Memory_ rt1 c) as [c1 mem1]. cbn [fst snd] in *. set (c2 := with_metrics _ c1).
  assert (Hi2 : core_inv c2) by (by destruct Hi1).
  destruct (Memory_spec rt2 c2 Hi2) as (Hi3 & _ & _). destruct (Memory_measured rt2 c2 Hi2) as (Hc3 & Hm3 & _).
  destruct (Memory_ rt2 c2) as [c3 mem3]. cbn [fst snd] in *. split; [exact Hi3|].
  pose proof (Store.st_bytes _ (cv_store c Hi)) as Hb.
  assert (Heq : c3 = with_policy (measured (measured (policy c)))
    (with_metrics (Collector.ObserveCache (observed c) (metrics c)) c)).
  { rewrite Hc3. unfold c2. rewrite Hm1, Ho1, Hc1. cbn. unfold Capacity, Bytes, Store.Capacity, Store.Bytes. cbn.
    rewrite Hb. done. }
  split; [exact Heq|]. rewrite Hm3. unfold c2. rewrite Heq, Hm1, Ho1, Hc1. unfold frame_of. cbn.
  unfold Capacity, Bytes, Store.Capacity, Store.Bytes. cbn. rewrite Hb. f_equal.
  destruct (Z.gtb_spec (time_Sub now start) 0); case_decide; (done || lia).
Qed.

(** C37: a frame reports the cache and touches no counter.  What building one
    leaves is the cache with the collector told of the cache's state, every
    counter, the latencies and the policy's name in it as they were, and with
    the policy asked twice for its metadata: a policy that answers without
    changing, as sound ones of the source do ([any_metadata_same]), is the
    same.  And the frame is [frame_of] the cache as it was before: the rates and the percentiles of
    its counters, the total of requests over the seconds elapsed (0 when no
    time has), the sequence number, the bytes, objects and capacity of the
    store, the metadata of its keys, entries and policy, the name of the
    policy, and as residency the total number of requests, not the number
    since the last switch; the workload is unknown and the features empty. *)
Theorem buildFrame_reports_cache `{LawfulPolicy P} `{LawfulBus B} rt1 rt2 start now total (c : Core P B) :
  core_inv c →
  let '(c', f) := buildFrame rt1 rt2 start now total c in
  core_inv c' ∧ store c' = store c ∧ bus c' = bus c ∧ seq c' = seq c ∧
  metrics c' = Collector.ObserveCache (observed c) (metrics c) ∧
  Collector.counters (metrics c') = Collector.counters (metrics c) ∧
  Collector.policy (metrics c') = Collector.policy (metrics c) ∧
  policy c' = measured (measured (policy c)) ∧
  f = frame_of start now total (PolicyName_ c') c ∧
  ((∀ p, policy c = Some p → (MetadataBytes p).1 = p) →
    policy c' = policy c ∧ f = frame_of start now total (PolicyName_ c) c).
Proof.
  intros Hi. pose proof (buildFrame_frame rt1 rt2 start now total c Hi) as Hf.
  destruct (buildFrame rt1 rt2 start now total c) as [c' f]. destruct Hf as (Hi' & -> & ->).
  split_and!; try done. intros Hsame.
  assert (Hp : measured (policy c) = policy c).
  { unfold measured. destruct (policy c) as [p|]; [|done]. cbn. by rewrite Hsame. }
  unfold PolicyName_. cbn. by rewrite !Hp.
Qed.

(** The capacity and the contents behind the frame, for its bounds. *)
Lemma buildFrame_reports `{LawfulPolicy P} `{LawfulBus B} rt1 rt2 start now total (c : Core P B) :
  core_inv c →
  let '(c', f) := buildFrame rt1 rt2 start now total c in
  core_inv c' ∧ store c' = store c ∧
  FBytesUsed f = Store.payload (contents (store c)) ∧
  FObjectCount f = Z.of_nat (base.size (contents (store c))) ∧
  FCapacity f = Capacity c.
Proof.
  intros Hi. pose proof (buildFrame_frame rt1 rt2 start now total c Hi) as Hf.
  destruct (buildFrame rt1 rt2 start now total c) as [c' f]. destruct Hf as (Hi' & -> & ->). done.
Qed.
End main.

(** The help text names "none" and the registered policies in order. *)
Lemma policyFlagChoices_text `{GoRuntime} tick :
  ∃ r, init_registry = Ret r ∧ policyFlagChoices tick r = "none, clock, lfu, lru"%string.
Proof.
  eexists. split; [reflexivity|]. unfold policyFlagChoices.
  assert (Hn := init_registry_names tick _ eq_refl). rewrite Hn. reflexivity.
Qed.

(** ** Witnesses *)

Definition no_runtime : Memory.RuntimeMemory :=
  {| Memory.HeapAllocBytes := 0; Memory.HeapSysBytes := 0; Memory.HeapObjects := 0;
     Memory.TotalAllocated := 0; Memory.SysBytes := 0; Memory.NumGC := 0 |}.

(** One request served, then a switch of policy: the residency is still 1. *)
Lemma buildFrame_reports_cache_witness :
  ∃ c, SetPolicy (Some LRU.NewLRU) sample_core = Ret c ∧ core_inv c ∧
    let '(_, f) := buildFrame no_runtime no_runtime 0 10 100 c in
    FBytesUsed f = 90 ∧ FObjectCount f = 2 ∧ PolicyResidency f = 1 ∧ FPolicy f = "lru".
Proof.
  destruct (SetPolicy_spec (Some LRU.NewLRU) sample_core sample_core_inv) as (c & Hrun & Hi & _).
  { intros p [= <-]. exists ∅. apply LRU.lru_represents_New. }
  exists c. split; [done|]. split; [done|].
  pose proof (buildFrame_reports_cache no_runtime no_runtime 0 10 100 c Hi) as Hf.
  destruct (buildFrame no_runtime no_runtime 0 10 100 c) as [c' f].
  vm_compute in Hrun. injection Hrun as <-. clear Hi.
  destruct Hf as (_ & _ & _ & _ & _ & _ & _ & _ & _ & Hf).
  destruct Hf as [_ ->]; [intros p [= <-]; reflexivity|]. split_and!; vm_compute; reflexivity.
Defined.
