(* ===== verification/EmptyKey.v ===== *)
(** * cache/core.go with cache/policy/clock.go: the empty key

    The store takes any key, and [Core.Put] hands the empty one to the Clock
    policy, for which an empty key is a free slot.  What follows is worked out
    on [Core] itself: with the empty key in use the invariant of the cache does
    not hold, so only that of the store is kept here. *)
From S2P Require Import Prelude GoFloat Types Policy Events Core CoreSpec.
From S2P Require Store.
From S2P Require Collector.
From S2P Require Clock.

Section steps.
Context `{EvictionPolicy P} `{Bus B}.
Implicit Types c : Core P B.

(** A cache with these entries under this policy, whatever the policy knows. *)
Record holding (cap : Z) (m : gmap string Entry) (p : P) c : Prop := {
  ho_store : Store.store_inv (store c);
  ho_capacity : Store.capacity (store c) = cap;
  ho_contents : contents (store c) = m;
  ho_policy : policy c = Some p;
}.

(** [Put] of a new object that fits is the store's insertion and the policy's
    hook. *)
Lemma Put_fresh cap m p k val size now c :
  holding cap m p c → ShouldAdmit k size p = true → m !! k = None → 0 ≤ size → Store.payload m + size ≤ cap →
  ∃ st l, Store.store_inv st ∧ Store.capacity st = cap ∧
    contents st = <[k := Store.new_entry k val size now]> m ∧
    Put k val size now c =
      (q ← OnInsert k (Some l) p;
       Ret (with_metrics (Collector.RecordFetch size (metrics c)) (with_policy (Some q) (with_store st (next_seq c))), None)).
Proof.
  intros [Hst <- <- Hp] Had Hk Hsz Hfit.
  pose proof (Store.payload_nonneg _ Hst). pose proof (Store.st_capacity _ Hst) as Hcap.
  assert (Hi : is_i64 size) by (unfold is_i64, Store.maxCapacity in *; lia).
  destruct (Store.Insert_spec k val size now (store c) Hst Hi) as (st & r & Hrun & Hst' & Hcap' & Hr).
  assert (Hspec : Store.spec_insert k val size now (Store.capacity (store c)) (contents (store c)) =
    inr (<[k := Store.new_entry k val size now]> (contents (store c)))).
  { rewrite spec_insert_fits, decide_True by (unfold Store.fits; rewrite ?Hk; cbn; lia). by rewrite Hk. }
  rewrite Hspec in Hr. destruct r as [err|l]; destruct Hr as [_ Hr]; [done|]. injection Hr as Hr.
  exists st, l. split_and!; [done|done|done|]. unfold Put, Put_locked. cbn [next_seq policy store].
  rewrite Hp, Had. cbn [negb put_loop next_seq store]. rewrite Hrun. cbn [mbind outcome_bind].
  unfold call_policy. cbn [with_store next_seq policy]. rewrite Hp. by destruct (OnInsert k (Some l) p).
Qed.

Lemma put_step (Q : P → Prop) cap m p k val size now c :
  holding cap m p c → ShouldAdmit k size p = true → m !! k = None → 0 ≤ size → Store.payload m + size ≤ cap →
  (∀ ent, ∃ q, OnInsert k ent p = Ret q ∧ Q q) →
  ∃ c' q, Put k val size now c = Ret (c', None) ∧
    holding cap (<[k := Store.new_entry k val size now]> m) q c' ∧ Q q.
Proof.
  intros Hc Had Hk Hsz Hfit Hhook.
  destruct (Put_fresh cap m p k val size now c Hc Had Hk Hsz Hfit) as (st & l & Hst & Hcap & Hm & ->).
  destruct (Hhook (Some l)) as (q & -> & HQ). eexists _, q. split; [done|]. by split.
Qed.

Lemma put_stuck cap m p k val size now c :
  holding cap m p c → ShouldAdmit k size p = true → m !! k = None → 0 ≤ size → Store.payload m + size ≤ cap →
  (∀ ent, OnInsert k ent p = Diverge) → Put k val size now c = Diverge.
Proof.
  intros Hc Had Hk Hsz Hfit Hhook.
  destruct (Put_fresh cap m p k val size now c Hc Had Hk Hsz Hfit) as (st & l & _ & _ & _ & ->). by rewrite Hhook.
Qed.

Lemma remove_step (Q : P → Prop) cap m p k c :
  holding cap m p c → is_Some (m !! k) → (∀ ent, ∃ q, OnRemove k ent p = Ret q ∧ Q q) →
  ∃ c' q, Remove k c = Ret (c', true) ∧ holding cap (delete k m) q c' ∧ Q q.
Proof.
  intros [Hst Hcap Hm Hp] [e Hk] Hhook. unfold Remove, removeLocked.
  destruct (Store.Remove_spec k (store c) Hst) as (st & r & -> & Hst' & Hcap' & _ & _ & -> & Hcon).
  cbn [mbind outcome_bind]. destruct (Store.items (store c) !! k) as [l|] eqn:Hl.
  2:{ apply (Store.contents_None _ _ Hst) in Hl. rewrite Hm in Hl. congruence. }
  unfold call_policy. cbn [with_store policy]. rewrite Hp. destruct (Hhook (Some l)) as (q & -> & HQ).
  cbn [mbind outcome_bind]. eexists _, q. split; [done|]. split; [|done]. split; cbn; congruence.
Qed.
End steps.

Section hang.
Context `{GoRuntime} `{LawfulBus B}.
Implicit Types opts : Options Clock.Clock B.

Lemma holding_New cap opts :
  0 ≤ cap ≤ Store.maxCapacity → OCapacity opts = cap → OPolicy opts = Some Clock.NewClock →
  holding cap ∅ Clock.NewClock (New opts).
Proof.
  intros Hcap Ho Hp. split; cbn; rewrite ?Ho; [by apply Store.store_inv_New|done| |done].
  apply omap_empty.
Qed.

(** C39: one empty key hangs the cache.  Take any new cache with the Clock
    policy, any keys [a], [b] and [c] that are not empty and any [d], with [b],
    [c] and [d] different, any values and times, and sizes that fit as they
    come.  After the insertion of the empty key and of [a], their removal and
    the insertion of [b] and [c], each of which returns, the cache holds these
    two objects; and then the insertion of [d] never returns: the key is not
    tracked, the ring does not grow, and the policy's search for a free slot
    outlives every bound on its steps. *)
Theorem empty_key_hangs_clock_cache opts a b c d v0 v1 v2 v3 v4 s0 s1 s2 s3 s4 t0 t1 t2 t3 t4 :
  0 ≤ OCapacity opts ≤ Store.maxCapacity → OPolicy opts = Some Clock.NewClock →
  a ≠ "" → b ≠ "" → c ≠ "" → b ≠ c → d ≠ b → d ≠ c →
  0 ≤ s0 → 0 ≤ s1 → 0 ≤ s2 → 0 ≤ s3 → 0 ≤ s4 →
  s0 + s1 ≤ OCapacity opts → s2 + s3 + s4 ≤ OCapacity opts →
  ∃ cache p,
    run_core [CPut "" v0 s0 t0; CPut a v1 s1 t1; CRemove ""; CRemove a; CPut b v2 s2 t2; CPut c v3 s3 t3]
      (New opts) = Ret cache ∧
    contents (store cache) = <[c := Store.new_entry c v3 s3 t3]> {[b := Store.new_entry b v2 s2 t2]} ∧
    policy cache = Some p ∧
    Clock.index p !! d = None ∧ Clock.growLocked p = Ret p ∧
    (∀ fuel, Clock.find_free fuel 0 p = Diverge) ∧
    Put d v4 s4 t4 cache = Diverge.
Proof.
  intros Hcap Hpol Ha Hb Hc Hbc Hdb Hdc Hs0 Hs1 Hs2 Hs3 Hs4 Hfit1 Hfit2.
  pose proof (holding_New _ opts Hcap eq_refl Hpol) as Hh.
  assert (Hpay : ∀ k e m, m !! k = None → Store.payload (<[k := e]> m) = Store.payload m + Size e).
  { intros k e m Hk. rewrite Store.payload_insert, Hk. cbn. lia. }
  assert (Hempty : Store.payload ∅ = 0) by (unfold Store.payload; by rewrite map_sum_empty).
  pose proof (Clock.clock_empty_key_hangs a b c d Ha Hb Hc Hbc Hdb Hdc) as Hrun.
  cbn [run_core for_each run_core_op].
  eapply (put_step _ _ _ _ "" v0 s0 t0) in Hh as (c0 & p0 & -> & Hh & Hrun0); [|done|done|done|lia|exact Hrun].
  eapply (put_step _ _ _ _ a v1 s1 t1) in Hh as (c1 & p1 & Hr1 & Hh & Hrun1);
    [|done|by rewrite lookup_insert_ne|done|rewrite Hpay by done; cbn; lia|exact Hrun0].
  eapply (remove_step _ _ _ _ "") in Hh as (c2 & p2 & Hr2 & Hh & Hrun2);
    [|rewrite lookup_insert_ne by done; by rewrite lookup_insert_eq|exact Hrun1].
  eapply (remove_step _ _ _ _ a) in Hh as (c3 & p3 & Hr3 & Hh & Hrun3);
    [|rewrite lookup_delete_ne by done; by rewrite lookup_insert_eq|exact Hrun2].
  rewrite delete_insert_ne, delete_insert_id, delete_insert_id in Hh by (rewrite ?lookup_insert_ne; done).
  eapply (put_step _ _ _ _ b v2 s2 t2) in Hh as (c4 & p4 & Hr4 & Hh & Hrun4); [|done|done|done|lia|exact Hrun3].
  eapply (put_step _ _ _ _ c v3 s3 t3) in Hh as (c5 & p5 & Hr5 & Hh & Hsk);
    [|done|by rewrite lookup_insert_ne|done|rewrite Hpay by done; cbn; lia|exact Hrun4].
  destruct Hsk as [Hnew Hgrow Hsearch Hins].
  exists c5, p5. cbn [mbind outcome_bind]. rewrite Hr1. cbn [mbind outcome_bind]. rewrite Hr2.
  cbn [mbind outcome_bind]. rewrite Hr3. cbn [mbind outcome_bind]. rewrite Hr4. cbn [mbind outcome_bind].
  rewrite Hr5. cbn [mbind outcome_bind]. split_and!; [done|apply Hh|apply Hh|done|done|done|].
  eapply put_stuck; [exact Hh|done| |done| |exact Hins].
  - by rewrite !lookup_insert_ne.
  - rewrite !Hpay by (try done; by rewrite lookup_insert_ne). cbn. lia.
Qed.
End hang.

(** ** Witness *)

Lemma empty_key_hangs_clock_cache_witness :
  ∃ cache : Core Clock.Clock MemBus,
    run_core [CPut "" [] 1 1; CPut "a" [] 1 2; CRemove ""; CRemove "a"; CPut "b" [] 1 3; CPut "c" [] 1 4]
      (New {| OCapacity := 1000; OPolicy := Some Clock.NewClock; OBus := Some NewBus; OMetrics := None;
              RequestSampleRate := 1 |}) = Ret cache ∧
    Put "d" [] 1 5 cache = Diverge.
Proof.
  destruct (empty_key_hangs_clock_cache (B := MemBus)
      {| OCapacity := 1000; OPolicy := Some Clock.NewClock; OBus := Some NewBus; OMetrics := None; RequestSampleRate := 1 |}
      "a" "b" "c" "d" [] [] [] [] [] 1 1 1 1 1 1 2 3 4 5) as (cache & p & Hrun & _ & _ & _ & _ & _ & Hput);
    [unfold Store.maxCapacity; cbn; lia|reflexivity|discriminate..|lia|lia|lia|lia|lia|cbn; lia|cbn; lia|].
  exists cache. split; [exact Hrun|exact Hput].
Defined.
