(* ===== verification/FrameJSON.v ===== *)
(** * The frames on standard output: events.Frame through json.Encoder

    A frame as a compact JSON object in the order of the fields of [Frame],
    then a newline.  The zone of a time, which the time zone database decides,
    is an argument. *)
From stdpp Require Import pretty.
From S2P Require Import Prelude GoFloat FloatFacts GoText FormatFloat Json Time Types Policy Events Histogram.
From S2P Require Collector.
From S2P Require Import Core Snapshot StatsJSON CoreSpec Registry Main.
From S2P Require Memory.
From S2P Require Config.
From S2P Require LRU.

Definition features_json (f : Features) : json :=
  JObj [
    tag "reuse_distance_mean" (jfloat (ReuseDistanceMean f));
    tag "reuse_distance_p50" (jfloat (ReuseDistanceP50 f));
    tag "reuse_distance_p95" (jfloat (ReuseDistanceP95 f));
    tag "repeated_key_ratio" (jfloat (RepeatedKeyRatio f));
    tag "inter_arrival_mean" (jfloat (InterArrivalMean f));
    tag "key_distance_mean" (jfloat (KeyDistanceMean f));
    tag "contiguous_ratio" (jfloat (ContiguousRatio f));
    tag "range_density" (jfloat (RangeDensity f));
    tag "unique_keys" (jint (UniqueKeys f));
    tag "topk_concentration" (jfloat (TopKConcentration f));
    tag "key_entropy" (jfloat (KeyEntropy f));
    tag "zipf_alpha_estimate" (jfloat (ZipfAlphaEstimate f));
    tag "request_rate_mean" (jfloat (RequestRateMean f));
    tag "request_rate_stddev" (jfloat (RequestRateStdDev f));
    tag "burstiness_cv" (jfloat (BurstinessCV f));
    tag "spike_ratio" (jfloat (SpikeRatio f));
    tag "working_set_estimate" (jint (WorkingSetEstimate f));
    tag "active_set_stability" (jfloat (ActiveSetStability f));
    tag "size_mean" (jfloat (SizeMean f));
    tag "size_median" (jfloat (SizeMedian f));
    tag "size_p95" (jfloat (SizeP95 f));
    tag "size_variance" (jfloat (SizeVariance f));
    tag "small_ratio" (jfloat (SmallRatio f));
    tag "medium_ratio" (jfloat (MediumRatio f));
    tag "large_ratio" (jfloat (LargeRatio f));
    tag "bytes_requested" (jint (BytesRequested f))].

Definition features_floats (f : Features) : list float64 :=
  [ReuseDistanceMean f; ReuseDistanceP50 f; ReuseDistanceP95 f; RepeatedKeyRatio f; InterArrivalMean f;
   KeyDistanceMean f; ContiguousRatio f; RangeDensity f; TopKConcentration f; KeyEntropy f; ZipfAlphaEstimate f;
   RequestRateMean f; RequestRateStdDev f; BurstinessCV f; SpikeRatio f; ActiveSetStability f; SizeMean f;
   SizeMedian f; SizeP95 f; SizeVariance f; SmallRatio f; MediumRatio f; LargeRatio f].

(** A map is an object with its keys in order; an empty one is omitted. *)
Definition sorted_entries (m : gmap string float64) : list (string * float64) :=
  omap (λ k, pair k <$> m !! k) (merge_sort string_le (elements (dom m))).

Definition map_member (name : string) (m : gmap string float64) : list (text * json) :=
  match sorted_entries m with
  | [] => []
  | es => [tag name (JObj ((λ e, tag e.1 (jfloat e.2)) <$> es))]
  end.

Definition frame_members (wall : text) (f : Frame) : list (text * json) := [
    tag "seq" (jint (FSeq f));
    tag "wall_clock" (JStr wall);
    tag "progress" (jfloat (Progress f));
    tag "hit_rate" (jfloat (HitRate f));
    tag "byte_hit_rate" (jfloat (ByteHitRate f));
    tag "throughput" (jfloat (Throughput f));
    tag "p50" (jfloat (FP50 f));
    tag "p95" (jfloat (FP95 f));
    tag "p99" (jfloat (FP99 f));
    tag "policy" (jstring (FPolicy f));
    tag "policy_residency" (jint (PolicyResidency f));
    tag "workload" (jstring (Workload f));
    tag "confidence" (jfloat (Confidence f));
    tag "bytes_used" (jint (FBytesUsed f));
    tag "capacity" (jint (FCapacity f));
    tag "object_count" (jint (FObjectCount f));
    tag "metadata_bytes" (jint (FMetadataBytes f));
    tag "features" (features_json (FFeatures f))].

Definition frame_json (wall : text) (f : Frame) : json :=
  JObj (frame_members wall f ++ map_member "shadow" (FShadow f) ++ map_member "params" (FParams f)).

(** The floats in the order they are encoded. *)
Definition frame_floats (f : Frame) : list float64 :=
  [Progress f; HitRate f; ByteHitRate f; Throughput f; FP50 f; FP95 f; FP99 f; Confidence f] ++
  features_floats (FFeatures f) ++ (snd <$> sorted_entries (FShadow f)) ++ (snd <$> sorted_entries (FParams f)).

Inductive frame_error := BadTime (t : Z) | BadFloat (f : float64).

(** [enc.Encode]: the line, or the error. *)
Definition encode_frame (zone : Z → Z) (f : Frame) : frame_error + text :=
  match RFC3339 (zone (WallClock f)) (WallClock f) with
  | None => inl (BadTime (WallClock f))
  | Some wall =>
      match first_unsupported (frame_floats f) with
      | Some x => inl (BadFloat x)
      | None => inr (write_json compact 0 (frame_json wall f) ++ [newline])
      end
  end.

(** ** Every float of a frame is finite *)

Lemma Seconds_positive d : 0 < d → is_i64 d → finite_between (-40) 80 (Seconds d) ∧ is_positive (Seconds d).
Proof.
  unfold is_i64. intros Hd Hd64. unfold Seconds, Config.Second.
  pose proof (Z.quot_rem d 1000000000 ltac:(lia)) as Heq.
  pose proof (Z.rem_bound_pos d 1000000000 ltac:(lia) ltac:(lia)) as Hr.
  assert (Hq : 0 ≤ Z.quot d 1000000000 < 2 ^ 63) by (split; [apply Z.quot_pos; lia|apply Z.quot_lt_upper_bound; lia]).
  set (q := Z.quot d 1000000000) in *. set (r := Z.rem d 1000000000) in *.
  destruct (of_Z_nonnegative q) as [Hqn Hqp]; [lia|]. destruct (of_Z_nonnegative r) as [Hrn Hrp]; [lia|].
  assert (Hb : finite_between 30 30 (f64_of_Z 1000000000) ∧ is_positive (f64_of_Z 1000000000)).
  { split; [split; [reflexivity|vm_compute; by split]|exact I]. }
  destruct Hb as [Hb Hbp].
  assert (Hrw : within 1 65 (f64_of_Z r)) by (apply of_Z_within; lia).
  destruct (div_nonnegative 1 65 30 30 _ _ Hrw Hb ltac:(lia) ltac:(lia) Hrn Hbp) as [Hdn Hdp].
  destruct (add_positive (-29) 70 (f64_of_Z q) (f64_div (f64_of_Z r) (f64_of_Z 1000000000))) as [Hs Hsp]; try done.
  - eapply within_mono; [apply of_Z_within|..]; lia.
  - eapply within_mono; [by apply (div_within 1 65 30 30)|..]; lia.
  - destruct (decide (q = 0)); [right; apply Hdp, Hrp; lia|left; apply Hqp; lia].
  - split; [|done]. unfold finite_between in *. destruct (f64_add _ _); try done. destruct Hs. split; [done|lia].
Qed.

Lemma time_Sub_i64 t u : is_i64 (time_Sub t u).
Proof. unfold is_i64, time_Sub, minInt64, maxInt64. lia. Qed.

Section finite_frames.
Context `{GoRuntime} `{EvictionPolicy P} `{Bus B}.
Implicit Types c : Core P B.

Lemma Memory_metrics rt c : metrics (Memory_ rt c).1 = metrics c.
Proof. unfold Memory_. destruct (policy c) as [p|]; [|done]. by destruct (MetadataBytes p). Qed.

Lemma progress_finite elapsed total : is_i64 elapsed → is_i64 total → finite64 (progress_of elapsed total) = true.
Proof.
  unfold is_i64. intros He Ht. unfold progress_of. pose proof (rate_finite elapsed total ltac:(lia) ltac:(lia)) as Hr.
  destruct (total >? 0); [|done]. cbv zeta. by case_match.
Qed.

Lemma throughput_finite n elapsed :
  is_u64 n → is_i64 elapsed →
  finite64 (if elapsed >? 0 then f64_div (f64_of_Z n) (Seconds elapsed) else f64_zero) = true.
Proof.
  intros Hn He. destruct (Z.gtb_spec elapsed 0); [|done]. destruct (Seconds_positive elapsed) as [Hs _]; [lia|done|].
  eapply within_finite, (div_within 1 65 (-40) 80); [by apply u64_within|done|lia|lia].
Qed.

(** Building a frame keeps the counters in range, and its floats are finite. *)
Lemma buildFrame_finite rt1 rt2 start now total c :
  counters_ok (metrics c) → is_i64 total →
  let '(c', f) := buildFrame rt1 rt2 start now total c in
  counters_ok (metrics c') ∧ Forall (λ x, finite64 x = true) (frame_floats f).
Proof.
  intros Hc Ht. unfold buildFrame, Stats. pose proof (Memory_metrics rt1 c) as Hm1.
  destruct (Memory_ rt1 c) as [c1 mem1]. cbn [fst] in Hm1. cbv zeta. set (st := {| Collector.Capacity := _ |}).
  assert (Hc1 : counters_ok (Collector.ObserveCache st (metrics c1))).
  { rewrite Hm1. apply (run_op_counters_ok (Collector.OObserve st)). done. }
  set (c2 := with_metrics (Collector.ObserveCache st (metrics c1)) c1).
  change (Collector.ObserveCache st (metrics c1)) with (metrics c2) in Hc1.
  pose proof (Memory_metrics rt2 c2) as Hm2. destruct (Memory_ rt2 c2) as [c3 mem3]. cbn [fst] in Hm2.
  split; [by rewrite Hm2|]. pose proof (Snapshot_finite _ Hc1) as Hs. unfold stats_floats in Hs. split_forall.
  assert (Htot : is_u64 (Collector.TotalRequests (Collector.Snapshot (metrics c2)))).
  { destruct Hc1 as [Hu _ _]. by apply Forall_cons_1 in Hu as [? _]. }
  pose proof (time_Sub_i64 now start).
  unfold frame_floats. cbn -[f64_div f64_of_Z Seconds progress_of time_Sub Collector.Snapshot].
  repeat (apply Forall_cons_2; [first [done | by apply progress_finite | by apply throughput_finite]|]).
  done.
Qed.
End finite_frames.

(** ** A line is read back *)

Lemma frame_json_ok wall f : Forall (λ x, finite64 x = true) (frame_floats f) → json_ok (frame_json wall f).
Proof.
  unfold frame_floats. rewrite !Forall_app. intros (Hf & Hft & Hs & Hp).
  assert (Hmap : ∀ name m, Forall (λ x, finite64 x = true) (snd <$> sorted_entries m) →
    foldr and True ((λ m, json_ok m.2) <$> map_member name m)).
  { intros name m Hm. unfold map_member. destruct (sorted_entries m) as [|e es]; [done|]. split; [|done].
    apply Forall_fmap in Hm. cbn [tag snd]. generalize dependent (e :: es). clear. intros es Hm.
    induction Hm as [|e es He _ IH]; [done|]. split; [by apply json_float_ok|exact IH]. }
  unfold frame_json. cbn [json_ok]. rewrite fmap_app, foldr_app.
  assert (Hrest : foldr and True ((λ m, json_ok m.2) <$> map_member "shadow" (FShadow f) ++ map_member "params" (FParams f))).
  { apply (Hmap "shadow"%string) in Hs. apply (Hmap "params"%string) in Hp. rewrite fmap_app, foldr_app. revert Hs. generalize ((λ m, json_ok m.2) <$> map_member "shadow" (FShadow f)).
    intros l. induction l; cbn; tauto. }
  unfold features_floats in Hft. split_forall.
  repeat (split; [first [apply jint_ok | by apply json_float_ok | exact I
    | repeat (split; [first [apply jint_ok | by apply json_float_ok]|]); exact I]|]). done.
Qed.

Definition read_Z (t : text) : option Z :=
  let '(neg, s) := take_sign t in n ← parse_digits s; Some (if neg then - n else n).

Definition member_Z (k : string) (v : json) : option Z :=
  match member k v with Some (JNum t) => read_Z t | _ => None end.

Lemma read_Z_pretty (z : Z) : read_Z (explode (pretty z)) = Some z.
Proof.
  destruct (explode_pretty_Z z) as (ds & -> & Hd & Hv). fold (signed (z <? 0) ds). unfold read_Z.
  rewrite take_sign_signed, parse_digits_all, Hv by done. cbn. f_equal. destruct (Z.ltb_spec z 0); lia.
Qed.

Lemma member_Z_clean k z ms :
  assoc (explode k) ms = Some (jint z) → forallb (λ m, forallb (λ c, byte_val c <? 128) m.1) ms = true →
  member_Z k (clean (JObj ms)) = Some z.
Proof. intros Ha Hms. unfold member_Z. rewrite (member_clean k _ ms Hms Ha). apply read_Z_pretty. Qed.

(** What a reader of the line finds of a frame. *)
Record frame_read (f : Frame) (v : json) : Prop := {
  fr_seq : member_Z "seq" v = Some (FSeq f);
  fr_wall : ∃ w, member_string "wall_clock" v = Some w ∧ read_RFC3339 (explode w) = Some (WallClock f);
  fr_progress : member_float "progress" v = Some (Progress f);
  fr_hit_rate : member_float "hit_rate" v = Some (HitRate f);
  fr_byte_hit_rate : member_float "byte_hit_rate" v = Some (ByteHitRate f);
  fr_throughput : member_float "throughput" v = Some (Throughput f);
  fr_p50 : member_float "p50" v = Some (FP50 f);
  fr_p95 : member_float "p95" v = Some (FP95 f);
  fr_p99 : member_float "p99" v = Some (FP99 f);
  fr_policy : member_string "policy" v = Some (valid_name (FPolicy f));
  fr_residency : member_Z "policy_residency" v = Some (PolicyResidency f);
  fr_workload : member_string "workload" v = Some (valid_name (Workload f));
  fr_confidence : member_float "confidence" v = Some (Confidence f);
  fr_bytes : member_Z "bytes_used" v = Some (FBytesUsed f);
  fr_capacity : member_Z "capacity" v = Some (FCapacity f);
  fr_objects : member_Z "object_count" v = Some (FObjectCount f);
  fr_metadata : member_Z "metadata_bytes" v = Some (FMetadataBytes f);
  fr_features : member "features" v = Some (clean (features_json (FFeatures f)));
}.

Lemma frame_reads_back wall f :
  forallb is_ascii wall = true → read_RFC3339 wall = Some (WallClock f) →
  Forall (λ x, finite64 x = true) (frame_floats f) →
  ∃ v, read_json (write_json compact 0 (frame_json wall f) ++ [newline]) = Some v ∧ frame_read f v.
Proof.
  intros Hascii Hwall Hf. exists (clean (frame_json wall f)). split.
  { apply read_json_write; [apply compact_ok|by apply frame_json_ok|done]. }
  unfold frame_json. set (rest := map_member "shadow" (FShadow f) ++ map_member "params" (FParams f)).
  assert (Hk : forallb (λ m, forallb (λ c, byte_val c <? 128) m.1) (frame_members wall f ++ rest) = true).
  { rewrite forallb_app. apply andb_true_intro. split; [reflexivity|]. unfold rest. rewrite forallb_app.
    assert (Hm : ∀ name m, forallb (λ c, byte_val c <? 128) (explode name) = true →
      forallb (λ m, forallb (λ c, byte_val c <? 128) m.1) (map_member name m) = true).
    { intros name m Hn. unfold map_member. destruct (sorted_entries m); [done|]. cbn [forallb tag fst]. by rewrite Hn. }
    by rewrite !Hm. }
  apply Forall_app in Hf as [Hf _]. split_forall. clearbody rest.
  split; try (apply member_Z_clean; [reflexivity|done]); try (apply member_float_clean; [reflexivity|done|done]);
    try (apply member_string_clean; [done|reflexivity]); [|by apply member_clean].
  exists (implode wall). rewrite explode_implode. split; [|done]. unfold member_string.
  rewrite (member_clean "wall_clock" (JStr wall) _ Hk) by reflexivity. cbn [clean]. by rewrite to_valid_ascii.
Qed.

(** ** Frames of a running cache *)
Section histories.
Context `{GoRuntime} `{LawfulPolicy P} `{LawfulBus B}.
Implicit Types c : Core P B.

Lemma record_evictions_ok vs mt : counters_ok mt → counters_ok (record_evictions vs mt).
Proof.
  unfold record_evictions. revert mt. induction vs as [|v vs IH]; intros mt Hm; [done|]. cbn [foldl]. apply IH.
  by apply (run_op_counters_ok (Collector.OEviction v.1 (Size v.2))).
Qed.

Lemma Put_counters_ok k val size now c c' r :
  core_inv c → key_ok k → is_i64 size → Put k val size now c = Ret (c', r) →
  counters_ok (metrics c) → counters_ok (metrics c').
Proof.
  intros Hi Hk Hsz Hrun Hc. destruct (Put_spec k val size now c Hi Hk Hsz) as (c1 & r1 & Hrun1 & _ & _ & _ & _ & Hr).
  rewrite Hrun in Hrun1. injection Hrun1 as <- <-. destruct (admits k size c); [|by destruct Hr as [_ ->]]. destruct r as [err|].
  - by destruct Hr as (_ & -> & _).
  - destruct Hr as (_ & vs & po & m & l & _ & _ & _ & ->).
    apply (run_op_counters_ok (Collector.OFetch size)). by apply record_evictions_ok.
Qed.

Lemma Get_counters_ok k start stop c c' v :
  core_inv c → Get k start stop c = Ret (c', v) → counters_ok (metrics c) → counters_ok (metrics c').
Proof.
  intros Hi Hrun Hc. destruct (Get_spec k start stop c Hi) as (c1 & Hrun1 & _ & _ & _ & _ & _ & _ & Hm).
  rewrite Hrun in Hrun1. injection Hrun1 as <- _. rewrite Hm.
  by apply (run_op_counters_ok (Collector.ORequest _ _ _)).
Qed.

Lemma run_core_op_counters o c c' :
  core_inv c → core_op_ok o → run_core_op o c = Ret c' → counters_ok (metrics c) → counters_ok (metrics c').
Proof.
  intros Hi Hok Hrun Hc. destruct o as [k start stop|k val size now|k|po| |rt]; cbn [run_core_op core_op_ok] in *.
  - apply bind_Ret_inv in Hrun as ([c1 v] & Hg & [= <-]). by eapply Get_counters_ok.
  - apply bind_Ret_inv in Hrun as ([c1 v] & Hp & [= <-]). destruct Hok. by eapply Put_counters_ok.
  - destruct (cache_Remove_spec k c Hi) as (c1 & Hr & _ & _ & _ & _ & Hm & _). rewrite Hr in Hrun.
    injection Hrun as <-. by rewrite Hm.
  - destruct (SetPolicy_spec po c Hi Hok) as (c1 & Hr & _ & _ & _ & _ & Hm). rewrite Hr in Hrun. injection Hrun as <-.
    rewrite Hm. by apply (run_op_counters_ok (Collector.OSetPolicy _)).
  - injection Hrun as <-. by destruct (cache_Clear_spec c Hi) as (_ & _ & -> & _).
  - injection Hrun as <-. unfold Stats. pose proof (Memory_metrics rt c) as Hm. destruct (Memory_ rt c) as [c1 mem].
    cbn in Hm |- *. rewrite Hm. by apply (run_op_counters_ok (Collector.OObserve _)).
Qed.

Lemma run_core_counters ops c c' :
  core_inv c → Forall core_op_ok ops → run_core ops c = Ret c' → counters_ok (metrics c) → counters_ok (metrics c').
Proof.
  intros Hi Hops. revert c Hi. unfold run_core. induction Hops as [|o ops Ho _ IH]; intros c Hi Hrun Hc; [by simplify_eq/=|].
  cbn [for_each] in Hrun. destruct (run_core_op_inv o c Hi Ho) as (c1 & Hs1 & Hi1 & _). rewrite Hs1 in Hrun.
  cbn [mbind outcome_bind] in Hrun. apply (IH c1 Hi1 Hrun). exact (run_core_op_counters o c c1 Hi Ho Hs1 Hc).
Qed.

(** C33: what the program prints is what it measured.  After any history of
    operations of the cache, in zones of whole minutes, encoding a frame fails
    only for a time whose nanoseconds since 1970 overflow int64, never on an
    infinity or NaN; otherwise it is one line, which reads back as a JSON object
    with every field of the frame: the integers, every bit of the floats, the
    wall clock to the nanosecond, and the names with what is not valid UTF-8
    replaced. *)
Theorem frame_line_reads_back zone opts ops rt1 rt2 start now total c :
  (∀ t, zone t mod 60 = 0 ∧ Z.abs (zone t) < 86400) →
  options_ok opts → OMetrics opts = None → Forall core_op_ok ops → is_i64 total → run_core ops (Core.New opts) = Ret c →
  let f := (buildFrame rt1 rt2 start now total c).2 in
  WallClock f = now ∧
  match encode_frame zone f with
  | inl (BadTime _) => ¬ is_i64 now
  | inl (BadFloat _) => False
  | inr line => ∃ v t, line = t ++ [newline] ∧ one_line t ∧ read_json line = Some v ∧ frame_read f v
  end.
Proof.
  intros Hzone Hopts Hnone Hops Htot Hrun f. destruct (Hzone now) as [Hz Hz24].
  assert (Hc : counters_ok (metrics c)).
  { eapply run_core_counters; [by apply core_inv_New|done|done|]. cbn. rewrite Hnone.
    apply (run_op_counters_ok (Collector.OSetPolicy _)), counters_ok_New. }
  pose proof (buildFrame_finite rt1 rt2 start now total c Hc Htot) as Hf. fold f in Hf.
  assert (Hclock : WallClock f = now).
  { unfold f, buildFrame. destruct (Stats rt1 c) as [c1 s]. by destruct (Memory_ rt2 c1) as [c2 mem]. }
  split; [done|]. destruct (buildFrame rt1 rt2 start now total c) as [c' f'] eqn:Hb. cbn [snd] in f. subst f. destruct Hf as [_ Hf].
  unfold encode_frame. rewrite Hclock. destruct (RFC3339 (zone now) now) as [wall|] eqn:Hw.
  - rewrite first_unsupported_finite by done.
    destruct (frame_reads_back wall f') as (v & Hr & Hv); [by eapply RFC3339_ascii| |done|].
    { rewrite Hclock. by eapply RFC3339_reads_back. }
    exists v. eexists. split_and!; [done| |done|done]. by apply compact_one_line, frame_json_ok.
  - intros Hnow. destruct (RFC3339_total (zone now) now Hnow Hz24) as [x Hx]. congruence.
Qed.
End histories.

(** Two puts and two gets of the LRU cache of 100 bytes; the frame at a moment
    of 2024, in a zone an hour ahead. *)
Lemma frame_line_reads_back_witness :
  ∃ c line v, run_core (CoreSpec.sample_ops) (Core.New CoreSpec.sample_opts) = Ret c ∧
    encode_frame (λ _, 3600) (buildFrame no_runtime no_runtime 0 1709270999250000000 10 c).2 = inr line ∧
    read_json line = Some v ∧ member_string "wall_clock" v = Some "2024-03-01T06:29:59.25+01:00"%string ∧
    member_Z "bytes_used" v = Some 90 ∧ member_float "hit_rate" v = Some f64_one.
Proof.
  destruct (run_core CoreSpec.sample_ops (Core.New CoreSpec.sample_opts)) as [c| |] eqn:Hrun;
    [|vm_compute in Hrun; discriminate Hrun..].
  pose proof (frame_line_reads_back (λ _, 3600) CoreSpec.sample_opts CoreSpec.sample_ops no_runtime no_runtime
    0 1709270999250000000 10 c ltac:(by split) CoreSpec.sample_opts_ok eq_refl CoreSpec.sample_ops_ok
    ltac:(unfold is_i64; lia) Hrun) as [_ Hf]. cbv zeta in Hf.
  destruct (encode_frame _ _) as [[t|x]|line] eqn:He; [destruct Hf; unfold is_i64; lia|destruct Hf|].
  destruct Hf as (v & t & _ & _ & Hr & Hv). exists c, line, v. vm_compute in Hrun. injection Hrun as <-.
  split_and!; [reflexivity|exact He|exact Hr|..].
  - vm_compute in He. injection He as <-. vm_compute in Hr. injection Hr as <-. vm_compute. reflexivity.
  - rewrite (fr_bytes _ _ Hv). vm_compute. reflexivity.
  - rewrite (fr_hit_rate _ _ Hv). vm_compute. reflexivity.
Defined.
