(* ===== verification/Duration.v ===== *)
(** * Text: strconv.ParseInt in base 0, and time.ParseDuration

    The values of the command line: an integer in any of Go's notations, and a
    duration as a sequence of decimal numbers with units. *)
From stdpp Require Import pretty.
From S2P Require Import Prelude GoFloat GoText.

(** ** strconv.ParseInt, base 0 and 64 bits *)

Definition digit_in (c : Ascii.ascii) : option Z :=
  if is_digit c then Some (digit c)
  else if (97 <=? lower c) && (lower c <=? 122) then Some (lower c - 87) else None.

(** The digits, with whether there were underscores. *)
Fixpoint read_digits (base n : Z) (und : bool) (s : text) : num_error + Z * bool :=
  match s with
  | [] => inr (n, und)
  | c :: s' =>
      if byte_val c =? 95 then read_digits base n true s'
      else
        match digit_in c with
        | None => inl ErrSyntax
        | Some d =>
            if base <=? d then inl ErrSyntax
            else if (2 ^ 64 - 1) / base + 1 <=? n then inl ErrRange
            else
              let n := n * base + d in
              if 2 ^ 64 <=? n then inl ErrRange else read_digits base n und s'
        end
  end.

(** The base that the prefix of a text names, and what follows it. *)
Definition base_prefix (s : text) : Z * text :=
  match s with
  | c :: s' =>
      if byte_val c =? 48 then
        match s' with
        | d :: (_ :: _) as s'' =>
            if lower d =? 98 then (2, skipn 1 s'')
            else if lower d =? 111 then (8, skipn 1 s'')
            else if lower d =? 120 then (16, skipn 1 s'')
            else (8, s')
        | _ => (8, s')
        end
      else (10, s)
  | [] => (10, [])
  end.

Definition ParseUint_0 (s : text) : num_error + Z :=
  match s with
  | [] => inl ErrSyntax
  | _ =>
      let '(base, ds) := base_prefix s in
      match read_digits base 0 false ds with
      | inl e => inl e
      | inr (n, und) => if (und : bool) && negb (underscoreOK s) then inl ErrSyntax else inr n
      end
  end.

Definition ParseInt_0 (s : text) : num_error + Z :=
  let '(neg, s) := take_sign s in
  match ParseUint_0 s with
  | inl e => inl e
  | inr n =>
      if (neg : bool) then (if n >? 2 ^ 63 then inl ErrRange else inr (- n))
      else if n >=? 2 ^ 63 then inl ErrRange else inr n
  end.

(** ** time.ParseDuration *)

Inductive duration_error :=
| InvalidDuration
| MissingUnit
| UnknownUnit (u : text).

(** [leadingInt]: [None] when the number exceeds 2^63. *)
Fixpoint leadingInt (x : Z) (s : text) : option (Z * text) :=
  match s with
  | [] => Some (x, [])
  | c :: s' =>
      if is_digit c then
        if x >? 2 ^ 63 / 10 then None
        else
          let x := x * 10 + digit c in
          if x >? 2 ^ 63 then None else leadingInt x s'
      else Some (x, s)
  end.

(** [leadingFraction]: the digits beyond what fits are dropped. *)
Fixpoint leadingFraction (x : Z) (scale : float64) (overflow : bool) (s : text) : Z * float64 * text :=
  match s with
  | [] => (x, scale, [])
  | c :: s' =>
      if is_digit c then
        if overflow then leadingFraction x scale true s'
        else if x >? (2 ^ 63 - 1) / 10 then leadingFraction x scale true s'
        else
          let y := x * 10 + digit c in
          if y >? 2 ^ 63 then leadingFraction x scale true s'
          else leadingFraction y (f64_mul scale (f64_of_Z 10)) false s'
      else (x, scale, s)
  end.

(** The unit: up to the next digit or point. *)
Fixpoint take_unit (s : text) : text * text :=
  match s with
  | [] => ([], [])
  | c :: s' =>
      if is_digit c || (byte_val c =? 46) then ([], s)
      else let '(u, rest) := take_unit s' in (c :: u, rest)
  end.

Definition Nanosecond : Z := 1.
Definition Microsecond : Z := 1000 * Nanosecond.
Definition Millisecond : Z := 1000 * Microsecond.
Definition Second : Z := 1000 * Millisecond.
Definition Minute : Z := 60 * Second.
Definition Hour : Z := 60 * Minute.

(** The micro sign and the Greek mu are two bytes each. *)
Definition unitMap : list (text * Z) := [
  (explode "ns", Nanosecond);
  (explode "us", Microsecond);
  ([byte_of 194; byte_of 181; byte_of 115], Microsecond);
  ([byte_of 206; byte_of 188; byte_of 115], Microsecond);
  (explode "ms", Millisecond);
  (explode "s", Second);
  (explode "m", Minute);
  (explode "h", Hour)].

Definition unit_of (u : text) : option Z := (λ r, snd (snd r)) <$> list_find (λ p, fst p = u) unitMap.

(** ** A decimal integer reads back *)

Lemma pretty_N_go_head x s :
  (0 < x)%N → ∃ c r, pretty_N_go x s = String c r ∧ byte_val c ≠ 48.
Proof.
  revert s. induction (N.lt_wf_0 x) as [x _ IH]; intros s Hx. rewrite pretty_N_go_step by done.
  destruct (decide (x < 10)%N) as [Hlt|Hge].
  - rewrite (N.div_small x 10), pretty_N_go_0 by done. rewrite N.mod_small by done. eexists _, _. split; [done|].
    destruct (pretty_N_char_digit x Hlt) as [_ Hd]. unfold digit in Hd. lia.
  - apply IH; [by apply N.div_lt; lia|]. apply N.div_str_pos. lia.
Qed.

Lemma explode_pretty_head n :
  n ≠ 0 → ∃ c ds, explode (pretty (Z.abs n)) = c :: ds ∧ byte_val c ≠ 48.
Proof.
  intros Hn. assert (Hp : ∃ p, Z.abs n = Z.pos p) by (destruct n; [done|by eexists..]). destruct Hp as [p ->].
  change (pretty (Z.pos p)) with (pretty (N.pos p)). unfold pretty, pretty_N. rewrite decide_False by done.
  destruct (pretty_N_go_head (N.pos p) "") as (c & r & -> & Hc); [done|]. by exists c, (explode r).
Qed.

Lemma read_digits_decimal ds n und :
  forallb is_digit ds = true → 0 ≤ n → n * 10 ^ Z.of_nat (length ds) + digits_val ds < 2 ^ 64 →
  read_digits 10 n und ds = inr (n * 10 ^ Z.of_nat (length ds) + digits_val ds, und).
Proof.
  rewrite <-digits_val_acc. revert n. induction ds as [|c ds IH]; intros n Hd Hn Hlt; [done|].
  apply andb_prop in Hd as [Hc Hd]. pose proof (proj1 (is_digit_spec c) Hc) as Hcv.
  cbn [read_digits foldl] in *. unfold digit_in. rewrite Hc.
  assert (0 ≤ digit c ≤ 9) by (unfold digit; lia).
  assert (Hlt' : n * 10 + digit c < 2 ^ 64).
  { rewrite digits_val_acc in Hlt. pose proof (digits_val_nonneg ds Hd).
    assert (0 < 10 ^ Z.of_nat (length ds)) by (apply Z.pow_pos_nonneg; lia). nia. }
  destruct (Z.eqb_spec (byte_val c) 95); [lia|]. destruct (Z.leb_spec 10 (digit c)); [lia|].
  destruct (Z.leb_spec ((2 ^ 64 - 1) / 10 + 1) n) as [Hle|_].
  - change ((2 ^ 64 - 1) / 10 + 1) with 1844674407370955162 in Hle. lia.
  - cbv zeta. destruct (Z.leb_spec (2 ^ 64) (n * 10 + digit c)); [lia|]. apply IH; [done|lia|done].
Qed.

Lemma ParseInt_0_pretty n : is_i64 n → ParseInt_0 (explode (pretty n)) = inr n.
Proof.
  unfold is_i64. intros Hn. destruct (decide (n = 0)) as [->|Hne]; [done|].
  destruct (explode_pretty_Z n) as (ds & Hds & Hall & Hv).
  assert (Habs : explode (pretty (Z.abs n)) = ds).
  { destruct n as [|m|m]; [done|exact Hds|]. change (pretty (Z.neg m)) with ("-" +:+ pretty (N.pos m)) in Hds.
    rewrite explode_app in Hds. cbn in Hds. by injection Hds. }
  rewrite Hds. fold (signed (n <? 0) ds). unfold ParseInt_0. rewrite take_sign_signed by done.
  destruct (explode_pretty_head n Hne) as (c & ds' & Ec & Hc). rewrite Habs in Ec. subst ds.
  unfold ParseUint_0. rewrite Ec. cbn [base_prefix]. destruct (Z.eqb_spec (byte_val c) 48); [lia|]. rewrite <-Ec.
  destruct Hall as [_ Hd]. rewrite read_digits_decimal by (done || rewrite ?Hv; lia). rewrite Hv. cbn [andb].
  destruct (Z.ltb_spec n 0).
  - destruct (Z.gtb_spec (0 * 10 ^ Z.of_nat (length (explode (pretty (Z.abs n)))) + Z.abs n) (2 ^ 63)); [lia|]. f_equal. lia.
  - destruct (Z.geb_spec (0 * 10 ^ Z.of_nat (length (explode (pretty (Z.abs n)))) + Z.abs n) (2 ^ 63)); [lia|]. f_equal. lia.
Qed.

Section duration.
Context `{GoRuntime}.

(** The number of a piece: what is before the point, what is after it and its
    scale, and the rest; [None] when there is no digit or the number is too
    large. *)
Definition piece_number (s : text) : option (Z * Z * float64 * text) :=
  '(v, s1) ← leadingInt 0 s;
  let pre := negb (length s1 =? length s)%nat in
  let '(f, scale, s2, post) :=
    match s1 with
    | c :: s' =>
        if byte_val c =? 46 then
          let '(f, scale, s2) := leadingFraction 0 f64_one false s' in
          (f, scale, s2, negb (length s2 =? length s')%nat)
        else (0, f64_one, s1, false)
    | [] => (0, f64_one, s1, false)
    end in
  if (pre || post : bool) then Some (v, f, scale, s2) else None.

(** A piece in nanoseconds. *)
Definition piece_value (v f : Z) (scale : float64) (unit : Z) : option Z :=
  if v >? 2 ^ 63 / unit then None
  else
    let v := v * unit in
    if f >? 0 then
      let v := u64 (v + f64_to_u64 (f64_mul (f64_of_Z f) (f64_div (f64_of_Z unit) scale))) in
      if v >? 2 ^ 63 then None else Some v
    else Some v.

(** The loop over the pieces, from the sum [d]. *)
Fixpoint duration_loop (fuel : nat) (d : Z) (s : text) : duration_error + Z :=
  match s, fuel with
  | [], _ => inr d
  | _ :: _, O => inl InvalidDuration
  | c :: _, S fuel =>
      if negb ((byte_val c =? 46) || is_digit c) then inl InvalidDuration
      else
        match piece_number s with
        | None => inl InvalidDuration
        | Some (v, f, scale, s2) =>
            let '(u, s3) := take_unit s2 in
            if decide (u = []) then inl MissingUnit
            else
              match unit_of u with
              | None => inl (UnknownUnit u)
              | Some unit =>
                  match piece_value v f scale unit with
                  | None => inl InvalidDuration
                  | Some v =>
                      let d := u64 (d + v) in
                      if d >? 2 ^ 63 then inl InvalidDuration else duration_loop fuel d s3
                  end
              end
        end
  end.

Definition ParseDuration (s : text) : duration_error + Z :=
  let '(neg, s) := take_sign s in
  if decide (s = explode "0") then inr 0
  else if decide (s = []) then inl InvalidDuration
  else
    match duration_loop (length s) 0 s with
    | inl e => inl e
    | inr d =>
        if (neg : bool) then inr (i64 (- i64 d))
        else if d >? 2 ^ 63 - 1 then inl InvalidDuration else inr d
    end.

(** ** The loop ends: each turn consumes its unit *)

Lemma leadingInt_rest x s v s1 : leadingInt x s = Some (v, s1) → (length s1 ≤ length s)%nat.
Proof.
  revert x. induction s as [|c s IH]; intros x Hl; cbn in Hl; [by simplify_eq|].
  repeat case_match; simplify_eq/=; try lia. apply IH in Hl. lia.
Qed.

Lemma leadingFraction_rest x scale ov s f sc s1 :
  leadingFraction x scale ov s = (f, sc, s1) → (length s1 ≤ length s)%nat.
Proof.
  revert x scale ov. induction s as [|c s IH]; intros x scale ov Hl; cbn in Hl; [by simplify_eq|].
  repeat case_match; simplify_eq/=; try lia; apply IH in Hl; lia.
Qed.

Lemma piece_number_rest s v f scale s2 : piece_number s = Some (v, f, scale, s2) → (length s2 ≤ length s)%nat.
Proof.
  unfold piece_number. intros Hp. apply bind_Some in Hp as ([v' s1] & Hl%leadingInt_rest & Hp).
  destruct s1 as [|c s1]; [by case_match; simplify_eq|]. destruct (byte_val c =? 46).
  - destruct (leadingFraction 0 f64_one false s1) as [[f' sc'] s2'] eqn:Hf. apply leadingFraction_rest in Hf.
    case_match; simplify_eq/=. lia.
  - case_match; simplify_eq/=. lia.
Qed.

Lemma take_unit_rest s u s3 : take_unit s = (u, s3) → (length u + length s3 = length s)%nat.
Proof.
  revert u. induction s as [|c s IH]; intros u Ht; cbn in Ht; [by simplify_eq|].
  destruct (is_digit c || (byte_val c =? 46)); [by simplify_eq|].
  destruct (take_unit s) as [u' s'] eqn:E. simplify_eq. specialize (IH _ eq_refl). cbn. lia.
Qed.

(** The fuel is enough: more changes nothing. *)
Lemma duration_loop_fuel n m d s :
  (length s ≤ n)%nat → (length s ≤ m)%nat → duration_loop n d s = duration_loop m d s.
Proof.
  revert m d s. induction n as [|n IH]; intros [|m] d [|c s] Hn Hm; cbn [length] in *; try lia; [done..|].
  cbn [duration_loop]. destruct (negb _); [done|].
  destruct (piece_number (c :: s)) as [[[[v f] scale] s2]|] eqn:Hp; [|done].
  apply piece_number_rest in Hp. destruct (take_unit s2) as [u s3] eqn:Hu. apply take_unit_rest in Hu.
  destruct (decide (u = [])) as [|Hne]; [done|]. assert (0 < length u)%nat by (destruct u; [done|cbn; lia]).
  repeat case_match; try done. cbn [length] in Hp. apply IH; lia.
Qed.

(** ** The result is a duration *)

Lemma piece_value_range v f scale unit r : 0 ≤ v → 0 < unit → piece_value v f scale unit = Some r → 0 ≤ r ≤ 2 ^ 63.
Proof.
  unfold piece_value. intros Hv Hu. destruct (Z.gtb_spec v (2 ^ 63 / unit)) as [|Hle]; [done|].
  assert (v * unit ≤ 2 ^ 63) by (pose proof (Z.mul_div_le (2 ^ 63) unit Hu); nia).
  destruct (f >? 0); [|intros [= <-]; nia]. cbv zeta. pose proof (u64_range (v * unit + f64_to_u64 (f64_mul (f64_of_Z f) (f64_div (f64_of_Z unit) scale)))) as Hr.
  unfold is_u64 in Hr. destruct (Z.gtb_spec (u64 (v * unit + f64_to_u64 (f64_mul (f64_of_Z f) (f64_div (f64_of_Z unit) scale)))) (2 ^ 63));
    [done|intros [= <-]; lia].
Qed.

Lemma duration_loop_range fuel d s r : 0 ≤ d ≤ 2 ^ 63 → duration_loop fuel d s = inr r → 0 ≤ r ≤ 2 ^ 63.
Proof.
  revert d s. induction fuel as [|fuel IH]; intros d [|c s] Hd Hl; cbn [duration_loop] in Hl; try (by simplify_eq).
  destruct (negb _); [done|]. destruct (piece_number (c :: s)) as [[[[v f] scale] s2]|]; [|done].
  destruct (take_unit s2) as [u s3]. destruct (decide (u = [])); [done|]. destruct (unit_of u); [|done].
  destruct (piece_value v f scale z) as [w|]; [|done]. cbv zeta in Hl. pose proof (u64_range (d + w)) as Hr. unfold is_u64 in Hr.
  destruct (Z.gtb_spec (u64 (d + w)) (2 ^ 63)); [done|]. eapply IH; [|exact Hl]. lia.
Qed.

Lemma ParseDuration_range s d : ParseDuration s = inr d → is_i64 d.
Proof.
  unfold ParseDuration. destruct (take_sign s) as [neg s']. intros Hp.
  case_decide; [simplify_eq; unfold is_i64; lia|]. case_decide; [done|].
  destruct (duration_loop (length s') 0 s') as [e|r] eqn:Hl; [done|]. apply duration_loop_range in Hl; [|lia].
  destruct neg; [simplify_eq; apply i64_range|]. destruct (Z.gtb_spec r (2 ^ 63 - 1)); [done|].
  simplify_eq. unfold is_i64. lia.
Qed.

(** ** Durations without fractions *)

Definition unit_char (c : Ascii.ascii) : bool := negb (is_digit c || (byte_val c =? 46)).

Lemma unit_of_clean u unit : unit_of u = Some unit → u ≠ [] ∧ forallb unit_char u = true ∧ 0 < unit.
Proof.
  unfold unit_of. intros Hu. apply fmap_Some in Hu as ([i [u' x]] & Hf & ->).
  apply list_find_Some in Hf as (Hi & Hux & _). cbn in Hux. subst u'. apply list_elem_of_lookup_2 in Hi.
  assert (Hall : Forall (λ p, p.1 ≠ [] ∧ forallb unit_char p.1 = true ∧ 0 < p.2) unitMap) by
    (repeat apply Forall_cons_2; try apply Forall_nil_2; done).
  rewrite Forall_forall in Hall. exact (Hall _ Hi).
Qed.

Definition starts_clean (s : text) : Prop := match s with [] => True | c :: _ => is_digit c = false end.

Lemma leadingInt_digits x ds s :
  forallb is_digit ds = true → starts_clean s → 0 ≤ x → x * 10 ^ Z.of_nat (length ds) + digits_val ds ≤ 2 ^ 63 →
  leadingInt x (ds ++ s) = Some (x * 10 ^ Z.of_nat (length ds) + digits_val ds, s).
Proof.
  intros Hd Hs. rewrite <-digits_val_acc. revert x. induction ds as [|c ds IH]; intros x Hx Hle.
  - cbn in *. destruct s as [|c s]; cbn; [done|]. cbn in Hs. by rewrite Hs.
  - apply andb_prop in Hd as [Hc Hd]. cbn [app leadingInt]. rewrite Hc. cbn [foldl] in *.
    rewrite digits_val_acc in Hle. pose proof (digits_val_nonneg ds Hd). apply is_digit_spec in Hc.
    assert (0 < 10 ^ Z.of_nat (length ds)) by (apply Z.pow_pos_nonneg; lia).
    assert (0 ≤ digit c ≤ 9) by (unfold digit; lia).
    assert (x * 10 + digit c ≤ 2 ^ 63) by nia.
    destruct (Z.gtb_spec x (2 ^ 63 / 10)) as [Hgt|_].
    + assert (2 ^ 63 / 10 + 1 ≤ x) by lia. pose proof (Z.mul_succ_div_gt (2 ^ 63) 10). lia.
    + cbv zeta. destruct (Z.gtb_spec (x * 10 + digit c) (2 ^ 63)); [lia|]. rewrite IH; [done|done|lia|].
      rewrite digits_val_acc. lia.
Qed.

(** A piece: a count and the text of its unit. *)
Definition render_piece (p : Z * text) : text := explode (pretty (fst p)) ++ snd p.
Definition render_pieces (ps : list (Z * text)) : text := ps ≫= render_piece.

Definition piece_nanos (p : Z * text) : Z := fst p * default 0 (unit_of (snd p)).
Definition pieces_nanos (ps : list (Z * text)) : Z := foldr (λ p n, piece_nanos p + n) 0 ps.

Definition piece_ok (p : Z * text) : Prop := 0 ≤ fst p ∧ is_Some (unit_of (snd p)).

Lemma explode_pretty_nonneg n : 0 ≤ n → all_digits (explode (pretty n)) ∧ digits_val (explode (pretty n)) = n.
Proof.
  intros Hn. destruct (explode_pretty_Z n) as (ds & -> & Hd & Hv). destruct (Z.ltb_spec n 0); [lia|].
  split; [done|]. lia.
Qed.

Lemma piece_number_digits ds u rest :
  all_digits ds → u ≠ [] → forallb unit_char u = true → digits_val ds ≤ 2 ^ 63 →
  piece_number (ds ++ u ++ rest) = Some (digits_val ds, 0, f64_one, u ++ rest).
Proof.
  intros [Hne Hd] Hu Hc Hle. destruct u as [|c u]; [done|]. apply andb_prop in Hc as [Hc _].
  unfold unit_char in Hc. apply negb_true_iff, orb_false_iff in Hc as [Hc1 Hc2].
  unfold piece_number. rewrite leadingInt_digits by (done || lia). cbn [mbind option_bind app]. rewrite Z.mul_0_l, Z.add_0_l, Hc2.
  rewrite orb_false_r, !length_app. cbn [length]. rewrite !length_app.
  destruct (Nat.eqb_spec (S (length u + length rest)) (length ds + S (length u + length rest))) as [Heq|]; [|done].
  destruct ds; [done|]. cbn in Heq. lia.
Qed.

Lemma take_unit_app u rest :
  forallb unit_char u = true → match rest with [] => True | c :: _ => unit_char c = false end →
  take_unit (u ++ rest) = (u, rest).
Proof.
  intros Hu Hr. induction u as [|c u IH]; cbn in *.
  - destruct rest as [|c rest]; [done|]. cbn. unfold unit_char in Hr. by apply negb_false_iff in Hr as ->.
  - apply andb_prop in Hu as [Hc Hu]. unfold unit_char in Hc. apply negb_true_iff in Hc. rewrite Hc.
    by rewrite IH.
Qed.

Lemma piece_value_whole v unit : 0 ≤ v → 0 < unit → v * unit ≤ 2 ^ 63 → piece_value v 0 f64_one unit = Some (v * unit).
Proof.
  intros Hv Hu Hle. unfold piece_value. destruct (Z.gtb_spec v (2 ^ 63 / unit)) as [Hgt|]; [|done].
  pose proof (Z.mul_succ_div_gt (2 ^ 63) unit Hu). nia.
Qed.

Lemma piece_nanos_nonneg p : piece_ok p → 0 ≤ piece_nanos p.
Proof.
  intros [Hn [unit Hu]]. unfold piece_nanos. rewrite Hu. cbn. apply unit_of_clean in Hu as (_ & _ & ?). nia.
Qed.

Lemma pieces_nanos_nonneg ps : Forall piece_ok ps → 0 ≤ pieces_nanos ps.
Proof.
  induction 1 as [|p ps Hp _ IH]; [done|]. unfold pieces_nanos in *. cbn. pose proof (piece_nanos_nonneg p Hp). lia.
Qed.

Lemma render_pieces_start ps :
  Forall piece_ok ps → match render_pieces ps with [] => True | c :: _ => unit_char c = false end.
Proof.
  destruct 1 as [|[n u] ps [Hn _] _]; [done|]. unfold render_pieces. rewrite bind_cons. unfold render_piece at 1. cbn [fst snd] in *.
  destruct (explode_pretty_nonneg n Hn) as [Hd _]. destruct (all_digits_cons _ Hd) as (c & ds & -> & Hc). cbn.
  unfold unit_char. apply is_digit_spec in Hc. by rewrite Hc.
Qed.

Lemma duration_loop_pieces fuel d ps :
  Forall piece_ok ps → 0 ≤ d → d + pieces_nanos ps ≤ 2 ^ 63 → (length (render_pieces ps) ≤ fuel)%nat →
  duration_loop fuel d (render_pieces ps) = inr (d + pieces_nanos ps).
Proof.
  intros Hps. revert fuel d. induction Hps as [|[n u] ps Hp Hps IH]; intros fuel d Hd Hle Hfuel.
  { cbn in *. rewrite Z.add_0_r. by destruct fuel. }
  pose proof (pieces_nanos_nonneg ps Hps) as Hnn. pose proof (piece_nanos_nonneg _ Hp) as Hpn.
  destruct Hp as [Hn [unit Hu]]. cbn [fst snd] in Hn, Hu. unfold pieces_nanos in Hle, Hnn |- *. cbn [foldr] in *. fold (pieces_nanos ps) in *.
  unfold piece_nanos in Hle, Hpn |- *. cbn [fst snd] in *. rewrite Hu in Hle, Hpn |- *. cbn [from_option id] in *. change (id unit) with unit in *.
  destruct (unit_of_clean u unit Hu) as (Hne & Hc & Hpos). destruct (explode_pretty_nonneg n Hn) as [Hds Hv].
  assert (Hr : render_pieces ((n, u) :: ps) = explode (pretty n) ++ u ++ render_pieces ps).
  { unfold render_pieces. rewrite bind_cons. unfold render_piece at 1. cbn [fst snd]. by rewrite <-app_assoc. }
  rewrite Hr in *. destruct (all_digits_cons _ Hds) as (c & ds & Ec & Hcd). rewrite !length_app in Hfuel.
  destruct fuel as [|fuel]; [rewrite Ec in Hfuel; cbn in Hfuel; lia|].
  assert (Hn63 : n ≤ 2 ^ 63) by nia.
  pose proof (piece_number_digits (explode (pretty n)) u (render_pieces ps) Hds Hne Hc ltac:(lia)) as Hpn'.
  rewrite Hv in Hpn'. rewrite Ec in *. cbn [app duration_loop]. cbn [app] in Hpn'. rewrite Hpn'.
  apply is_digit_spec in Hcd. rewrite Hcd, orb_true_r. cbn [negb].
  rewrite take_unit_app by (done || by apply render_pieces_start). rewrite decide_False, Hu by done.
  rewrite piece_value_whole by (done || lia). cbv zeta. rewrite u64_small by (unfold is_u64; lia).
  destruct (Z.gtb_spec (d + n * unit) (2 ^ 63)); [lia|].
  rewrite IH; [f_equal; lia|lia|lia|]. cbn [length] in Hfuel. destruct u; [done|]. cbn in Hfuel. lia.
Qed.

Lemma render_pieces_cons ps :
  ps ≠ [] → Forall piece_ok ps →
  ∃ c s, render_pieces ps = c :: s ∧ 48 ≤ byte_val c ≤ 57 ∧ s ≠ [].
Proof.
  intros Hne. destruct 1 as [|[n u] ps [Hn [unit Hu]] _]; [done|]. cbn [fst snd] in Hn, Hu.
  destruct (explode_pretty_nonneg n Hn) as [Hd _]. destruct (all_digits_cons _ Hd) as (c & ds & Ec & Hc).
  unfold render_pieces. rewrite bind_cons. unfold render_piece at 1. cbn [fst snd]. rewrite Ec.
  apply unit_of_clean in Hu as (Hu & _). exists c, (ds ++ u ++ (ps ≫= render_piece)). rewrite <-app_assoc.
  split_and!; [done|lia|lia|]. destruct ds; [by destruct u|done].
Qed.

(** Whole counts of units read as their sum. *)
Lemma ParseDuration_pieces (neg : bool) ps :
  ps ≠ [] → Forall piece_ok ps → pieces_nanos ps ≤ (if neg then 2 ^ 63 else 2 ^ 63 - 1) →
  ParseDuration (signed neg (render_pieces ps)) = inr (if neg then - pieces_nanos ps else pieces_nanos ps).
Proof.
  intros Hne Hps Hle. pose proof (pieces_nanos_nonneg ps Hps) as Hnn.
  destruct (render_pieces_cons ps Hne Hps) as (c & s & Ec & Hc & Hs).
  assert (Hsign : take_sign (signed neg (render_pieces ps)) = (neg, render_pieces ps)).
  { rewrite Ec. destruct neg; [done|]. cbn. destruct (Z.eqb_spec (byte_val c) 45); [lia|].
    destruct (Z.eqb_spec (byte_val c) 43); [lia|]. done. }
  unfold ParseDuration. rewrite Hsign.
  rewrite decide_False by (rewrite Ec; intros E; by injection E as _ ->). rewrite decide_False by (by rewrite Ec).
  rewrite duration_loop_pieces by (done || destruct neg; lia). rewrite Z.add_0_l. destruct neg.
  - f_equal. destruct (decide (pieces_nanos ps = 2 ^ 63)) as [->|]; [done|].
    rewrite (i64_small (pieces_nanos ps)), i64_small by (unfold is_i64; lia). done.
  - destruct (Z.gtb_spec (pieces_nanos ps) (2 ^ 63 - 1)); [lia|done].
Qed.
End duration.
