(* ===== verification/Flags.v ===== *)
(** * cmd/adaptive-cache/main.go: the command line

    The four flags that [run] declares are the program's; how package flag
    parses the arguments into them ([Parse] and what it calls) is the standard
    library's: up to the first argument that is not a flag or the argument
    [--], a flag being [-name value], [-name=value] or either with two dashes. *)
From stdpp Require Import pretty.
From S2P Require Import Prelude GoFloat GoText Duration.

Record flags := {
  configPath : string;
  duration : Z;
  seed : Z;
  policyFlag : string;
}.

Definition default_flags : flags :=
  {| configPath := "configs/default.yaml"; duration := 5 * Second; seed := 1; policyFlag := EmptyString |}.

Inductive flag_name := FConfig | FDuration | FSeed | FPolicy.

Definition name_text (n : flag_name) : text :=
  explode (match n with FConfig => "config" | FDuration => "duration" | FSeed => "seed" | FPolicy => "policy" end).

(** The table of declared flags. *)
Definition formal (name : text) : option flag_name :=
  (λ r, snd (snd r)) <$>
  list_find (λ p, fst p = name) ((λ n, (name_text n, n)) <$> [FConfig; FDuration; FSeed; FPolicy]).

(** Why parsing stops; the first is a request, not an error. *)
Inductive flag_error :=
| HelpRequested
| BadSyntax (arg : string)
| NotDefined (name : text)
| NeedsArgument (name : flag_name)
| InvalidValue (value : text) (name : flag_name).

(** What an argument is. *)
Inductive token :=
| TPositional
| TTerminator
| TBad
| TFlag (name : text) (value : option text).

(** The text before the first equals sign, and what is after it. *)
Fixpoint split_equals (s : text) : text * option text :=
  match s with
  | [] => ([], None)
  | c :: s' =>
      if byte_val c =? 61 then ([], Some s')
      else let '(n, v) := split_equals s' in (c :: n, v)
  end.

(** A flag after its dashes; the equals sign cannot come first. *)
Definition flag_token (s : text) : token :=
  match s with
  | [] => TBad
  | c :: s' =>
      if (byte_val c =? 45) || (byte_val c =? 61) then TBad
      else let '(n, v) := split_equals s' in TFlag (c :: n) v
  end.

Definition token_of (s : text) : token :=
  match s with
  | c :: d :: s' =>
      if byte_val c =? 45 then
        if byte_val d =? 45 then match s' with [] => TTerminator | _ => flag_token s' end
        else flag_token (d :: s')
      else TPositional
  | _ => TPositional
  end.

Section parse.
Context `{GoRuntime}.

(** The [Set] of the flag's value. *)
Definition set_flag (n : flag_name) (v : text) (f : flags) : option flags :=
  match n with
  | FConfig => Some {| configPath := implode v; duration := duration f; seed := seed f; policyFlag := policyFlag f |}
  | FDuration =>
      match ParseDuration v with
      | inl _ => None
      | inr d => Some {| configPath := configPath f; duration := d; seed := seed f; policyFlag := policyFlag f |}
      end
  | FSeed =>
      match ParseInt_0 v with
      | inl _ => None
      | inr n => Some {| configPath := configPath f; duration := duration f; seed := n; policyFlag := policyFlag f |}
      end
  | FPolicy => Some {| configPath := configPath f; duration := duration f; seed := seed f; policyFlag := implode v |}
  end.

Fixpoint Parse (args : list string) (f : flags) : flag_error + flags * list string :=
  match args with
  | [] => inr (f, [])
  | s :: rest =>
      match token_of (explode s) with
      | TPositional => inr (f, s :: rest)
      | TTerminator => inr (f, rest)
      | TBad => inl (BadSyntax s)
      | TFlag name value =>
          match formal name with
          | None =>
              if decide (name = explode "help" ∨ name = explode "h") then inl HelpRequested else inl (NotDefined name)
          | Some n =>
              match value, rest with
              | Some v, _ =>
                  match set_flag n v f with Some f => Parse rest f | None => inl (InvalidValue v n) end
              | None, v :: rest =>
                  match set_flag n (explode v) f with
                  | Some f => Parse rest f
                  | None => inl (InvalidValue (explode v) n)
                  end
              | None, [] => inl (NeedsArgument n)
              end
          end
      end
  end.

(** A parsed duration is an int64. *)
Lemma set_flag_duration n v f f' : set_flag n v f = Some f' → is_i64 (duration f) → is_i64 (duration f').
Proof.
  destruct n; cbn; try (by intros [= <-]).
  - destruct (ParseDuration v) as [e|d] eqn:Hd; [done|]. intros [= <-] _. by eapply ParseDuration_range.
  - destruct (ParseInt_0 v); [done|]. by intros [= <-].
Qed.

Lemma Parse_duration args f f' rest : Parse args f = inr (f', rest) → is_i64 (duration f) → is_i64 (duration f').
Proof.
  revert f. induction args as [args IH] using (induction_ltof1 _ length). unfold ltof in IH.
  intros f. destruct args as [|s args]; cbn [Parse]; [by intros [= <- _]|].
  destruct (token_of (explode s)) as [| | |name value]; [by intros [= <- _]|by intros [= <- _]|done|].
  destruct (formal name) as [n|]; [|by case_decide].
  destruct value as [v|]; [|destruct args as [|v args]; [done|]].
  - destruct (set_flag n v f) as [f1|] eqn:Hs; [|done]. intros Hp Hf. eapply IH; [|exact Hp|by eapply set_flag_duration].
    cbn. lia.
  - destruct (set_flag n (explode v) f) as [f1|] eqn:Hs; [|done]. intros Hp Hf.
    eapply IH; [|exact Hp|by eapply set_flag_duration]. cbn. lia.
Qed.

(** ** Command lines that set flags *)

(** A flag given a value: any text, a duration as whole counts of units with a
    sign, an integer. *)
Inductive setting :=
| SetConfig (path : string)
| SetDuration (neg : bool) (ps : list (Z * text))
| SetSeed (n : Z)
| SetPolicy (name : string).

Definition setting_name (s : setting) : flag_name :=
  match s with SetConfig _ => FConfig | SetDuration _ _ => FDuration | SetSeed _ => FSeed | SetPolicy _ => FPolicy end.

Definition setting_text (s : setting) : text :=
  match s with
  | SetConfig v | SetPolicy v => explode v
  | SetDuration neg ps => signed neg (render_pieces ps)
  | SetSeed n => explode (pretty n)
  end.

Definition setting_ok (s : setting) : Prop :=
  match s with
  | SetConfig _ | SetPolicy _ => True
  | SetDuration neg ps =>
      ps ≠ [] ∧ Forall piece_ok ps ∧ pieces_nanos ps ≤ (if neg then 2 ^ 63 else 2 ^ 63 - 1)
  | SetSeed n => is_i64 n
  end.

Definition apply_setting (s : setting) (f : flags) : flags :=
  {| configPath := match s with SetConfig v => v | _ => configPath f end;
     duration :=
       match s with
       | SetDuration neg ps => if neg then - pieces_nanos ps else pieces_nanos ps
       | _ => duration f
       end;
     seed := match s with SetSeed n => n | _ => seed f end;
     policyFlag := match s with SetPolicy v => v | _ => policyFlag f end |}.

(** One dash or two, the value after an equals sign or as the next argument. *)
Record spelling := { two_dashes : bool; with_equals : bool }.

Definition spell (sp : spelling) (s : setting) : list string :=
  let dashes := if two_dashes sp then [minus; minus] else [minus] in
  let name := dashes ++ name_text (setting_name s) in
  if with_equals sp then [implode (name ++ byte_of 61 :: setting_text s)]
  else [implode name; implode (setting_text s)].

Definition command_line (l : list (spelling * setting)) : list string := l ≫= λ p, spell p.1 p.2.

(** The arguments that end the flags, and those that are left. *)
Definition ends_flags (tail left : list string) : Prop :=
  match tail with
  | [] => left = []
  | s :: rest =>
      match token_of (explode s) with
      | TPositional => left = tail
      | TTerminator => left = rest
      | _ => False
      end
  end.

Lemma split_equals_name n v : split_equals (skipn 1 (name_text n) ++ byte_of 61 :: v) = (skipn 1 (name_text n), Some v).
Proof. by destruct n. Qed.

Lemma token_equals (two : bool) n v :
  token_of ((if two then [minus; minus] else [minus]) ++ name_text n ++ byte_of 61 :: v) = TFlag (name_text n) (Some v).
Proof. by destruct two, n. Qed.

Lemma token_alone (two : bool) n :
  token_of ((if two then [minus; minus] else [minus]) ++ name_text n) = TFlag (name_text n) None.
Proof. by destruct two, n. Qed.

Lemma formal_name n : formal (name_text n) = Some n.
Proof. by destruct n. Qed.

Lemma set_flag_setting s f : setting_ok s → set_flag (setting_name s) (setting_text s) f = Some (apply_setting s f).
Proof.
  destruct s as [path|neg ps|n|name]; cbn [setting_ok setting_name setting_text set_flag apply_setting].
  - intros _. by rewrite implode_explode.
  - intros (Hne & Hps & Hle). by rewrite ParseDuration_pieces.
  - intros Hn. by rewrite ParseInt_0_pretty.
  - intros _. by rewrite implode_explode.
Qed.

Lemma Parse_spell sp s args f :
  setting_ok s → Parse (spell sp s ++ args) f = Parse args (apply_setting s f).
Proof.
  intros Hs. destruct sp as [two []]; unfold spell; cbn [two_dashes with_equals app Parse].
  - rewrite explode_implode, <-app_assoc, token_equals, formal_name, set_flag_setting by done. done.
  - rewrite explode_implode, token_alone, formal_name, explode_implode, set_flag_setting by done. done.
Qed.

(** C30: the command line sets what it says.  Any sequence of flags, each with
    one dash or two and its value after an equals sign or as the next argument,
    is parsed to the defaults with the settings applied in order (the last of a
    flag wins): paths and names as they are, integers exactly, and durations,
    given as counts of units, to the nanosecond over the whole range of int64.
    Parsing stops at the first argument that is not a flag, or after [--]. *)
Theorem Parse_command_line l tail left :
  Forall (λ p, setting_ok p.2) l → ends_flags tail left →
  Parse (command_line l ++ tail) default_flags = inr (foldl (λ f p, apply_setting p.2 f) default_flags l, left).
Proof.
  intros Hl Ht. generalize default_flags as f. induction Hl as [|[sp s] l Hs _ IH]; intros f.
  - cbn [command_line mbind list_bind app foldl]. destruct tail as [|s rest]; cbn in *; [by subst|].
    destruct (token_of (explode s)); by subst.
  - unfold command_line. rewrite bind_cons, <-app_assoc, Parse_spell by done. apply IH.
Qed.
End parse.

Lemma Parse_command_line_witness :
  Parse ["--duration"; "1h30m"; "-policy=clock"; "-seed"; "-7"; "-policy=lfu"; "--"; "-x"]%string default_flags =
  inr ({| configPath := "configs/default.yaml"; duration := 5400 * Second; seed := -7; policyFlag := "lfu" |}, ["-x"]%string).
Proof.
  apply (Parse_command_line
    [({| two_dashes := true; with_equals := false |}, SetDuration false [(1, explode "h"); (30, explode "m")]);
     ({| two_dashes := false; with_equals := true |}, SetPolicy "clock");
     ({| two_dashes := false; with_equals := false |}, SetSeed (-7));
     ({| two_dashes := false; with_equals := true |}, SetPolicy "lfu")] ["--"; "-x"]%string); [|reflexivity].
  repeat apply Forall_cons_2; try apply Forall_nil_2; cbn [setting_ok snd]; [|done|unfold is_i64; lia|done].
  split_and!; [done| |vm_compute; done].
  repeat apply Forall_cons_2; try apply Forall_nil_2; split; try done; cbn; by eexists.
Defined.
