(* ===== verification/Program.v ===== *)
(** * cmd/adaptive-cache/main.go: a whole run

    [main] from the command line to the end of the program, with the calls of the
    request generator, the drain of the demo's subscriber and the ticks of the
    frame loop interleaved in any order (a frame is built in one step).  The
    file system, the YAML decoder, the times, the random numbers and what the
    Go run time reports about the process are arguments; the frames are what
    [run] hands to the JSON encoder.  The bus is one object, shared by [run] and
    the cache, and is kept where the cache has it. *)
From stdpp Require Import pretty.
From S2P Require Import Prelude GoFloat Types Policy Events Core CoreSpec Registry Main.
From S2P Require Import Snapshot StatsJSON FrameJSON Flags.
From S2P Require Store.
From S2P Require Memory.
From S2P Require Config.

(** The types the demo's subscriber asks for. *)
Definition stdout_types : list Z := [TypeSwitch; TypeDetection; TypeTuning; TypeScenarioMark].

(** [missed] is the key the generator has looked up in vain and puts next. *)
Record program := {
  pcore : Core AnyPolicy MemBus;
  eventCh : cptr;
  missed : option string;
}.

Definition with_core (c : Core AnyPolicy MemBus) (p : program) : program :=
  {| pcore := c; eventCh := eventCh p; missed := missed p |}.
Definition with_missed (k : option string) (p : program) : program :=
  {| pcore := pcore p; eventCh := eventCh p; missed := k |}.

(** A method of the bus called by [run]. *)
Definition on_bus (f : MemBus → outcome MemBus) (p : program) : outcome program :=
  b ← or_panic (bus (pcore p));
  b ← f b;
  Ret (with_core (with_bus (Some b) (pcore p)) p).

(** The errors [run] returns before the frame loop. *)
Inductive run_error (E : Type) :=
| LoadFailed (e : Config.load_error E)
| UnknownPolicy (name : string) (known : list PolicyName).
Arguments LoadFailed {E}.
Arguments UnknownPolicy {E}.

(** What the process does once its arguments are read: it exits with a status
    and perhaps an error, or runs. *)
Inductive process (E : Type) :=
| Exits (status : Z) (e : option (run_error E))
| Runs (fl : flags) (p : program).
Arguments Exits {E}.
Arguments Runs {E}.

Inductive action :=
| AGenerate (n t1 t2 : Z)
| ADrain
| ATick (now : Z) (rt1 rt2 : Memory.RuntimeMemory).

Definition payload_1024 : Value := replicate 1024 Byte.x00.

Section run.
Context `{GoRuntime}.

(** [fmt.Sprintf("key-%d", n)] *)
Definition key_of (n : Z) : string := "key-" +:+ pretty n.

(** After the configuration is loaded, up to the frame loop: the unknown policy, or the program started.
    [time.NewTicker] panics when the interval is not positive. *)
Definition setup (tick : nat) (r : registry AnyPolicy) (flag : string) (cfg : Config.Config) (start : Z)
    : outcome ((string * list PolicyName) + program) :=
  let cfg := override_policy flag cfg in
  match resolve_policy tick r cfg with
  | inl e => Ret (inl e)
  | inr pol =>
      '(b, l) ← Subscribe "stdout-events" (Config.BusBuffer (Config.CEvents cfg)) stdout_types NewBus;
      let p := {| pcore := Core.New (cache_options pol b cfg); eventCh := l; missed := None |} in
      p ← on_bus (Publish (event 0 start TypeRunStart)) p;
      if Config.FrameInterval cfg <=? 0 then Panic else Ret (inr p)
  end.

(** [run] up to the frame loop. *)
Definition launch {E} (unmarshal : list Byte.byte → Config.Config → E + Config.Config)
    (readFile : string → E + list Byte.byte) (tick : nat) (r : registry AnyPolicy) (fl : flags) (start : Z)
    : outcome (run_error E + program) :=
  match Config.Load unmarshal tick readFile r (configPath fl) with
  | inl e => Ret (inl (LoadFailed e))
  | inr cfg =>
      s ← setup (S tick) r (policyFlag fl) cfg start;
      Ret (match s with inl (name, known) => inl (UnknownPolicy name known) | inr p => inr p end)
  end.

(** [main] up to the frame loop: package flag exits with 0 when help is asked
    for and with 2 when the flags are wrong, [main] with 1 on an error. *)
Definition main {E} (unmarshal : list Byte.byte → Config.Config → E + Config.Config)
    (readFile : string → E + list Byte.byte) (tick : nat) (r : registry AnyPolicy) (args : list string) (start : Z)
    : outcome (process E) :=
  match Parse args default_flags with
  | inl HelpRequested => Ret (Exits 0 None)
  | inl _ => Ret (Exits 2 None)
  | inr (fl, _) =>
      s ← launch unmarshal readFile tick r fl start;
      Ret (match s with inl e => Exits 1 (Some e) | inr p => Runs fl p end)
  end.

(** The generator's next call of the cache: a get of the key drawn, or the put
    of the key that missed. *)
Definition generate (n t1 t2 : Z) (p : program) : outcome program :=
  match missed p with
  | None =>
      let key := key_of n in
      '(c, v) ← Core.Get key t1 t2 (pcore p);
      let ok := bool_decide (is_Some v) in
      Ret (with_missed (if ok then None else Some key) (with_core c p))
  | Some key =>
      '(c, _) ← Put key payload_1024 (Z.of_nat (length payload_1024)) t1 (pcore p);
      Ret (with_missed None (with_core c p))
  end.

(** One step of the generator, of the drain or of the frame loop. *)
Definition run_action (start total : Z) (a : action) (p : program) : outcome (program * list Frame) :=
  match a with
  | AGenerate n t1 t2 => p ← generate n t1 t2 p; Ret (p, [])
  | ADrain => p ← on_bus (λ b, Ret (Recv (eventCh p) b)) p; Ret (p, [])
  | ATick now rt1 rt2 =>
      let '(c, f) := buildFrame rt1 rt2 start now total (pcore p) in
      Ret (with_core c p, [f])
  end.

Fixpoint run_actions (start total : Z) (acts : list action) (p : program) : outcome (program * list Frame) :=
  match acts with
  | [] => Ret (p, [])
  | a :: acts =>
      '(p, fs) ← run_action start total a p;
      '(p, gs) ← run_actions start total acts p;
      Ret (p, fs ++ gs)
  end.

(** The end of [run]: the context is done, or the encoder has [refused] the
    last frame; the bus is closed on return. *)
Definition finish (refused : bool) (now : Z) (p : program) : outcome program :=
  p ← if refused then Ret p else on_bus (Publish (event (Seq_ (pcore p)) now TypeRunEnd)) p;
  on_bus Close p.

(** A run: the actions before the end of the frame loop, the end, and what the
    other goroutines still do before the process exits. *)
Definition run (start total now : Z) (refused : bool) (acts late : list action) (p : program)
    : outcome (program * list Frame) :=
  '(p, fs) ← run_actions start total acts p;
  p ← finish refused now p;
  '(p, _) ← run_actions start total late p;
  Ret (p, fs).
End run.

(** ** A bus with nobody to listen *)

(** The types that the cache and [run] publish. *)
Definition program_types : list Z := [TypeHit; TypeMiss; TypeEviction; TypeRunStart; TypeRunEnd].

(** Publishing an event of these types changes nothing. *)
Definition bus_quiet `{Bus B} (bo : option B) : Prop :=
  ∀ b e, bo = Some b → EType e ∈ program_types → bus_Publish e b = Ret b.

Section quiet.
Context `{EvictionPolicy P} `{Bus B}.
Implicit Types c : Core P B.

Lemma publish_quiet e c c' :
  publish e c = Ret c' → bus_quiet (bus c) → EType e ∈ program_types → bus c' = bus c.
Proof.
  unfold publish. intros Hp Hq He. destruct (bus c) as [b|] eqn:Hb; [|by simplify_eq].
  rewrite (Hq b e eq_refl He) in Hp. cbn in Hp. by simplify_eq.
Qed.

Lemma Get_quiet k start stop c c' v :
  Get k start stop c = Ret (c', v) → bus_quiet (bus c) → bus c' = bus c.
Proof.
  unfold Get, Get_locked. intros Hrun Hq. apply bind_Ret_inv in Hrun as ([[c1 hit] val] & Hl & Hrun).
  apply bind_Ret_inv in Hl as ([st e] & _ & Hl). apply bind_Ret_inv in Hl as (val' & _ & Hl).
  apply bind_Ret_inv in Hl as (c1' & Hcall & [= -> <- <-]). apply bind_Ret_inv in Hrun as (c2 & Hpub & [= <- _]).
  assert (Hc1 : bus c1 = bus c) by (destruct e; [by apply call_policy_bus in Hcall|by simplify_eq]).
  unfold Get_publish in Hpub. apply bind_Ret_inv in Hpub as (smp & _ & Hpub).
  destruct smp; [|by simplify_eq]. rewrite <-Hc1.
  apply publish_quiet in Hpub; [done|cbn; by rewrite Hc1|]. destruct (bool_decide _); cbn; set_solver.
Qed.

Lemma evictOneLocked_quiet sq now c c' ok :
  evictOneLocked sq now c = Ret (c', ok) → bus_quiet (bus c) → bus c' = bus c.
Proof.
  unfold evictOneLocked. destruct (policy c) as [p|]; [|done].
  intros ([p1 [k|]] & _ & Hrun)%bind_Ret_inv Hq; [|by simplify_eq].
  apply bind_Ret_inv in Hrun as ([st r] & _ & Hrun).
  apply bind_Ret_inv in Hrun as (c1 & Hcall%call_policy_bus & Hrun). cbn in Hcall.
  destruct r as [l|]; [|by simplify_eq].
  apply bind_Ret_inv in Hrun as (ent & _ & Hrun).
  apply bind_Ret_inv in Hrun as (c2 & Hpub & [= <- _]).
  apply publish_quiet in Hpub; [by rewrite Hpub|cbn; by rewrite Hcall|cbn; set_solver].
Qed.

Lemma Put_quiet k val size now c c' r :
  Put k val size now c = Ret (c', r) → bus_quiet (bus c) → bus c' = bus c.
Proof.
  assert (Hloop : ∀ fuel sq c c' r, put_loop fuel k val size now sq c = Ret (c', r) →
    bus_quiet (bus c) → bus c' = bus c).
  { clear c c' r. induction fuel as [|fuel IH]; intros sq c c' r; [done|]. cbn [put_loop].
    intros ([st [err|l]] & _ & Hrun)%bind_Ret_inv Hq.
    - case_match; [by simplify_eq|]. apply bind_Ret_inv in Hrun as ([c1 ev] & Hev & Hrun).
      apply evictOneLocked_quiet in Hev; [|done]. cbn in Hev. destruct ev; [|by simplify_eq].
      rewrite <-Hev. eapply IH; [exact Hrun|by rewrite Hev].
    - apply bind_Ret_inv in Hrun as (c1 & Hcall%call_policy_bus & [= <- _]). done. }
  unfold Put, Put_locked. destruct (policy (next_seq c)) as [p|]; [case_match; [by intros; simplify_eq|]|];
    intros Hrun Hq; by apply Hloop in Hrun.
Qed.

Lemma buildFrame_quiet `{GoRuntime} rt1 rt2 start now total c :
  bus (buildFrame rt1 rt2 start now total c).1 = bus c ∧
  Capacity (buildFrame rt1 rt2 start now total c).1 = Capacity c.
Proof.
  unfold buildFrame, Stats. assert (Hm : ∀ rt c, bus (Memory_ rt c).1 = bus c ∧ Capacity (Memory_ rt c).1 = Capacity c).
  { intros rt c0. unfold Memory_. destruct (policy c0) as [p|]; [|done]. by destruct (MetadataBytes p). }
  destruct (Memory_ rt1 c) as [c1 m1] eqn:E1. pose proof (Hm rt1 c) as HA. rewrite E1 in HA. cbn in HA.
  cbn [fst snd]. set (c2 := with_metrics _ c1). destruct (Memory_ rt2 c2) as [c3 m3] eqn:E2.
  pose proof (Hm rt2 c2) as HB. rewrite E2 in HB. cbn [fst snd]. destruct HA as [HA1 HA2], HB as [HB1 HB2]. split; [exact (eq_trans HB1 HA1)|exact (eq_trans HB2 HA2)].
Qed.
End quiet.

(** The subscribers of [run]: none wants what is published, and none has
    received or missed anything. *)
Record silent_bus (b : MemBus) : Prop := {
  sb_inv : bus_inv b;
  sb_wants i s c : view b i = Some (s, c) →
    (∀ t, t ∈ program_types → wants s t = false) ∧ chan_log c = [] ∧ dropped s = 0;
}.

Lemma silent_quiet b : silent_bus b → bus_quiet (Some b).
Proof.
  intros [Hi Hw] b1 e [= <-] He. cbn. unfold Publish. destruct (closed b); [done|].
  assert (Hsub : ∀ i, i ∈ order b → publish_one e i b = Ret b).
  { intros i Hin. apply (bi_order b Hi) in Hin as [n Hn]. destruct (bi_subs b Hi n i Hn) as (s & c & Hv & _).
    unfold publish_one. apply view_Some in Hv as Hv'. destruct Hv' as [-> _]. cbn.
    destruct (Hw i s c Hv) as [-> _]; done. }
  induction (order b) as [|i l IH]; [done|]. cbn [for_each]. rewrite Hsub by left. cbn [mbind outcome_bind].
  apply IH. intros j Hj. apply Hsub. by right.
Qed.

Lemma silent_Recv l b : silent_bus b → silent_bus (Recv l b).
Proof.
  intros [Hi Hw]. destruct (Recv_spec l b Hi) as (Hi' & _ & Hsub & Hlog). split; [done|].
  intros i s c Hv. apply view_Some in Hv as Hv'. destruct Hv' as [Hs _]. rewrite Hsub in Hs.
  destruct (bi_view b Hi i s Hs) as [c0 Hv0]. destruct (Hlog i s c0 Hv0) as (c1 & Hv1 & Hl).
  destruct (Hw i s c0 Hv0) as (? & ? & ?). assert (c1 = c) as -> by congruence. split_and!; [done|congruence|done].
Qed.

Lemma Close_subscribers b b' : Close b = Ret b' → subscribers b' = subscribers b.
Proof.
  unfold Close. destruct (closed b); [by intros [= <-]|].
  intros (b1 & Hall & [= <-])%bind_Ret_inv. cbn. remember (order b) as l eqn:E. clear E.
  revert b Hall. induction l as [|i l IH]; intros b Hall; cbn [for_each] in Hall; [by simplify_eq|].
  apply bind_Ret_inv in Hall as (b2 & H1 & H2). unfold close_one in H1.
  apply bind_Ret_inv in H1 as (s & _ & H1). apply bind_Ret_inv in H1 as (c & _ & H1).
  apply bind_Ret_inv in H1 as (c' & _ & [= <-]). by rewrite (IH _ H2).
Qed.

Lemma silent_Close b : silent_bus b → ∃ b', Close b = Ret b' ∧ silent_bus b' ∧ closed b' = true.
Proof.
  intros [Hi Hw]. destruct (Close_spec b Hi) as (b' & Hc & Hi' & [Hold _] & Hcl & _). exists b'.
  split_and!; [done| |done]. split; [done|]. intros i s c Hv. apply view_Some in Hv as Hv'.
  rewrite (Close_subscribers b b' Hc) in Hv'. destruct Hv' as [Hs _].
  destruct (bi_view b Hi i s Hs) as [c0 Hv0]. destruct (Hold i s c0 Hv0) as (c1 & Hv1 & Hl).
  destruct (Hw i s c0 Hv0) as (? & ? & ?). assert (c1 = c) as -> by congruence. split_and!; [done|congruence|done].
Qed.

Lemma silent_setup buf :
  ∃ b l, Subscribe "stdout-events" buf stdout_types NewBus = Ret (b, l) ∧ silent_bus b ∧ closed b = false.
Proof.
  destruct (Subscribe_spec "stdout-events" buf stdout_types NewBus bus_inv_New) as (b & l & Hrun & Hi & _ & Hcl & _ & Hnew).
  exists b, l. split; [done|]. split; [|done]. split; [done|]. intros i s c Hv. cbn in Hnew.
  destruct Hnew as (i0 & s0 & _ & _ & Hv0 & _ & _ & Hd & Hw).
  assert (i = i0) as ->.
  { apply view_Some in Hv as [Hs _]. apply view_Some in Hv0 as [Hs0 _]. unfold Subscribe, Events.removeLocked in Hrun. cbn in Hrun. rewrite lookup_empty in Hrun. cbn in Hrun. simplify_eq. cbn in Hs, Hs0.
    apply lookup_insert_Some in Hs as [[<- _]|[_ Hs]]; [|by rewrite lookup_empty in Hs].
    apply lookup_insert_Some in Hs0 as [[<- _]|[_ Hs0]]; [done|by rewrite lookup_empty in Hs0]. }
  rewrite Hv0 in Hv. simplify_eq. split_and!; [|done|done]. intros t Ht. destruct (wants s t) eqn:E; [|done].
  assert (Ht' : t = 1 ∨ t = 2 ∨ t = 3 ∨ t = 10 ∨ t = 11).
  { unfold program_types in Ht. rewrite !elem_of_cons, elem_of_nil in Ht. naive_solver. }
  apply Hw in E; [|by repeat constructor|lia]. destruct E as [|[E _]]; [done|]. exfalso.
  unfold stdout_types in E. rewrite !elem_of_cons, elem_of_nil in E.
  by destruct_or! Ht'; subst; destruct_or! E.
Qed.

(** ** Every run is safe *)
Section safety.
Context `{GoRuntime}.

(** The cache sound, its counters in range, its bus silent, and the bus closed
    or not. *)
Definition prog_inv (cap : Z) (cl : bool) (p : program) : Prop :=
  core_inv (pcore p) ∧ Capacity (pcore p) = cap ∧ (∀ k, missed p = Some k → k ≠ ""%string) ∧
  counters_ok (metrics (pcore p)) ∧
  ∃ b, bus (pcore p) = Some b ∧ silent_bus b ∧ closed b = cl.

Definition frame_ok (cap : Z) (f : Frame) : Prop :=
  0 ≤ FBytesUsed f ≤ cap ∧ FCapacity f = cap ∧ 0 ≤ FObjectCount f ∧ first_unsupported (frame_floats f) = None.

Definition is_tick (a : action) : bool := match a with ATick _ _ _ => true | _ => false end.
Definition ticks_of (acts : list action) : nat := length (filter (λ a, is_tick a = true) acts).

Lemma prog_inv_bus cap cl p b cl' :
  prog_inv cap cl p → silent_bus b → closed b = cl' → prog_inv cap cl' (with_core (with_bus (Some b) (pcore p)) p).
Proof.
  intros ([Hst Hpol _ Hk Hr] & Hcap & Hmiss & Hcnt & _) Hb Hcl. split; [|split_and!; [done|done|done|by exists b]].
  split; try done. intros b' [= <-]. apply Hb.
Qed.

Lemma prog_inv_core cap cl p c :
  prog_inv cap cl p → core_inv c → Capacity c = Capacity (pcore p) → bus c = bus (pcore p) →
  counters_ok (metrics c) → prog_inv cap cl (with_core c p).
Proof.
  intros (_ & Hcap & Hmiss & _ & Hb) Hc Hcap' Hbus Hcnt. split_and!; cbn; [done|congruence|done|done|by rewrite Hbus].
Qed.

Lemma prog_inv_quiet cap cl p : prog_inv cap cl p → bus_quiet (bus (pcore p)).
Proof. intros (_ & _ & _ & _ & b & -> & Hb & _). by apply silent_quiet. Qed.

Lemma on_bus_publish cap cl p e :
  prog_inv cap cl p → EType e ∈ program_types →
  ∃ p', on_bus (Publish e) p = Ret p' ∧ prog_inv cap cl p'.
Proof.
  intros Hp He. pose proof (prog_inv_quiet _ _ _ Hp) as Hq. pose proof Hp as (_ & _ & _ & _ & b & Hb & Hsb & Hcl).
  unfold on_bus. rewrite Hb. cbn. rewrite Hb in Hq. pose proof (Hq b e eq_refl He) as Hpub. cbn in Hpub.
  rewrite Hpub. cbn. eexists. split; [done|]. by eapply prog_inv_bus.
Qed.

Lemma prog_inv_missed cap cl p k :
  prog_inv cap cl p → (∀ k', k = Some k' → k' ≠ ""%string) → prog_inv cap cl (with_missed k p).
Proof. intros (? & ? & _ & ? & ?) Hk. by split_and!. Qed.

Lemma generate_inv cap cl p n t1 t2 :
  prog_inv cap cl p → ∃ p', generate n t1 t2 p = Ret p' ∧ prog_inv cap cl p'.
Proof.
  intros Hp. pose proof (prog_inv_quiet _ _ _ Hp) as Hq. pose proof Hp as (Hi & _ & Hmiss & Hcnt & _).
  unfold generate. destruct (missed p) as [k|].
  - assert (Hk : key_ok k) by (by apply Hmiss). assert (Hsz : is_i64 (Z.of_nat (length payload_1024))) by (by vm_compute).
    destruct (Put_spec k payload_1024 _ t1 (pcore p) Hi Hk Hsz) as (c & r & Hput & Hi' & Hcap & _). pose proof (Put_quiet _ _ _ _ _ _ _ Hput Hq) as Hb. rewrite Hput.
    cbn [mbind outcome_bind]. eexists. split; [done|]. apply prog_inv_missed; [|done].
    apply (prog_inv_core _ _ _ _ Hp Hi' Hcap Hb).
    exact (Put_counters_ok _ _ _ _ _ _ _ Hi Hk Hsz Hput Hcnt).
  - destruct (Get_spec (key_of n) t1 t2 (pcore p) Hi) as (c & Hget & Hi' & Hcap & _).
    pose proof (Get_quiet _ _ _ _ _ _ Hget Hq) as Hb. rewrite Hget. cbn [mbind outcome_bind].
    eexists. split; [done|]. apply prog_inv_missed; [exact (prog_inv_core _ _ _ _ Hp Hi' Hcap Hb (Get_counters_ok _ _ _ _ _ _ Hi Hget Hcnt))|].
    intros k'. case_bool_decide; intros [= <-]. done.
Qed.

Lemma run_action_inv start total cap cl a p :
  is_i64 total → prog_inv cap cl p →
  ∃ p' fs, run_action start total a p = Ret (p', fs) ∧ prog_inv cap cl p' ∧
    Forall (frame_ok cap) fs ∧ length fs = ticks_of [a].
Proof.
  intros Htot Hp. destruct a as [n t1 t2| |now rt1 rt2]; cbn [run_action].
  - destruct (generate_inv cap cl p n t1 t2 Hp) as (c & -> & Hc). eexists _, []. by split_and!.
  - pose proof Hp as (_ & _ & _ & _ & b & Hb & Hsb & Hcl). unfold on_bus. rewrite Hb. cbn.
    eexists _, []. split; [done|]. split_and!; [|done..].
    eapply prog_inv_bus; [exact Hp|by apply silent_Recv|].
    destruct (Recv_spec (eventCh p) b (sb_inv b Hsb)) as (_ & (_ & _ & ->) & _). done.
  - pose proof Hp as (Hi & Hcap & _ & Hcnt & _).
    pose proof (buildFrame_finite rt1 rt2 start now total (pcore p) Hcnt Htot) as Hfin.
    pose proof (buildFrame_reports rt1 rt2 start now total (pcore p) Hi) as Hf.
    pose proof (buildFrame_quiet rt1 rt2 start now total (pcore p)) as [Hbus Hcap'].
    destruct (buildFrame rt1 rt2 start now total (pcore p)) as [c f]. cbn in Hbus, Hcap'.
    destruct Hf as (Hc & Hst & Hbytes & Hobj & Hfc). destruct Hfin as [Hcnt' Hfin]. eexists _, [f]. split; [done|].
    split_and!; [by apply (prog_inv_core _ _ _ _ Hp)| |done].
    pose proof (Store.bytes_range _ (cv_store _ Hi)) as Hr. pose proof (Store.st_bytes _ (cv_store _ Hi)) as Hb.
    pose proof (Store.st_bound _ (cv_store _ Hi)). unfold Capacity, Store.Capacity in *.
    constructor; [|done]. split_and!; [lia..|by apply first_unsupported_finite].
Qed.

Lemma run_actions_inv start total cap cl acts p :
  is_i64 total → prog_inv cap cl p →
  ∃ p' fs, run_actions start total acts p = Ret (p', fs) ∧ prog_inv cap cl p' ∧
    Forall (frame_ok cap) fs ∧ length fs = ticks_of acts.
Proof.
  intros Htot. revert p. induction acts as [|a acts IH]; intros p Hp; [by exists p, []|]. cbn [run_actions].
  destruct (run_action_inv start total cap cl a p Htot Hp) as (p1 & fs & -> & Hp1 & Hfs & Hn).
  destruct (IH p1 Hp1) as (p2 & gs & Hrun & Hp2 & Hgs & Hm). cbn [mbind outcome_bind]. rewrite Hrun.
  exists p2, (fs ++ gs). split_and!; [done|done|by apply Forall_app|].
  unfold ticks_of in *. rewrite length_app, Hn, Hm. rewrite !filter_cons. by destruct a.
Qed.

Lemma finish_inv cap cl refused now p :
  prog_inv cap cl p → ∃ p', finish refused now p = Ret p' ∧ prog_inv cap true p'.
Proof.
  intros Hp. unfold finish.
  assert (Hend : ∃ p1, (if refused then Ret p else on_bus (Publish (event (Seq_ (pcore p)) now TypeRunEnd)) p) = Ret p1 ∧
    prog_inv cap cl p1).
  { destruct refused; [by exists p|]. apply on_bus_publish; [done|cbn; set_solver]. }
  destruct Hend as (p1 & -> & Hp1). cbn [mbind outcome_bind].
  pose proof Hp1 as (_ & _ & _ & _ & b & Hb & Hsb & _). unfold on_bus. rewrite Hb. cbn.
  destruct (silent_Close b Hsb) as (b' & -> & Hsb' & Hcl). cbn. eexists. split; [done|]. by eapply prog_inv_bus.
Qed.

Lemma setup_inv tick r flag cfg start :
  init_registry = Ret r → Config.Validate tick r cfg = [] →
  (flag = ""%string ∨ flag = PolicyNone ∨ is_Some (Registry.New flag r)) →
  is_u64 (Config.RequestSampleRate (Config.CEvents cfg)) →
  Config.Capacity (Config.Cache cfg) ≤ Store.maxCapacity → 0 < Config.FrameInterval cfg →
  ∃ p, setup tick r flag cfg start = Ret (inr p) ∧ prog_inv (Config.Capacity (Config.Cache cfg)) false p.
Proof.
  intros Hr Hv Hflag Hrate Hcap Hint.
  destruct (validated_config_resolves tick cfg flag r Hr Hv Hflag) as (pol & Hres & _ & Htr).
  apply Config.Validate_accepted in Hv as (Hpos & _).
  assert (Hsame : Config.Capacity (Config.Cache (override_policy flag cfg)) = Config.Capacity (Config.Cache cfg) ∧
    Config.CEvents (override_policy flag cfg) = Config.CEvents cfg ∧
    Config.FrameInterval (override_policy flag cfg) = Config.FrameInterval cfg) by (unfold override_policy; by case_decide).
  destruct Hsame as (Hc & He & Hf). unfold setup. rewrite Hres.
  destruct (silent_setup (Config.BusBuffer (Config.CEvents (override_policy flag cfg)))) as (b & l & -> & Hb & Hcl).
  cbn [mbind outcome_bind]. set (opts := cache_options pol b (override_policy flag cfg)).
  set (p0 := {| pcore := Core.New opts; eventCh := l; missed := None |}).
  assert (Hp0 : prog_inv (Config.Capacity (Config.Cache cfg)) false p0).
  { split_and!; [|cbn; unfold Config.Bytes; by rewrite Hc|done| |by exists b].
    2:{ apply (run_op_counters_ok (Collector.OSetPolicy _)), counters_ok_New. }
    apply core_inv_New. unfold options_ok, opts, cache_options, Config.Bytes. cbn. rewrite Hc, He.
    split_and!; [lia|done|apply Hrate|done|]. intros b' [= <-]. apply Hb. }
  destruct (on_bus_publish _ _ p0 (event 0 start TypeRunStart) Hp0) as (p1 & -> & Hp1); [cbn; set_solver|].
  cbn [mbind outcome_bind]. rewrite Hf. destruct (Z.leb_spec (Config.FrameInterval cfg) 0); [lia|]. by exists p1.
Qed.

(** A name that is not registered stops the program. *)
Lemma setup_unknown tick r flag cfg start :
  flag ≠ ""%string → flag ≠ PolicyNone → Registry.New flag r = None →
  setup tick r flag cfg start = Ret (inl (flag, Names tick r)).
Proof.
  intros Hf Hn Hnew. unfold setup, resolve_policy, override_policy. destruct (decide (flag = ""%string)) as [|_]; [done|].
  cbn. destruct (decide (flag = PolicyNone)) as [|_]; [done|]. by rewrite Hnew.
Qed.

Lemma Load_validated {E} unmarshal tick readFile (r : registry AnyPolicy) path (cfg : Config.Config) :
  Config.Load (E := E) unmarshal tick readFile r path = inr cfg → Config.Validate tick r cfg = [].
Proof.
  intros Hl. pose proof (Config.Load_outcome unmarshal tick readFile r path) as Ho. rewrite Hl in Ho. by destruct Ho as (? & _ & _ & ?).
Qed.

(** What a run leaves: encodable frames within the capacity, a sound cache, a closed bus
    on which nobody has received or missed anything. *)
Definition run_result (cap : Z) (ticks : nat) (p : program) (fs : list Frame) : Prop :=
  core_inv (pcore p) ∧ length fs = ticks ∧ Forall (frame_ok cap) fs ∧
  ∃ b, bus (pcore p) = Some b ∧ closed b = true ∧
    ∀ i s c, view b i = Some (s, c) → chan_log c = [] ∧ dropped s = 0.

Lemma run_from_inv start total cap now refused acts late p0 :
  is_i64 total → prog_inv cap false p0 →
  ∃ p fs, run start total now refused acts late p0 = Ret (p, fs) ∧ run_result cap (ticks_of acts) p fs.
Proof.
  intros Htot Hp0. destruct (run_actions_inv start total _ _ acts p0 Htot Hp0) as (p1 & fs & H1 & Hp1 & Hfs & Hn).
  destruct (finish_inv _ _ refused now p1 Hp1) as (p2 & H2 & Hp2).
  destruct (run_actions_inv start total _ _ late p2 Htot Hp2) as (p3 & gs & H3 & Hp3 & _).
  destruct Hp3 as (Hi & _ & _ & _ & b & Hb & [_ Hw] & Hcl).
  exists p3, fs. unfold run. rewrite H1. cbn [mbind outcome_bind]. rewrite H2. cbn [mbind outcome_bind].
  rewrite H3. split; [done|]. split_and!; [done..|]. exists b. split_and!; [done..|]. intros i s c Hvw. by apply (Hw i).
Qed.

(** C2: every run of the program is safe, whatever its arguments.  A wrong
    command line exits with status 2 and a request for help with 0.  A
    configuration that cannot be read, decoded or validated stops it with that
    error, and a [--policy] that is neither registered nor "none" with the
    unknown name and the known ones, both with status 1.  Otherwise, with a
    positive frame interval and a capacity of at most 2^62-1, however the
    generator, the drain and the frame loop interleave, and whatever the other
    goroutines still do after the bus is closed, nothing panics or hangs; every
    tick gives a frame whose floats the encoder takes and whose bytes are within
    the configured capacity; and the bus ends closed, however the loop ended.  The
    demo's subscriber, whose four types nothing publishes, has received nothing
    and missed nothing. *)
Theorem run_safe {E} (unmarshal : list Byte.byte → Config.Config → E + Config.Config) readFile
    tick r args start now refused acts late :
  init_registry = Ret r →
  match Parse args default_flags with
  | inl e =>
      main unmarshal readFile tick r args start =
      Ret (Exits (match e with HelpRequested => 0 | _ => 2 end) None)
  | inr (fl, _) =>
      match Config.Load unmarshal tick readFile r (configPath fl) with
      | inl e => main unmarshal readFile tick r args start = Ret (Exits 1 (Some (LoadFailed e)))
      | inr cfg =>
          let cap := Config.Capacity (Config.Cache cfg) in
          let flag := policyFlag fl in
          if decide (flag = ""%string ∨ flag = PolicyNone ∨ is_Some (Registry.New flag r)) then
            is_u64 (Config.RequestSampleRate (Config.CEvents cfg)) →
            cap ≤ Store.maxCapacity → 0 < Config.FrameInterval cfg →
            ∃ p0 p fs, main unmarshal readFile tick r args start = Ret (Runs fl p0) ∧
              run start (duration fl) now refused acts late p0 = Ret (p, fs) ∧ run_result cap (ticks_of acts) p fs
          else
            main unmarshal readFile tick r args start =
            Ret (Exits 1 (Some (UnknownPolicy flag (Names (S tick) r))))
      end
  end.
Proof.
  intros Hr. unfold main. destruct (Parse args default_flags) as [e|[fl rest]] eqn:Hargs; [by destruct e|].
  pose proof (Parse_duration _ _ _ _ Hargs ltac:(by vm_compute)) as Htot. unfold launch.
  destruct (Config.Load unmarshal tick readFile r (configPath fl)) as [e|cfg] eqn:Hl; [done|].
  apply Load_validated in Hl. cbv zeta. case_decide as Hflag.
  - intros Hrate Hcap Hint.
    assert (Hv : Config.Validate (S tick) r cfg = []).
    { apply Config.Validate_iff. exact (proj1 (Config.Validate_iff _ _ _) Hl). }
    destruct (setup_inv (S tick) r (policyFlag fl) cfg start Hr Hv Hflag Hrate Hcap Hint) as (p0 & -> & Hp0).
    destruct (run_from_inv start (duration fl) _ now refused acts late p0 Htot Hp0) as (p & fs & Hrun & Hres).
    exists p0, p, fs. by split_and!.
  - rewrite setup_unknown; [done|naive_solver..|]. destruct (Registry.New (policyFlag fl) r) eqn:E1; [|done].
    destruct Hflag. right; right. eauto.
Qed.
End safety.

(** The default configuration with [--policy clock]: two requests, a frame, and
    a request after the end. *)
Definition default_decoder (_ : list Byte.byte) (c : Config.Config) : unit + Config.Config := inr c.
Definition empty_file (_ : string) : unit + list Byte.byte := inr [].
Definition clock_args : list string := ["--policy"; "clock"; "-duration=5s"]%string.

Lemma run_safe_witness :
  ∃ r fl p0 p fs, init_registry = Ret r ∧ main default_decoder empty_file 0 r clock_args 0 = Ret (Runs fl p0) ∧
    run 0 (duration fl) 9 false
      [AGenerate 7 1 2; ADrain; AGenerate 7 3 3; AGenerate 7 4 5; ATick 8 no_runtime no_runtime]
      [AGenerate 1999 10 11] p0 = Ret (p, fs) ∧
    duration fl = 5000000000 ∧ length fs = 1%nat ∧ FBytesUsed <$> fs = [1024] ∧ core_inv (pcore p).
Proof.
  destruct init_registry as [r| |] eqn:Hr; [|discriminate Hr..].
  pose proof (run_safe default_decoder empty_file 0 r clock_args 0 9 false
    [AGenerate 7 1 2; ADrain; AGenerate 7 3 3; AGenerate 7 4 5; ATick 8 no_runtime no_runtime] [AGenerate 1999 10 11]
    Hr) as Hs. injection Hr as <-.
  destruct (Parse clock_args default_flags) as [e|[fl rest]] eqn:Hargs; [discriminate Hargs|].
  vm_compute in Hargs. injection Hargs as <- _.
  change (Config.Load default_decoder 0 empty_file _ _) with (@inr (Config.load_error unit) _ Config.Default) in Hs.
  cbv beta zeta iota in Hs. rewrite decide_True in Hs by (right; right; by vm_compute; eauto).
  destruct Hs as (p0 & p & fs & Hset & Hrun & Hi & Hn & _).
  - unfold is_u64; simpl; lia.
  - unfold Store.maxCapacity; simpl; lia.
  - vm_compute. reflexivity.
  - eexists _, _, p0, p, fs. split_and!; [reflexivity|exact Hset|exact Hrun|reflexivity|exact Hn| |exact Hi].
    vm_compute in Hset. injection Hset as <-. vm_compute in Hrun. injection Hrun as _ <-. reflexivity.
Defined.
