(* ===== verification/Messages.v ===== *)
(** * The texts of the errors

    What package errors and the verbs of fmt make of the errors of the store,
    the parameters, the sizes, the configuration and the command, and what
    [main] writes on standard error before it exits with 1.  The texts of the
    errors of the file system and of the YAML decoder, and the table of the
    printable runes, are arguments.  A reader of what [main] writes states that
    nothing is lost. *)
From stdpp Require Import pretty.
From S2P Require Import Prelude GoFloat FloatFacts GoText FormatFloat Json Quote Types Registry Config ByteSize Flags Program.
From S2P Require Store.
From S2P Require CSV.
From S2P Require StatsJSON.
From S2P Require Main.

Definition lit : string → text := explode.

(** The verbs %d and %g, and %v of a list of names. *)
Definition fmt_d (n : Z) : text := explode (pretty n).
Definition fmt_g (f : float64) : text := format_float StyleG f.
Fixpoint spaced (ts : list text) : text :=
  match ts with [] => [] | [t] => t | t :: ts => t ++ space :: spaced ts end.
Definition fmt_names (names : list PolicyName) : text := lit "[" ++ spaced (explode <$> names) ++ lit "]".

(** [errors.Join]: one text after the other, with line feeds between. *)
Fixpoint join_lines (ts : list text) : text :=
  match ts with [] => [] | [t] => t | t :: ts => t ++ newline :: join_lines ts end.

Section texts.
Context (is_print : Z → bool) {E : Type} (err_text : E → text).

Definition fmt_q (s : string) : text := Quote is_print s.

(** ** cache/cache.go and cache/policy *)

Definition store_error_text (e : Store.store_error) : text :=
  match e with
  | Store.ErrObjectTooLarge => lit "cache: object larger than capacity"
  | Store.ErrCapacityExceeded => lit "cache: insufficient capacity"
  | Store.ErrInvalidSize => lit "cache: negative object size"
  end.

Definition ErrUnknownPolicy : text := lit "policy: unknown eviction policy".

(** [Parameter.Set] *)
Definition Set_error_text (e : param_error) : text :=
  match e with
  | OutOfRange name v lo hi =>
      lit "parameter " ++ fmt_q name ++ lit ": value " ++ fmt_g v ++ lit " out of range [" ++ fmt_g lo ++
      lit ", " ++ fmt_g hi ++ lit "]"
  | NoSuchParameter policy name => lit policy ++ lit ": no such parameter " ++ fmt_q name
  end.

(** The policies' [SetParam]: only LFU has a parameter. *)
Definition SetParam_error_text (e : param_error) : text :=
  match e with
  | OutOfRange _ v lo hi =>
      lit "lfu: decay_lambda=" ++ fmt_g v ++ lit " out of [" ++ fmt_g lo ++ lit ", " ++ fmt_g hi ++ lit "]"
  | NoSuchParameter policy name => lit policy ++ lit ": no such parameter " ++ fmt_q name
  end.

(** ** config/ *)

(** [strconv.NumError] *)
Definition num_error_text (num : text) (e : num_error) : text :=
  lit "strconv.ParseFloat: parsing " ++ fmt_q (implode num) ++
  match e with ErrSyntax => lit ": invalid syntax" | ErrRange => lit ": value out of range" end.

Definition size_error_text (e : size_error) : text :=
  match e with
  | EmptySize => lit "empty byte size"
  | InvalidNumber s num e => lit "invalid byte size " ++ fmt_q s ++ lit ": " ++ num_error_text num e
  | InvalidSize s => lit "invalid byte size " ++ fmt_q s
  end.

Definition capacity_msg : text := lit "cache.capacity must be > 0 bytes, got ".
Definition policy_msg : text := lit "cache.policy ".
Definition empty_msg : text :=
  lit "must not be empty (use " ++ quote :: lit "none" ++ quote :: lit " for a nil-policy cache)".
Definition known_msg : text := lit " is not registered; known policies: ".
Definition bus_msg : text := lit "events.bus_buffer must be > 0, got ".
Definition metrics_msg : text := lit "events.metrics_buffer must be > 0, got ".
Definition frame_msg : text := lit "events.frame_buffer must be > 0, got ".
Definition sample_msg : text := lit "events.request_sample_rate must be >= 1 (1 means every request)".
Definition rate_msg : text := lit "ui.frame_rate_hz must be in (0, " ++ fmt_d maxFrameRateHz ++ lit "], got ".

(** [strings.Join] with a comma and a space. *)
Fixpoint comma_joined (ts : list text) : text :=
  match ts with [] => [] | [t] => t | t :: ts => t ++ lit ", " ++ comma_joined ts end.
Definition level_msg : text := lit "log.level must be one of " ++ comma_joined (lit <$> validLogLevels) ++ lit ", got ".

Definition config_error_text (e : config_error) : text :=
  match e with
  | ECapacity got => capacity_msg ++ fmt_d got
  | EPolicyEmpty => policy_msg ++ empty_msg
  | EPolicyUnknown name known => policy_msg ++ fmt_q name ++ known_msg ++ fmt_names known
  | EBusBuffer got => bus_msg ++ fmt_d got
  | EMetricsBuffer got => metrics_msg ++ fmt_d got
  | EFrameBuffer got => frame_msg ++ fmt_d got
  | ESampleRate => sample_msg
  | EFrameRate got => rate_msg ++ fmt_g got
  | ELogLevel got => level_msg ++ fmt_q got
  end.

Definition Validate_text (errs : list config_error) : text := join_lines (config_error_text <$> errs).

(** [Parse], and [Load] around it. *)
Definition load_error_text (path : string) (e : load_error E) : text :=
  match e with
  | ReadFailed e => lit "read config " ++ fmt_q path ++ lit ": " ++ err_text e
  | DecodeFailed e => lit "config " ++ fmt_q path ++ lit ": " ++ lit "parse config: " ++ err_text e
  | Invalid errs => lit "config " ++ fmt_q path ++ lit ": " ++ Validate_text errs
  end.

(** ** metrics/collector.go *)

Definition csv_error_text (e : CSV.csv_error E) : text :=
  match e with
  | CSV.WriteFailed path e => lit "write csv " ++ fmt_q path ++ lit ": " ++ err_text e
  | CSV.CloseFailed e => err_text e
  end.

Definition json_error_text (e : StatsJSON.json_error E) : text :=
  match e with
  | StatsJSON.EncodeFailed path f => lit "write json " ++ fmt_q path ++ lit ": json: unsupported value: " ++ fmt_g f
  | StatsJSON.JSONWriteFailed path e => lit "write json " ++ fmt_q path ++ lit ": " ++ err_text e
  end.

(** ** cmd/adaptive-cache/main.go *)

Definition run_error_text (path : string) (e : run_error E) : text :=
  match e with
  | LoadFailed e => load_error_text path e
  | UnknownPolicy name known => lit "unknown eviction policy " ++ fmt_q name ++ lit " (known: " ++ fmt_names known ++ lit ")"
  end.

(** The line on standard error. *)
Definition report (path : string) (e : run_error E) : text :=
  lit "adaptive-cache: " ++ run_error_text path e ++ [newline].
End texts.

(** ** Reading the report *)

Definition bracket : Ascii.ascii := byte_of 93.

Fixpoint read_words (w s : text) : option (list text * text) :=
  match s with
  | [] => None
  | c :: s =>
      if decide (c = bracket) then Some ([reverse w], s)
      else if decide (c = space) then '(ws, rest) ← read_words [] s; Some (reverse w :: ws, rest)
      else read_words (c :: w) s
  end.

Definition read_names (s : text) : option (list PolicyName * text) :=
  s ← strip_prefix (lit "[") s;
  match strip_prefix (lit "]") s with
  | Some rest => Some ([], rest)
  | None => match read_words [] s with Some (ws, rest) => Some (map implode ws, rest) | None => None end
  end.

Definition read_g (s : text) : option float64 := match ParseFloat s with inr f => Some f | inl _ => None end.

(** What follows the first of the texts, read in its way. *)
Fixpoint read_first {A} (ways : list (text * (text → option A))) (s : text) : option A :=
  match ways with
  | [] => None
  | (msg, read) :: ways => match strip_prefix msg s with Some v => read v | None => read_first ways s end
  end.

Definition the_end {A} (a : A) (s : text) : option A := match s with [] => Some a | _ => None end.

Definition read_unknown (s : text) : option config_error :=
  '(name, s) ← read_quoted s; s ← strip_prefix known_msg s; '(known, s) ← read_names s; the_end (EPolicyUnknown name known) s.
Definition read_policy (s : text) : option config_error :=
  match strip_prefix empty_msg s with Some s => the_end EPolicyEmpty s | None => read_unknown s end.
Definition read_level (s : text) : option config_error := '(got, s) ← read_quoted s; the_end (ELogLevel got) s.

Definition read_problem : text → option config_error :=
  read_first [
    (capacity_msg, λ v, ECapacity <$> ParseInt v);
    (policy_msg, read_policy);
    (bus_msg, λ v, EBusBuffer <$> ParseInt v);
    (metrics_msg, λ v, EMetricsBuffer <$> ParseInt v);
    (frame_msg, λ v, EFrameBuffer <$> ParseInt v);
    (sample_msg, the_end ESampleRate);
    (rate_msg, λ v, EFrameRate <$> read_g v);
    (level_msg, read_level)].

Fixpoint split_lines (w s : text) : list text :=
  match s with
  | [] => [reverse w]
  | c :: s => if decide (c = newline) then reverse w :: split_lines [] s else split_lines (c :: w) s
  end.

(** What the report says. *)
Inductive reported :=
| CannotRead (path : string) (why : text)
| CannotDecode (path : string) (why : text)
| IsInvalid (path : string) (errs : list config_error)
| NoSuchPolicy (name : string) (known : list PolicyName).

Definition read_config_report (s : text) : option reported :=
  '(path, s) ← read_quoted s;
  s ← strip_prefix (lit ": ") s;
  match strip_prefix (lit "parse config: ") s with
  | Some why => Some (CannotDecode path why)
  | None => IsInvalid path <$> mapM read_problem (split_lines [] s)
  end.

Definition read_report (s : text) : option reported :=
  s ← strip_prefix (lit "adaptive-cache: ") s;
  s ← strip_suffix [newline] s;
  read_first [
    (lit "read config ", λ s, '(path, s) ← read_quoted s; why ← strip_prefix (lit ": ") s; Some (CannotRead path why));
    (lit "config ", read_config_report);
    (lit "unknown eviction policy ", λ s,
      '(name, s) ← read_quoted s; s ← strip_prefix (lit " (known: ") s; '(known, s) ← read_names s;
      if decide (s = lit ")") then Some (NoSuchPolicy name known) else None)] s.

(** ** Nothing is lost *)

Definition plain_char (c : Ascii.ascii) : bool :=
  negb (bool_decide (c = space) || bool_decide (c = bracket) || bool_decide (c = newline)).

(** A name that a list of names shows as it is. *)
Definition plain (name : PolicyName) : Prop := explode name ≠ [] ∧ forallb plain_char (explode name) = true.

(** A float64 that a decoder can give. *)
Definition f64_typed (f : float64) : Prop := match f with S754_finite _ _ _ => finite64 f = true | _ => True end.

Lemma read_word w t s : forallb plain_char t = true → read_words w (t ++ s) = read_words (reverse t ++ w) s.
Proof.
  revert w. induction t as [|c t IH]; intros w Ht; [done|]. apply andb_prop in Ht as [Hc Ht]. cbn [app read_words].
  unfold plain_char in Hc. apply negb_true_iff, orb_false_iff in Hc as [[Hs Hb]%orb_false_iff _].
  apply bool_decide_eq_false in Hs, Hb. rewrite !decide_False, IH by done. by rewrite reverse_cons, <-(assoc_L (++)).
Qed.

Lemma read_spaced t ts rest :
  Forall (λ t, forallb plain_char t = true) (t :: ts) →
  read_words [] (spaced (t :: ts) ++ bracket :: rest) = Some (t :: ts, rest).
Proof.
  revert t. induction ts as [|u ts IH]; intros t Ht; apply Forall_cons in Ht as [Ht Hts].
  - cbn [spaced]. rewrite read_word by done. cbn [read_words]. rewrite decide_True by done.
    by rewrite app_nil_r, reverse_involutive.
  - change (spaced (t :: u :: ts)) with (t ++ space :: spaced (u :: ts)). rewrite <-(assoc_L (++)), read_word by done.
    rewrite <-app_comm_cons. cbn [read_words]. rewrite decide_False by done. rewrite decide_True by done.
    rewrite IH by done. cbn [mbind option_bind]. by rewrite app_nil_r, reverse_involutive.
Qed.

Lemma read_names_fmt names rest : Forall plain names → read_names (fmt_names names ++ rest) = Some (names, rest).
Proof.
  intros Hp. unfold read_names, fmt_names. rewrite <-!(assoc_L (++)), strip_prefix_app. cbn [mbind option_bind].
  destruct names as [|n names]; [done|].
  assert (Hw : Forall (λ t, forallb plain_char t = true) (explode <$> n :: names)).
  { apply Forall_fmap. eapply Forall_impl; [exact Hp|]. by intros ? []. }
  change (lit "]" ++ rest) with (bracket :: rest). rewrite fmap_cons in *. rewrite read_spaced by done.
  apply Forall_cons in Hp as [[Hne Hn] _]. destruct (explode n) as [|c t] eqn:Hex; [done|].
  assert (Hhead : ∀ l, strip_prefix (lit "]") (spaced ((c :: t) :: l) ++ bracket :: rest) = None).
  { intros l. assert (Hc : bracket ≠ c).
    { intros <-. by vm_compute in Hn. }
    destruct l; cbn; by rewrite decide_False. }
  rewrite Hhead. cbn [mbind option_bind]. rewrite <-Hex, <-fmap_cons, <-list_fmap_compose.
  f_equal. f_equal. rewrite <-(list_fmap_id (n :: names)) at 2. apply list_fmap_ext. intros ? ? _. apply implode_explode.
Qed.

Lemma split_line w t s : one_line t → split_lines w (t ++ newline :: s) = (reverse w ++ t) :: split_lines [] s.
Proof.
  revert w. induction t as [|c t IH]; intros w Ht; cbn [app split_lines].
  - rewrite decide_True by done. by rewrite app_nil_r.
  - apply andb_prop in Ht as [Hc Ht]. rewrite decide_False by (by intros ->). rewrite IH by done.
    by rewrite reverse_cons, <-(assoc_L (++)).
Qed.

Lemma split_last w t : one_line t → split_lines w t = [reverse w ++ t].
Proof.
  revert w. induction t as [|c t IH]; intros w Ht; cbn [split_lines]; [by rewrite app_nil_r|].
  apply andb_prop in Ht as [Hc Ht]. rewrite decide_False by (by intros ->). rewrite IH by done.
  by rewrite reverse_cons, <-(assoc_L (++)).
Qed.

Lemma split_join t ts : Forall one_line (t :: ts) → split_lines [] (join_lines (t :: ts)) = t :: ts.
Proof.
  revert t. induction ts as [|u ts IH]; intros t Hts; apply Forall_cons in Hts as [Ht Hts]; [by apply split_last|].
  change (join_lines (t :: u :: ts)) with (t ++ newline :: join_lines (u :: ts)). by rewrite split_line, IH.
Qed.

Lemma one_line_fmt_d n : one_line (fmt_d n).
Proof. apply one_line_numeric, numeric_pretty. Qed.

Lemma fmt_g_typed f : f64_typed f → f ≠ S754_nan → one_line (fmt_g f) ∧ read_g (fmt_g f) = Some f.
Proof.
  intros Ht Hn. destruct (finite64 f) eqn:Hf.
  - split; [apply one_line_numeric, numeric_format_float, Hf|]. unfold read_g, fmt_g. by rewrite format_float_reads.
  - destruct f as [|[]| |]; try done; cbn in *; congruence.
Qed.

Lemma one_line_names names : Forall plain names → one_line (fmt_names names).
Proof.
  assert (Hplain : ∀ name, plain name → one_line (explode name)).
  { intros name [_ Hn]. unfold one_line. rewrite forallb_forall in *. intros c Hc. specialize (Hn c Hc).
    unfold plain_char in Hn. apply negb_true_iff, orb_false_iff in Hn as [_ Hn%bool_decide_eq_false].
    destruct (Z.eqb_spec (byte_val c) 10) as [Hb|]; [|done]. destruct Hn. by rewrite <-(byte_of_val c), Hb. }
  intros Hp. unfold fmt_names. apply one_line_app; [done|]. apply one_line_app; [|done].
  induction Hp as [|n names Hn Hp IH]; [done|]. cbn [fmap list_fmap]. destruct names as [|m names]; [by apply Hplain|].
  change (spaced _) with (explode n ++ space :: spaced (explode <$> m :: names)).
  apply one_line_app; [by apply Hplain|]. by apply one_line_cons.
Qed.

(** An error as [Validate] can report it. *)
Definition error_ok (e : config_error) : Prop :=
  match e with
  | ECapacity n | EBusBuffer n | EMetricsBuffer n | EFrameBuffer n => is_i64 n
  | EPolicyUnknown _ known => Forall plain known
  | EFrameRate f => f64_typed f ∧ f ≠ S754_nan
  | EPolicyEmpty | ESampleRate | ELogLevel _ => True
  end.

(** Neither text is the beginning of the other. *)
Fixpoint differ (p q : text) : bool :=
  match p, q with c :: p, d :: q => if decide (c = d) then differ p q else true | _, _ => false end.

Lemma strip_prefix_differ p q v : differ p q = true → strip_prefix p (q ++ v) = None.
Proof.
  revert q. induction p as [|c p IH]; intros [|d q] Hd; try done. cbn in *.
  destruct (decide (c = d)); [by apply IH|done].
Qed.

(** A text with the message of the way [n] is read in that way. *)
Lemma read_first_at {A} n (ways : list (text * (text → option A))) msg read v :
  ways !! n = Some (msg, read) → forallb (λ w, differ w.1 msg) (take n ways) = true →
  read_first ways (msg ++ v) = read v.
Proof.
  revert n. induction ways as [|[msg' read'] ways IH]; intros [|n] Hn Hd; simplify_eq/=.
  - by rewrite strip_prefix_app.
  - apply andb_prop in Hd as [Hd Hds]. rewrite strip_prefix_differ by done. by eapply IH.
Qed.

Section reads.
Context (is_print : Z → bool).

Lemma one_line_problem e : error_ok e → one_line (config_error_text is_print e).
Proof.
  destruct e; cbn [config_error_text error_ok]; intros Hok;
    repeat lazymatch goal with
           | |- one_line (_ ++ _) => apply one_line_app
           | |- one_line (fmt_d _) => apply one_line_fmt_d
           | |- one_line (fmt_g _) => apply fmt_g_typed; apply Hok
           | |- one_line (fmt_names _) => by apply one_line_names
           | |- one_line (fmt_q _ _) => apply one_line_Quote
           | |- _ => reflexivity
           end.
Qed.

Lemma read_problem_text e : error_ok e → read_problem (config_error_text is_print e) = Some e.
Proof.
  unfold read_problem. destruct e as [n| |name known|n|n|n| |f|s]; cbn [config_error_text error_ok]; intros Hok.
  - erewrite (read_first_at 0) by reflexivity. unfold fmt_d. by rewrite ParseInt_pretty.
  - rewrite <-(app_nil_r empty_msg). by erewrite (read_first_at 1) by reflexivity.
  - erewrite (read_first_at 1) by reflexivity.
    change (read_policy (fmt_q is_print name ++ known_msg ++ fmt_names known))
      with (read_unknown (fmt_q is_print name ++ known_msg ++ fmt_names known)).
    unfold read_unknown, fmt_q. rewrite Quote_reads_back.
    cbn [mbind option_bind]. rewrite strip_prefix_app. cbn [mbind option_bind].
    by rewrite <-(app_nil_r (fmt_names known)), read_names_fmt.
  - erewrite (read_first_at 2) by reflexivity. unfold fmt_d. by rewrite ParseInt_pretty.
  - erewrite (read_first_at 3) by reflexivity. unfold fmt_d. by rewrite ParseInt_pretty.
  - erewrite (read_first_at 4) by reflexivity. unfold fmt_d. by rewrite ParseInt_pretty.
  - rewrite <-(app_nil_r sample_msg). by erewrite (read_first_at 5) by reflexivity.
  - erewrite (read_first_at 6) by reflexivity. destruct (fmt_g_typed f) as [_ ->]; [by destruct Hok..|]. done.
  - erewrite (read_first_at 7) by reflexivity. unfold read_level, fmt_q.
    by rewrite <-(app_nil_r (Quote is_print s)), Quote_reads_back.
Qed.

Lemma read_problems errs :
  errs ≠ [] → Forall error_ok errs → mapM read_problem (split_lines [] (Validate_text is_print errs)) = Some errs.
Proof.
  intros Hne Hok. destruct errs as [|e errs]; [done|]. unfold Validate_text. rewrite fmap_cons, split_join.
  - rewrite <-fmap_cons. apply mapM_Some. apply Forall2_fmap_l. apply Forall_Forall2_diag.
    eapply Forall_impl; [exact Hok|]. apply read_problem_text.
  - rewrite <-fmap_cons. apply Forall_fmap. eapply Forall_impl; [exact Hok|]. apply one_line_problem.
Qed.

(** A list of problems does not look like the error of the decoder. *)
Lemma Validate_not_decode errs : strip_prefix (lit "parse config: ") (Validate_text is_print errs) = None.
Proof.
  destruct errs as [|e [|e' errs]]; [done|unfold Validate_text; cbn [fmap list_fmap join_lines]|].
  - destruct e; reflexivity.
  - change (Validate_text is_print (e :: e' :: errs))
      with (config_error_text is_print e ++ newline :: Validate_text is_print (e' :: errs)). by destruct e.
Qed.
End reads.

(** ** The report of [main] *)

(** A configuration whose numbers are in the range of their Go types. *)
Definition config_typed (cfg : Config.Config) : Prop :=
  is_i64 (Capacity (Cache cfg)) ∧ is_i64 (BusBuffer (CEvents cfg)) ∧ is_i64 (MetricsBuffer (CEvents cfg)) ∧
  is_i64 (FrameBuffer (CEvents cfg)) ∧ f64_typed (FrameRateHz (UI cfg)).

Section main.
Context `{GoRuntime} (is_print : Z → bool) {E : Type} (err_text : E → text).
Context (unmarshal : list Byte.byte → Config.Config → E + Config.Config) (readFile : string → E + list Byte.byte).
Context (tick : nat) (r : registry AnyPolicy).

(** What the report says is the case. *)
Definition cause (path : string) (what : reported) : Prop :=
  match what with
  | CannotRead p why => p = path ∧ ∃ e, readFile path = inl e ∧ why = err_text e
  | CannotDecode p why => p = path ∧ ∃ data e, readFile path = inr data ∧ unmarshal data Default = inl e ∧ why = err_text e
  | IsInvalid p errs =>
      p = path ∧ ∃ data cfg, readFile path = inr data ∧ unmarshal data Default = inr cfg ∧ errs ≠ [] ∧
        ∀ e, e ∈ errs ↔ problem tick r cfg e
  | NoSuchPolicy name known => Registry.New name r = None ∧ ∀ n, n ∈ known ↔ is_Some (Registry.New n r)
  end.

Lemma launch_fails fl start e :
  launch unmarshal readFile tick r fl start = Ret (inl e) →
  match e with
  | LoadFailed e => Load unmarshal tick readFile r (configPath fl) = inl e
  | UnknownPolicy name known => Registry.New name r = None ∧ known = Names (S tick) r
  end.
Proof.
  unfold launch. destruct (Load _ _ _ _ _) as [le|cfg]; [by intros [= <-]|].
  intros ([[name known]|p] & Hs & [= <-])%bind_Ret_inv. unfold setup in Hs.
  destruct (Main.resolve_policy (S tick) r _) as [[name' known']|pol] eqn:Hp; [|by repeat (apply bind_Ret_inv in Hs as ([] & _ & Hs) || apply bind_Ret_inv in Hs as (? & _ & Hs) || case_match)].
  simplify_eq. unfold Main.resolve_policy in Hp. case_decide; [done|]. by case_match; simplify_eq.
Qed.

Hypothesis names_plain : ∀ name, is_Some (Registry.New name r) → plain name.

Lemma plain_Names t : Forall plain (Names t r).
Proof. apply Forall_forall. intros n Hn%elem_of_Names. by apply names_plain. Qed.

Lemma Validate_error_ok cfg : config_typed cfg → Forall error_ok (Validate tick r cfg).
Proof.
  intros (Hc & Hb & Hm & Hf & Hr). apply Forall_forall. intros e He%Validate_problems.
  destruct He as [| | | | | | |Hrate|]; cbn [error_ok]; try done; [apply plain_Names|].
  split; [done|]. intros Hnan. rewrite Hnan in Hrate. by destruct Hrate.
Qed.

Lemma read_report_spec path e (what : reported) :
  match e with
  | LoadFailed (ReadFailed e) => what = CannotRead path (err_text e)
  | LoadFailed (DecodeFailed e) => what = CannotDecode path (err_text e)
  | LoadFailed (Invalid errs) => what = IsInvalid path errs ∧ errs ≠ [] ∧ Forall error_ok errs
  | UnknownPolicy name known => what = NoSuchPolicy name known ∧ Forall plain known
  end → read_report (report is_print err_text path e) = Some what.
Proof.
  unfold read_report, report. rewrite strip_prefix_app. cbn [mbind option_bind]. rewrite strip_suffix_app.
  cbn [mbind option_bind]. destruct e as [[e|e|errs]|name known]; cbn [run_error_text load_error_text].
  - intros ->. erewrite (read_first_at 0) by reflexivity. unfold fmt_q. rewrite Quote_reads_back.
    cbn [mbind option_bind]. by rewrite strip_prefix_app.
  - intros ->. erewrite (read_first_at 1) by reflexivity. unfold read_config_report, fmt_q. rewrite Quote_reads_back.
    cbn [mbind option_bind]. rewrite strip_prefix_app. cbn [mbind option_bind]. by rewrite strip_prefix_app.
  - intros (-> & Hne & Hok). erewrite (read_first_at 1) by reflexivity. unfold read_config_report, fmt_q.
    rewrite Quote_reads_back. cbn [mbind option_bind]. rewrite strip_prefix_app. cbn [mbind option_bind].
    by rewrite Validate_not_decode, read_problems.
  - intros [-> Hk]. erewrite (read_first_at 2) by reflexivity. unfold fmt_q. rewrite Quote_reads_back.
    cbn [mbind option_bind]. rewrite strip_prefix_app. cbn [mbind option_bind]. rewrite read_names_fmt by done.
    cbn [mbind option_bind]. by rewrite decide_True.
Qed.

(** C36: what [main] writes before it exits with 1 is true and complete.  If
    the decoder keeps the numbers in their types and the registered names have
    no space, bracket or line feed, the text on standard error reads back:
    which file could not be read or decoded, with the text of that error; or
    every problem of the configuration, with the value found; or the policy
    that is not registered with exactly those that are.  Whatever bytes a path
    or a name has, no two causes give the same text. *)
Theorem main_reports_cause args start e :
  (∀ data cfg, unmarshal data Default = inr cfg → config_typed cfg) →
  main unmarshal readFile tick r args start = Ret (Exits 1 (Some e)) →
  ∃ fl rest what, Flags.Parse args default_flags = inr (fl, rest) ∧
    read_report (report is_print err_text (configPath fl) e) = Some what ∧ cause (configPath fl) what.
Proof.
  intros Hdec. unfold main. destruct (Flags.Parse args default_flags) as [fe|[fl rest]]; [by destruct fe|].
  intros ([e'|p] & Hl & [= <-])%bind_Ret_inv. apply launch_fails in Hl. exists fl, rest.
  destruct e' as [le|name known].
  - pose proof (Load_outcome unmarshal tick readFile r (configPath fl)) as Ho. rewrite Hl in Ho.
    destruct le as [e|e|errs].
    + exists (CannotRead (configPath fl) (err_text e)). split_and!; [done|by apply read_report_spec|]. cbn. eauto.
    + exists (CannotDecode (configPath fl) (err_text e)). split_and!; [done|by apply read_report_spec|]. cbn. naive_solver.
    + destruct Ho as (data & cfg & Hf & Hd & -> & Hne). exists (IsInvalid (configPath fl) (Validate tick r cfg)).
      split_and!; [done| |].
      * apply read_report_spec. split_and!; [done..|]. by eapply Validate_error_ok, Hdec.
      * split; [done|]. exists data, cfg. split_and!; [done..|]. apply Validate_problems.
  - destruct Hl as [Hn ->]. exists (NoSuchPolicy name (Names (S tick) r)). split_and!; [done| |].
    + apply read_report_spec. split; [done|]. apply plain_Names.
    + split; [done|]. intros n. apply elem_of_Names.
Qed.
End main.

(** The policies of the program have plain names. *)
Lemma init_registry_plain `{GoRuntime} r name :
  init_registry = Ret r → is_Some (Registry.New name r) → plain name.
Proof.
  intros Hr Hn. apply (elem_of_Names r 0) in Hn. rewrite (init_registry_names 0 r Hr) in Hn.
  repeat apply elem_of_cons in Hn as [->|Hn]; try by split. by apply elem_of_nil in Hn.
Qed.

(** A file whose name has a quote, with a capacity of -5 and a level of two
    lines. *)
Definition bad_config : Config.Config :=
  {| Cache := {| Capacity := -5; CPolicy := "arc" |}; CEvents := CEvents Default; UI := UI Default;
     Log := {| Level := String (byte_of 10) "loud" |}; CFeatures := CFeatures Default |}.
Definition bad_decoder (_ : list Byte.byte) (_ : Config.Config) : unit + Config.Config := inr bad_config.
Definition bad_path : string := String (byte_of 34) "my.yaml".
Definition bad_args : list string := ["-config"%string; bad_path].

Definition bad_errors : list config_error :=
  [ECapacity (-5); EPolicyUnknown "arc" [PolicyClock; PolicyLFU; PolicyLRU]; ELogLevel (String (byte_of 10) "loud")].

Example message_samples :
  implode <$>
    [config_error_text (λ _, true) (ECapacity (-5)); config_error_text (λ _, true) (EFrameRate (f64_of_ratio 481 2));
     fmt_names [PolicyClock; PolicyLRU]; store_error_text Store.ErrCapacityExceeded;
     drop 9 (take 19 (config_error_text (λ _, true) (ELogLevel "x")))] =
  ["cache.capacity must be > 0 bytes, got -5"; "ui.frame_rate_hz must be in (0, 240], got 240.5";
   "[clock lru]"; "cache: insufficient capacity"; " must be o"]%string.
Proof. vm_compute. reflexivity. Qed.

Lemma main_reports_cause_witness :
  ∃ r what, init_registry = Ret r ∧
    main bad_decoder empty_file 0 r bad_args 0 = Ret (Exits 1 (Some (LoadFailed (Invalid bad_errors)))) ∧
    read_report (report (λ _, true) (λ _ : unit, []) bad_path (LoadFailed (Invalid bad_errors))) = Some what ∧
    what = IsInvalid bad_path bad_errors ∧ cause (λ _, []) bad_decoder empty_file 0 r bad_path what.
Proof.
  destruct init_registry as [r| |] eqn:Hr; [|discriminate Hr..]. pose proof Hr as Hr'. injection Hr' as <-.
  eexists _. match type of Hr with _ = Ret ?r => set (r0 := r) in * end.
  assert (Hm : main bad_decoder empty_file 0 r0 bad_args 0 = Ret (Exits 1 (Some (LoadFailed (Invalid bad_errors)))))
    by (vm_compute; reflexivity).
  destruct (main_reports_cause (λ _, true) (λ _, []) bad_decoder empty_file 0 r0 (λ name, init_registry_plain r0 name Hr)
    bad_args 0 (LoadFailed (Invalid bad_errors))) as (fl & rest & what & Hargs & Hread & Hcause); [|exact Hm|].
  { clear. intros data cfg [= <-]. split_and!; try done; unfold is_i64; cbn; lia. }
  assert (Hpath : configPath fl = bad_path).
  { clear -Hargs. vm_compute in Hargs. injection Hargs as <- _. reflexivity. }
  rewrite Hpath in Hread, Hcause. exists what. split_and!; [reflexivity|exact Hm|exact Hread| |exact Hcause].
  assert (Hr2 : read_report (report (λ _, true) (λ _ : unit, []) bad_path (LoadFailed (Invalid bad_errors))) =
    Some (IsInvalid bad_path bad_errors)) by (vm_compute; reflexivity).
  rewrite Hr2 in Hread. injection Hread as <-. reflexivity.
Defined.
